(* ===== verification/_CoqProject ===== *)
-Q . S2P
Prelude.v
GoTime.v
GoStrings.v
Model.v
Samples.v
Json.v
Engine.v
EngineFacts.v
EngineTheorems.v
EngineRestart.v
Slots.v
Journal.v
Backfill.v
GoOS.v
Wal.v
Codec.v
WalFacts.v
WalTheorems.v
RemoteWrite.v
RemoteWriteFacts.v
RemoteWriteTheorems.v
Migration.v
Delivery.v
DeliveryFacts.v
DeliveryTheorems.v
GoText.v
GoNet.v
GoFloat.v
Sha256.v
Config.v
ConfigTheorems.v
Probe.v
ProbeTheorems.v
ProbeMessages.v
Systemd.v
SystemdTheorems.v
Identity.v
Metrics.v
MetricsTheorems.v
Main.v
Startup.v
MainFacts.v
MainTheorems.v
StartupTheorems.v
MainStatus.v
