(* ===== verification/Prelude.v ===== *)
(** * systemd-transition-exporter: a verification development

    The exporter watches systemd units over D-Bus, turns their snapshots into
    UP and DOWN transitions, stores every transition in a write-ahead log and
    delivers transitions and state samples to Prometheus remote-write
    receivers, one worker per receiver. At a restart it replays the log,
    recovers missed transitions from the journal and fills the current time
    slot with samples.

    ** The files and what they model (paths under src/)

    - [Prelude]: machine integers, stable sorting, list lemmas, tactics and the
      hint database [exporter].
    - [GoTime]: instants, durations, locations and [time.Date]; [GoStrings]: the
      functions of [strings] and [bytes] the code uses; [Json]: [encoding/json]
      on the stored records, encoder and parser; [GoOS]: files, error values and
      a state monad in which an oracle may let every system call fail.
    - [Model]: internal/model/model.go. [Samples]: data for witnesses.
    - [Engine], [EngineFacts], [EngineTheorems], [EngineRestart]:
      internal/engine/engine.go. The record [Engine.t] is the struct without its
      mutex, every method a function from the engine to the engine and the
      method's results.
    - [Slots], [Backfill], [Journal]: internal/recovery. The grid of slots, the
      fill of a slot and the reading of the journal; the journalctl process is a
      parameter.
    - [Wal], [Codec], [WalFacts], [WalTheorems]: internal/wal/wal.go over [GoOS].
      The classes [EventCodec] and [StatesCodec] say what the log needs of the
      encoding; [Codec] shows that [Json] provides it.
    - [RemoteWrite], [RemoteWriteFacts], [RemoteWriteTheorems], [Migration]:
      internal/remote_write/remote_write.go. The receiver is an oracle that
      answers the n-th request; the protobuf and snappy encoding is a parameter.
    - [Delivery], [DeliveryFacts], [DeliveryTheorems]:
      internal/delivery/worker.go. The worker knows its sender through the class
      [SenderOps]; [SenderLaws] states what it relies on, and the instance
      [remote_laws] proves it of the sender of [RemoteWrite]. The clock, the
      engine's states and the cancellation of the context are readings of
      arbitrary functions. A step is one round of the select loop with an
      arbitrary ready case, or a producer's command; producers also send while
      the worker reads its surroundings or waits for its sender.
    - [GoText], [GoNet], [GoFloat], [Sha256]: more of Go's library: text and
      numbers, host and port, [float64] with [ParseDuration] and [%g], the
      SHA-256 digest.
    - [Config], [ConfigTheorems]: internal/config/config.go. [Load] over the disk
      of [GoOS]; the YAML library is a parameter that calls the code's
      [UnmarshalYAML] back.
    - [Probe], [ProbeTheorems], [ProbeMessages]: internal/sip, internal/dns and
      internal/agw. The three packages repeat one loop and one prober, written
      once against the class [Protocol], with one value of it per package; a prober
      is the map from services to their running loop, and the network an
      environment that decides the outcome and the duration of every call.
    - [Systemd], [SystemdTheorems]: internal/systemd. D-Bus properties as
      snapshots, the monitor, and [RunResilient], which owns the connection. The
      bus is an environment; the record [callbacks] holds the closures the main
      program passes in.
    - [Identity]: internal/identity/identity.go. [Metrics], [MetricsTheorems]:
      internal/metrics/metrics.go, the registry and the page it answers with.
    - [Main], [Startup], [MainFacts], [MainTheorems], [StartupTheorems],
      [MainStatus]: cmd/systemd-transition-exporter/main.go. [App.t] holds the
      engine, the disk with the log, the workers, the probers and the registry;
      [startup] builds it or gives the reason for [log.Fatal]. The closures are
      programs ([prog]) whose acts are the single calls they make, since they
      hold no lock: [app_callbacks] are those handed to [RunResilient],
      [publishReady] is the one handed to the probers. [alone] runs a program by
      itself, [interleaved] with other goroutines moving after every act, and
      [app_step] interleaves the acts of all goroutines.

    ** What the theorems show

    - The engine: consecutive sequence numbers, ordered timelines per service,
      idempotent snapshots, no repetition of recovered transitions, the probe
      protocol, reboots, and reconstruction by replay.
    - The log: it refines an append-only list under arbitrary disk failures, it
      survives crashes up to the last sync, and opening it restores a record
      boundary. The one failure excluded is that of the truncation that rolls a
      partial record back, since the code ignores its error.
    - The sender: bounded attempts, well-formed requests, at-least-once delivery
      with a checkpoint that never passes what was accepted, and a migration
      that overwrites nothing.
    - The worker: no event disappears, acknowledged events are not sent again
      after a restart, bounded backlogs, state samples wait for the batch of
      transitions, and the slot timer terminates.
    - Slots, journal and fill: the grid partitions the hour, recovered events lie
      in their window, and a fill is exactly the timeline of its slot, one
      sample per tick and per transition.
    - Configuration: a loaded configuration is well formed, normalised targets
      parse to themselves, a receiver keeps its checkpoint when the list of
      receivers changes, and the accepted windows are listed.
    - Probes: requests are an interval apart, a loop reports at most one answer,
      a target that answers ends the wait, responses are matched by status and
      Call-ID, a request is not taken for its answer, and a service has at most
      one live loop.
    - D-Bus client: checked against a small automaton, a gap is reported to
      [onRecovery] before any snapshot and from the moment of the loss (what is
      read then is the callback's choice: that of [main] reads the current
      slot); there is never more than one connection and none is leaked; a
      snapshot carries the values of the properties.
    - Metrics and identity: a scrape reads back as the registry, the registry
      counts transitions, and an [instance] label that is not this host's is
      reported.
    - The whole program: what a receiver is handed is in the log first, under
      every interleaving of single calls; a snapshot settles engine, registry,
      log and probers as long as nobody else touches its service; a recovery is
      one job for every receiver; only local addresses are probed; and the
      registry's view of the bus is what the connection loop did.
    - Behaviours that contradict the intent of the code are theorems as well:
      [half_minute_window_spins], [live_transition_overtakes_recovery],
      [one_rejection_drops_unsent_events], [failed_startup_send_loses_the_fill],
      [interrupted_marker_loses_position], [unlogged_answer_is_lost],
      [answer_published_late_is_never_sent], [snapshot_overwrites_answer],
      [adopting_boot_id_does_not_suppress_downtime],
      [first_connection_is_retried_without_pause] and
      [failed_reconnection_is_not_recovered]; two more, [restored_wait_outlives_probe]
      and [disabled_delivery_skips_window_check], contradict the documentation.

    ** Bounds and fuel

    Integers of 64 bits are kept at their width ([u64], [i64]) where the code can
    overflow. Text functions ([trim_runes], [parse_value], [fields],
    [duration_terms], [chunks] of a message) consume a byte per round, so the
    length of the text is enough; an address has at most eight groups
    ([ipv6_groups]), a binary64 number reads back from at most seventeen digits
    ([shortest]), and [digits] is given the bits of its number. [ticks] is given
    the number of intervals in the slot, [batches] the number of events.
    [catch_up] returns [None] when it runs out, and [slot_timer_catches_up] gives
    a bound that is always enough for windows of whole minutes. The loops that
    serve for ever, of a probe ([await], [runProbe]) and of the client ([Run],
    [run_turns]), take the number of rounds as an argument: what is proved of
    them holds for every number, and [reachable_target_ends_the_wait] gives the
    number after which a probe has ended.

    ** Not modelled

    Log lines, command-line flags, signals, the HTTP servers and headers, file
    modes, what the code does on Windows only, and the constant of
    internal/version. Sockets, the bus, journalctl, the YAML library, protobuf
    and snappy are parameters. Methods guarded by a mutex are atomic; [Stop] of a
    prober cancels right after it has given up its mutex, which is one step
    here: only the monitor's goroutine starts and stops probes. A [state.json]
    that holds [null] is read as the empty map, where Go keeps a nil map that a
    later [SaveState] could not write to. [ToLower], the JSON text functions and
    [Quote] follow Go on ASCII. Left to do: that [startup] establishes the
    invariant of [app_step], and the rounds of the workers inside [app_step],
    where a worker only takes commands from its queue. *)

From Stdlib Require Export Ascii.
From stdpp Require Export sorting gmap strings numbers.
From stdpp Require Export list.

(** ** Scope and hint databases *)

#[global] Open Scope Z_scope.

Create HintDb exporter.

Declare Scope exporter_scope.
#[global] Open Scope exporter_scope.

(** [len(x)] of a slice, as the signed integer Go gives it. *)
Notation "# l" := (Z.of_nat (length l)) (at level 1, l at level 1, format "# l") : exporter_scope.

(** ** Machine integers

    A Go integer of width 64 is a [Z] kept in range by the two wrap functions
    below; every addition that can overflow in the source is written with one
    of them. *)

Definition u64 (z : Z) : Z := z mod 2 ^ 64.
Definition i64 (z : Z) : Z := (z + 2 ^ 63) mod 2 ^ 64 - 2 ^ 63.

Definition in_u64 (z : Z) : Prop := 0 <= z < 2 ^ 64.
Definition in_i64 (z : Z) : Prop := - 2 ^ 63 <= z < 2 ^ 63.

Lemma u64_small z : in_u64 z → u64 z = z.
Proof. intros H. apply Z.mod_small, H. Qed.

Lemma i64_small z : in_i64 z → i64 z = z.
Proof. unfold in_i64, i64. intros H. rewrite Z.mod_small; lia. Qed.

Lemma u64_range z : in_u64 (u64 z).
Proof. apply Z.mod_pos_bound. lia. Qed.

Lemma i64_range z : in_i64 (i64 z).
Proof. unfold in_i64, i64. pose proof (Z.mod_pos_bound (z + 2 ^ 63) (2 ^ 64)). lia. Qed.

(** Microseconds held in a [uint64] and divided by 1000 always fit an [int64]:
    the conversion [int64(us/1000)] of the source never wraps. *)
Lemma i64_us_to_ms us : in_u64 us → i64 (us / 1000) = us / 1000.
Proof. unfold in_u64. intros H. apply i64_small. unfold in_i64. Z.to_euclidean_division_equations; lia. Qed.

#[export] Hint Resolve u64_range i64_range : exporter.
#[export] Hint Rewrite i64_us_to_ms using assumption : exporter.

(** ** Results

    A Go call that returns [(value, error)]: the value is used only when the
    error is [nil]. *)

Inductive result (E A : Type) : Type := Ok (a : A) | Err (e : E).
Arguments Ok {E A} a.
Arguments Err {E A} e.

#[export] Instance result_ret E : MRet (result E) := λ A a, Ok a.
#[export] Instance result_bind E : MBind (result E) :=
  λ A B f r, match r with Ok a => f a | Err e => Err e end.

Lemma StronglySorted_impl {A} (R S : relation A) l :
  (∀ x y, R x y → S x y) → StronglySorted R l → StronglySorted S l.
Proof.
  intros HRS. induction 1; constructor; [done|]. eapply Forall_impl; [eassumption|]. auto.
Qed.

(** ** Stable sorting

    [sort.SliceStable(x, less)]: the result of a stable sort is unique, so an
    insertion sort is as good a definition of it as any. *)

Section StableSort.
Context {A : Type} (lt : A → A → bool).

Fixpoint insert_stable (x : A) (l : list A) : list A :=
  match l with
  | [] => [x]
  | y :: l' => if lt y x then y :: insert_stable x l' else x :: l
  end.

Fixpoint sort_stable (l : list A) : list A :=
  match l with
  | [] => []
  | x :: l' => insert_stable x (sort_stable l')
  end.

(** [x] may stand before [y]: [y] is not strictly smaller. *)
Definition not_after (x y : A) : Prop := lt y x = false.

Lemma insert_stable_Permutation x l : insert_stable x l ≡ₚ x :: l.
Proof.
  induction l as [|y l IH]; simpl; [done|].
  destruct (lt y x); [|done]. rewrite IH. apply Permutation_swap.
Qed.

Lemma sort_stable_Permutation l : sort_stable l ≡ₚ l.
Proof.
  induction l as [|x l IH]; simpl; [done|].
  by rewrite insert_stable_Permutation, IH.
Qed.

Lemma elem_of_sort_stable x l : x ∈ sort_stable l ↔ x ∈ l.
Proof. by rewrite sort_stable_Permutation. Qed.

Lemma length_sort_stable l : length (sort_stable l) = length l.
Proof. by rewrite sort_stable_Permutation. Qed.

Lemma sort_stable_nil_iff l : sort_stable l = [] ↔ l = [].
Proof.
  split; [|by intros ->]. intros H.
  apply Permutation_nil. symmetry. rewrite <-(sort_stable_Permutation l), H. done.
Qed.

(** A list that is already ordered is left alone. *)
Lemma sort_stable_id l : StronglySorted not_after l → sort_stable l = l.
Proof.
  induction 1 as [|x l _ IH Hx]; simpl; [done|]. rewrite IH.
  destruct l as [|y l]; simpl; [done|].
  inv Hx as [|? ? Hxy _]. unfold not_after in Hxy. by rewrite Hxy.
Qed.

(** Elements that [less] does not separate keep their relative order. *)
Lemma insert_stable_filter (P : A → Prop) `{!∀ x, Decision (P x)} x l :
  (∀ a b, P a → P b → lt a b = false) →
  filter P (insert_stable x l) = filter P (x :: l).
Proof.
  intros HP. induction l as [|y l IH]; [done|]. simpl insert_stable.
  destruct (lt y x) eqn:Hyx; [|done].
  rewrite (filter_cons P y (insert_stable x l)), IH, !filter_cons.
  repeat case_decide; try done.
  rewrite HP in Hyx; done.
Qed.

Lemma sort_stable_filter (P : A → Prop) `{!∀ x, Decision (P x)} l :
  (∀ a b, P a → P b → lt a b = false) →
  filter P (sort_stable l) = filter P l.
Proof.
  intros HP. induction l as [|x l IH]; [done|]. simpl sort_stable.
  rewrite insert_stable_filter by done. rewrite !filter_cons, IH. done.
Qed.

Section Ordered.
Hypothesis lt_asym : ∀ a b, lt a b = true → lt b a = false.
Hypothesis not_after_trans : ∀ a b c, not_after a b → not_after b c → not_after a c.

Lemma insert_stable_sorted x l :
  StronglySorted not_after l → StronglySorted not_after (insert_stable x l).
Proof.
  induction 1 as [|y l Hl IH Hy]; simpl; [by repeat constructor|].
  destruct (lt y x) eqn:Hyx.
  - constructor; [done|]. rewrite insert_stable_Permutation.
    constructor; [|done]. by apply lt_asym.
  - constructor; [by constructor|]. constructor; [done|].
    eapply Forall_impl; [exact Hy|]. intros z Hz. by eapply not_after_trans.
Qed.

Lemma sort_stable_sorted l : StronglySorted not_after (sort_stable l).
Proof. induction l; simpl; [constructor|by apply insert_stable_sorted]. Qed.
End Ordered.
End StableSort.

(** The common case: [less] compares an integer key. *)
Section SortByKey.
Context {A : Type} (key : A → Z).

Definition key_lt (a b : A) : bool := key a <? key b.
Definition key_le (a b : A) : Prop := key a <= key b.
Definition sort_by_key : list A → list A := sort_stable key_lt.

Lemma not_after_key a b : not_after key_lt a b ↔ key_le a b.
Proof. unfold not_after, key_lt, key_le. rewrite Z.ltb_ge. done. Qed.

Lemma StronglySorted_key l : StronglySorted (not_after key_lt) l ↔ StronglySorted key_le l.
Proof.
  split; induction 1 as [|? ? ? ? H]; constructor; try done;
    (eapply Forall_impl; [exact H|]); intros ?; apply not_after_key.
Qed.

Lemma sort_by_key_sorted l : StronglySorted key_le (sort_by_key l).
Proof.
  apply StronglySorted_key, sort_stable_sorted.
  - intros a b. unfold key_lt. rewrite Z.ltb_lt, Z.ltb_ge. lia.
  - intros a b c. rewrite !not_after_key. unfold key_le. lia.
Qed.

Lemma sort_by_key_id l : StronglySorted key_le l → sort_by_key l = l.
Proof. intros H. by apply sort_stable_id, StronglySorted_key. Qed.

Lemma sort_by_key_Permutation l : sort_by_key l ≡ₚ l.
Proof. apply sort_stable_Permutation. Qed.

Lemma elem_of_sort_by_key x l : x ∈ sort_by_key l ↔ x ∈ l.
Proof. apply elem_of_sort_stable. Qed.
End SortByKey.

(** Sorting by time and, at equal times, by name. *)
Section SortByTimeName.
Context {A : Type} (ms : A → Z) (name : A → string).

Definition time_name_lt (a b : A) : bool :=
  if ms a =? ms b then String.ltb (name a) (name b) else ms a <? ms b.
Definition time_name_le (a b : A) : Prop :=
  ms a < ms b ∨ ms a = ms b ∧ String.le (name a) (name b).

Lemma ltb_le (s1 s2 : string) : String.ltb s2 s1 = false ↔ String.le s1 s2.
Proof.
  unfold String.le, String.leb, String.ltb. rewrite (String.compare_antisym s2 s1).
  by destruct (String.compare s1 s2).
Qed.

Lemma not_after_time_name a b : not_after time_name_lt a b ↔ time_name_le a b.
Proof.
  unfold not_after, time_name_lt, time_name_le.
  destruct (Z.eqb_spec (ms b) (ms a)) as [Heq|Hne]; [rewrite ltb_le|rewrite Z.ltb_ge]; split.
  - by right.
  - intros [?|[_ ?]]; [lia|done].
  - intros ?. left. lia.
  - intros [?|[? _]]; lia.
Qed.

Lemma time_name_sorted l : StronglySorted time_name_le (sort_stable time_name_lt l).
Proof.
  eapply StronglySorted_impl; [intros a b; apply not_after_time_name|].
  apply sort_stable_sorted.
  - intros a b. unfold time_name_lt. rewrite (Z.eqb_sym (ms b)).
    destruct (Z.eqb_spec (ms a) (ms b)) as [Heq|Hne]; [|rewrite Z.ltb_lt, Z.ltb_ge; lia].
    unfold String.ltb. rewrite (String.compare_antisym (name b) (name a)).
    by destruct (String.compare (name a) (name b)).
  - intros a b c. rewrite !not_after_time_name. unfold time_name_le.
    intros [?|[? Hab]] [?|[? Hbc]]; try (left; lia). right. split; [lia|].
    by trans (name b).
Qed.
End SortByTimeName.

(** ** Lists *)

Lemma bind_Permutation_ext {A B} (f g : A → list B) l : (∀ x, f x ≡ₚ g x) → l ≫= f ≡ₚ l ≫= g.
Proof. intros H. induction l as [|x l IH]; [done|]. by rewrite !bind_cons, H, IH. Qed.

Lemma StronglySorted_snoc {A} (R : relation A) l x :
  StronglySorted R l → Forall (λ y, R y x) l → StronglySorted R (l ++ [x]).
Proof.
  intros Hl Hx. apply StronglySorted_app_2; [|done|by repeat constructor].
  intros y z Hy ->%list_elem_of_singleton. rewrite Forall_forall in Hx. by apply Hx.
Qed.

Lemma StronglySorted_filter {A} (R : relation A) (P : A → Prop) `{!∀ x, Decision (P x)} l :
  StronglySorted R l → StronglySorted R (filter P l).
Proof.
  induction 1 as [|x l ? IH Hx]; [constructor|].
  rewrite filter_cons. case_decide; [|done]. constructor; [done|].
  rewrite Forall_forall in *. intros y [_ Hy]%list_elem_of_filter. by apply Hx.
Qed.


Lemma Forall_filter {A} (P Q : A → Prop) `{!∀ x, Decision (Q x)} l :
  Forall P l → Forall P (filter Q l).
Proof. rewrite !Forall_forall. intros Hl x [_ Hx]%list_elem_of_filter. by apply Hl. Qed.

Lemma filter_all {A} (P : A → Prop) `{!∀ x, Decision (P x)} l : Forall P l → filter P l = l.
Proof. induction 1; [done|]. rewrite filter_cons_True by done. by f_equal. Qed.

Lemma filter_none {A} (P : A → Prop) `{!∀ x, Decision (P x)} l :
  Forall (λ x, ¬ P x) l → filter P l = [].
Proof. induction 1; [done|]. by rewrite filter_cons_False. Qed.

Lemma filter_ext_in {A} (P Q : A → Prop) `{!∀ x, Decision (P x), !∀ x, Decision (Q x)} (l : list A) :
  (∀ x, x ∈ l → P x ↔ Q x) → filter P l = filter Q l.
Proof.
  induction l as [|x l IH]; intros HPQ; [done|].
  rewrite !filter_cons, IH by (intros; apply HPQ; by right).
  assert (P x ↔ Q x) by (apply HPQ; by left). by repeat case_decide; try tauto.
Qed.

Lemma elem_of_concat {A} (x : A) ls : x ∈ concat ls ↔ ∃ l, l ∈ ls ∧ x ∈ l.
Proof. rewrite list_elem_of_In, in_concat. by setoid_rewrite list_elem_of_In. Qed.

Lemma sublist_of_concat {A} (l : list A) ls : l ∈ ls → l `sublist_of` concat ls.
Proof.
  intros (l1 & l2 & ->)%list_elem_of_split. rewrite concat_app. cbn [concat].
  apply sublist_inserts_l, sublist_inserts_r. done.
Qed.

Lemma Forall_sublist {A} (P : A → Prop) l k : sublist l k → Forall P k → Forall P l.
Proof. induction 1; inversion 1; subst; auto. Qed.

Lemma StronglySorted_sublist {A} (R : relation A) l k :
  sublist l k → StronglySorted R k → StronglySorted R l.
Proof.
  induction 1 as [|x l k Hlk IH|x l k Hlk IH]; [done| |]; inversion 1; subst.
  - constructor; [by apply IH|]. by eapply Forall_sublist.
  - by apply IH.
Qed.

(** ** Tactics *)

(** Split the boolean tests of a goal or hypothesis into arithmetic facts. *)
Ltac destruct_bools :=
  repeat match goal with
  | H : _ && _ = true |- _ => apply andb_true_iff in H as [? ?]
  | H : _ || _ = false |- _ => apply orb_false_iff in H as [? ?]
  | H : negb _ = true |- _ => apply negb_true_iff in H
  | H : negb _ = false |- _ => apply negb_false_iff in H
  | H : (_ <? _) = true |- _ => apply Z.ltb_lt in H
  | H : (_ <? _) = false |- _ => apply Z.ltb_ge in H
  | H : (_ <=? _) = true |- _ => apply Z.leb_le in H
  | H : (_ <=? _) = false |- _ => apply Z.leb_gt in H
  | H : (_ =? _) = true |- _ => apply Z.eqb_eq in H
  | H : (_ =? _) = false |- _ => apply Z.eqb_neq in H
  end.

(** Case analysis on every [match] and [if] of the goal, closing what is
    contradictory or arithmetic on the way. *)
Ltac crush_cases :=
  repeat (case_match; simplify_eq/=; try done; try lia).

(** A [Forall] over a concrete list, each element an arithmetic fact. *)
Ltac ground_forall :=
  repeat apply Forall_cons_2; try apply Forall_nil_2; simpl; unfold in_u64, in_i64;
  try exact I; try lia.
