(* ===== verification/GoTime.v ===== *)
(** * GoTime: the part of Go's [time] package the exporter uses

    An instant ([time.Time]) is its distance in nanoseconds from the Unix epoch
    and a [time.Duration] is a number of nanoseconds, both as [Z]. The process
    has one clock: the monotonic reading a [time.Time] may carry besides its
    wall clock is not modelled, so [Before], [After] and [Equal] compare wall
    clocks. A [time.Location] is the lookup function of the zone database. *)

From S2P Require Import Prelude.

Notation time := Z (only parsing).
Notation Duration := Z (only parsing).

Definition Millisecond : Duration := 1000000.
Definition Second : Duration := 1000 * Millisecond.
Definition Minute : Duration := 60 * Second.
Definition Hour : Duration := 60 * Minute.

(** [time.Time{}]: January 1, year 1, 00:00:00 UTC. *)
Definition zero_time : time := -62135596800 * Second.
Definition IsZero (t : time) : bool := t =? zero_time.

(** [t.Before(u)] and [t.After(u)]. *)
Definition Before (t u : time) : bool := t <? u.
Definition After (t u : time) : bool := u <? t.

(** [t.UnixMilli()]: seconds and nanoseconds are split with the nanoseconds in
    [0, 1e9), so the division rounds towards minus infinity. *)
Definition UnixMilli (t : time) : Z := i64 (t / Millisecond).

(** [time.UnixMilli(ms)], the instant of a Unix time in milliseconds. *)
Definition time_UnixMilli (ms : Z) : time := ms * Millisecond.

(** ** Locations *)

(** [l.lookup(sec)]: the zone in force at a Unix time in seconds, with its
    offset east of UTC and the half-open range of seconds it applies to. *)
Record zone := Zone { zone_offset : Z; zone_start : Z; zone_end : Z }.
Definition Location := Z → zone.

Definition unix_sec (t : time) : Z := t / Second.

(** Seconds of the local civil clock at [t]: the argument of [t.Hour()],
    [t.Minute()] and the date accessors. *)
Definition local_sec (loc : Location) (t : time) : Z :=
  unix_sec t + zone_offset (loc (unix_sec t)).

Definition t_Minute (loc : Location) (t : time) : Z := local_sec loc t mod 3600 / 60.

(** The offset [time.Date] settles on for a civil time of [unix] seconds. *)
Definition date_offset (loc : Location) (unix : Z) : Z :=
  let z := loc unix in
  if zone_offset z =? 0 then 0
  else
    let utc := unix - zone_offset z in
    if (utc <? zone_start z) || (zone_end z <=? utc)
    then zone_offset (loc utc) else zone_offset z.

(** [time.Date(t.Year(), t.Month(), t.Day(), t.Hour(), 0, 0, 0, t.Location())]:
    year, month, day and hour of [t] name the civil second below, the calendar
    being a bijection between days and dates. *)
Definition civil_hour (loc : Location) (t : time) : Z :=
  local_sec loc t - local_sec loc t mod 3600.
Definition date_hour (loc : Location) (t : time) : time :=
  (civil_hour loc t - date_offset loc (civil_hour loc t)) * Second.

(** The civil hour of [t] is not cut by a zone change: [time.Date] finds for
    its beginning the offset in force at [t]. *)
Definition hour_stable (loc : Location) (t : time) : bool :=
  date_offset loc (civil_hour loc t) =? zone_offset (loc (unix_sec t)).

(** A zone without transitions, as [time.FixedZone] and [time.UTC] give. *)
Definition FixedZone (offset : Z) : Location :=
  λ _, Zone offset (- 2 ^ 63) (2 ^ 63 - 1).

(** Nanoseconds the civil clock shows past the hour. *)
Definition past_hour (loc : Location) (t : time) : Z :=
  (t + zone_offset (loc (unix_sec t)) * Second) mod Hour.

(** ** Formatting *)

(** Year, month and day of a day counted from 1970-01-01 in the proleptic
    Gregorian calendar: days are counted from March 1 in eras of 400 years. *)
Definition civil_date (days : Z) : Z * Z * Z :=
  let z := days + 719468 in
  let era := z / 146097 in
  let doe := z mod 146097 in
  let yoe := (doe - doe / 1460 + doe / 36524 - doe / 146096) / 365 in
  let doy := doe - (365 * yoe + yoe / 4 - yoe / 100) in
  let mp := (5 * doy + 2) / 153 in
  let m := if mp <? 10 then mp + 3 else mp - 9 in
  (yoe + era * 400 + (if m <=? 2 then 1 else 0), m, doy - (153 * mp + 2) / 5 + 1).

(** The last [width] decimal digits of [n]. *)
Fixpoint pad (width : nat) (n : Z) : string :=
  match width with
  | O => ""
  | S width' => pad width' (n / 10) +:+ String (Ascii.ascii_of_nat (Z.to_nat (48 + n mod 10))) ""
  end.

(** [t.Local().Format("2006-01-02 15:04:05")], for the years of four digits. *)
Definition Format_datetime (loc : Location) (t : time) : string :=
  let s := local_sec loc t in
  let '(y, m, d) := civil_date (s / 86400) in
  let sod := s mod 86400 in
  pad 4 y +:+ "-" +:+ pad 2 m +:+ "-" +:+ pad 2 d +:+ " " +:+
  pad 2 (sod / 3600) +:+ ":" +:+ pad 2 (sod mod 3600 / 60) +:+ ":" +:+ pad 2 (sod mod 60).

Example format_datetime_leap_day :
  Format_datetime (FixedZone 10800) (1709236805 * Second) = "2024-02-29 23:00:05".
Proof. reflexivity. Qed.

(** The time constants as numerals, for [lia]. *)
Ltac time_consts := unfold Hour, Minute, Second, Millisecond in *.

Lemma past_hour_range loc t : 0 <= past_hour loc t < Hour.
Proof. apply Z.mod_pos_bound. done. Qed.

Lemma t_Minute_past_hour loc t : t_Minute loc t = past_hour loc t / Minute.
Proof.
  unfold t_Minute, local_sec, past_hour, unix_sec.
  generalize (zone_offset (loc (t / Second))) as o. intros o.
  time_consts. Z.to_euclidean_division_equations. lia.
Qed.

Lemma date_hour_stable loc t :
  hour_stable loc t = true → date_hour loc t = t - past_hour loc t.
Proof.
  unfold hour_stable, date_hour. intros ->%Z.eqb_eq.
  unfold civil_hour, local_sec, past_hour, unix_sec.
  generalize (zone_offset (loc (t / Second))) as o. intros o.
  time_consts. Z.to_euclidean_division_equations. lia.
Qed.

Lemma FixedZone_stable off t : hour_stable (FixedZone off) t = true.
Proof.
  unfold hour_stable, date_offset, FixedZone. simpl.
  destruct (off =? 0) eqn:Hoff; destruct_bools; [by subst|].
  case_match; by rewrite Z.eqb_refl.
Qed.

Lemma UnixMilli_mono t u :
  in_i64 (t / Millisecond) → in_i64 (u / Millisecond) →
  t <= u → UnixMilli t <= UnixMilli u.
Proof.
  intros Ht Hu Htu. unfold UnixMilli. rewrite !i64_small by done.
  by apply Z.div_le_mono.
Qed.

#[export] Hint Resolve past_hour_range FixedZone_stable : exporter.
