(* ===== verification/GoStrings.v ===== *)
(** * GoStrings: the part of Go's [strings] and [bytes] the exporter uses

    A Go string and a [[]byte] are sequences of bytes; the development writes
    the first as [string] and the second as [bytes]. [TrimSpace] follows Go on
    every byte sequence: it removes the UTF-8 encodings of the code points for
    which [unicode.IsSpace] holds. [ToLower] follows Go on ASCII; on other
    bytes Go consults the Unicode tables and the definition below leaves them
    alone, so theorems about it are stated for ASCII text. *)

From S2P Require Import Prelude.

Notation bytes := (list ascii).

Definition to_bytes (s : string) : bytes := String.list_ascii_of_string s.
Definition of_bytes (b : bytes) : string := String.string_of_list_ascii b.

Lemma of_to_bytes s : of_bytes (to_bytes s) = s.
Proof. apply String.string_of_list_ascii_of_string. Qed.

Lemma to_of_bytes b : to_bytes (of_bytes b) = b.
Proof. apply String.list_ascii_of_string_of_list_ascii. Qed.

Definition byte (n : nat) : ascii := Ascii.ascii_of_nat n.
Definition newline : ascii := byte 10.

(** ** White space *)

(** UTF-8 encodings of the code points [unicode.IsSpace] accepts. *)
Definition space_runes : list bytes :=
  [[byte 9]; [byte 10]; [byte 11]; [byte 12]; [byte 13]; [byte 32];
   [byte 194; byte 133]; [byte 194; byte 160]; [byte 225; byte 154; byte 128]] ++
  ((λ n, [byte 226; byte 128; byte n]) <$>
     [128; 129; 130; 131; 132; 133; 134; 135; 136; 137; 138; 168; 169; 175]%nat) ++
  [[byte 226; byte 129; byte 159]; [byte 227; byte 128; byte 128]].

Fixpoint strip_prefix (p l : bytes) : option bytes :=
  match p, l with
  | [], _ => Some l
  | a :: p', b :: l' => if ascii_dec a b then strip_prefix p' l' else None
  | _ :: _, [] => None
  end.

(** The rest of [l] after the first of the [runes] it begins with. *)
Fixpoint strip_rune (runes : list bytes) (l : bytes) : option bytes :=
  match runes with
  | [] => None
  | r :: runes' => match strip_prefix r l with Some l' => Some l' | None => strip_rune runes' l end
  end.

(** Every rune removed is at least one byte, so [length l] rounds are enough. *)
Fixpoint trim_runes (fuel : nat) (runes : list bytes) (l : bytes) : bytes :=
  match fuel with
  | O => l
  | S fuel' => match strip_rune runes l with Some l' => trim_runes fuel' runes l' | None => l end
  end.

Definition trim_left (l : bytes) : bytes := trim_runes (length l) space_runes l.
Definition trim_right (l : bytes) : bytes :=
  reverse (trim_runes (length l) (reverse <$> space_runes) (reverse l)).

(** [bytes.TrimSpace] and [strings.TrimSpace]. *)
Definition bytes_TrimSpace (l : bytes) : bytes := trim_right (trim_left l).
Definition TrimSpace (s : string) : string := of_bytes (bytes_TrimSpace (to_bytes s)).

(** ** Case and replacement *)

Definition is_upper (c : ascii) : bool :=
  (65 <=? Ascii.nat_of_ascii c)%nat && (Ascii.nat_of_ascii c <=? 90)%nat.
Definition lower (c : ascii) : ascii :=
  if is_upper c then byte (Ascii.nat_of_ascii c + 32) else c.
Definition ToLower (s : string) : string := of_bytes (lower <$> to_bytes s).

(** [strings.ReplaceAll(s, old, "")] for a one-byte [old]. *)
Definition remove_all (old : ascii) (s : string) : string :=
  of_bytes (filter (λ c, c ≠ old) (to_bytes s)).

(** [strings.HasPrefix] and [strings.Contains]. *)
Definition HasPrefix (s p : string) : bool := String.prefix p s.
Definition Contains (s sub : string) : bool :=
  match String.index 0 sub s with Some _ => true | None => false end.

(** ** Numbers *)

Definition digit (c : ascii) : option Z :=
  let n := Z.of_nat (Ascii.nat_of_ascii c) in
  if (48 <=? n) && (n <=? 57) then Some (n - 48) else None.

(** Decimal digits, most significant first; no digit at all is an error. *)
Fixpoint parse_digits (acc : Z) (l : bytes) : option Z :=
  match l with
  | [] => Some acc
  | c :: l' => match digit c with Some d => parse_digits (acc * 10 + d) l' | None => None end
  end.

(** [strconv.ParseInt(s, 10, 64)]: an optional sign, then digits, in range. *)
Definition ParseInt (s : string) : option Z :=
  let '(neg, l) :=
    match to_bytes s with
    | "-"%char :: l => (true, l)
    | "+"%char :: l => (false, l)
    | l => (false, l)
    end in
  match l with
  | [] => None
  | _ =>
      match parse_digits 0 l with
      | None => None
      | Some n =>
          let v := if (neg : bool) then - n else n in
          if (- 2 ^ 63 <=? v) && (v <? 2 ^ 63) then Some v else None
      end
  end.

#[global] Arguments strip_rune : simpl never.
#[global] Arguments space_runes : simpl never.

(** ** Facts *)

(** The first byte of no white-space rune, and the last byte of none. *)
Definition solid (c : ascii) : bool :=
  bool_decide (strip_rune space_runes [c] = None) && (Ascii.nat_of_ascii c <? 128)%nat.

Lemma strip_prefix_app p l : strip_prefix p (p ++ l) = Some l.
Proof. induction p; simpl; [done|]. by destruct (ascii_dec _ _). Qed.

Lemma strip_rune_solid_left c l : solid c = true → strip_rune space_runes (c :: l) = None.
Proof. destruct c as [[] [] [] [] [] [] [] []]; vm_compute; done. Qed.

Lemma strip_rune_solid_right c l :
  solid c = true → strip_rune (reverse <$> space_runes) (c :: l) = None.
Proof. destruct c as [[] [] [] [] [] [] [] []]; vm_compute; done. Qed.

Lemma trim_left_solid c l : solid c = true → trim_left (c :: l) = c :: l.
Proof. intros Hc. unfold trim_left. simpl. by rewrite strip_rune_solid_left. Qed.

Lemma trim_right_solid l c : solid c = true → trim_right (l ++ [c]) = l ++ [c].
Proof.
  intros Hc. unfold trim_right. rewrite length_app, reverse_app. simpl.
  rewrite Nat.add_comm. simpl. rewrite strip_rune_solid_right by done.
  by rewrite reverse_cons, reverse_involutive.
Qed.

(** A text with solid ends keeps everything. *)
Lemma TrimSpace_solid l : Forall (λ c, solid c = true) l → bytes_TrimSpace l = l.
Proof.
  intros Hl. unfold bytes_TrimSpace.
  assert (trim_left l = l) as ->.
  { destruct Hl; [done|]. by apply trim_left_solid. }
  destruct (last l) as [c|] eqn:Hlast.
  - apply last_Some in Hlast as [l' ->]. apply trim_right_solid.
    apply Forall_app in Hl as [_ Hc]. by inv Hc.
  - by apply last_None in Hlast as ->.
Qed.

(** One trailing newline is removed from a solid text. *)
Lemma trim_right_newline l c : solid c = true → trim_right (l ++ [c] ++ [newline]) = l ++ [c].
Proof.
  intros Hc. unfold trim_right.
  replace (reverse (l ++ [c] ++ [newline])) with (newline :: c :: reverse l)
    by (rewrite !reverse_app; done).
  rewrite !length_app. replace (length l + _)%nat with (S (S (length l))) by (simpl; lia).
  cbn [trim_runes].
  assert (∀ r, strip_rune (reverse <$> space_runes) (newline :: r) = Some r) as ->.
  { intros r. vm_compute. done. }
  rewrite strip_rune_solid_right by done. by rewrite reverse_cons, reverse_involutive.
Qed.

Lemma TrimSpace_solid_newline l :
  l ≠ [] → Forall (λ c, solid c = true) l → bytes_TrimSpace (l ++ [newline]) = l.
Proof.
  intros Hne Hl. unfold bytes_TrimSpace.
  assert (trim_left (l ++ [newline]) = l ++ [newline]) as ->.
  { destruct Hl as [|c l Hc]; [done|]. by apply trim_left_solid. }
  destruct (last l) as [c|] eqn:Hlast; [|by apply last_None in Hlast].
  apply last_Some in Hlast as [l' ->]. apply Forall_app in Hl as [_ Hc]. inv Hc.
  rewrite <-app_assoc. by apply trim_right_newline.
Qed.
