(* ===== verification/Model.v ===== *)
(** * Model: internal/model/model.go

    Boot identifiers, availability states, event sources and the records the
    components exchange. Each record lives in a module of its name so that its
    fields keep the names of the source. *)

From S2P Require Import Prelude GoTime GoStrings.

Definition CanonicalBootID (id : string) : string :=
  ToLower (remove_all "-"%char (TrimSpace id)).

Inductive AvailabilityState := StateUnknown | StateUp | StateDown.

#[export] Instance AvailabilityState_eq_dec : EqDecision AvailabilityState.
Proof. solve_decision. Defined.

Definition AvailabilityState_String (s : AvailabilityState) : string :=
  match s with
  | StateUp => "up"
  | StateDown => "down"
  | StateUnknown => "unknown"
  end.

Definition AvailabilityFromActiveState (active : string) : AvailabilityState :=
  if decide (TrimSpace active = "active") then StateUp else StateDown.

Inductive EventSource :=
  SourceSystemd | SourceHostReboot | SourceRecovery | SourceSIP | SourceDNS | SourceAGW.

#[export] Instance EventSource_eq_dec : EqDecision EventSource.
Proof. solve_decision. Defined.

Definition EventSource_String (s : EventSource) : string :=
  match s with
  | SourceSystemd => "systemd"
  | SourceHostReboot => "host_reboot"
  | SourceRecovery => "recovery"
  | SourceSIP => "sip"
  | SourceDNS => "dns"
  | SourceAGW => "agw"
  end.

Module UnitSnapshot.
Record t := mk {
  Service : string;
  ActiveState : string;
  SubState : string;
  ActiveEnterTimestampUS : Z;
  ActiveExitTimestampUS : Z;
  ActiveEnterTimestampMonotonicUS : Z;
  ActiveExitTimestampMonotonicUS : Z;
  BootID : string;
  ObservedAt : time;
}.
End UnitSnapshot.

Module Event.
Record t := mk {
  Sequence : Z;
  Service : string;
  State : AvailabilityState;
  EventTimeUnixMS : Z;
  EventTimeMonotonicUS : Z;
  BootID : string;
  Source : EventSource;
  SystemdActiveState : string;
  SystemdSubState : string;
}.

#[export] Instance eq_dec : EqDecision t.
Proof. solve_decision. Defined.
End Event.

Module StateSample.
Record t := mk {
  Service : string;
  State : AvailabilityState;
  TimestampUnixMS : Z;
}.

#[export] Instance eq_dec : EqDecision t.
Proof. solve_decision. Defined.
End StateSample.

Module ServiceState.
Record t := mk {
  Service : string;
  Availability : AvailabilityState;
  ActiveState : string;
  SubState : string;
  BootID : string;
  LastActiveEnterTimestampUS : Z;
  LastActiveExitTimestampUS : Z;
  LastActiveEnterMonotonicUS : Z;
  LastActiveExitMonotonicUS : Z;
  LastEventTimeUnixMS : Z;
  LastEventMonoUS : Z;
  LastSequence : Z;
  AwaitingSIP : bool;
}.

#[export] Instance eq_dec : EqDecision t.
Proof. solve_decision. Defined.

(** The zero value [model.ServiceState{}]: what a missing map key yields. *)
Definition zero : t := mk "" StateUnknown "" "" "" 0 0 0 0 0 0 0 false.
End ServiceState.

#[export] Existing Instances Event.eq_dec StateSample.eq_dec ServiceState.eq_dec.

(** The bytes of a boot identifier: hexadecimal digits, grouped by hyphens in
    the kernel's spelling. *)
Definition boot_char (c : ascii) : bool :=
  let n := Ascii.nat_of_ascii c in
  (48 <=? n)%nat && (n <=? 57)%nat || (97 <=? n)%nat && (n <=? 102)%nat ||
  (65 <=? n)%nat && (n <=? 70)%nat || (n =? 45)%nat.

Lemma boot_char_solid c : boot_char c = true → solid c = true.
Proof. destruct c as [[] [] [] [] [] [] [] []]; vm_compute; done. Qed.

Lemma boot_char_lower c :
  boot_char c = true →
  boot_char (lower c) = true ∧ lower (lower c) = lower c ∧ (lower c = "-"%char → c = "-"%char).
Proof. destruct c as [[] [] [] [] [] [] [] []]; vm_compute; done. Qed.

Abbreviation boot_text l := (Forall (λ c, boot_char c = true) l).

Lemma boot_text_trim l : boot_text l → bytes_TrimSpace l = l.
Proof.
  intros Hl. apply TrimSpace_solid. eapply Forall_impl; [exact Hl|].
  intros c. apply boot_char_solid.
Qed.

(** On a boot identifier only the hyphens and the case change. *)
Lemma CanonicalBootID_boot_text l :
  boot_text l →
  CanonicalBootID (of_bytes l) = of_bytes (lower <$> filter (λ c, c ≠ "-"%char) l).
Proof.
  intros Hl. unfold CanonicalBootID, ToLower, remove_all, TrimSpace.
  by rewrite !to_of_bytes, boot_text_trim.
Qed.

Lemma boot_text_canonical l :
  boot_text l → boot_text (lower <$> filter (λ c, c ≠ "-"%char) l).
Proof.
  intros Hl. apply Forall_fmap, Forall_filter. eapply Forall_impl; [exact Hl|].
  intros c Hc. by apply boot_char_lower.
Qed.

Lemma canonical_fixed l :
  boot_text l →
  lower <$> filter (λ c, c ≠ "-"%char) (lower <$> filter (λ c, c ≠ "-"%char) l) =
  lower <$> filter (λ c, c ≠ "-"%char) l.
Proof.
  induction 1 as [|c l Hc Hl IH]; [done|].
  destruct (boot_char_lower c Hc) as (_ & Hll & Hhyphen).
  rewrite (filter_cons _ c). case_decide as Hne; [|done].
  rewrite fmap_cons, filter_cons_True, fmap_cons by naive_solver. by rewrite Hll, IH.
Qed.

Module BootID.
(** The kernel's spelling of a boot identifier, with hyphens and a trailing
    newline, and the journal's spelling without them have the same canonical
    form, and the canonical form is a fixed point. *)
Theorem canonical_boot_id_spellings (id : string) :
  id ≠ "" → Forall (λ c, boot_char c = true) (to_bytes id) →
  CanonicalBootID (of_bytes (to_bytes id ++ [newline])) = CanonicalBootID (remove_all "-"%char id) ∧
  CanonicalBootID (CanonicalBootID id) = CanonicalBootID id.
Proof.
  intros Hne Hid. pose proof (boot_text_canonical _ Hid) as Hcan.
  assert (to_bytes id ≠ []) as Hne' by (by destruct id).
  split.
  - unfold remove_all. rewrite (CanonicalBootID_boot_text (filter _ _)) by (by apply Forall_filter).
    rewrite list_filter_filter_l by naive_solver.
    unfold CanonicalBootID, ToLower, remove_all, TrimSpace. rewrite !to_of_bytes.
    rewrite TrimSpace_solid_newline; [done|done|].
    eapply Forall_impl; [exact Hid|]. intros c. apply boot_char_solid.
  - rewrite <-(of_to_bytes id). rewrite (CanonicalBootID_boot_text _ Hid).
    rewrite (CanonicalBootID_boot_text _ Hcan). by rewrite canonical_fixed.
Qed.

Lemma canonical_boot_id_spellings_witness :
  CanonicalBootID (of_bytes (to_bytes "6a5C-01f9" ++ [newline])) = CanonicalBootID "6a5C01f9".
Proof.
  change "6a5C01f9" with (remove_all "-"%char "6a5C-01f9").
  apply (canonical_boot_id_spellings "6a5C-01f9"); [done|]. by repeat constructor.
Defined.
End BootID.
