(* ===== verification/Samples.v ===== *)
(** * Samples: concrete data for the witnesses *)

From S2P Require Import Prelude GoTime GoStrings Model.

(** A unit observed active or not, with its enter and exit times in
    microseconds. *)
Definition sample_snapshot (active : string) (enter exit : Z) : UnitSnapshot.t :=
  {| UnitSnapshot.Service := "pcscf.service";
     UnitSnapshot.ActiveState := active;
     UnitSnapshot.SubState := "running";
     UnitSnapshot.ActiveEnterTimestampUS := enter;
     UnitSnapshot.ActiveExitTimestampUS := exit;
     UnitSnapshot.ActiveEnterTimestampMonotonicUS := 7;
     UnitSnapshot.ActiveExitTimestampMonotonicUS := 5;
     UnitSnapshot.BootID := "b1";
     UnitSnapshot.ObservedAt := 1700000000 * Second |}.

Definition sample_event (seq : Z) (service : string) (st : AvailabilityState) (ms : Z) : Event.t :=
  {| Event.Sequence := seq;
     Event.Service := service;
     Event.State := st;
     Event.EventTimeUnixMS := ms;
     Event.EventTimeMonotonicUS := 0;
     Event.BootID := "b1";
     Event.Source := SourceRecovery;
     Event.SystemdActiveState := "up";
     Event.SystemdSubState := "" |}.

Definition sample_state (service : string) (avail : AvailabilityState) (awaiting : bool) : ServiceState.t :=
  {| ServiceState.Service := service;
     ServiceState.Availability := avail;
     ServiceState.ActiveState := "active";
     ServiceState.SubState := "running";
     ServiceState.BootID := "b1";
     ServiceState.LastActiveEnterTimestampUS := 1000000;
     ServiceState.LastActiveExitTimestampUS := 500000;
     ServiceState.LastActiveEnterMonotonicUS := 1;
     ServiceState.LastActiveExitMonotonicUS := 1;
     ServiceState.LastEventTimeUnixMS := 1000;
     ServiceState.LastEventMonoUS := 1;
     ServiceState.LastSequence := 4;
     ServiceState.AwaitingSIP := awaiting |}.
