(* ===== verification/Json.v ===== *)
(** * Json: [encoding/json] on the records the exporter stores

    The encoder writes a struct as an object of its fields in declaration
    order and a map as an object sorted by key, as Go 1.22 does. The decoder is
    a parser of whole JSON values followed by assignment to fields: names match
    without regard to case, unknown names are skipped, a later duplicate wins,
    [null] leaves a field alone and a value of the wrong type is an error.

    Text is handled byte by byte: both directions follow Go on ASCII and on
    valid UTF-8 (except that Go escapes U+2028 and U+2029); Go replaces bytes
    that are no UTF-8. A number that is no declared constant of an enumeration
    is refused here, where Go would keep it. At the top of [state.json] Go takes
    [null] for a nil map, which is the empty map here. *)

From S2P Require Import Prelude GoStrings Model.

(** ** Numbers *)

Definition digit_char (n : Z) : ascii := byte (Z.to_nat (48 + n)).

(** The decimal digits of [n], for [n < 2 ^ fuel]. *)
Fixpoint digits (fuel : nat) (n : Z) : bytes :=
  match fuel with
  | O => [digit_char n]
  | S fuel' => if n <? 10 then [digit_char n] else digits fuel' (n / 10) ++ [digit_char (n mod 10)]
  end.

(** [strconv.FormatInt(n, 10)]. *)
Definition FormatInt (n : Z) : bytes :=
  if n <? 0 then "-"%char :: digits (Z.to_nat (Z.log2 (- n)) + 1) (- n)
  else digits (Z.to_nat (Z.log2 n) + 1) n.

(** [strconv.ParseUint(s, 10, width)]. *)
Definition ParseUint (width : Z) (l : bytes) : option Z :=
  match l with
  | [] => None
  | _ =>
      match parse_digits 0 l with
      | Some n => if n <? 2 ^ width then Some n else None
      | None => None
      end
  end.

Lemma digit_digit_char n : 0 <= n < 10 → digit (digit_char n) = Some n.
Proof.
  intros Hn. assert (n = 0 ∨ n = 1 ∨ n = 2 ∨ n = 3 ∨ n = 4 ∨ n = 5 ∨ n = 6 ∨ n = 7 ∨ n = 8 ∨ n = 9)
    as Hc by lia. by destruct_or! Hc; subst.
Qed.

Lemma parse_digits_app acc l1 l2 :
  parse_digits acc (l1 ++ l2) = parse_digits acc l1 ≫= λ a, parse_digits a l2.
Proof.
  revert acc. induction l1 as [|c l1 IH]; intros acc; [done|]. simpl. by destruct (digit c).
Qed.

Lemma parse_digits_digits fuel : ∀ n, 0 <= n < 2 ^ Z.of_nat fuel → parse_digits 0 (digits fuel n) = Some n.
Proof.
  induction fuel as [|fuel IH]; intros n Hn; cbn [digits].
  { simpl in Hn. assert (n = 0) as -> by lia. done. }
  destruct (Z.ltb_spec n 10).
  { simpl. by rewrite digit_digit_char by lia. }
  rewrite parse_digits_app, IH.
  - simpl. rewrite digit_digit_char by (apply Z.mod_pos_bound; lia). f_equal.
    pose proof (Z.div_mod n 10). lia.
  - rewrite Nat2Z.inj_succ, Z.pow_succ_r in Hn by lia. split; [apply Z.div_pos; lia|].
    apply Z.div_lt_upper_bound; lia.
Qed.

Lemma digits_fuel n : 0 <= n → n < 2 ^ Z.of_nat (Z.to_nat (Z.log2 n) + 1).
Proof.
  intros Hn. rewrite Nat2Z.inj_add, Z2Nat.id by apply Z.log2_nonneg.
  destruct (decide (n = 0)) as [->|]; [done|]. apply (Z.log2_spec n). lia.
Qed.

Lemma digits_ne fuel n : digits fuel n ≠ [].
Proof. destruct fuel; simpl; [done|]. case_match; [done|]. by destruct (digits fuel (n / 10)). Qed.

Lemma ParseUint_FormatInt width n :
  0 <= n < 2 ^ width → ParseUint width (FormatInt n) = Some n.
Proof.
  intros Hn. unfold FormatInt. rewrite (proj2 (Z.ltb_ge n 0)) by lia. unfold ParseUint.
  rewrite parse_digits_digits by (split; [lia|apply digits_fuel; lia]).
  rewrite (proj2 (Z.ltb_lt _ _)) by lia.
  pose proof (digits_ne (Z.to_nat (Z.log2 n) + 1) n). by destruct (digits _ n).
Qed.

Lemma digits_digits fuel : ∀ n, 0 <= n < 2 ^ Z.of_nat fuel →
  Forall (λ c, ∃ d, digit c = Some d) (digits fuel n).
Proof.
  induction fuel as [|fuel IH]; intros n Hn; cbn [digits].
  { simpl in Hn. assert (n = 0) as -> by lia. repeat constructor. by exists 0. }
  destruct (Z.ltb_spec n 10).
  { repeat constructor. exists n. apply digit_digit_char. lia. }
  apply Forall_app. split.
  - apply IH. rewrite Nat2Z.inj_succ, Z.pow_succ_r in Hn by lia. split; [apply Z.div_pos; lia|].
    apply Z.div_lt_upper_bound; lia.
  - repeat constructor. exists (n mod 10). apply digit_digit_char, Z.mod_pos_bound. lia.
Qed.

(** The grammar of a JSON number. *)
Fixpoint drop_digits (l : bytes) : bytes :=
  match l with
  | c :: l' => match digit c with Some _ => drop_digits l' | None => l end
  | [] => []
  end.
Definition some_digits (l : bytes) : option bytes :=
  match l with
  | c :: l' => match digit c with Some _ => Some (drop_digits l') | None => None end
  | [] => None
  end.
Definition exponent_ok (l : bytes) : bool :=
  match l with
  | [] => true
  | ("e" | "E")%char :: ("+" | "-")%char :: l' | ("e" | "E")%char :: l' =>
      bool_decide (some_digits l' = Some [])
  | _ => false
  end.
Definition fraction_ok (l : bytes) : bool :=
  match l with
  | "."%char :: l' => match some_digits l' with Some l'' => exponent_ok l'' | None => false end
  | _ => exponent_ok l
  end.
Definition unsigned_ok (l : bytes) : bool :=
  match l with
  | "0"%char :: l' => fraction_ok l'
  | _ => match some_digits l with Some l' => fraction_ok l' | None => false end
  end.
Definition number_ok (l : bytes) : bool :=
  match l with
  | "-"%char :: l' => unsigned_ok l'
  | _ => unsigned_ok l
  end.

Definition number_char (c : ascii) : bool :=
  match digit c with Some _ => true | None => false end ||
  bool_decide (c ∈ ["-"; "+"; "."; "e"; "E"]%char).

(** The longest run of bytes a number may contain. *)
Fixpoint span_number (l : bytes) : bytes * bytes :=
  match l with
  | c :: l' =>
      if number_char c then let '(lit, rest) := span_number l' in (c :: lit, rest) else ([], l)
  | [] => ([], [])
  end.

(** ** Text *)

Definition quote : ascii := byte 34.
Definition backslash : ascii := byte 92.

Definition code (c : ascii) : Z := Z.of_nat (Ascii.nat_of_ascii c).
Definition chr (n : Z) : ascii := byte (Z.to_nat n).

Definition hex_digit (n : Z) : ascii := chr (if n <? 10 then 48 + n else 87 + n).
Definition hex_value (c : ascii) : option Z :=
  let n := code c in
  if (48 <=? n) && (n <=? 57) then Some (n - 48)
  else if (97 <=? n) && (n <=? 102) then Some (n - 87)
  else if (65 <=? n) && (n <=? 70) then Some (n - 55)
  else None.

(** The bytes Go escapes: quotes, backslashes, controls and the three that
    matter in HTML. *)
Definition escape (c : ascii) : bytes :=
  let n := code c in
  if (n =? 34) || (n =? 92) then [backslash; c]
  else if n =? 8 then [backslash; "b"%char]
  else if n =? 12 then [backslash; "f"%char]
  else if n =? 10 then [backslash; "n"%char]
  else if n =? 13 then [backslash; "r"%char]
  else if n =? 9 then [backslash; "t"%char]
  else if (n <? 32) || (n =? 38) || (n =? 60) || (n =? 62) then
    [backslash; "u"%char; "0"%char; "0"%char; hex_digit (n / 16); hex_digit (n mod 16)]
  else [c].

Definition encode_string (s : string) : bytes :=
  [quote] ++ concat (escape <$> to_bytes s) ++ [quote].

Definition hex4 (a b c d : ascii) : option Z :=
  x ← hex_value a; y ← hex_value b; z ← hex_value c; t ← hex_value d;
  Some (((x * 16 + y) * 16 + z) * 16 + t).

(** [utf8.AppendRune] for a code point that is no surrogate. *)
Definition utf8 (n : Z) : bytes :=
  if n <? 128 then [chr n]
  else if n <? 2048 then [chr (192 + n / 64); chr (128 + n mod 64)]
  else if n <? 65536 then [chr (224 + n / 4096); chr (128 + n / 64 mod 64); chr (128 + n mod 64)]
  else [chr (240 + n / 262144); chr (128 + n / 4096 mod 64); chr (128 + n / 64 mod 64);
        chr (128 + n mod 64)].

Definition is_surrogate (n : Z) : bool := (55296 <=? n) && (n <? 57344).
Definition surrogate_pair (hi lo : Z) : option Z :=
  if (55296 <=? hi) && (hi <? 56320) && (56320 <=? lo) && (lo <? 57344)
  then Some (65536 + (hi - 55296) * 1024 + (lo - 56320)) else None.
Definition replacement : bytes := utf8 65533.

(** The single-byte escapes. *)
Definition unescape (c : ascii) : option ascii :=
  let n := code c in
  if (n =? 34) || (n =? 92) || (n =? 47) then Some c
  else if n =? 98 then Some (chr 8)
  else if n =? 102 then Some (chr 12)
  else if n =? 110 then Some (chr 10)
  else if n =? 114 then Some (chr 13)
  else if n =? 116 then Some (chr 9)
  else None.

(** The text up to the closing quote, and what follows the quote. *)
Fixpoint decode_text (l : bytes) : option (bytes * bytes) :=
  let emit (b : bytes) (r : option (bytes * bytes)) := r ≫= λ '(s, rest), Some (b ++ s, rest) in
  match l with
  | [] => None
  | c :: l' =>
      if decide (c = quote) then Some ([], l')
      else if decide (c = backslash) then
        match l' with
        | [] => None
        | "u"%char :: l1 =>
            match l1 with
            | a :: b :: c :: d :: l2 =>
                match hex4 a b c d with
                | None => None
                | Some n =>
                    if is_surrogate n then
                      match l2 with
                      | bs :: "u"%char :: a' :: b' :: c' :: d' :: l3 =>
                          if decide (bs = backslash) then
                            match hex4 a' b' c' d' ≫= surrogate_pair n with
                            | Some m => emit (utf8 m) (decode_text l3)
                            | None => emit replacement (decode_text l2)
                            end
                          else emit replacement (decode_text l2)
                      | _ => emit replacement (decode_text l2)
                      end
                    else emit (utf8 n) (decode_text l2)
                end
            | _ => None
            end
        | e :: l1 =>
            match unescape e with Some b => emit [b] (decode_text l1) | None => None end
        end
      else if code c <? 32 then None
      else emit [c] (decode_text l')
  end.

Definition is_ascii (c : ascii) : bool := code c <? 128.
Definition ascii_text (s : string) : Prop := Forall (λ c, is_ascii c = true) (to_bytes s).

Lemma decode_text_escape c rest :
  is_ascii c = true →
  decode_text (escape c ++ rest) = (decode_text rest ≫= λ '(s, r), Some (c :: s, r)).
Proof. destruct c as [[] [] [] [] [] [] [] []]; intros Hc; [try done..]; reflexivity. Qed.

Lemma decode_text_string l rest :
  Forall (λ c, is_ascii c = true) l →
  decode_text (concat (escape <$> l) ++ [quote] ++ rest) = Some (l, rest).
Proof.
  induction 1 as [|c l Hc Hl IH]; [done|]. rewrite fmap_cons. cbn [concat].
  rewrite <-app_assoc, decode_text_escape by done. by rewrite IH.
Qed.

Lemma escape_no_newline c : newline ∉ escape c.
Proof. destruct c as [[] [] [] [] [] [] [] []]; by apply (bool_decide_eq_true_1 _). Qed.

Lemma encode_string_no_newline s : newline ∉ encode_string s.
Proof.
  unfold encode_string. rewrite !elem_of_app, !list_elem_of_singleton.
  intros [H|[H|H]]; [done| |done]. induction (to_bytes s) as [|c l IH]; [by inv H|].
  rewrite fmap_cons in H. cbn [concat] in H. apply elem_of_app in H as [H|H]; [|auto].
  by apply escape_no_newline in H.
Qed.

(** ** Values *)

Inductive json :=
  | JNull
  | JBool (b : bool)
  | JNumber (lit : bytes)
  | JString (s : bytes)
  | JArray (l : list json)
  | JObject (ms : list (bytes * json)).

Definition is_space (c : ascii) : bool := bool_decide (c ∈ [byte 32; byte 9; byte 10; byte 13]).
Fixpoint skip_space (l : bytes) : bytes :=
  match l with c :: l' => if is_space c then skip_space l' else l | [] => [] end.

(** Every nested call consumes a byte, so the length of the text is enough
    fuel. *)
Fixpoint parse_value (fuel : nat) (l : bytes) {struct fuel} : option (json * bytes) :=
  match fuel with
  | O => None
  | S fuel' =>
      match skip_space l with
      | "{"%char :: l1 =>
          match skip_space l1 with
          | "}"%char :: l2 => Some (JObject [], l2)
          | l2 => parse_members fuel' l2 ≫= λ '(ms, rest), Some (JObject ms, rest)
          end
      | "["%char :: l1 =>
          match skip_space l1 with
          | "]"%char :: l2 => Some (JArray [], l2)
          | l2 => parse_elements fuel' l2 ≫= λ '(vs, rest), Some (JArray vs, rest)
          end
      | "t"%char :: "r"%char :: "u"%char :: "e"%char :: rest => Some (JBool true, rest)
      | "f"%char :: "a"%char :: "l"%char :: "s"%char :: "e"%char :: rest => Some (JBool false, rest)
      | "n"%char :: "u"%char :: "l"%char :: "l"%char :: rest => Some (JNull, rest)
      | c :: l1 =>
          if decide (c = quote) then decode_text l1 ≫= λ '(s, rest), Some (JString s, rest)
          else let '(lit, rest) := span_number (c :: l1) in
               if number_ok lit then Some (JNumber lit, rest) else None
      | [] => None
      end
  end
with parse_members (fuel : nat) (l : bytes) {struct fuel} : option (list (bytes * json) * bytes) :=
  match fuel with
  | O => None
  | S fuel' =>
      match skip_space l with
      | c :: l1 =>
          if decide (c = quote) then
            decode_text l1 ≫= λ '(key, l2),
            match skip_space l2 with
            | ":"%char :: l3 =>
                parse_value fuel' l3 ≫= λ '(v, l4),
                match skip_space l4 with
                | ","%char :: l5 =>
                    parse_members fuel' l5 ≫= λ '(ms, rest), Some ((key, v) :: ms, rest)
                | "}"%char :: rest => Some ([(key, v)], rest)
                | _ => None
                end
            | _ => None
            end
          else None
      | [] => None
      end
  end
with parse_elements (fuel : nat) (l : bytes) {struct fuel} : option (list json * bytes) :=
  match fuel with
  | O => None
  | S fuel' =>
      parse_value fuel' l ≫= λ '(v, l1),
      match skip_space l1 with
      | ","%char :: l2 => parse_elements fuel' l2 ≫= λ '(vs, rest), Some (v :: vs, rest)
      | "]"%char :: rest => Some ([v], rest)
      | _ => None
      end
  end.

(** One value and nothing but space after it. *)
Definition parse_json (l : bytes) : option json :=
  parse_value (S (length l)) l ≫= λ '(v, rest), if decide (skip_space rest = []) then Some v else None.

(** ** Structs *)

(** [json.Marshal] of a struct, given its fields' names and encoded values. *)
Fixpoint encode_members (ms : list (string * bytes)) : bytes :=
  match ms with
  | [] => []
  | [(k, v)] => encode_string k ++ [":"%char] ++ v
  | (k, v) :: ms' => encode_string k ++ [":"%char] ++ v ++ [","%char] ++ encode_members ms'
  end.
Definition encode_object (ms : list (string * bytes)) : bytes :=
  ["{"%char] ++ encode_members ms ++ ["}"%char].

Definition encode_bool (b : bool) : bytes := to_bytes (if b then "true" else "false").

(** The field [name] after the members of an object have been assigned. *)
Definition field {A} (name : string) (dec : json → option A) (zero : A) (ms : list (bytes * json)) : option A :=
  foldl (λ acc '(k, v),
    a ← acc;
    if decide (ToLower (of_bytes k) = ToLower name)
    then match v with JNull => Some a | _ => dec v end else Some a) (Some zero) ms.

Definition as_uint (width : Z) (v : json) : option Z :=
  match v with JNumber lit => ParseUint width lit | _ => None end.
Definition as_int64 (v : json) : option Z :=
  match v with JNumber lit => ParseInt (of_bytes lit) | _ => None end.
Definition as_string (v : json) : option string :=
  match v with JString s => Some (of_bytes s) | _ => None end.
Definition as_bool (v : json) : option bool := match v with JBool b => Some b | _ => None end.

(** ** Facts about whole values *)

(** What may follow a value: nothing a number could continue with. *)
Definition delimited (rest : bytes) : Prop :=
  match rest with c :: _ => number_char c = false | [] => True end.

(** [enc] is an encoding of [v] at nesting depth [d]. *)
Definition encodes (d : nat) (enc : bytes) (v : json) : Prop :=
  ∀ fuel rest, (d <= fuel)%nat → delimited rest → parse_value fuel (enc ++ rest) = Some (v, rest).

Lemma parse_value_quote fuel l :
  parse_value (S fuel) (quote :: l) = decode_text l ≫= λ '(s, rest), Some (JString s, rest).
Proof. reflexivity. Qed.

Lemma encode_string_app s rest :
  encode_string s ++ rest = quote :: concat (escape <$> to_bytes s) ++ [quote] ++ rest.
Proof. unfold encode_string. by rewrite <-!app_assoc. Qed.

Lemma encodes_string s : ascii_text s → encodes 1 (encode_string s) (JString (to_bytes s)).
Proof.
  intros Hs [|fuel] rest Hf _; [lia|].
  by rewrite encode_string_app, parse_value_quote, decode_text_string.
Qed.

Lemma encodes_bool b : encodes 1 (encode_bool b) (JBool b).
Proof. intros [|fuel] rest Hf _; [lia|]. by destruct b. Qed.

(** A run of number bytes ends at a delimiter. *)
Lemma span_number_delimited lit rest :
  Forall (λ c, number_char c = true) lit → delimited rest → span_number (lit ++ rest) = (lit, rest).
Proof.
  intros Hl Hd. induction Hl as [|c lit Hc Hl IH].
  - destruct rest as [|c rest]; [done|]. cbn in *. by rewrite Hd.
  - cbn. by rewrite Hc, IH.
Qed.

Lemma digit_number_char c : (∃ d, digit c = Some d) → number_char c = true.
Proof. intros [d Hd]. unfold number_char. by rewrite Hd. Qed.

Lemma drop_digits_all l : Forall (λ c, ∃ d, digit c = Some d) l → drop_digits l = [].
Proof. induction 1 as [|c l [d Hd] Hl IH]; [done|]. simpl. by rewrite Hd. Qed.

(** The first digit of a positive number is not zero. *)
Lemma digits_head fuel : ∀ n, 0 < n < 2 ^ Z.of_nat fuel →
  ∃ c l, digits fuel n = c :: l ∧ c ≠ "0"%char.
Proof.
  induction fuel as [|fuel IH]; intros n Hn; cbn [digits]; [simpl in Hn; lia|].
  destruct (Z.ltb_spec n 10).
  - exists (digit_char n), []. split; [done|]. intros H0.
    assert (digit (digit_char n) = Some n) as Hd by (apply digit_digit_char; lia).
    rewrite H0 in Hd. change (Some 0 = Some n) in Hd. injection Hd. lia.
  - destruct (IH (n / 10)) as (c & l & -> & Hc).
    + rewrite Nat2Z.inj_succ, Z.pow_succ_r in Hn by lia. split; [apply Z.div_str_pos; lia|].
      apply Z.div_lt_upper_bound; lia.
    + exists c, (l ++ [digit_char (n mod 10)]). done.
Qed.

Lemma unsigned_ok_digits n fuel : 0 <= n < 2 ^ Z.of_nat fuel → unsigned_ok (digits fuel n) = true.
Proof.
  intros Hn. destruct (decide (n = 0)) as [->|].
  { destruct fuel; done. }
  destruct (digits_head fuel n) as (c & l & Heq & Hc); [lia|].
  pose proof (digits_digits fuel n Hn) as Hd. rewrite Heq in *. inv Hd. destruct_and?.
  match goal with H : ∃ _, _ |- _ => destruct H as [d Hd] end.
  assert (some_digits (c :: l) = Some []) as Hs by (simpl; by rewrite Hd, drop_digits_all).
  unfold unsigned_ok. rewrite Hs.
  destruct c as [[] [] [] [] [] [] [] []]; done.
Qed.

Lemma number_first c l : (∃ d, digit c = Some d) ∨ c = "-"%char → number_char c = true ∧
  (∀ fuel, parse_value (S fuel) (c :: l) =
    let '(lit, rest) := span_number (c :: l) in
    if number_ok lit then Some (JNumber lit, rest) else None).
Proof.
  intros [[d Hd]| ->]; [|done]. split; [by apply digit_number_char; exists d|].
  intros fuel. destruct c as [[] [] [] [] [] [] [] []]; try discriminate Hd; done.
Qed.

Lemma encodes_int n : encodes 1 (FormatInt n) (JNumber (FormatInt n)).
Proof.
  intros [|fuel] rest Hf Hd; [lia|].
  assert (Forall (λ c, number_char c = true) (FormatInt n) ∧ number_ok (FormatInt n) = true ∧
    ∃ c l, FormatInt n = c :: l ∧ ((∃ d, digit c = Some d) ∨ c = "-"%char)) as (Hall & Hok & c & l & Heq & Hc).
  { unfold FormatInt. destruct (Z.ltb_spec n 0).
    - pose proof (digits_digits _ _ (conj (ltac:(lia) : 0 <= - n) (digits_fuel (- n) ltac:(lia)))) as Hall.
      split_and!; [|apply unsigned_ok_digits; split; [lia|apply digits_fuel; lia]|by eauto].
      constructor; [done|]. eapply Forall_impl; [exact Hall|]. apply digit_number_char.
    - pose proof (digits_digits _ _ (conj (ltac:(lia) : 0 <= n) (digits_fuel n ltac:(lia)))) as Hall.
      pose proof (unsigned_ok_digits n _ (conj (ltac:(lia) : 0 <= n) (digits_fuel n ltac:(lia)))) as Hu.
      split_and!; [eapply Forall_impl; [exact Hall|]; apply digit_number_char| |].
      + destruct Hall as [|c l [d Hd'] Hl]; [done|]. unfold number_ok.
        destruct c as [[] [] [] [] [] [] [] []]; try done; discriminate Hd'.
      + destruct Hall as [|c l Hc Hl]; [done|]. by eauto. }
  rewrite Heq in *. cbn [app]. rewrite (proj2 (number_first c (l ++ rest) Hc)).
  by rewrite (span_number_delimited (c :: l) rest Hall Hd : span_number (c :: l ++ rest) = _), Hok.
Qed.

(** A member: its name, its encoded value and the value it stands for. *)
Definition member_ok (d : nat) (m : string * bytes * json) : Prop :=
  let '(k, enc, v) := m in ascii_text k ∧ encodes d enc v.
Definition member_value (m : string * bytes * json) : bytes * json :=
  let '(k, _, v) := m in (to_bytes k, v).

(** What follows a member's value. *)
Definition after_member (fuel : nat) (m : bytes * json) (l : bytes) :=
  match skip_space l with
  | ","%char :: l5 => parse_members fuel l5 ≫= λ '(ms, rest), Some (m :: ms, rest)
  | "}"%char :: rest => Some ([m], rest)
  | _ => None
  end.

Lemma parse_member fuel k enc v rest :
  ascii_text k → parse_value fuel (enc ++ rest) = Some (v, rest) →
  parse_members (S fuel) (encode_string k ++ [":"%char] ++ enc ++ rest) =
    after_member fuel (to_bytes k, v) rest.
Proof.
  intros Hk Hv. rewrite encode_string_app.
  transitivity (decode_text (concat (escape <$> to_bytes k) ++ [quote] ++ [":"%char] ++ enc ++ rest)
    ≫= λ '(key, l2), match skip_space l2 with
       | ":"%char :: l3 => parse_value fuel l3 ≫= λ '(v, l4), after_member fuel (key, v) l4
       | _ => None
       end); [reflexivity|].
  rewrite decode_text_string by done.
  transitivity (parse_value fuel (enc ++ rest) ≫= λ '(v, l4), after_member fuel (to_bytes k, v) l4);
    [reflexivity|]. by rewrite Hv.
Qed.

Lemma encode_members_cons k v m ms :
  encode_members ((k, v) :: m :: ms) =
  encode_string k ++ [":"%char] ++ v ++ [","%char] ++ encode_members (m :: ms).
Proof. done. Qed.

Lemma parse_members_encoded d ms : ∀ fuel rest,
  ms ≠ [] → Forall (member_ok d) ms → (d + length ms <= fuel)%nat →
  parse_members fuel (encode_members (fst <$> ms) ++ "}"%char :: rest) =
    Some (member_value <$> ms, rest).
Proof.
  induction ms as [|[[k enc] v] ms IH]; intros [|fuel] rest Hne Hms Hf; [done|done|simpl in Hf; lia|].
  apply Forall_cons in Hms as [[Hk Henc] Hms]. simpl in Hf. destruct ms as [|m ms].
  - cbn [fmap list_fmap fst encode_members]. rewrite <-!app_assoc.
    by rewrite (parse_member _ _ _ v) by first [done | apply Henc; [lia|done]].
  - rewrite fmap_cons. destruct (fst <$> m :: ms) as [|m' ms'] eqn:Hmap; [done|].
    cbn [fst]. rewrite encode_members_cons, <-!app_assoc.
    rewrite (parse_member _ _ _ v) by first [done | apply Henc; [lia|done]].
    transitivity (parse_members fuel (encode_members (m' :: ms') ++ "}"%char :: rest)
      ≫= λ '(ms, rest), Some ((to_bytes k, v) :: ms, rest)); [reflexivity|].
    rewrite IH; [done|done|done|simpl in *; lia].
Qed.

Lemma encodes_object d ms :
  Forall (member_ok d) ms →
  encodes (S (d + length ms)) (encode_object (fst <$> ms)) (JObject (member_value <$> ms)).
Proof.
  intros Hms [|fuel] rest Hf _; [lia|]. unfold encode_object. rewrite <-!app_assoc. cbn [app].
  destruct ms as [|[[k enc] v] ms]; [done|].
  assert (∃ l, encode_members (fst <$> (k, enc, v) :: ms) ++ "}"%char :: rest = quote :: l) as [l Hl].
  { rewrite fmap_cons. cbn [fst encode_members].
    destruct (fst <$> ms); rewrite <-app_assoc, encode_string_app; by eexists. }
  assert (parse_value (S fuel) ("{"%char :: quote :: l) =
    parse_members fuel (quote :: l) ≫= λ '(ms, rest), Some (JObject ms, rest)) as Hp by done.
  rewrite Hl, Hp, <-Hl. by rewrite (parse_members_encoded d) by (done || lia).
Qed.

Lemma encode_members_length ms : (length ms <= length (encode_members ms))%nat.
Proof.
  induction ms as [|[k v] [|m ms] IH]; [done|..].
  - simpl. rewrite length_app. simpl. lia.
  - rewrite encode_members_cons, !length_app. cbn [length] in *. lia.
Qed.


Lemma parse_json_object d ms trail :
  Forall (member_ok d) ms → (d + length ms <= length (encode_object (fst <$> ms)))%nat →
  Forall (λ c, is_space c = true) trail →
  parse_json (encode_object (fst <$> ms) ++ trail) = Some (JObject (member_value <$> ms)).
Proof.
  intros Hms Hd Htrail. unfold parse_json.
  assert (delimited trail) as Hdel.
  { destruct Htrail as [|c l Hc Hl]; [done|]. cbn. destruct c as [[] [] [] [] [] [] [] []]; done. }
  rewrite (encodes_object d ms Hms) by (rewrite ?length_app; (done || lia)).
  cbn [mbind option_bind]. assert (skip_space trail = []) as ->; [|done].
  clear Hdel. induction Htrail as [|c l Hc Hl IH]; [done|]. simpl. by rewrite Hc.
Qed.

(** ** Fields of the stored records *)

Definition int_field (name : string) (n : Z) : string * bytes * json :=
  (name, FormatInt n, JNumber (FormatInt n)).
Definition string_field (name s : string) : string * bytes * json :=
  (name, encode_string s, JString (to_bytes s)).
Definition bool_field (name : string) (b : bool) : string * bytes * json :=
  (name, encode_bool b, JBool b).

Definition availability_index (s : AvailabilityState) : Z :=
  match s with StateUnknown => 0 | StateUp => 1 | StateDown => 2 end.
Definition source_index (s : EventSource) : Z :=
  match s with
  | SourceSystemd => 0 | SourceHostReboot => 1 | SourceRecovery => 2
  | SourceSIP => 3 | SourceDNS => 4 | SourceAGW => 5
  end.
Definition as_availability (v : json) : option AvailabilityState :=
  n ← as_uint 8 v; [StateUnknown; StateUp; StateDown] !! Z.to_nat n.
Definition as_source (v : json) : option EventSource :=
  n ← as_uint 8 v;
  [SourceSystemd; SourceHostReboot; SourceRecovery; SourceSIP; SourceDNS; SourceAGW] !! Z.to_nat n.

Definition event_fields (e : Event.t) : list (string * bytes * json) :=
  [ int_field "Sequence" (Event.Sequence e);
    string_field "Service" (Event.Service e);
    int_field "State" (availability_index (Event.State e));
    int_field "EventTimeUnixMS" (Event.EventTimeUnixMS e);
    int_field "EventTimeMonotonicUS" (Event.EventTimeMonotonicUS e);
    string_field "BootID" (Event.BootID e);
    int_field "Source" (source_index (Event.Source e));
    string_field "SystemdActiveState" (Event.SystemdActiveState e);
    string_field "SystemdSubState" (Event.SystemdSubState e) ].

Definition marshal_event (e : Event.t) : bytes := encode_object (fst <$> event_fields e).

Definition assign_event (ms : list (bytes * json)) : option Event.t :=
  seq ← field "Sequence" (as_uint 64) 0 ms;
  service ← field "Service" as_string "" ms;
  st ← field "State" as_availability StateUnknown ms;
  at_ ← field "EventTimeUnixMS" as_int64 0 ms;
  mono ← field "EventTimeMonotonicUS" (as_uint 64) 0 ms;
  boot ← field "BootID" as_string "" ms;
  source ← field "Source" as_source SourceSystemd ms;
  active ← field "SystemdActiveState" as_string "" ms;
  sub ← field "SystemdSubState" as_string "" ms;
  Some (Event.mk seq service st at_ mono boot source active sub).

(** [null] assigns no member. *)
Definition unmarshal_object {A} (assign : list (bytes * json) → option A) (v : json) : option A :=
  match v with JObject ms => assign ms | JNull => assign [] | _ => None end.

Definition unmarshal_event (l : bytes) : option Event.t := parse_json l ≫= unmarshal_object assign_event.

(** An event whose numbers fit their fields and whose text is ASCII. *)
Definition json_event (e : Event.t) : Prop :=
  in_u64 (Event.Sequence e) ∧ in_i64 (Event.EventTimeUnixMS e) ∧ in_u64 (Event.EventTimeMonotonicUS e) ∧
  ascii_text (Event.Service e) ∧ ascii_text (Event.BootID e) ∧
  ascii_text (Event.SystemdActiveState e) ∧ ascii_text (Event.SystemdSubState e).

(** ** Round trips *)

Ltac ground_spaces := by repeat constructor.

Lemma member_int name n : ascii_text name → member_ok 1 (int_field name n).
Proof. intros. split; [done|apply encodes_int]. Qed.
Lemma member_string name s : ascii_text name → ascii_text s → member_ok 1 (string_field name s).
Proof. intros. split; [done|by apply encodes_string]. Qed.
Lemma member_bool name b : ascii_text name → member_ok 1 (bool_field name b).
Proof. intros. split; [done|apply encodes_bool]. Qed.

Ltac ascii_names := by apply (bool_decide_eq_true_1 _).
#[export] Hint Resolve member_int member_string member_bool : json.
#[export] Hint Extern 1 (ascii_text (String _ _)) => ascii_names : json.

Lemma ParseInt_FormatInt n : in_i64 n → ParseInt (of_bytes (FormatInt n)) = Some n.
Proof.
  intros Hn. unfold in_i64 in Hn. unfold ParseInt. rewrite to_of_bytes. unfold FormatInt.
  destruct (Z.ltb_spec n 0).
  - rewrite parse_digits_digits by (split; [lia|apply digits_fuel; lia]).
    pose proof (digits_ne (Z.to_nat (Z.log2 (- n)) + 1) (- n)). destruct (digits _ (- n)); [done|].
    rewrite Z.opp_involutive. by rewrite (proj2 (Z.leb_le _ _)), (proj2 (Z.ltb_lt _ _)) by lia.
  - assert (0 <= n < 2 ^ Z.of_nat (Z.to_nat (Z.log2 n) + 1)) as Hb by (split; [lia|apply digits_fuel; lia]).
    pose proof (digits_digits _ _ Hb) as Hd. pose proof (parse_digits_digits _ _ Hb) as Hp.
    pose proof (digits_ne (Z.to_nat (Z.log2 n) + 1) n) as Hne. revert Hd Hp Hne.
    generalize (digits (Z.to_nat (Z.log2 n) + 1) n). intros ds Hd Hp Hne.
    destruct Hd as [|c l [d Hd] Hl]; [done|].
    transitivity (match parse_digits 0 (c :: l) with
      | Some n => if (- 2 ^ 63 <=? n) && (n <? 2 ^ 63) then Some n else None
      | None => None end).
    { destruct c as [[] [] [] [] [] [] [] []]; try discriminate Hd; done. }
    rewrite Hp. by rewrite (proj2 (Z.leb_le _ _)), (proj2 (Z.ltb_lt _ _)) by lia.
Qed.

Lemma as_uint_field width n : 0 <= n < 2 ^ width → as_uint width (JNumber (FormatInt n)) = Some n.
Proof. apply ParseUint_FormatInt. Qed.
Lemma as_int64_field n : in_i64 n → as_int64 (JNumber (FormatInt n)) = Some n.
Proof. apply ParseInt_FormatInt. Qed.
Lemma as_string_field s : as_string (JString (to_bytes s)) = Some s.
Proof. simpl. by rewrite of_to_bytes. Qed.
Lemma as_availability_field st :
  as_availability (JNumber (FormatInt (availability_index st))) = Some st.
Proof. by destruct st. Qed.
Lemma as_source_field s : as_source (JNumber (FormatInt (source_index s))) = Some s.
Proof. by destruct s. Qed.

Lemma event_fields_ok e : json_event e → Forall (member_ok 1) (event_fields e).
Proof.
  intros (_ & _ & _ & H1 & H2 & H3 & H4). unfold event_fields.
  repeat (apply Forall_cons; split); auto with json.
Qed.

Lemma encode_object_length ms : (2 + length ms <= length (encode_object ms))%nat.
Proof. unfold encode_object. rewrite !length_app. pose proof (encode_members_length ms). simpl. lia. Qed.

(** The values assigned to the field [name]. *)
Definition matches (name : string) (ms : list (bytes * json)) : list json :=
  omap (λ '(k, v), if decide (ToLower (of_bytes k) = ToLower name) then Some v else None) ms.

Lemma field_matches {A} name (dec : json → option A) ms : ∀ acc,
  foldl (λ acc '(k, v), a ← acc;
    if decide (ToLower (of_bytes k) = ToLower name)
    then match v with JNull => Some a | _ => dec v end else Some a) acc ms =
  foldl (λ acc v, a ← acc; match v with JNull => Some a | _ => dec v end) acc (matches name ms).
Proof.
  induction ms as [|[k v] ms IH]; intros acc; [done|]. unfold matches in *. simpl.
  case_decide; simpl; rewrite IH; [done|]. by destruct acc.
Qed.

Lemma field_unique {A} name (dec : json → option A) zero ms v :
  matches name ms = [v] → v ≠ JNull → field name dec zero ms = dec v.
Proof. intros Hm Hv. unfold field. rewrite field_matches, Hm. by destruct v. Qed.

(** Evaluate a decoder on the fields an encoder wrote. *)
Ltac assign_fields :=
  repeat (erewrite field_unique; [|reflexivity|done]);
  rewrite ?as_string_field, ?as_uint_field, ?as_int64_field, ?as_availability_field, ?as_source_field by done.

Lemma unmarshal_marshal_event e trail :
  json_event e → Forall (λ c, is_space c = true) trail → unmarshal_event (marshal_event e ++ trail) = Some e.
Proof.
  intros He Htrail. pose proof (event_fields_ok e He) as Hms.
  unfold unmarshal_event, marshal_event.
  rewrite (parse_json_object 1) by first [done | pose proof (encode_object_length (fst <$> event_fields e)) as Hl;
    rewrite length_fmap in Hl; lia].
  destruct He as (H1 & H2 & H3 & _). cbn [mbind option_bind unmarshal_object].
  unfold assign_event. assign_fields. by destruct e.
Qed.

(** ** The state cache *)

Definition state_fields (s : ServiceState.t) : list (string * bytes * json) :=
  [ string_field "Service" (ServiceState.Service s);
    int_field "Availability" (availability_index (ServiceState.Availability s));
    string_field "ActiveState" (ServiceState.ActiveState s);
    string_field "SubState" (ServiceState.SubState s);
    string_field "BootID" (ServiceState.BootID s);
    int_field "LastActiveEnterTimestampUS" (ServiceState.LastActiveEnterTimestampUS s);
    int_field "LastActiveExitTimestampUS" (ServiceState.LastActiveExitTimestampUS s);
    int_field "LastActiveEnterMonotonicUS" (ServiceState.LastActiveEnterMonotonicUS s);
    int_field "LastActiveExitMonotonicUS" (ServiceState.LastActiveExitMonotonicUS s);
    int_field "LastEventTimeUnixMS" (ServiceState.LastEventTimeUnixMS s);
    int_field "LastEventMonoUS" (ServiceState.LastEventMonoUS s);
    int_field "LastSequence" (ServiceState.LastSequence s);
    bool_field "AwaitingSIP" (ServiceState.AwaitingSIP s) ].

Definition assign_state (ms : list (bytes * json)) : option ServiceState.t :=
  service ← field "Service" as_string "" ms;
  avail ← field "Availability" as_availability StateUnknown ms;
  active ← field "ActiveState" as_string "" ms;
  sub ← field "SubState" as_string "" ms;
  boot ← field "BootID" as_string "" ms;
  enter ← field "LastActiveEnterTimestampUS" (as_uint 64) 0 ms;
  exit ← field "LastActiveExitTimestampUS" (as_uint 64) 0 ms;
  entermono ← field "LastActiveEnterMonotonicUS" (as_uint 64) 0 ms;
  exitmono ← field "LastActiveExitMonotonicUS" (as_uint 64) 0 ms;
  evtime ← field "LastEventTimeUnixMS" as_int64 0 ms;
  evmono ← field "LastEventMonoUS" (as_uint 64) 0 ms;
  seq ← field "LastSequence" (as_uint 64) 0 ms;
  awaiting ← field "AwaitingSIP" as_bool false ms;
  Some (ServiceState.mk service avail active sub boot enter exit entermono exitmono evtime evmono seq
          awaiting).

Definition json_state (s : ServiceState.t) : Prop :=
  ascii_text (ServiceState.Service s) ∧ ascii_text (ServiceState.ActiveState s) ∧
  ascii_text (ServiceState.SubState s) ∧ ascii_text (ServiceState.BootID s) ∧
  in_u64 (ServiceState.LastActiveEnterTimestampUS s) ∧ in_u64 (ServiceState.LastActiveExitTimestampUS s) ∧
  in_u64 (ServiceState.LastActiveEnterMonotonicUS s) ∧ in_u64 (ServiceState.LastActiveExitMonotonicUS s) ∧
  in_i64 (ServiceState.LastEventTimeUnixMS s) ∧ in_u64 (ServiceState.LastEventMonoUS s) ∧
  in_u64 (ServiceState.LastSequence s).

Lemma state_fields_ok s : json_state s → Forall (member_ok 1) (state_fields s).
Proof.
  intros (H1 & H2 & H3 & H4 & _). unfold state_fields.
  repeat (apply Forall_cons; split); auto with json.
Qed.

Lemma assign_state_fields s :
  json_state s → assign_state (member_value <$> state_fields s) = Some s.
Proof.
  intros (_ & _ & _ & _ & H1 & H2 & H3 & H4 & H5 & H6 & H7).
  unfold assign_state. assign_fields. by destruct s.
Qed.

(** A map is an object sorted by key. *)
Definition sorted_entries (m : gmap string ServiceState.t) : list (string * ServiceState.t) :=
  sort_stable (λ a b, String.ltb a.1 b.1) (map_to_list m).

Definition state_member (kv : string * ServiceState.t) : string * bytes * json :=
  (kv.1, encode_object (fst <$> state_fields kv.2), JObject (member_value <$> state_fields kv.2)).

Definition marshal_states (m : gmap string ServiceState.t) : bytes :=
  encode_object (fst <$> (state_member <$> sorted_entries m)).

Definition assign_states (ms : list (bytes * json)) : option (gmap string ServiceState.t) :=
  foldl (λ acc '(k, v), m ← acc; s ← unmarshal_object assign_state v; Some (<[of_bytes k := s]> m))
    (Some ∅) ms.

Definition unmarshal_states (l : bytes) : option (gmap string ServiceState.t) :=
  parse_json l ≫= unmarshal_object assign_states.

Definition json_states (m : gmap string ServiceState.t) : Prop :=
  ∀ k s, m !! k = Some s → ascii_text k ∧ json_state s.

Lemma state_member_ok kv : ascii_text kv.1 → json_state kv.2 → member_ok 15 (state_member kv).
Proof.
  intros Hk Hs. split; [done|]. apply (encodes_object 1 (state_fields kv.2)). by apply state_fields_ok.
Qed.

Lemma assign_states_entries l : ∀ m : gmap string ServiceState.t,
  Forall (λ kv, json_state kv.2) l →
  foldl (λ acc '(k, v), m ← acc; s ← unmarshal_object assign_state v; Some (<[of_bytes k := s]> m))
    (Some m) (member_value <$> (state_member <$> l)) =
  Some (foldl (λ m kv, <[kv.1 := kv.2]> m) m l).
Proof.
  induction l as [|[k s] l IH]; intros m Hl; [done|]. apply Forall_cons in Hl as [Hs Hl].
  rewrite !fmap_cons. cbn [foldl]. cbn -[assign_state state_fields foldl].
  rewrite assign_state_fields by done. cbn -[assign_state state_fields foldl].
  rewrite of_to_bytes. by apply IH.
Qed.

Lemma foldl_insert_list_to_map (l : list (string * ServiceState.t)) : ∀ m : gmap string ServiceState.t,
  NoDup l.*1 → foldl (λ m kv, <[kv.1 := kv.2]> m) m l = list_to_map l ∪ m.
Proof.
  induction l as [|[k s] l IH]; intros m Hnd; [simpl; by rewrite (left_id_L ∅ (∪))|].
  apply NoDup_cons in Hnd as [Hk Hnd]. cbn [foldl fst snd]. rewrite IH by done. cbn [list_to_map foldr].
  rewrite <-insert_union_l. symmetry. apply insert_union_r. by apply not_elem_of_list_to_map.
Qed.

Lemma sorted_entries_map m : list_to_map (sorted_entries m) = m ∧ NoDup (sorted_entries m).*1.
Proof.
  assert (sorted_entries m ≡ₚ map_to_list m) as Hp by apply sort_stable_Permutation.
  assert (NoDup (sorted_entries m).*1) as Hnd by (rewrite Hp; apply NoDup_fst_map_to_list).
  split; [|done]. rewrite (list_to_map_proper _ _ Hnd Hp). apply list_to_map_to_list.
Qed.

Lemma unmarshal_marshal_states m :
  json_states m → unmarshal_states (marshal_states m ++ [newline]) = Some m.
Proof.
  intros Hm.
  assert (Forall (λ kv, ascii_text kv.1 ∧ json_state kv.2) (sorted_entries m)) as Hok.
  { apply Forall_forall. intros [k s] Hin. apply elem_of_sort_stable, elem_of_map_to_list in Hin.
    by apply Hm. }
  unfold unmarshal_states, marshal_states. destruct (sorted_entries_map m) as [Hmap Hnd].
  revert Hok Hnd Hmap. generalize (sorted_entries m). intros l Hok Hnd Hmap.
  rewrite (parse_json_object (if decide (l = []) then 0 else 15)).
  - cbn [mbind option_bind unmarshal_object]. unfold assign_states.
    rewrite assign_states_entries by (eapply Forall_impl; [exact Hok|]; by intros ? []).
    rewrite foldl_insert_list_to_map by done. by rewrite Hmap, (right_id_L ∅ (∪)).
  - case_decide; [by subst|]. apply Forall_fmap. eapply Forall_impl; [exact Hok|].
    intros kv []. by apply state_member_ok.
  - case_decide; [subst; simpl; lia|]. destruct l as [|[k s] l]; [done|].
    rewrite !fmap_cons. unfold encode_object. rewrite !length_app.
    pose proof (encode_object_length (fst <$> state_fields s)) as Hs. rewrite length_fmap in Hs.
    pose proof (encode_members_length (fst <$> (state_member <$> l))) as Hl.
    rewrite !length_fmap in Hl. cbn [length] in *. rewrite !length_fmap.
    change (length (state_fields s)) with 13%nat in Hs.
    change (fst (state_member (k, s))) with (k, encode_object (fst <$> state_fields s)).
    destruct (fst <$> (state_member <$> l)) as [|m' ms']; 
      [cbn [encode_members] in *|rewrite encode_members_cons]; rewrite !length_app; cbn [length] in *; lia.
  - ground_spaces.
Qed.

(** ** What the log needs of the encoder *)

Lemma FormatInt_no_newline n : newline ∉ FormatInt n.
Proof.
  assert (∀ fuel n, 0 <= n < 2 ^ Z.of_nat fuel → newline ∉ digits fuel n) as Hd.
  { intros fuel k Hk Hin. pose proof (digits_digits fuel k Hk) as Hd. rewrite Forall_forall in Hd.
    by destruct (Hd _ Hin). }
  unfold FormatInt. destruct (Z.ltb_spec n 0).
  - apply not_elem_of_cons. split; [done|]. apply Hd. split; [lia|apply digits_fuel; lia].
  - apply Hd. split; [lia|apply digits_fuel; lia].
Qed.

Lemma encode_members_no_newline ms :
  Forall (λ m, newline ∉ m.2) ms → newline ∉ encode_members ms.
Proof.
  induction 1 as [|[k v] ms Hv Hms IH]; [apply not_elem_of_nil|].
  destruct ms as [|m ms]; [cbn [encode_members]|rewrite encode_members_cons];
    rewrite !elem_of_app, !list_elem_of_singleton; pose proof (encode_string_no_newline k); naive_solver.
Qed.

Lemma marshal_event_no_newline e : newline ∉ marshal_event e.
Proof.
  unfold marshal_event, encode_object. rewrite !elem_of_app, !list_elem_of_singleton.
  intros [H|[H|H]]; [done| |done]. revert H. apply encode_members_no_newline.
  unfold event_fields. cbn [fmap list_fmap].
  repeat (apply Forall_cons; split); try done;
    (apply FormatInt_no_newline || apply encode_string_no_newline).
Qed.

Lemma marshal_event_trim e :
  marshal_event e ≠ [] ∧ bytes_TrimSpace (marshal_event e ++ [newline]) = marshal_event e.
Proof.
  split; [done|]. unfold bytes_TrimSpace, marshal_event, encode_object. cbn [app].
  rewrite trim_left_solid by done. rewrite <-app_assoc.
  apply (trim_right_newline ("{"%char :: encode_members (fst <$> event_fields e)) "}"%char). done.
Qed.

(** ** The delivery checkpoint *)

Definition marshal_checkpoint (seq : Z) : bytes := encode_object (fst <$> [int_field "last_sequence" seq]).
Definition unmarshal_checkpoint (l : bytes) : option Z :=
  parse_json l ≫= unmarshal_object (field "last_sequence" (as_uint 64) 0).

Lemma unmarshal_marshal_checkpoint seq trail :
  in_u64 seq → Forall (λ c, is_space c = true) trail →
  unmarshal_checkpoint (marshal_checkpoint seq ++ trail) = Some seq.
Proof.
  intros Hseq Htrail. unfold unmarshal_checkpoint, marshal_checkpoint. rewrite (parse_json_object 1).
  - cbn [mbind option_bind unmarshal_object]. by assign_fields.
  - apply Forall_cons. split; [apply member_int; ascii_names|done].
  - pose proof (encode_object_length (fst <$> [int_field "last_sequence" seq])). simpl in *. lia.
  - done.
Qed.

Module JsonTheorems.
(** C25: Decoding inverts encoding for the three records kept on disk: an
    event of the log, the map of service states and the delivery checkpoint,
    for numbers that fit their fields and ASCII text, control bytes and
    escapes included. *)
Theorem stored_records_round_trip (e : Event.t) (m : gmap string ServiceState.t) (seq : Z) :
  json_event e → json_states m → in_u64 seq →
  unmarshal_event (marshal_event e) = Some e ∧
  unmarshal_states (marshal_states m ++ [newline]) = Some m ∧
  unmarshal_checkpoint (marshal_checkpoint seq ++ [newline]) = Some seq.
Proof.
  intros He Hm Hseq. split_and!.
  - rewrite <-(app_nil_r (marshal_event e)). apply unmarshal_marshal_event; [done|constructor].
  - by apply unmarshal_marshal_states.
  - apply unmarshal_marshal_checkpoint; [done|ground_spaces].
Qed.

(** A service name with a quote, an angle bracket and a control byte. *)
Definition odd_event : Event.t :=
  Event.mk 7 (of_bytes [byte 34; "<"%char; byte 1; "a"%char]) StateUp (-5) 0 "b1" SourceDNS "active" "".

Lemma stored_records_round_trip_witness :
  unmarshal_event (marshal_event odd_event) = Some odd_event ∧
  unmarshal_states (marshal_states {["a" := ServiceState.zero]} ++ [newline]) = Some {["a" := ServiceState.zero]} ∧
  unmarshal_checkpoint (marshal_checkpoint 42 ++ [newline]) = Some 42.
Proof.
  apply (stored_records_round_trip odd_event {["a" := ServiceState.zero]} 42).
  - unfold json_event, ascii_text, in_u64, in_i64. cbn [odd_event Event.Sequence Event.EventTimeUnixMS
      Event.EventTimeMonotonicUS Event.Service Event.BootID Event.SystemdActiveState Event.SystemdSubState].
    split_and!; try lia; ascii_names.
  - intros k s [<- <-]%lookup_singleton_Some. split; [ascii_names|].
    unfold json_state, in_u64, in_i64. split_and!; try (simpl; lia); ascii_names.
  - unfold in_u64. lia.
Defined.
End JsonTheorems.
