(* ===== verification/Engine.v ===== *)
(** * Engine: internal/engine/engine.go

    The transition engine. Its mutex makes every method atomic, so a method is
    a function from the engine to the engine and the method's results. A
    [range] over the [states] map visits the keys in an order Go leaves open:
    the two methods that do so take the order as an argument. *)

From S2P Require Import Prelude GoTime GoStrings Model.

Module Engine.
Record t := mk {
  states : gmap string ServiceState.t;
  seq : Z;
  delayUp : gset string;
}.
End Engine.

Definition New : Engine.t := Engine.mk ∅ 0 ∅.

Definition DelayUpUntilReady (services : list string) (e : Engine.t) : Engine.t :=
  Engine.mk (Engine.states e) (Engine.seq e) (list_to_set services).

Definition State (service : string) (e : Engine.t) : option ServiceState.t :=
  Engine.states e !! service.

(** [e.states[service]] read as a value: the zero state when absent. *)
Definition state_or_zero (service : string) (e : Engine.t) : ServiceState.t :=
  default ServiceState.zero (Engine.states e !! service).

Definition set_state (service : string) (st : ServiceState.t) (seq : Z) (e : Engine.t) : Engine.t :=
  Engine.mk (<[service := st]> (Engine.states e)) seq (Engine.delayUp e).

Definition RestoreState (state : ServiceState.t) (e : Engine.t) : Engine.t :=
  if decide (ServiceState.Service state = "") then e
  else
    set_state (ServiceState.Service state) state
      (if Engine.seq e <? ServiceState.LastSequence state
       then ServiceState.LastSequence state else Engine.seq e) e.

(** [state.Service] is filled in when the map had no entry. *)
Definition named (service : string) (state : ServiceState.t) : string :=
  if decide (ServiceState.Service state = "") then service else ServiceState.Service state.

Definition Replay (event : Event.t) (e : Engine.t) : Engine.t :=
  let seq := if Engine.seq e <? Event.Sequence event then Event.Sequence event else Engine.seq e in
  let state := state_or_zero (Event.Service event) e in
  if Event.EventTimeUnixMS event <? ServiceState.LastEventTimeUnixMS state
  then Engine.mk (Engine.states e) seq (Engine.delayUp e)
  else
    set_state (Event.Service event)
      {| ServiceState.Service := named (Event.Service event) state;
         ServiceState.Availability := Event.State event;
         ServiceState.ActiveState := ServiceState.ActiveState state;
         ServiceState.SubState := ServiceState.SubState state;
         ServiceState.BootID := Event.BootID event;
         ServiceState.LastActiveEnterTimestampUS := ServiceState.LastActiveEnterTimestampUS state;
         ServiceState.LastActiveExitTimestampUS := ServiceState.LastActiveExitTimestampUS state;
         ServiceState.LastActiveEnterMonotonicUS := ServiceState.LastActiveEnterMonotonicUS state;
         ServiceState.LastActiveExitMonotonicUS := ServiceState.LastActiveExitMonotonicUS state;
         ServiceState.LastEventTimeUnixMS := Event.EventTimeUnixMS event;
         ServiceState.LastEventMonoUS := Event.EventTimeMonotonicUS event;
         ServiceState.LastSequence := Event.Sequence event;
         ServiceState.AwaitingSIP := false |} seq e.

Definition availability (activeState : string) : AvailabilityState :=
  if decide (activeState = "active") then StateUp else StateDown.

(** ** Apply *)

Record candidate := Candidate { c_state : AvailabilityState; c_unixUS : Z; c_monoUS : Z }.

(** [int64(us / 1000)]. *)
Definition us_to_ms (us : Z) : Z := i64 (us / 1000).

Definition exit_candidate (old : ServiceState.t) (s : UnitSnapshot.t) : list candidate :=
  if (ServiceState.LastActiveExitTimestampUS old <? UnitSnapshot.ActiveExitTimestampUS s) &&
     (ServiceState.LastEventTimeUnixMS old <? us_to_ms (UnitSnapshot.ActiveExitTimestampUS s))
  then [Candidate StateDown (UnitSnapshot.ActiveExitTimestampUS s)
          (UnitSnapshot.ActiveExitTimestampMonotonicUS s)]
  else [].

Definition enter_candidate (old : ServiceState.t) (s : UnitSnapshot.t) : list candidate :=
  if (ServiceState.LastActiveEnterTimestampUS old <? UnitSnapshot.ActiveEnterTimestampUS s) &&
     (ServiceState.LastEventTimeUnixMS old <? us_to_ms (UnitSnapshot.ActiveEnterTimestampUS s))
  then [Candidate StateUp (UnitSnapshot.ActiveEnterTimestampUS s)
          (UnitSnapshot.ActiveEnterTimestampMonotonicUS s)]
  else [].

Definition candidates (old : ServiceState.t) (s : UnitSnapshot.t) : list candidate :=
  sort_by_key c_unixUS (exit_candidate old s ++ enter_candidate old s).

Definition snapshot_event (s : UnitSnapshot.t) (seq : Z) (c : candidate) : Event.t :=
  {| Event.Sequence := seq;
     Event.Service := UnitSnapshot.Service s;
     Event.State := c_state c;
     Event.EventTimeUnixMS := us_to_ms (c_unixUS c);
     Event.EventTimeMonotonicUS := c_monoUS c;
     Event.BootID := UnitSnapshot.BootID s;
     Event.Source := SourceSystemd;
     Event.SystemdActiveState := UnitSnapshot.ActiveState s;
     Event.SystemdSubState := UnitSnapshot.SubState s |}.

(** The loop over the candidates: [seq] is [e.seq], the other three are the
    loop's locals. The result is the final [seq], [pending] and the events. *)
Fixpoint emit (s : UnitSnapshot.t) (delay : bool) (cs : list candidate)
    (seq : Z) (current : AvailabilityState) (pending : bool) : Z * bool * list Event.t :=
  match cs with
  | [] => (seq, pending, [])
  | c :: cs' =>
      if bool_decide (c_state c = StateUp) && delay then emit s delay cs' seq current true
      else if bool_decide (c_state c = StateDown) && (pending && bool_decide (current = StateDown))
      then emit s delay cs' seq current false
      else
        let pending' := if decide (c_state c = StateDown) then false else pending in
        let seq' := u64 (seq + 1) in
        let '(seq'', pending'', events) := emit s delay cs' seq' (c_state c) pending' in
        (seq'', pending'', snapshot_event s seq' c :: events)
  end.

(** The state recorded for a snapshot; [last] holds the fields an emitted event
    sets: its time, its monotonic time and its sequence number. *)
Definition observed_state (s : UnitSnapshot.t) (avail : AvailabilityState)
    (last : Z * Z * Z) (awaiting : bool) : ServiceState.t :=
  {| ServiceState.Service := UnitSnapshot.Service s;
     ServiceState.Availability := avail;
     ServiceState.ActiveState := UnitSnapshot.ActiveState s;
     ServiceState.SubState := UnitSnapshot.SubState s;
     ServiceState.BootID := UnitSnapshot.BootID s;
     ServiceState.LastActiveEnterTimestampUS := UnitSnapshot.ActiveEnterTimestampUS s;
     ServiceState.LastActiveExitTimestampUS := UnitSnapshot.ActiveExitTimestampUS s;
     ServiceState.LastActiveEnterMonotonicUS := UnitSnapshot.ActiveEnterTimestampMonotonicUS s;
     ServiceState.LastActiveExitMonotonicUS := UnitSnapshot.ActiveExitTimestampMonotonicUS s;
     ServiceState.LastEventTimeUnixMS := last.1.1;
     ServiceState.LastEventMonoUS := last.1.2;
     ServiceState.LastSequence := last.2;
     ServiceState.AwaitingSIP := awaiting |}.

Definition last_of_state (st : ServiceState.t) : Z * Z * Z :=
  (ServiceState.LastEventTimeUnixMS st, ServiceState.LastEventMonoUS st, ServiceState.LastSequence st).
Definition last_of_event (ev : Event.t) : Z * Z * Z :=
  (Event.EventTimeUnixMS ev, Event.EventTimeMonotonicUS ev, Event.Sequence ev).

Definition Apply (s : UnitSnapshot.t) (e : Engine.t) : Engine.t * list Event.t :=
  let observed := availability (UnitSnapshot.ActiveState s) in
  let svc := UnitSnapshot.Service s in
  let old := state_or_zero svc e in
  if bool_decide (Engine.states e !! svc = None) ||
     negb (bool_decide (ServiceState.BootID old = UnitSnapshot.BootID s))
  then (set_state svc (observed_state s observed (last_of_state old) false) (Engine.seq e) e, [])
  else
    let '(seq, pending, events) :=
      emit s (bool_decide (svc ∈ Engine.delayUp e)) (candidates old s) (Engine.seq e)
        (ServiceState.Availability old) (ServiceState.AwaitingSIP old) in
    let avail := if pending then StateDown else observed in
    let last_fields :=
      match last events with Some ev => last_of_event ev | None => last_of_state old end in
    (set_state svc (observed_state s avail last_fields pending) seq e, events).

(** ** The other event sources *)

Definition ConfirmReady (service : string) (at_ : time) (source : EventSource) (e : Engine.t)
    : Engine.t * option Event.t :=
  match Engine.states e !! service with
  | None => (e, None)
  | Some state =>
      if negb (ServiceState.AwaitingSIP state) then (e, None)
      else
        let ts :=
          if UnixMilli at_ <=? ServiceState.LastEventTimeUnixMS state
          then i64 (ServiceState.LastEventTimeUnixMS state + 1) else UnixMilli at_ in
        let seq := u64 (Engine.seq e + 1) in
        let event :=
          {| Event.Sequence := seq;
             Event.Service := service;
             Event.State := StateUp;
             Event.EventTimeUnixMS := ts;
             Event.EventTimeMonotonicUS := 0;
             Event.BootID := ServiceState.BootID state;
             Event.Source := source;
             Event.SystemdActiveState := ServiceState.ActiveState state;
             Event.SystemdSubState := ServiceState.SubState state |} in
        let state' :=
          {| ServiceState.Service := ServiceState.Service state;
             ServiceState.Availability := StateUp;
             ServiceState.ActiveState := ServiceState.ActiveState state;
             ServiceState.SubState := ServiceState.SubState state;
             ServiceState.BootID := ServiceState.BootID state;
             ServiceState.LastActiveEnterTimestampUS := ServiceState.LastActiveEnterTimestampUS state;
             ServiceState.LastActiveExitTimestampUS := ServiceState.LastActiveExitTimestampUS state;
             ServiceState.LastActiveEnterMonotonicUS := ServiceState.LastActiveEnterMonotonicUS state;
             ServiceState.LastActiveExitMonotonicUS := ServiceState.LastActiveExitMonotonicUS state;
             ServiceState.LastEventTimeUnixMS := ts;
             ServiceState.LastEventMonoUS := ServiceState.LastEventMonoUS state;
             ServiceState.LastSequence := seq;
             ServiceState.AwaitingSIP := false |} in
        (set_state service state' seq e, Some event)
  end.

Definition with_sequence (seq : Z) (ev : Event.t) : Event.t :=
  {| Event.Sequence := seq;
     Event.Service := Event.Service ev;
     Event.State := Event.State ev;
     Event.EventTimeUnixMS := Event.EventTimeUnixMS ev;
     Event.EventTimeMonotonicUS := Event.EventTimeMonotonicUS ev;
     Event.BootID := Event.BootID ev;
     Event.Source := Event.Source ev;
     Event.SystemdActiveState := Event.SystemdActiveState ev;
     Event.SystemdSubState := Event.SystemdSubState ev |}.

Definition ApplyRecovery (event : Event.t) (e : Engine.t) : Engine.t * list Event.t :=
  let svc := Event.Service event in
  let state := state_or_zero svc e in
  if negb (bool_decide (ServiceState.Service state = "")) &&
     (Event.EventTimeUnixMS event <=? ServiceState.LastEventTimeUnixMS state)
  then (e, [])
  else
    let seq := u64 (Engine.seq e + 1) in
    let state' :=
      {| ServiceState.Service := svc;
         ServiceState.Availability := Event.State event;
         ServiceState.ActiveState := ServiceState.ActiveState state;
         ServiceState.SubState := ServiceState.SubState state;
         ServiceState.BootID := Event.BootID event;
         ServiceState.LastActiveEnterTimestampUS := ServiceState.LastActiveEnterTimestampUS state;
         ServiceState.LastActiveExitTimestampUS := ServiceState.LastActiveExitTimestampUS state;
         ServiceState.LastActiveEnterMonotonicUS := ServiceState.LastActiveEnterMonotonicUS state;
         ServiceState.LastActiveExitMonotonicUS := ServiceState.LastActiveExitMonotonicUS state;
         ServiceState.LastEventTimeUnixMS := Event.EventTimeUnixMS event;
         ServiceState.LastEventMonoUS := ServiceState.LastEventMonoUS state;
         ServiceState.LastSequence := seq;
         ServiceState.AwaitingSIP := false |} in
    (set_state svc state' seq e, [with_sequence seq event]).

Definition with_boot_id (bootID : string) (st : ServiceState.t) : ServiceState.t :=
  {| ServiceState.Service := ServiceState.Service st;
     ServiceState.Availability := ServiceState.Availability st;
     ServiceState.ActiveState := ServiceState.ActiveState st;
     ServiceState.SubState := ServiceState.SubState st;
     ServiceState.BootID := bootID;
     ServiceState.LastActiveEnterTimestampUS := ServiceState.LastActiveEnterTimestampUS st;
     ServiceState.LastActiveExitTimestampUS := ServiceState.LastActiveExitTimestampUS st;
     ServiceState.LastActiveEnterMonotonicUS := ServiceState.LastActiveEnterMonotonicUS st;
     ServiceState.LastActiveExitMonotonicUS := ServiceState.LastActiveExitMonotonicUS st;
     ServiceState.LastEventTimeUnixMS := ServiceState.LastEventTimeUnixMS st;
     ServiceState.LastEventMonoUS := ServiceState.LastEventMonoUS st;
     ServiceState.LastSequence := ServiceState.LastSequence st;
     ServiceState.AwaitingSIP := ServiceState.AwaitingSIP st |}.

(** The loop sets the boot of each state and touches nothing else, so its
    result does not depend on the order. *)
Definition AdoptBootID (bootID : string) (e : Engine.t) : Engine.t :=
  Engine.mk (with_boot_id bootID <$> Engine.states e) (Engine.seq e) (Engine.delayUp e).

Definition reboot_event (seq : Z) (service bootID : string) (eventTime : time) : Event.t :=
  {| Event.Sequence := seq;
     Event.Service := service;
     Event.State := StateDown;
     Event.EventTimeUnixMS := UnixMilli eventTime;
     Event.EventTimeMonotonicUS := 0;
     Event.BootID := bootID;
     Event.Source := SourceHostReboot;
     Event.SystemdActiveState := "inactive";
     Event.SystemdSubState := "dead" |}.

Definition rebooted_state (bootID : string) (ev : Event.t) (st : ServiceState.t) : ServiceState.t :=
  {| ServiceState.Service := ServiceState.Service st;
     ServiceState.Availability := StateDown;
     ServiceState.ActiveState := ServiceState.ActiveState st;
     ServiceState.SubState := ServiceState.SubState st;
     ServiceState.BootID := bootID;
     ServiceState.LastActiveEnterTimestampUS := ServiceState.LastActiveEnterTimestampUS st;
     ServiceState.LastActiveExitTimestampUS := ServiceState.LastActiveExitTimestampUS st;
     ServiceState.LastActiveEnterMonotonicUS := ServiceState.LastActiveEnterMonotonicUS st;
     ServiceState.LastActiveExitMonotonicUS := ServiceState.LastActiveExitMonotonicUS st;
     ServiceState.LastEventTimeUnixMS := Event.EventTimeUnixMS ev;
     ServiceState.LastEventMonoUS := ServiceState.LastEventMonoUS st;
     ServiceState.LastSequence := Event.Sequence ev;
     ServiceState.AwaitingSIP := ServiceState.AwaitingSIP st |}.

(** One turn of the loop of [ApplyReboot]. *)
Definition reboot_turn (service bootID : string) (eventTime : time) (e : Engine.t)
    : Engine.t * list Event.t :=
  match Engine.states e !! service with
  | None => (e, [])
  | Some state =>
      if bool_decide (ServiceState.Availability state ≠ StateUp)
      then (set_state service (with_boot_id bootID state) (Engine.seq e) e, [])
      else
        let seq := u64 (Engine.seq e + 1) in
        let event := reboot_event seq service bootID eventTime in
        (set_state service (rebooted_state bootID event state) seq e, [event])
  end.

Fixpoint ApplyReboot (order : list string) (bootID : string) (eventTime : time) (e : Engine.t)
    : Engine.t * list Event.t :=
  match order with
  | [] => (e, [])
  | service :: order' =>
      let '(e1, events1) := reboot_turn service bootID eventTime e in
      let '(e2, events2) := ApplyReboot order' bootID eventTime e1 in
      (e2, events1 ++ events2)
  end.

Definition Sequence (e : Engine.t) : Z := Engine.seq e.

(** The orders in which Go may visit the keys of [e.states]. *)
Definition range_order (e : Engine.t) (order : list string) : Prop :=
  NoDup order ∧ ∀ k, k ∈ order ↔ is_Some (Engine.states e !! k).
