(* ===== verification/EngineFacts.v ===== *)
(** * EngineFacts: the engine's invariant, its event stream and restarts

    The methods that run while the monitor is live are the operations of
    [op]; a history is a sequence of them, in the order the engine's mutex
    admits them. *)

From S2P Require Import Prelude GoTime GoStrings Model Engine.

(** ** Well-formed engines *)

Record wf_state (k : string) (seq : Z) (st : ServiceState.t) : Prop := {
  wf_service : ServiceState.Service st = k;
  wf_sequence : 0 <= ServiceState.LastSequence st <= seq;
  wf_time : in_i64 (ServiceState.LastEventTimeUnixMS st);
  wf_awaiting : ServiceState.AwaitingSIP st = true → ServiceState.Availability st = StateDown;
}.

Record wf (e : Engine.t) : Prop := {
  wf_seq : in_u64 (Engine.seq e);
  wf_states : map_Forall (λ k, wf_state k (Engine.seq e)) (Engine.states e);
}.

Lemma wf_New : wf New.
Proof. split; [done|]. apply map_Forall_empty. Qed.

Lemma wf_state_mono k seq seq' st : seq <= seq' → wf_state k seq st → wf_state k seq' st.
Proof. intros ? []. split; try done. lia. Qed.

Lemma wf_set_state k st seq e :
  wf e → Engine.seq e <= seq → in_u64 seq → wf_state k seq st → wf (set_state k st seq e).
Proof.
  intros [_ Hst] Hle Hseq Hk. split; [done|].
  apply map_Forall_insert_2; [done|].
  eapply map_Forall_impl; [exact Hst|]. intros i x. by apply wf_state_mono.
Qed.

Lemma wf_lookup e k st : wf e → Engine.states e !! k = Some st → wf_state k (Engine.seq e) st.
Proof. intros [_ Hst]. apply Hst. Qed.

(** The fields of the state a method reads before it writes; the zero value of
    an absent key is well formed but for its name. *)
Lemma wf_old e k :
  wf e → 0 <= ServiceState.LastSequence (state_or_zero k e) <= Engine.seq e ∧
         in_i64 (ServiceState.LastEventTimeUnixMS (state_or_zero k e)).
Proof.
  intros Hwf. pose proof (wf_seq _ Hwf) as [? _]. unfold state_or_zero.
  destruct (Engine.states e !! k) as [st|] eqn:Hk; [|done].
  by destruct (wf_lookup _ _ _ Hwf Hk).
Qed.

(** ** Histories *)

Inductive op :=
  | OpApply (s : UnitSnapshot.t)
  | OpConfirmReady (service : string) (at_ : time) (source : EventSource)
  | OpApplyRecovery (ev : Event.t)
  | OpAdoptBootID (bootID : string)
  | OpApplyReboot (order : list string) (bootID : string) (eventTime : time).

Definition exec (o : op) (e : Engine.t) : Engine.t * list Event.t :=
  match o with
  | OpApply s => Apply s e
  | OpConfirmReady service at_ source =>
      let '(e', ev) := ConfirmReady service at_ source e in (e', option_list ev)
  | OpApplyRecovery ev => ApplyRecovery ev e
  | OpAdoptBootID bootID => (AdoptBootID bootID e, [])
  | OpApplyReboot order bootID eventTime => ApplyReboot order bootID eventTime e
  end.

Fixpoint run (ops : list op) (e : Engine.t) : Engine.t * list Event.t :=
  match ops with
  | [] => (e, [])
  | o :: ops' =>
      let '(e1, evs1) := exec o e in
      let '(e2, evs2) := run ops' e1 in
      (e2, evs1 ++ evs2)
  end.

(** The arguments have the ranges of their Go types. *)
Definition op_typed (o : op) : Prop :=
  match o with
  | OpApply s => in_u64 (UnitSnapshot.ActiveEnterTimestampUS s) ∧
                 in_u64 (UnitSnapshot.ActiveExitTimestampUS s)
  | OpApplyRecovery ev => in_i64 (Event.EventTimeUnixMS ev)
  | _ => True
  end.

(** ** The emission loop *)

Lemma u64_succ seq : 0 <= seq → seq + 1 < 2 ^ 64 → u64 (seq + 1) = seq + 1.
Proof. intros. apply u64_small. unfold in_u64. lia. Qed.

Lemma emit_sequences s d cs : ∀ seq cur pend seq' pend' evs,
  emit s d cs seq cur pend = (seq', pend', evs) →
  0 <= seq → seq + #evs < 2 ^ 64 →
  seq' = seq + #evs ∧ Event.Sequence <$> evs = seqZ (seq + 1) #evs.
Proof.
  induction cs as [|c cs IH]; intros seq cur pend seq' pend' evs Hemit Hseq Hlt;
    simpl in Hemit; [simplify_eq/=; split; [lia|done]|].
  repeat case_match; simplify_eq/=; try (by eapply IH).
  all: match goal with H : emit _ _ _ _ _ _ = _ |- _ => apply IH in H as [-> Hs] end.
  all: rewrite ?u64_succ in * by lia; try lia.
  all: split; [lia|]; rewrite Hs, (seqZ_cons (seq + 1)) by lia;
    f_equal; f_equal; lia.
Qed.

(** The events stand for candidates, in the order of the candidates. *)
Lemma emit_sublist s d cs : ∀ seq cur pend seq' pend' evs,
  emit s d cs seq cur pend = (seq', pend', evs) →
  sublist (Event.EventTimeUnixMS <$> evs) ((λ c, us_to_ms (c_unixUS c)) <$> cs) ∧
  Forall (λ ev, Event.Service ev = UnitSnapshot.Service s) evs.
Proof.
  induction cs as [|c cs IH]; intros seq cur pend seq' pend' evs Hemit; simpl in Hemit;
    [by simplify_eq/=|].
  repeat case_match; simplify_eq/=;
    match goal with H : emit _ _ _ _ _ _ = _ |- _ => apply IH in H as [??] end;
    (split; [by constructor|by try constructor]).
Qed.

(** ** One operation *)

(** What every live operation guarantees when the counter does not overflow. *)
Definition numbered (e e' : Engine.t) (evs : list Event.t) : Prop :=
  wf e' ∧ Engine.seq e' = Engine.seq e + #evs ∧
  Event.Sequence <$> evs = seqZ (Engine.seq e + 1) #evs.

Lemma numbered_nil e : wf e → numbered e e [].
Proof. intros. split_and!; [done| |done]. simpl. lia. Qed.

Lemma numbered_trans e e1 e2 evs1 evs2 :
  numbered e e1 evs1 → numbered e1 e2 evs2 → numbered e e2 (evs1 ++ evs2).
Proof.
  intros (_ & Hs1 & Hq1) (Hw & Hs2 & Hq2). split_and!; [done| |].
  - rewrite length_app. lia.
  - rewrite fmap_app, Hq1, Hq2, length_app, Nat2Z.inj_add, seqZ_app by lia.
    do 2 f_equal; lia.
Qed.

Lemma us_to_ms_range us : in_i64 (us_to_ms us).
Proof. apply i64_range. Qed.
#[export] Hint Resolve us_to_ms_range : exporter.

Lemma emit_times_range s d cs : ∀ seq cur pend seq' pend' evs,
  emit s d cs seq cur pend = (seq', pend', evs) → Forall (λ ev, in_i64 (Event.EventTimeUnixMS ev)) evs.
Proof.
  induction cs as [|c cs IH]; intros seq cur pend seq' pend' evs Hemit; simpl in Hemit;
    [by simplify_eq/=|].
  repeat case_match; simplify_eq/=; try (by eapply IH);
    (constructor; [simpl; auto with exporter|by eapply IH]).
Qed.

Lemma Apply_numbered s e e' evs :
  wf e → Apply s e = (e', evs) → Engine.seq e + #evs < 2 ^ 64 → numbered e e' evs.
Proof.
  intros Hwf Happ Hlt. pose proof (wf_seq _ Hwf) as Hseq.
  destruct (wf_old e (UnitSnapshot.Service s) Hwf) as [Hold Htime].
  unfold Apply in Happ. case_match; simplify_eq/=.
  { split_and!; [|simpl; lia|done]. apply wf_set_state; [done|lia|done|by split]. }
  destruct (emit _ _ _ _ _ _) as [[seq pend] evs0] eqn:Hemit. simplify_eq/=.
  pose proof (emit_times_range _ _ _ _ _ _ _ _ _ Hemit) as Hin.
  apply emit_sequences in Hemit as [-> Hs]; [|unfold in_u64 in *; lia|done].
  split_and!; [|done|done].
  apply wf_set_state; [done|lia|unfold in_u64 in *; lia|].
  assert (∀ ev, last evs = Some ev → ev ∈ evs) as Hlast.
  { intros ev Hev. apply last_Some in Hev as [l ->]. set_solver. }
  destruct (last evs) as [ev|] eqn:Hev; (split; simpl; [done| | |by destruct pend]).
  - specialize (Hlast _ eq_refl) as Hel.
    assert (Event.Sequence ev ∈ Event.Sequence <$> evs) as Hx by (by apply list_elem_of_fmap_2).
    rewrite Hs, elem_of_seqZ in Hx. unfold in_u64 in *. lia.
  - specialize (Hlast _ eq_refl) as Hel. rewrite Forall_forall in Hin. by apply Hin.
  - lia.
  - done.
Qed.

(** The common shape: one state written, one event with the next number. *)
Lemma numbered_one k st ev e :
  wf e → Engine.seq e + 1 < 2 ^ 64 → Event.Sequence ev = u64 (Engine.seq e + 1) →
  wf_state k (Engine.seq e + 1) st →
  numbered e (set_state k st (u64 (Engine.seq e + 1)) e) [ev].
Proof.
  intros Hwf Hlt Hev Hst. pose proof (wf_seq _ Hwf) as Hseq. unfold in_u64 in Hseq.
  simpl. rewrite u64_succ in * by lia. split_and!; [|simpl; lia|].
  - apply wf_set_state; [done|lia|unfold in_u64; lia|done].
  - simpl. by rewrite Hev.
Qed.

Lemma ConfirmReady_numbered service at_ source e e' ev :
  wf e → ConfirmReady service at_ source e = (e', ev) →
  Engine.seq e + #(option_list ev) < 2 ^ 64 → numbered e e' (option_list ev).
Proof.
  intros Hwf Hc Hlt. pose proof (wf_seq _ Hwf) as Hseq. unfold in_u64 in Hseq.
  unfold ConfirmReady in Hc.
  destruct (Engine.states e !! service) as [st|] eqn:Hk; [|simplify_eq/=; by apply numbered_nil].
  destruct (wf_lookup _ _ _ Hwf Hk). case_match; simplify_eq/=; [by apply numbered_nil|].
  apply numbered_one; [done|lia|done|]. rewrite u64_succ by lia.
  split; simpl; [done|lia|case_match; apply i64_range|done].
Qed.

Lemma ApplyRecovery_numbered ev e e' evs :
  wf e → in_i64 (Event.EventTimeUnixMS ev) → ApplyRecovery ev e = (e', evs) →
  Engine.seq e + #evs < 2 ^ 64 → numbered e e' evs.
Proof.
  intros Hwf Hev Ha Hlt. pose proof (wf_seq _ Hwf) as Hseq. unfold in_u64 in Hseq.
  unfold ApplyRecovery in Ha. case_match; simplify_eq/=; [by apply numbered_nil|].
  apply numbered_one; [done|lia|done|]. rewrite u64_succ by lia.
  split; simpl; [done|lia|done|done].
Qed.

Lemma AdoptBootID_numbered bootID e : wf e → numbered e (AdoptBootID bootID e) [].
Proof.
  intros [Hseq Hst]. split_and!; [|simpl; lia|done]. split; [done|]. simpl.
  intros k st. rewrite lookup_fmap, fmap_Some. intros (st0 & Hk & ->).
  destruct (Hst _ _ Hk). by split.
Qed.

Lemma reboot_turn_numbered svc bootID eventTime e e' evs :
  wf e → reboot_turn svc bootID eventTime e = (e', evs) →
  Engine.seq e + #evs < 2 ^ 64 → numbered e e' evs.
Proof.
  intros Hwf Hr Hlt. pose proof (wf_seq _ Hwf) as Hseq. unfold in_u64 in Hseq.
  unfold reboot_turn in Hr.
  destruct (Engine.states e !! svc) as [st|] eqn:Hk; [|simplify_eq; by apply numbered_nil].
  pose proof (wf_lookup _ _ _ Hwf Hk) as Hst. case_bool_decide; simplify_eq/=.
  - split_and!; [|simpl; lia|done].
    apply wf_set_state; [done|lia|done|]. by destruct Hst; split.
  - apply numbered_one; [done|lia|done|]. rewrite u64_succ by lia.
    destruct Hst. split; simpl; [done|lia|apply i64_range|done].
Qed.

Lemma ApplyReboot_numbered order bootID eventTime : ∀ e e' evs,
  wf e → ApplyReboot order bootID eventTime e = (e', evs) →
  Engine.seq e + #evs < 2 ^ 64 → numbered e e' evs.
Proof.
  induction order as [|svc order IH]; intros e e' evs Hwf Hr Hlt; simpl in Hr;
    [simplify_eq; by apply numbered_nil|].
  destruct (reboot_turn _ _ _ _) as [e1 evs1] eqn:Ht, (ApplyReboot order _ _ _) as [e2 evs2] eqn:Hr1.
  simplify_eq. rewrite length_app in Hlt.
  assert (numbered e e1 evs1) as Hn by (eapply reboot_turn_numbered; try done; lia).
  eapply numbered_trans; [exact Hn|]. destruct Hn as (? & Hs & _). eapply IH; try done. lia.
Qed.

Lemma exec_numbered o e e' evs :
  wf e → op_typed o → exec o e = (e', evs) → Engine.seq e + #evs < 2 ^ 64 → numbered e e' evs.
Proof.
  intros Hwf Ht He Hlt. destruct o; simpl in He, Ht.
  - by eapply Apply_numbered.
  - destruct (ConfirmReady _ _ _ _) eqn:Hc. simplify_eq. by eapply ConfirmReady_numbered.
  - by eapply ApplyRecovery_numbered.
  - simplify_eq. by apply AdoptBootID_numbered.
  - by eapply ApplyReboot_numbered.
Qed.

Lemma run_numbered ops : ∀ e e' evs,
  wf e → Forall op_typed ops → run ops e = (e', evs) →
  Engine.seq e + #evs < 2 ^ 64 → numbered e e' evs.
Proof.
  induction ops as [|o ops IH]; intros e e' evs Hwf Ht Hr Hlt; simpl in Hr;
    [simplify_eq; by apply numbered_nil|].
  destruct (exec o e) as [e1 evs1] eqn:He, (run ops e1) as [e2 evs2] eqn:Hrun.
  simplify_eq. inv Ht. rewrite length_app in Hlt.
  assert (numbered e e1 evs1) as Hn by (eapply exec_numbered; try done; lia).
  eapply numbered_trans; [exact Hn|]. destruct Hn as (? & Hs & _).
  eapply IH; try done. lia.
Qed.

(** ** The timeline of one service *)

Definition own (svc : string) (evs : list Event.t) : list Event.t :=
  filter (λ ev, Event.Service ev = svc) evs.

(** The time of the last event the engine remembers for a service. *)
Definition last_time (svc : string) (e : Engine.t) : option Z :=
  ServiceState.LastEventTimeUnixMS <$> Engine.states e !! svc.

Definition time_le (a b : Event.t) : Prop := Event.EventTimeUnixMS a <= Event.EventTimeUnixMS b.

(** [evs] continues the timeline of [svc] from [e] to [e']. *)
Record continues (svc : string) (e e' : Engine.t) (evs : list Event.t) : Prop := {
  cont_after : ∀ t0, last_time svc e = Some t0 →
    Forall (λ ev, t0 < Event.EventTimeUnixMS ev) (own svc evs);
  cont_sorted : StronglySorted time_le (own svc evs);
  cont_keep : last_time svc e' = None → last_time svc e = None ∧ own svc evs = [];
  cont_upto : ∀ t1, last_time svc e' = Some t1 →
    Forall (λ ev, Event.EventTimeUnixMS ev <= t1) (own svc evs) ∧
    (∀ t0, last_time svc e = Some t0 → t0 <= t1);
}.

Lemma own_app svc evs1 evs2 : own svc (evs1 ++ evs2) = own svc evs1 ++ own svc evs2.
Proof. apply filter_app. Qed.

Lemma continues_nil svc e e' : last_time svc e' = last_time svc e → continues svc e e' [].
Proof.
  intros Heq. split; [by constructor..| |]; rewrite Heq; [done|].
  intros t1 Ht1. split; [constructor|]. intros t0. rewrite Ht1. intros [= ->]. lia.
Qed.

Lemma continues_trans svc e e1 e2 evs1 evs2 :
  continues svc e e1 evs1 → continues svc e1 e2 evs2 → continues svc e e2 (evs1 ++ evs2).
Proof.
  intros [A1 S1 K1 U1] [A2 S2 K2 U2]. split; rewrite own_app.
  - intros t0 Ht0. apply Forall_app. split; [by apply A1|].
    destruct (last_time svc e1) as [t1|] eqn:H1; [|by destruct (K1 eq_refl); simplify_eq].
    destruct (U1 _ eq_refl) as [_ Hle]. specialize (Hle _ Ht0).
    eapply Forall_impl; [by apply A2|]. simpl. lia.
  - apply StronglySorted_app_2; [|done|done]. intros x y Hx Hy.
    destruct (last_time svc e1) as [t1|] eqn:H1.
    + destruct (U1 _ eq_refl) as [Hx1 _]. specialize (A2 _ eq_refl).
      rewrite Forall_forall in Hx1, A2. specialize (Hx1 _ Hx). specialize (A2 _ Hy).
      unfold time_le. lia.
    + destruct (K1 eq_refl) as [_ Hnil]. rewrite Hnil in Hx. by apply elem_of_nil in Hx.
  - intros Hn. destruct (K2 Hn) as [Hn1 ->]. destruct (K1 Hn1) as [? ->]. done.
  - intros t2 Ht2. destruct (U2 _ Ht2) as [Hf Hle]. split.
    + apply Forall_app. split; [|done].
      destruct (last_time svc e1) as [t1|] eqn:H1; [|by destruct (K1 eq_refl) as [_ ->]].
      destruct (U1 _ eq_refl) as [Hf1 _]. specialize (Hle _ eq_refl).
      eapply Forall_impl; [exact Hf1|]. simpl. lia.
    + intros t0 Ht0.
      destruct (last_time svc e1) as [t1|] eqn:H1; [|by destruct (K1 eq_refl); simplify_eq].
      destruct (U1 _ eq_refl) as [_ Hle1]. specialize (Hle _ eq_refl).
      specialize (Hle1 _ Ht0). lia.
Qed.

Lemma last_time_set_state svc k st q e :
  last_time svc (set_state k st q e) =
  if decide (k = svc) then Some (ServiceState.LastEventTimeUnixMS st) else last_time svc e.
Proof. unfold last_time. simpl. rewrite lookup_insert. by case_decide. Qed.

Lemma own_all svc evs : Forall (λ ev, Event.Service ev = svc) evs → own svc evs = evs.
Proof. intros H. by apply filter_all. Qed.

Lemma own_none svc k evs : k ≠ svc → Forall (λ ev, Event.Service ev = k) evs → own svc evs = [].
Proof.
  intros Hne Hk. apply filter_none. eapply Forall_impl; [exact Hk|]. by intros ? <-.
Qed.

(** A method that writes the state of [k] and emits events of [k]. *)
Lemma continues_write svc k st q e evs :
  Forall (λ ev, Event.Service ev = k) evs → StronglySorted time_le evs →
  (∀ t0, last_time k e = Some t0 →
     Forall (λ ev, t0 < Event.EventTimeUnixMS ev) evs ∧ t0 <= ServiceState.LastEventTimeUnixMS st) →
  Forall (λ ev, Event.EventTimeUnixMS ev <= ServiceState.LastEventTimeUnixMS st) evs →
  continues svc e (set_state k st q e) evs.
Proof.
  intros Hk Hs Hafter Hupto. destruct (decide (k = svc)) as [->|Hne].
  - split; rewrite ?last_time_set_state, ?decide_True, ?own_all by done; try done.
    + intros t0 Ht0. by apply Hafter.
    + intros t1 [= <-]. split; [done|]. intros t0 Ht0. by apply Hafter.
  - split; rewrite ?last_time_set_state, ?decide_False, ?(own_none svc k) by done; try done.
    + constructor.
    + intros t1 Ht1. split; [constructor|]. intros t0 Ht0. simplify_eq. lia.
Qed.

Lemma candidates_sorted old s :
  in_u64 (UnitSnapshot.ActiveEnterTimestampUS s) → in_u64 (UnitSnapshot.ActiveExitTimestampUS s) →
  StronglySorted Z.le ((λ c, us_to_ms (c_unixUS c)) <$> candidates old s) ∧
  Forall (λ ms, ServiceState.LastEventTimeUnixMS old < ms)
    ((λ c, us_to_ms (c_unixUS c)) <$> candidates old s).
Proof.
  intros Hen Hex.
  assert (∀ c, c ∈ candidates old s → in_u64 (c_unixUS c) ∧
    ServiceState.LastEventTimeUnixMS old < us_to_ms (c_unixUS c)) as Hc.
  { intros c Hc. unfold candidates in Hc. rewrite elem_of_sort_by_key in Hc.
    unfold exit_candidate, enter_candidate in Hc.
    repeat case_match; destruct_bools; set_solver. }
  split.
  - pose proof (sort_by_key_sorted c_unixUS (exit_candidate old s ++ enter_candidate old s)) as Hs.
    fold (candidates old s) in Hs. revert Hs Hc. generalize (candidates old s). intros l Hs Hc.
    induction Hs as [|c l _ IH Hl]; simpl; constructor.
    + apply IH. intros c' Hc'. apply Hc. by right.
    + apply Forall_fmap, Forall_forall. intros c' Hc'. rewrite Forall_forall in Hl.
      specialize (Hl _ Hc'). unfold key_le in Hl. simpl. unfold us_to_ms.
      rewrite !i64_us_to_ms by (apply Hc; (by left) || (by right)). by apply Z.div_le_mono.
  - apply Forall_fmap, Forall_forall. intros c Hin. by apply Hc.
Qed.

Lemma time_sorted_fmap evs :
  StronglySorted Z.le (Event.EventTimeUnixMS <$> evs) → StronglySorted time_le evs.
Proof.
  induction evs as [|ev evs IH]; intros Hs; [constructor|]. rewrite fmap_cons in Hs. apply StronglySorted_cons in Hs as [Hf Hs].
  constructor; [by apply IH|]. rewrite Forall_fmap in Hf. exact Hf.
Qed.

Lemma last_upto evs ev :
  StronglySorted time_le evs → last evs = Some ev →
  Forall (λ ev', Event.EventTimeUnixMS ev' <= Event.EventTimeUnixMS ev) evs.
Proof.
  intros Hs [l ->]%last_Some. apply Forall_app. split; [|constructor; [lia|constructor]].
  apply Forall_forall. intros x Hx.
  eapply (StronglySorted_app_1_elem_of time_le); [done|done|set_solver].
Qed.

Lemma last_time_old k e t0 :
  last_time k e = Some t0 → ServiceState.LastEventTimeUnixMS (state_or_zero k e) = t0.
Proof.
  unfold last_time, state_or_zero. by destruct (_ !! _); intros [= <-].
Qed.

Lemma Apply_continues svc s e e' evs :
  in_u64 (UnitSnapshot.ActiveEnterTimestampUS s) → in_u64 (UnitSnapshot.ActiveExitTimestampUS s) →
  Apply s e = (e', evs) → continues svc e e' evs.
Proof.
  intros Hen Hex Happ. unfold Apply in Happ. case_match; simplify_eq/=.
  { apply continues_write; try by constructor. intros t0 Ht0.
    split; [constructor|]. simpl. by rewrite (last_time_old _ _ _ Ht0). }
  destruct (emit _ _ _ _ _ _) as [[q pend] evs0] eqn:Hemit. simplify_eq/=.
  apply emit_sublist in Hemit as [Hsub Hsvc].
  destruct (candidates_sorted (state_or_zero (UnitSnapshot.Service s) e) s Hen Hex) as [Hs Ha].
  assert (StronglySorted time_le evs) as Hsort.
  { apply time_sorted_fmap. by eapply StronglySorted_sublist. }
  assert (Forall (λ ev, ServiceState.LastEventTimeUnixMS (state_or_zero (UnitSnapshot.Service s) e)
            < Event.EventTimeUnixMS ev) evs) as Hafter.
  { pose proof (Forall_sublist _ _ _ Hsub Ha) as Hf. rewrite Forall_fmap in Hf. exact Hf. }
  destruct (last evs) as [ev|] eqn:Hlast.
  - pose proof (last_upto _ _ Hsort Hlast) as Hup. apply continues_write; try done.
    intros t0 Ht0. rewrite (last_time_old _ _ _ Ht0) in Hafter. split; [done|].
    rewrite Forall_forall in Hafter. apply last_Some in Hlast as [l ->].
    specialize (Hafter ev ltac:(set_solver)). simpl. lia.
  - apply last_None in Hlast as ->. apply continues_write; try by constructor.
    intros t0 Ht0. split; [constructor|]. simpl. by rewrite (last_time_old _ _ _ Ht0).
Qed.

(** The largest event time that leaves room for the increment of [ConfirmReady]. *)
Definition max_ms : Z := 2 ^ 63 - 1.

Definition times_below (e : Engine.t) : Prop :=
  map_Forall (λ _ st, ServiceState.LastEventTimeUnixMS st < max_ms) (Engine.states e).

Lemma ConfirmReady_continues svc service at_ source e e' ev :
  wf e → times_below e → ConfirmReady service at_ source e = (e', ev) →
  continues svc e e' (option_list ev).
Proof.
  intros Hwf Hb Hc. unfold ConfirmReady in Hc.
  destruct (Engine.states e !! service) as [st|] eqn:Hk; [|simplify_eq/=; by apply continues_nil].
  pose proof (wf_time _ _ _ (wf_lookup _ _ _ Hwf Hk)) as Hin. pose proof (Hb _ _ Hk) as Hlt.
  simpl in Hlt.
  case_match; simplify_eq/=; [by apply continues_nil|].
  apply continues_write; [by repeat constructor..| |by repeat constructor].
  intros t0 Ht0. unfold last_time in Ht0. rewrite Hk in Ht0. simplify_eq/=.
  unfold in_i64, max_ms in *.
  case_match; destruct_bools; rewrite ?i64_small by (unfold in_i64; lia);
    (split; [repeat constructor; simpl; lia|lia]).
Qed.

Lemma wf_name_nonempty k e st :
  wf e → k ≠ "" → Engine.states e !! k = Some st → ServiceState.Service st ≠ "".
Proof. intros Hwf Hne Hk. by rewrite (wf_service _ _ _ (wf_lookup _ _ _ Hwf Hk)). Qed.

Lemma ApplyRecovery_continues svc ev e e' evs :
  wf e → svc ≠ "" → ApplyRecovery ev e = (e', evs) → continues svc e e' evs.
Proof.
  intros Hwf Hne Ha. unfold ApplyRecovery in Ha.
  case_match eqn:Hguard; simplify_eq/=; [by apply continues_nil|].
  destruct (decide (Event.Service ev = svc)) as [<-|Hother].
  - apply continues_write; [by repeat constructor..| |by repeat constructor].
    intros t0 Ht0. apply andb_false_iff in Hguard as [Hg|Hg].
    + exfalso. apply negb_false_iff, bool_decide_eq_true in Hg. unfold last_time, state_or_zero in *.
      destruct (Engine.states e !! Event.Service ev) as [st|] eqn:Hk; [|done].
      by apply (wf_name_nonempty _ _ _ Hwf Hne Hk).
    + destruct_bools. rewrite (last_time_old _ _ _ Ht0) in Hg. simpl.
      split; [by repeat constructor|lia].
  - split; rewrite ?(own_none svc (Event.Service ev)) by (try done; by repeat constructor);
      rewrite ?last_time_set_state, ?decide_False by done; try done.
    + constructor.
    + intros t1 Ht1. split; [constructor|]. intros t0 Ht0. simplify_eq. lia.
Qed.

Lemma AdoptBootID_continues svc bootID e : continues svc e (AdoptBootID bootID e) [].
Proof.
  apply continues_nil. unfold last_time. simpl. rewrite lookup_fmap.
  by destruct (_ !! _).
Qed.

Lemma times_below_write k st q e :
  times_below e → ServiceState.LastEventTimeUnixMS st < max_ms → times_below (set_state k st q e).
Proof. intros He Hst. by apply map_Forall_insert_2. Qed.

Lemma times_below_old k e : times_below e → ServiceState.LastEventTimeUnixMS (state_or_zero k e) < max_ms.
Proof.
  intros He. unfold state_or_zero. destruct (_ !! _) as [st|] eqn:Hk; [|done]. by apply (He k st).
Qed.

(** The operations of a running monitor: all but the reboot handling, which
    happens once, before the monitor starts. *)
Definition monitored (o : op) : Prop := match o with OpApplyReboot _ _ _ => False | _ => True end.

Lemma exec_times_below o e e' evs :
  monitored o → times_below e → exec o e = (e', evs) →
  Forall (λ ev, Event.EventTimeUnixMS ev < max_ms) evs → times_below e'.
Proof.
  intros Hm Hb He Hevs. destruct o; simpl in He; [| | | |done].
  - pose proof (times_below_old (UnitSnapshot.Service s) _ Hb) as Hold.
    unfold Apply in He. case_match; simplify_eq/=; [by apply times_below_write|].
    destruct (emit _ _ _ _ _ _) as [[q pend] evs0]. simplify_eq/=.
    apply times_below_write; [done|]. destruct (last evs) as [ev|] eqn:Hlast; [|done].
    rewrite Forall_forall in Hevs. apply Hevs. apply last_Some in Hlast as [l ->]. set_solver.
  - unfold ConfirmReady in He. repeat case_match; simplify_eq/=; try done;
      (apply times_below_write; [done|]; by inv Hevs).
  - unfold ApplyRecovery in He. case_match; simplify_eq/=; [done|].
    apply times_below_write; [done|]. by inv Hevs.
  - simplify_eq. intros k st. simpl. rewrite lookup_fmap, fmap_Some. intros (st0 & Hk & ->).
    by apply (Hb k st0).
Qed.

Lemma exec_continues svc o e e' evs :
  wf e → times_below e → svc ≠ "" → op_typed o → monitored o → exec o e = (e', evs) →
  continues svc e e' evs.
Proof.
  intros Hwf Hb Hne Ht Hm He. destruct o; simpl in He, Ht; [| | | |done].
  - destruct Ht. by eapply Apply_continues.
  - destruct (ConfirmReady _ _ _ _) eqn:Hc. simplify_eq. by eapply ConfirmReady_continues.
  - by eapply ApplyRecovery_continues.
  - simplify_eq. apply AdoptBootID_continues.
Qed.

Lemma run_continues svc ops : ∀ e e' evs,
  wf e → times_below e → svc ≠ "" → Forall op_typed ops → Forall monitored ops →
  run ops e = (e', evs) → Engine.seq e + #evs < 2 ^ 64 →
  Forall (λ ev, Event.EventTimeUnixMS ev < max_ms) evs →
  continues svc e e' evs.
Proof.
  induction ops as [|o ops IH]; intros e e' evs Hwf Hb Hne Ht Hm Hr Hlt Hmax; simpl in Hr;
    [simplify_eq; by apply continues_nil|].
  destruct (exec o e) as [e1 evs1] eqn:He, (run ops e1) as [e2 evs2] eqn:Hrun.
  simplify_eq. inv Ht. inv Hm. rewrite length_app in Hlt. apply Forall_app in Hmax as [Hm1 Hm2].
  assert (numbered e e1 evs1) as (Hw1 & Hs1 & _) by (eapply exec_numbered; try done; lia).
  eapply continues_trans; [by eapply exec_continues|].
  eapply IH; try done; [by eapply exec_times_below|lia].
Qed.
