(* ===== verification/EngineTheorems.v ===== *)
(** * EngineTheorems: what the engine promises its clients *)

From S2P Require Import Prelude GoTime GoStrings Model Samples Engine EngineFacts.

(** ** Lemmas on single snapshots *)

Lemma Apply_known s e old :
  Engine.states e !! UnitSnapshot.Service s = Some old →
  ServiceState.BootID old = UnitSnapshot.BootID s →
  Apply s e =
    let '(seq, pending, events) :=
      emit s (bool_decide (UnitSnapshot.Service s ∈ Engine.delayUp e)) (candidates old s)
        (Engine.seq e) (ServiceState.Availability old) (ServiceState.AwaitingSIP old) in
    (set_state (UnitSnapshot.Service s)
       (observed_state s
          (if pending then StateDown else availability (UnitSnapshot.ActiveState s))
          (match last events with Some ev => last_of_event ev | None => last_of_state old end)
          pending) seq e, events).
Proof.
  intros Hk Hb. unfold Apply, state_or_zero. rewrite Hk. simpl.
  by rewrite (bool_decide_eq_true_2 _ Hb).
Qed.

Lemma Apply_first_look s e :
  (∀ old, Engine.states e !! UnitSnapshot.Service s = Some old →
     ServiceState.BootID old ≠ UnitSnapshot.BootID s) →
  (Apply s e).2 = [].
Proof.
  intros Hne. unfold Apply, state_or_zero.
  destruct (Engine.states e !! UnitSnapshot.Service s) as [old|] eqn:Hk; [|done].
  simpl. by rewrite (bool_decide_eq_false_2 _ (Hne _ eq_refl)).
Qed.

Lemma candidates_stale old s :
  (UnitSnapshot.ActiveExitTimestampUS s <= ServiceState.LastActiveExitTimestampUS old ∨
   us_to_ms (UnitSnapshot.ActiveExitTimestampUS s) <= ServiceState.LastEventTimeUnixMS old) →
  (UnitSnapshot.ActiveEnterTimestampUS s <= ServiceState.LastActiveEnterTimestampUS old ∨
   us_to_ms (UnitSnapshot.ActiveEnterTimestampUS s) <= ServiceState.LastEventTimeUnixMS old) →
  candidates old s = [].
Proof.
  intros Hx Hn. unfold candidates, exit_candidate, enter_candidate.
  repeat case_match; destruct_bools; (lia || done).
Qed.

(** A snapshot that brings no new timestamp keeps the pending flag. *)
Lemma Apply_no_candidates s e old :
  Engine.states e !! UnitSnapshot.Service s = Some old →
  ServiceState.BootID old = UnitSnapshot.BootID s → candidates old s = [] →
  Apply s e =
    (set_state (UnitSnapshot.Service s)
       (observed_state s
          (if ServiceState.AwaitingSIP old then StateDown else availability (UnitSnapshot.ActiveState s))
          (last_of_state old) (ServiceState.AwaitingSIP old)) (Engine.seq e) e, []).
Proof. intros Hk Hb Hc. by rewrite (Apply_known _ _ _ Hk Hb), Hc. Qed.

(** The state any snapshot leaves behind. *)
Lemma Apply_state s e :
  ∃ avail fields pending,
    Engine.states (Apply s e).1 !! UnitSnapshot.Service s =
      Some (observed_state s avail fields pending) ∧
    avail = (if pending then StateDown else availability (UnitSnapshot.ActiveState s)) ∧
    Engine.delayUp (Apply s e).1 = Engine.delayUp e.
Proof.
  unfold Apply. case_match; simpl.
  - eexists _, _, false. rewrite lookup_insert_eq. done.
  - destruct (emit _ _ _ _ _ _) as [[q pend] evs]. simpl.
    eexists _, _, pend. rewrite lookup_insert_eq. done.
Qed.

Lemma emit_delayed s cs : ∀ seq cur pend seq' pend' evs,
  Forall (λ c, c_state c = StateUp ∨ c_state c = StateDown) cs →
  emit s true cs seq cur pend = (seq', pend', evs) →
  Forall (λ ev, Event.State ev = StateDown) evs ∧
  (∀ c, last cs = Some c → pend' = bool_decide (c_state c = StateUp)).
Proof.
  induction cs as [|c cs IH]; intros seq cur pend seq' pend' evs Hcs Hemit; [by simplify_eq/=|].
  inv Hcs as [|? ? Hc Hcs']. cbn in Hemit.
  assert (∃ seq0 cur0 pend0 evs0, emit s true cs seq0 cur0 pend0 = (seq', pend', evs0) ∧
    pend0 = bool_decide (c_state c = StateUp) ∧
    (evs = evs0 ∨ ∃ ev, evs = ev :: evs0 ∧ Event.State ev = StateDown))
    as (seq0 & cur0 & pend0 & evs0 & He & Hp & Hevs).
  { destruct c as [st us mono]; simpl in Hc, Hemit |- *.
    destruct Hc as [->| ->]; simpl in Hemit.
    { eexists _, _, _, _. split; [exact Hemit|]. split; [done|by left]. }
    destruct (pend && bool_decide (cur = StateDown)).
    { eexists _, _, _, _. split; [exact Hemit|]. split; [done|by left]. }
    destruct (emit s true cs (u64 (seq + 1)) StateDown false) as [[??]?] eqn:He; simplify_eq/=.
    eexists _, _, _, _. split; [exact He|]. split; [done|]. right. eauto. }
  destruct (IH _ _ _ _ _ _ Hcs' He) as [Hdown Hlast]. split.
  - destruct Hevs as [->|(ev & -> & Hev)]; [done|by constructor].
  - intros c' Hc'. destruct cs as [|c2 cs]; [|by apply Hlast]. cbn in He, Hc'. by simplify_eq.
Qed.

Lemma candidates_states old s :
  Forall (λ c, c_state c = StateUp ∨ c_state c = StateDown) (candidates old s).
Proof.
  apply Forall_forall. intros c. unfold candidates. rewrite elem_of_sort_by_key.
  unfold exit_candidate, enter_candidate. repeat case_match; set_solver.
Qed.

Module EngineTheorems.

(** C1: Starting from a well-formed engine, any sequence of the operations
    that emit events (snapshots, probe answers, recovered records, reboots and
    adopted boot identifiers) numbers the events consecutively: the sequence
    numbers are exactly those after the engine's counter, none skipped and
    none used twice, the counter ends at the last of them, and the engine
    stays well-formed. The only assumption is that the 64-bit counter does not
    wrap. *)
Theorem events_numbered ops e e' evs :
  wf e → Forall op_typed ops → run ops e = (e', evs) → Engine.seq e + #evs < 2 ^ 64 →
  wf e' ∧ Engine.seq e' = Engine.seq e + #evs ∧
  Event.Sequence <$> evs = seqZ (Engine.seq e + 1) #evs.
Proof. apply run_numbered. Qed.

(** C2: The events one service receives from any sequence of the operations of
    a running monitor (all but the reboot handling, which precedes them) never
    go back in time, and all of them are later than the last event the engine
    had recorded for the service when the sequence began. Times are assumed to
    leave room for the increment by which a probe answer is moved behind the
    previous event. *)
Theorem service_timeline_ordered ops e e' evs svc :
  wf e → times_below e → svc ≠ "" → Forall op_typed ops → Forall monitored ops →
  run ops e = (e', evs) → Engine.seq e + #evs < 2 ^ 64 →
  Forall (λ ev, Event.EventTimeUnixMS ev < max_ms) evs →
  StronglySorted time_le (own svc evs) ∧
  (∀ t0, last_time svc e = Some t0 → Forall (λ ev, t0 < Event.EventTimeUnixMS ev) (own svc evs)).
Proof.
  intros Hwf Hb Hne Ht Hm Hr Hlt Hmax.
  destruct (run_continues svc ops _ _ _ Hwf Hb Hne Ht Hm Hr Hlt Hmax). done.
Qed.

(** C10: Applying the same snapshot a second time emits nothing and changes
    nothing. *)
Theorem snapshot_applied_once s e :
  Apply s (Apply s e).1 = ((Apply s e).1, []).
Proof.
  destruct (Apply_state s e) as (avail & fields & pend & Hk & Hav & Hd).
  rewrite (Apply_no_candidates _ _ _ Hk eq_refl); [|apply candidates_stale; left; simpl; lia].
  f_equal. simpl. rewrite <-Hav. unfold set_state.
  rewrite insert_id; [by destruct (Apply s e).1|]. rewrite Hk. by destruct fields as [[]].
Qed.

(** C19: After a transition was recovered from the journal, a snapshot whose
    enter and exit times are not later than it emits no event: the live path
    does not publish the recovered transition again. *)
Theorem recovered_transition_not_repeated ev s e :
  wf e → Event.Service ev ≠ "" → UnitSnapshot.Service s = Event.Service ev →
  us_to_ms (UnitSnapshot.ActiveExitTimestampUS s) <= Event.EventTimeUnixMS ev →
  us_to_ms (UnitSnapshot.ActiveEnterTimestampUS s) <= Event.EventTimeUnixMS ev →
  (Apply s (ApplyRecovery ev e).1).2 = [].
Proof.
  intros Hwf Hne Hsvc Hx Hn.
  assert (∃ old, Engine.states (ApplyRecovery ev e).1 !! UnitSnapshot.Service s = Some old ∧
    Event.EventTimeUnixMS ev <= ServiceState.LastEventTimeUnixMS old) as (old & Hk & Hle).
  { rewrite Hsvc. unfold ApplyRecovery, state_or_zero. case_match eqn:Hg; simpl.
    - destruct_bools. destruct (Engine.states e !! Event.Service ev) as [st|]; [eauto|done].
    - eexists. rewrite lookup_insert_eq. split; [done|]. simpl. lia. }
  destruct (decide (ServiceState.BootID old = UnitSnapshot.BootID s)) as [Hb|Hb].
  - rewrite (Apply_no_candidates _ _ _ Hk Hb); [done|]. apply candidates_stale; lia.
  - apply Apply_first_look. intros old' Hk'. by simplify_eq.
Qed.

(** C20: When a service with a readiness probe becomes active, the snapshot
    emits at most DOWN events and the service is held DOWN and waiting; the
    first probe answer emits exactly one UP event and every later answer emits
    nothing and changes nothing. *)
Theorem delayed_service_waits_for_probe s e old c :
  Engine.states e !! UnitSnapshot.Service s = Some old →
  ServiceState.BootID old = UnitSnapshot.BootID s →
  UnitSnapshot.Service s ∈ Engine.delayUp e →
  last (candidates old s) = Some c → c_state c = StateUp →
  let e' := (Apply s e).1 in
  Forall (λ ev, Event.State ev = StateDown) (Apply s e).2 ∧
  (∃ st, Engine.states e' !! UnitSnapshot.Service s = Some st ∧
     ServiceState.Availability st = StateDown ∧ ServiceState.AwaitingSIP st = true) ∧
  (∀ at_ source, ∃ ev e'', ConfirmReady (UnitSnapshot.Service s) at_ source e' = (e'', Some ev) ∧
     Event.State ev = StateUp ∧
     ∀ at2 source2, ConfirmReady (UnitSnapshot.Service s) at2 source2 e'' = (e'', None)).
Proof.
  intros Hk Hb Hd Hlast Hup e'.
  assert (Forall (λ ev, Event.State ev = StateDown) (Apply s e).2 ∧
    ∃ st, Engine.states e' !! UnitSnapshot.Service s = Some st ∧
      ServiceState.Availability st = StateDown ∧ ServiceState.AwaitingSIP st = true)
    as [Hdown (st & Hk' & Hav & Haw)].
  { unfold e'. rewrite (Apply_known _ _ _ Hk Hb), (bool_decide_eq_true_2 _ Hd).
    destruct (emit _ _ _ _ _ _) as [[q pend] evs] eqn:Hemit.
    apply emit_delayed in Hemit as [Hdown Hp]; [|apply candidates_states].
    rewrite (Hp _ Hlast), (bool_decide_eq_true_2 _ Hup). split; [done|].
    eexists. simpl. rewrite lookup_insert_eq. done. }
  split_and!; [done|by eauto|]. intros at_ source. unfold ConfirmReady at 1.
  rewrite Hk', Haw. simpl. eexists _, _. split_and!; [done|done|].
  intros at2 source2. unfold ConfirmReady. simpl. by rewrite lookup_insert_eq.
Qed.

(** A service that stops while its UP is still withheld emits no event and
    uses no sequence number, and a probe answer that arrives afterwards is
    ignored. *)
Theorem stop_before_answer_is_silent s e old c :
  Engine.states e !! UnitSnapshot.Service s = Some old →
  ServiceState.BootID old = UnitSnapshot.BootID s →
  ServiceState.AwaitingSIP old = true → ServiceState.Availability old = StateDown →
  candidates old s = [c] → c_state c = StateDown →
  let e' := (Apply s e).1 in
  (Apply s e).2 = [] ∧ Engine.seq e' = Engine.seq e ∧
  (∀ at_ source, ConfirmReady (UnitSnapshot.Service s) at_ source e' = (e', None)).
Proof.
  intros Hk Hb Haw Hav Hc Hdown e'. unfold e'. rewrite (Apply_known _ _ _ Hk Hb), Hc, Haw, Hav.
  simpl. rewrite Hdown. simpl. split_and!; [done|done|]. intros at_ source.
  unfold ConfirmReady. simpl. by rewrite lookup_insert_eq.
Qed.

(** A waiting state restored from disk keeps an active unit DOWN and waiting
    on every snapshot without a new transition, whether or not the service is
    configured with a probe. *)
Theorem restored_wait_outlives_probe s e old :
  Engine.states e !! UnitSnapshot.Service s = Some old →
  ServiceState.BootID old = UnitSnapshot.BootID s → ServiceState.AwaitingSIP old = true →
  UnitSnapshot.ActiveState s = "active" → candidates old s = [] →
  ∃ st, Engine.states (Apply s e).1 !! UnitSnapshot.Service s = Some st ∧
    ServiceState.Availability st = StateDown ∧ ServiceState.AwaitingSIP st = true ∧
    ServiceState.ActiveState st = "active".
Proof.
  intros Hk Hb Haw Hact Hc. rewrite (Apply_no_candidates _ _ _ Hk Hb Hc), Haw.
  eexists. simpl. rewrite lookup_insert_eq. done.
Qed.

(** ** Witnesses *)

(** A unit that runs, restarts between two snapshots, and recovers from the
    journal: four events in two snapshots and a recovery. *)
Definition sample_ops : list op :=
  [OpApply (sample_snapshot "active" 1000000 500000);
   OpApply (sample_snapshot "active" 3000000 2000000);
   OpApplyRecovery (sample_event 0 "pcscf.service" StateDown 4000);
   OpApply (sample_snapshot "active" 5000000 2000000)].

Lemma events_numbered_witness :
  Event.Sequence <$> (run sample_ops New).2 = seqZ (0 + 1) #((run sample_ops New).2) ∧
  length (run sample_ops New).2 = 4%nat.
Proof.
  split; [|by vm_compute].
  apply (events_numbered sample_ops New (run sample_ops New).1 (run sample_ops New).2 wf_New).
  - ground_forall.
  - by vm_compute.
  - by vm_compute.
Defined.

Lemma service_timeline_ordered_witness :
  StronglySorted time_le (own "pcscf.service" (run sample_ops New).2).
Proof.
  apply (service_timeline_ordered sample_ops New (run sample_ops New).1 (run sample_ops New).2
           "pcscf.service" wf_New).
  - apply map_Forall_empty.
  - done.
  - ground_forall.
  - ground_forall.
  - by vm_compute.
  - by vm_compute.
  - by apply (bool_decide_eq_true_1 _); vm_compute.
Defined.

(** An engine that knows one unit, in the given state and with the given
    services delayed. *)
Definition sample_engine (st : ServiceState.t) (delayed : list string) : Engine.t :=
  DelayUpUntilReady delayed (RestoreState st New).

Lemma wf_sample_engine avail :
  wf (sample_engine (sample_state "pcscf.service" avail false) []).
Proof.
  split; [by vm_compute|]. apply map_Forall_singleton. by split.
Qed.

Lemma recovered_transition_not_repeated_witness :
  (Apply (sample_snapshot "inactive" 1000000 2000000)
     (ApplyRecovery (sample_event 0 "pcscf.service" StateDown 2000)
        (sample_engine (sample_state "pcscf.service" StateUp false) [])).1).2 = [].
Proof.
  apply (recovered_transition_not_repeated (sample_event 0 "pcscf.service" StateDown 2000)
    (sample_snapshot "inactive" 1000000 2000000)); [apply wf_sample_engine|done|done| |];
    by vm_compute.
Defined.

Lemma delayed_service_waits_for_probe_witness :
  Forall (λ ev, Event.State ev = StateDown)
    (Apply (sample_snapshot "active" 3000000 2000000)
      (sample_engine (sample_state "pcscf.service" StateUp false) ["pcscf.service"])).2.
Proof.
  apply (delayed_service_waits_for_probe (sample_snapshot "active" 3000000 2000000)
    (sample_engine (sample_state "pcscf.service" StateUp false) ["pcscf.service"])
    (sample_state "pcscf.service" StateUp false) (Candidate StateUp 3000000 7)).
  - by vm_compute.
  - done.
  - simpl. set_solver.
  - by vm_compute.
  - done.
Defined.

Lemma stop_before_answer_is_silent_witness :
  (Apply (sample_snapshot "inactive" 1000000 2000000)
      (sample_engine (sample_state "pcscf.service" StateDown true) ["pcscf.service"])).2 = [].
Proof.
  apply (stop_before_answer_is_silent (sample_snapshot "inactive" 1000000 2000000)
    (sample_engine (sample_state "pcscf.service" StateDown true) ["pcscf.service"])
    (sample_state "pcscf.service" StateDown true) (Candidate StateDown 2000000 5));
    by vm_compute.
Defined.

Lemma restored_wait_outlives_probe_witness :
  ∃ st, Engine.states (Apply (sample_snapshot "active" 1000000 500000)
      (sample_engine (sample_state "pcscf.service" StateDown true) [])).1 !! "pcscf.service" = Some st ∧
    ServiceState.Availability st = StateDown ∧ ServiceState.AwaitingSIP st = true ∧
    ServiceState.ActiveState st = "active".
Proof.
  apply (restored_wait_outlives_probe (sample_snapshot "active" 1000000 500000)
    (sample_engine (sample_state "pcscf.service" StateDown true) [])
    (sample_state "pcscf.service" StateDown true)); by vm_compute.
Defined.

End EngineTheorems.
