(* ===== verification/EngineRestart.v ===== *)
(** * EngineRestart: host reboots and process restarts

    [ApplyReboot] and [AdoptBootID] as the start of the process uses them, and
    the replay of the durable events that rebuilds the engine. *)

From S2P Require Import Prelude GoTime GoStrings Model Samples Engine EngineFacts.

(** ** Reboot *)

Definition is_up (e : Engine.t) (k : string) : Prop :=
  ServiceState.Availability <$> Engine.states e !! k = Some StateUp.

#[export] Instance is_up_dec e k : Decision (is_up e k).
Proof. unfold is_up. apply _. Defined.

Definition is_reboot_event (bootID : string) (t : time) (ev : Event.t) : Prop :=
  Event.State ev = StateDown ∧ Event.EventTimeUnixMS ev = UnixMilli t ∧
  Event.BootID ev = bootID ∧ Event.Source ev = SourceHostReboot.

(** What the loop leaves of the state of one service. *)
Definition after_reboot (bootID : string) (st : ServiceState.t) : Prop :=
  ServiceState.BootID st = bootID ∧ ServiceState.Availability st ≠ StateUp.

Lemma reboot_turn_spec svc bootID t e e' evs :
  reboot_turn svc bootID t e = (e', evs) →
  (∀ k, k ≠ svc → Engine.states e' !! k = Engine.states e !! k) ∧
  (is_Some (Engine.states e !! svc) →
     ∃ st', Engine.states e' !! svc = Some st' ∧ after_reboot bootID st') ∧
  Event.Service <$> evs = filter (is_up e) [svc] ∧
  Forall (is_reboot_event bootID t) evs.
Proof.
  intros Hr. unfold reboot_turn in Hr. rewrite filter_cons, filter_nil.
  assert (is_up e svc ↔ ServiceState.Availability <$> Engine.states e !! svc = Some StateUp)
    as Hiff by done.
  destruct (Engine.states e !! svc) as [st|] eqn:Hk; simpl in Hiff.
  2: { simplify_eq. rewrite decide_False by naive_solver. split_and!; done || by intros []. }
  case_bool_decide as Hup; simplify_eq/=;
    (split_and!; [intros k Hne; by apply lookup_insert_ne| | |]);
    try (intros _; eexists; by rewrite lookup_insert_eq).
  - rewrite decide_False by naive_solver. done.
  - constructor.
  - rewrite decide_True by (apply Hiff; congruence). done.
  - repeat constructor.
Qed.

Lemma ApplyReboot_spec order bootID t : ∀ e e' evs,
  NoDup order → (∀ k, k ∈ order → is_Some (Engine.states e !! k)) →
  ApplyReboot order bootID t e = (e', evs) →
  (∀ k, k ∉ order → Engine.states e' !! k = Engine.states e !! k) ∧
  (∀ k, k ∈ order → ∃ st', Engine.states e' !! k = Some st' ∧ after_reboot bootID st') ∧
  Event.Service <$> evs = filter (is_up e) order ∧
  Forall (is_reboot_event bootID t) evs.
Proof.
  induction order as [|svc order IH]; intros e e' evs Hnd Hdom Hr; simpl in Hr.
  { simplify_eq. split_and!; try done. by intros k ?%elem_of_nil. }
  apply NoDup_cons in Hnd as [Hnin Hnd].
  destruct (reboot_turn _ _ _ _) as [e1 evs1] eqn:Ht, (ApplyReboot order _ _ _) as [e2 evs2] eqn:Hr1.
  simplify_eq. apply reboot_turn_spec in Ht as (Hsame & Hsvc & Hs1 & Hf1).
  assert (∀ k, k ∈ order → Engine.states e1 !! k = Engine.states e !! k) as Hin
    by (intros k Hk; apply Hsame; by intros ->).
  destruct (IH e1 e' evs2 Hnd) as (Hout & Hord & Hs2 & Hf2); [|done|].
  { intros k Hk. rewrite Hin by done. apply Hdom. by right. }
  split_and!.
  - intros k [??]%not_elem_of_cons. by rewrite Hout, Hsame.
  - intros k [->|Hk]%elem_of_cons; [|by apply Hord].
    rewrite Hout by done. apply Hsvc, Hdom. by left.
  - rewrite fmap_app, Hs1, Hs2, (filter_ext_in (is_up e1) (is_up e)).
    + by rewrite <-filter_app.
    + intros k Hk. unfold is_up. by rewrite Hin.
  - by apply Forall_app.
Qed.

(** ** Adopting a boot identifier first changes nothing for the loop *)

Definition same_availability (e1 e2 : Engine.t) : Prop :=
  Engine.seq e1 = Engine.seq e2 ∧
  ∀ k, ServiceState.Availability <$> Engine.states e1 !! k =
       ServiceState.Availability <$> Engine.states e2 !! k.

Lemma same_availability_write k st1 st2 q e1 e2 :
  same_availability e1 e2 → ServiceState.Availability st1 = ServiceState.Availability st2 →
  same_availability (set_state k st1 q e1) (set_state k st2 q e2).
Proof.
  intros [_ Hk] Hst. split; [done|]. intros k'. simpl. rewrite !lookup_insert.
  case_decide; [by simpl; rewrite Hst|done].
Qed.

Lemma reboot_turn_same svc bootID t e1 e2 :
  same_availability e1 e2 →
  (reboot_turn svc bootID t e1).2 = (reboot_turn svc bootID t e2).2 ∧
  same_availability (reboot_turn svc bootID t e1).1 (reboot_turn svc bootID t e2).1.
Proof.
  intros Hs. pose proof Hs as [Hseq Hk]. unfold reboot_turn. specialize (Hk svc).
  destruct (Engine.states e1 !! svc) as [st1|], (Engine.states e2 !! svc) as [st2|]; simplify_eq/=;
    [|done]. rewrite Hk, Hseq.
  case_bool_decide; simpl; (split; [done|]; by apply same_availability_write).
Qed.

Lemma ApplyReboot_same order bootID t : ∀ e1 e2,
  same_availability e1 e2 →
  (ApplyReboot order bootID t e1).2 = (ApplyReboot order bootID t e2).2.
Proof.
  induction order as [|svc order IH]; intros e1 e2 Hs; [done|]. simpl.
  destruct (reboot_turn_same svc bootID t e1 e2 Hs) as [Hev Hs'].
  destruct (reboot_turn svc bootID t e1) as [e1' ev1], (reboot_turn svc bootID t e2) as [e2' ev2].
  specialize (IH _ _ Hs'). simpl in *.
  destruct (ApplyReboot order bootID t e1'), (ApplyReboot order bootID t e2'). simpl in *. congruence.
Qed.

Lemma AdoptBootID_same bootID e : same_availability (AdoptBootID bootID e) e.
Proof.
  split; [done|]. intros k. simpl. rewrite lookup_fmap. by destruct (_ !! _).
Qed.

(** ** Replay *)

(** The loop of main.go over the durable events. *)
Definition ReplayAll (events : list Event.t) (e : Engine.t) : Engine.t :=
  foldl (λ e ev, Replay ev e) e events.

Definition last_pair (st : ServiceState.t) : Z * Z :=
  (ServiceState.LastEventTimeUnixMS st, ServiceState.LastSequence st).
Definition event_pair (ev : Event.t) : Z * Z := (Event.EventTimeUnixMS ev, Event.Sequence ev).

#[global] Arguments last_pair : simpl never.
#[global] Arguments event_pair : simpl never.

(** The engine remembers the last event of [svc] among [evs]. *)
Definition tracks (svc : string) (evs : list Event.t) (e : Engine.t) : Prop :=
  match last (own svc evs) with
  | Some ev => last_pair <$> Engine.states e !! svc = Some (event_pair ev)
  | None => last_pair (state_or_zero svc e) = (0, 0)
  end.

Lemma tracks_New svc : tracks svc [] New.
Proof. done. Qed.

Lemma last_app_or {A} (l k : list A) :
  last (l ++ k) = match last k with Some x => Some x | None => last l end.
Proof.
  destruct (last k) as [x|] eqn:Hk.
  - apply last_Some in Hk as [k' ->]. by rewrite app_assoc, last_snoc.
  - apply last_None in Hk as ->. by rewrite app_nil_r.
Qed.

(** A method that writes the state of [k] and emits events of [k]. *)
Lemma tracks_write svc k st q e evs evs1 :
  tracks svc evs e → Forall (λ ev, Event.Service ev = k) evs1 →
  last_pair st = match last evs1 with
                 | Some ev => event_pair ev | None => last_pair (state_or_zero k e) end →
  tracks svc (evs ++ evs1) (set_state k st q e).
Proof.
  intros Ht Hk Hst. unfold tracks, state_or_zero in *. rewrite own_app, last_app_or. simpl.
  rewrite lookup_insert. case_decide as Heq.
  - subst k. rewrite (own_all svc evs1) by done. destruct (last evs1); simpl; [by f_equal|].
    destruct (last (own svc evs)); simpl; [|congruence].
    destruct (Engine.states e !! svc); simpl in *; congruence.
  - by rewrite (own_none svc k).
Qed.

Lemma tracks_nil svc evs e : tracks svc evs e → tracks svc (evs ++ []) e.
Proof. by rewrite app_nil_r. Qed.

Lemma reboot_turn_tracks svc k bootID t e e' evs evs1 :
  tracks svc evs e → reboot_turn k bootID t e = (e', evs1) → tracks svc (evs ++ evs1) e'.
Proof.
  intros Ht Hr. unfold reboot_turn in Hr.
  destruct (Engine.states e !! k) as [st|] eqn:Hk; [|simplify_eq; by apply tracks_nil].
  case_match; simplify_eq; (apply tracks_write; [done|by repeat constructor|]); [|done].
  simpl. unfold state_or_zero. by rewrite Hk.
Qed.

Lemma ApplyReboot_tracks svc order bootID t : ∀ e e' evs evs1,
  tracks svc evs e → ApplyReboot order bootID t e = (e', evs1) → tracks svc (evs ++ evs1) e'.
Proof.
  induction order as [|k order IH]; intros e e' evs evs1 Ht Hr; simpl in Hr;
    [simplify_eq; by apply tracks_nil|].
  destruct (reboot_turn _ _ _ _) as [e1 evs2] eqn:Hturn, (ApplyReboot order _ _ _) as [e2 evs3] eqn:Hr1.
  simplify_eq. rewrite app_assoc. eapply IH; [|done]. by eapply reboot_turn_tracks.
Qed.

Lemma exec_tracks svc o e e' evs evs1 :
  tracks svc evs e → exec o e = (e', evs1) → tracks svc (evs ++ evs1) e'.
Proof.
  intros Ht He. destruct o; simpl in He.
  - unfold Apply in He. case_match; simplify_eq/=; [by apply tracks_write|].
    destruct (emit _ _ _ _ _ _) as [[q pend] evs0] eqn:Hemit. simplify_eq/=.
    apply emit_sublist in Hemit as [_ Hsvc]. apply tracks_write; [done|done|].
    by destruct (last evs1).
  - unfold ConfirmReady in He.
    repeat case_match; simplify_eq/=; try (by apply tracks_nil);
      (apply tracks_write; [done|by repeat constructor|done]).
  - unfold ApplyRecovery in He. case_match; simplify_eq/=; [by apply tracks_nil|].
    apply tracks_write; [done|by repeat constructor|done].
  - simplify_eq. apply tracks_nil. revert Ht. unfold tracks, state_or_zero. simpl.
    rewrite lookup_fmap. by destruct (Engine.states e !! svc).
  - by eapply ApplyReboot_tracks.
Qed.

Lemma run_tracks svc ops : ∀ e e' evs evs1,
  tracks svc evs e → run ops e = (e', evs1) → tracks svc (evs ++ evs1) e'.
Proof.
  induction ops as [|o ops IH]; intros e e' evs evs1 Ht Hr; simpl in Hr;
    [simplify_eq; by apply tracks_nil|].
  destruct (exec o e) as [e1 evs2] eqn:He, (run ops e1) as [e2 evs3] eqn:Hrun.
  simplify_eq. rewrite app_assoc. eapply IH; [|done]. by eapply exec_tracks.
Qed.

(** Replay keeps exactly the last event of a service whose times do not go
    backwards. *)
Definition replayed (svc : string) (evs : list Event.t) (e : Engine.t) : Prop :=
  match last (own svc evs) with
  | Some ev =>
      ∃ st, Engine.states e !! svc = Some st ∧ last_pair st = event_pair ev ∧
        ServiceState.Availability st = Event.State ev ∧ ServiceState.BootID st = Event.BootID ev ∧
        ServiceState.AwaitingSIP st = false
  | None => Engine.states e !! svc = None
  end.

Lemma Replay_replayed svc evs ev e :
  replayed svc evs e → 0 <= Event.EventTimeUnixMS ev →
  (Event.Service ev = svc → Forall (λ ev', time_le ev' ev) (own svc evs)) →
  replayed svc (evs ++ [ev]) (Replay ev e).
Proof.
  intros Hr Hpos Hle. unfold replayed in *. rewrite own_app.
  destruct (decide (Event.Service ev = svc)) as [<-|Hne].
  - rewrite (own_all _ [ev]) by (by repeat constructor). rewrite last_snoc.
    unfold Replay. destruct (Z.ltb_spec (Event.EventTimeUnixMS ev)
      (ServiceState.LastEventTimeUnixMS (state_or_zero (Event.Service ev) e))) as [Hlt|Hlt].
    + exfalso. unfold state_or_zero in Hlt. destruct (last (own _ evs)) as [ev'|] eqn:Hlast.
      * destruct Hr as (st & Hk & Hp & _). rewrite Hk in Hlt. simpl in Hlt.
        specialize (Hle eq_refl). rewrite Forall_forall in Hle. unfold last_pair, event_pair in Hp. simplify_eq.
        apply last_Some in Hlast as [l Hl]. specialize (Hle ev'). rewrite Hl in Hle.
        unfold time_le in Hle. specialize (Hle ltac:(set_solver)). lia.
      * rewrite Hr in Hlt. simpl in Hlt. lia.
    + eexists. simpl. rewrite lookup_insert_eq. by repeat split.
  - rewrite (own_none svc (Event.Service ev) [ev]), app_nil_r by (try done; by repeat constructor).
    assert (Engine.states (Replay ev e) !! svc = Engine.states e !! svc) as ->; [|done].
    unfold Replay. repeat case_match; simpl; try done; by rewrite lookup_insert_ne.
Qed.

Lemma ReplayAll_replayed svc evs2 : ∀ evs1 e,
  replayed svc evs1 e → Forall (λ ev, 0 <= Event.EventTimeUnixMS ev) evs2 →
  StronglySorted time_le (own svc (evs1 ++ evs2)) →
  replayed svc (evs1 ++ evs2) (ReplayAll evs2 e).
Proof.
  induction evs2 as [|ev evs2 IH]; intros evs1 e Hr Hpos Hs; simpl; [by rewrite app_nil_r|].
  inv Hpos. rewrite (cons_middle ev evs1 evs2), app_assoc in Hs |- *. apply IH; [|done|done].
  apply Replay_replayed; [done|done|]. intros Hsvc. rewrite !own_app in Hs.
  apply StronglySorted_app_1_l, StronglySorted_app in Hs as [Hs _].
  apply Forall_forall. intros x Hx. apply Hs; [done|].
  rewrite (own_all svc [ev]) by (by repeat constructor). set_solver.
Qed.

Lemma Replay_seq ev e : Engine.seq (Replay ev e) = Z.max (Engine.seq e) (Event.Sequence ev).
Proof. unfold Replay. repeat case_match; simpl; destruct_bools; lia. Qed.

Lemma ReplayAll_seq evs : ∀ e n,
  Event.Sequence <$> evs = seqZ (n + 1) #evs → Engine.seq e = n →
  Engine.seq (ReplayAll evs e) = n + #evs.
Proof.
  induction evs as [|ev evs IH]; intros e n Hq Hn; simpl; [lia|].
  rewrite fmap_cons, (seqZ_cons (n + 1)) in Hq by (simpl; lia).
  injection Hq as Hev Hq. rewrite (IH _ (n + 1)); [lia| |rewrite Replay_seq; lia].
  rewrite Hq. f_equal; simpl; lia.
Qed.

Module RestartTheorems.

(** C9: For every order in which Go may visit the state map, a reboot emits
    one DOWN event of source host_reboot at the boot time for each service
    that was up and for no other; afterwards every known service carries the
    new boot identifier and none is up. *)
Theorem reboot_takes_down_every_running_service order bootID t e e' evs :
  range_order e order → ApplyReboot order bootID t e = (e', evs) →
  Event.Service <$> evs = filter (is_up e) order ∧
  Forall (is_reboot_event bootID t) evs ∧
  dom (Engine.states e') = dom (Engine.states e) ∧
  map_Forall (λ _ st, ServiceState.BootID st = bootID ∧ ServiceState.Availability st ≠ StateUp)
    (Engine.states e').
Proof.
  intros [Hnd Hdom] Hr.
  destruct (ApplyReboot_spec _ _ _ _ _ _ Hnd (λ k, proj1 (Hdom k)) Hr) as (Hout & Hin & Hs & Hf).
  split_and!; [done|done| |].
  - apply set_eq. intros k. rewrite !elem_of_dom, <-Hdom. split.
    + intros [st Hk]. destruct (decide (k ∈ order)) as [|Hk']; [done|].
      rewrite (Hout k Hk') in Hk. apply Hdom. eauto.
    + intros Hk. destruct (Hin k Hk) as (st & -> & _). eauto.
  - intros k st Hk. destruct (decide (k ∈ order)) as [Hk'|Hk'].
    + destruct (Hin k Hk') as (st' & Hst' & Haft). simplify_eq. exact Haft.
    + rewrite (Hout k Hk') in Hk. destruct Hk'. apply Hdom. eauto.
Qed.

(** Adopting the boot identifier first does not change the events of a reboot:
    [ApplyReboot] publishes the same downtime as without it. *)
Theorem adopting_boot_id_does_not_suppress_downtime order bootID t e :
  (ApplyReboot order bootID t (AdoptBootID bootID e)).2 = (ApplyReboot order bootID t e).2.
Proof. apply ApplyReboot_same, AdoptBootID_same. Qed.

(** C8: Replaying the events that a running monitor emitted from an empty
    engine restores the sequence counter and, for every service with an event,
    the time and sequence number of its last event and the availability that
    event announced. *)
Theorem replay_rebuilds_engine ops e' evs svc :
  Forall op_typed ops → Forall monitored ops → run ops New = (e', evs) → #evs < 2 ^ 64 →
  Forall (λ ev, 0 <= Event.EventTimeUnixMS ev < max_ms) evs → svc ≠ "" → own svc evs ≠ [] →
  let r := ReplayAll evs New in
  Engine.seq r = Engine.seq e' ∧
  last_pair <$> Engine.states r !! svc = last_pair <$> Engine.states e' !! svc ∧
  ∃ ev, last (own svc evs) = Some ev ∧
    ServiceState.Availability <$> Engine.states r !! svc = Some (Event.State ev).
Proof.
  intros Ht Hm Hr Hlt Hrange Hne Hown r.
  assert (numbered New e' evs) as (_ & Hseq & Hq)
    by (apply (run_numbered ops New e' evs wf_New Ht Hr); simpl; lia).
  assert (continues svc New e' evs) as Hc.
  { apply (run_continues svc ops New e' evs wf_New); try done.
    eapply Forall_impl; [exact Hrange|]. simpl. lia. }
  pose proof (run_tracks svc ops New e' [] evs (tracks_New svc) Hr) as Htr.
  assert (replayed svc ([] ++ evs) r) as Hre.
  { apply ReplayAll_replayed; [done| |apply (cont_sorted _ _ _ _ Hc)].
    eapply Forall_impl; [exact Hrange|]. simpl. lia. }
  simpl in Htr, Hre. unfold tracks, replayed in *.
  split; [by rewrite Hseq; apply ReplayAll_seq|].
  destruct (last (own svc evs)) as [ev|] eqn:Hlast; [|by apply last_None in Hlast].
  destruct Hre as (st & Hk & Hp & Ha & _). rewrite Hk, Htr. simpl. rewrite Hp, Ha. eauto.
Qed.

(** ** Witnesses *)

Definition sample_pair : Engine.t :=
  RestoreState (sample_state "pcscf.service" StateUp false)
    (RestoreState (sample_state "named.service" StateDown true) New).

Lemma reboot_takes_down_every_running_service_witness :
  Event.Service <$> (ApplyReboot ["named.service"; "pcscf.service"] "b2" 0 sample_pair).2 =
    filter (is_up sample_pair) ["named.service"; "pcscf.service"].
Proof.
  apply (reboot_takes_down_every_running_service ["named.service"; "pcscf.service"] "b2" 0 sample_pair
    (ApplyReboot ["named.service"; "pcscf.service"] "b2" 0 sample_pair).1).
  - split; [by apply (bool_decide_eq_true_1 _); vm_compute|]. intros k. rewrite <-elem_of_dom.
    change (Engine.states sample_pair) with
      (<["pcscf.service" := sample_state "pcscf.service" StateUp false]>
        (<["named.service" := sample_state "named.service" StateDown true]>
          (∅ : gmap string ServiceState.t))).
    rewrite !dom_insert_L, dom_empty_L. set_solver.
  - by vm_compute.
Defined.

Lemma replay_rebuilds_engine_witness :
  Engine.seq (ReplayAll (run [OpApplyRecovery (sample_event 0 "pcscf.service" StateDown 4000)] New).2
    New) = 1.
Proof.
  apply (replay_rebuilds_engine [OpApplyRecovery (sample_event 0 "pcscf.service" StateDown 4000)]
    (run [OpApplyRecovery (sample_event 0 "pcscf.service" StateDown 4000)] New).1
    (run [OpApplyRecovery (sample_event 0 "pcscf.service" StateDown 4000)] New).2 "pcscf.service").
  - ground_forall.
  - ground_forall.
  - done.
  - by vm_compute.
  - by apply (bool_decide_eq_true_1 _); vm_compute.
  - done.
  - by vm_compute.
Defined.

End RestartTheorems.
