(* ===== verification/Slots.v ===== *)
(** * Slots: the local-time slot grid of internal/recovery/backfill.go

    The slot containing an instant, the two edge instants of a slot at which
    the live state is published, and the window a journal recovery may read.
    The process location ([t.Location()]) is a parameter of every operation. *)

From S2P Require Import Prelude GoTime.

Definition SlotEndFraction : Duration := 5 * Millisecond.
Definition SlotEndLead : Duration := Second - SlotEndFraction.

Section Slots.
Context (loc : Location).

(** Go evaluates [time.Duration(t.Minute()) * time.Minute / size * size] from
    left to right, with the division of machine integers. *)
Definition SlotStart (t : time) (size : Duration) : time :=
  date_hour loc t + Z.quot (t_Minute loc t * Minute) size * size.

Definition SlotOpeningTime (slotStart : time) : time := slotStart + SlotEndFraction.

Definition SlotClosingTime (slotStart : time) (size : Duration) : time :=
  slotStart + (size - SlotEndLead).

Definition DueSlotOpening (now : time) (size : Duration) : time :=
  if size <=? SlotEndLead then zero_time
  else
    let start := SlotStart now size in
    let opening := SlotOpeningTime start in
    if negb (Before now opening) && Before now (start + size) then opening
    else zero_time.

Definition NextSlotOpening (now : time) (size : Duration) : time :=
  if size <=? SlotEndLead then zero_time
  else
    let start := SlotStart now size in
    let opening := SlotOpeningTime start in
    if Before now opening then opening else SlotOpeningTime (start + size).

Definition DueSlotClosing (now : time) (size : Duration) : time :=
  if size <=? SlotEndLead then zero_time
  else
    let start := SlotStart now size in
    let closing := SlotClosingTime start size in
    if negb (Before now closing) && Before now (start + size) then closing
    else zero_time.

Definition NextSlotClosing (now : time) (size : Duration) : time :=
  if size <=? SlotEndLead then zero_time
  else
    let start := SlotStart now size in
    let closing := SlotClosingTime start size in
    if Before now closing then closing else SlotClosingTime (start + size) size.

(** The three results [(start, end, ok)]; [None] is [ok = false]. *)
Definition RecoveryWindow (ready : time) (size : Duration) : option (time * time) :=
  if size <=? 0 then None
  else
    let start := SlotStart ready size in
    if negb (After ready start) then None else Some (start, ready).
End Slots.

(** ** The slot sizes for which the grid is a partition of the hour

    [grid_size] is what the callers need: a positive whole number of minutes
    that divides the hour. *)

Definition grid_size (size : Duration) : bool :=
  (0 <? size) && (size mod Minute =? 0) && (Hour mod size =? 0).

Lemma grid_size_spec size :
  grid_size size = true →
  ∃ m k, 0 < m ∧ 0 < k ∧ size = m * Minute ∧ Hour = k * size ∧ SlotEndLead < size.
Proof.
  unfold grid_size. intros H. destruct_bools.
  apply Z.mod_divide in H1 as [m Hm]; [|done].
  apply Z.mod_divide in H0 as [k Hk]; [|lia].
  exists m, k. unfold SlotEndLead, SlotEndFraction. time_consts. nia.
Qed.

Section SlotFacts.
Context (loc : Location) (size : Duration) (Hsize : grid_size size = true).

(** Under a stable hour the slot start is the last multiple of [size] past the
    civil hour. *)
Lemma SlotStart_eq t :
  hour_stable loc t = true → SlotStart loc t size = t - past_hour loc t mod size.
Proof.
  intros Hst. destruct (grid_size_spec size Hsize) as (m & k & ? & ? & Hm & Hk & _).
  unfold SlotStart. rewrite (date_hour_stable _ _ Hst), t_Minute_past_hour.
  pose proof (past_hour_range loc t). revert H1. generalize (past_hour loc t). intros p Hp.
  rewrite Z.quot_div_nonneg by (time_consts; Z.to_euclidean_division_equations; lia).
  assert (p / Minute * Minute / size = p / size) as ->.
  { rewrite Hm, (Z.mul_comm m), <-!Z.div_div by (time_consts; lia).
    by rewrite Z.div_mul by done. }
  rewrite (Z.mod_eq p size) by (time_consts; nia). lia.
Qed.

Lemma SlotStart_bounds t :
  hour_stable loc t = true → SlotStart loc t size <= t < SlotStart loc t size + size.
Proof.
  intros Hst. rewrite SlotStart_eq by done.
  destruct (grid_size_spec size Hsize) as (m & k & ? & ? & Hm & Hk & ?).
  pose proof (Z.mod_pos_bound (past_hour loc t) size). time_consts. nia.
Qed.

Lemma past_hour_mod_size t :
  past_hour loc t mod size = (t + zone_offset (loc (unix_sec t)) * Second) mod size.
Proof.
  destruct (grid_size_spec size Hsize) as (m & k & ? & ? & Hm & Hk & _).
  unfold past_hour. generalize (t + zone_offset (loc (unix_sec t)) * Second) as p. intros p.
  rewrite (Z.mod_eq p Hour) by done. rewrite Hk at 1.
  replace (p - k * size * (p / Hour)) with (p + - (k * (p / Hour)) * size) by ring.
  apply Z.mod_add. time_consts; nia.
Qed.

(** Two instants of one slot have the same slot start. *)
Lemma SlotStart_same_slot t u :
  hour_stable loc t = true → hour_stable loc u = true →
  zone_offset (loc (unix_sec u)) = zone_offset (loc (unix_sec t)) →
  SlotStart loc t size <= u < SlotStart loc t size + size →
  SlotStart loc u size = SlotStart loc t size.
Proof.
  intros Ht Hu Hoff. rewrite !SlotStart_eq, !past_hour_mod_size, Hoff by done.
  generalize (zone_offset (loc (unix_sec t)) * Second) as c. intros c Hin.
  destruct (grid_size_spec size Hsize) as (m & k & ? & ? & Hm & _).
  assert (0 < size) by (time_consts; lia).
  rewrite !(Z.mod_eq _ size) in * by lia.
  assert ((u + c) / size = (t + c) / size) as ->; [|lia].
  symmetry. apply Z.div_unique_pos with (u + c - size * ((t + c) / size)); lia.
Qed.

(** The opening edge of the current slot is either still ahead, and next, or
    due, and the next one is a slot later. *)
Lemma slot_opening_cases now :
  hour_stable loc now = true →
  let opening := SlotOpeningTime (SlotStart loc now size) in
  (now < opening ∧ DueSlotOpening loc now size = zero_time ∧
   NextSlotOpening loc now size = opening) ∨
  (opening <= now ∧ DueSlotOpening loc now size = opening ∧
   NextSlotOpening loc now size = opening + size).
Proof.
  intros Hst opening. pose proof (SlotStart_bounds now Hst) as Hb.
  destruct (grid_size_spec size Hsize) as (_ & _ & _ & _ & _ & _ & Hlead).
  unfold DueSlotOpening, NextSlotOpening. fold opening.
  rewrite (proj2 (Z.leb_gt size SlotEndLead) Hlead). unfold Before.
  destruct (Z.ltb_spec now opening); simpl; [by left|right].
  rewrite (proj2 (Z.ltb_lt _ _)) by lia. unfold opening, SlotOpeningTime. split_and!; [done..|lia].
Qed.

Lemma slot_closing_cases now :
  hour_stable loc now = true →
  let closing := SlotClosingTime (SlotStart loc now size) size in
  (now < closing ∧ DueSlotClosing loc now size = zero_time ∧
   NextSlotClosing loc now size = closing) ∨
  (closing <= now ∧ DueSlotClosing loc now size = closing ∧
   NextSlotClosing loc now size = closing + size).
Proof.
  intros Hst closing. pose proof (SlotStart_bounds now Hst) as Hb.
  destruct (grid_size_spec size Hsize) as (_ & _ & _ & _ & _ & _ & Hlead).
  unfold DueSlotClosing, NextSlotClosing. fold closing.
  rewrite (proj2 (Z.leb_gt size SlotEndLead) Hlead). unfold Before.
  destruct (Z.ltb_spec now closing); simpl; [by left|right].
  rewrite (proj2 (Z.ltb_lt _ _)) by lia. unfold closing, SlotClosingTime. split_and!; [done..|lia].
Qed.

(** A multiple of the step that exceeds [i] steps back is at least the next. *)
Lemma step_multiple (step i j : Z) : 0 < step → i * step < j * step → (i + 1) * step <= j * step.
Proof. intros Hs Hij. apply Z.mul_le_mono_nonneg_r; [lia|]. apply Z.mul_lt_mono_pos_r in Hij; lia. Qed.

End SlotFacts.

Module Grid.
(** For a window of whole minutes that divides the hour, the slot of an
    instant contains it, begins a whole number of windows after the hour, and
    ends within the hour. *)
Theorem SlotStart_contains loc size t :
  grid_size size = true → hour_stable loc t = true →
  SlotStart loc t size <= t < SlotStart loc t size + size ∧
  (∃ j, 0 <= j ∧ SlotStart loc t size = date_hour loc t + j * size) ∧
  SlotStart loc t size + size <= date_hour loc t + Hour.
Proof.
  intros Hs Hst. split_and!; [by apply SlotStart_bounds..| |].
  - exists (Z.quot (t_Minute loc t * Minute) size). split; [|done].
    destruct (grid_size_spec size Hs) as (m & k & ? & ? & Hm & _).
    apply Z.quot_pos; [|time_consts; lia]. unfold t_Minute. time_consts.
    Z.to_euclidean_division_equations; lia.
  - rewrite SlotStart_eq, date_hour_stable by done.
    destruct (grid_size_spec size Hs) as (m & k & ? & ? & Hm & Hk & _).
    pose proof (past_hour_range loc t). revert H1. generalize (past_hour loc t). intros p Hp.
    assert (0 < size) by (time_consts; lia).
    rewrite (Z.mod_eq p size) by lia.
    assert (p / size < k) by (apply Z.div_lt_upper_bound; lia). nia.
Qed.

(** The next opening and the next closing lie strictly in the future, at most
    one window away, and no edge of the slot grid lies between now and them.
    *)
Theorem slot_edges_are_next loc size now :
  grid_size size = true → hour_stable loc now = true →
  let start := SlotStart loc now size in
  now < NextSlotOpening loc now size <= now + size ∧
  now < NextSlotClosing loc now size <= now + size ∧
  (∀ j, now < SlotOpeningTime (start + j * size) →
        NextSlotOpening loc now size <= SlotOpeningTime (start + j * size)) ∧
  (∀ j, now < SlotClosingTime (start + j * size) size →
        NextSlotClosing loc now size <= SlotClosingTime (start + j * size) size).
Proof.
  intros Hs Hst start. pose proof (SlotStart_bounds loc size Hs now Hst) as Hb.
  fold start in Hb.
  destruct (grid_size_spec size Hs) as (_ & _ & _ & _ & _ & _ & Hlead).
  assert (0 < size) by (unfold SlotEndLead, SlotEndFraction in *; time_consts; lia).
  pose proof (slot_opening_cases loc size Hs now Hst) as Ho.
  pose proof (slot_closing_cases loc size Hs now Hst) as Hc. fold start in Ho, Hc.
  unfold SlotOpeningTime, SlotClosingTime, SlotEndLead, SlotEndFraction in *.
  time_consts. split_and!; try lia; intros j Hj.
  - destruct Ho as [(? & _ & ->)|(? & _ & ->)].
    + pose proof (step_multiple size (-1) j). lia.
    + pose proof (step_multiple size 0 j). lia.
  - destruct Hc as [(? & _ & ->)|(? & _ & ->)].
    + pose proof (step_multiple size (-1) j). lia.
    + pose proof (step_multiple size 0 j). lia.
Qed.

(** There is no recovery window exactly when the exporter is ready at the very
    start of a slot; otherwise the window runs from the start of the current
    slot to the moment of readiness, and every instant in it belongs to that
    slot. *)
Theorem recovery_window_is_current_slot loc size ready :
  grid_size size = true → hour_stable loc ready = true →
  (RecoveryWindow loc ready size = None ↔ ready = SlotStart loc ready size) ∧
  (∀ a b, RecoveryWindow loc ready size = Some (a, b) →
    b = ready ∧ a = SlotStart loc ready size ∧ a < b < a + size ∧
    (∀ u, a <= u < b → hour_stable loc u = true →
       zone_offset (loc (unix_sec u)) = zone_offset (loc (unix_sec ready)) →
       SlotStart loc u size = a)).
Proof.
  intros Hs Hst. pose proof (SlotStart_bounds loc size Hs ready Hst) as Hb.
  destruct (grid_size_spec size Hs) as (_ & _ & _ & _ & _ & _ & Hlead).
  assert (0 < size) by (unfold SlotEndLead, SlotEndFraction in *; time_consts; lia).
  unfold RecoveryWindow. rewrite (proj2 (Z.leb_gt size 0)) by done.
  unfold After. destruct (Z.ltb_spec (SlotStart loc ready size) ready); simpl.
  - split; [split; [done|lia]|]. intros a b [= <- <-]. split_and!; try lia.
    intros u Hu Hsu Hoff. apply SlotStart_same_slot; try done. lia.
  - split; [split; [lia|done]|done].
Qed.

(** A window of seven and a half minutes divides the hour, but the slot of an
    instant in its second half does not contain that instant. *)
Theorem half_minute_window_misses_now :
  let size := 450 * Second in
  let now := (7 * 60 + 45) * Second in
  (5 * Minute <=? size) && (size <=? 60 * Minute) && (Hour mod size =? 0) = true ∧
  SlotStart (FixedZone 0) now size + size < now ∧
  NextSlotOpening (FixedZone 0) now size < now ∧
  DueSlotOpening (FixedZone 0) now size = zero_time.
Proof. vm_compute. repeat split; done. Qed.

Lemma SlotStart_contains_witness :
  SlotStart (FixedZone 3600) 1700000000123456789 (15 * Minute) <= 1700000000123456789.
Proof.
  apply (SlotStart_contains (FixedZone 3600) (15 * Minute) 1700000000123456789);
    vm_compute; reflexivity.
Defined.

Lemma slot_edges_are_next_witness :
  1700000000 * Second < NextSlotOpening (FixedZone 3600) (1700000000 * Second) (15 * Minute) <=
  1700000000 * Second + 15 * Minute.
Proof.
  apply (slot_edges_are_next (FixedZone 3600) (15 * Minute) (1700000000 * Second)); vm_compute; reflexivity.
Defined.

Lemma recovery_window_is_current_slot_witness :
  RecoveryWindow (FixedZone 3600) (1700000000 * Second) (15 * Minute) = None ↔
  1700000000 * Second = SlotStart (FixedZone 3600) (1700000000 * Second) (15 * Minute).
Proof.
  apply (recovery_window_is_current_slot (FixedZone 3600) (15 * Minute) (1700000000 * Second));
    vm_compute; reflexivity.
Defined.
End Grid.
