(* ===== verification/Journal.v ===== *)
(** * Journal: internal/recovery/journal.go

    Reading unit transitions from the systemd journal. [journalctl] is not part
    of the program: its run is a parameter that gives, for an argument list,
    the tokens the line scanner yields and how the process ended. *)

From S2P Require Import Prelude GoTime GoStrings Model Json.

Definition messageIDUnitStarted : string := "39f53479d3a045ac8e11786248231fbf".
Definition messageIDUnitStopped : string := "9d1aaa27d60140bd96365438aad20286".
Definition messageIDUnitFailed : string := "7d4958e842da4a758f6c1cdc7b36dcc5".

Module journalRecord.
Record t := mk {
  Message : string;
  MessageID : string;
  SystemdUnit : string;
  Unit : string;
  BootID : string;
  RTUS : string;
}.
End journalRecord.

(** An error is its text: callers inspect nothing else. *)
Notation error := string (only parsing).

(** How [cmd.Wait] ends: [nil], an exit status, or another failure. *)
Inductive wait_status := Exited0 | ExitError (code : Z) (text : string) | WaitError (text : string).

Record process := Process {
  p_tokens : list string;          (* what [scanner.Scan] yields *)
  p_scan_error : option error;     (* [scanner.Err()] *)
  p_stderr : string;
  p_wait : wait_status;
}.

(** [exec.CommandContext(ctx, "journalctl", args...)]: opening the pipes fails,
    starting the command fails, or there is a process. *)
Inductive spawn_failure := PipeError (text : error) | StartError (text : error).
Definition journalctl_cmd := list string → result spawn_failure process.

Definition spawn_error (service : string) (f : spawn_failure) : error :=
  match f with
  | PipeError text => text
  | StartError text => "journalctl " +:+ service +:+ ": " +:+ text
  end.

Definition exitCode (w : wait_status) : Z :=
  match w with ExitError code _ => code | _ => -1 end.

Definition wait_text (w : wait_status) : string :=
  match w with ExitError _ text | WaitError text => text | Exited0 => "" end.

Definition messageState (messageID message : string) : option AvailabilityState :=
  let id := ToLower (TrimSpace messageID) in
  if decide (id = messageIDUnitStarted) then Some StateUp
  else if decide (id = messageIDUnitStopped ∨ id = messageIDUnitFailed) then Some StateDown
  else
    let m := ToLower (TrimSpace message) in
    if HasPrefix m "started " then Some StateUp
    else if HasPrefix m "stopped " || HasPrefix m "failed to start " then Some StateDown
    else None.

Definition parseTimestampUS (s : string) : Z :=
  match ParseInt (TrimSpace s) with
  | Some v => if v <=? 0 then 0 else v
  | None => 0
  end.

(** [json.Unmarshal] into a [journalRecord]: a field that is no string, such as
    a message journald exports as an array of bytes, is an error. *)
Definition assign_record (ms : list (bytes * json)) : option journalRecord.t :=
  message ← field "MESSAGE" as_string "" ms;
  messageID ← field "MESSAGE_ID" as_string "" ms;
  systemdUnit ← field "_SYSTEMD_UNIT" as_string "" ms;
  unit_ ← field "UNIT" as_string "" ms;
  bootID ← field "_BOOT_ID" as_string "" ms;
  rtus ← field "__REALTIME_TIMESTAMP" as_string "" ms;
  Some (journalRecord.mk message messageID systemdUnit unit_ bootID rtus).
Definition decode (line : string) : option journalRecord.t :=
  parse_json (to_bytes line) ≫= unmarshal_object assign_record.

Section Journal.
Context (journalctl : journalctl_cmd) (loc : Location).

Definition journalctlTimestamp (t : time) : string := Format_datetime loc t.

(** The body of the scan loop of [recoverUnit]: the event of one line. *)
Definition record_event (service : string) (from to : time) (line : string) : option Event.t :=
  match decode line with
  | None => None
  | Some r =>
      match messageState (journalRecord.MessageID r) (journalRecord.Message r) with
      | None => None
      | Some state =>
          if negb (bool_decide (journalRecord.Unit r = "")) &&
             negb (bool_decide (journalRecord.Unit r = service)) then None
          else
            let us := parseTimestampUS (journalRecord.RTUS r) in
            if us =? 0 then None
            else
              let t := i64 (us * 1000) in
              if Before t from || negb (Before t to) then None
              else Some {| Event.Sequence := 0;
                           Event.Service := service;
                           Event.State := state;
                           Event.EventTimeUnixMS := Z.quot us 1000;
                           Event.EventTimeMonotonicUS := 0;
                           Event.BootID := CanonicalBootID (journalRecord.BootID r);
                           Event.Source := SourceRecovery;
                           Event.SystemdActiveState := AvailabilityState_String state;
                           Event.SystemdSubState := "" |}
      end
  end.

Definition recoverUnit (service : string) (from to : time) : result error (list Event.t) :=
  match journalctl ["-u"; service; "--since"; journalctlTimestamp from;
                    "--until"; journalctlTimestamp to; "-o"; "json"; "--no-pager"; "--quiet"] with
  | Err f => Err (spawn_error service f)
  | Ok p =>
      let out := omap (record_event service from to) (p_tokens p) in
      match p_scan_error p with
      | Some e => Err e
      | None =>
          match p_wait p with
          | Exited0 => Ok out
          | w =>
              if exitCode w =? 1 then
                Err ("journalctl " +:+ service +:+ ": no journal entries: " +:+ wait_text w)
              else if negb (bool_decide (p_stderr p = "")) then
                Err ("journalctl " +:+ service +:+ ": " +:+ TrimSpace (p_stderr p) +:+ ": " +:+ wait_text w)
              else Err ("journalctl " +:+ service +:+ ": " +:+ wait_text w)
          end
      end
  end.

Definition isNoJournalEntriesError (e : error) : bool := Contains e ": no journal entries:".

Fixpoint recover_units (services : list string) (from to : time) (out : list Event.t)
    : result error (list Event.t) :=
  match services with
  | [] => Ok out
  | service :: services' =>
      match recoverUnit service from to with
      | Err e => if isNoJournalEntriesError e then recover_units services' from to out else Err e
      | Ok events => recover_units services' from to (out ++ events)
      end
  end.

(** The order of the recovered events: time, then service name. *)
Definition event_lt : Event.t → Event.t → bool :=
  time_name_lt Event.EventTimeUnixMS Event.Service.

Definition Recover (services : list string) (from to : time) : result error (list Event.t) :=
  if Before to from then Ok []
  else
    match recover_units services from to [] with
    | Err e => Err e
    | Ok out => Ok (sort_stable event_lt out)
    end.

(** [previousState] of backfill.go: the last lifecycle record before [at_]. *)
Definition record_before (service : string) (at_ : time) (line : string) : option AvailabilityState :=
  match decode line with
  | None => None
  | Some r =>
      match messageState (journalRecord.MessageID r) (journalRecord.Message r) with
      | None => None
      | Some state =>
          if negb (bool_decide (journalRecord.Unit r = "")) &&
             negb (bool_decide (journalRecord.Unit r = service)) then None
          else
            let us := parseTimestampUS (journalRecord.RTUS r) in
            if (us =? 0) || (UnixMilli at_ <=? Z.quot us 1000) then None else Some state
      end
  end.

(** The scan stops at the first line that yields a state: only a scan that ran
    to its end can have an error. *)
Definition previousState (service : string) (at_ : time) : result error (option AvailabilityState) :=
  match journalctl ["-u"; service; "--until"; journalctlTimestamp at_; "-o"; "json"; "--no-pager";
                    "--quiet"; "--reverse"; "-n"; "1"; "MESSAGE_ID=" +:+ messageIDUnitStarted;
                    "MESSAGE_ID=" +:+ messageIDUnitStopped; "MESSAGE_ID=" +:+ messageIDUnitFailed] with
  | Err f => Err (spawn_error service f)
  | Ok p =>
      match head (omap (record_before service at_) (p_tokens p)) with
      | Some state => Ok (Some state)
      | None =>
          match p_scan_error p with
          | Some e => Err e
          | None =>
              match p_wait p with
              | Exited0 => Ok None
              | w => if exitCode w =? 1 then Ok None else Err (wait_text w)
              end
          end
      end
  end.
End Journal.

(** ** What a recovery returns *)

Section RecoverFacts.
Context (journalctl : journalctl_cmd) (loc : Location).

Lemma recover_units_elem services from to : ∀ out0 out,
  recover_units journalctl loc services from to out0 = Ok out →
  ∀ ev, ev ∈ out ↔ ev ∈ out0 ∨ ∃ service events, service ∈ services ∧
    recoverUnit journalctl loc service from to = Ok events ∧ ev ∈ events.
Proof.
  induction services as [|svc services IH]; intros out0 out Hr ev; simpl in Hr.
  { simplify_eq. split; [by left|]. intros [?|(? & ? & ?%elem_of_nil & _)]; done. }
  destruct (recoverUnit _ _ svc from to) as [events|e] eqn:Hu.
  - rewrite (IH _ _ Hr), elem_of_app. split.
    + intros [[?|?]|(s & evs & ? & ? & ?)]; [by left|right; exists svc, events; set_solver|].
      right. exists s, evs. set_solver.
    + intros [?|(s & evs & [->|Hin]%elem_of_cons & Hu' & Hx)]; [by left; left| |].
      * assert (evs = events) as -> by congruence. by left; right.
      * right. eauto.
  - case_match; [|done]. rewrite (IH _ _ Hr). split.
    + intros [?|(s & evs & ? & ? & ?)]; [by left|]. right. exists s, evs. set_solver.
    + intros [?|(s & evs & [->|Hin]%elem_of_cons & Hu' & Hx)]; [by left|congruence|]. right. eauto.
Qed.

Lemma record_event_spec service from to line ev :
  record_event service from to line = Some ev →
  ∃ r us, decode line = Some r ∧ us = parseTimestampUS (journalRecord.RTUS r) ∧ 0 < us < 2 ^ 63 ∧
    from <= i64 (us * 1000) < to ∧
    messageState (journalRecord.MessageID r) (journalRecord.Message r) = Some (Event.State ev) ∧
    (journalRecord.Unit r = "" ∨ journalRecord.Unit r = service) ∧
    Event.EventTimeUnixMS ev = us / 1000 ∧ Event.Service ev = service ∧
    Event.Source ev = SourceRecovery ∧ Event.BootID ev = CanonicalBootID (journalRecord.BootID r).
Proof.
  unfold record_event. destruct (decode line) as [r|]; [|done].
  destruct (messageState _ _) as [st|] eqn:Hms; [|done].
  assert (0 <= parseTimestampUS (journalRecord.RTUS r) < 2 ^ 63) as Hus.
  { unfold parseTimestampUS, ParseInt. repeat case_match; simplify_eq/=; destruct_bools; lia. }
  destruct (negb _ && negb _) eqn:Hunit; [done|]. case_match eqn:Hz; [done|].
  unfold Before. destruct (_ || _) eqn:Hwin; [done|]. intros [= <-]. simpl. destruct_bools.
  exists r, (parseTimestampUS (journalRecord.RTUS r)). split_and!; try done; try lia.
  - apply andb_false_iff in Hunit as [Hu|Hu]; apply negb_false_iff, bool_decide_eq_true in Hu; auto.
  - apply Z.quot_div_nonneg; lia.
Qed.
End RecoverFacts.

Module JournalTheorems.

(** C31: Whatever journalctl prints, the recovered events are ordered by time
    and then service, belong to requested services, carry UP or DOWN and the
    recovery source, and lie inside the requested window at millisecond
    precision, as long as the timestamps in its output do not overflow
    nanoseconds. *)
Theorem recovered_events_sound journalctl loc services from to out :
  (∀ args p line r, journalctl args = Ok p → line ∈ p_tokens p → decode line = Some r →
    parseTimestampUS (journalRecord.RTUS r) * 1000 < 2 ^ 63) →
  Recover journalctl loc services from to = Ok out →
  StronglySorted (time_name_le Event.EventTimeUnixMS Event.Service) out ∧
  ∀ ev, ev ∈ out →
    Event.Service ev ∈ services ∧ Event.Source ev = SourceRecovery ∧
    (Event.State ev = StateUp ∨ Event.State ev = StateDown) ∧ 0 <= Event.EventTimeUnixMS ev ∧
    from / Millisecond <= Event.EventTimeUnixMS ev ∧ Event.EventTimeUnixMS ev * Millisecond < to.
Proof.
  intros Hdec Hr. unfold Recover in Hr.
  case_match; [simplify_eq; split; [constructor|by intros ev ?%elem_of_nil]|].
  destruct (recover_units _ _ _ _ _ _) as [out0|] eqn:Hu; simplify_eq.
  split; [apply time_name_sorted|]. intros ev. rewrite elem_of_sort_stable.
  rewrite (recover_units_elem _ _ _ _ _ _ _ Hu).
  intros [?%elem_of_nil|(svc & evs & Hsvc & Hunit & Hev)]; [done|].
  unfold recoverUnit in Hunit. destruct (journalctl _) as [p|f] eqn:Hp; [|done].
  repeat case_match; simplify_eq. apply list_elem_of_omap in Hev as (line & Hin & Hline).
  apply record_event_spec in Hline as (r & us & Hd & Hus & Hpos & Hwin & Hst & _ & Ht & Hs & Hsrc & _).
  specialize (Hdec _ _ _ _ Hp Hin Hd). rewrite <-Hus in Hdec. rewrite i64_small in Hwin by (unfold in_i64; lia).
  split_and!; [by rewrite Hs|done| |rewrite Ht; apply Z.div_pos; lia| |].
  - unfold messageState in Hst. repeat case_match; simplify_eq; auto.
  - rewrite Ht. time_consts. Z.to_euclidean_division_equations. lia.
  - rewrite Ht. time_consts. Z.to_euclidean_division_equations. lia.
Qed.

(** A journal with one start record of the unit and one line that is no JSON. *)
Definition sample_line : string := of_bytes (encode_object (fst <$>
  [string_field "MESSAGE" "Started P-CSCF."; string_field "MESSAGE_ID" messageIDUnitStarted;
   string_field "_SYSTEMD_UNIT" "init.scope"; string_field "UNIT" "pcscf.service";
   string_field "_BOOT_ID" "6a5c-01"; string_field "__REALTIME_TIMESTAMP" "1700000000500000"])).
Definition sample_record : journalRecord.t :=
  journalRecord.mk "Started P-CSCF." messageIDUnitStarted "init.scope" "pcscf.service" "6a5c-01" "1700000000500000".
Definition sample_journal : journalctl_cmd := λ _, Ok (Process [sample_line; "-- No entries --"] None "" Exited0).

Lemma recovered_events_sound_witness :
  ∃ ev, Recover sample_journal (FixedZone 0) ["pcscf.service"]
          (1700000000 * Second) (1700000001 * Second) = Ok [ev] ∧
    Event.Service ev ∈ ["pcscf.service"] ∧ Event.EventTimeUnixMS ev = 1700000000500.
Proof.
  eexists. split; [by vm_compute|]. split; [|by vm_compute].
  eapply (recovered_events_sound sample_journal (FixedZone 0) ["pcscf.service"]
    (1700000000 * Second) (1700000001 * Second)); [|by vm_compute|by left].
  intros args p line r [= <-] Hin. cbn [p_tokens] in Hin.
  apply elem_of_cons in Hin as [->|[->|?%elem_of_nil]%elem_of_cons]; [| |done].
  - assert (decode sample_line = Some sample_record) as -> by (by vm_compute). intros [= <-]. by vm_compute.
  - assert (decode "-- No entries --" = None) as -> by (by vm_compute). done.
Defined.

End JournalTheorems.
