(* ===== verification/Backfill.v ===== *)
(** * Backfill: [BuildStateFill] of internal/recovery/backfill.go

    The samples that republish a recovered slot. *)

From S2P Require Import Prelude GoTime GoStrings Model Samples Journal.

Definition invertState (state : AvailabilityState) : AvailabilityState :=
  if decide (state = StateUp) then StateDown else StateUp.

Section Backfill.
Context (journalctl : journalctl_cmd) (loc : Location).

Definition slotStartState (service : string) (start : time) (events : list Event.t)
    (current : gmap string AvailabilityState) : result error AvailabilityState :=
  match events with
  | ev :: _ => Ok (invertState (Event.State ev))
  | [] =>
      let ask :=
        match previousState journalctl loc service start with
        | Err e => Err e
        | Ok None => Ok StateDown
        | Ok (Some state) => Ok state
        end in
      match current !! service with
      | Some state => if decide (state = StateUnknown) then ask else Ok state
      | None => ask
      end
  end.

(** [byService[service]] after grouping and sorting. *)
Definition in_window (start end_ : time) (ev : Event.t) : Prop :=
  UnixMilli start <= Event.EventTimeUnixMS ev < UnixMilli end_.
#[export] Instance in_window_dec start end_ ev : Decision (in_window start end_ ev).
Proof. unfold in_window. apply _. Defined.

Definition byService (start end_ : time) (events : list Event.t) (service : string) : list Event.t :=
  sort_by_key Event.EventTimeUnixMS
    (filter (λ ev, Event.Service ev = service) (filter (in_window start end_) events)).

Definition sample (service : string) (state : AvailabilityState) (ms : Z) : StateSample.t :=
  {| StateSample.Service := service; StateSample.State := state; StateSample.TimestampUnixMS := ms |}.

Definition event_sample (service : string) (ev : Event.t) : StateSample.t :=
  sample service (Event.State ev) (Event.EventTimeUnixMS ev).

(** The ticks [start], [start + interval], ... before [end_]. *)
Fixpoint ticks_fuel (fuel : nat) (ts end_ : time) (interval : Duration) : list time :=
  match fuel with
  | O => []
  | S fuel' =>
      if Before ts end_ then ts :: ticks_fuel fuel' (ts + interval) end_ interval else []
  end.

Definition ticks (start end_ : time) (interval : Duration) : list time :=
  ticks_fuel (Z.to_nat ((end_ - start) / interval + 1)) start end_ interval.

(** The inner loop: the events due at [ms], the ones left, and the state. *)
Fixpoint due (service : string) (ms : Z) (events : list Event.t) (state : AvailabilityState)
    : list StateSample.t * list Event.t * AvailabilityState :=
  match events with
  | ev :: events' =>
      if Event.EventTimeUnixMS ev <=? ms then
        let '(out, rest, state') := due service ms events' (Event.State ev) in
        (event_sample service ev :: out, rest, state')
      else ([], events, state)
  | [] => ([], [], state)
  end.

Fixpoint fill_ticks (service : string) (tss : list time) (events : list Event.t)
    (state : AvailabilityState) : list StateSample.t :=
  match tss with
  | [] => event_sample service <$> events
  | ts :: tss' =>
      let '(out, rest, state') := due service (UnixMilli ts) events state in
      out ++ sample service state' (UnixMilli ts) :: fill_ticks service tss' rest state'
  end.

Fixpoint fill_services (services : list string) (start end_ : time) (events : list Event.t)
    (interval : Duration) (current : gmap string AvailabilityState) (out : list StateSample.t)
    : result error (list StateSample.t) :=
  match services with
  | [] => Ok out
  | service :: services' =>
      let serviceEvents := byService start end_ events service in
      match slotStartState service start serviceEvents current with
      | Err e => Err e
      | Ok state =>
          fill_services services' start end_ events interval current
            (out ++ fill_ticks service (ticks start end_ interval) serviceEvents state)
      end
  end.

Definition sample_lt : StateSample.t → StateSample.t → bool :=
  time_name_lt StateSample.TimestampUnixMS StateSample.Service.

Definition BuildStateFill (services : list string) (start end_ : time) (events : list Event.t)
    (interval : Duration) (current : gmap string AvailabilityState)
    : result error (list StateSample.t) :=
  if (interval <=? 0) || negb (After end_ start) then Ok []
  else
    match fill_services services start end_ events interval current [] with
    | Err e => Err e
    | Ok out => Ok (sort_stable sample_lt out)
    end.
End Backfill.

(** ** The tick grid *)

Lemma ticks_fuel_enough interval : 0 < interval → ∀ n ts end_,
  (end_ - ts) / interval + 1 <= Z.of_nat n →
  ∀ t, t ∈ ticks_fuel n ts end_ interval ↔ ∃ j, 0 <= j ∧ t = ts + j * interval ∧ t < end_.
Proof.
  intros Hi. induction n as [|n IH]; intros ts end_ Hn t; simpl.
  - split; [by intros ?%elem_of_nil|]. intros (j & Hj & -> & Hlt). exfalso.
    pose proof (Z.div_pos (end_ - ts) interval). nia.
  - unfold Before. destruct (Z.ltb_spec ts end_) as [Hlt|Hge].
    + rewrite elem_of_cons, (IH (ts + interval)).
      * split.
        -- intros [->|(j & Hj & -> & Hlt')]; [exists 0; lia|]. exists (j + 1). lia.
        -- intros (j & Hj & -> & Hlt'). destruct (decide (j = 0)) as [->|]; [left; lia|].
           right. exists (j - 1). lia.
      * replace (end_ - (ts + interval)) with ((end_ - ts) + (-1) * interval) by ring.
        rewrite Z.div_add by lia. lia.
    + split; [by intros ?%elem_of_nil|]. intros (j & Hj & -> & Hlt'). nia.
Qed.

(** The number of ticks before the end, and the ticks. *)
Definition tick_count (start end_ : time) (interval : Duration) : Z := (end_ - start + interval - 1) / interval.
Definition tick_times (start end_ : time) (interval : Duration) : list time :=
  (λ j, start + j * interval) <$> seqZ 0 (tick_count start end_ interval).

Lemma ticks_fuel_times interval : 0 < interval → ∀ n ts end_,
  tick_count ts end_ interval <= Z.of_nat n → ticks_fuel n ts end_ interval = tick_times ts end_ interval.
Proof.
  intros Hi. unfold tick_times, tick_count. induction n as [|n IH]; intros ts end_ Hn; cbn [ticks_fuel].
  { rewrite seqZ_nil by lia. done. }
  unfold Before. destruct (Z.ltb_spec ts end_) as [Hlt|Hge].
  - replace (end_ - ts + interval - 1) with ((end_ - (ts + interval) + interval - 1) + 1 * interval) in * by ring.
    rewrite Z.div_add in * by lia. set (m := (end_ - (ts + interval) + interval - 1) / interval) in *.
    assert (0 <= m) by (apply Z.div_pos; lia).
    rewrite seqZ_cons by lia. rewrite fmap_cons. f_equal; [lia|]. rewrite IH by lia. fold m.
    replace (Z.pred (m + 1)) with m by lia. rewrite <-(fmap_add_seqZ 1 0), <-list_fmap_compose.
    apply list_fmap_ext. intros i j _. simpl. lia.
  - rewrite seqZ_nil; [done|]. apply Z.lt_succ_r, Z.div_lt_upper_bound; lia.
Qed.

Lemma ticks_times start end_ interval :
  0 < interval → start < end_ → ticks start end_ interval = tick_times start end_ interval.
Proof.
  intros Hi Hlt. apply ticks_fuel_times; [done|]. unfold tick_count.
  assert ((end_ - start + interval - 1) / interval <= (end_ - start) / interval + 1).
  { replace (end_ - start + interval - 1) with ((end_ - start - 1) + 1 * interval) by ring.
    rewrite Z.div_add by lia. pose proof (Z.div_le_mono (end_ - start - 1) (end_ - start) interval). lia. }
  pose proof (Z.div_pos (end_ - start) interval). lia.
Qed.

Lemma elem_of_ticks start end_ interval t :
  0 < interval → start < end_ →
  t ∈ ticks start end_ interval ↔ ∃ j, 0 <= j ∧ t = start + j * interval ∧ t < end_.
Proof.
  intros Hi Hlt. apply ticks_fuel_enough; [done|].
  pose proof (Z.div_pos (end_ - start) interval). lia.
Qed.

Lemma ticks_fuel_sorted interval : 0 < interval → ∀ n ts end_,
  StronglySorted Z.lt (ticks_fuel n ts end_ interval) ∧
  Forall (λ t, ts <= t) (ticks_fuel n ts end_ interval).
Proof.
  intros Hi. induction n as [|n IH]; intros ts end_; simpl; [by repeat constructor|].
  case_match; [|by repeat constructor]. destruct (IH (ts + interval) end_) as [Hs Hf].
  split; constructor; try done; try lia; (eapply Forall_impl; [exact Hf|]); simpl; lia.
Qed.

(** ** The state the samples carry *)

(** The reference: the state of the last event up to [ms], or the given one. *)
Definition state_at (events : list Event.t) (state : AvailabilityState) (ms : Z) : AvailabilityState :=
  match last (filter (λ ev, Event.EventTimeUnixMS ev <= ms) events) with
  | Some ev => Event.State ev
  | None => state
  end.

Notation sorted_events := (StronglySorted (key_le Event.EventTimeUnixMS)).

Lemma state_at_nil state ms : state_at [] state ms = state.
Proof. done. Qed.

Lemma state_at_cons ev events state ms :
  Event.EventTimeUnixMS ev <= ms →
  state_at (ev :: events) state ms = state_at events (Event.State ev) ms.
Proof.
  intros Hle. unfold state_at. rewrite filter_cons_True by done.
  destruct (filter _ events) as [|x l]; [done|]. by rewrite last_cons_cons; destruct (last (x :: l)) eqn:Hl; [|apply last_None in Hl].
Qed.

Lemma state_at_later ev events state ms :
  sorted_events (ev :: events) → ms < Event.EventTimeUnixMS ev →
  state_at (ev :: events) state ms = state.
Proof.
  intros Hs Hlt. unfold state_at. rewrite filter_none; [done|].
  apply StronglySorted_cons in Hs as [Hf _]. constructor; [lia|].
  eapply Forall_impl; [exact Hf|]. unfold key_le. intros x Hx. lia.
Qed.

(** The pointer loop computes the reference and splits the events. *)
Lemma due_spec service ms events : ∀ state out rest state',
  sorted_events events → due service ms events state = (out, rest, state') →
  state' = state_at events state ms ∧
  ∃ done_, events = done_ ++ rest ∧ out = event_sample service <$> done_ ∧
    Forall (λ ev, Event.EventTimeUnixMS ev <= ms) done_ ∧
    (∀ ms', ms <= ms' → state_at rest state' ms' = state_at events state ms').
Proof.
  induction events as [|ev events IH]; intros state out rest state' Hs Hd; simpl in Hd.
  { simplify_eq. split; [done|]. exists []. done. }
  destruct (Z.leb_spec (Event.EventTimeUnixMS ev) ms) as [Hle|Hgt].
  - destruct (due _ _ events _) as [[out0 rest0] st0] eqn:Hd0. simplify_eq.
    pose proof Hs as Hs'. apply StronglySorted_cons in Hs' as [_ Hs'].
    destruct (IH _ _ _ _ Hs' Hd0) as (-> & d & -> & -> & Hf & Hlater).
    rewrite state_at_cons by done. split; [done|]. exists (ev :: d). split_and!; [done|done|by constructor|].
    intros ms' Hms. rewrite Hlater by done. symmetry. apply state_at_cons. lia.
  - simplify_eq. rewrite state_at_later by done. split; [done|]. exists []. by split_and!.
Qed.

(** The samples of the ticks, each with the state the events up to it leave. *)
Definition tick_samples (service : string) (events : list Event.t) (state : AvailabilityState) (tss : list time)
    : list StateSample.t :=
  (λ ts, let ms := UnixMilli ts in sample service (state_at events state ms) ms) <$> tss.

(** The loop emits every tick and every event once. *)
Lemma fill_ticks_spec service tss : ∀ events state,
  sorted_events events → StronglySorted Z.le (UnixMilli <$> tss) →
  fill_ticks service tss events state ≡ₚ
    tick_samples service events state tss ++ (event_sample service <$> events).
Proof.
  induction tss as [|ts tss IH]; intros events state Hs Ht; [done|]. cbn [fill_ticks].
  destruct (due service (UnixMilli ts) events state) as [[out rest] st'] eqn:Hd.
  destruct (due_spec _ _ _ _ _ _ _ Hs Hd) as (-> & d & -> & -> & Hf & Hlater).
  rewrite fmap_cons in Ht. apply StronglySorted_cons in Ht as [Hts Ht].
  rewrite IH; [|by eapply StronglySorted_app_1_r|done].
  assert (tick_samples service rest (state_at (d ++ rest) state (UnixMilli ts)) tss =
    tick_samples service (d ++ rest) state tss) as ->.
  { apply list_fmap_ext. intros i ts' Hi. cbv zeta. f_equal. apply Hlater.
    rewrite Forall_fmap, Forall_forall in Hts. apply Hts. by apply list_elem_of_lookup_2 in Hi. }
  unfold tick_samples at 2. rewrite fmap_cons, fmap_app. fold (tick_samples service (d ++ rest) state tss).
  cbn [app]. rewrite <-Permutation_middle. constructor. rewrite app_assoc.
  rewrite (Permutation_app_comm (event_sample service <$> d)). by rewrite <-app_assoc.
Qed.

Lemma byService_sorted start end_ events service :
  sorted_events (byService start end_ events service).
Proof. apply sort_by_key_sorted. Qed.

Lemma elem_of_byService start end_ events service ev :
  ev ∈ byService start end_ events service ↔
    ev ∈ events ∧ in_window start end_ ev ∧ Event.Service ev = service.
Proof. unfold byService. rewrite elem_of_sort_by_key, !list_elem_of_filter. naive_solver. Qed.

(** Milliseconds of increasing instants do not decrease. *)
Lemma UnixMilli_sorted start end_ tss :
  in_i64 (start / Millisecond) → in_i64 (end_ / Millisecond) →
  Forall (λ t, start <= t < end_) tss → StronglySorted Z.lt tss →
  StronglySorted Z.le (UnixMilli <$> tss).
Proof.
  intros Hstart Hend Hf Hs. induction Hs as [|t tss _ IH Ht]; [constructor|].
  inv Hf as [|? ? Hrange Hf']. rewrite fmap_cons. constructor; [by apply IH|].
  apply Forall_fmap, Forall_forall. intros u Hu. rewrite Forall_forall in Ht, Hf'.
  specialize (Ht _ Hu). specialize (Hf' _ Hu). simpl.
  assert (∀ v, start <= v < end_ → in_i64 (v / Millisecond)) as Hin.
  { intros v Hv. unfold in_i64 in *. time_consts.
    pose proof (Z.div_le_mono start v 1000000). pose proof (Z.div_le_mono v end_ 1000000). lia. }
  apply UnixMilli_mono; [by apply Hin|by apply Hin|lia].
Qed.

Lemma ticks_ordered start end_ interval :
  0 < interval → start < end_ → in_i64 (start / Millisecond) → in_i64 (end_ / Millisecond) →
  StronglySorted Z.le (UnixMilli <$> ticks start end_ interval).
Proof.
  intros Hi Hlt Hstart Hend.
  destruct (ticks_fuel_sorted interval Hi (Z.to_nat ((end_ - start) / interval + 1)) start end_).
  apply (UnixMilli_sorted start end_); try done. apply Forall_forall. intros t Ht.
  apply elem_of_ticks in Ht as (j & ? & -> & ?); [|done|done]. nia.
Qed.

Lemma byService_Permutation start end_ events service :
  byService start end_ events service ≡ₚ filter (λ ev, in_window start end_ ev ∧ Event.Service ev = service) events.
Proof.
  unfold byService. rewrite sort_by_key_Permutation, list_filter_filter.
  erewrite list_filter_iff; [done|]. intros ev. tauto.
Qed.

(** A service whose slot start needs no look into the journal. *)
Definition anchored (start end_ : time) (events : list Event.t)
    (current : gmap string AvailabilityState) (service : string) : Prop :=
  byService start end_ events service ≠ [] ∨
  current !! service = Some StateUp ∨ current !! service = Some StateDown.

Section FillSpec.
Context (journalctl : journalctl_cmd) (loc : Location).

Lemma fill_services_spec services start end_ events interval current : ∀ out0 out,
  fill_services journalctl loc services start end_ events interval current out0 = Ok out →
  ∃ state0 : string → AvailabilityState,
    (∀ service, service ∈ services →
       slotStartState journalctl loc service start (byService start end_ events service) current = Ok (state0 service)) ∧
    out = out0 ++ (services ≫= λ service,
      fill_ticks service (ticks start end_ interval) (byService start end_ events service) (state0 service)).
Proof.
  induction services as [|svc services IH]; intros out0 out Hf; simpl in Hf.
  { simplify_eq. exists (λ _, StateUnknown). rewrite app_nil_r. split; [by intros ? ?%elem_of_nil|done]. }
  destruct (slotStartState _ _ svc _ _ _) as [st|] eqn:Hst; [|done].
  destruct (IH _ _ Hf) as (state0 & Hs & ->).
  exists (λ service, if decide (service = svc) then st else state0 service). split.
  - intros service Hin. case_decide as Heq; [by rewrite Heq|]. apply Hs. by apply elem_of_cons in Hin as [?|?].
  - rewrite bind_cons, decide_True by done. rewrite <-app_assoc. do 2 f_equal.
    apply Forall_bind_ext, Forall_forall. intros service Hin. case_decide as Heq; [|done].
    specialize (Hs _ Hin). rewrite Heq in Hs |- *. congruence.
Qed.

Lemma fill_services_anchored services start end_ events interval current j2 l2 : ∀ out0,
  (∀ service, service ∈ services → anchored start end_ events current service) →
  ∃ out, fill_services journalctl loc services start end_ events interval current out0 = Ok out ∧
    fill_services j2 l2 services start end_ events interval current out0 = Ok out.
Proof.
  induction services as [|svc services IH]; intros out0 Ha; simpl; [by eauto|].
  assert (∃ st, ∀ j l, slotStartState j l svc start (byService start end_ events svc) current = Ok st)
    as [st Hst].
  { destruct (Ha svc) as [Hne|[Hc|Hc]]; [by left| | |]; unfold slotStartState;
      destruct (byService _ _ _ _) as [|ev evs]; try done; try (by eexists).
    - rewrite Hc. by eexists.
    - rewrite Hc. by eexists. }
  rewrite !Hst. apply IH. intros s Hs. apply Ha. by right.
Qed.
End FillSpec.

Module BackfillTheorems.

(** C32: The fill of a slot is exactly its timeline: sorted by time and
    service, it consists, repetitions counted, of one sample per service and
    tick, at the start and every interval after it before the end, carrying
    the state that the transitions up to that tick leave, and of one sample
    per transition of a service in the window, at its own time. *)
Theorem fill_is_the_slot_timeline journalctl loc services start end_ events interval current out :
  0 < interval → start < end_ →
  in_i64 (start / Millisecond) → in_i64 (end_ / Millisecond) →
  BuildStateFill journalctl loc services start end_ events interval current = Ok out →
  ∃ state0 : string → AvailabilityState,
    (∀ service, service ∈ services →
       slotStartState journalctl loc service start (byService start end_ events service) current
         = Ok (state0 service)) ∧
    StronglySorted (time_name_le StateSample.TimestampUnixMS StateSample.Service) out ∧
    out ≡ₚ services ≫= λ service,
      ((λ j, let ms := UnixMilli (start + j * interval) in
             sample service (state_at (byService start end_ events service) (state0 service) ms) ms)
         <$> seqZ 0 ((end_ - start + interval - 1) / interval)) ++
      (event_sample service <$> filter (λ ev, in_window start end_ ev ∧ Event.Service ev = service) events).
Proof.
  intros Hi Hlt Hstart Hend Hb. unfold BuildStateFill in Hb.
  rewrite (proj2 (Z.leb_gt _ _) Hi) in Hb. unfold After in Hb.
  rewrite (proj2 (Z.ltb_lt _ _) Hlt) in Hb. simpl in Hb.
  destruct (fill_services _ _ _ _ _ _ _ _ _) as [out0|] eqn:Hf; simplify_eq.
  apply fill_services_spec in Hf as (state0 & Hs & ->). exists state0.
  split_and!; [done|apply time_name_sorted|]. rewrite sort_stable_Permutation. cbn [app].
  apply bind_Permutation_ext. intros service. rewrite fill_ticks_spec; [|apply byService_sorted|by apply ticks_ordered].
  apply Permutation_app.
  - unfold tick_samples. rewrite ticks_times by done. unfold tick_times. by rewrite <-list_fmap_compose.
  - by rewrite byService_Permutation.
Qed.

(** When every service has a transition in the slot or a known current state,
    building the fill succeeds and does not depend on the journal at all. *)
Theorem fill_of_known_units_never_fails j1 l1 j2 l2 services start end_ events interval current :
  (∀ service, service ∈ services → anchored start end_ events current service) →
  ∃ out, BuildStateFill j1 l1 services start end_ events interval current = Ok out ∧
         BuildStateFill j2 l2 services start end_ events interval current = Ok out.
Proof.
  intros Ha. unfold BuildStateFill. case_match; [by eauto|].
  destruct (fill_services_anchored j1 l1 services start end_ events interval current j2 l2 [] Ha)
    as (out & -> & ->). by eauto.
Qed.

(** ** Witnesses *)

(** A slot of three minutes in which the unit stops at 90 seconds. *)
Definition sample_fill :=
  BuildStateFill JournalTheorems.sample_journal (FixedZone 0)
    ["pcscf.service"] 0 (180 * Second) [sample_event 1 "pcscf.service" StateDown 90000] Minute ∅.

Lemma fill_is_the_slot_timeline_witness :
  ∃ out, sample_fill = Ok out ∧
    out ≡ₚ [sample "pcscf.service" StateUp 0; sample "pcscf.service" StateUp 60000;
            sample "pcscf.service" StateDown 120000; sample "pcscf.service" StateDown 90000].
Proof.
  eexists. split; [by vm_compute|].
  destruct (fill_is_the_slot_timeline JournalTheorems.sample_journal (FixedZone 0) ["pcscf.service"] 0 (180 * Second) [sample_event 1 "pcscf.service" StateDown 90000]
    Minute ∅ _ ltac:(done) ltac:(done) ltac:(done) ltac:(done) ltac:(by vm_compute)) as (state0 & Hs & _ & Hp).
  specialize (Hs "pcscf.service" ltac:(by left)). vm_compute in Hs. injection Hs as Hs.
  etransitivity; [exact Hp|]. rewrite bind_cons, <-Hs. vm_compute. reflexivity.
Defined.

Lemma fill_of_known_units_never_fails_witness :
  ∃ out, BuildStateFill (λ _, Err (StartError "no journalctl")) (FixedZone 3600)
    ["pcscf.service"] 0 (180 * Second) [] Minute {["pcscf.service" := StateUp]} = Ok out.
Proof.
  destruct (fill_of_known_units_never_fails (λ _, Err (StartError "no journalctl")) (FixedZone 3600)
    JournalTheorems.sample_journal (FixedZone 0) ["pcscf.service"] 0
    (180 * Second) [] Minute {["pcscf.service" := StateUp]}) as (out & Hout & _); [|by exists out].
  intros service ->%list_elem_of_singleton. right. left. by vm_compute.
Defined.

End BackfillTheorems.
