(* ===== verification/GoOS.v ===== *)
(** * GoOS: files as the exporter uses them

    The operating system is an adversary: every call consults an oracle that
    may let it fail with any error number, and a write may stop short. A file
    records how many of its bytes are known to be on stable storage, so that a
    crash can be described as losing a suffix that was not synced.

    Effects are explicit: a call is a function from the world to its results
    and the next world, sequenced by the state monad below. *)

From S2P Require Import Prelude GoStrings.

(** ** The state monad *)

Definition M (S A : Type) : Type := S → A * S.
Definition ret {S A} (a : A) : M S A := λ s, (a, s).
Definition bind {S A B} (m : M S A) (f : A → M S B) : M S B :=
  λ s, let '(a, s') := m s in f a s'.

Declare Scope go_scope.
#[global] Open Scope go_scope.
Notation "x <- m ;; k" := (bind m (λ x, k))
  (at level 100, m at next level, right associativity) : go_scope.
Notation "' p <- m ;; k" := (bind m (λ x, match x with p => k end))
  (at level 100, p pattern, m at next level, right associativity) : go_scope.

(** A call on one half of the state. *)
Definition on_snd {S T A} (m : M T A) : M (S * T) A :=
  λ '(s, t), let '(a, t') := m t in (a, (s, t')).
Definition get {S} : M S S := λ s, (s, s).
Definition modify_fst {S T} (f : S → S) : M (S * T) unit := λ '(s, t), (tt, (f s, t)).
Definition get_fst {S T} : M (S * T) S := λ '(s, t), (s, (s, t)).

(** ** Errors *)

(** Go errors as far as callers can tell them apart: an error number of the
    kernel, the sentinels of [io], an encoder's complaint, a fresh message, and any of these
    wrapped with [%w]. *)
Inductive goerror :=
  | Errno (n : Z)
  | ErrShortWrite
  | ErrDecode
  | ErrNew (msg : string)
  | Wrap (msg : string) (e : goerror).

(** [errors.Is(err, syscall.Errno(n))]. *)
Fixpoint is_errno (n : Z) (e : goerror) : bool :=
  match e with
  | Errno m => m =? n
  | Wrap _ e' => is_errno n e'
  | _ => false
  end.

Definition ENOENT : Z := 2.
Definition EEXIST : Z := 17.

(** [os.IsNotExist] and [os.IsExist] look at the error itself, not through a
    wrapping. *)
Definition IsNotExist (e : goerror) : bool := match e with Errno n => n =? ENOENT | _ => false end.
Definition IsExist (e : goerror) : bool := match e with Errno n => n =? EEXIST | _ => false end.

(** ** Files and faults *)

Record file := File { content : bytes; synced : nat }.
Record world := World { files : gmap string file; ticks : nat }.

Inductive syscall :=
  | SysOpen | SysRead | SysWrite | SysSync | SysSeek | SysTruncate | SysClose
  | SysRename | SysRemove | SysMkdir | SysStat | SysOpenDir | SysSyncDir | SysCloseDir.

(** [Fail errno n] and [Short n] apply to a write after its first [n] bytes. *)
Inductive fault := Fine | Fail (errno : Z) (n : nat) | Short (n : nat).
Definition oracle := syscall → nat → fault.

(** [filepath.Dir(path)] on a cleaned path: what precedes the last slash. *)
Definition Dir (path : string) : string :=
  match list_find (λ c, c = "/"%char) (reverse (to_bytes path)) with
  | Some (i, _) => if (S i =? length (to_bytes path))%nat then "/" else of_bytes (take (length (to_bytes path) - S i) (to_bytes path))
  | None => "."
  end.

(** No call fails by claiming that a file is missing or that it exists: what
    is true of that is part of the calls below. *)
Definition honest (faults : oracle) : Prop :=
  ∀ c n errno k, faults c n = Fail errno k → errno ≠ ENOENT ∧ errno ≠ EEXIST.

(** [filepath.Join(dir, name)]. *)
Definition Join (dir name : string) : string := dir +:+ "/" +:+ name.

Section OS.
Context (faults : oracle).

Definition next (c : syscall) : M world fault :=
  λ w, (faults c (ticks w), World (files w) (S (ticks w))).

(** A call that either fails without effect or has the effect [f]. *)
Definition simple_call (c : syscall) (f : gmap string file → gmap string file)
    : M world (option goerror) :=
  x <- next c;;
  λ w, match x with
       | Fail errno _ => (Some (Errno errno), w)
       | _ => (None, World (f (files w)) (ticks w))
       end.

Definition file_at (path : string) (fs : gmap string file) : file := default (File [] 0) (fs !! path).

(** [f.Seek(0, io.SeekEnd)]. *)
Definition File_SeekEnd (path : string) : M world (result goerror nat) :=
  x <- next SysSeek;;
  λ w, match x with
       | Fail errno _ => (Err (Errno errno), w)
       | _ => (Ok (length (content (file_at path (files w)))), w)
       end.

Definition append_bytes (path : string) (data : bytes) (fs : gmap string file) : gmap string file :=
  let f := file_at path fs in <[path := File (content f ++ data) (synced f)]> fs.

(** [f.Write(data)] on a file opened for appending. *)
Definition File_Write (path : string) (data : bytes) : M world (nat * option goerror) :=
  x <- next SysWrite;;
  λ w, match x with
       | Fine => ((length data, None), World (append_bytes path data (files w)) (ticks w))
       | Fail errno n =>
           ((length (take n data), Some (Errno errno)),
            World (append_bytes path (take n data) (files w)) (ticks w))
       | Short n =>
           ((length (take n data), None),
            World (append_bytes path (take n data) (files w)) (ticks w))
       end.

(** [Write] of an [os.File], which reports a short write as an error. *)
Definition File_WriteAll (path : string) (data : bytes) : M world (option goerror) :=
  '(n, e) <- File_Write path data;;
  ret (match e with
       | Some e => Some e
       | None => if (n =? length data)%nat then None else Some ErrShortWrite
       end).

Definition File_Truncate (path : string) (size : nat) : M world (option goerror) :=
  simple_call SysTruncate (λ fs,
    let f := file_at path fs in <[path := File (take size (content f)) (min size (synced f))]> fs).

Definition File_Sync (path : string) : M world (option goerror) :=
  simple_call SysSync (λ fs,
    let f := file_at path fs in <[path := File (content f) (length (content f))]> fs).

Definition File_Close (path : string) : M world (option goerror) := simple_call SysClose id.

(** [os.OpenFile] with [O_CREATE|O_TRUNC|O_WRONLY], and with
    [O_CREATE|O_APPEND|O_WRONLY]. *)
Definition OpenTrunc (path : string) : M world (option goerror) :=
  simple_call SysOpen (λ fs, <[path := File [] 0]> fs).
Definition OpenAppend (path : string) : M world (option goerror) :=
  simple_call SysOpen (λ fs, <[path := file_at path fs]> fs).

(** [os.OpenFile] with [O_WRONLY|O_CREATE|O_EXCL]. *)
Definition OpenExcl (path : string) : M world (option goerror) :=
  x <- next SysOpen;;
  λ w, match x, files w !! path with
       | Fail errno _, _ => (Some (Errno errno), w)
       | _, Some _ => (Some (Errno EEXIST), w)
       | _, None => (None, World (<[path := File [] 0]> (files w)) (ticks w))
       end.

Definition Remove (path : string) : M world (option goerror) :=
  x <- next SysRemove;;
  λ w, match x, files w !! path with
       | Fail errno _, _ => (Some (Errno errno), w)
       | _, None => (Some (Errno ENOENT), w)
       | _, Some _ => (None, World (delete path (files w)) (ticks w))
       end.

Definition Rename (from to : string) : M world (option goerror) :=
  x <- next SysRename;;
  λ w, match x, files w !! from with
       | Fail errno _, _ => (Some (Errno errno), w)
       | _, None => (Some (Errno ENOENT), w)
       | _, Some f => (None, World (<[to := f]> (delete from (files w))) (ticks w))
       end.

Definition MkdirAll (dir : string) : M world (option goerror) := simple_call SysMkdir id.
Definition OpenDir (dir : string) : M world (option goerror) := simple_call SysOpenDir id.
Definition SyncDir (dir : string) : M world (option goerror) := simple_call SysSyncDir id.
Definition CloseDir (dir : string) : M world (option goerror) := simple_call SysCloseDir id.

(** [os.Open] for reading: the file must exist. *)
Definition OpenRead (path : string) : M world (result goerror file) :=
  x <- next SysOpen;;
  λ w, match x, files w !! path with
       | Fail errno _, _ => (Err (Errno errno), w)
       | _, None => (Err (Errno ENOENT), w)
       | _, Some f => (Ok f, w)
       end.

(** Reading an open file to its end: the bytes delivered, and the error that
    ended the reading when it was not the end of the file. *)
Definition ReadToEnd (f : file) : M world (bytes * option goerror) :=
  x <- next SysRead;;
  λ w, match x with
       | Fail errno n => ((take n (content f), Some (Errno errno)), w)
       | _ => ((content f, None), w)
       end.

(** [os.ReadFile]. *)
Definition ReadFile (path : string) : M world (result goerror bytes) :=
  r <- OpenRead path;;
  match r with
  | Err e => ret (Err e)
  | Ok f =>
      '(data, e) <- ReadToEnd f;;
      ret (match e with Some e => Err e | None => Ok data end)
  end.

(** [os.Stat], as an existence check. *)
Definition Stat (path : string) : M world (option goerror) :=
  x <- next SysStat;;
  λ w, match x, files w !! path with
       | Fail errno _, _ => (Some (Errno errno), w)
       | _, None => (Some (Errno ENOENT), w)
       | _, Some _ => (None, w)
       end.

(** [os.WriteFile]: create or truncate, write, close. *)
Definition WriteFile (path : string) (data : bytes) : M world (option goerror) :=
  e <- OpenTrunc path;;
  match e with
  | Some e => ret (Some e)
  | None =>
      e <- File_WriteAll path data;;
      c <- File_Close path;;
      ret (match e with Some e => Some e | None => c end)
  end.
End OS.

Lemma file_at_insert p f fs : file_at p (<[p := f]> fs) = f.
Proof. unfold file_at. by rewrite lookup_insert_eq. Qed.

(** ** Crashes *)

(** After a crash a file keeps what was synced and some prefix of the rest. *)
Definition crash_file (f f' : file) : Prop :=
  ∃ n, (synced f <= n)%nat ∧ content f' = take n (content f).

(** The paths the exporter uses in one directory are distinct. *)
Lemma append_inj (d a b : string) : d +:+ a = d +:+ b → a = b.
Proof. induction d as [|c d IH]; simpl; [done|]. intros [= H]. by apply IH. Qed.

Lemma Join_inj dir a b : Join dir a = Join dir b → a = b.
Proof. unfold Join. intros H. by apply append_inj, append_inj in H. Qed.

(** ** Reasoning about sequences of calls *)

Lemma bind_inv {S A B} (m : M S A) (f : A → M S B) s b s'' :
  bind m f s = (b, s'') → ∃ a s', m s = (a, s') ∧ f a s' = (b, s'').
Proof. unfold bind. destruct (m s) as [a s']. eauto. Qed.

(** Split a run of [x <- m;; k] into the run of [m] and the run of [k]. *)
Tactic Notation "bind_inv" hyp(H) "as" ident(a) ident(s) ident(Hm) :=
  apply bind_inv in H as (a & s & Hm & H).

Lemma on_snd_inv {S T A} (m : M T A) (s : S) (t : T) a st :
  on_snd m (s, t) = (a, st) → ∃ t', m t = (a, t') ∧ st = (s, t').
Proof. unfold on_snd. destruct (m t). intros [= <- <-]. eauto. Qed.

(** [m] does not touch the file at [p]. *)
Definition leaves {A} (p : string) (m : M world A) : Prop :=
  ∀ w a w', m w = (a, w') → files w' !! p = files w !! p.

Section Frame.
Context (faults : oracle).

Lemma leaves_ret {A} p (a : A) : leaves p (ret a).
Proof. intros w ? w' [= <- <-]. done. Qed.

Lemma leaves_bind {A B} p (m : M world A) (f : A → M world B) :
  leaves p m → (∀ a, leaves p (f a)) → leaves p (bind m f).
Proof.
  intros Hm Hf w b w' Hb. bind_inv Hb as a w1 Hma.
  rewrite (Hf _ _ _ _ Hb). by eapply Hm.
Qed.

Lemma leaves_simple p c f :
  (∀ fs, f fs !! p = fs !! p) → leaves p (simple_call faults c f).
Proof.
  intros Hf w e w' H. unfold simple_call, bind, next in H.
  destruct (faults c (ticks w)); simplify_eq/=; auto.
Qed.

Lemma leaves_sync p q : q ≠ p → leaves p (File_Sync faults q).
Proof. intros. apply leaves_simple. intros fs. by apply lookup_insert_ne. Qed.
Lemma leaves_truncate p q n : q ≠ p → leaves p (File_Truncate faults q n).
Proof. intros. apply leaves_simple. intros fs. by apply lookup_insert_ne. Qed.
Lemma leaves_close p q : leaves p (File_Close faults q).
Proof. by apply leaves_simple. Qed.
Lemma leaves_open_trunc p q : q ≠ p → leaves p (OpenTrunc faults q).
Proof. intros. apply leaves_simple. intros fs. by apply lookup_insert_ne. Qed.
Lemma leaves_open_append p q : q ≠ p → leaves p (OpenAppend faults q).
Proof. intros. apply leaves_simple. intros fs. by apply lookup_insert_ne. Qed.
Lemma leaves_mkdir p d : leaves p (MkdirAll faults d).
Proof. by apply leaves_simple. Qed.
Lemma leaves_open_dir p d : leaves p (OpenDir faults d).
Proof. by apply leaves_simple. Qed.
Lemma leaves_sync_dir p d : leaves p (SyncDir faults d).
Proof. by apply leaves_simple. Qed.
Lemma leaves_close_dir p d : leaves p (CloseDir faults d).
Proof. by apply leaves_simple. Qed.

Lemma leaves_write p q data : q ≠ p → leaves p (File_Write faults q data).
Proof.
  intros Hne w e w' H. unfold File_Write, bind, next, append_bytes in H.
  destruct (faults SysWrite (ticks w)); simplify_eq/=; by rewrite lookup_insert_ne.
Qed.
Lemma leaves_remove p q : q ≠ p → leaves p (Remove faults q).
Proof.
  intros Hne w e w' H. unfold Remove, bind, next in H. simpl in H.
  repeat case_match; simplify_eq/=; try done; by rewrite lookup_delete_ne.
Qed.
Lemma leaves_rename p q r : q ≠ p → r ≠ p → leaves p (Rename faults q r).
Proof.
  intros Hq Hr w e w' H. unfold Rename, bind, next in H. simpl in H.
  repeat case_match; simplify_eq/=; try done; by rewrite lookup_insert_ne, lookup_delete_ne.
Qed.
Lemma leaves_open_read p q : leaves p (OpenRead faults q).
Proof.
  intros w e w' H. unfold OpenRead, bind, next in H. simpl in H.
  repeat case_match; by simplify_eq/=.
Qed.
Lemma leaves_read p f : leaves p (ReadToEnd faults f).
Proof.
  intros w e w' H. unfold ReadToEnd, bind, next in H. simpl in H. case_match; by simplify_eq/=.
Qed.
Lemma leaves_read_file p q : leaves p (ReadFile faults q).
Proof.
  unfold ReadFile. apply leaves_bind; [apply leaves_open_read|]. intros [f|e]; [|apply leaves_ret].
  apply leaves_bind; [apply leaves_read|]. intros [data e]. apply leaves_ret.
Qed.
End Frame.

(** ** Opening and reading an existing file *)

Lemma OpenRead_existing faults path f wd r wd' :
  files wd !! path = Some f → OpenRead faults path wd = (r, wd') →
  files wd' = files wd ∧ match r with Ok g => g = f | Err e => ∃ c n errno k, faults c n = Fail errno k ∧ e = Errno errno end.
Proof.
  intros Hf H. unfold OpenRead, bind, next in H. simpl in H. rewrite Hf in H.
  destruct (faults SysOpen (ticks wd)) as [|errno k|k] eqn:Hx; simplify_eq/=; try done. split; [done|]. eauto 10.
Qed.

Lemma ReadToEnd_spec faults f wd data e wd' :
  ReadToEnd faults f wd = ((data, e), wd') → files wd' = files wd ∧ (e = None → data = content f).
Proof.
  intros H. unfold ReadToEnd, bind, next in H.
  destruct (faults SysRead (ticks wd)); by simplify_eq/=.
Qed.

Lemma simple_call_spec faults c f wd e wd' :
  simple_call faults c f wd = (e, wd') →
  files wd' = match e with None => f (files wd) | Some _ => files wd end.
Proof.
  intros H. unfold simple_call, bind, next in H. destruct (faults c (ticks wd)); by simplify_eq/=.
Qed.

Create HintDb frame.
#[export] Hint Resolve leaves_ret leaves_bind leaves_sync leaves_truncate leaves_close
  leaves_open_trunc leaves_open_append leaves_mkdir leaves_open_dir leaves_sync_dir
  leaves_close_dir leaves_write leaves_remove leaves_rename leaves_open_read leaves_read leaves_read_file : frame.

(** Close a [leaves] goal by walking through the code. *)
Ltac solve_leaves :=
  repeat first
    [ progress intros
    | solve [eauto 2 with frame]
    | apply leaves_bind
    | match goal with |- leaves _ (match ?x with _ => _ end) => destruct x end ].
