(* ===== verification/Wal.v ===== *)
(** * Wal: internal/wal/wal.go

    The durable event log [events.jsonl] and the state cache [state.json]. The
    log's mutex makes each method atomic. The rate-limited log lines and the
    [lastLog] field that limits them are not modelled.

    [encoding/json] enters through the two interfaces below: what the log needs
    of the encoding of an event and of the state map. *)

From S2P Require Import Prelude GoStrings Model GoOS.

(** ** What the log expects of the encoder *)

Class EventCodec := {
  Marshal_event : Event.t → bytes;
  Unmarshal_event : bytes → option Event.t;
  (** The events for which decoding inverts encoding. *)
  event_ok : Event.t → Prop;
  Marshal_event_line : ∀ ev, newline ∉ Marshal_event ev;
  Marshal_event_trim : ∀ ev,
    Marshal_event ev ≠ [] ∧ bytes_TrimSpace (Marshal_event ev ++ [newline]) = Marshal_event ev;
  Unmarshal_Marshal_event : ∀ ev, event_ok ev → Unmarshal_event (Marshal_event ev) = Some ev;
}.

Class StatesCodec := {
  Marshal_states : gmap string ServiceState.t → bytes;
  Unmarshal_states : bytes → option (gmap string ServiceState.t);
  states_ok : gmap string ServiceState.t → Prop;
  Unmarshal_Marshal_states : ∀ m, states_ok m →
    Unmarshal_states (Marshal_states m ++ [newline]) = Some m;
}.

(** ** Data *)

Definition noSpaceErrno : Z := 28.
Definition diskQuotaErrno : Z := 122.

Module Report.
Record t := mk { SkippedRecords : Z; TruncatedBytes : Z; StateReset : bool }.
Definition zero : t := mk 0 0 false.
Definition Empty (r : t) : bool :=
  (SkippedRecords r =? 0) && (TruncatedBytes r =? 0) && negb (StateReset r).
End Report.

Module WAL.
Record t := mk {
  path : string;                               (* the open [events.jsonl] *)
  fsync : bool;
  dir : string;
  states : gmap string ServiceState.t;
  repaired : Report.t;
  pending : list Event.t;
  stateDirty : bool;
  syncNeeded : bool;
  blocked : bool;
}.

Definition with_states m w := mk (path w) (fsync w) (dir w) m (repaired w) (pending w) (stateDirty w) (syncNeeded w) (blocked w).
Definition with_pending p w := mk (path w) (fsync w) (dir w) (states w) (repaired w) p (stateDirty w) (syncNeeded w) (blocked w).
Definition with_stateDirty b w := mk (path w) (fsync w) (dir w) (states w) (repaired w) (pending w) b (syncNeeded w) (blocked w).
Definition with_syncNeeded b w := mk (path w) (fsync w) (dir w) (states w) (repaired w) (pending w) (stateDirty w) b (blocked w).
Definition with_blocked b w := mk (path w) (fsync w) (dir w) (states w) (repaired w) (pending w) (stateDirty w) (syncNeeded w) b.
End WAL.

Definition isNoSpace (e : goerror) : bool := is_errno noSpaceErrno e || is_errno diskQuotaErrno e.

Section Wal.
Context (faults : oracle) {EC : EventCodec} {SC : StatesCodec}.

Notation W := (M (WAL.t * world)).

(** ** Writing *)

Definition appendRecord (payload : bytes) : W (option goerror) :=
  w <- get_fst;;
  r <- on_snd (File_SeekEnd faults (WAL.path w));;
  match r with
  | Err e => ret (Some (Wrap "seek WAL" e))
  | Ok offset =>
      '(n, e) <- on_snd (File_Write faults (WAL.path w) payload);;
      if bool_decide (e = None) && (n =? length payload)%nat then ret None
      else
        _ <- (if (0 <? n)%nat then on_snd (File_Truncate faults (WAL.path w) offset) else ret None);;
        ret (Some (Wrap "write WAL" (default ErrShortWrite e)))
  end.

Definition writeEventLocked (event : Event.t) : W (option goerror) :=
  e <- appendRecord (Marshal_event event ++ [newline]);;
  match e with
  | Some e => ret (Some e)
  | None =>
      w <- get_fst;;
      if WAL.fsync w then
        e <- on_snd (File_Sync faults (WAL.path w));;
        match e with
        | Some e => _ <- modify_fst (WAL.with_syncNeeded true);; ret (Some (Wrap "sync WAL" e))
        | None => ret None
        end
      else ret None
  end.

(** The temporary file is removed on a failure before the rename. *)
Definition discard (tmp : string) (e : goerror) : M world (option goerror) :=
  _ <- Remove faults tmp;; ret (Some e).

Definition sync_directory (dir : string) : M world (option goerror) :=
  e <- OpenDir faults dir;;
  match e with
  | Some e => ret (Some (Wrap "open WAL state directory" e))
  | None =>
      e <- SyncDir faults dir;;
      match e with
      | Some e => _ <- CloseDir faults dir;; ret (Some (Wrap "sync WAL state directory" e))
      | None =>
          e <- CloseDir faults dir;;
          ret (Wrap "close WAL state directory" <$> e)
      end
  end.

(** The rename, with the fallback that removes the destination first. *)
Definition replace_state (tmp path : string) : M world (option goerror) :=
  e <- Rename faults tmp path;;
  match e with
  | None => ret None
  | Some e =>
      removeErr <- Remove faults path;;
      match removeErr with
      | Some r =>
          if negb (IsNotExist r) then ret (Some (Wrap "replace WAL state" e))
          else e <- Rename faults tmp path;; ret (Wrap "rename WAL state" <$> e)
      | None => e <- Rename faults tmp path;; ret (Wrap "rename WAL state" <$> e)
      end
  end.

Definition writeState (dir : string) (fsync : bool) (states : gmap string ServiceState.t)
    : M world (option goerror) :=
  let path := Join dir "state.json" in
  let tmp := path +:+ ".tmp" in
  e <- OpenTrunc faults tmp;;
  match e with
  | Some e => ret (Some (Wrap "open WAL state temporary file" e))
  | None =>
      let payload := Marshal_states states ++ [newline] in
      '(n, e) <- File_Write faults tmp payload;;
      if negb (bool_decide (e = None) && (n =? length payload)%nat) then
        _ <- File_Close faults tmp;;
        discard tmp (Wrap "write WAL state" (default ErrShortWrite e))
      else
        e <- (if fsync then File_Sync faults tmp else ret None);;
        match e with
        | Some e => _ <- File_Close faults tmp;; discard tmp (Wrap "sync WAL state" e)
        | None =>
            e <- File_Close faults tmp;;
            match e with
            | Some e => discard tmp (Wrap "close WAL state" e)
            | None =>
                e <- replace_state tmp path;;
                match e with
                | Some e => ret (Some e)
                | None => if fsync then sync_directory dir else ret None
                end
            end
        end
  end.

Definition writeStateLocked : W (option goerror) :=
  w <- get_fst;; on_snd (writeState (WAL.dir w) (WAL.fsync w) (WAL.states w)).

(** The loop of [flushLocked] over the pending events. *)
Fixpoint flush_pending (pending : list Event.t) : W (option goerror) :=
  match pending with
  | [] => ret None
  | event :: pending' =>
      err <- writeEventLocked event;;
      w <- get_fst;;
      _ <- (if WAL.syncNeeded w then modify_fst (WAL.with_pending pending') else ret tt);;
      match err with
      | Some e => ret (Some e)
      | None =>
          _ <- (if WAL.syncNeeded w then ret tt else modify_fst (WAL.with_pending pending'));;
          flush_pending pending'
      end
  end.

Definition flushLocked : W (option goerror) :=
  w <- get_fst;;
  err <- (if WAL.syncNeeded w then
            e <- on_snd (File_Sync faults (WAL.path w));;
            match e with
            | Some e => ret (Some (Wrap "sync WAL" e))
            | None => _ <- modify_fst (WAL.with_syncNeeded false);; ret None
            end
          else ret None);;
  match err with
  | Some e => ret (Some e)
  | None =>
      err <- flush_pending (WAL.pending w);;
      match err with
      | Some e => ret (Some e)
      | None =>
          w <- get_fst;;
          if WAL.stateDirty w then
            err <- writeStateLocked;;
            match err with
            | Some e => ret (Some e)
            | None => _ <- modify_fst (WAL.with_stateDirty false);; ret None
            end
          else ret None
      end
  end.

Definition remember (event : Event.t) : W unit :=
  modify_fst (λ w, WAL.with_pending (WAL.pending w ++ [event]) w).
Definition block : W unit := modify_fst (WAL.with_blocked true).
Definition unblock : W unit := modify_fst (WAL.with_blocked false).

Definition Append (event : Event.t) : W (option goerror) :=
  err <- flushLocked;;
  match err with
  | Some e =>
      if negb (isNoSpace e) then ret (Some e)
      else _ <- remember event;; _ <- block;; ret None
  | None =>
      err <- writeEventLocked event;;
      match err with
      | Some e =>
          if negb (isNoSpace e) then ret (Some e)
          else
            w <- get_fst;;
            _ <- (if WAL.syncNeeded w then ret tt else remember event);;
            _ <- block;; ret None
      | None => _ <- unblock;; ret None
      end
  end.

Definition SaveState (state : ServiceState.t) : W (option goerror) :=
  _ <- modify_fst (λ w, WAL.with_stateDirty true
                          (WAL.with_states (<[ServiceState.Service state := state]> (WAL.states w)) w));;
  err <- flushLocked;;
  match err with
  | Some e => if negb (isNoSpace e) then ret (Some e) else _ <- block;; ret None
  | None => _ <- unblock;; ret None
  end.

Definition Writable (w : WAL.t) : bool := negb (WAL.blocked w).
Definition Pending (w : WAL.t) : Z := #(WAL.pending w).
Definition Repaired (w : WAL.t) : Report.t := WAL.repaired w.

(** The values of the state map, in the order of some iteration. *)
Definition States (w : WAL.t) : list ServiceState.t := (map_to_list (WAL.states w)).*2.

(** ** Reading *)

(** The complete lines of a log, newline included, and what follows the last. *)
Fixpoint split_lines (data : bytes) : list bytes * bytes :=
  match data with
  | [] => ([], [])
  | c :: data' =>
      let '(lines, tail) := split_lines data' in
      if decide (c = newline) then ([c] :: lines, tail)
      else match lines with
           | [] => ([], c :: tail)
           | l :: lines' => ((c :: l) :: lines', tail)
           end
  end.

(** One complete line: blank, undecodable, or an event. *)
Fixpoint decode_lines (lines : list bytes) : list Event.t * Z * Z :=
  match lines with
  | [] => ([], 0, 0)
  | line :: lines' =>
      let '(events, skipped, complete) := decode_lines lines' in
      let payload := bytes_TrimSpace line in
      let complete' := #line + complete in
      if decide (payload = []) then (events, skipped, complete')
      else match Unmarshal_event payload with
           | None => (events, skipped + 1, complete')
           | Some event => (event :: events, skipped, complete')
           end
  end.

(** [readRecords] on the bytes read; a read error other than the end of the
    file is returned by its caller. *)
Definition readRecords (data : bytes) : list Event.t * Report.t * Z :=
  let '(lines, tail) := split_lines data in
  let '(events, skipped, complete) := decode_lines lines in
  (events, Report.mk skipped #tail false, complete).

Definition ReadAll (path : string) : M world (list Event.t * Report.t * option goerror) :=
  r <- OpenRead faults path;;
  match r with
  | Err e => ret ([], Report.zero, Some e)
  | Ok f =>
      '(data, e) <- ReadToEnd faults f;;
      let '(events, report, _) := readRecords data in
      ret (events, report, Wrap "read WAL" <$> e)
  end.

Definition Repair (path : string) : M world (Report.t * option goerror) :=
  r <- OpenRead faults path;;
  match r with
  | Err e =>
      if IsNotExist e then ret (Report.zero, None)
      else ret (Report.zero, Some (Wrap "open WAL for repair" e))
  | Ok f =>
      '(data, e) <- ReadToEnd faults f;;
      let '(_, found, complete) := readRecords data in
      _ <- File_Close faults path;;
      match e with
      | Some e => ret (Report.zero, Some (Wrap "read WAL" e))
      | None =>
          let report := Report.mk 0 (Report.TruncatedBytes found) false in
          if 0 <? Report.TruncatedBytes report then
            e <- File_Truncate faults path (Z.to_nat complete);;
            ret (report, Wrap "truncate interrupted WAL record" <$> e)
          else ret (report, None)
      end
  end.

Definition Open (dir : string) (fsync : bool) : M world (result goerror WAL.t) :=
  let path := Join dir "events.jsonl" in
  e <- MkdirAll faults dir;;
  match e with
  | Some e => ret (Err (Wrap "create WAL directory" e))
  | None =>
      '(report, e) <- Repair path;;
      match e with
      | Some e => ret (Err e)
      | None =>
          e <- OpenAppend faults path;;
          match e with
          | Some e => ret (Err (Wrap "open WAL" e))
          | None =>
              r <- ReadFile faults (Join dir "state.json");;
              let w := WAL.mk path fsync dir ∅ report [] false false false in
              match r with
              | Ok data =>
                  match Unmarshal_states data with
                  | Some m => ret (Ok (WAL.with_states m w))
                  | None =>
                      ret (Ok (WAL.mk path fsync dir ∅
                        (Report.mk (Report.SkippedRecords report) (Report.TruncatedBytes report) true)
                        [] false false false))
                  end
              | Err e =>
                  if negb (IsNotExist e) then
                    _ <- File_Close faults path;; ret (Err (Wrap "read WAL state" e))
                  else ret (Ok w)
              end
          end
      end
  end.

Definition Close : W (option goerror) :=
  w <- get_fst;; on_snd (File_Close faults (WAL.path w)).
End Wal.
