(* ===== verification/Codec.v ===== *)
(** * Codec: the JSON encoding satisfies what the log expects of it *)

From S2P Require Import Prelude GoStrings Model Json GoOS Wal.

#[export] Instance json_events : EventCodec := {|
  Marshal_event := marshal_event;
  Unmarshal_event := unmarshal_event;
  event_ok := json_event;
  Marshal_event_line := marshal_event_no_newline;
  Marshal_event_trim := marshal_event_trim;
  Unmarshal_Marshal_event := λ e He,
    eq_trans (f_equal unmarshal_event (eq_sym (app_nil_r (marshal_event e))))
      (unmarshal_marshal_event e [] He (List.Forall_nil _));
|}.

#[export] Instance json_state_cache : StatesCodec := {|
  Marshal_states := marshal_states;
  Unmarshal_states := unmarshal_states;
  states_ok := json_states;
  Unmarshal_Marshal_states := unmarshal_marshal_states;
|}.
