(* ===== verification/WalFacts.v ===== *)
(** * WalFacts: specifications of the log's operations

    The one call whose failure the log cannot survive is the truncation that
    rolls a partial record back: its error is ignored, so every specification
    assumes truncations succeed. All other calls may fail at any time. *)

From S2P Require Import Prelude GoStrings Model GoOS Wal.

Section WalFacts.
Context (faults : oracle) {EC : EventCodec} {SC : StatesCodec}.

Definition truncate_reliable : Prop := ∀ n, faults SysTruncate n = Fine.

(** The bytes of a sequence of events. *)
Definition encode_line (ev : Event.t) : bytes := Marshal_event ev ++ [newline].
Definition encode_all (evs : list Event.t) : bytes := concat (encode_line <$> evs).

Lemma encode_all_app evs1 evs2 : encode_all (evs1 ++ evs2) = encode_all evs1 ++ encode_all evs2.
Proof. unfold encode_all. by rewrite fmap_app, concat_app. Qed.

Lemma encode_all_one ev : encode_all [ev] = encode_line ev.
Proof. unfold encode_all. simpl. apply app_nil_r. Qed.

Lemma encode_all_cons ev evs : encode_all (ev :: evs) = encode_line ev ++ encode_all evs.
Proof. done. Qed.

Lemma log_nothing b : b ++ encode_all [] = b.
Proof. apply app_nil_r. Qed.

Definition log_file (w : WAL.t) (wd : world) : file := file_at (WAL.path w) (files wd).
Definition log_bytes (w : WAL.t) (wd : world) : bytes := content (log_file w wd).

(** ** Single calls *)

Lemma File_Write_spec path data wd n e wd' :
  File_Write faults path data wd = ((n, e), wd') →
  ∃ k, n = length (take k data) ∧
    content (file_at path (files wd')) = content (file_at path (files wd)) ++ take k data ∧
    synced (file_at path (files wd')) = synced (file_at path (files wd)).
Proof.
  unfold File_Write, bind, next, append_bytes. intros H.
  destruct (faults SysWrite (ticks wd)) as [|errno k|k]; simplify_eq/=;
    [exists (length data); rewrite firstn_all|exists k|exists k]; by rewrite file_at_insert.
Qed.

Lemma File_Sync_spec path wd e wd' :
  File_Sync faults path wd = (e, wd') →
  content (file_at path (files wd')) = content (file_at path (files wd)) ∧
  match e with
  | None => synced (file_at path (files wd')) = length (content (file_at path (files wd')))
  | Some _ => files wd' = files wd
  end.
Proof.
  unfold File_Sync, simple_call, bind, next. intros H.
  destruct (faults SysSync (ticks wd)); simplify_eq/=; try done; by rewrite file_at_insert.
Qed.

Lemma File_Truncate_spec path size wd e wd' :
  truncate_reliable → File_Truncate faults path size wd = (e, wd') →
  content (file_at path (files wd')) = take size (content (file_at path (files wd))) ∧
  synced (file_at path (files wd')) = (size `min` synced (file_at path (files wd)))%nat.
Proof.
  intros Ht. unfold File_Truncate, simple_call, bind, next. rewrite Ht. intros H. simplify_eq/=.
  by rewrite file_at_insert.
Qed.

(** A record is appended whole or not at all. *)
Lemma appendRecord_spec payload w wd e w' wd' :
  truncate_reliable → appendRecord faults payload (w, wd) = (e, (w', wd')) →
  w' = w ∧ log_bytes w wd' =
    match e with None => log_bytes w wd ++ payload | Some _ => log_bytes w wd end ∧
  ((synced (log_file w wd) <= length (log_bytes w wd))%nat →
    synced (log_file w wd') = synced (log_file w wd)).
Proof.
  intros Ht H. unfold appendRecord in H. bind_inv H as w0 s0 H0. injection H0 as <- <-.
  bind_inv H as r s1 H1. apply on_snd_inv in H1 as (wd1 & H1 & ->).
  assert (files wd1 = files wd ∧
    ∀ off, r = Ok off → off = length (log_bytes w wd)) as [Hfs Hoff].
  { unfold File_SeekEnd, bind, next in H1. simpl in H1.
    clear H. destruct (faults SysSeek (ticks wd)); simplify_eq/=;
      (split; [done|]); intros off Hoff; by simplify_eq. }
  destruct r as [off|e1]; [|injection H as <- <- <-; unfold log_bytes, log_file; by rewrite Hfs].
  specialize (Hoff _ eq_refl) as ->.
  bind_inv H as ne s2 H2. apply on_snd_inv in H2 as (wd2 & H2 & ->). destruct ne as [n e2].
  apply File_Write_spec in H2 as (k & -> & Hc & Hs).
  assert (log_bytes w wd2 = log_bytes w wd ++ take k payload) as Hc'
    by (unfold log_bytes, log_file; by rewrite Hc, Hfs).
  assert (synced (log_file w wd2) = synced (log_file w wd)) as Hs'
    by (unfold log_file; by rewrite Hs, Hfs).
  case_match eqn:Hok.
  - injection H as <- <- <-. split; [done|]. rewrite Hc'. apply andb_true_iff in Hok as [_ Hn].
    apply Nat.eqb_eq in Hn. rewrite length_take in Hn. rewrite take_ge; [done|lia].
  - bind_inv H as u s3 H3. injection H as <- ->. destruct (0 <? length (take k payload))%nat eqn:Hn.
    + apply on_snd_inv in H3 as (wd3 & H3 & [= -> ->]).
      apply File_Truncate_spec in H3 as [H3 H4]; [|done]. split; [done|].
      fold (log_file w wd3) in H3, H4. fold (log_file w wd2) in H3, H4. fold (log_bytes w wd2) in H3.
      unfold log_bytes at 1. rewrite H3, H4, Hs', Hc', take_app_length. split; [done|lia].
    + injection H3 as _ -> ->. split; [done|]. apply Nat.ltb_ge in Hn.
      destruct (take k payload); simpl in Hn; [by rewrite Hc', app_nil_r|lia].
Qed.

Lemma writeEventLocked_spec ev w wd e w' wd' :
  truncate_reliable → writeEventLocked faults ev (w, wd) = (e, (w', wd')) →
  match e with
  | None => w' = w ∧ log_bytes w wd' = log_bytes w wd ++ encode_line ev ∧
      (WAL.fsync w = true → synced (log_file w wd') = length (log_bytes w wd'))
  | Some _ =>
      (w' = w ∧ log_bytes w wd' = log_bytes w wd) ∨
      (w' = WAL.with_syncNeeded true w ∧ log_bytes w wd' = log_bytes w wd ++ encode_line ev)
  end.
Proof.
  intros Ht H. unfold writeEventLocked in H. bind_inv H as e0 s0 H0. destruct s0 as [w0 wd0].
  apply appendRecord_spec in H0 as (-> & Hc & _); [|done].
  destruct e0 as [e0|]; [injection H as <- <- <-; by left|].
  bind_inv H as w1 s1 H1. injection H1 as <- <-.
  destruct (WAL.fsync w) eqn:Hf; [|injection H as <- <- <-; done].
  bind_inv H as e1 s2 H2. apply on_snd_inv in H2 as (wd2 & H2 & ->).
  apply File_Sync_spec in H2 as [Hs Hd]. fold (log_file w wd2) in Hs, Hd. fold (log_file w wd0) in Hs.
  fold (log_bytes w wd2) in Hs, Hd. fold (log_bytes w wd0) in Hs.
  destruct e1 as [e1|].
  - injection H as <- <- <-. right. by rewrite Hs.
  - injection H as <- <- <-. rewrite Hs, Hc. split_and!; [done|done|].
    intros _. rewrite Hd. by rewrite Hs, Hc.
Qed.

(** ** Flushing *)

(** Updates of the fields a flush may change. *)
Definition flushed (w : WAL.t) (rest : list Event.t) (sync dirty : bool) : WAL.t :=
  WAL.with_stateDirty dirty (WAL.with_syncNeeded sync (WAL.with_pending rest w)).

Lemma flushed_id w : w = flushed w (WAL.pending w) (WAL.syncNeeded w) (WAL.stateDirty w).
Proof. by destruct w. Qed.

Lemma flush_pending_spec pend : ∀ w wd e w' wd',
  truncate_reliable → WAL.syncNeeded w = false → WAL.pending w = pend →
  flush_pending faults pend (w, wd) = (e, (w', wd')) →
  ∃ done_ rest sync, pend = done_ ++ rest ∧ w' = flushed w rest sync (WAL.stateDirty w) ∧
    log_bytes w wd' = log_bytes w wd ++ encode_all done_ ∧
    (e = None → rest = [] ∧ sync = false).
Proof.
  induction pend as [|ev pend IH]; intros w wd e w' wd' Ht Hsync Hp H; simpl in H.
  { injection H as <- <- <-. exists [], [], false. rewrite log_nothing.
    split_and!; try done. rewrite <-Hp, <-Hsync. apply flushed_id. }
  bind_inv H as e1 s1 H1. destruct s1 as [w1 wd1]. apply writeEventLocked_spec in H1; [|done].
  bind_inv H as w2 s2 H2. injection H2 as <- <-.
  bind_inv H as u s3 H3. destruct e1 as [e1|].
  - injection H as <- ->. destruct H1 as [[-> Hc]|[-> Hc]].
    + rewrite Hsync in H3. injection H3 as _ <- <-. exists [], (ev :: pend), false.
      rewrite Hc, log_nothing. split_and!; try done. rewrite <-Hp, <-Hsync. apply flushed_id.
    + injection H3 as _ <- <-. exists [ev], pend, true.
      by rewrite encode_all_one.
  - destruct H1 as (-> & Hc & _). rewrite Hsync in H3, H. injection H3 as _ <-.
    bind_inv H as u2 s4 H4. injection H4 as _ <-.
    apply IH in H as (d & rest & sync & -> & -> & Hc' & Hnone); [|done|done|done].
    exists (ev :: d), rest, sync. split_and!; try done.
    change (log_bytes w wd') with (log_bytes (WAL.with_pending (d ++ rest) w) wd').
    rewrite Hc'. change (log_bytes (WAL.with_pending (d ++ rest) w) wd1) with (log_bytes w wd1).
    rewrite Hc. rewrite encode_all_cons.
    by rewrite <-app_assoc.
Qed.

Definition wf_wal (w : WAL.t) : Prop := WAL.path w = Join (WAL.dir w) "events.jsonl".

Lemma state_paths_distinct dir :
  Join dir "state.json" ≠ Join dir "events.jsonl" ∧
  Join dir "state.json" +:+ ".tmp" ≠ Join dir "events.jsonl".
Proof.
  split; [by intros ?%Join_inj|]. intros H.
  assert (Join dir "state.json" +:+ ".tmp" = Join dir "state.json.tmp") as Hj.
  { unfold Join. clear. induction dir as [|c dir IH]; [done|].
    exact (f_equal (String c) IH). }
  rewrite Hj in H. by apply Join_inj in H.
Qed.

(** Rewriting the state cache leaves the event log alone. *)
Lemma writeState_leaves dir fsync states :
  leaves (Join dir "events.jsonl") (writeState faults dir fsync states).
Proof.
  destruct (state_paths_distinct dir) as [H1 H2].
  unfold writeState, replace_state, sync_directory, discard. solve_leaves.
Qed.

Lemma writeStateLocked_spec w wd e w' wd' :
  wf_wal w → writeStateLocked faults (w, wd) = (e, (w', wd')) →
  w' = w ∧ log_file w wd' = log_file w wd.
Proof.
  intros Hwf H. unfold writeStateLocked in H. bind_inv H as w0 s0 H0. injection H0 as <- <-.
  apply on_snd_inv in H as (wd1 & H & [= <- <-]). split; [done|].
  unfold log_file, file_at. rewrite Hwf. by rewrite (writeState_leaves _ _ _ _ _ _ H).
Qed.

Lemma flushLocked_spec w wd e w' wd' :
  truncate_reliable → wf_wal w → flushLocked faults (w, wd) = (e, (w', wd')) →
  ∃ done_ rest sync dirty, WAL.pending w = done_ ++ rest ∧ w' = flushed w rest sync dirty ∧
    log_bytes w wd' = log_bytes w wd ++ encode_all done_ ∧
    (e = None → rest = [] ∧ sync = false ∧ dirty = false).
Proof.
  intros Ht Hwf H. unfold flushLocked in H. bind_inv H as w0 s0 H0. injection H0 as <- <-.
  bind_inv H as e1 s1 H1. destruct s1 as [w1 wd1].
  assert (log_bytes w wd1 = log_bytes w wd ∧
    w1 = flushed w (WAL.pending w) (match e1 with None => false | _ => WAL.syncNeeded w end)
           (WAL.stateDirty w)) as [Hc1 Hw1].
  { destruct (WAL.syncNeeded w) eqn:Hs.
    - bind_inv H1 as e2 s2 H2. apply on_snd_inv in H2 as (wd2 & H2 & ->).
      apply File_Sync_spec in H2 as [Hc _].
      destruct e2 as [e2|]; injection H1 as <- <- <-; (split; [exact Hc|]).
      + rewrite <-Hs. apply flushed_id.
      + by destruct w.
    - injection H1 as <- <- <-. split; [done|]. rewrite <-Hs. apply flushed_id. }
  destruct e1 as [e1|].
  { injection H as <- <- <-. exists [], (WAL.pending w), (WAL.syncNeeded w), (WAL.stateDirty w).
    rewrite log_nothing. split_and!; try done. }
  bind_inv H as e2 s2 H2. destruct s2 as [w2 wd2].
  subst w1. apply flush_pending_spec in H2 as (d & rest & sync & Hp & Hw2 & Hc2 & Hnone); [|done..].
  assert (log_bytes w wd2 = log_bytes w wd ++ encode_all d) as Hc2'
    by (rewrite <-Hc1; exact Hc2). clear Hc2.
  destruct e2 as [e2|].
  { injection H as <- <- <-. exists d, rest, sync, (WAL.stateDirty w). subst w2. split_and!; try done. }
  destruct (Hnone eq_refl) as [-> ->]. bind_inv H as w3 s3 H3. injection H3 as <- <-.
  destruct (WAL.stateDirty w2) eqn:Hdirty.
  - bind_inv H as e3 s4 H4. destruct s4 as [w4 wd4].
    apply writeStateLocked_spec in H4 as [-> Hlog]; [|by subst w2].
    assert (log_bytes w wd4 = log_bytes w wd2) as Hc4.
    { subst w2. unfold log_bytes. f_equal. exact Hlog. }
    destruct e3 as [e3|]; injection H as <- <- <-.
    + exists d, [], false, (WAL.stateDirty w). subst w2. rewrite Hc4. split_and!; try done.
    + exists d, [], false, false. subst w2. rewrite Hc4. split_and!; try done.
  - injection H as <- <- <-. exists d, [], false, (WAL.stateDirty w).
    subst w2. simpl in Hdirty. split_and!; try done.
Qed.
(** ** What the log holds *)

(** The log holds [evs]: the file continues [base] with the first of them, the
    others wait in memory, in order. *)
Definition holds (base : bytes) (evs : list Event.t) (s : WAL.t * world) : Prop :=
  wf_wal s.1 ∧ ∃ stored, log_bytes s.1 s.2 = base ++ encode_all stored ∧
    evs = stored ++ WAL.pending s.1.

Lemma flushLocked_holds base evs w wd e w' wd' :
  truncate_reliable → holds base evs (w, wd) → flushLocked faults (w, wd) = (e, (w', wd')) →
  holds base evs (w', wd') ∧ (e = None → WAL.pending w' = [] ∧ WAL.syncNeeded w' = false).
Proof.
  intros Ht (Hwf & stored & Hlog & ->) H. simpl in *.
  apply flushLocked_spec in H as (d & rest & sync & dirty & Hp & -> & Hc & Hnone); [|done..].
  split; [split; [exact Hwf|]|].
  - exists (stored ++ d). simpl. change (log_bytes (flushed w rest sync dirty) wd') with (log_bytes w wd').
    rewrite Hc, Hlog, Hp, encode_all_app, <-!app_assoc. done.
  - intros He. by destruct (Hnone He) as (-> & -> & _).
Qed.

(** An event written to the file of a log with nothing pending. *)
Lemma holds_written base evs w w' wd wd' ev :
  holds base evs (w, wd) → WAL.pending w = [] → WAL.pending w' = [] →
  WAL.path w' = WAL.path w → WAL.dir w' = WAL.dir w →
  log_bytes w wd' = log_bytes w wd ++ encode_line ev →
  holds base (evs ++ [ev]) (w', wd').
Proof.
  intros (Hwf & stored & Hlog & ->) Hp Hp' Hpath Hdir Hc. simpl in *.
  split; [unfold wf_wal in *; simpl; congruence|]. exists (stored ++ [ev]). simpl.
  rewrite Hp, Hp', !app_nil_r. split; [|done]. unfold log_bytes, log_file in *. rewrite Hpath, Hc.
  by rewrite Hlog, encode_all_app, encode_all_one, <-app_assoc.
Qed.

Lemma holds_remembered base evs w wd ev :
  holds base evs (w, wd) →
  holds base (evs ++ [ev]) (WAL.with_blocked true (WAL.with_pending (WAL.pending w ++ [ev]) w), wd).
Proof.
  intros (Hwf & stored & Hlog & ->). split; [done|]. exists stored. simpl. split; [exact Hlog|].
  by rewrite <-app_assoc.
Qed.

Lemma holds_same_file base evs w w' wd wd' :
  holds base evs (w, wd) → WAL.pending w' = WAL.pending w →
  WAL.path w' = WAL.path w → WAL.dir w' = WAL.dir w → log_bytes w wd' = log_bytes w wd →
  holds base evs (w', wd').
Proof.
  intros (Hwf & stored & Hlog & ->) Hp Hpath Hdir Hc. simpl in *.
  split; [unfold wf_wal in *; simpl; congruence|]. exists stored. simpl. rewrite Hp. split; [|done].
  unfold log_bytes, log_file in *. rewrite Hpath. congruence.
Qed.

(** [Append] takes the event, or reports an error that is not a full disk; an
    event may be in the file even then, when its sync failed. *)
Lemma Append_spec base evs ev w wd e w' wd' :
  truncate_reliable → holds base evs (w, wd) → Append faults ev (w, wd) = (e, (w', wd')) →
  match e with
  | None => holds base (evs ++ [ev]) (w', wd')
  | Some e => isNoSpace e = false ∧
      (holds base evs (w', wd') ∨ holds base (evs ++ [ev]) (w', wd'))
  end.
Proof.
  intros Ht Hh H. unfold Append in H. bind_inv H as e1 s1 H1. destruct s1 as [w1 wd1].
  eapply flushLocked_holds in H1 as [Hh1 Hn]; [|done..]. clear Hh.
  destruct e1 as [e1|].
  { destruct (isNoSpace e1) eqn:He; simpl in H; injection H as <- <- <-; [|by auto].
    by apply holds_remembered. }
  destruct (Hn eq_refl) as [Hp Hs]. bind_inv H as e2 s2 H2. destruct s2 as [w2 wd2].
  apply writeEventLocked_spec in H2; [|done]. destruct e2 as [e2|].
  - destruct (isNoSpace e2) eqn:He; simpl in H; destruct H2 as [[-> Hc]|[-> Hc]].
    + unfold get_fst, bind in H. rewrite Hs in H. injection H as <- <- <-.
      apply holds_remembered. by eapply holds_same_file.
    + injection H as <- <- <-. by eapply holds_written.
    + injection H as <- <- <-. split; [done|]. left. by eapply holds_same_file.
    + injection H as <- <- <-. split; [done|]. right. by eapply holds_written.
  - destruct H2 as (-> & Hc & _). injection H as <- <- <-. by eapply holds_written.
Qed.

Lemma SaveState_spec base evs st w wd e w' wd' :
  truncate_reliable → holds base evs (w, wd) → SaveState faults st (w, wd) = (e, (w', wd')) →
  holds base evs (w', wd') ∧ ∀ e', e = Some e' → isNoSpace e' = false.
Proof.
  intros Ht Hh H. unfold SaveState in H. bind_inv H as u s0 H0. injection H0 as _ <-.
  bind_inv H as e1 s1 H1. destruct s1 as [w1 wd1].
  eapply (flushLocked_holds base evs) in H1 as [Hh1 _]; [|done|by eapply holds_same_file].
  destruct e1 as [e1|]; [destruct (isNoSpace e1) eqn:He|]; injection H as <- <- <-;
    (split; [by eapply holds_same_file|intros ? [=]]); congruence.
Qed.

(** ** Sequences of calls *)

Inductive op := OpAppend (ev : Event.t) | OpSaveState (st : ServiceState.t).

Definition step (o : op) : M (WAL.t * world) (option goerror) :=
  match o with OpAppend ev => Append faults ev | OpSaveState st => SaveState faults st end.

(** Every call with its result. *)
Fixpoint run (ops : list op) : M (WAL.t * world) (list (op * option goerror)) :=
  match ops with
  | [] => ret []
  | o :: ops' => e <- step o;; rest <- run ops';; ret ((o, e) :: rest)
  end.

(** The events offered, and those accepted without an error. *)
Definition offered (tr : list (op * option goerror)) : list Event.t :=
  omap (λ '(o, _), match o with OpAppend ev => Some ev | _ => None end) tr.
Definition accepted (tr : list (op * option goerror)) : list Event.t :=
  omap (λ '(o, e), match o, e with OpAppend ev, None => Some ev | _, _ => None end) tr.

Lemma run_spec base ops : ∀ evs s tr s',
  truncate_reliable → holds base evs s → run ops s = (tr, s') →
  ∃ kept, accepted tr `sublist_of` kept ∧ kept `sublist_of` offered tr ∧
    holds base (evs ++ kept) s'.
Proof.
  induction ops as [|o ops IH]; intros evs [w wd] tr s' Ht Hh H; cbn [run] in H.
  { injection H as <- <-. exists []. rewrite app_nil_r. split_and!; done. }
  bind_inv H as e s1 H1. bind_inv H as rest s2 H2. injection H as <- ->.
  destruct s1 as [w1 wd1].
  assert (∃ now, holds base (evs ++ now) (w1, wd1) ∧
    accepted [(o, e)] `sublist_of` now ∧ now `sublist_of` offered [(o, e)]) as (now & Hh1 & Ha & Ho).
  { destruct o as [ev|st]; simpl in H1.
    - eapply Append_spec in H1; [|done..]. destruct e as [e|]; [|by exists [ev]].
      destruct H1 as [_ [?|?]]; [exists []|exists [ev]]; rewrite ?app_nil_r; split_and!;
        try done; apply sublist_nil_l.
    - eapply SaveState_spec in H1 as [H1 _]; [|done..]. exists []. rewrite app_nil_r. by destruct e. }
  eapply IH in H2 as (kept & Hacc & Hoff & Hh2); [|done|exact Hh1].
  exists (now ++ kept). rewrite app_assoc. split_and!; [| |done].
  - change ((o, e) :: rest) with ([(o, e)] ++ rest). unfold accepted. rewrite omap_app.
    by apply sublist_app.
  - change ((o, e) :: rest) with ([(o, e)] ++ rest). unfold offered. rewrite omap_app.
    by apply sublist_app.
Qed.

(** A full disk is absorbed, never reported. *)
Lemma run_never_full base ops : ∀ evs s tr s',
  truncate_reliable → holds base evs s → run ops s = (tr, s') →
  ∀ o e, (o, Some e) ∈ tr → isNoSpace e = false.
Proof.
  induction ops as [|o ops IH]; intros evs [w wd] tr s' Ht Hh H o' e' Hin; cbn [run] in H.
  { injection H as <- <-. by apply not_elem_of_nil in Hin. }
  bind_inv H as e s1 H1. bind_inv H as rest s2 H2. injection H as <- ->. destruct s1 as [w1 wd1].
  assert ((∀ e', e = Some e' → isNoSpace e' = false) ∧ ∃ evs1, holds base evs1 (w1, wd1)) as [He [evs1 Hh1]].
  { destruct o as [ev|st]; simpl in H1.
    - eapply Append_spec in H1; [|done..]. destruct e as [e|]; [|split; [done|eauto]].
      destruct H1 as [? [?|?]]; (split; [by intros ? [= <-]|by eauto]).
    - eapply SaveState_spec in H1 as [? ?]; [|done..]. eauto. }
  apply elem_of_cons in Hin as [[= -> <-]|Hin]; [by apply He|]. by eapply IH.
Qed.
End WalFacts.

(** ** The saved states *)

(** An operation that leaves the states in memory as they are. *)
Definition keeps_states {A} (m : M (WAL.t * world) A) : Prop :=
  ∀ s x s', m s = (x, s') → WAL.states s'.1 = WAL.states s.1.

Section SavedStates.
Context (faults : oracle) {EC : EventCodec} {SC : StatesCodec}.

Lemma states_ret {A} (x : A) : keeps_states (ret x).
Proof. by intros s y s' [= _ <-]. Qed.
Lemma states_bind {A B} (m : M (WAL.t * world) A) (k : A → M (WAL.t * world) B) :
  keeps_states m → (∀ x, keeps_states (k x)) → keeps_states (bind m k).
Proof. intros Hm Hk s y s' H. bind_inv H as x s1 H1. apply Hm in H1. apply Hk in H. congruence. Qed.
Lemma states_get : keeps_states get_fst.
Proof. by intros [w d] y s' [= _ <-]. Qed.
Lemma states_on_snd {A} (m : M world A) : keeps_states (on_snd m).
Proof. intros [w d] y s' H. by apply on_snd_inv in H as (d' & _ & ->). Qed.
Lemma states_modify f : (∀ w, WAL.states (f w) = WAL.states w) → keeps_states (modify_fst f).
Proof. intros Hf [w d] y s' [= _ <-]. apply Hf. Qed.

Hint Resolve states_ret states_bind states_get states_on_snd : keeps.
Ltac solve_keeps :=
  repeat first
    [ progress intros
    | solve [eauto 2 with keeps]
    | apply states_modify; done
    | apply states_bind
    | match goal with |- keeps_states (match ?x with _ => _ end) => destruct x end ].

Lemma states_writeEvent ev : keeps_states (writeEventLocked faults ev).
Proof. unfold writeEventLocked, appendRecord. solve_keeps. Qed.
Hint Resolve states_writeEvent : keeps.
Lemma states_flush_pending evs : keeps_states (flush_pending faults evs).
Proof. induction evs as [|ev evs IH]; cbn [flush_pending]; solve_keeps. Qed.
Hint Resolve states_flush_pending : keeps.
Lemma states_flush : keeps_states (flushLocked faults).
Proof. unfold flushLocked, writeStateLocked. solve_keeps. Qed.

Lemma states_Append ev : keeps_states (Append faults ev).
Proof. pose proof states_flush. unfold Append, remember, block, unblock. solve_keeps. Qed.

(** A state is remembered whether or not it could be written. *)
Lemma SaveState_states st s e s' :
  SaveState faults st s = (e, s') → WAL.states s'.1 = <[ServiceState.Service st := st]> (WAL.states s.1).
Proof.
  destruct s as [w d]. intros H. unfold SaveState in H. bind_inv H as u s1 H1. injection H1 as _ <-.
  bind_inv H as e2 s2 H2. apply states_flush in H2. destruct s2 as [w2 d2]. unfold block, unblock, modify_fst, bind in H.
  simpl in H2. destruct e2 as [e2|]; [destruct (isNoSpace e2)|]; injection H as _ <-; exact H2.
Qed.
End SavedStates.
