(* ===== verification/WalTheorems.v ===== *)
(** * WalTheorems: what survives a full disk, a crash and a restart *)

From S2P Require Import Prelude GoStrings Model Samples GoOS Json Wal Codec WalFacts.

(** ** What is on stable storage *)

Section Durability.
Context (faults : oracle) {EC : EventCodec} {SC : StatesCodec}.

(** At least [n] bytes of the log are synced, and all of them are unless a
    sync is owed. *)
Definition durable (n : nat) (s : WAL.t * world) : Prop :=
  wf_wal s.1 ∧
  (n <= synced (log_file s.1 s.2) <= length (log_bytes s.1 s.2))%nat ∧
  (WAL.fsync s.1 = true → WAL.syncNeeded s.1 = false →
    synced (log_file s.1 s.2) = length (log_bytes s.1 s.2)).

Definition keeps {A} (n : nat) (m : M (WAL.t * world) A) : Prop :=
  ∀ s a s', durable n s → m s = (a, s') → durable n s'.

Lemma keeps_ret {A} n (a : A) : keeps n (ret a).
Proof. intros s ? s' Hs [= <- <-]. done. Qed.

Lemma keeps_bind {A B} n (m : M (WAL.t * world) A) (f : A → M (WAL.t * world) B) :
  keeps n m → (∀ a, keeps n (f a)) → keeps n (bind m f).
Proof.
  intros Hm Hf s b s' Hs H. bind_inv H as a s1 H1. eapply Hf; [|exact H]. by eapply Hm.
Qed.

Lemma keeps_get n : keeps n get_fst.
Proof. intros [w wd] a s' Hs [= <- <-]. done. Qed.

(** Field updates that do not clear the debt of a sync. *)
Lemma keeps_modify n (f : WAL.t → WAL.t) :
  (∀ w, WAL.path (f w) = WAL.path w ∧ WAL.dir (f w) = WAL.dir w ∧ WAL.fsync (f w) = WAL.fsync w ∧
    (WAL.syncNeeded (f w) = false → WAL.syncNeeded w = false)) →
  keeps n (modify_fst f).
Proof.
  intros Hf [w wd] a s' (Hwf & Hn & Hall) [= _ <-]. simpl in *.
  destruct (Hf w) as (Hp & Hd & Hs & Hsync).
  unfold durable, wf_wal, log_bytes, log_file in *. simpl in *. rewrite Hp, Hd, Hs. auto.
Qed.

Lemma keeps_writeEventLocked n ev : truncate_reliable faults → keeps n (writeEventLocked faults ev).
Proof.
  intros Ht [w wd] e [w' wd'] (Hwf & Hn & Hall) H. simpl in *. unfold writeEventLocked in H.
  bind_inv H as e0 s0 H0. destruct s0 as [w0 wd0].
  apply appendRecord_spec in H0 as (-> & Hc & Hs); [|done]. specialize (Hs (proj2 Hn)).
  destruct e0 as [e0|].
  { injection H as <- <- <-. unfold durable. simpl. rewrite Hs, Hc. auto. }
  assert (n <= synced (log_file w wd0) <= length (log_bytes w wd0))%nat as Hn0
    by (rewrite Hs, Hc, length_app; lia).
  bind_inv H as w1 s1 H1. injection H1 as <- <-.
  destruct (WAL.fsync w) eqn:Hf.
  - bind_inv H as e1 s2 H2. apply on_snd_inv in H2 as (wd2 & H2 & ->).
    apply File_Sync_spec in H2 as [Hs2 Hd].
    destruct e1 as [e1|]; injection H as <- <- <-; unfold durable, log_bytes, log_file in *; simpl.
    + by rewrite Hd.
    + rewrite Hd, Hs2. split_and!; try done; lia.
  - injection H as <- <- <-. unfold durable. simpl. split_and!; try done; try lia. congruence.
Qed.

Lemma keeps_writeStateLocked n : keeps n (writeStateLocked faults).
Proof.
  intros [w wd] e [w' wd'] (Hwf & Hn & Hall) H. simpl in *.
  apply writeStateLocked_spec in H as [-> Hlog]; [|done].
  unfold durable, log_bytes in *. simpl. rewrite Hlog. done.
Qed.

Create HintDb durable.
Hint Resolve keeps_ret keeps_bind keeps_get keeps_writeEventLocked keeps_writeStateLocked : durable.

Ltac solve_keeps :=
  repeat first
    [ progress intros
    | solve [eauto 2 with durable]
    | apply keeps_modify; solve [auto]
    | apply keeps_bind
    | match goal with |- keeps _ (match ?x with _ => _ end) => destruct x end ].

Lemma keeps_flush_pending n pend : truncate_reliable faults → keeps n (flush_pending faults pend).
Proof. intros Ht. induction pend as [|ev pend IH]; cbn [flush_pending]; solve_keeps. Qed.
Hint Resolve keeps_flush_pending : durable.

(** A sync that succeeds pays the debt. *)
Lemma keeps_flushLocked n : truncate_reliable faults → keeps n (flushLocked faults).
Proof.
  intros Ht. unfold flushLocked. intros [w wd] e s' Hs H. bind_inv H as w0 s0 H0. injection H0 as <- <-.
  bind_inv H as e1 s1 H1.
  assert (durable n s1) as Hs1.
  { destruct (WAL.syncNeeded w); [|by injection H1 as _ <-].
    bind_inv H1 as e2 s2 H2. apply on_snd_inv in H2 as (wd2 & H2 & ->).
    apply File_Sync_spec in H2 as [Hs2 Hd].
    destruct Hs as (Hwf & Hn & Hall).
    destruct e2 as [e2|]; injection H1 as _ <-; unfold durable, log_bytes, log_file in *; simpl in *.
    - by rewrite Hd.
    - rewrite Hd, Hs2.
      split_and!; try done; lia. }
  pose proof (λ m (Hk : keeps n m), Hk s1 e s' Hs1) as Hk. eapply Hk; [|exact H]. solve_keeps.
Qed.
Hint Resolve keeps_flushLocked : durable.

Lemma keeps_step n o : truncate_reliable faults → keeps n (step faults o).
Proof.
  intros Ht. destruct o as [ev|st]; cbn [step]; unfold Append, SaveState, remember, block, unblock;
    solve_keeps.
Qed.
Hint Resolve keeps_step : durable.

Lemma keeps_run n ops : truncate_reliable faults → keeps n (run faults ops).
Proof. intros Ht. induction ops as [|o ops IH]; cbn [run]; solve_keeps. Qed.

(** A call that succeeds and leaves the log writable owes nothing. *)
Lemma step_settles o base evs s s' :
  truncate_reliable faults → holds base evs s → step faults o s = (None, s') →
  Writable s'.1 = true → WAL.pending s'.1 = [] ∧ WAL.syncNeeded s'.1 = false.
Proof.
  intros Ht Hh H Hw. destruct s as [w wd], o as [ev|st]; cbn [step] in H; unfold Append, SaveState in H.
  - bind_inv H as e1 s1 H1. destruct s1 as [w1 wd1].
    eapply flushLocked_holds in H1 as [Hh1 Hn]; [|done..].
    destruct e1 as [e1|].
    { destruct (isNoSpace e1); first [discriminate H|by injection H as <-]. }
    destruct (Hn eq_refl) as [Hp Hs]. bind_inv H as e2 s2 H2. destruct s2 as [w2 wd2].
    apply writeEventLocked_spec in H2; [|done]. destruct e2 as [e2|].
    + destruct (isNoSpace e2); [|discriminate H]. bind_inv H as w3 s3 H3. injection H3 as <- <-.
      destruct (WAL.syncNeeded w2); by injection H as <-.
    + destruct H2 as (-> & _ & _). injection H as <-. done.
  - bind_inv H as u s0 H0. injection H0 as _ <-. bind_inv H as e1 s1 H1. destruct s1 as [w1 wd1].
    eapply (flushLocked_holds _ base evs) in H1 as [Hh1 Hn]; [|done|by eapply holds_same_file].
    destruct e1 as [e1|].
    { destruct (isNoSpace e1); first [discriminate H|by injection H as <-]. }
    injection H as <-. by apply Hn.
Qed.
End Durability.

(** ** Reading back *)

Section Reading.
Context {EC : EventCodec}.

Lemma split_lines_tail tail : newline ∉ tail → split_lines tail = ([], tail).
Proof.
  induction tail as [|c tail IH]; [done|]. intros [Hc Ht]%not_elem_of_cons. simpl.
  rewrite IH by done. by rewrite decide_False by congruence.
Qed.

Lemma split_lines_line line rest :
  newline ∉ line →
  split_lines (line ++ newline :: rest) =
    let '(lines, tail) := split_lines rest in ((line ++ [newline]) :: lines, tail).
Proof.
  induction line as [|c line IH]; simpl; [by destruct (split_lines rest)|].
  intros [Hc Hl]%not_elem_of_cons. rewrite IH by done. destruct (split_lines rest).
  by rewrite decide_False by congruence.
Qed.

Lemma split_lines_encoded evs tail :
  newline ∉ tail → split_lines (encode_all evs ++ tail) = (encode_line <$> evs, tail).
Proof.
  intros Ht. induction evs as [|ev evs IH]; [by apply split_lines_tail|].
  rewrite encode_all_cons.
  unfold encode_line at 1. rewrite <-!app_assoc. cbn [app].
  rewrite split_lines_line by apply Marshal_event_line. by rewrite IH.
Qed.

Lemma decode_lines_encoded evs :
  Forall event_ok evs → decode_lines (encode_line <$> evs) = (evs, 0, #(encode_all evs)).
Proof.
  induction 1 as [|ev evs Hev Hevs IH]; [done|].
  rewrite fmap_cons. cbn [decode_lines]. rewrite IH.
  destruct (Marshal_event_trim ev) as [Hne Htrim]. fold (encode_line ev) in Htrim. rewrite Htrim.
  rewrite decide_False by done. rewrite Unmarshal_Marshal_event by done. f_equal.
  rewrite encode_all_cons, length_app. lia.
Qed.

(** A log of whole records and a torn one reads back as the whole records. *)
Lemma readRecords_encoded evs tail :
  Forall event_ok evs → newline ∉ tail →
  readRecords (encode_all evs ++ tail) = (evs, Report.mk 0 #tail false, #(encode_all evs)).
Proof.
  intros Hevs Ht. unfold readRecords. by rewrite split_lines_encoded, decode_lines_encoded.
Qed.

(** Cutting a log anywhere leaves whole records and a torn one. *)
Lemma encode_all_cut evs : ∀ n, ∃ k tail,
  take n (encode_all evs) = encode_all (take k evs) ++ tail ∧ newline ∉ tail ∧ (k <= length evs)%nat ∧
  ∀ j, (j <= length evs)%nat → (length (encode_all (take j evs)) <= n)%nat → (j <= k)%nat.
Proof.
  induction evs as [|ev evs IH]; intros n.
  { exists 0%nat, []. split_and!; [by destruct n|apply not_elem_of_nil|simpl; lia..]. }
  rewrite encode_all_cons.
  destruct (decide (length (encode_line ev) <= n)%nat) as [Hle|Hgt].
  - destruct (IH (n - length (encode_line ev))%nat) as (k & tail & Hcut & Htail & Hk & Hmax).
    exists (S k), tail. rewrite take_app_ge, Hcut by done. split_and!; [|done|simpl; lia|].
    + cbn [take]. by rewrite encode_all_cons, app_assoc.
    + intros [|j] Hj Hlen; [lia|]. cut (j <= k)%nat; [lia|]. apply Hmax; [simpl in Hj; lia|].
      simpl in Hlen. rewrite encode_all_cons, length_app in Hlen. lia.
  - exists 0%nat, (take n (encode_line ev)). rewrite take_app_le by lia. split_and!; [done| |simpl; lia|].
    + unfold encode_line in *. rewrite length_app in Hgt. simpl in Hgt.
      rewrite take_app_le by lia. intros Hin%elem_of_take. destruct Hin as (i & Hin & _).
      by apply list_elem_of_lookup_2, Marshal_event_line in Hin.
    + intros [|j] Hj Hlen; [lia|]. exfalso. simpl in Hlen.
      rewrite encode_all_cons, length_app in Hlen. lia.
Qed.
End Reading.

(** ** Prefixes of a log *)

Section Prefixes.
Context {EC : EventCodec}.

Lemma encode_line_length ev : (0 < length (encode_line ev))%nat.
Proof. unfold encode_line. rewrite length_app. simpl. lia. Qed.

(** Of two prefixes of one sequence, the one with fewer bytes has fewer events. *)
Lemma shorter_log_prefix evs1 rest1 evs2 rest2 :
  evs1 ++ rest1 = evs2 ++ rest2 → (length (encode_all evs1) <= length (encode_all evs2))%nat →
  evs1 `prefix_of` evs2.
Proof.
  intros Heq Hlen. destruct (prefix_weak_total evs1 evs2 (evs1 ++ rest1)) as [?|[k ->]];
    [by exists rest1|rewrite Heq; by exists rest2|done|].
  destruct k as [|ev k]; [by rewrite app_nil_r|]. exfalso.
  rewrite encode_all_app, encode_all_cons, !length_app in Hlen. pose proof (encode_line_length ev). lia.
Qed.
End Prefixes.

Section Restart.
Context (faults : oracle) {EC : EventCodec} {SC : StatesCodec}.

(** What a log that was cut short after [n] bytes reads back as. *)
Lemma read_cut_log evs kept n :
  Forall event_ok evs → kept `prefix_of` evs → (length (encode_all kept) <= n)%nat →
  ∃ more k, evs = kept ++ more ∧
    ∃ torn, readRecords (take n (encode_all evs)) =
      (kept ++ take k more, Report.mk 0 torn false, #(encode_all (kept ++ take k more))).
Proof.
  intros Hok [more ->] Hn. destruct (encode_all_cut (kept ++ more) n) as (k & tail & Hcut & Htail & Hk & Hmax).
  exists more, (k - length kept)%nat. split; [done|]. exists #tail.
  specialize (Hmax (length kept)). rewrite take_app_length, length_app in Hmax.
  rewrite Hcut. rewrite (take_app_ge kept) by (apply Hmax; lia).
  apply readRecords_encoded; [|done]. apply Forall_app in Hok as [? ?]. apply Forall_app. split; [done|].
  by apply Forall_take.
Qed.

Lemma Repair_spec path wd rep wd' f evs tail :
  honest faults → files wd !! path = Some f → content f = encode_all evs ++ tail → Forall event_ok evs →
  newline ∉ tail → Repair faults path wd = ((rep, None), wd') →
  rep = Report.mk 0 #tail false ∧ content (file_at path (files wd')) = encode_all evs.
Proof.
  intros Hhon Hf Hc Hok Ht H. unfold Repair in H. bind_inv H as r wd1 H1.
  apply (OpenRead_existing _ _ _ _ _ _ Hf) in H1 as [Hf1 Hr]. destruct r as [g|e].
  2:{ destruct Hr as (c & i & errno & k & Hfail & ->). apply Hhon in Hfail as [Hfail _]. cbn [IsNotExist] in H.
      by rewrite (proj2 (Z.eqb_neq _ _) Hfail) in H. }
  subst g. bind_inv H as de wd2 H2. destruct de as [data e]. apply ReadToEnd_spec in H2 as [Hf2 Hdata].
  destruct (readRecords data) as [[evs' found] complete] eqn:Hread.
  bind_inv H as ec wd3 H3. apply simple_call_spec in H3. destruct e as [e|]; [discriminate H|].
  rewrite (Hdata eq_refl), Hc, readRecords_encoded in Hread by done. injection Hread as <- <- <-.
  assert (files wd3 !! path = Some f) as Hf3 by (rewrite H3; destruct ec; by rewrite ?Hf2, ?Hf1).
  cbn [Report.TruncatedBytes] in H. destruct (Z.ltb_spec 0 #tail) as [Hpos|Hzero].
  - bind_inv H as et wd4 H4. destruct et as [et|]; [discriminate H|]. injection H as <- <-.
    apply simple_call_spec in H4. split; [done|]. rewrite H4, file_at_insert. cbn [content].
    unfold file_at. rewrite Hf3. change (default (File [] 0) (Some f)) with f. by rewrite Hc, Nat2Z.id, take_app_length.
  - injection H as <- <-. split; [done|]. unfold file_at. rewrite Hf3. change (default (File [] 0) (Some f)) with f.
    rewrite Hc. destruct tail; [apply app_nil_r|simpl in Hzero; lia].
Qed.

(** An open log without faults in between: what was settled at [s2] is at the
    front of what the file holds at [s3]. *)
Lemma settled_prefix old evs2 kept s2 s3 :
  holds (encode_all old) evs2 s2 → WAL.pending s2.1 = [] →
  durable (length (log_bytes s2.1 s2.2)) s3 → holds (encode_all old) (evs2 ++ kept) s3 →
  ∃ stored, log_bytes s3.1 s3.2 = encode_all (old ++ stored) ∧ evs2 `prefix_of` stored ∧
    stored `prefix_of` evs2 ++ kept ∧ log_bytes s2.1 s2.2 = encode_all (old ++ evs2).
Proof.
  intros (_ & stored2 & Hlog2 & ->) Hp2 (_ & Hn & _) (_ & stored & Hlog & Heq). rewrite Hp2, app_nil_r in *.
  exists stored. rewrite <-!encode_all_app in *. split_and!; [done| |rewrite Heq; by exists (WAL.pending s3.1)|done].
  eapply shorter_log_prefix; [exact Heq|]. rewrite Hlog2, Hlog, !encode_all_app, !length_app in Hn. lia.
Qed.
End Restart.

(** ** Concrete data for the witnesses *)

(** A disk that is full during the first ten calls. *)
Definition full_disk : oracle := λ c n,
  match c with SysWrite => if (n <? 10)%nat then Fail noSpaceErrno 3 else Fine | _ => Fine end.
Definition fresh_log : WAL.t * world :=
  (WAL.mk "/d/events.jsonl" true "/d" ∅ Report.zero [] false false false,
   World {["/d/events.jsonl" := File [] 0]} 0).

Lemma fresh_log_holds : holds (encode_all []) [] fresh_log ∧ durable 0 fresh_log.
Proof. split; [split; [done|by exists []]|]. split_and!; [done|lia|vm_compute; lia|done]. Qed.

Definition first_event : Event.t := sample_event 1 "a.service" StateDown 1000.
Definition second_event : Event.t := sample_event 2 "a.service" StateUp 2000.

Lemma sample_event_json seq name st ms :
  in_u64 seq → in_i64 ms → ascii_text name → json_event (sample_event seq name st ms).
Proof. intros. unfold json_event, in_u64, in_i64 in *. split_and!; simpl; try lia; try done; ascii_names. Qed.

Module WalTheorems.
(** C4: The log refines an append-only list. After any calls of [Append] and
    [SaveState], under any failures of the disk other than a failed
    truncation, the file followed by the events waiting in memory is a list
    that contains every accepted event in order and only events that were
    offered; and a full disk or an exhausted quota is never reported to the
    caller. *)
Theorem log_refines_list (faults : oracle) (EC : EventCodec) (SC : StatesCodec)
    (base : bytes) (ops : list op) (s s' : WAL.t * world) (tr : list (op * option goerror)) :
  truncate_reliable faults → holds base [] s → run faults ops s = (tr, s') →
  (∃ kept, accepted tr `sublist_of` kept ∧ kept `sublist_of` offered tr ∧ holds base kept s') ∧
  (∀ o e, (o, Some e) ∈ tr → isNoSpace e = false).
Proof.
  intros Ht Hh Hrun. split; [by apply (run_spec faults base ops [] s tr s')|].
  by eapply run_never_full.
Qed.

(** The disk is full for the first three calls. *)
Definition sample_ops : list op :=
  [OpAppend first_event; OpSaveState ServiceState.zero; OpSaveState ServiceState.zero].

Lemma log_refines_list_witness :
  let r := run full_disk sample_ops fresh_log in
  accepted r.1 = [first_event] ∧ Writable r.2.1 = false ∧
  ∃ kept, accepted r.1 `sublist_of` kept ∧ kept `sublist_of` offered r.1 ∧ holds (encode_all []) kept r.2.
Proof.
  split; [by vm_compute|]. split; [by vm_compute|].
  apply (log_refines_list full_disk _ _ (encode_all []) sample_ops fresh_log _ _).
  - intros n. done.
  - apply fresh_log_holds.
  - apply surjective_pairing.
Defined.

(** C3: With fsync on, consider any calls on the log followed by a call that
    succeeds and leaves the log writable, then any further calls, then a crash
    that cuts the file anywhere behind its synced part. The records read back
    afterwards are the old ones, every event accepted up to the writable point
    in order (between them at most events that were offered and refused with
    an error), and then some of the later ones in order: nothing accepted up
    to that point is lost, reordered, damaged or reported as skipped, whatever
    errors the disk produced in between, as long as truncating back a partial
    record works. *)
Theorem synced_events_survive_crash (faults : oracle) (EC : EventCodec) (SC : StatesCodec)
    (old : list Event.t) (ops1 ops2 : list op) (o : op) (s s1 s2 s3 : WAL.t * world)
    (tr1 tr2 : list (op * option goerror)) (crashed : file) :
  truncate_reliable faults → holds (encode_all old) [] s → durable 0 s →
  run faults ops1 s = (tr1, s1) →
  step faults o s1 = (None, s2) → Writable s2.1 = true → WAL.fsync s2.1 = true →
  run faults ops2 s2 = (tr2, s3) →
  crash_file (log_file s3.1 s3.2) crashed →
  Forall event_ok (old ++ offered tr1 ++ offered [(o, None)] ++ offered tr2) →
  ∃ kept later,
    accepted tr1 ++ accepted [(o, None)] `sublist_of` kept ∧
    kept `sublist_of` offered tr1 ++ offered [(o, None)] ∧
    later `sublist_of` offered tr2 ∧
    ∃ torn size, readRecords (content crashed) = (old ++ kept ++ later, Report.mk 0 torn false, size).
Proof.
  intros Ht Hh Hd Hrun1 Hstep Hw Hf Hrun2 [n [Hn Hcrash]] Hok.
  destruct (run_spec faults _ ops1 [] _ _ _ Ht Hh Hrun1) as (kept1 & Ha1 & Ho1 & Hh1).
  destruct (run_spec faults _ [o] _ s1 [(o, None)] s2 Ht Hh1) as (now & Ha & Ho & Hh2).
  { cbn [run]. unfold bind. by rewrite Hstep. }
  destruct (step_settles faults o _ _ _ _ Ht Hh1 Hstep Hw) as [Hp2 Hs2].
  destruct (run_spec faults _ ops2 _ _ _ _ Ht Hh2 Hrun2) as (kept2 & Ha2 & Ho2 & Hh3).
  assert (durable (length (log_bytes s2.1 s2.2)) s3) as Hd3.
  { eapply keeps_run; [done| |exact Hrun2].
    assert (durable 0 s2) as (Hwf & Hle & Hall).
    { eapply keeps_step; [done| |exact Hstep]. by eapply keeps_run. }
    split_and!; [done| | |done]; rewrite (Hall Hf Hs2); done. }
  simpl in Hh2, Hh3.
  destruct (settled_prefix old (kept1 ++ now) kept2 s2 s3 Hh2 Hp2 Hd3 Hh3)
    as (stored & Hlog & Hpre & Hsub & Hlog2).
  destruct Hpre as [later ->]. apply prefix_app_inv in Hsub as [rest ->].
  destruct (read_cut_log (old ++ (kept1 ++ now) ++ later) (old ++ kept1 ++ now) n)
    as (more & k & Heq & torn & Hread).
  - eapply Forall_sublist; [|exact Hok]. rewrite <-!app_assoc.
    repeat apply sublist_app; try done. etransitivity; [|exact Ho2]. by apply sublist_inserts_r.
  - exists later. by rewrite !app_assoc.
  - rewrite <-Hlog2. destruct Hd3 as (_ & Hle & _). lia.
  - rewrite !app_assoc in Heq. apply app_inv_head in Heq as <-.
    exists (kept1 ++ now), (take k later). split_and!.
    + by apply sublist_app.
    + by apply sublist_app.
    + etransitivity; [|exact Ho2]. etransitivity; [apply sublist_take|by apply sublist_inserts_r].
    + exists torn, #(encode_all (old ++ (kept1 ++ now) ++ take k later)).
      rewrite Hcrash. change (content (log_file s3.1 s3.2)) with (log_bytes s3.1 s3.2).
      rewrite Hlog, Hread, <-!app_assoc. done.
Qed.

Definition after_ops : WAL.t * world := (run full_disk sample_ops fresh_log).2.
Definition sample_trace : list (op * option goerror) := (λ o, (o, None)) <$> sample_ops.
Definition after_second : WAL.t * world := (Append full_disk second_event after_ops).2.

Lemma synced_events_survive_crash_witness :
  ∃ kept later, [first_event; second_event] `sublist_of` kept ∧
    kept `sublist_of` [first_event; second_event] ∧ later `sublist_of` [] ∧
    ∃ torn size, readRecords (content (log_file after_second.1 after_second.2)) =
      ([] ++ kept ++ later, Report.mk 0 torn false, size).
Proof.
  apply (synced_events_survive_crash full_disk _ _ [] sample_ops [] (OpAppend second_event)
    fresh_log after_ops after_second after_second
    sample_trace [] (log_file after_second.1 after_second.2)).
  - intros n. done.
  - apply fresh_log_holds.
  - apply fresh_log_holds.
  - assert ((run full_disk sample_ops fresh_log).1 = sample_trace) as <- by (by vm_compute).
    apply surjective_pairing.
  - assert ((Append full_disk second_event after_ops).1 = None) as H by (by vm_compute).
    unfold after_second. cbn [step]. rewrite <-H. apply surjective_pairing.
  - by vm_compute.
  - by vm_compute.
  - done.
  - exists (length (content (log_file after_second.1 after_second.2))).
    split; [vm_compute; lia|]. by rewrite firstn_all.
  - repeat apply Forall_cons_2; try apply Forall_nil_2;
      (apply sample_event_json; [unfold in_u64; lia|unfold in_i64; lia|ascii_names]).
Defined.

(** C24: Opening a log that was cut anywhere leaves a file of whole records
    only: the longest prefix of the events that fits the cut, with nothing
    pending, and the report names the bytes removed and no skipped record.
    This holds for every pattern of failures for which [Open] returns a log.
    *)
Theorem open_restores_record_boundary (faults : oracle) (EC : EventCodec) (SC : StatesCodec)
    (dir : string) (fsync : bool) (wd wd' : world) (w : WAL.t) (f : file) (evs : list Event.t) (n : nat) :
  honest faults → files wd !! Join dir "events.jsonl" = Some f → content f = take n (encode_all evs) →
  Forall event_ok evs →
  Open faults dir fsync wd = (Ok w, wd') →
  ∃ k, holds (encode_all (take k evs)) [] (w, wd') ∧
    Report.TruncatedBytes (Repaired w) = #(content f) - #(encode_all (take k evs)) ∧
    Report.SkippedRecords (Repaired w) = 0 ∧
    ∀ j, (j <= length evs)%nat → (length (encode_all (take j evs)) <= n)%nat → (j <= k)%nat.
Proof.
  intros Hhon Hf Hc Hok H. unfold Open in H.
  destruct (encode_all_cut evs n) as (k & tail & Hcut & Htail & Hk & Hmax). rewrite Hcut in Hc.
  bind_inv H as e0 wd0 H0. destruct e0 as [e0|]; [discriminate H|].
  assert (files wd0 !! Join dir "events.jsonl" = Some f) as Hf0
    by (rewrite <-Hf; exact (leaves_mkdir faults _ _ _ _ _ H0)).
  bind_inv H as re wd1 H1. destruct re as [rep e1]. destruct e1 as [e1|]; [discriminate H|].
  eapply (Repair_spec faults) in H1 as [Hrep Hc1]; [|done|exact Hf0|exact Hc|by apply Forall_take|exact Htail].
  subst rep.
  bind_inv H as e2 wd2 H2. destruct e2 as [e2|]; [discriminate H|].
  apply simple_call_spec in H2. bind_inv H as r wd3 H3.
  assert (files wd3 !! Join dir "events.jsonl" = files wd2 !! Join dir "events.jsonl") as Hsame.
  { exact (leaves_read_file faults _ _ _ _ _ H3). }
  assert (content (file_at (Join dir "events.jsonl") (files wd3)) = encode_all (take k evs)) as Hc3
    by (rewrite <-Hc1; unfold file_at at 1; rewrite Hsame, H2; by rewrite lookup_insert_eq).
  exists k. rewrite Hc, length_app.
  assert (wd' = wd3 ∧ ∃ m reset, w = WAL.mk (Join dir "events.jsonl") fsync dir m
    (Report.mk 0 #tail reset) [] false false false) as (-> & m & reset & ->).
  { destruct r as [data|e3].
    - destruct (Unmarshal_states data); injection H as <- <-; (split; [done|]; do 2 eexists; reflexivity).
    - destruct (IsNotExist e3); [injection H as <- <-; (split; [done|]; do 2 eexists; reflexivity)|]. cbn [negb] in H.
      by bind_inv H as e4 wd4 H4. }
  split_and!; [|cbn; lia|done|exact Hmax]. split; [done|]. exists []. by rewrite log_nothing.
Qed.

(** A log whose second record was torn. *)
Definition no_faults : oracle := λ _ _, Fine.
Definition torn_file : file := File (take 200 (encode_all [first_event; second_event])) 0.
Definition torn_world : world := World {["/d/events.jsonl" := torn_file]} 0.
Definition reopened : WAL.t * world :=
  match Open no_faults "/d" true torn_world with
  | (Ok w, wd) => (w, wd)
  | (Err _, wd) => (fresh_log.1, wd)
  end.

Lemma open_restores_record_boundary_witness :
  Report.TruncatedBytes (Repaired reopened.1) = 33 ∧
  ∃ k, holds (encode_all (take k [first_event; second_event])) [] reopened ∧
    Report.TruncatedBytes (Repaired reopened.1) =
      #(content torn_file) - #(encode_all (take k [first_event; second_event])) ∧
    Report.SkippedRecords (Repaired reopened.1) = 0 ∧
    ∀ j, (j <= 2)%nat → (length (encode_all (take j [first_event; second_event])) <= 200)%nat → (j <= k)%nat.
Proof.
  split; [by vm_compute|].
  apply (open_restores_record_boundary no_faults _ _ "/d" true torn_world reopened.2 reopened.1 torn_file).
  - intros c n errno k [=].
  - done.
  - done.
  - repeat apply Forall_cons_2; try apply Forall_nil_2;
      (apply sample_event_json; [unfold in_u64; lia|unfold in_i64; lia|ascii_names]).
  - by vm_compute.
Defined.
End WalTheorems.
