(* ===== verification/RemoteWrite.v ===== *)
(** * RemoteWrite: internal/remote_write/remote_write.go

    The sender of samples: batching, retries, and the durable checkpoint of the
    last transition a receiver accepted. The receiver is an adversary: an oracle
    answers every request. The encoding of a request (prompb and snappy) and the
    parsing of the URL are parameters. The send mutex makes [Send] and
    [SendRecoveredStates] atomic; HTTP headers and the body of a response carry
    nothing the sender depends on. *)

From S2P Require Import Prelude GoTime GoStrings Model GoOS Wal Json.

(** ** Data *)

Module Config.
Record t := mk {
  Enabled : bool;
  URL : string;
  BatchSize : Z;
  FlushInterval : Duration;
  RetryInterval : Duration;
  Timeout : Duration;
  Checkpoint : string;
  StateInterval : Duration;
  Labels : gmap string string;
}.
End Config.

(** The sample value is [1] or [0]; timestamps are milliseconds. *)
Record Label := mkLabel { Name : string; Value : string }.
Record Sample := mkSample { SampleValue : Z; Timestamp : Z }.
Record TimeSeries := mkSeries { Labels : list Label; Samples : list Sample }.
Abbreviation WriteRequest := (list TimeSeries).

Definition maxAttempts : nat := 3.

Inductive send_error :=
  | Permanent (StatusCode : Z)
  | ReceiverStatus (code : Z)
  | Transport
  | Cancelled
  | MarshalError
  | BadURL
  | CheckpointError (e : goerror).

Definition IsPermanent (e : send_error) : bool :=
  match e with Permanent _ => true | _ => false end.

Module Sender.
Record t := mk {
  cfg : Config.t;
  lastSent : Z;
  successfulRequests : Z;
  failedRequests : Z;
  retries : Z;
  sentSamples : Z;
}.
Definition with_lastSent n s := mk (cfg s) n (successfulRequests s) (failedRequests s) (retries s) (sentSamples s).
Definition succeeded samples s :=
  mk (cfg s) (lastSent s) (u64 (successfulRequests s + 1)) (failedRequests s) (retries s)
     (u64 (sentSamples s + samples)).
Definition failed s :=
  mk (cfg s) (lastSent s) (successfulRequests s) (u64 (failedRequests s + 1)) (retries s) (sentSamples s).
Definition retried s :=
  mk (cfg s) (lastSent s) (successfulRequests s) (failedRequests s) (u64 (retries s + 1)) (sentSamples s).
End Sender.

Module Stats.
Record t := mk { SuccessfulRequests : Z; FailedRequests : Z; Retries : Z; SentSamples : Z }.
End Stats.
Definition sender_Stats (s : Sender.t) : Stats.t :=
  Stats.mk (Sender.successfulRequests s) (Sender.failedRequests s) (Sender.retries s) (Sender.sentSamples s).

(** ** The network *)

Inductive reply := Status (code : Z) | NoReply.

(** A receiver, the moments at which the context is found cancelled, and what
    is taken from other packages. *)
Record network := Network {
  answer : nat → reply;
  cancelled : nat → bool;
  encode_request : WriteRequest → option bytes;
  valid_url : string → bool;
}.

(** The disk and the requests made so far, oldest first, with their replies. *)
Record env := Env { disk : world; requests : list (bytes * reply) }.

Section RemoteWrite.
Context (faults : oracle) (net : network).

Notation R := (M (Sender.t * env)).

Definition on_disk {A} (m : M world A) : R A :=
  λ '(s, e), let '(a, d) := m (disk e) in (a, (s, Env d (requests e))).

(** [client.Do]. *)
Definition Do (payload : bytes) : R reply :=
  λ '(s, e), let r := answer net (length (requests e)) in
             (r, (s, Env (disk e) (requests e ++ [(payload, r)]))).

Definition ctx_done : R bool := λ '(s, e), (cancelled net (length (requests e)), (s, e)).

(** ** Labels and series *)

Definition reserved (n : string) : bool := bool_decide (n = "__name__") || bool_decide (n = "name").

Definition labels (cfg : Config.t) (service : string) : list Label :=
  [mkLabel "__name__" "systemd_service_state"; mkLabel "name" service] ++
  sort_stable (λ a b, String.ltb (Name a) (Name b))
    ((λ '(n, v), mkLabel n v) <$> filter (λ '(n, _), reserved n = false) (map_to_list (Config.Labels cfg))).

(** Samples per service, in the order in which they were added. *)
Definition add_sample (cfg : Config.t) (series : gmap string TimeSeries)
    (x : string * AvailabilityState * Z) : gmap string TimeSeries :=
  let '(service, st, ts) := x in
  let v := if decide (st = StateUp) then 1 else 0 in
  let s := default (mkSeries (labels cfg service) []) (series !! service) in
  <[service := mkSeries (Labels s) (Samples s ++ [mkSample v ts])]> series.

Definition make_series (cfg : Config.t) (xs : list (string * AvailabilityState * Z)) : gmap string TimeSeries :=
  foldl (add_sample cfg) ∅ xs.

Definition event_sample (e : Event.t) : string * AvailabilityState * Z :=
  (Event.Service e, Event.State e, Event.EventTimeUnixMS e).
Definition state_sample (x : StateSample.t) : string * AvailabilityState * Z :=
  (StateSample.Service x, StateSample.State x, StateSample.TimestampUnixMS x).

(** [Labels[1].Value], the service a series is about. *)
Definition series_name (ts : TimeSeries) : string :=
  match Labels ts !! 1%nat with Some l => Value l | None => "" end.

Definition make_request (series : gmap string TimeSeries) : WriteRequest :=
  sort_stable (λ a b, String.ltb (series_name a) (series_name b))
    ((λ ts, mkSeries (Labels ts) (sort_by_key Timestamp (Samples ts))) <$> (map_to_list series).*2).

Definition sample_count (req : WriteRequest) : Z := foldr (λ ts n, #(Samples ts) + n) 0 req.

(** ** Sending *)

(** The attempt loop; [left] attempts remain after this one. *)
Fixpoint attempts (payload : bytes) (samples : Z) (left : nat) : R (option send_error) :=
  r <- Do payload;;
  let again (lastErr : send_error) : R (option send_error) :=
    _ <- modify_fst Sender.failed;;
    match left with
    | O => ret (Some lastErr)
    | S left' =>
        _ <- modify_fst Sender.retried;;
        stop <- ctx_done;;
        if (stop : bool) then ret (Some Cancelled) else attempts payload samples left'
    end in
  match r with
  | Status code =>
      if (200 <=? code) && (code <? 300) then
        _ <- modify_fst (Sender.succeeded samples);; ret None
      else if (400 <=? code) && (code <? 500) then
        _ <- modify_fst Sender.failed;; ret (Some (Permanent code))
      else again (ReceiverStatus code)
  | NoReply => again Transport
  end.

Definition sendSeries (series : gmap string TimeSeries) : R (option send_error) :=
  let request := make_request series in
  match encode_request net request with
  | None => ret (Some MarshalError)
  | Some payload =>
      s <- get_fst;;
      if valid_url net (Config.URL (Sender.cfg s))
      then attempts payload (sample_count request) (maxAttempts - 1)
      else ret (Some BadURL)
  end.

Definition sendBatch (events : list Event.t) : R (option send_error) :=
  s <- get_fst;; sendSeries (make_series (Sender.cfg s) (event_sample <$> events)).

Definition SendRecoveredStates (samples : list StateSample.t) : R (option send_error) :=
  match samples with
  | [] => ret None
  | _ => s <- get_fst;; sendSeries (make_series (Sender.cfg s) (state_sample <$> samples))
  end.

(** ** The checkpoint *)

(** The deferred cleanup of [saveCheckpoint] when it did not succeed. *)
Definition give_back (tmp : string) (e : goerror) : M world (option goerror) :=
  _ <- File_Close faults tmp;; _ <- Remove faults tmp;; ret (Some e).

(** Write, sync and close the temporary file. *)
Definition stage_checkpoint (tmp : string) (seq : Z) : M world (option goerror) :=
  e <- OpenTrunc faults tmp;;
  match e with
  | Some e => ret (Some (Wrap "open checkpoint temporary file" e))
  | None =>
      e <- File_WriteAll faults tmp (marshal_checkpoint seq ++ [newline]);;
      match e with
      | Some e => give_back tmp (Wrap "write checkpoint temporary file" e)
      | None =>
          e <- File_Sync faults tmp;;
          match e with
          | Some e => give_back tmp (Wrap "sync checkpoint temporary file" e)
          | None =>
              e <- File_Close faults tmp;;
              match e with
              | Some e => give_back tmp (Wrap "close checkpoint temporary file" e)
              | None => ret None
              end
          end
      end
  end.

(** Sync the directory after the rename. *)
Definition settle_checkpoint (tmp dir : string) : M world (option goerror) :=
  e <- OpenDir faults dir;;
  match e with
  | Some e => give_back tmp (Wrap "open checkpoint directory" e)
  | None =>
      e <- SyncDir faults dir;;
      match e with
      | Some e => _ <- CloseDir faults dir;; give_back tmp (Wrap "sync checkpoint directory" e)
      | None =>
          e <- CloseDir faults dir;;
          match e with
          | Some e => give_back tmp (Wrap "close checkpoint directory" e)
          | None => _ <- File_Close faults tmp;; ret None
          end
      end
  end.

Definition writeCheckpoint (path : string) (seq : Z) : M world (option goerror) :=
  let tmp := path +:+ ".tmp" in
  e <- MkdirAll faults (Dir path);;
  match e with
  | Some e => ret (Some e)
  | None =>
      e <- stage_checkpoint tmp seq;;
      match e with
      | Some e => ret (Some e)
      | None =>
          e <- Rename faults tmp path;;
          match e with
          | Some e => give_back tmp (Wrap "rename checkpoint temporary file" e)
          | None => settle_checkpoint tmp (Dir path)
          end
      end
  end.

Definition saveCheckpoint (seq : Z) : R (option goerror) :=
  s <- get_fst;;
  if seq <=? Sender.lastSent s then ret None
  else
    e <- on_disk (writeCheckpoint (Config.Checkpoint (Sender.cfg s)) seq);;
    match e with
    | Some e => ret (Some e)
    | None => _ <- modify_fst (Sender.with_lastSent seq);; ret None
    end.

Definition loadCheckpoint (path : string) : M world (result goerror Z) :=
  r <- ReadFile faults path;;
  ret (match r with
       | Ok data =>
           match unmarshal_checkpoint data with
           | Some n => Ok n
           | None => Err (Wrap "decode remote_write checkpoint" ErrDecode)
           end
       | Err e => if IsNotExist e then Ok 0 else Err (Wrap "read remote_write checkpoint" e)
       end).

(** ** Delivery of transitions *)

(** [pending[start:end]] for successive batches; [BatchSize] is positive. *)
Fixpoint batches (fuel : nat) (size : nat) (l : list Event.t) : list (list Event.t) :=
  match fuel, l with
  | O, _ | _, [] => []
  | S fuel', _ => take size l :: batches fuel' size (drop size l)
  end.

Definition batch_last (batch : list Event.t) : Z :=
  match last batch with Some e => Event.Sequence e | None => 0 end.

(** Stop at the first batch that fails. *)
Fixpoint send_batches (bs : list (list Event.t)) : R (option send_error) :=
  match bs with
  | [] => ret None
  | batch :: bs' =>
      e <- sendBatch batch;;
      match e with
      | Some e => ret (Some e)
      | None =>
          e <- saveCheckpoint (batch_last batch);;
          match e with
          | Some e => ret (Some (CheckpointError (Wrap "persist remote_write checkpoint after successful batch" e)))
          | None => send_batches bs'
          end
      end
  end.

(** The events after the checkpoint, ordered by sequence number. *)
Definition pending_events (last : Z) (events : list Event.t) : list Event.t :=
  sort_by_key Event.Sequence (filter (λ e, last < Event.Sequence e) events).

Definition sendEventsLocked (events : list Event.t) : R (option send_error) :=
  s <- get_fst;;
  let pending := pending_events (Sender.lastSent s) events in
  send_batches (batches (length pending) (Z.to_nat (Config.BatchSize (Sender.cfg s))) pending).

Definition Send (events : list Event.t) : R (option send_error) :=
  match events with
  | [] => ret None
  | _ => sendEventsLocked events
  end.

(** ** Migration of a single-target checkpoint *)

Definition mark_migrated (marker destination : string) : M world (option goerror) :=
  WriteFile faults marker (to_bytes destination ++ [newline]).

(** From the creation of the destination on, a failure removes it again. *)
Definition copy_checkpoint (marker destination : string) (data : bytes) : M world (option goerror) :=
  e <- File_WriteAll faults destination (data ++ [newline]);;
  match e with
  | Some e => give_back destination (Wrap "write migrated checkpoint" e)
  | None =>
      e <- File_Sync faults destination;;
      match e with
      | Some e => give_back destination (Wrap "sync migrated checkpoint" e)
      | None =>
          e <- File_Close faults destination;;
          match e with
          | Some e => give_back destination (Wrap "close migrated checkpoint" e)
          | None =>
              e <- mark_migrated marker destination;;
              match e with
              | Some e => give_back destination (Wrap "write checkpoint migration marker" e)
              | None => _ <- File_Close faults destination;; ret None
              end
          end
      end
  end.

Definition MigrateCheckpoint (source destination : string) : M world (option goerror) :=
  if bool_decide (source = "") || bool_decide (destination = "") || bool_decide (source = destination)
  then ret None
  else
    let marker := source +:+ ".migrated" in
    r <- ReadFile faults marker;;
    match r with
    | Ok _ => ret None
    | Err e =>
        if negb (IsNotExist e) then ret (Some (Wrap "read checkpoint migration marker" e))
        else
          e <- Stat faults destination;;
          match e with
          | None => mark_migrated marker destination
          | Some e =>
              if negb (IsNotExist e) then ret (Some (Wrap "stat destination checkpoint" e))
              else
                r <- ReadFile faults source;;
                match r with
                | Err e =>
                    if IsNotExist e then ret None
                    else ret (Some (Wrap "read legacy remote_write checkpoint" e))
                | Ok data =>
                    match unmarshal_checkpoint data with
                    | None => ret (Some (Wrap "decode legacy remote_write checkpoint" ErrDecode))
                    | Some _ =>
                        e <- MkdirAll faults (Dir destination);;
                        match e with
                        | Some e => ret (Some (Wrap "create checkpoint directory" e))
                        | None =>
                            e <- OpenExcl faults destination;;
                            match e with
                            | Some e =>
                                if IsExist e then ret None
                                else ret (Some (Wrap "create migrated checkpoint" e))
                            | None => copy_checkpoint marker destination data
                            end
                        end
                    end
                end
          end
    end.

(** ** Construction *)

Definition defaults (cfg : Config.t) : Config.t :=
  Config.mk (Config.Enabled cfg) (Config.URL cfg)
    (if Config.BatchSize cfg <=? 0 then 100 else Config.BatchSize cfg)
    (if Config.FlushInterval cfg <=? 0 then Second else Config.FlushInterval cfg)
    (if Config.RetryInterval cfg <=? 0 then Second else Config.RetryInterval cfg)
    (if Config.Timeout cfg <=? 0 then 10 * Second else Config.Timeout cfg)
    (if decide (Config.Checkpoint cfg = "")
     then "/var/lib/systemd-transition-exporter/remote_write.checkpoint" else Config.Checkpoint cfg)
    (if Config.StateInterval cfg <=? 0 then Minute else Config.StateInterval cfg)
    (Config.Labels cfg).

(** A disabled target has no sender. *)
Definition New (cfg : Config.t) : M world (result goerror (option Sender.t)) :=
  if negb (Config.Enabled cfg) then ret (Ok None)
  else if decide (Config.URL cfg = "") then ret (Err (ErrNew "remote_write.url is required when enabled"))
  else
    let cfg := defaults cfg in
    r <- loadCheckpoint (Config.Checkpoint cfg);;
    ret (match r with
         | Ok n => Ok (Some (Sender.mk cfg n 0 0 0 0))
         | Err e => Err e
         end).

Definition LastSent (s : Sender.t) : Z := Sender.lastSent s.
End RemoteWrite.
