(* ===== verification/RemoteWriteFacts.v ===== *)
(** * RemoteWriteFacts: specifications of the sender's operations *)

From S2P Require Import Prelude GoTime GoStrings Model GoOS Wal Json RemoteWrite.

(** ** Replies *)

Definition accepts (r : reply) : bool :=
  match r with Status code => (200 <=? code) && (code <? 300) | NoReply => false end.

(** What a reply means for the attempt loop. *)
Inductive verdict := Accepted | Rejected (code : Z) | Retry (e : send_error).
Definition classify (r : reply) : verdict :=
  match r with
  | Status code =>
      if (200 <=? code) && (code <? 300) then Accepted
      else if (400 <=? code) && (code <? 500) then Rejected code
      else Retry (ReceiverStatus code)
  | NoReply => Retry Transport
  end.
Definition retryable (r : reply) : Prop := match classify r with Retry _ => True | _ => False end.

Lemma accepts_classify r : accepts r = true ↔ classify r = Accepted.
Proof. unfold accepts, classify. destruct r as [code|]; [|done]. destruct_bools. by repeat case_match. Qed.

Lemma retryable_not_accepted r : retryable r → accepts r = false.
Proof.
  intros Hr. destruct (accepts r) eqn:Ha; [|done]. apply accepts_classify in Ha.
  unfold retryable in Hr. by rewrite Ha in Hr.
Qed.

(** The payloads that were answered with success. *)
Definition accepted (rs : list (bytes * reply)) : list bytes :=
  omap (λ '(p, r), if accepts r then Some p else None) rs.

Lemma accepted_app rs1 rs2 : accepted (rs1 ++ rs2) = accepted rs1 ++ accepted rs2.
Proof. apply omap_app. Qed.

Lemma accepted_retryable payload rs :
  Forall retryable rs → accepted ((payload,.) <$> rs) = [].
Proof.
  induction 1 as [|r rs Hr Hrs IH]; [done|]. unfold accepted in *. cbn.
  rewrite retryable_not_accepted by done. exact IH.
Qed.

Section Facts.
Context (faults : oracle) (net : network).

(** Requests and statistics aside, nothing changed. *)
Definition same_position (s s' : Sender.t) : Prop :=
  Sender.cfg s' = Sender.cfg s ∧ Sender.lastSent s' = Sender.lastSent s.

(** One call of the attempt loop: every reply but the last asked for a retry,
    and the last one decides the result. *)
Definition attempted (payload : bytes) (left : nat) (s s' : Sender.t) (e e' : env)
    (res : option send_error) : Prop :=
  ∃ rs r, requests e' = requests e ++ ((payload,.) <$> rs ++ [r]) ∧ (length rs <= left)%nat ∧
    Forall retryable rs ∧
    match classify r with
    | Accepted => res = None
    | Rejected code => res = Some (Permanent code)
    | Retry err => res = Some err ∧ length rs = left ∨ res = Some Cancelled
    end ∧ disk e' = disk e ∧ same_position s s'.

Lemma attempts_spec payload n left : ∀ s e res s' e',
  attempts net payload n left (s, e) = (res, (s', e')) → attempted payload left s s' e e' res.
Proof.
  induction left as [|left IH]; intros s e res s' e' H; cbn [attempts] in H;
    bind_inv H as r s1 H1; cbn [Do] in H1; revert H1; generalize (answer net (length (requests e)));
    intros r0 [= -> <-].
  - exists [], r. cbn [app fmap list_fmap length].
    assert (∀ err, (_ <- modify_fst Sender.failed;; ret (Some err))
        (s, Env (disk e) (requests e ++ [(payload, r)])) = (res, (s', e')) →
      res = Some err ∧ requests e' = requests e ++ [(payload, r)] ∧ disk e' = disk e ∧ same_position s s')
      as Hagain by (intros err [= <- <- <-]; done).
    unfold classify. destruct r as [code|].
    + destruct ((200 <=? code) && (code <? 300)); [by injection H as <- <- <-|].
      destruct ((400 <=? code) && (code <? 500)); [by injection H as <- <- <-|].
      apply Hagain in H as (-> & ? & ? & ?). split_and!; try done. by left.
    + apply Hagain in H as (-> & ? & ? & ?). split_and!; try done. by left.
  - assert (∀ err, classify r = Retry err →
      (_ <- modify_fst Sender.failed;; _ <- modify_fst Sender.retried;; stop <- ctx_done net;;
        if (stop : bool) then ret (Some Cancelled) else attempts net payload n left)
        (s, Env (disk e) (requests e ++ [(payload, r)])) = (res, (s', e')) →
      attempted payload (S left) s s' e e' res) as Hagain.
    { intros err Herr Hk. bind_inv Hk as u1 s1 H1. injection H1 as _ <-.
      bind_inv Hk as u2 s2 H2. injection H2 as _ <-. bind_inv Hk as stop s3 H3. injection H3 as Hstop <-.
      destruct stop.
      - injection Hk as <- <- <-. exists [], r. rewrite Herr. split_and!; try done; [simpl; lia|by right].
      - apply IH in Hk as (rs & r' & Hreq & Hlen & Hrs & Hres & Hdisk & Hcfg & Hlast).
        exists (r :: rs), r'. cbn [app]. rewrite fmap_cons, Hreq. cbn [requests]. rewrite <-app_assoc.
        split_and!; try done; [simpl; lia|constructor; [|done]; unfold retryable; by rewrite Herr|].
        destruct (classify r'); try done. destruct Hres as [[? ?]|?]; [left|by right]. simpl. auto. }
    destruct r as [code|] eqn:Hr.
    + destruct ((200 <=? code) && (code <? 300)) eqn:H2.
      { injection H as <- <- <-. exists [], (Status code). unfold classify. rewrite H2. split_and!; try done; simpl; lia. }
      destruct ((400 <=? code) && (code <? 500)) eqn:H4.
      { injection H as <- <- <-. exists [], (Status code). unfold classify. rewrite H2, H4. split_and!; try done; simpl; lia. }
      eapply Hagain; [|exact H]. unfold classify. by rewrite H2, H4.
    + by eapply Hagain.
Qed.

(** The payload of a batch of transitions. *)
Definition batch_payload (cfg : Config.t) (batch : list Event.t) : option bytes :=
  encode_request net (make_request (make_series cfg (event_sample <$> batch))).

Lemma attempted_accepted payload left s s' e e' res :
  attempted payload left s s' e e' res →
  accepted (requests e') = accepted (requests e) ++ match res with None => [payload] | Some _ => [] end.
Proof.
  intros (rs & r & -> & _ & Hrs & Hres & _). rewrite accepted_app, fmap_app, accepted_app.
  rewrite accepted_retryable by done. f_equal. cbn. unfold accepted. cbn.
  destruct (classify r) eqn:Hr.
  - by rewrite (proj2 (accepts_classify r) Hr), Hres.
  - destruct (accepts r) eqn:Ha; [apply accepts_classify in Ha; congruence|by rewrite Hres].
  - destruct (accepts r) eqn:Ha; [apply accepts_classify in Ha; congruence|].
    by destruct Hres as [[-> _]| ->].
Qed.

Lemma sendBatch_spec batch s e res s' e' :
  sendBatch net batch (s, e) = (res, (s', e')) →
  disk e' = disk e ∧ same_position s s' ∧
  match res with
  | None => ∃ p, batch_payload (Sender.cfg s) batch = Some p ∧
      accepted (requests e') = accepted (requests e) ++ [p]
  | Some _ => accepted (requests e') = accepted (requests e)
  end.
Proof.
  intros H. unfold sendBatch in H. bind_inv H as s0 st0 H0. injection H0 as <- <-.
  unfold sendSeries in H. fold (batch_payload (Sender.cfg s) batch) in H.
  destruct (batch_payload (Sender.cfg s) batch) as [p|] eqn:Hp; [|by injection H as <- <- <-].
  bind_inv H as s1 st1 H1. injection H1 as <- <-.
  destruct (valid_url net (Config.URL (Sender.cfg s))); [|by injection H as <- <- <-].
  apply attempts_spec in H. pose proof (attempted_accepted _ _ _ _ _ _ _ H) as Ha.
  destruct H as (rs & r & _ & _ & _ & _ & Hdisk & Hpos). split_and!; [done|done|].
  destruct res; [by rewrite Ha, app_nil_r|by eauto].
Qed.

(** ** The checkpoint file *)

Definition checkpoint_bytes (seq : Z) : bytes := marshal_checkpoint seq ++ [newline].

Lemma tmp_ne path : path +:+ ".tmp" ≠ path.
Proof. induction path as [|c path IH]; [done|]. intros [= H]. done. Qed.

Lemma leaves_write_all p q data : q ≠ p → leaves p (File_WriteAll faults q data).
Proof. intros. apply leaves_bind; [by apply leaves_write|]. intros []. apply leaves_ret. Qed.

Lemma leaves_give_back p q e : q ≠ p → leaves p (give_back faults q e).
Proof. intros. unfold give_back. solve_leaves. Qed.

Lemma File_WriteAll_spec path data wd wd' :
  File_WriteAll faults path data wd = (None, wd') →
  content (file_at path (files wd')) = content (file_at path (files wd)) ++ data.
Proof.
  intros H. unfold File_WriteAll, File_Write, bind, next, append_bytes in H.
  destruct (faults SysWrite (ticks wd)) as [|errno k|k]; cbn in H.
  - injection H as H <-. cbn. by rewrite file_at_insert.
  - discriminate H.
  - destruct (Nat.eqb_spec (length (take k data)) (length data)) as [Hk|]; [|discriminate H].
    injection H as <-. cbn. rewrite file_at_insert. cbn. rewrite length_take in Hk.
    by rewrite (take_ge data) by lia.
Qed.

(** The checkpoint is either as before or complete and synced. *)
Definition checkpoint_written (path : string) (seq : Z) (wd' : world) : Prop :=
  ∃ f, files wd' !! path = Some f ∧ content f = checkpoint_bytes seq ∧ synced f = length (content f).

Lemma leaves_stage p q seq : q ≠ p → leaves p (stage_checkpoint faults q seq).
Proof.
  intros. pose proof leaves_write_all. pose proof leaves_give_back. unfold stage_checkpoint.
  solve_leaves; auto.
Qed.

Lemma leaves_settle p q dir : q ≠ p → leaves p (settle_checkpoint faults q dir).
Proof. intros. pose proof leaves_give_back. unfold settle_checkpoint. solve_leaves; auto. Qed.

Lemma stage_checkpoint_spec tmp seq wd wd' :
  stage_checkpoint faults tmp seq wd = (None, wd') → checkpoint_written tmp seq wd'.
Proof.
  intros H. unfold stage_checkpoint in H.
  bind_inv H as e1 wd1 H1. destruct e1 as [e1|]; [discriminate H|]. apply simple_call_spec in H1.
  assert (∀ e w w', give_back faults tmp e w = (None, w') → False) as Hback by (intros e w w' Hg;
    unfold give_back in Hg; bind_inv Hg as x1 y1 G1; bind_inv Hg as x2 y2 G2; discriminate Hg).
  bind_inv H as e2 wd2 H2. destruct e2 as [e2|]; [by apply Hback in H|].
  apply File_WriteAll_spec in H2. rewrite H1, file_at_insert in H2. simpl in H2.
  bind_inv H as e3 wd3 H3. destruct e3 as [e3|]; [by apply Hback in H|]. apply simple_call_spec in H3.
  bind_inv H as e4 wd4 H4. destruct e4 as [e4|]; [by apply Hback in H|]. injection H as <-.
  apply simple_call_spec in H4. exists (File (checkpoint_bytes seq) (length (checkpoint_bytes seq))).
  split_and!; [|done|done]. rewrite H4. unfold id. rewrite H3, lookup_insert_eq. by rewrite H2.
Qed.

Lemma Rename_spec from to wd e wd' :
  Rename faults from to wd = (e, wd') →
  match e with
  | None => ∃ f, files wd !! from = Some f ∧ files wd' !! to = Some f
  | Some _ => files wd' = files wd
  end.
Proof.
  intros H. unfold Rename, bind, next in H. cbn in H.
  destruct (faults SysRename (ticks wd)), (files wd !! from) as [f|] eqn:Hf; simplify_eq/=; try done;
    exists f; by rewrite lookup_insert_eq.
Qed.

Lemma writeCheckpoint_spec path seq wd e wd' :
  writeCheckpoint faults path seq wd = (e, wd') →
  match e with
  | None => checkpoint_written path seq wd'
  | Some _ => files wd' !! path = files wd !! path ∨ checkpoint_written path seq wd'
  end.
Proof.
  pose proof (tmp_ne path) as Hne. unfold writeCheckpoint. intros H.
  bind_inv H as e0 wd0 H0. pose proof (leaves_mkdir faults path _ _ _ _ H0) as L0.
  destruct e0 as [e0|]; [injection H as <- <-; by left|].
  bind_inv H as e1 wd1 H1. pose proof (leaves_stage path _ _ Hne _ _ _ H1) as L1.
  destruct e1 as [e1|]; [injection H as <- <-; left; congruence|].
  apply stage_checkpoint_spec in H1 as (f & Hf & Hc & Hs).
  bind_inv H as e2 wd2 H2. apply Rename_spec in H2. destruct e2 as [e2|].
  - pose proof (leaves_give_back path _ _ Hne _ _ _ H) as L3.
    unfold give_back in H. bind_inv H as x1 y1 G1. bind_inv H as x2 y2 G2. injection H as <- ->.
    left. rewrite L3, H2. congruence.
  - destruct H2 as (g & Hg & Hto). assert (g = f) as -> by congruence.
    pose proof (leaves_settle path _ _ Hne _ _ _ H) as L3.
    assert (checkpoint_written path seq wd') by (exists f; by rewrite L3). destruct e; auto.
Qed.

(** ** Delivery *)

Definition checkpoint_path (s : Sender.t) : string := Config.Checkpoint (Sender.cfg s).

Lemma saveCheckpoint_spec seq s e res s' e' :
  saveCheckpoint faults seq (s, e) = (res, (s', e')) →
  requests e' = requests e ∧ Sender.cfg s' = Sender.cfg s ∧
  (files (disk e') !! checkpoint_path s = files (disk e) !! checkpoint_path s ∨
    checkpoint_written (checkpoint_path s) seq (disk e')) ∧
  (Sender.lastSent s' = Sender.lastSent s ∨ Sender.lastSent s < seq ∧ Sender.lastSent s' = seq) ∧
  (res = None → seq <= Sender.lastSent s').
Proof.
  intros H. unfold saveCheckpoint in H. bind_inv H as s0 st0 H0. injection H0 as <- <-.
  destruct (Z.leb_spec seq (Sender.lastSent s)).
  { injection H as <- <- <-. split_and!; auto. }
  bind_inv H as e1 st1 H1. unfold on_disk in H1.
  destruct (writeCheckpoint _ _ _ _) as [e2 d] eqn:Hw. injection H1 as -> <-.
  apply writeCheckpoint_spec in Hw. destruct e1 as [e1|]; injection H as <- <- <-; cbn.
  - split_and!; auto. done.
  - split_and!; auto. intros _. lia.
Qed.

(** Batches are accepted in order; the position moves to the end of an
    accepted batch, never further. *)
Definition delivered (bs : list (list Event.t)) (s s' : Sender.t) (e e' : env) (res : option send_error) : Prop :=
  ∃ sent rest payloads, bs = sent ++ rest ∧
    Forall2 (λ b p, batch_payload (Sender.cfg s) b = Some p) sent payloads ∧
    accepted (requests e') = accepted (requests e) ++ payloads ∧
    Sender.cfg s' = Sender.cfg s ∧ Sender.lastSent s <= Sender.lastSent s' ∧
    (Sender.lastSent s' = Sender.lastSent s ∨ ∃ b, b ∈ sent ∧ Sender.lastSent s' = batch_last b) ∧
    (files (disk e') !! checkpoint_path s = files (disk e) !! checkpoint_path s ∨
      ∃ b, b ∈ sent ∧ checkpoint_written (checkpoint_path s) (batch_last b) (disk e')) ∧
    (res = None → rest = [] ∧ Forall (λ b, batch_last b <= Sender.lastSent s') sent).

Lemma send_batches_spec bs : ∀ s e res s' e',
  send_batches faults net bs (s, e) = (res, (s', e')) → delivered bs s s' e e' res.
Proof.
  induction bs as [|b bs IH]; intros s e res s' e' H; cbn [send_batches] in H.
  { injection H as <- <- <-. exists [], [], []. rewrite (app_nil_r (accepted _)).
    split_and!; try done; try lia; auto. }
  bind_inv H as e1 st1 H1. destruct st1 as [s1 en1].
  apply sendBatch_spec in H1 as (Hdisk & [Hcfg Hlast] & Hacc). destruct e1 as [e1|].
  { injection H as <- <- <-. exists [], (b :: bs), []. rewrite (app_nil_r (accepted _)), Hdisk, Hcfg, Hlast.
    split_and!; try done; try lia; auto. }
  destruct Hacc as (p & Hp & Hacc).
  bind_inv H as e2 st2 H2. destruct st2 as [s2 en2].
  apply saveCheckpoint_spec in H2 as (Hreq & Hcfg2 & Hdisk2 & Hlast2 & Hle).
  unfold checkpoint_path in Hdisk2. rewrite Hcfg, Hdisk in Hdisk2. rewrite Hlast in Hlast2.
  assert (Sender.lastSent s <= Sender.lastSent s2) as Hmono by lia.
  assert (Sender.lastSent s2 = Sender.lastSent s ∨ Sender.lastSent s2 = batch_last b) as Hpos by lia.
  destruct e2 as [e2|].
  { injection H as <- <- <-. exists [b], bs, [p]. rewrite Hreq, Hacc. split_and!; try done; [by constructor|congruence| |].
    - destruct Hpos; [by left|right]. exists b. split; [by left|done].
    - destruct Hdisk2; [by left|right]. exists b. split; [by left|done]. }
  apply IH in H as (sent & rest & ps & -> & Hps & Hacc' & Hcfg' & Hmono' & Hpos' & Hdisk' & Hnone).
  unfold checkpoint_path in Hdisk'. rewrite Hcfg2, Hcfg in *.
  exists (b :: sent), rest, (p :: ps). rewrite Hacc', Hreq, Hacc, <-app_assoc.
  split_and!; try done; [by constructor|lia| | |].
  - destruct Hpos' as [->|(b' & Hb & ->)]; [|right; exists b'; split; [by right|done]].
    destruct Hpos; [by left|right; exists b; split; [by left|done]].
  - destruct Hdisk' as [Hd|(b' & Hb & Hd)]; [|right; exists b'; split; [by right|done]].
    unfold checkpoint_path. rewrite Hd. destruct Hdisk2 as [?|(f & Hf & ?)]; [by left|right].
    exists b. split; [by left|]. exists f. by rewrite Hd.
  - intros Hres. destruct (Hnone Hres) as [-> Hall]. split; [done|]. constructor; [|done].
    specialize (Hle eq_refl). lia.
Qed.

(** ** Batches *)

Lemma concat_batches fuel size l :
  (0 < size)%nat → (length l <= fuel)%nat → concat (batches fuel size l) = l.
Proof.
  intros Hs. revert l. induction fuel as [|fuel IH]; intros [|x l] Hl; [done|simpl in Hl; lia|done|].
  cbn [batches concat]. rewrite IH.
  - apply take_drop.
  - rewrite length_drop. simpl in *. lia.
Qed.

Lemma batches_nonempty fuel size l : (0 < size)%nat → Forall (λ b, b ≠ []) (batches fuel size l).
Proof.
  intros Hs. revert l. induction fuel as [|fuel IH]; intros [|x l]; try constructor; [|by apply IH].
  by destruct size; [lia|].
Qed.

Lemma batch_last_elem b : b ≠ [] → ∃ e, e ∈ b ∧ batch_last b = Event.Sequence e.
Proof.
  intros Hb. unfold batch_last. destruct (last b) as [e|] eqn:He; [|by apply last_None in He].
  exists e. split; [|done]. apply last_Some in He as [l ->]. apply elem_of_app. right. by left.
Qed.

Lemma elem_le_batch_last b e :
  StronglySorted (key_le Event.Sequence) b → e ∈ b → Event.Sequence e <= batch_last b.
Proof.
  intros Hs He. unfold batch_last. destruct (last b) as [x|] eqn:Hx; [|apply last_None in Hx as ->; by inv He].
  apply last_Some in Hx as [l ->]. apply elem_of_app in He as [He| ->%list_elem_of_singleton]; [|lia].
  pose proof (StronglySorted_app_1_elem_of _ l [x] e x Hs He). unfold key_le in *. set_solver.
Qed.

(** An event that is not in the first batches comes after each of them. *)
Lemma sent_before_rest sent rest n e :
  StronglySorted (key_le Event.Sequence) (concat sent ++ rest) →
  NoDup (Event.Sequence <$> concat sent ++ rest) →
  Forall (λ b, b ≠ []) sent → (∃ b, b ∈ sent ∧ n = batch_last b) →
  e ∈ concat sent ++ rest → Event.Sequence e <= n → e ∈ concat sent.
Proof.
  intros Hs Hnd Hne (b & Hb & ->) He Hle. apply elem_of_app in He as [He|He]; [done|exfalso].
  rewrite Forall_forall in Hne. destruct (batch_last_elem b (Hne _ Hb)) as (e' & He' & Hl).
  assert (e' ∈ concat sent) as Hin by (apply elem_of_concat; eauto).
  rewrite fmap_app, NoDup_app in Hnd. destruct Hnd as (_ & Hdisj & _).
  apply (Hdisj (Event.Sequence e')); [by apply list_elem_of_fmap_2|].
  apply list_elem_of_fmap. exists e. split; [|done].
  pose proof (StronglySorted_app_1_elem_of _ _ _ e' e Hs Hin He) as Hle'. unfold key_le in Hle'. lia.
Qed.
End Facts.

(** ** Requests *)

Section Requests.
Context (cfg : Config.t).

(** The samples of one service among [xs], in order. *)
Definition samples_of (service : string) (xs : list (string * AvailabilityState * Z)) : list Sample :=
  omap (λ '(n, st, ts),
    if decide (n = service) then Some (mkSample (if decide (st = StateUp) then 1 else 0) ts) else None) xs.

Lemma samples_of_app service xs ys : samples_of service (xs ++ ys) = samples_of service xs ++ samples_of service ys.
Proof. apply omap_app. Qed.

Lemma make_series_lookup service xs :
  make_series cfg xs !! service =
    match samples_of service xs with
    | [] => None
    | l => Some (mkSeries (labels cfg service) l)
    end.
Proof.
  unfold make_series. induction xs as [|[[n st] ts] xs IH] using rev_ind; [done|].
  rewrite foldl_app, samples_of_app. cbn [foldl add_sample].
  assert (samples_of service [(n, st, ts)] =
    if decide (n = service) then [mkSample (if decide (st = StateUp) then 1 else 0) ts] else []) as ->
    by (unfold samples_of; cbn [omap list_omap]; by destruct (decide (n = service))).
  destruct (decide (n = service)) as [->|Hn].
  - rewrite lookup_insert_eq, IH. by destruct (samples_of service xs).
  - rewrite lookup_insert_ne by done. by rewrite IH, app_nil_r.
Qed.

Lemma series_name_make_series service xs ts :
  make_series cfg xs !! service = Some ts → series_name ts = service ∧ Labels ts = labels cfg service.
Proof. rewrite make_series_lookup. intros H. destruct (samples_of service xs); by simplify_eq/=. Qed.

Lemma elem_of_request xs ts :
  ts ∈ make_request (make_series cfg xs) ↔
  ∃ service, samples_of service xs ≠ [] ∧
    ts = mkSeries (labels cfg service) (sort_by_key Timestamp (samples_of service xs)).
Proof.
  unfold make_request. rewrite elem_of_sort_stable, list_elem_of_fmap. split.
  - intros (t0 & -> & Ht). apply list_elem_of_fmap in Ht as ([service t1] & -> & Ht%elem_of_map_to_list).
    rewrite make_series_lookup in Ht. exists service. destruct (samples_of service xs); by simplify_eq/=.
  - intros (service & Hne & ->). exists (mkSeries (labels cfg service) (samples_of service xs)).
    split; [done|]. apply list_elem_of_fmap. eexists (service, _). split; [done|].
    apply elem_of_map_to_list. rewrite make_series_lookup. by destruct (samples_of service xs).
Qed.

Lemma request_names_Permutation xs :
  series_name <$> make_request (make_series cfg xs) ≡ₚ (map_to_list (make_series cfg xs)).*1.
Proof.
  unfold make_request. rewrite sort_stable_Permutation, <-!list_fmap_compose.
  apply Permutation_refl'. apply list_fmap_ext. intros i [service ts] Hin. cbn.
  apply list_elem_of_lookup_2, elem_of_map_to_list, series_name_make_series in Hin as [Hname _].
  exact Hname.
Qed.

Lemma request_names_NoDup xs : NoDup (series_name <$> make_request (make_series cfg xs)).
Proof. rewrite request_names_Permutation. apply NoDup_fst_map_to_list. Qed.

(** The configured labels cannot collide with the two fixed ones. *)
Lemma labels_NoDup service : NoDup (Name <$> labels cfg service).
Proof.
  unfold labels. set (extra := filter _ (map_to_list (Config.Labels cfg))).
  assert (Name <$> sort_stable (λ a b, String.ltb (Name a) (Name b)) ((λ '(n, v), mkLabel n v) <$> extra)
    ≡ₚ extra.*1) as Hp.
  { rewrite sort_stable_Permutation, <-list_fmap_compose. apply Permutation_refl'.
    apply list_fmap_ext. by intros i [n v] _. }
  assert (∀ n, n ∈ extra.*1 → reserved n = false) as Hr.
  { intros n ([n' v] & -> & Hin)%list_elem_of_fmap. by apply list_elem_of_filter in Hin as [? _]. }
  rewrite fmap_app, Hp. cbn [fmap list_fmap Name app].
  apply NoDup_cons. split; [|apply NoDup_cons; split].
  - intros [?|Hin]%elem_of_cons; [done|]. by apply Hr in Hin.
  - intros Hin. by apply Hr in Hin.
  - eapply sublist_NoDup; [apply (NoDup_fst_map_to_list (Config.Labels cfg))|].
    apply fmap_sublist, sublist_filter.
Qed.
End Requests.

(** Sorting by a string key. *)
Section SortByName.
Context {A : Type} (name : A → string).

Lemma sort_by_name_sorted l :
  StronglySorted (λ a b, String.le (name a) (name b)) (sort_stable (λ a b, String.ltb (name a) (name b)) l).
Proof.
  eapply StronglySorted_impl; [intros a b; apply ltb_le|]. apply sort_stable_sorted.
  - intros a b. unfold String.ltb. rewrite (String.compare_antisym (name b) (name a)).
    by destruct (String.compare (name a) (name b)).
  - intros a b c. unfold not_after. rewrite !ltb_le. intros. by trans (name b).
Qed.
End SortByName.
