(* ===== verification/RemoteWriteTheorems.v ===== *)
(** * RemoteWriteTheorems: what the sender promises *)

From S2P Require Import Prelude GoTime GoStrings Model Samples GoOS Wal Json RemoteWrite RemoteWriteFacts.

(** The sequence number a checkpoint file holds. *)
Definition checkpoint_value (path : string) (wd : world) : option Z :=
  files wd !! path ≫= λ f, unmarshal_checkpoint (content f).

Lemma checkpoint_written_value path seq wd :
  in_u64 seq → checkpoint_written path seq wd → checkpoint_value path wd = Some seq.
Proof.
  intros Hseq (f & Hf & Hc & _). unfold checkpoint_value. rewrite Hf. simpl. rewrite Hc.
  apply unmarshal_marshal_checkpoint; [done|ground_spaces].
Qed.

(** The events a position [n] declares delivered. *)
Definition covered (last n : Z) (events delivered : list Event.t) : Prop :=
  ∀ e, e ∈ events → last < Event.Sequence e <= n → e ∈ delivered.

Section Theorems.
Context (faults : oracle) (net : network).

Lemma elem_of_pending last events e :
  e ∈ pending_events last events ↔ e ∈ events ∧ last < Event.Sequence e.
Proof. unfold pending_events. rewrite elem_of_sort_by_key, list_elem_of_filter. tauto. Qed.

Lemma pending_sorted last events : StronglySorted (key_le Event.Sequence) (pending_events last events).
Proof. apply sort_by_key_sorted. Qed.

Lemma pending_NoDup last events :
  NoDup (Event.Sequence <$> events) → NoDup (Event.Sequence <$> pending_events last events).
Proof.
  intros Hnd. unfold pending_events. rewrite sort_by_key_Permutation.
  eapply sublist_NoDup; [exact Hnd|]. apply fmap_sublist, sublist_filter.
Qed.

Lemma covered_by_sent last events sent rest n :
  NoDup (Event.Sequence <$> events) → pending_events last events = concat sent ++ rest →
  Forall (λ b, b ≠ []) sent → (n <= last ∨ ∃ b, b ∈ sent ∧ n = batch_last b) →
  covered last n events (concat sent).
Proof.
  intros Hnd Hp Hne Hn e He Hrange. destruct Hn as [?|Hn]; [lia|].
  apply (sent_before_rest sent rest n); [| |done|done| |lia].
  - rewrite <-Hp. apply pending_sorted.
  - rewrite <-Hp. by apply pending_NoDup.
  - rewrite <-Hp. apply elem_of_pending. split; [done|lia].
Qed.

(** When every batch was sent, the position has passed every event. *)
Lemma all_delivered last n events sent :
  concat sent = pending_events last events → Forall (λ b, batch_last b <= n) sent → last <= n →
  Forall (λ e, Event.Sequence e <= n) events.
Proof.
  intros Hcat Hall Hn. apply Forall_forall. intros e He.
  destruct (decide (Event.Sequence e <= last)); [lia|].
  assert (e ∈ concat sent) as Hin by (rewrite Hcat; apply elem_of_pending; split; [done|lia]).
  apply elem_of_concat in Hin as (b & Hb & Hin). rewrite Forall_forall in Hall.
  etransitivity; [|by apply Hall]. apply elem_le_batch_last; [|done].
  eapply StronglySorted_sublist; [by apply sublist_of_concat|]. rewrite Hcat. apply pending_sorted.
Qed.
End Theorems.

Module RemoteWriteTheorems.
(** C5: Whatever the receiver answers and whatever the disk does, [Send]
    delivers at least once: the batches accepted with a 2xx status are a
    prefix of the pending events in sequence order, the position in memory
    never moves back, and neither that position nor a checkpoint newly written
    to disk covers an event that was not in an accepted batch. When [Send]
    succeeds every pending event was accepted and the position has passed all
    of them. *)
Theorem checkpoint_never_passes_acceptance (faults : oracle) (net : network) (events : list Event.t)
    (s s' : Sender.t) (e e' : env) (res : option send_error) :
  0 < Config.BatchSize (Sender.cfg s) →
  NoDup (Event.Sequence <$> events) → Forall (λ ev, in_u64 (Event.Sequence ev)) events →
  Send faults net events (s, e) = (res, (s', e')) →
  ∃ sent payloads,
    Forall2 (λ b p, batch_payload net (Sender.cfg s) b = Some p) sent payloads ∧
    accepted (requests e') = accepted (requests e) ++ payloads ∧
    concat sent `prefix_of` pending_events (Sender.lastSent s) events ∧
    Sender.lastSent s <= Sender.lastSent s' ∧
    covered (Sender.lastSent s) (Sender.lastSent s') events (concat sent) ∧
    (∀ n, checkpoint_value (checkpoint_path s) (disk e') = Some n →
      checkpoint_value (checkpoint_path s) (disk e) = Some n ∨
      covered (Sender.lastSent s) n events (concat sent)) ∧
    (res = None → concat sent = pending_events (Sender.lastSent s) events ∧
      Forall (λ ev, Event.Sequence ev <= Sender.lastSent s') events).
Proof.
  intros Hsize Hnd Hu64 H. unfold Send in H.
  assert (sendEventsLocked faults net events (s, e) = (res, (s', e'))) as H'
    by (destruct events; [by injection H as <- <- <-|done]). clear H.
  unfold sendEventsLocked in H'. bind_inv H' as s0 st0 H0. injection H0 as <- <-.
  apply send_batches_spec in H' as (sent & rest & ps & Hbs & Hps & Hacc & _ & Hmono & Hpos & Hdisk & Hnone).
  set (pend := pending_events (Sender.lastSent s) events) in *.
  set (size := Z.to_nat (Config.BatchSize (Sender.cfg s))) in *.
  assert (concat sent ++ concat rest = pend) as Hconcat.
  { rewrite <-concat_app, <-Hbs. apply concat_batches; lia. }
  assert (Forall (λ b, b ≠ []) sent) as Hne.
  { pose proof (batches_nonempty (length pend) size pend) as Hall. rewrite Hbs, Forall_app in Hall.
    apply Hall. lia. }
  assert (∀ n, (n <= Sender.lastSent s ∨ ∃ b, b ∈ sent ∧ n = batch_last b) →
    covered (Sender.lastSent s) n events (concat sent)) as Hcov
    by (intros n; by apply covered_by_sent with (concat rest)).
  exists sent, ps. split_and!; [done|done|by exists (concat rest)|done| | |].
  - apply Hcov. destruct Hpos as [->|?]; [left; lia|by right].
  - intros n Hn. destruct Hdisk as [Hsame|(b & Hb & Hw)].
    { left. unfold checkpoint_value in *. by rewrite <-Hsame. }
    right. apply Hcov. right. exists b. split; [done|]. apply checkpoint_written_value in Hw; [congruence|].
    rewrite Forall_forall in Hne. rewrite Forall_forall in Hu64. destruct (batch_last_elem b (Hne _ Hb)) as (ev & Hev & ->).
    apply Hu64. apply (elem_of_pending (Sender.lastSent s) events ev). fold pend. rewrite <-Hconcat.
    apply elem_of_app. left. apply elem_of_concat. eauto.
  - intros Hres. destruct (Hnone Hres) as [-> Hall]. simpl in Hconcat. rewrite app_nil_r in Hconcat.
    split; [done|]. by eapply all_delivered.
Qed.

(** C27: A request has exactly one series per service that has a sample,
    ordered by service name, holding that service's samples sorted by time
    with equal times in their original order; the labels of a series begin
    with the metric name and the service, no label name occurs twice, and a
    configured label cannot replace those two. *)
Theorem request_groups_samples (cfg : Config.t) (xs : list (string * AvailabilityState * Z)) :
  (∀ ts, ts ∈ make_request (make_series cfg xs) ↔
    ∃ service, samples_of service xs ≠ [] ∧
      ts = mkSeries (labels cfg service) (sort_by_key Timestamp (samples_of service xs))) ∧
  NoDup (series_name <$> make_request (make_series cfg xs)) ∧
  StronglySorted (λ a b, String.le (series_name a) (series_name b)) (make_request (make_series cfg xs)) ∧
  ∀ service, labels cfg service !! 0%nat = Some (mkLabel "__name__" "systemd_service_state") ∧
    labels cfg service !! 1%nat = Some (mkLabel "name" service) ∧
    NoDup (Name <$> labels cfg service).
Proof.
  split_and!; [apply elem_of_request|apply request_names_NoDup|apply sort_by_name_sorted|].
  intros service. split_and!; [done|done|]. apply labels_NoDup.
Qed.

(** C26: One delivery makes at most three requests, all with the same payload,
    and goes on only after an answer that asks for a retry; the last answer
    decides the result (accepted, permanently rejected, or the retryable error
    after the third attempt or a cancelled context), and neither the position
    nor the disk changes. *)
Theorem attempts_are_bounded (net : network) (series : gmap string TimeSeries)
    (s s' : Sender.t) (e e' : env) (res : option send_error) :
  sendSeries net series (s, e) = (res, (s', e')) →
  same_position s s' ∧ disk e' = disk e ∧
  ((requests e' = requests e ∧ (res = Some MarshalError ∨ res = Some BadURL)) ∨
   ∃ payload rs r, encode_request net (make_request series) = Some payload ∧
     requests e' = requests e ++ ((payload,.) <$> rs ++ [r]) ∧ (length rs < maxAttempts)%nat ∧
     Forall retryable rs ∧
     match classify r with
     | Accepted => res = None
     | Rejected code => res = Some (Permanent code)
     | Retry err => res = Some err ∧ S (length rs) = maxAttempts ∨ res = Some Cancelled
     end).
Proof.
  intros H. unfold sendSeries in H.
  destruct (encode_request net (make_request series)) as [payload|] eqn:Hp;
    [|injection H as <- <- <-; split_and!; auto; done].
  bind_inv H as s0 st0 H0. injection H0 as <- <-.
  destruct (valid_url net (Config.URL (Sender.cfg s)));
    [|injection H as <- <- <-; split_and!; auto; done].
  apply attempts_spec in H as (rs & r & Hreq & Hlen & Hrs & Hres & Hdisk & Hpos).
  split_and!; [done..|]. right. exists payload, rs, r. split_and!; try done.
  - unfold maxAttempts in *. simpl in Hlen. lia.
  - destruct (classify r); try done. destruct Hres as [[-> ->]| ->]; [by left|by right].
Qed.

(** ** Concrete data for the witnesses *)

Definition sample_cfg : Config.t :=
  Config.mk true "http://receiver/write" 2 Second Second (10 * Second) "/c/cp" Minute
    {["site" := "a"; "name" := "spoofed"]}.
Definition sample_sender : Sender.t := Sender.mk sample_cfg 4 0 0 0 0.

(** The first request fails, the third is rejected, the rest is accepted. *)
Definition flaky : network :=
  Network (λ n, match n with 0 => Status 503 | 2 => Status 400 | _ => Status 204 end%nat) (λ _, false)
    (λ req, Some (concat ((λ ts, to_bytes (series_name ts)) <$> req))) (λ _, true).
Definition calm : oracle := λ _ _, Fine.
Definition sample_env : env := Env (World ∅ 0) [].

(** Sequence 4 was delivered before; 5 to 7 make two batches. *)
Definition sample_events : list Event.t :=
  [sample_event 6 "b" StateUp 2000; sample_event 4 "a" StateUp 500;
   sample_event 5 "a" StateDown 1000; sample_event 7 "a" StateUp 3000].

Lemma attempts_are_bounded_witness :
  let r := sendSeries flaky (make_series sample_cfg (event_sample <$> sample_events)) (sample_sender, sample_env) in
  r.1 = None ∧ length (requests r.2.2) = 2%nat ∧ same_position sample_sender r.2.1.
Proof.
  split; [by vm_compute|]. split; [by vm_compute|].
  apply (attempts_are_bounded flaky (make_series sample_cfg (event_sample <$> sample_events))
    sample_sender _ sample_env (sendSeries flaky (make_series sample_cfg (event_sample <$> sample_events))
      (sample_sender, sample_env)).2.2
    (sendSeries flaky (make_series sample_cfg (event_sample <$> sample_events)) (sample_sender, sample_env)).1).
  by destruct (sendSeries _ _ _) as [? []].
Defined.

(** The second batch is rejected: the position stays at the end of the first. *)
Lemma checkpoint_never_passes_acceptance_witness :
  let r := Send calm flaky sample_events (sample_sender, sample_env) in
  r.1 = Some (Permanent 400) ∧ Sender.lastSent r.2.1 = 6 ∧
  checkpoint_value "/c/cp" (disk r.2.2) = Some 6 ∧
  ∃ sent, concat sent `prefix_of` pending_events 4 sample_events ∧ covered 4 6 sample_events (concat sent).
Proof.
  split; [by vm_compute|]. split; [by vm_compute|]. split; [by vm_compute|].
  destruct (checkpoint_never_passes_acceptance calm flaky sample_events sample_sender
    (Send calm flaky sample_events (sample_sender, sample_env)).2.1 sample_env
    (Send calm flaky sample_events (sample_sender, sample_env)).2.2
    (Send calm flaky sample_events (sample_sender, sample_env)).1)
    as (sent & ps & _ & _ & Hpre & _ & Hcov & _).
  - done.
  - by apply (bool_decide_eq_true_1 _).
  - ground_forall.
  - by destruct (Send _ _ _ _) as [? []].
  - exists sent. split; [exact Hpre|].
    assert (Sender.lastSent (Send calm flaky sample_events (sample_sender, sample_env)).2.1 = 6) as Hl
      by (by vm_compute).
    rewrite Hl in Hcov. exact Hcov.
Defined.
End RemoteWriteTheorems.
