(* ===== verification/Migration.v ===== *)
(** * Migration: what [MigrateCheckpoint] does to the files *)

From S2P Require Import Prelude GoTime GoStrings Model GoOS Wal Json RemoteWrite RemoteWriteFacts RemoteWriteTheorems.

Section Frame.
Context (faults : oracle).

Lemma leaves_stat p q : leaves p (Stat faults q).
Proof.
  intros w e w' H. unfold Stat, bind, next in H. simpl in H. repeat case_match; by simplify_eq/=.
Qed.

Lemma leaves_write_file p q data : q ≠ p → leaves p (WriteFile faults q data).
Proof.
  intros Hne. pose proof (leaves_write_all faults p q) as Hw. unfold WriteFile. solve_leaves; by apply Hw.
Qed.

Lemma leaves_copy p marker destination data :
  marker ≠ p → destination ≠ p → leaves p (copy_checkpoint faults marker destination data).
Proof.
  intros Hm Hd. pose proof (leaves_write_all faults p destination) as Hw.
  pose proof (leaves_give_back faults p destination) as Hg.
  pose proof (leaves_write_file p marker) as Hf. unfold copy_checkpoint, mark_migrated. solve_leaves; auto.
Qed.

Lemma leaves_open_excl p q : q ≠ p → leaves p (OpenExcl faults q).
Proof.
  intros Hne w e w' H. unfold OpenExcl, bind, next in H. simpl in H.
  repeat case_match; simplify_eq/=; try done; by rewrite lookup_insert_ne.
Qed.

Lemma OpenExcl_spec path wd e wd' :
  OpenExcl faults path wd = (e, wd') →
  match e with
  | None => files wd !! path = None ∧ files wd' = <[path := File [] 0]> (files wd)
  | Some _ => files wd' = files wd
  end.
Proof.
  intros H. unfold OpenExcl, bind, next in H. simpl in H. repeat case_match; by simplify_eq/=.
Qed.

Lemma leaves_migrate_source source destination :
  source ≠ destination → leaves source (MigrateCheckpoint faults source destination).
Proof.
  intros Hne. assert (source +:+ ".migrated" ≠ source) as Hm.
  { clear. induction source as [|c s IH]; [done|]. intros [= H]. done. }
  pose proof (leaves_stat source) as H1. pose proof (leaves_write_file source (source +:+ ".migrated")) as H2.
  pose proof (leaves_copy source (source +:+ ".migrated") destination) as H3.
  pose proof (leaves_open_excl source destination) as H4.
  unfold MigrateCheckpoint, mark_migrated. solve_leaves; auto.
Qed.
End Frame.

Section Outcomes.
Context (faults : oracle).

(** Either the destination is as before, or it was created empty and filled. *)
Lemma MigrateCheckpoint_inv source destination wd e wd' :
  destination ≠ source +:+ ".migrated" →
  MigrateCheckpoint faults source destination wd = (e, wd') →
  files wd' !! destination = files wd !! destination ∨ files wd !! destination = None.
Proof.
  intros Hm H. unfold MigrateCheckpoint in H. case_match; [injection H as <- <-; by left|].
  bind_inv H as r wd1 H1. pose proof (leaves_read_file faults destination _ _ _ _ H1) as L1.
  destruct r as [data|e1]; [injection H as <- <-; by left|].
  destruct (IsNotExist e1); [|injection H as <- <-; by left]. cbn [negb] in H.
  bind_inv H as e2 wd2 H2. pose proof (leaves_stat faults destination _ _ _ _ H2) as L2.
  destruct e2 as [e2|].
  2:{ left. rewrite (leaves_write_file faults destination _ _ (not_eq_sym Hm) _ _ _ H). congruence. }
  destruct (IsNotExist e2); [|injection H as <- <-; left; congruence]. cbn [negb] in H.
  bind_inv H as r wd3 H3. pose proof (leaves_read_file faults destination _ _ _ _ H3) as L3.
  destruct r as [data|e3]; [|destruct (IsNotExist e3); injection H as <- <-; left; congruence].
  destruct (unmarshal_checkpoint data); [|injection H as <- <-; left; congruence].
  bind_inv H as e4 wd4 H4. pose proof (leaves_mkdir faults destination _ _ _ _ H4) as L4.
  destruct e4 as [e4|]; [injection H as <- <-; left; congruence|].
  bind_inv H as e5 wd5 H5. apply OpenExcl_spec in H5. destruct e5 as [e5|].
  - left. destruct (IsExist e5); injection H as <- <-; rewrite H5; congruence.
  - right. destruct H5 as [H5 _]. congruence.
Qed.

Lemma ReadFile_missing path wd r wd' :
  files wd !! path = None → ReadFile faults path wd = (r, wd') → ∃ e, r = Err e ∧ files wd' = files wd.
Proof.
  intros Hf H. unfold ReadFile in H. bind_inv H as r0 wd0 H0. unfold OpenRead, bind, next in H0. simpl in H0.
  rewrite Hf in H0. destruct (faults SysOpen (ticks wd)); injection H0 as <- <-; injection H as <- <-; eauto.
Qed.

Lemma ReadFile_existing path f wd r wd' :
  honest faults → files wd !! path = Some f → ReadFile faults path wd = (r, wd') →
  files wd' = files wd ∧ match r with Ok data => data = content f | Err e => IsNotExist e = false end.
Proof.
  intros Hh Hf H. unfold ReadFile in H. bind_inv H as r0 wd0 H0.
  apply (OpenRead_existing _ _ _ _ _ _ Hf) in H0 as [Hf0 Hr]. destruct r0 as [g|e0].
  - subst g. bind_inv H as de wd1 H1. destruct de as [data e]. pose proof H1 as H2.
    apply ReadToEnd_spec in H1 as [Hf1 Hd]. injection H as <- ->. split; [congruence|].
    destruct e as [e|]; [|by apply Hd]. unfold ReadToEnd, bind, next in H2.
    destruct (faults SysRead (ticks wd0)) as [|errno k|k] eqn:Hx; simplify_eq/=.
    apply Hh in Hx as [Hx _]. by apply Z.eqb_neq.
  - destruct Hr as (c & n & errno & k & Hx & ->). injection H as <- <-. split; [done|]. simpl.
    apply Hh in Hx as [Hx _]. by apply Z.eqb_neq.
Qed.

Lemma copy_checkpoint_spec marker destination data wd wd' :
  marker ≠ destination → files wd !! destination = Some (File [] 0) →
  copy_checkpoint faults marker destination data wd = (None, wd') →
  ∃ f, files wd' !! destination = Some f ∧ content f = data ++ [newline].
Proof.
  intros Hm Hf H. unfold copy_checkpoint in H.
  assert (∀ e w w', give_back faults destination e w = (None, w') → False) as Hback by (intros e w w' Hg;
    unfold give_back in Hg; bind_inv Hg as x1 y1 G1; bind_inv Hg as x2 y2 G2; discriminate Hg).
  bind_inv H as e1 wd1 H1. destruct e1 as [e1|]; [by apply Hback in H|].
  apply File_WriteAll_spec in H1. unfold file_at at 2 in H1. rewrite Hf in H1. simpl in H1.
  bind_inv H as e2 wd2 H2. destruct e2 as [e2|]; [by apply Hback in H|]. apply simple_call_spec in H2.
  bind_inv H as e3 wd3 H3. destruct e3 as [e3|]; [by apply Hback in H|]. apply simple_call_spec in H3.
  bind_inv H as e4 wd4 H4. pose proof (leaves_write_file faults destination marker _ Hm _ _ _ H4) as L4.
  destruct e4 as [e4|]; [by apply Hback in H|]. bind_inv H as e5 wd5 H5. injection H as ->.
  pose proof (leaves_close faults destination _ _ _ _ H5) as L5.
  exists (File (data ++ [newline]) (length (data ++ [newline]))). split; [|done].
  rewrite L5, L4, H3. unfold id. rewrite H2, lookup_insert_eq. by rewrite H1.
Qed.
End Outcomes.

Module MigrationTheorems.
(** C33: Under every pattern of disk failures the migration leaves the legacy
    checkpoint as it is and never changes a destination checkpoint that
    already exists. *)
Theorem migration_never_overwrites (faults : oracle) (source destination : string)
    (wd wd' : world) (e : option goerror) :
  source ≠ destination → destination ≠ source +:+ ".migrated" →
  MigrateCheckpoint faults source destination wd = (e, wd') →
  files wd' !! source = files wd !! source ∧
  ∀ f, files wd !! destination = Some f → files wd' !! destination = Some f.
Proof.
  intros Hne Hm H. split; [by apply (leaves_migrate_source faults source destination Hne _ _ _ H)|].
  intros f Hf. destruct (MigrateCheckpoint_inv _ _ _ _ _ _ Hm H); congruence.
Qed.

(** When the migration of a well-formed legacy checkpoint reports success and
    neither marker nor destination existed, the destination holds the same
    position. *)
Theorem migration_copies_position (faults : oracle) (source destination : string)
    (wd wd' : world) (f : file) (n : Z) :
  honest faults → in_u64 n → source ≠ "" → destination ≠ "" → source ≠ destination →
  destination ≠ source +:+ ".migrated" →
  files wd !! (source +:+ ".migrated") = None → files wd !! destination = None →
  files wd !! source = Some f → content f = checkpoint_bytes n →
  MigrateCheckpoint faults source destination wd = (None, wd') →
  checkpoint_value destination wd' = Some n.
Proof.
  intros Hh Hn Hs Hd Hne Hm Hmark Hdest Hf Hc H. unfold MigrateCheckpoint in H.
  rewrite !bool_decide_eq_false_2 in H by done. cbn [orb] in H.
  bind_inv H as r wd1 H1. apply (ReadFile_missing faults _ _ _ _ Hmark) in H1 as (e1 & -> & Hf1).
  destruct (IsNotExist e1); [|discriminate H]. cbn [negb] in H.
  bind_inv H as e2 wd2 H2. pose proof (leaves_stat faults destination _ _ _ _ H2) as L2.
  pose proof (leaves_stat faults source _ _ _ _ H2) as L2'.
  destruct e2 as [e2|].
  2:{ unfold Stat, bind, next in H2. simpl in H2. rewrite Hf1, Hdest in H2.
      destruct (faults SysStat (ticks wd1)); discriminate H2. }
  destruct (IsNotExist e2); [|discriminate H]. cbn [negb] in H.
  bind_inv H as r wd3 H3. rewrite Hf1, Hf in L2'.
  apply (ReadFile_existing faults _ _ _ _ _ Hh L2') in H3 as [Hf3 Hr].
  destruct r as [data|e3]; [|rewrite Hr in H; discriminate H]. subst data. rewrite Hc in H.
  unfold checkpoint_bytes in H at 1. rewrite unmarshal_marshal_checkpoint in H by (done || ground_spaces).
  bind_inv H as e4 wd4 H4. apply simple_call_spec in H4. destruct e4 as [e4|]; [discriminate H|].
  bind_inv H as e5 wd5 H5. pose proof H5 as H6. apply OpenExcl_spec in H6. destruct e5 as [e5|].
  { exfalso. unfold OpenExcl, bind, next in H5. simpl in H5. unfold id in H4.
    rewrite H4, Hf3, L2, Hf1, Hdest in H5.
    destruct (faults SysOpen (ticks wd4)) as [|errno k|k] eqn:Hx; simplify_eq/=.
    apply Hh in Hx as [_ Hx]. by rewrite (proj2 (Z.eqb_neq _ _) Hx) in H. }
  destruct H6 as [_ H6]. apply copy_checkpoint_spec in H as (g & Hg & Hgc);
    [|done|by rewrite H6, lookup_insert_eq].
  unfold checkpoint_value. rewrite Hg. simpl. rewrite Hgc. unfold checkpoint_bytes. rewrite <-app_assoc.
  apply unmarshal_marshal_checkpoint; [done|ground_spaces].
Qed.

(** A legacy checkpoint at sequence 9. *)
Definition legacy_file : file := File (checkpoint_bytes 9) 0.
Definition legacy_world : world := World {["/s/cp" := legacy_file]} 0.
Definition migrated : option goerror * world := MigrateCheckpoint (λ _ _, Fine) "/s/cp" "/s/cp-a" legacy_world.

Lemma migration_never_overwrites_witness :
  files migrated.2 !! "/s/cp" = Some legacy_file.
Proof.
  destruct (migration_never_overwrites (λ _ _, Fine) "/s/cp" "/s/cp-a" legacy_world migrated.2 migrated.1)
    as [H _]; [done|done|apply surjective_pairing|exact H].
Defined.

Lemma migration_copies_position_witness : checkpoint_value "/s/cp-a" migrated.2 = Some 9.
Proof.
  apply (migration_copies_position (λ _ _, Fine) "/s/cp" "/s/cp-a" legacy_world migrated.2 legacy_file 9).
  1: by intros c n errno k [=].
  1: unfold in_u64; lia.
  1-4: discriminate.
  all: vm_compute; reflexivity.
Defined.

(** The disk fills up while the marker is written. *)
Definition full_at_marker : oracle := λ c n,
  match c with SysWrite => if (n =? 10)%nat then Fail noSpaceErrno 0 else Fine | _ => Fine end.

(** When the disk fills up while the migration marker is written, the migrated
    checkpoint is removed but the empty marker stays: the next migration does
    nothing and the target starts from position zero although the legacy
    checkpoint is intact. *)
Theorem interrupted_marker_loses_position :
  let first := MigrateCheckpoint full_at_marker "/s/cp" "/s/cp-a" legacy_world in
  let second := MigrateCheckpoint (λ _ _, Fine) "/s/cp" "/s/cp-a" first.2 in
  first.1 = Some (Wrap "write checkpoint migration marker" (Errno noSpaceErrno)) ∧
  second.1 = None ∧
  checkpoint_value "/s/cp" second.2 = Some 9 ∧
  checkpoint_value "/s/cp-a" second.2 = None ∧
  (loadCheckpoint (λ _ _, Fine) "/s/cp-a" second.2).1 = Ok 0.
Proof. vm_compute. split_and!; reflexivity. Qed.
End MigrationTheorems.
