(* ===== verification/Delivery.v ===== *)
(** * Delivery: internal/delivery/worker.go

    One worker per receiver: it batches transitions, replays recovery jobs and
    publishes the availability of the units, in one goroutine. The sender is
    known only through the interface [SenderOps]. Producers enqueue between two
    steps of the worker and while it reads its surroundings or waits for its
    sender. Log lines are not modelled; [calls] records the calls made to the
    sender and [accepted] what the queue took, for the specification only. *)

From S2P Require Import Prelude GoTime GoStrings Model Slots GoOS RemoteWrite.

(** ** The interface of a sender *)

Class SenderOps (X : Type) := {
  sender_Send : list Event.t → M X (option send_error);
  sender_SendRecoveredStates : list StateSample.t → M X (option send_error);
  sender_LastSent : X → Z;
}.

(** ** Data *)

Record RecoveryJob := mkJob { Fill : list StateSample.t; JobEvents : list Event.t }.

Definition maxPendingStates : Z := 10000.
Definition queue_capacity : Z := 100000.

Module WConfig.
Record t := mk {
  BatchSize : Z;
  RecoveryWindow : Duration;
  Services : list string;
  StartupEvents : list Event.t;
  StartupFill : list StateSample.t;
  StartupSlot : time;
}.
End WConfig.

Inductive command := CmdEvent (event : Event.t) | CmdRecovery (recovery : RecoveryJob).

(** What the worker holds when it sends state samples: its batch, the recovery
    job that waits, and the time of the last sample published per service. *)
Record view := View {
  v_batch : list Event.t; v_recovery : option RecoveryJob; v_published : gmap string Z }.

Inductive call :=
  | CallSend (events : list Event.t) (res : option send_error)
  | CallStates (holding : view) (samples : list StateSample.t) (res : option send_error).

Module Worker.
Record t := mk {
  cfg : WConfig.t;
  queue : list command;
  published : gmap string Z;
  pendingStates : list StateSample.t;
  (* the locals of [Run] *)
  batch : list Event.t;
  degradedSince : time;
  pendingRecovery : option RecoveryJob;
  pendingSlotSamples : list time;
  nextOpening : time;
  nextClosing : time;
  dropped : Z;                        (* the total passed to [OnDropped] *)
  reads : nat;                        (* readings of the surroundings *)
  calls : list call;
  accepted : list command;            (* the commands the queue took *)
}.

Definition with_queue q w := mk (cfg w) q (published w) (pendingStates w) (batch w) (degradedSince w) (pendingRecovery w) (pendingSlotSamples w) (nextOpening w) (nextClosing w) (dropped w) (reads w) (calls w) (accepted w).
Definition with_published p w := mk (cfg w) (queue w) p (pendingStates w) (batch w) (degradedSince w) (pendingRecovery w) (pendingSlotSamples w) (nextOpening w) (nextClosing w) (dropped w) (reads w) (calls w) (accepted w).
Definition with_pendingStates l w := mk (cfg w) (queue w) (published w) l (batch w) (degradedSince w) (pendingRecovery w) (pendingSlotSamples w) (nextOpening w) (nextClosing w) (dropped w) (reads w) (calls w) (accepted w).
Definition with_batch b w := mk (cfg w) (queue w) (published w) (pendingStates w) b (degradedSince w) (pendingRecovery w) (pendingSlotSamples w) (nextOpening w) (nextClosing w) (dropped w) (reads w) (calls w) (accepted w).
Definition with_degradedSince d w := mk (cfg w) (queue w) (published w) (pendingStates w) (batch w) d (pendingRecovery w) (pendingSlotSamples w) (nextOpening w) (nextClosing w) (dropped w) (reads w) (calls w) (accepted w).
Definition with_pendingRecovery r w := mk (cfg w) (queue w) (published w) (pendingStates w) (batch w) (degradedSince w) r (pendingSlotSamples w) (nextOpening w) (nextClosing w) (dropped w) (reads w) (calls w) (accepted w).
Definition with_pendingSlotSamples l w := mk (cfg w) (queue w) (published w) (pendingStates w) (batch w) (degradedSince w) (pendingRecovery w) l (nextOpening w) (nextClosing w) (dropped w) (reads w) (calls w) (accepted w).
Definition with_nextOpening t w := mk (cfg w) (queue w) (published w) (pendingStates w) (batch w) (degradedSince w) (pendingRecovery w) (pendingSlotSamples w) t (nextClosing w) (dropped w) (reads w) (calls w) (accepted w).
Definition with_nextClosing t w := mk (cfg w) (queue w) (published w) (pendingStates w) (batch w) (degradedSince w) (pendingRecovery w) (pendingSlotSamples w) (nextOpening w) t (dropped w) (reads w) (calls w) (accepted w).
Definition add_dropped n w := mk (cfg w) (queue w) (published w) (pendingStates w) (batch w) (degradedSince w) (pendingRecovery w) (pendingSlotSamples w) (nextOpening w) (nextClosing w) (dropped w + n) (reads w) (calls w) (accepted w).
Definition next_read w := mk (cfg w) (queue w) (published w) (pendingStates w) (batch w) (degradedSince w) (pendingRecovery w) (pendingSlotSamples w) (nextOpening w) (nextClosing w) (dropped w) (S (reads w)) (calls w) (accepted w).
Definition take_in c w := mk (cfg w) (queue w ++ [c]) (published w) (pendingStates w) (batch w) (degradedSince w) (pendingRecovery w) (pendingSlotSamples w) (nextOpening w) (nextClosing w) (dropped w) (reads w) (calls w) (accepted w ++ [c]).
Definition look w := View (batch w) (pendingRecovery w) (published w).
Definition add_call c w := mk (cfg w) (queue w) (published w) (pendingStates w) (batch w) (degradedSince w) (pendingRecovery w) (pendingSlotSamples w) (nextOpening w) (nextClosing w) (dropped w) (reads w) (calls w ++ [c]) (accepted w).
End Worker.

(** What the worker reads from outside: the clock, the engine's states, whether
    its context is cancelled, and the time zone of the process; and what the
    producers send meanwhile. *)
Record surroundings := Surroundings {
  clock : nat → time;
  current : nat → string → option ServiceState.t;
  ctx_err : nat → bool;
  arrivals : nat → list command;
  location : Location;
}.

(** [New]: the batch size defaults to 100. *)
Definition NewWorker (cfg : WConfig.t) : Worker.t :=
  let size := if WConfig.BatchSize cfg <=? 0 then 100 else WConfig.BatchSize cfg in
  Worker.mk
    (WConfig.mk size (WConfig.RecoveryWindow cfg) (WConfig.Services cfg) (WConfig.StartupEvents cfg)
       (WConfig.StartupFill cfg) (WConfig.StartupSlot cfg))
    [] ∅ [] [] zero_time None [] zero_time zero_time 0 0 [] [].

(** A send on the buffered channel with a [default] branch. *)
Definition enqueue (c : command) (w : Worker.t) : bool * Worker.t :=
  if #(Worker.queue w) <? queue_capacity
  then (true, Worker.take_in c w) else (false, w).
Definition EnqueueEvent (event : Event.t) : Worker.t → bool * Worker.t := enqueue (CmdEvent event).
Definition EnqueueRecovery (fill : list StateSample.t) (events : list Event.t) : Worker.t → bool * Worker.t :=
  enqueue (CmdRecovery (mkJob fill events)).

(** ** The availability backlog *)

Definition pruneStates (loc : Location) (now : time) (w : Worker.t) : Worker.t :=
  let window := WConfig.RecoveryWindow (Worker.cfg w) in
  let kept :=
    if 0 <? window then
      filter (λ x, UnixMilli (SlotStart loc now window) <= StateSample.TimestampUnixMS x) (Worker.pendingStates w)
    else Worker.pendingStates w in
  let excess := #kept - maxPendingStates in
  Worker.with_pendingStates (if 0 <? excess then drop (Z.to_nat excess) kept else kept) w.

Definition bufferStates (loc : Location) (samples : list StateSample.t) (now : time) (w : Worker.t) : Worker.t :=
  match samples with
  | [] => w
  | _ => pruneStates loc now (Worker.with_pendingStates (Worker.pendingStates w ++ samples) w)
  end.

(** A sample at or before the last one published for its service. *)
Definition stale (published : gmap string Z) (x : StateSample.t) : bool :=
  match published !! StateSample.Service x with
  | Some last => StateSample.TimestampUnixMS x <=? last
  | None => false
  end.
Definition dropStale (w : Worker.t) (samples : list StateSample.t) : list StateSample.t :=
  filter (λ x, stale (Worker.published w) x = false) samples.

Definition notePublished (published : gmap string Z) (service : string) (ts : Z) : gmap string Z :=
  match published !! service with
  | Some last => if last <? ts then <[service := ts]> published else published
  | None => <[service := ts]> published
  end.
Definition noteSamples (samples : list StateSample.t) (published : gmap string Z) : gmap string Z :=
  foldl (λ m x, notePublished m (StateSample.Service x) (StateSample.TimestampUnixMS x)) published samples.

Definition slotStateSamples (services : list string) (current : string → option ServiceState.t) (at_ : time)
    : list StateSample.t :=
  if bool_decide (at_ = zero_time) then []
  else omap (λ service, s ← current service;
         Some (StateSample.mk service (ServiceState.Availability s) (UnixMilli at_))) services.

Definition earlierTime (a b : time) : time :=
  if bool_decide (a = zero_time) then b
  else if bool_decide (b = zero_time) || Before a b then a else b.

(** ** The closures of [Run] *)

Section Run.
Context {X : Type} `{!SenderOps X} (env : surroundings).

Notation D := (M (Worker.t * X)).

(** Time passes: the producers send what they have. *)
Definition meanwhile : D unit :=
  modify_fst (λ w, Worker.next_read (foldl (λ w c, (enqueue c w).2) w (arrivals env (Worker.reads w)))).

Definition reading {A} (f : nat → A) : D A :=
  w <- get_fst;; _ <- meanwhile;; ret (f (Worker.reads w)).
Definition Now : D time := reading (clock env).
Definition ctx_Err : D bool := reading (ctx_err env).

Definition call_Send (events : list Event.t) : D (option send_error) :=
  r <- on_snd (sender_Send events);; _ <- meanwhile;;
  _ <- modify_fst (Worker.add_call (CallSend events r));; ret r.
Definition call_States (samples : list StateSample.t) : D (option send_error) :=
  r <- on_snd (sender_SendRecoveredStates samples);; _ <- meanwhile;;
  _ <- modify_fst (λ w, Worker.add_call (CallStates (Worker.look w) samples r) w);; ret r.

Definition markDegraded : D unit :=
  w <- get_fst;;
  if IsZero (Worker.degradedSince w) then
    now <- Now;; modify_fst (Worker.with_degradedSince now)
  else ret tt.

Definition drop_events (n : Z) : D unit := modify_fst (Worker.add_dropped n).

Definition flush : D bool :=
  w <- get_fst;;
  match Worker.batch w with
  | [] => ret true
  | batch =>
      err <- call_Send batch;;
      match err with
      | None => _ <- modify_fst (Worker.with_batch []);; ret true
      | Some e =>
          stop <- ctx_Err;;
          if (stop : bool) then ret false
          else
            _ <- markDegraded;;
            if IsPermanent e then
              _ <- drop_events #batch;; _ <- modify_fst (Worker.with_batch []);; ret true
            else ret false
      end
  end.

Definition sendRecovery (job : RecoveryJob) : D bool :=
  ok <- flush;;
  if negb ok then ret false
  else
    err <- call_States (Fill job);;
    go <- match err with
          | None => ret true
          | Some e =>
              stop <- ctx_Err;;
              _ <- (if (stop : bool) then ret tt else markDegraded);;
              ret (IsPermanent e)
          end;;
    if negb go then ret false
    else
      err <- call_Send (JobEvents job);;
      match err with
      | None => ret true
      | Some e =>
          stop <- ctx_Err;;
          if (stop : bool) then ret false
          else
            _ <- markDegraded;;
            if IsPermanent e then _ <- drop_events #(JobEvents job);; ret true else ret false
      end.

(** Whether state samples may be taken: nothing is queued or pending. *)
Definition settled (w : Worker.t) : bool :=
  bool_decide (Worker.queue w = []) &&
  match Worker.pendingRecovery w with None => true | Some _ => false end.

(** Send what is not stale; whether the backlog is done with. *)
Definition send_states (samples : list StateSample.t) : D bool :=
  match samples with
  | [] => ret true
  | _ =>
      err <- call_States samples;;
      match err with
      | Some e =>
          stop <- ctx_Err;;
          _ <- (if (stop : bool) then ret tt else markDegraded);;
          ret (IsPermanent e)
      | None =>
          _ <- modify_fst (λ w, Worker.with_published (noteSamples samples (Worker.published w)) w);;
          _ <- modify_fst (Worker.with_degradedSince zero_time);;
          ret true
      end
  end.

Definition deliverStates : D bool :=
  w <- get_fst;;
  match Worker.pendingStates w with
  | [] => ret true
  | _ =>
      ok <- (if settled w then flush else ret false);;
      if negb ok then ret false
      else
        w <- get_fst;;
        let samples := dropStale w (Worker.pendingStates w) in
        go <- send_states samples;;
        if negb go then ret false
        else _ <- modify_fst (Worker.with_pendingStates []);; ret true
  end.

Definition recordStates (samples : list StateSample.t) : D bool :=
  w <- get_fst;;
  if bool_decide (samples = []) || negb (settled w) then ret false
  else
    now <- Now;;
    _ <- modify_fst (bufferStates (location env) samples now);; ret true.

(** The samples of the units as the engine holds them, stamped [at_]. *)
Definition read_states (at_ : time) : D (list StateSample.t) :=
  w <- get_fst;;
  reading (λ n, slotStateSamples (WConfig.Services (Worker.cfg w)) (current env n) at_).

Definition heartbeat : D unit :=
  now <- Now;;
  samples <- read_states now;;
  ok <- recordStates samples;;
  if (ok : bool) then _ <- deliverStates;; ret tt else ret tt.

Definition sendSlotSample (at_ : time) : D bool :=
  if IsZero at_ then ret true
  else
    samples <- read_states at_;;
    match samples with
    | [] => ret true
    | _ =>
        ok <- recordStates samples;;
        if negb ok then ret false else _ <- deliverStates;; ret true
    end.

(** The loop runs over the samples pending when it starts; nothing it calls
    adds one. *)
Fixpoint try_samples (pending : list time) : D unit :=
  match pending with
  | [] => ret tt
  | at_ :: pending' =>
      ok <- sendSlotSample at_;;
      if negb ok then ret tt
      else _ <- modify_fst (Worker.with_pendingSlotSamples pending');; try_samples pending'
  end.
Definition trySlotSamples : D unit := w <- get_fst;; try_samples (Worker.pendingSlotSamples w).

Definition enqueueSlotSample (at_ : time) (w : Worker.t) : Worker.t :=
  if IsZero at_ then w
  else if bool_decide (last (Worker.pendingSlotSamples w) = Some at_) then w
  else
    let l := Worker.pendingSlotSamples w ++ [at_] in
    Worker.with_pendingSlotSamples (if (4 <? length l)%nat then drop (length l - 4) l else l) w.

Definition advancePast (fired : time) (w : Worker.t) : Worker.t :=
  let loc := location env in
  let size := WConfig.RecoveryWindow (Worker.cfg w) in
  if fired =? Worker.nextOpening w then
    Worker.with_nextOpening (SlotOpeningTime (SlotStart loc (Worker.nextOpening w) size + size)) w
  else
    Worker.with_nextClosing (SlotClosingTime (SlotStart loc (Worker.nextClosing w) size + size) size) w.

(** The inner loop of the slot timer, which catches up with [now]; [None] when
    [fuel] rounds were not enough. *)
Fixpoint catch_up (fuel : nat) (now : time) (w : Worker.t) : option Worker.t :=
  let n := earlierTime (Worker.nextOpening w) (Worker.nextClosing w) in
  if Before now n then Some w
  else match fuel with
       | O => None
       | S fuel' => catch_up fuel' now (advancePast n (enqueueSlotSample n w))
       end.

(** The timer fired: [None] when the loop did not end. *)
Definition slot_fired (fuel : nat) (now : time) (w : Worker.t) : option Worker.t :=
  let fired := earlierTime (Worker.nextOpening w) (Worker.nextClosing w) in
  catch_up fuel now (advancePast fired (enqueueSlotSample fired w)).

(** ** Startup *)

(** How many of the first events lie before the slot. *)
Fixpoint split_before (limit : Z) (pending : list Event.t) : nat :=
  match pending with
  | e :: pending' => if Event.EventTimeUnixMS e <? limit then S (split_before limit pending') else 0
  | [] => 0
  end.

(** The fill that failed is buffered, unless the receiver refused it. *)
Definition startup_fill (fill : list StateSample.t) (err : option send_error) : D time :=
  match err with
  | None => ret zero_time
  | Some e =>
      stop <- ctx_Err;;
      degraded <- (if (stop : bool) then ret zero_time else Now);;
      _ <- (if IsPermanent e then ret tt
            else now <- Now;; modify_fst (bufferStates (location env) fill now));;
      ret degraded
  end.

(** The batch and the beginning of the degradation it returns. *)
Definition startup : D (list Event.t * time) :=
  w <- get_fst;;
  let cfg := Worker.cfg w in
  lastSent <- (λ '(w, x), (sender_LastSent x, (w, x)));;
  let pending := filter (λ e, lastSent < Event.Sequence e) (WConfig.StartupEvents cfg) in
  let split :=
    if IsZero (WConfig.StartupSlot cfg) then 0%nat
    else split_before (UnixMilli (WConfig.StartupSlot cfg)) pending in
  err <- call_Send (take split pending);;
  match err with
  | Some _ => _ <- ctx_Err;; now <- Now;; ret (pending, now)
  | None =>
      err <- call_States (WConfig.StartupFill cfg);;
      degraded <- startup_fill (WConfig.StartupFill cfg) err;;
      err <- call_Send (drop split pending);;
      match err with
      | Some _ => _ <- ctx_Err;; now <- Now;; ret (drop split pending, now)
      | None => ret ([], degraded)
      end
  end.

(** The slot edges already due and the ones to come. *)
Definition arm_slots (now : time) (w : Worker.t) : Worker.t :=
  let loc := location env in
  let size := WConfig.RecoveryWindow (Worker.cfg w) in
  if SlotEndLead <? size then
    let due := filter (λ t, t ≠ zero_time) [DueSlotOpening loc now size; DueSlotClosing loc now size] in
    Worker.with_nextClosing (NextSlotClosing loc now size)
      (Worker.with_nextOpening (NextSlotOpening loc now size)
        (Worker.with_pendingSlotSamples (Worker.pendingSlotSamples w ++ due) w))
  else w.

Definition start : D unit :=
  '(batch, degraded) <- startup;;
  _ <- modify_fst (λ w, Worker.with_degradedSince degraded (Worker.with_batch batch w));;
  now <- Now;;
  modify_fst (arm_slots now).

(** ** The loop *)

(** What the [select] may receive. *)
Inductive input := Receive | FlushTick | StateTick | SlotTimer | CtxDone.

Definition receive : D unit :=
  w <- get_fst;;
  match Worker.queue w with
  | [] => ret tt
  | c :: q =>
      _ <- modify_fst (Worker.with_queue q);;
      match c with
      | CmdEvent event =>
          _ <- modify_fst (λ w, Worker.with_batch (Worker.batch w ++ [event]) w);;
          w <- get_fst;;
          if WConfig.BatchSize (Worker.cfg w) <=? #(Worker.batch w) then _ <- flush;; ret tt else ret tt
      | CmdRecovery job =>
          modify_fst (λ w, Worker.with_pendingRecovery
            (Some (match Worker.pendingRecovery w with
                   | None => job
                   | Some p => mkJob (Fill p ++ Fill job) (JobEvents p ++ JobEvents job)
                   end)) w)
      end
  end.

(** What precedes the [select]. *)
Definition before_select : D unit :=
  w <- get_fst;;
  _ <- match Worker.pendingRecovery w with
       | None => ret tt
       | Some job =>
           ok <- sendRecovery job;;
           if (ok : bool) then modify_fst (Worker.with_pendingRecovery None) else ret tt
       end;;
  trySlotSamples.

(** How a round ends; [Stuck] when [fuel] rounds of the slot timer's catch-up
    were not enough. *)
Inductive outcome := Continue | Finished | Stuck.

Definition slot_timer (fuel : nat) : D outcome :=
  now <- Now;;
  w <- get_fst;;
  if SlotEndLead <? WConfig.RecoveryWindow (Worker.cfg w) then
    match slot_fired fuel now w with
    | Some w' => _ <- modify_fst (λ _, w');; ret Continue
    | None => ret Stuck
    end
  else ret Continue.

Definition round (fuel : nat) (i : input) : D outcome :=
  _ <- before_select;;
  match i with
  | Receive => _ <- receive;; ret Continue
  | FlushTick => _ <- flush;; ret Continue
  | StateTick => _ <- heartbeat;; ret Continue
  | SlotTimer => slot_timer fuel
  | CtxDone => _ <- flush;; ret Finished
  end.
End Run.
