(* ===== verification/DeliveryFacts.v ===== *)
(** * DeliveryFacts: where an event is while the worker runs *)

From S2P Require Import Prelude GoTime GoStrings Model Slots GoOS RemoteWrite Delivery.

(** ** Accounting *)

Definition command_events (c : command) : list Event.t :=
  match c with CmdEvent e => [e] | CmdRecovery job => JobEvents job end.
Definition recovery_events (r : option RecoveryJob) : list Event.t :=
  match r with Some job => JobEvents job | None => [] end.

(** A call settles its events when the receiver took them or will never take
    them. *)
Definition settles (c : call) : list Event.t :=
  match c with
  | CallSend events None => events
  | CallSend events (Some e) => if IsPermanent e then events else []
  | CallStates _ _ _ => []
  end.
Definition settled_events (cs : list call) : list Event.t := concat (settles <$> cs).

(** Every place an event can be. *)
Definition account (w : Worker.t) : list Event.t :=
  concat (command_events <$> Worker.queue w) ++ recovery_events (Worker.pendingRecovery w) ++
  Worker.batch w ++ settled_events (Worker.calls w).

Lemma settled_events_app cs1 cs2 : settled_events (cs1 ++ cs2) = settled_events cs1 ++ settled_events cs2.
Proof. unfold settled_events. by rewrite fmap_app, concat_app. Qed.

Lemma settled_events_one c : settled_events [c] = settles c.
Proof. apply app_nil_r. Qed.

Section Facts.
Context {X : Type} `{!SenderOps X} (env : surroundings).

(** The calls only grow, the queue only takes in, and everything but batch and
    history is as before. *)
Record extends (w w' : Worker.t) : Prop := {
  ext_queue : ∃ new, Worker.queue w' = Worker.queue w ++ new ∧ Worker.accepted w' = Worker.accepted w ++ new;
  ext_recovery : Worker.pendingRecovery w' = Worker.pendingRecovery w;
  ext_calls : ∃ cs, Worker.calls w' = Worker.calls w ++ cs;
}.

Lemma extends_same w w' :
  Worker.queue w' = Worker.queue w → Worker.accepted w' = Worker.accepted w →
  Worker.pendingRecovery w' = Worker.pendingRecovery w → (∃ cs, Worker.calls w' = Worker.calls w ++ cs) → extends w w'.
Proof. intros Hq Ha. split; try done. exists []. by rewrite !app_nil_r. Qed.

Lemma extends_refl w : extends w w.
Proof. apply extends_same; try done. exists []. by rewrite app_nil_r. Qed.

Lemma extends_trans w1 w2 w3 : extends w1 w2 → extends w2 w3 → extends w1 w3.
Proof.
  intros [(n & Hq & Ha) Hr [cs Hc]] [(n' & Hq' & Ha') Hr' [cs' Hc']]. split; [|congruence|].
  - exists (n ++ n'). by rewrite Hq', Hq, Ha', Ha, !app_assoc.
  - exists (cs ++ cs'). by rewrite Hc', Hc, app_assoc.
Qed.

(** Changing what the accounts do not look at. *)
Lemma extends_with w w1 w' :
  extends w w1 → Worker.queue w' = Worker.queue w1 → Worker.accepted w' = Worker.accepted w1 →
  Worker.pendingRecovery w' = Worker.pendingRecovery w1 → Worker.calls w' = Worker.calls w1 → extends w w'.
Proof.
  intros E Hq Ha Hr Hc. eapply extends_trans; [exact E|]. apply extends_same; try done. exists []. by rewrite Hc, app_nil_r.
Qed.

Lemma extends_settled w w' e :
  extends w w' → e ∈ settled_events (Worker.calls w) → e ∈ settled_events (Worker.calls w').
Proof. intros [_ _ [cs ->]] He. rewrite settled_events_app. set_solver. Qed.

(** A frame: the batch is kept too. *)
Definition quiet {A} (m : M (Worker.t * X) A) : Prop :=
  ∀ s a s', m s = (a, s') → extends s.1 s'.1 ∧ Worker.batch s'.1 = Worker.batch s.1.

Lemma quiet_ret {A} (a : A) : quiet (ret a).
Proof. intros s a' s' [= <- <-]. split; [apply extends_refl|done]. Qed.

Lemma quiet_bind {A B} (m : M (Worker.t * X) A) (f : A → M (Worker.t * X) B) :
  quiet m → (∀ a, quiet (f a)) → quiet (bind m f).
Proof.
  intros Hm Hf s b s' H. bind_inv H as a s1 H1. apply Hm in H1 as [H1 Hb1]. apply Hf in H as [H Hb].
  split; [by eapply extends_trans|congruence].
Qed.

Lemma quiet_get : quiet get_fst.
Proof. intros [w x] a s' [= <- <-]. split; [apply extends_refl|done]. Qed.

Lemma quiet_modify (f : Worker.t → Worker.t) :
  (∀ w, Worker.queue (f w) = Worker.queue w ∧ Worker.accepted (f w) = Worker.accepted w ∧
    Worker.pendingRecovery (f w) = Worker.pendingRecovery w ∧
    Worker.batch (f w) = Worker.batch w ∧ ∃ cs, Worker.calls (f w) = Worker.calls w ++ cs) →
  quiet (modify_fst f).
Proof. intros Hf [w x] a s' [= _ <-]. destruct (Hf w) as (? & ? & ? & ? & ?). split; [by apply extends_same|done]. Qed.

(** What arrives goes to the end of the queue, or nowhere. *)
Definition arrived (w w' : Worker.t) : Prop :=
  ∃ new, w' = Worker.mk (Worker.cfg w) (Worker.queue w ++ new) (Worker.published w) (Worker.pendingStates w)
    (Worker.batch w) (Worker.degradedSince w) (Worker.pendingRecovery w) (Worker.pendingSlotSamples w)
    (Worker.nextOpening w) (Worker.nextClosing w) (Worker.dropped w) (Worker.reads w) (Worker.calls w)
    (Worker.accepted w ++ new).

Lemma enqueue_arrived c w : arrived w (enqueue c w).2.
Proof.
  unfold enqueue. destruct (_ <? _); [by exists [c]|]. exists []. rewrite !app_nil_r. by destruct w.
Qed.
Lemma arrivals_arrived cs w : arrived w (foldl (λ w c, (enqueue c w).2) w cs).
Proof.
  induction cs as [|c cs IH] in w |- *; simpl; [exists []; rewrite !app_nil_r; by destruct w|].
  destruct (enqueue_arrived c w) as [n ->]. destruct (IH (Worker.mk (Worker.cfg w) (Worker.queue w ++ n)
    (Worker.published w) (Worker.pendingStates w) (Worker.batch w) (Worker.degradedSince w) (Worker.pendingRecovery w)
    (Worker.pendingSlotSamples w) (Worker.nextOpening w) (Worker.nextClosing w) (Worker.dropped w) (Worker.reads w)
    (Worker.calls w) (Worker.accepted w ++ n))) as [n' ->]. exists (n ++ n'). simpl. by rewrite !app_assoc.
Qed.

(** While time passes only the queue and the count of the readings change. *)
Lemma meanwhile_spec (s : Worker.t * X) u s' :
  meanwhile env s = (u, s') → s'.2 = s.2 ∧ ∃ w1, arrived s.1 w1 ∧ s'.1 = Worker.next_read w1.
Proof.
  destruct s as [w x]. intros [= _ <-]. split; [done|]. eexists. split; [apply arrivals_arrived|done].
Qed.
Lemma quiet_meanwhile : quiet (meanwhile (X:=X) env).
Proof.
  intros [w x] u s' H. apply meanwhile_spec in H as (_ & w1 & [n ->] & ->). split; [|done].
  split; [by exists n|done|]. exists []. by rewrite app_nil_r.
Qed.

Lemma quiet_on_snd {A} (m : M X A) : quiet (on_snd m).
Proof.
  intros [w x] a s' H. apply on_snd_inv in H as (x' & _ & ->). split; [apply extends_refl|done].
Qed.

Create HintDb quiet.
Hint Resolve quiet_ret quiet_bind quiet_get quiet_on_snd quiet_meanwhile : quiet.

Ltac same_calls := intros ?; split_and!; try done; exists []; by rewrite app_nil_r.
Ltac solve_quiet :=
  repeat first
    [ progress intros
    | solve [eauto 2 with quiet]
    | apply quiet_modify; solve [same_calls | intros ?; split_and!; [done..|by eexists]]
    | apply quiet_bind
    | match goal with |- quiet (match ?x with _ => _ end) => destruct x end ].

Lemma quiet_reading {A} (f : nat → A) : quiet (reading env f).
Proof. unfold reading. solve_quiet. Qed.
Hint Resolve quiet_reading : quiet.

Lemma quiet_call_Send events : quiet (call_Send env events).
Proof. unfold call_Send. solve_quiet. Qed.
Lemma quiet_call_States samples : quiet (call_States env samples).
Proof. unfold call_States. solve_quiet. Qed.
Lemma quiet_markDegraded : quiet (markDegraded env).
Proof. unfold markDegraded, Now. solve_quiet. Qed.
Lemma quiet_drop n : quiet (drop_events n).
Proof. unfold drop_events. solve_quiet. Qed.
Hint Resolve quiet_call_Send quiet_call_States quiet_markDegraded quiet_drop : quiet.
Lemma quiet_ctx : quiet (ctx_Err env).
Proof. unfold ctx_Err. solve_quiet. Qed.
Hint Resolve quiet_ctx : quiet.

(** A call is in the history afterwards. *)
Lemma call_Send_spec events s r s' :
  call_Send env events s = (r, s') → Worker.calls s'.1 = Worker.calls s.1 ++ [CallSend events r].
Proof.
  destruct s as [w x]. intros H. unfold call_Send in H. bind_inv H as r0 s0 H0.
  apply on_snd_inv in H0 as (x' & _ & ->). bind_inv H as v s2 H2.
  apply meanwhile_spec in H2 as (_ & w1 & [n ->] & Hw). destruct s2 as [w2 x2]. bind_inv H as u s1 H1. injection H1 as _ <-.
  injection H as <- <-. simpl in *. by rewrite Hw.
Qed.

(** The batch may be handed over, but none of it disappears. *)
Definition tame {A} (m : M (Worker.t * X) A) : Prop :=
  ∀ s a s', m s = (a, s') → extends s.1 s'.1 ∧
    ∀ e, e ∈ Worker.batch s.1 → e ∈ Worker.batch s'.1 ∨ e ∈ settled_events (Worker.calls s'.1).

Lemma tame_quiet {A} (m : M (Worker.t * X) A) : quiet m → tame m.
Proof. intros Hm s a s' H. apply Hm in H as [H Hb]. split; [done|]. rewrite Hb. auto. Qed.

Lemma tame_bind {A B} (m : M (Worker.t * X) A) (f : A → M (Worker.t * X) B) :
  tame m → (∀ a, tame (f a)) → tame (bind m f).
Proof.
  intros Hm Hf s b s' H. bind_inv H as a s1 H1. apply Hm in H1 as [H1 Hb1]. apply Hf in H as [H Hb].
  split; [by eapply extends_trans|]. intros e [He|He]%Hb1; [by apply Hb|].
  right. by eapply extends_settled.
Qed.

Lemma settles_gone events r :
  (r = None ∨ ∃ e, r = Some e ∧ IsPermanent e = true) → settles (CallSend events r) = events.
Proof. intros [->|(e & -> & He)]; simpl; [done|by rewrite He]. Qed.

Lemma flush_spec s ok s' :
  flush env s = (ok, s') → extends s.1 s'.1 ∧
  (Worker.batch s'.1 = Worker.batch s.1 ∨
   Worker.batch s'.1 = [] ∧ ∀ e, e ∈ Worker.batch s.1 → e ∈ settled_events (Worker.calls s'.1)) ∧
  (ok = true → Worker.batch s'.1 = []).
Proof.
  destruct s as [w x]. intros H. unfold flush in H. bind_inv H as w0 s0 H0. injection H0 as <- <-. cbn [fst].
  destruct (Worker.batch w) as [|b bs] eqn:Hb.
  { injection H as <- <-. split_and!; [apply extends_refl|by left|done]. }
  bind_inv H as r s1 H1. pose proof (call_Send_spec _ _ _ _ H1) as Hc.
  apply quiet_call_Send in H1 as [E1 B1]. cbn [fst] in *. rewrite Hb in B1.
  destruct s1 as [w1 x1]. cbn [fst] in *.
  assert (∀ w2, extends w1 w2 → (r = None ∨ ∃ e, r = Some e ∧ IsPermanent e = true) →
    ∀ e, e ∈ b :: bs → e ∈ settled_events (Worker.calls w2)) as Hgone.
  { intros w2 E2 Hr e He. eapply extends_settled; [exact E2|]. rewrite Hc, settled_events_app, settled_events_one.
    rewrite settles_gone by done. set_solver. }
  destruct r as [e|].
  - bind_inv H as stop s2 H2. apply quiet_ctx in H2 as [E2 B2]. destruct s2 as [w2 x2]. cbn [fst] in *.
    destruct stop.
    { injection H as <- <-. cbn [fst]. split_and!; [by eapply extends_trans|left; congruence|done]. }
    bind_inv H as u s3 H3. apply quiet_markDegraded in H3 as [E3 B3]. destruct s3 as [w3 x3]. cbn [fst] in *.
    assert (extends w w3) as E by (eapply extends_trans; [exact E1|]; by eapply extends_trans).
    destruct (IsPermanent e) eqn:Hp.
    + injection H as <- <-. cbn. split_and!; [by eapply extends_with|right|done].
      split; [done|]. apply (Hgone w3); [by eapply extends_trans|right; by eauto].
    + injection H as <- <-. cbn [fst]. split_and!; [done|left; congruence|done].
  - injection H as <- <-. cbn. split_and!; [by eapply extends_with|right|done].
    split; [done|]. apply (Hgone w1); [apply extends_refl|by left].
Qed.

Lemma tame_flush : tame (flush env).
Proof.
  intros s a s' H. apply flush_spec in H as (E & Hb & _). split; [done|].
  intros e He. destruct Hb as [->|[_ Hb]]; auto.
Qed.
Hint Resolve tame_flush : quiet.

Ltac solve_tame :=
  repeat first
    [ progress intros
    | solve [eauto 2 with quiet]
    | solve [apply tame_quiet; solve_quiet]
    | apply tame_bind
    | match goal with |- tame (match ?x with _ => _ end) => destruct x end ].

Lemma bufferStates_frame loc samples now w :
  Worker.queue (bufferStates loc samples now w) = Worker.queue w ∧
  Worker.accepted (bufferStates loc samples now w) = Worker.accepted w ∧
  Worker.pendingRecovery (bufferStates loc samples now w) = Worker.pendingRecovery w ∧
  Worker.batch (bufferStates loc samples now w) = Worker.batch w ∧
  ∃ cs, Worker.calls (bufferStates loc samples now w) = Worker.calls w ++ cs.
Proof. destruct samples; split_and!; try done; exists []; by rewrite app_nil_r. Qed.

Lemma quiet_buffer samples now : quiet (modify_fst (bufferStates (location env) samples now)).
Proof. apply quiet_modify, bufferStates_frame. Qed.
Hint Resolve quiet_buffer : quiet.

Lemma quiet_recordStates samples : quiet (recordStates env samples).
Proof. unfold recordStates, Now. solve_quiet. Qed.
Lemma quiet_read_states at_ : quiet (read_states env at_).
Proof. unfold read_states. solve_quiet. Qed.
Lemma quiet_Now : quiet (Now env).
Proof. unfold Now. solve_quiet. Qed.
Hint Resolve quiet_recordStates quiet_read_states quiet_Now : quiet.

Lemma tame_deliverStates : tame (deliverStates env).
Proof. unfold deliverStates, send_states. solve_tame. Qed.
Hint Resolve tame_deliverStates : quiet.

Lemma tame_heartbeat : tame (heartbeat env).
Proof. unfold heartbeat. solve_tame. Qed.
Lemma tame_sendSlotSample at_ : tame (sendSlotSample env at_).
Proof. unfold sendSlotSample. solve_tame. Qed.
Hint Resolve tame_heartbeat tame_sendSlotSample : quiet.

Lemma tame_trySlotSamples : tame (trySlotSamples env).
Proof.
  unfold trySlotSamples. apply tame_bind; [solve_tame|]. intros w. generalize (Worker.pendingSlotSamples w).
  intros l. induction l as [|t l IH]; cbn [try_samples]; solve_tame.
Qed.

Lemma call_States_spec samples s r s' :
  call_States env samples s = (r, s') →
  Worker.calls s'.1 = Worker.calls s.1 ++ [CallStates (Worker.look s.1) samples r] ∧ Worker.batch s'.1 = Worker.batch s.1.
Proof.
  destruct s as [w x]. intros H. unfold call_States in H. bind_inv H as r0 s0 H0.
  apply on_snd_inv in H0 as (x' & _ & ->). bind_inv H as v s2 H2.
  apply meanwhile_spec in H2 as (_ & w1 & [n ->] & Hw). destruct s2 as [w2 x2]. bind_inv H as u s1 H1. injection H1 as _ <-.
  injection H as <- <-. simpl in *. by rewrite Hw.
Qed.

(** Reading the surroundings and marking the degradation make no call. *)
Definition silent {A} (m : M (Worker.t * X) A) : Prop :=
  ∀ s a s', m s = (a, s') → Worker.calls s'.1 = Worker.calls s.1 ∧ Worker.batch s'.1 = Worker.batch s.1.

Lemma silent_bind {A B} (m : M (Worker.t * X) A) (f : A → M (Worker.t * X) B) :
  silent m → (∀ a, silent (f a)) → silent (bind m f).
Proof.
  intros Hm Hf s b s' H. bind_inv H as a s1 H1. apply Hm in H1 as [? ?]. apply Hf in H as [? ?].
  split; congruence.
Qed.
Lemma silent_ret {A} (a : A) : silent (ret a).
Proof. by intros s a' s' [= <- <-]. Qed.
Lemma silent_reading {A} (f : nat → A) : silent (reading env f).
Proof.
  intros [w x] a s' H. unfold reading in H. bind_inv H as w0 s0 H0. injection H0 as <- <-. bind_inv H as u s1 H1.
  apply meanwhile_spec in H1 as (_ & w1 & [n ->] & Hw). injection H as _ <-. by rewrite Hw.
Qed.
Lemma silent_markDegraded : silent (markDegraded env).
Proof.
  intros [w x] a s' H. unfold markDegraded in H. bind_inv H as w0 s0 H0. injection H0 as <- <-.
  case_match; [|by injection H as _ <-]. bind_inv H as now s1 H1. apply silent_reading in H1. destruct s1.
  by injection H as _ <-.
Qed.

(** ** One round *)

(** No event leaves the books, and what the queue takes enters them. *)
Definition booked (w w' : Worker.t) : Prop :=
  (∀ e, e ∈ account w → e ∈ account w') ∧
  (∀ c, c ∈ Worker.accepted w' → c ∈ Worker.accepted w ∨ command_events c ⊆ account w').
Definition accounts {A} (m : M (Worker.t * X) A) : Prop :=
  ∀ s a s', m s = (a, s') → booked s.1 s'.1.

Lemma booked_refl w : booked w w.
Proof. split; [done|]. by left. Qed.
Lemma booked_trans w1 w2 w3 : booked w1 w2 → booked w2 w3 → booked w1 w3.
Proof.
  intros [H12 A12] [H23 A23]. split; [eauto|]. intros c [[?|Hc]%A12|?]%A23; [by left| |by right].
  right. intros e He. by apply H23, Hc.
Qed.

Lemma elem_of_account e w :
  e ∈ account w ↔ e ∈ concat (command_events <$> Worker.queue w) ∨
    e ∈ recovery_events (Worker.pendingRecovery w) ∨ e ∈ Worker.batch w ∨ e ∈ settled_events (Worker.calls w).
Proof. unfold account. by rewrite !elem_of_app. Qed.

Lemma queue_events_app q q' :
  concat (command_events <$> (q ++ q')) = concat (command_events <$> q) ++ concat (command_events <$> q').
Proof. by rewrite fmap_app, concat_app. Qed.

Lemma accounts_tame {A} (m : M (Worker.t * X) A) : tame m → accounts m.
Proof.
  intros Hm s a s' H. apply Hm in H as [E Hb]. destruct (ext_queue _ _ E) as (new & Hq & Ha). split.
  - intros e. rewrite !elem_of_account. pose proof (extends_settled _ _ e E). rewrite Hq, (ext_recovery _ _ E), queue_events_app, elem_of_app.
    intros [?|[?|[?%Hb|?]]]; tauto.
  - intros c. rewrite Ha, elem_of_app. intros [?|Hc]; [by left|]. right. intros e He. rewrite elem_of_account. left.
    rewrite Hq, queue_events_app, elem_of_app. right. apply elem_of_concat. exists (command_events c).
    split; [|done]. by apply list_elem_of_fmap_2.
Qed.

Lemma accounts_bind {A B} (m : M (Worker.t * X) A) (f : A → M (Worker.t * X) B) :
  accounts m → (∀ a, accounts (f a)) → accounts (bind m f).
Proof. intros Hm Hf s b s' H. bind_inv H as a s1 H1. eapply booked_trans; [by eapply Hm|by eapply Hf]. Qed.

Lemma tame_sendRecovery job : tame (sendRecovery env job).
Proof. unfold sendRecovery. solve_tame. Qed.

Lemma sendRecovery_settles job s s' :
  sendRecovery env job s = (true, s') →
  ∀ e, e ∈ JobEvents job → e ∈ settled_events (Worker.calls s'.1).
Proof.
  intros H e He. unfold sendRecovery in H. bind_inv H as ok s1 H1. destruct ok; [|discriminate H]. cbn [negb] in H.
  bind_inv H as err s2 H2. bind_inv H as go s3 H3. destruct go; [|discriminate H]. cbn [negb] in H.
  bind_inv H as r s4 H4. apply call_Send_spec in H4.
  assert (∀ r', settles (CallSend (JobEvents job) r') = JobEvents job → r = r' →
    e ∈ settled_events (Worker.calls s4.1)) as Hset.
  { intros r' Hr ->. rewrite H4, settled_events_app, settled_events_one, Hr. set_solver. }
  destruct r as [e4|]; [|injection H as <-; by apply (Hset None)].
  bind_inv H as stop s5 H5. apply quiet_ctx in H5 as [E5 _]. destruct stop; [discriminate H|].
  bind_inv H as u s6 H6. apply quiet_markDegraded in H6 as [E6 _].
  destruct (IsPermanent e4) eqn:Hp; [|discriminate H].
  bind_inv H as u7 s7 H7. injection H as <-. apply quiet_drop in H7 as [E7 _].
  eapply extends_settled; [exact E7|]. eapply extends_settled; [exact E6|]. eapply extends_settled; [exact E5|].
  apply (Hset (Some e4)); [|done]. simpl. by rewrite Hp.
Qed.

Lemma accounts_before_select : accounts (before_select env).
Proof.
  intros [w x] a s' H. unfold before_select in H. bind_inv H as w0 s0 H0. injection H0 as <- <-.
  bind_inv H as u s1 H1. eapply booked_trans; [|by eapply accounts_tame; [apply tame_trySlotSamples|exact H]].
  clear H. destruct (Worker.pendingRecovery w) as [job|] eqn:Hr; [|injection H1 as _ <-; apply booked_refl].
  bind_inv H1 as ok s2 H2. pose proof (accounts_tame _ (tame_sendRecovery job) _ _ _ H2) as Hb. destruct ok.
  - eapply booked_trans; [exact Hb|]. destruct s2 as [w2 x2]. injection H1 as _ <-. cbn [fst] in *.
    split; [|by left]. intros e He.
    pose proof (sendRecovery_settles _ _ _ H2 e) as Hset. cbn [fst] in Hset.
    apply tame_sendRecovery in H2 as [[_ Hr2 _] _]. cbn [fst] in Hr2. rewrite Hr in Hr2.
    rewrite elem_of_account in *. rewrite Hr2 in He. cbn in *. tauto.
  - injection H1 as _ <-. exact Hb.
Qed.

Lemma accounts_receive : accounts (receive env).
Proof.
  intros [w x] a s' H. unfold receive in H. bind_inv H as w0 s0 H0. injection H0 as <- <-.
  destruct (Worker.queue w) as [|c q] eqn:Hq; [injection H as _ <-; apply booked_refl|].
  bind_inv H as u s1 H1. injection H1 as _ <-.
  assert (∀ e, e ∈ account w ↔ e ∈ command_events c ++ concat (command_events <$> q) ∨
    e ∈ recovery_events (Worker.pendingRecovery w) ∨ e ∈ Worker.batch w ∨ e ∈ settled_events (Worker.calls w)) as Hacc.
  { intros e. rewrite elem_of_account, Hq, fmap_cons. done. }
  destruct c as [ev|job].
  - bind_inv H as u2 s2 H2. injection H2 as _ <-.
    eapply booked_trans; [|eapply accounts_tame; [|exact H]; solve_tame].
    split; [|by left]. intros e. cbn [fst]. rewrite Hacc, elem_of_account. cbn. set_solver.
  - injection H as _ <-. split; [|by left]. intros e. cbn [fst]. rewrite Hacc, elem_of_account. cbn.
    destruct (Worker.pendingRecovery w) as [p|]; cbn in *; set_solver.
Qed.

(** The slot timer only moves the edges and the samples waiting for them. *)
Definition slots_only (w w' : Worker.t) : Prop :=
  Worker.queue w' = Worker.queue w ∧ Worker.pendingRecovery w' = Worker.pendingRecovery w ∧
  Worker.batch w' = Worker.batch w ∧ Worker.calls w' = Worker.calls w ∧
  Worker.cfg w' = Worker.cfg w ∧ Worker.pendingStates w' = Worker.pendingStates w ∧
  Worker.accepted w' = Worker.accepted w.

Lemma slots_only_trans w1 w2 w3 : slots_only w1 w2 → slots_only w2 w3 → slots_only w1 w3.
Proof. unfold slots_only. intros. destruct_and!. split_and!; congruence. Qed.

Lemma enqueueSlotSample_frame t w : slots_only w (enqueueSlotSample t w).
Proof. unfold enqueueSlotSample. by repeat case_match. Qed.

Lemma advancePast_frame t w : slots_only w (advancePast env t w).
Proof. unfold advancePast. by case_match. Qed.

Lemma catch_up_frame fuel now : ∀ w w', catch_up env fuel now w = Some w' → slots_only w w'.
Proof.
  induction fuel as [|fuel IH]; intros w w' H; cbn [catch_up] in H; case_match; simplify_eq; try done.
  apply IH in H. eapply slots_only_trans; [|exact H].
  eapply slots_only_trans; [apply enqueueSlotSample_frame|apply advancePast_frame].
Qed.

Lemma slot_fired_frame fuel now w w' : slot_fired env fuel now w = Some w' → slots_only w w'.
Proof.
  intros H. apply catch_up_frame in H. eapply slots_only_trans; [|exact H].
  eapply slots_only_trans; [apply enqueueSlotSample_frame|apply advancePast_frame].
Qed.

Lemma accounts_slot_timer fuel : accounts (slot_timer env fuel).
Proof.
  intros s o s' H. unfold slot_timer in H. bind_inv H as now s1 H1.
  eapply booked_trans; [exact (accounts_tame _ (tame_quiet _ quiet_Now) _ _ _ H1)|]. clear H1. destruct s1 as [w1 x1].
  bind_inv H as w0 s0 H0. injection H0 as <- <-.
  case_match; [|injection H as _ <-; apply booked_refl]. destruct (slot_fired env fuel now w1) as [w2|] eqn:Hf.
  - injection H as _ <-. apply slot_fired_frame in Hf as (Hq & Hr & Hb & Hc & _ & _ & Ha). cbn [fst] in *.
    unfold booked, account. rewrite Hq, Hr, Hb, Hc, Ha. split; [done|by left].
  - injection H as _ <-. apply booked_refl.
Qed.

Lemma accounts_round fuel i : accounts (round env fuel i).
Proof.
  unfold round. apply accounts_bind; [apply accounts_before_select|]. intros _.
  destruct i; [|apply accounts_tame; solve_tame|apply accounts_tame; solve_tame|
    apply accounts_slot_timer|apply accounts_tame; solve_tame].
  apply accounts_bind; [apply accounts_receive|]. intros _. apply accounts_tame. solve_tame.
Qed.

(** ** The life of a worker *)

(** A round of the loop, or a producer's command that found room. *)
Inductive step : Worker.t * X → Worker.t * X → Prop :=
  | step_round fuel i s o s' : round env fuel i s = (o, s') → o ≠ Stuck → step s s'
  | step_enqueue c w w' x : enqueue c w = (true, w') → step (w, x) (w', x).

Lemma enqueue_spec c w w' : enqueue c w = (true, w') → w' = Worker.take_in c w.
Proof. unfold enqueue. case_match; [|done]. by intros [= <-]. Qed.

Lemma step_booked s s' : step s s' → booked s.1 s'.1.
Proof.
  intros [fuel i s0 o s1 H _|c w w' x H]; [by eapply accounts_round|].
  apply enqueue_spec in H as ->. split; unfold account; cbn -[concat fmap]; rewrite queue_events_app.
  - set_solver.
  - intros c'. rewrite elem_of_app, list_elem_of_singleton. intros [?| ->]; [by left|right]. cbn. set_solver.
Qed.

Lemma steps_booked s s' : rtc step s s' → booked s.1 s'.1.
Proof. induction 1; [apply booked_refl|]. eapply booked_trans; [by apply step_booked|done]. Qed.

(** ** Startup *)

Lemma arm_slots_frame now w :
  Worker.batch (arm_slots env now w) = Worker.batch w ∧ Worker.calls (arm_slots env now w) = Worker.calls w ∧
  Worker.queue (arm_slots env now w) = Worker.queue w ∧ Worker.accepted (arm_slots env now w) = Worker.accepted w.
Proof. unfold arm_slots. by case_match. Qed.

Lemma quiet_startup_fill fill r : quiet (startup_fill env fill r).
Proof. unfold startup_fill. solve_quiet. Qed.

Lemma startup_keeps s batch degraded s' :
  startup env s = ((batch, degraded), s') →
  ∀ e, e ∈ WConfig.StartupEvents (Worker.cfg s.1) → sender_LastSent s.2 < Event.Sequence e →
    e ∈ batch ∨ e ∈ settled_events (Worker.calls s'.1).
Proof.
  destruct s as [w x]. intros H e He Hlast. unfold startup in H. bind_inv H as w0 s0 H0. injection H0 as <- <-.
  bind_inv H as last s1 H1. injection H1 as <- <-.
  set (pending := filter _ _) in H. assert (e ∈ pending) as Hp by (by apply list_elem_of_filter).
  revert H. generalize (if IsZero (WConfig.StartupSlot (Worker.cfg w)) then 0%nat
    else split_before (UnixMilli (WConfig.StartupSlot (Worker.cfg w))) pending). intros split H.
  bind_inv H as r1 s2 H2. pose proof (call_Send_spec _ _ _ _ H2) as C2. destruct r1 as [e1|].
  { bind_inv H as stop s3 H3. bind_inv H as now s4 H4. injection H as <- _ <-. by left. }
  bind_inv H as r2 s3 H3. apply quiet_call_States in H3 as [E3 _].
  bind_inv H as deg s4 H4.
  apply quiet_startup_fill in H4 as [E4 _].
  bind_inv H as r3 s5 H5. pose proof (call_Send_spec _ _ _ _ H5) as C5.
  rewrite <-(take_drop split pending), elem_of_app in Hp. destruct Hp as [Hp|Hp].
  - right. assert (e ∈ settled_events (Worker.calls s2.1)) as Hs.
    { rewrite C2, settled_events_app, settled_events_one. set_solver. }
    apply quiet_call_Send in H5 as [E5 _]. eapply extends_settled in Hs; [|exact E3].
    eapply extends_settled in Hs; [|exact E4]. eapply extends_settled in Hs; [|exact E5].
    destruct r3 as [e3|]; [|by injection H as _ _ <-].
    bind_inv H as stop s6 H6. apply quiet_ctx in H6 as [E6 _]. bind_inv H as now s7 H7.
    apply quiet_Now in H7 as [E7 _]. injection H as _ _ <-.
    eapply extends_settled; [exact E7|]. by eapply extends_settled.
  - destruct r3 as [e3|].
    + bind_inv H as stop s6 H6. bind_inv H as now s7 H7. injection H as <- _ _. by left.
    + injection H as _ _ <-. right. rewrite C5, settled_events_app, settled_events_one. set_solver.
Qed.

Lemma quiet_startup : quiet (startup env).
Proof.
  unfold startup. apply quiet_bind; [solve_quiet|]. intros w. apply quiet_bind.
  - intros [w' x] a s' [= <- <-]. split; [apply extends_refl|done].
  - pose proof quiet_startup_fill. intros last. solve_quiet.
Qed.

Lemma start_accounts cfg x s :
  start env (NewWorker cfg, x) = (tt, s) →
  (∀ e, e ∈ WConfig.StartupEvents cfg → sender_LastSent x < Event.Sequence e → e ∈ account s.1) ∧
  (∀ c, c ∈ Worker.accepted s.1 → command_events c ⊆ account s.1).
Proof.
  intros H. unfold start in H. bind_inv H as bd s1 H1. destruct bd as [batch degraded].
  pose proof (startup_keeps _ _ _ _ H1) as Hk. apply quiet_startup in H1 as [[(n1 & Hq1 & Ha1) _ _] _]. destruct s1 as [w1 x1].
  bind_inv H as u s2 H2. injection H2 as _ <-.
  bind_inv H as now s3 H3. apply quiet_Now in H3 as [[(n3 & Hq3 & Ha3) _ [cs Hc]] Hb]. destruct s3 as [w3 x3].
  injection H as <-. cbn [fst] in *. destruct (arm_slots_frame now w3) as (Eb & Ec & Eq & Ea). split.
  - intros e He Hlast. specialize (Hk e He Hlast). rewrite elem_of_account, Eb, Ec, Hb, Hc, settled_events_app.
    cbn in *. set_solver.
  - intros c. cbn in *. rewrite Ea, Ha3, Ha1. cbn. rewrite <-Hq1, <-Hq3, <-Eq. intros Hin e He. rewrite elem_of_account. left.
    apply elem_of_concat. exists (command_events c). split; [|done]. by apply list_elem_of_fmap_2.
Qed.
End Facts.
