(* ===== verification/DeliveryTheorems.v ===== *)
(** * DeliveryTheorems: what a worker promises to the system around it *)

From S2P Require Import Prelude GoTime GoStrings Model Samples Slots GoOS Json RemoteWrite RemoteWriteFacts.
From S2P Require Import RemoteWriteTheorems Delivery DeliveryFacts.

(** ** Invariants of the worker's own state *)

Section Invariants.
Context {X : Type} `{!SenderOps X} (env : surroundings).

Definition preserves {A} (P : Worker.t → Prop) (m : M (Worker.t * X) A) : Prop :=
  ∀ s a s', P s.1 → m s = (a, s') → P s'.1.

Lemma preserves_ret {A} P (a : A) : preserves P (ret a).
Proof. intros s ? s' Hs [= <- <-]. done. Qed.
Lemma preserves_bind {A B} P (m : M (Worker.t * X) A) (f : A → M (Worker.t * X) B) :
  preserves P m → (∀ a, preserves P (f a)) → preserves P (bind m f).
Proof. intros Hm Hf s b s' Hs H. bind_inv H as a s1 H1. eapply Hf; [|exact H]. by eapply Hm. Qed.
Lemma preserves_apply {A} P (m : M (Worker.t * X) A) s a s' : P s.1 → m s = (a, s') → preserves P m → P s'.1.
Proof. intros Hs H Hm. by eapply Hm. Qed.
Lemma preserves_get P : preserves P get_fst.
Proof. intros [w x] a s' Hs [= <- <-]. done. Qed.
Lemma preserves_on_snd {A} P (m : M X A) : preserves P (on_snd m).
Proof. intros [w x] a s' Hs H. by apply on_snd_inv in H as (x' & _ & ->). Qed.
Lemma preserves_modify P (f : Worker.t → Worker.t) : (∀ w, P w → P (f w)) → preserves P (modify_fst f).
Proof. intros Hf [w x] a s' Hs [= _ <-]. by apply Hf. Qed.
Lemma preserves_meanwhile (P : Worker.t → Prop) :
  (∀ w w1, arrived w w1 → P w → P (Worker.next_read w1)) → preserves P (meanwhile env).
Proof. intros HP s u s' Hs H. apply meanwhile_spec in H as (_ & w1 & Ha & ->). by eapply HP. Qed.

(** The two bounded backlogs. *)
Definition bounded (w : Worker.t) : Prop :=
  #(Worker.pendingStates w) <= maxPendingStates ∧ (length (Worker.pendingSlotSamples w) <= 4)%nat.

Lemma trim_length (l : list StateSample.t) :
  #(if 0 <? #l - maxPendingStates then drop (Z.to_nat (#l - maxPendingStates)) l else l) <= maxPendingStates.
Proof. unfold maxPendingStates. destruct (Z.ltb_spec 0 (#l - 10000)); [rewrite length_drop|]; lia. Qed.

Lemma pruneStates_length loc now w :
  #(Worker.pendingStates (pruneStates loc now w)) <= maxPendingStates.
Proof. apply trim_length. Qed.

Lemma bufferStates_bounded loc samples now w : bounded w → bounded (bufferStates loc samples now w).
Proof.
  intros [Hs Hl]. destruct samples as [|x samples]; [done|]. split; [apply pruneStates_length|exact Hl].
Qed.

Lemma enqueueSlotSample_bounded t w : bounded w → bounded (enqueueSlotSample t w).
Proof.
  intros [Hs Hl]. unfold enqueueSlotSample. do 2 (case_match; [done|]). split; [done|].
  cbn [Worker.pendingSlotSamples Worker.with_pendingSlotSamples].
  case_match; [rewrite length_drop; lia|]. by apply Nat.ltb_ge.
Qed.

Create HintDb bounded.
Hint Resolve preserves_ret preserves_bind preserves_get preserves_on_snd bufferStates_bounded : bounded.

Ltac solve_bounded :=
  repeat first
    [ progress intros
    | solve [eauto 2 with bounded]
    | apply preserves_modify; solve [eauto 2 with bounded | by intros ? []]
    | apply preserves_meanwhile; solve [by intros ? ? [? ->] [? ?]]
    | apply preserves_bind
    | match goal with |- preserves _ (match ?x with _ => _ end) => destruct x end ].

Lemma bounded_flush : preserves bounded (flush env).
Proof. unfold flush, call_Send, ctx_Err, markDegraded, Now, reading, drop_events. solve_bounded. Qed.
Hint Resolve bounded_flush : bounded.

Lemma bounded_deliverStates : preserves bounded (deliverStates env).
Proof.
  unfold deliverStates, send_states, call_States, ctx_Err, markDegraded, Now, reading. solve_bounded.
Qed.
Lemma bounded_recordStates samples : preserves bounded (recordStates env samples).
Proof. unfold recordStates, Now, reading. solve_bounded. Qed.
Hint Resolve bounded_deliverStates bounded_recordStates : bounded.

Lemma bounded_heartbeat : preserves bounded (heartbeat env).
Proof. unfold heartbeat, read_states, Now, reading. solve_bounded. Qed.
Lemma bounded_sendSlotSample t : preserves bounded (sendSlotSample env t).
Proof. unfold sendSlotSample, read_states, reading. solve_bounded. Qed.
Hint Resolve bounded_heartbeat bounded_sendSlotSample : bounded.

Lemma bounded_try_samples l : (length l <= 4)%nat → preserves bounded (try_samples env l).
Proof.
  induction l as [|t l IH]; intros Hl; cbn [try_samples]; [solve_bounded|]. simpl in Hl.
  apply preserves_bind; [solve_bounded|]. intros []; cbn [negb]; [|solve_bounded].
  apply preserves_bind; [|intros _; apply IH; lia].
  apply preserves_modify. intros w [Hs _]. split; [exact Hs|cbn; lia].
Qed.

Lemma bounded_trySlotSamples : preserves bounded (trySlotSamples env).
Proof.
  intros [w x] a s' Hw H. unfold trySlotSamples in H. bind_inv H as w0 s0 H0. injection H0 as <- <-.
  eapply bounded_try_samples; [|exact Hw|exact H]. apply Hw.
Qed.
Hint Resolve bounded_trySlotSamples : bounded.

Lemma bounded_before_select : preserves bounded (before_select env).
Proof.
  unfold before_select, sendRecovery, call_States, call_Send, ctx_Err, markDegraded, Now, reading, drop_events.
  solve_bounded.
Qed.
Lemma bounded_receive : preserves bounded (receive env).
Proof. unfold receive. solve_bounded. Qed.

Lemma catch_up_bounded fuel now : ∀ w w', bounded w → catch_up env fuel now w = Some w' → bounded w'.
Proof.
  induction fuel as [|fuel IH]; intros w w' Hw H; cbn [catch_up] in H; case_match; simplify_eq; try done.
  eapply IH; [|exact H]. pose proof (enqueueSlotSample_bounded (earlierTime (Worker.nextOpening w) (Worker.nextClosing w)) w Hw).
  unfold advancePast. by case_match.
Qed.

Lemma bounded_slot_timer fuel : preserves bounded (slot_timer env fuel).
Proof.
  unfold slot_timer. apply preserves_bind; [unfold Now, reading; solve_bounded|]. intros now [w x] o s' Hw H.
  bind_inv H as w0 s0 H0. injection H0 as <- <-. case_match; [|by injection H as _ <-].
  destruct (slot_fired env fuel now w) as [w2|] eqn:Hf; injection H as _ <-; [|done].
  eapply catch_up_bounded; [|exact Hf]. cbn [fst] in Hw.
  pose proof (enqueueSlotSample_bounded (earlierTime (Worker.nextOpening w) (Worker.nextClosing w)) w Hw).
  unfold advancePast. by case_match.
Qed.

Lemma bounded_round fuel i : preserves bounded (round env fuel i).
Proof.
  unfold round. apply preserves_bind; [apply bounded_before_select|]. intros _.
  destruct i; [apply preserves_bind; [apply bounded_receive|solve_bounded]|solve_bounded|solve_bounded|
    apply bounded_slot_timer|solve_bounded].
Qed.

Lemma bounded_step s s' : bounded s.1 → step env s s' → bounded s'.1.
Proof.
  intros Hs Hst. revert Hs. destruct Hst as [fuel i s0 o s1 H _|c w w' x H]; intros Hs; [exact (bounded_round fuel i _ _ _ Hs H)|].
  by apply enqueue_spec in H as ->.
Qed.

Lemma bounded_steps s s' : bounded s.1 → rtc (step env) s s' → bounded s'.1.
Proof. intros Hs H. induction H; [done|]. eauto using bounded_step. Qed.

(** Before the slot edges are armed no slot sample waits. *)
Definition unarmed (w : Worker.t) : Prop :=
  #(Worker.pendingStates w) <= maxPendingStates ∧ Worker.pendingSlotSamples w = [].

Lemma bufferStates_unarmed loc samples now w : unarmed w → unarmed (bufferStates loc samples now w).
Proof.
  intros [Hs Hl]. destruct samples as [|x samples]; [done|]. split; [apply pruneStates_length|exact Hl].
Qed.
Hint Resolve bufferStates_unarmed : bounded.

Lemma unarmed_reading {A} (f : nat → A) : preserves unarmed (reading env f).
Proof. unfold reading. solve_bounded. Qed.

Lemma unarmed_startup : preserves unarmed (startup env).
Proof.
  unfold startup, startup_fill, call_Send, call_States, ctx_Err, Now, reading.
  apply preserves_bind; [solve_bounded|]. intros w. apply preserves_bind; [|intros last; solve_bounded].
  intros [w' x] a s' Hs [= <- <-]. done.
Qed.

Lemma bounded_start cfg x s : start env (NewWorker cfg, x) = (tt, s) → bounded s.1.
Proof.
  intros H. unfold start in H. bind_inv H as bd s1 H1. destruct bd as [batch degraded].
  apply unarmed_startup in H1; [|by split]. destruct s1 as [w1 x1]. bind_inv H as u s2 H2. injection H2 as _ <-.
  bind_inv H as now s3 H3. apply (unarmed_reading (clock env)) in H3; [|exact H1].
  destruct s3 as [w3 x3], H3 as [Hs Hl]. injection H as <-. unfold arm_slots. cbn [fst] in *.
  case_match; (split; [exact Hs|]); [|rewrite Hl; simpl; lia].
  cbn [Worker.pendingSlotSamples Worker.with_nextClosing Worker.with_nextOpening Worker.with_pendingSlotSamples].
  rewrite Hl. cbn [app]. etransitivity; [apply length_filter|cbn; lia].
Qed.

(** ** What precedes a call with state samples *)

(** Newer than what was published for their services. *)
Definition fresh (published : gmap string Z) (samples : list StateSample.t) : Prop :=
  Forall (λ x, ∀ t, published !! StateSample.Service x = Some t → t < StateSample.TimestampUnixMS x) samples.

(** No transition in the batch; and either the fill of the recovery job that
    waits, or fresh samples while no job waits. *)
Definition in_turn (c : call) : Prop :=
  match c with
  | CallSend _ _ => True
  | CallStates v samples _ =>
      v_batch v = [] ∧
      ((∃ job, v_recovery v = Some job ∧ samples = Fill job) ∨
       v_recovery v = None ∧ samples ≠ [] ∧ fresh (v_published v) samples)
  end.

Definition orderly (w0 w : Worker.t) : Prop :=
  ∃ cs, Worker.calls w = Worker.calls w0 ++ cs ∧ Forall in_turn cs.

Lemma orderly_same w0 w w' : Worker.calls w' = Worker.calls w → orderly w0 w → orderly w0 w'.
Proof. intros Hc (cs & H & Hall). exists cs. by rewrite Hc. Qed.
Lemma orderly_add w0 w w' c : Worker.calls w' = Worker.calls w ++ [c] → in_turn c → orderly w0 w → orderly w0 w'.
Proof.
  intros Hw Ht (cs & Hc & Hall). exists (cs ++ [c]). rewrite Hw, Hc, app_assoc. split; [done|].
  apply Forall_app. by repeat constructor.
Qed.

Lemma orderly_call_Send w0 events : preserves (orderly w0) (call_Send env events).
Proof. intros s r s' Hs H. apply call_Send_spec in H. by eapply orderly_add. Qed.
Lemma orderly_call_States w0 samples s r s' :
  in_turn (CallStates (Worker.look s.1) samples r) → call_States env samples s = (r, s') →
  orderly w0 s.1 → orderly w0 s'.1.
Proof. intros Ht H. apply call_States_spec in H as [Hc _]. by eapply orderly_add. Qed.
Lemma orderly_modify w0 (f : Worker.t → Worker.t) :
  (∀ w, Worker.calls (f w) = Worker.calls w) → preserves (orderly w0) (modify_fst f).
Proof. intros Hf. apply preserves_modify. intros w. by apply orderly_same. Qed.
Lemma orderly_reading {A} w0 (f : nat → A) : preserves (orderly w0) (reading env f).
Proof. intros s a s' Hs H. apply silent_reading in H as [Hc _]. by eapply orderly_same. Qed.
Lemma orderly_buffer w0 loc samples now : preserves (orderly w0) (modify_fst (bufferStates loc samples now)).
Proof. apply orderly_modify. intros w. by destruct samples. Qed.

Create HintDb orderly.
Hint Resolve preserves_ret preserves_bind preserves_get orderly_call_Send orderly_reading orderly_buffer : orderly.

Ltac solve_orderly :=
  repeat first
    [ progress intros
    | solve [eauto 2 with orderly]
    | apply orderly_modify; solve [by intros ? | by intros []]
    | apply preserves_bind
    | match goal with |- preserves _ (match ?x with _ => _ end) => destruct x end ].

Lemma orderly_flush w0 : preserves (orderly w0) (flush env).
Proof. unfold flush, ctx_Err, markDegraded, Now, drop_events. solve_orderly. Qed.
Hint Resolve orderly_flush : orderly.

Lemma fresh_dropStale w samples : fresh (Worker.published w) (dropStale w samples).
Proof.
  apply Forall_forall. intros y [Hy _]%list_elem_of_filter t Ht. unfold stale in Hy. rewrite Ht in Hy.
  by apply Z.leb_gt.
Qed.

Lemma orderly_send_states w0 samples s ok s' :
  Worker.batch s.1 = [] → Worker.pendingRecovery s.1 = None → fresh (Worker.published s.1) samples →
  orderly w0 s.1 → send_states env samples s = (ok, s') → orderly w0 s'.1.
Proof.
  intros Hb Hr Hf Hs H. destruct samples as [|y ys]; [by injection H as _ <-|]. unfold send_states in H.
  bind_inv H as r s1 H1. apply (orderly_call_States w0) in H1; [|split; [done|by right]|done].
  apply (preserves_apply _ _ _ _ _ H1 H). unfold ctx_Err, markDegraded, Now. solve_orderly.
Qed.

Lemma orderly_deliverStates w0 : preserves (orderly w0) (deliverStates env).
Proof.
  intros [w x] ok s' Hs H. unfold deliverStates in H. bind_inv H as w1 s1 H1. injection H1 as <- <-.
  destruct (Worker.pendingStates w) as [|p ps]; [by injection H as _ <-|].
  destruct (settled w) eqn:Hset; [|bind_inv H as o s2 H2; injection H2 as <- <-; by injection H as _ <-].
  apply andb_true_iff in Hset as [_ Hrec].
  bind_inv H as o s2 H2. pose proof (flush_spec _ _ _ _ H2) as (E & _ & Hb).
  apply (orderly_flush w0) in H2; [|done]. destruct o; [|by injection H as _ <-]. cbn [negb] in H.
  destruct s2 as [w2 x2]. bind_inv H as w3 s3 H3. injection H3 as <- <-. bind_inv H as go s4 H4.
  apply (orderly_send_states w0) in H4; [|by apply Hb| |apply fresh_dropStale|done].
  - destruct go; [|by injection H as _ <-]. destruct s4. injection H as _ <-. by eapply orderly_same.
  - rewrite (ext_recovery _ _ E). cbn in *. by destruct (Worker.pendingRecovery w).
Qed.
Hint Resolve orderly_deliverStates : orderly.

Lemma orderly_sendRecovery w0 job s ok s' :
  Worker.pendingRecovery s.1 = Some job → orderly w0 s.1 → sendRecovery env job s = (ok, s') → orderly w0 s'.1.
Proof.
  intros Hr Hs H. unfold sendRecovery in H. bind_inv H as o s1 H1. pose proof (flush_spec _ _ _ _ H1) as (E & _ & Hb).
  apply (orderly_flush w0) in H1; [|done]. destruct o; [|by injection H as _ <-]. cbn [negb] in H.
  bind_inv H as r s2 H2. apply (orderly_call_States w0) in H2; [| |done].
  - apply (preserves_apply _ _ _ _ _ H2 H). unfold ctx_Err, markDegraded, Now, drop_events. solve_orderly.
  - split; [by apply Hb|]. left. exists job. split; [|done]. cbn. by rewrite (ext_recovery _ _ E).
Qed.

Lemma orderly_recordStates w0 samples : preserves (orderly w0) (recordStates env samples).
Proof. unfold recordStates, Now. solve_orderly. Qed.
Hint Resolve orderly_recordStates : orderly.

Lemma orderly_trySlotSamples w0 : preserves (orderly w0) (trySlotSamples env).
Proof.
  unfold trySlotSamples. apply preserves_bind; [solve_orderly|]. intros w. generalize (Worker.pendingSlotSamples w).
  intros l. induction l as [|t l IH]; cbn [try_samples]; [solve_orderly|].
  unfold sendSlotSample, read_states. solve_orderly.
Qed.
Hint Resolve orderly_trySlotSamples : orderly.

Lemma orderly_before_select w0 : preserves (orderly w0) (before_select env).
Proof.
  intros [w x] u s' Hs H. unfold before_select in H. bind_inv H as w1 s1 H1. injection H1 as <- <-.
  bind_inv H as u2 s2 H2. eapply (preserves_apply (orderly w0)); [|exact H|solve_orderly].
  destruct (Worker.pendingRecovery w) as [job|] eqn:Hr; [|by injection H2 as _ <-].
  bind_inv H2 as ok s3 H3. apply (orderly_sendRecovery w0) in H3; [|done|done].
  destruct s3, ok; injection H2 as _ <-; [by eapply orderly_same|done].
Qed.
Hint Resolve orderly_before_select : orderly.

Lemma orderly_slot_timer w0 fuel : preserves (orderly w0) (slot_timer env fuel).
Proof.
  unfold slot_timer. apply preserves_bind; [unfold Now; solve_orderly|]. intros now [w x] o s' Hs H.
  bind_inv H as w1 s1 H1. injection H1 as <- <-. case_match; [|by injection H as _ <-].
  destruct (slot_fired env fuel now w) as [w2|] eqn:Hf; injection H as _ <-; [|done].
  apply slot_fired_frame in Hf as (_ & _ & _ & Hc & _). by eapply orderly_same.
Qed.
Hint Resolve orderly_slot_timer : orderly.



End Invariants.

(** ** What the worker relies on *)

(** A sender keeps a position: it never moves back, and it has passed the
    events of every successful [Send]. *)
Class SenderLaws (X : Type) `{!SenderOps X} := {
  ready : X → Prop;
  Send_position : ∀ events x r x', ready x → sender_Send events x = (r, x') →
    ready x' ∧ sender_LastSent x <= sender_LastSent x' ∧
    (r = None → Forall (λ e, Event.Sequence e <= sender_LastSent x') events);
  States_position : ∀ samples x r x', ready x → sender_SendRecoveredStates samples x = (r, x') →
    ready x' ∧ sender_LastSent x' = sender_LastSent x;
}.

(** [remote_write.Sender] is such a sender. *)
Section RemoteSender.
Context (faults : oracle) (net : network).

#[export] Instance remote_ops : SenderOps (Sender.t * env) := {|
  sender_Send := Send faults net;
  sender_SendRecoveredStates := SendRecoveredStates net;
  sender_LastSent := λ x, Sender.lastSent x.1;
|}.

Lemma remote_Send_position events x r x' :
  0 < Config.BatchSize (Sender.cfg x.1) → Send faults net events x = (r, x') →
  0 < Config.BatchSize (Sender.cfg x'.1) ∧ Sender.lastSent x.1 <= Sender.lastSent x'.1 ∧
  (r = None → Forall (λ e, Event.Sequence e <= Sender.lastSent x'.1) events).
Proof.
  destruct x as [s e], x' as [s' e']. intros Hsize H. cbn [fst] in *.
  assert (sendEventsLocked faults net events (s, e) = (r, (s', e'))) as H'
    by (destruct events; [by injection H as <- <- <-|done]). clear H.
  unfold sendEventsLocked in H'. bind_inv H' as s0 st0 H0. injection H0 as <- <-.
  apply send_batches_spec in H' as (sent & rest & ps & Hbs & _ & _ & Hcfg & Hmono & _ & _ & Hnone).
  rewrite Hcfg. split_and!; [done|done|]. intros Hr. destruct (Hnone Hr) as [-> Hall].
  apply (all_delivered (Sender.lastSent s) _ events sent); [|done|done].
  rewrite <-(app_nil_r sent), <-Hbs. apply concat_batches; lia.
Qed.

Lemma remote_States_position samples x r x' :
  SendRecoveredStates net samples x = (r, x') →
  Sender.cfg x'.1 = Sender.cfg x.1 ∧ Sender.lastSent x'.1 = Sender.lastSent x.1.
Proof.
  destruct x as [s e], x' as [s' e']. intros H. unfold SendRecoveredStates in H.
  destruct samples as [|y ys]; [by injection H as <- <- <-|].
  bind_inv H as s0 st0 H0. injection H0 as <- <-. unfold sendSeries in H.
  case_match; [|by injection H as <- <- <-]. bind_inv H as s1 st1 H1. injection H1 as <- <-.
  case_match; [|by injection H as <- <- <-].
  by apply attempts_spec in H as (rs & r' & _ & _ & _ & _ & _ & Hpos).
Qed.

#[export] Instance remote_laws : SenderLaws (Sender.t * env).
Proof.
  refine {| ready := λ x, 0 < Config.BatchSize (Sender.cfg x.1) |}.
  - intros events x r x'. apply remote_Send_position.
  - intros samples x r x' Hx H. apply remote_States_position in H as [Hcfg Hlast]. cbn. by rewrite Hcfg.
Defined.
End RemoteSender.

(** ** Acknowledged events *)

Section Acknowledged.
Context {X : Type} `{!SenderOps X} `{!SenderLaws X} (env : surroundings).

(** The sender's position is past every event of a successful call. *)
Definition positioned (s : Worker.t * X) : Prop :=
  ready s.2 ∧ ∀ events e, CallSend events None ∈ Worker.calls s.1 → e ∈ events →
    Event.Sequence e <= sender_LastSent s.2.

Definition advances {A} (m : M (Worker.t * X) A) : Prop :=
  ∀ s a s', positioned s → m s = (a, s') → positioned s'.

Lemma advances_ret {A} (a : A) : advances (ret a).
Proof. intros s ? s' Hs [= <- <-]. done. Qed.
Lemma advances_bind {A B} (m : M (Worker.t * X) A) (f : A → M (Worker.t * X) B) :
  advances m → (∀ a, advances (f a)) → advances (bind m f).
Proof. intros Hm Hf s b s' Hs H. bind_inv H as a s1 H1. eapply Hf; [|exact H]. by eapply Hm. Qed.
Lemma advances_get : advances get_fst.
Proof. intros [w x] a s' Hs [= <- <-]. done. Qed.
Lemma advances_modify (f : Worker.t → Worker.t) :
  (∀ w, Worker.calls (f w) = Worker.calls w) → advances (modify_fst f).
Proof. intros Hf [w x] a s' [Hr Hs] [= _ <-]. split; [done|]. cbn [fst]. by rewrite Hf. Qed.

Lemma advances_meanwhile : advances (meanwhile env).
Proof.
  intros s u s' [Hr Hs] H. apply meanwhile_spec in H as (Hx & w1 & [n ->] & Hw). split; rewrite Hx; [done|].
  by rewrite Hw.
Qed.

Lemma advances_call_Send events : advances (call_Send env events).
Proof.
  intros [w x] r s' [Hr Hs] H. unfold call_Send in H. bind_inv H as r0 s0 H0.
  apply on_snd_inv in H0 as (x' & H0 & ->). bind_inv H as v s2 H2. apply meanwhile_spec in H2 as (Hx & w1 & [n ->] & Hw).
  destruct s2 as [w2 x2]. bind_inv H as u s1 H1. injection H1 as _ <-. injection H as <- <-. cbn [fst snd] in *. subst.
  apply Send_position in H0 as (Hr' & Hmono & Hall); [|done]. split; [done|]. cbn in *.
  intros evs e [Hin|Hin]%elem_of_app He; [specialize (Hs _ _ Hin He); lia|].
  apply list_elem_of_singleton in Hin as [= -> <-]. specialize (Hall eq_refl).
  rewrite Forall_forall in Hall. by apply Hall.
Qed.

Lemma advances_call_States samples : advances (call_States env samples).
Proof.
  intros [w x] r s' [Hr Hs] H. unfold call_States in H. bind_inv H as r0 s0 H0.
  apply on_snd_inv in H0 as (x' & H0 & ->). bind_inv H as v s2 H2. apply meanwhile_spec in H2 as (Hx & w1 & [n ->] & Hw).
  destruct s2 as [w2 x2]. bind_inv H as u s1 H1. injection H1 as _ <-. injection H as <- <-. cbn [fst snd] in *. subst.
  apply States_position in H0 as [Hr' Hlast]; [|done]. split; [done|]. cbn in *.
  intros evs e [Hin|Hin]%elem_of_app He; [rewrite Hlast; by eapply Hs|].
  by apply list_elem_of_singleton in Hin.
Qed.

Create HintDb advances.
Hint Resolve advances_ret advances_bind advances_get advances_meanwhile advances_call_Send advances_call_States : advances.

Ltac solve_advances :=
  repeat first
    [ progress intros
    | solve [eauto 2 with advances]
    | apply advances_modify; solve [by intros ? | by intros []]
    | apply advances_bind
    | match goal with |- advances (match ?x with _ => _ end) => destruct x end ].

Lemma advances_reading {A} (f : nat → A) : advances (reading env f).
Proof. unfold reading. solve_advances. Qed.
Lemma advances_buffer loc samples now : advances (modify_fst (bufferStates loc samples now)).
Proof. apply advances_modify. intros w. by destruct samples. Qed.
Hint Resolve advances_reading advances_buffer : advances.

Lemma advances_flush : advances (flush env).
Proof. unfold flush, markDegraded, Now, ctx_Err, drop_events. solve_advances. Qed.
Hint Resolve advances_flush : advances.
Lemma advances_deliverStates : advances (deliverStates env).
Proof. unfold deliverStates, send_states, markDegraded, Now, ctx_Err. solve_advances. Qed.
Lemma advances_recordStates samples : advances (recordStates env samples).
Proof. unfold recordStates, Now. solve_advances. Qed.
Hint Resolve advances_deliverStates advances_recordStates : advances.

Lemma advances_trySlotSamples : advances (trySlotSamples env).
Proof.
  unfold trySlotSamples. apply advances_bind; [solve_advances|]. intros w. generalize (Worker.pendingSlotSamples w).
  intros l. induction l as [|t l IH]; cbn [try_samples]; [solve_advances|].
  unfold sendSlotSample, read_states. solve_advances.
Qed.
Hint Resolve advances_trySlotSamples : advances.

Lemma advances_slot_timer fuel : advances (slot_timer env fuel).
Proof.
  unfold slot_timer. apply advances_bind; [unfold Now; solve_advances|]. intros now [w x] o s' Hs H.
  bind_inv H as w0 s0 H0. injection H0 as <- <-. case_match; [|by injection H as _ <-].
  destruct (slot_fired env fuel now w) as [w2|] eqn:Hf; injection H as _ <-; [|done].
  apply slot_fired_frame in Hf as (_ & _ & _ & Hc & _). destruct Hs as [Hr Hs]. split; [done|].
  cbn [fst] in *. by rewrite Hc.
Qed.
Hint Resolve advances_slot_timer : advances.

Lemma advances_round fuel i : advances (round env fuel i).
Proof.
  unfold round, before_select, sendRecovery, heartbeat, receive, read_states, markDegraded, Now, ctx_Err, drop_events.
  solve_advances.
Qed.

Lemma advances_steps s s' : positioned s → rtc (step env) s s' → positioned s'.
Proof.
  intros Hs Hst. revert Hs. induction Hst as [s|s1 s2 s3 Hst _ IH]; [done|]. intros Hs. apply IH. clear IH.
  revert Hs. destruct Hst as [fuel i s0 o s' H _|c w w' x H]; intros Hs.
  - exact (advances_round fuel i _ _ _ Hs H).
  - by apply enqueue_spec in H as ->.
Qed.

(** ** What a restart sends *)

(** Only events past [last] were sent. *)
Definition sends_past (last : Z) (w : Worker.t) : Prop :=
  ∀ events r e, CallSend events r ∈ Worker.calls w → e ∈ events → last < Event.Sequence e.

Lemma past_modify last (f : Worker.t → Worker.t) :
  (∀ w, Worker.calls (f w) = Worker.calls w) → preserves (X := X) (sends_past last) (modify_fst f).
Proof. intros Hf. apply preserves_modify. intros w Hw. unfold sends_past. by rewrite Hf. Qed.

Lemma past_meanwhile last : preserves (X := X) (sends_past last) (meanwhile env).
Proof. apply preserves_meanwhile. by intros w w1 [n ->]. Qed.

Lemma past_reading {A} last (f : nat → A) : preserves (X := X) (sends_past last) (reading env f).
Proof.
  unfold reading. apply preserves_bind; [apply preserves_get|]. intros w.
  apply preserves_bind; [apply past_meanwhile|]. intros _. apply preserves_ret.
Qed.

Lemma past_call_States last samples : preserves (X := X) (sends_past last) (call_States env samples).
Proof.
  unfold call_States. apply preserves_bind; [apply preserves_on_snd|]. intros r. apply preserves_bind; [apply past_meanwhile|]. intros _.
  apply preserves_bind; [|intros _; apply preserves_ret]. apply preserves_modify.
  intros w Hw events r' e [Hin|Hin%list_elem_of_singleton]%elem_of_app He; [by eapply Hw|done].
Qed.

Lemma past_call_Send last events :
  Forall (λ e, last < Event.Sequence e) events → preserves (X := X) (sends_past last) (call_Send env events).
Proof.
  intros Hall. rewrite Forall_forall in Hall.
  unfold call_Send. apply preserves_bind; [apply preserves_on_snd|]. intros r. apply preserves_bind; [apply past_meanwhile|]. intros _.
  apply preserves_bind; [|intros _; apply preserves_ret]. apply preserves_modify.
  intros w Hw events' r' e [Hin|[= -> ->]%list_elem_of_singleton]%elem_of_app He; [by eapply Hw|by apply Hall].
Qed.

Lemma past_startup_fill last fill r : preserves (X := X) (sends_past last) (startup_fill env fill r).
Proof.
  destruct r as [e|]; [|apply preserves_ret]. apply preserves_bind; [apply past_reading|]. intros stop.
  apply preserves_bind; [destruct stop; [apply preserves_ret|apply past_reading]|]. intros d.
  apply preserves_bind; [|intros _; apply preserves_ret]. destruct (IsPermanent e); [apply preserves_ret|].
  apply preserves_bind; [apply past_reading|]. intros now. apply past_modify. intros w. by destruct fill.
Qed.

Lemma startup_sends_past cfg x batch degraded s :
  startup env (NewWorker cfg, x) = ((batch, degraded), s) →
  sends_past (sender_LastSent x) s.1 ∧ Forall (λ e, sender_LastSent x < Event.Sequence e) batch.
Proof.
  intros H. unfold startup in H. bind_inv H as w0 s0 H0. injection H0 as <- <-.
  bind_inv H as last s0 H0. injection H0 as <- <-. set (last := sender_LastSent x) in *.
  set (pending := filter _ _) in H.
  assert (Forall (λ e, last < Event.Sequence e) pending) as Hpend
    by (apply Forall_forall; by intros e [? _]%list_elem_of_filter).
  revert H. match goal with |- context [take ?n pending] => generalize n end. intros split H.
  assert (sends_past last (NewWorker cfg)) as P0 by (intros evs r e Hin; by inv Hin).
  bind_inv H as r1 s2 H2. apply (past_call_Send last) in H2; [|by apply Forall_take|exact P0].
  destruct r1 as [e1|].
  { bind_inv H as stop s3 H3. apply (past_reading last) in H3; [|exact H2]. bind_inv H as now s4 H4.
    apply (past_reading last) in H4; [|exact H3]. by injection H as <- _ <-. }
  bind_inv H as r2 s3 H3. apply (past_call_States last) in H3; [|exact H2]. bind_inv H as deg s4 H4.
  apply (past_startup_fill last) in H4; [|exact H3].
  bind_inv H as r3 s5 H5. apply (past_call_Send last) in H5; [|by apply Forall_drop|exact H4].
  destruct r3 as [e3|].
  - bind_inv H as stop s6 H6. apply (past_reading last) in H6; [|exact H5]. bind_inv H as now s7 H7.
    apply (past_reading last) in H7; [|exact H6]. injection H as <- _ <-. split; [done|]. by apply Forall_drop.
  - injection H as <- _ <-. by split.
Qed.

Lemma start_sends_past cfg x s :
  start env (NewWorker cfg, x) = (tt, s) →
  sends_past (sender_LastSent x) s.1 ∧ Forall (λ e, sender_LastSent x < Event.Sequence e) (Worker.batch s.1).
Proof.
  intros H. unfold start in H. bind_inv H as bd s1 H1. destruct bd as [batch degraded].
  apply startup_sends_past in H1 as [Hp Hb].
  destruct s1 as [w1 x1]. bind_inv H as u s2 H2. injection H2 as _ <-.
  bind_inv H as now s3 H3. pose proof H3 as H4. apply (past_reading (sender_LastSent x)) in H3; [|exact Hp].
  apply quiet_Now in H4 as [_ Hb3]. destruct s3 as [w3 x3]. injection H as <-. cbn [fst] in *.
  unfold sends_past in *. destruct (arm_slots_frame env now w3) as (-> & -> & _). split; [done|]. by rewrite Hb3.
Qed.

Lemma advances_start cfg x s : ready x → start env (NewWorker cfg, x) = (tt, s) → positioned s.
Proof.
  intros Hx H. assert (positioned (NewWorker cfg, x)) as H0.
  { split; [done|]. intros events e Hin. by inv Hin. }
  assert (advances (start env)) as Ha; [|exact (Ha _ _ _ H0 H)].
  unfold start, startup, startup_fill, Now, ctx_Err. apply advances_bind.
  - apply advances_bind; [solve_advances|]. intros w. apply advances_bind; [|intros last; solve_advances].
    intros [w' x'] a s' Hs [= <- <-]. done.
  - intros [batch degraded]. solve_advances. apply advances_modify. intros w. by apply arm_slots_frame.
Qed.
End Acknowledged.

(** ** The slot timer *)

Section SlotTimer.
Context (env : surroundings) (size : Duration) (Hsize : grid_size size = true).
Context (Hstable : ∀ t, hour_stable (location env) t = true).

(** Both edges lie after the zero time, and the window is [size]. *)
Definition armed (w : Worker.t) : Prop :=
  WConfig.RecoveryWindow (Worker.cfg w) = size ∧
  zero_time < Worker.nextOpening w ∧ zero_time < Worker.nextClosing w.

(** The time still to catch up. *)
Definition behind (now : time) (w : Worker.t) : nat :=
  Z.to_nat (now + 1 - Worker.nextOpening w) + Z.to_nat (now + 1 - Worker.nextClosing w).

Lemma earlier_armed w : armed w →
  earlierTime (Worker.nextOpening w) (Worker.nextClosing w) =
    Z.min (Worker.nextOpening w) (Worker.nextClosing w).
Proof.
  intros (_ & Ho & Hc). unfold earlierTime. rewrite !bool_decide_eq_false_2 by lia. cbn [orb].
  unfold Before. destruct (Z.ltb_spec (Worker.nextOpening w) (Worker.nextClosing w)); lia.
Qed.

Lemma enqueueSlotSample_edges t w :
  Worker.nextOpening (enqueueSlotSample t w) = Worker.nextOpening w ∧
  Worker.nextClosing (enqueueSlotSample t w) = Worker.nextClosing w ∧
  Worker.cfg (enqueueSlotSample t w) = Worker.cfg w.
Proof. unfold enqueueSlotSample. by repeat case_match. Qed.

(** One round moves the edge it passed into the future of that edge. *)
Lemma advance_progress now w w1 :
  armed w → slots_only w w1 → Worker.nextOpening w1 = Worker.nextOpening w →
  Worker.nextClosing w1 = Worker.nextClosing w →
  let n := earlierTime (Worker.nextOpening w) (Worker.nextClosing w) in
  n <= now → armed (advancePast env n w1) ∧ (behind now (advancePast env n w1) < behind now w)%nat.
Proof.
  intros Ha (_ & _ & _ & _ & Hcfg & _) Ho Hc n Hn. subst n. rewrite earlier_armed in * by done.
  destruct Ha as (Hw & Hzo & Hzc). unfold advancePast. rewrite Hcfg, Hw, Ho, Hc.
  pose proof (SlotStart_bounds (location env) size Hsize (Worker.nextOpening w) (Hstable _)) as Bo.
  pose proof (SlotStart_bounds (location env) size Hsize (Worker.nextClosing w) (Hstable _)) as Bc.
  destruct (grid_size_spec size Hsize) as (m & k & _ & _ & _ & _ & Hlead).
  destruct (Z.eqb_spec (Z.min (Worker.nextOpening w) (Worker.nextClosing w)) (Worker.nextOpening w)) as [He|He];
    unfold armed, behind; cbn; rewrite ?Hcfg, ?Hw, ?Ho, ?Hc;
    unfold SlotOpeningTime, SlotClosingTime, SlotEndFraction in *; time_consts;
    (split; [split_and!; [done|lia|lia]|lia]).
Qed.

Lemma catch_up_ends now : ∀ fuel w,
  armed w → (behind now w <= fuel)%nat →
  ∃ w', catch_up env fuel now w = Some w' ∧ armed w' ∧
    now < Worker.nextOpening w' ∧ now < Worker.nextClosing w'.
Proof.
  induction fuel as [|fuel IH]; intros w Ha Hb; cbn [catch_up]; unfold Before;
    destruct (Z.ltb_spec now (earlierTime (Worker.nextOpening w) (Worker.nextClosing w))) as [Hlt|Hge];
    try (exists w; split_and!; [done|done|rewrite earlier_armed in Hlt by done; lia..]).
  - rewrite earlier_armed in Hge by done. unfold behind in Hb. lia.
  - destruct (enqueueSlotSample_edges (earlierTime (Worker.nextOpening w) (Worker.nextClosing w)) w) as (Ho & Hc & _).
    destruct (advance_progress now w _ Ha (enqueueSlotSample_frame _ w) Ho Hc Hge) as [Ha' Hb'].
    apply IH; [done|lia].
Qed.
End SlotTimer.

(** ** Concrete data for the witnesses *)

Definition utc_env : surroundings :=
  Surroundings (λ n, (1700000000 + Z.of_nat n) * Second) (λ _ _, None) (λ _, false) (λ _, []) (FixedZone 0).
Definition sample_wcfg : WConfig.t :=
  WConfig.mk 2 (15 * Minute) ["a"] [sample_event 4 "a" StateUp 500; sample_event 5 "a" StateDown 1000] [] zero_time.

(** A receiver that answers the first request with 503 and then accepts. *)
Definition recovering : network :=
  Network (λ n, match n with 0 => Status 503 | _ => Status 204 end%nat) (λ _, false)
    (λ req, Some (concat ((λ ts, to_bytes (series_name ts)) <$> req))) (λ _, true).
Definition sample_sender_env : Sender.t * RemoteWrite.env :=
  (RemoteWriteTheorems.sample_sender, RemoteWriteTheorems.sample_env).

#[local] Existing Instance remote_ops.
#[local] Existing Instance remote_laws.

Module DeliveryClaims.
(** C6: No event disappears inside a worker: an event it had to replay at
    startup, or one that a producer enqueued successfully, between two rounds
    or while the worker reads its surroundings or waits for its sender, is at
    every later moment in the queue, in the pending recovery job, in the
    batch, or in a call to the sender that succeeded or was permanently
    rejected. *)
Theorem accepted_events_stay_accounted_for (X : Type) (ops : SenderOps X) (env : surroundings)
    (cfg : WConfig.t) (x : X) (s0 s1 s2 s3 : Worker.t * X) (c : command) (e : Event.t) :
  start env (NewWorker cfg, x) = (tt, s0) → rtc (step env) s0 s1 →
  enqueue c s1.1 = (true, s2.1) → s2.2 = s1.2 → rtc (step env) s2 s3 →
  (e ∈ WConfig.StartupEvents cfg ∧ sender_LastSent x < Event.Sequence e) ∨ e ∈ command_events c ∨
    (∃ c', c' ∈ Worker.accepted s3.1 ∧ e ∈ command_events c') →
  e ∈ concat (command_events <$> Worker.queue s3.1) ∨
  e ∈ recovery_events (Worker.pendingRecovery s3.1) ∨
  e ∈ Worker.batch s3.1 ∨
  ∃ events r, CallSend events r ∈ Worker.calls s3.1 ∧ e ∈ events ∧
    (r = None ∨ ∃ code, r = Some (Permanent code)).
Proof.
  intros Hstart H01 Hq Hx H23 He.
  assert (step env s1 s2) as H12.
  { destruct s1 as [w1 x1], s2 as [w2 x2]. simpl in *. subst x2. by eapply step_enqueue. }
  assert (e ∈ account s3.1) as Ha.
  { pose proof (steps_booked _ _ _ H23) as [B23 A23]. pose proof (step_booked _ _ _ H12) as [B12 A12].
    pose proof (steps_booked _ _ _ H01) as [B01 A01]. destruct (start_accounts _ _ _ _ Hstart) as [B0 A0].
    destruct He as [[He Hlast]|[He|(c' & [[[Hc|Hc]%A01|Hc]%A12|Hc]%A23 & He)]]; [by auto| |
      by apply B23, B12, B01, (A0 _ Hc)|by apply B23, B12, (Hc e)|by apply B23, (Hc e)|by apply (Hc e)].
    apply B23. apply enqueue_spec in Hq. rewrite elem_of_account. left. rewrite Hq. cbn. rewrite fmap_app, concat_app.
    cbn. set_solver. }
  apply elem_of_account in Ha as [?|[?|[?|Ha]]]; [by auto..|]. do 3 right.
  apply elem_of_concat in Ha as (l & Hl & Hin). apply list_elem_of_fmap in Hl as (call & -> & Hcall).
  destruct call as [events r|v samples r]; [|by inv Hin]. exists events, r. split; [done|].
  destruct r as [[]|]; simpl in Hin; try (by inv Hin); split; eauto.
Qed.

(** C29: At every moment in the life of a worker the availability backlog
    holds at most 10000 samples and at most four slot samples wait. *)
Theorem backlogs_stay_bounded (X : Type) (ops : SenderOps X) (env : surroundings)
    (cfg : WConfig.t) (x : X) (s0 s : Worker.t * X) :
  start env (NewWorker cfg, x) = (tt, s0) → rtc (step env) s0 s →
  #(Worker.pendingStates s.1) <= maxPendingStates ∧ (length (Worker.pendingSlotSamples s.1) <= 4)%nat.
Proof. intros Hstart Hs. eapply bounded_steps; [|exact Hs]. by eapply bounded_start. Qed.

(** After buffering, the backlog is the newest part, up to the bound, of the
    old and new samples that belong to the current slot: nothing of a closed
    slot remains, and nothing of the current slot is dropped below the bound.
    *)
Theorem buffered_states_are_the_newest_of_the_slot (loc : Location) (samples : list StateSample.t)
    (now : time) (w : Worker.t) :
  samples ≠ [] → 0 < WConfig.RecoveryWindow (Worker.cfg w) →
  let floor := UnixMilli (SlotStart loc now (WConfig.RecoveryWindow (Worker.cfg w))) in
  let kept := filter (λ x, floor <= StateSample.TimestampUnixMS x) (Worker.pendingStates w ++ samples) in
  let result := Worker.pendingStates (bufferStates loc samples now w) in
  result `suffix_of` kept ∧ #result = Z.min maxPendingStates #kept.
Proof.
  intros Hne Hw floor kept result. destruct samples as [|x samples]; [done|].
  assert (result = if 0 <? #kept - maxPendingStates then drop (Z.to_nat (#kept - maxPendingStates)) kept else kept)
    as ->.
  { subst result kept floor. unfold bufferStates, pruneStates. cbn -[filter Z.sub Z.ltb].
    by rewrite (proj2 (Z.ltb_lt _ _) Hw). }
  unfold maxPendingStates. destruct (Z.ltb_spec 0 (#kept - 10000)).
  - split; [apply suffix_drop|]. rewrite length_drop. lia.
  - split; [done|lia].
Qed.


(** C7: For every sender that keeps a position as [remote_write.Sender] does,
    an event of a successful [Send] is neither in the batch nor in any call
    that a worker makes while it starts again on the position the sender
    reached, whatever replay list the new worker is given. *)
Theorem acknowledged_events_are_not_sent_again (X : Type) (ops : SenderOps X) (laws : SenderLaws X)
    (env env' : surroundings) (cfg cfg' : WConfig.t) (x : X) (s0 s s' : Worker.t * X)
    (events : list Event.t) (e : Event.t) :
  ready x → start env (NewWorker cfg, x) = (tt, s0) → rtc (step env) s0 s →
  CallSend events None ∈ Worker.calls s.1 → e ∈ events →
  start env' (NewWorker cfg', s.2) = (tt, s') →
  e ∉ Worker.batch s'.1 ∧ ∀ events' r, CallSend events' r ∈ Worker.calls s'.1 → e ∉ events'.
Proof.
  intros Hx Hstart Hs Hcall He Hstart'.
  assert (positioned s) as [_ Hpos].
  { eapply advances_steps; [|exact Hs]. eapply advances_start; [exact Hx|exact Hstart]. }
  specialize (Hpos _ _ Hcall He). apply start_sends_past in Hstart' as [Hpast Hbatch].
  rewrite Forall_forall in Hbatch. split; [intros Hin; apply Hbatch in Hin; lia|].
  intros events' r Hc Hin. specialize (Hpast _ _ _ Hc Hin). lia.
Qed.

(** C30: For a window of whole minutes that divides the hour, in a zone whose
    changes do not cut an hour, the catch-up loop of the slot timer ends
    however late the timer fires, with both next edges in the future. *)
Theorem slot_timer_catches_up (env : surroundings) (size : Duration) (now : time) (w : Worker.t) :
  grid_size size = true → (∀ t, hour_stable (location env) t = true) → armed size w →
  earlierTime (Worker.nextOpening w) (Worker.nextClosing w) <= now →
  ∃ w', slot_fired env (behind now w) now w = Some w' ∧
    now < Worker.nextOpening w' ∧ now < Worker.nextClosing w' ∧ armed size w'.
Proof.
  intros Hsize Hstable Ha Hn. unfold slot_fired.
  set (n := earlierTime _ _) in *.
  destruct (enqueueSlotSample_edges n w) as (Ho & Hc & _).
  destruct (advance_progress env size Hsize Hstable now w _ Ha (enqueueSlotSample_frame n w) Ho Hc Hn) as [Ha' Hb'].
  destruct (catch_up_ends env size Hsize Hstable now (behind now w) _ Ha') as (w' & Hw' & ? & ? & ?);
    [apply Nat.lt_le_incl; exact Hb'|].
  exists w'. auto.
Qed.

(** ** Behaviours worth knowing *)

(** Seven and a half minutes past the hour begin a slot the grid cannot name. *)
Definition spin_env : surroundings := Surroundings (λ _, 451 * Second) (λ _ _, None) (λ _, false) (λ _, []) (FixedZone 0).
Definition spin_cfg : WConfig.t := WConfig.mk 1 (450 * Second) [] [] [] zero_time.
Definition spinning : Worker.t := arm_slots spin_env (100 * Second) (NewWorker spin_cfg).

Lemma catch_up_spins fuel : ∀ w,
  Worker.cfg w = spin_cfg → Worker.nextOpening w = 450 * Second + 5 * Millisecond →
  Worker.nextClosing w = 899 * Second + 5 * Millisecond → catch_up spin_env fuel (451 * Second) w = None.
Proof.
  induction fuel as [|fuel IH]; intros w Hcfg Ho Hc; cbn [catch_up]; rewrite Ho, Hc; [done|].
  change (earlierTime _ _) with (450 * Second + 5 * Millisecond). change (Before _ _) with false. cbn iota.
  destruct (enqueueSlotSample_edges (450 * Second + 5 * Millisecond) w) as (Ho' & Hc' & Hcfg').
  apply IH; unfold advancePast; rewrite Ho', Ho; change (_ =? _) with true; cbn [Worker.cfg Worker.nextOpening
    Worker.nextClosing Worker.with_nextOpening]; rewrite ?Hcfg', ?Hcfg, ?Ho', ?Hc', ?Ho, ?Hc; done.
Qed.

(** With a window of seven and a half minutes, which the configuration
    accepts, the catch-up loop of the slot timer never ends once the second
    slot has begun: no number of rounds is enough, since the slot of its
    opening edge is computed in whole minutes. *)
Theorem half_minute_window_spins (fuel : nat) : slot_fired spin_env fuel (451 * Second) spinning = None.
Proof. apply catch_up_spins; done. Qed.

(** Requests made legible: the timestamps they carry. *)
Definition timestamps (req : WriteRequest) : option bytes :=
  Some (concat ((λ ts, concat ((λ x, FormatInt (Timestamp x)) <$> Samples ts)) <$> req)).
Definition net_of (answers : nat → reply) : network := Network answers (λ _, false) timestamps (λ _, true).
Definition calm : oracle := λ _ _, Fine.
Definition sender_with (size last : Z) : Sender.t :=
  Sender.mk (Config.mk true "http://receiver/write" size Second Second Second "/c/cp" Minute ∅) last 0 0 0 0.
Definition no_requests : RemoteWrite.env := Env (World ∅ 0) [].

(** The receiver is down for the first three requests. *)
Definition outage : network := net_of (λ n, if (n <? 3)%nat then Status 503 else Status 204).

(** A recovery job that waits out a receiver outage loses its transitions when
    a live transition arrives meanwhile: the worker flushes the live batch
    first, the position passes the recovered sequence numbers, and the later
    [Send] of the recovered transitions succeeds without a request. Nothing is
    counted as dropped. *)
Theorem live_transition_overtakes_recovery :
  let ops := remote_ops calm outage in
  let recovered := sample_event 5 "a" StateDown 1000 in
  let live := sample_event 6 "a" StateUp 2000 in
  let job := mkJob [StateSample.mk "a" StateUp 900] [recovered] in
  let w0 := Worker.with_queue [CmdRecovery job; CmdEvent live]
              (NewWorker (WConfig.mk 100 (15 * Minute) ["a"] [] [] zero_time)) in
  let s1 := (round utc_env 0 Receive (w0, (sender_with 100 4, no_requests))).2 in
  let s2 := (round utc_env 0 Receive s1).2 in
  let s3 := (round utc_env 0 FlushTick s2).2 in
  Worker.queue s3.1 = [] ∧ Worker.batch s3.1 = [] ∧ Worker.pendingRecovery s3.1 = None ∧
  Worker.dropped s3.1 = 0 ∧ Sender.lastSent s3.2.1 = 6 ∧
  last (Worker.calls s3.1) = Some (CallSend [recovered] None) ∧
  accepted (requests s3.2.2) = [FormatInt 2000; FormatInt 900].
Proof. vm_compute. split_and!; reflexivity. Qed.

(** The receiver refuses the second request. *)
Definition picky : network := net_of (λ n, match n with 1 => Status 400 | _ => Status 204 end%nat).

(** When a batch larger than one request is refused in the middle, the worker
    drops all of it: here one event was accepted, one was refused and one was
    never sent, and three are counted as dropped. *)
Theorem one_rejection_drops_unsent_events :
  let ops := remote_ops calm picky in
  let w0 := Worker.with_batch [sample_event 5 "a" StateDown 1000; sample_event 6 "a" StateUp 2000;
              sample_event 7 "a" StateDown 3000]
              (NewWorker (WConfig.mk 1 (15 * Minute) ["a"] [] [] zero_time)) in
  let s1 := (round utc_env 0 FlushTick (w0, (sender_with 1 4, no_requests))).2 in
  Worker.batch s1.1 = [] ∧ Worker.dropped s1.1 = 3 ∧
  requests s1.2.2 = [(FormatInt 1000, Status 204); (FormatInt 2000, Status 400)].
Proof. vm_compute. split_and!; reflexivity. Qed.

(** A receiver that never answers, and a start with one event before the slot
    and one sample to fill it. *)
Definition down : network := net_of (λ _, NoReply).
Definition fill_sample : StateSample.t := StateSample.mk "a" StateUp 1700000100000.
Definition startup_cfg (events : list Event.t) : WConfig.t :=
  WConfig.mk 100 (15 * Minute) ["a"] events [fill_sample] (1699999200 * Second).

(** When the first [Send] of a start fails, the startup fill is neither sent
    nor buffered; when that [Send] has nothing to send and the fill itself
    fails, the fill is buffered. *)
Theorem failed_startup_send_loses_the_fill :
  let ops := remote_ops calm down in
  let start_with events := (start utc_env (NewWorker (startup_cfg events), (sender_with 100 4, no_requests))).2.1 in
  let early := sample_event 5 "a" StateDown 1000 in
  let interrupted := start_with [early] in
  let buffered := start_with [] in
  Worker.calls interrupted = [CallSend [early] (Some Transport)] ∧
  Worker.pendingStates interrupted = [] ∧
  Worker.pendingStates buffered = [fill_sample].
Proof. vm_compute. split_and!; reflexivity. Qed.

(** ** Witnesses *)

#[local] Instance witness_ops : SenderOps (Sender.t * RemoteWrite.env) := remote_ops calm outage.
#[local] Instance witness_laws : SenderLaws (Sender.t * RemoteWrite.env) := remote_laws calm outage.

Definition started : Worker.t * (Sender.t * RemoteWrite.env) := Eval vm_compute in
  (start utc_env (NewWorker sample_wcfg, (sender_with 100 4, no_requests))).2.
Definition live_event : Event.t := sample_event 6 "a" StateUp 2000.
Definition enqueued : Worker.t * (Sender.t * RemoteWrite.env) := Eval vm_compute in
  ((EnqueueEvent live_event started.1).2, started.2).
Definition received : Worker.t * (Sender.t * RemoteWrite.env) := Eval vm_compute in (round utc_env 0 Receive enqueued).2.

Lemma started_eq : start utc_env (NewWorker sample_wcfg, (sender_with 100 4, no_requests)) = (tt, started).
Proof. by vm_compute. Qed.

Lemma received_step : rtc (step utc_env) enqueued received.
Proof.
  apply rtc_once. apply (step_round utc_env 0 Receive enqueued Continue received); [|done].
  by vm_compute.
Qed.

Lemma enqueued_step : rtc (step utc_env) started enqueued.
Proof. apply rtc_once. by apply (step_enqueue utc_env (CmdEvent live_event)). Qed.

Lemma accepted_events_stay_accounted_for_witness :
  Worker.queue received.1 = [] ∧
  (live_event ∈ concat (command_events <$> Worker.queue received.1) ∨
   live_event ∈ recovery_events (Worker.pendingRecovery received.1) ∨
   live_event ∈ Worker.batch received.1 ∨
   ∃ events r, CallSend events r ∈ Worker.calls received.1 ∧ live_event ∈ events ∧
    (r = None ∨ ∃ code, r = Some (Permanent code))).
Proof.
  split; [by vm_compute|].
  apply (accepted_events_stay_accounted_for _ witness_ops utc_env sample_wcfg (sender_with 100 4, no_requests)
    started started enqueued received (CmdEvent live_event) live_event).
  - exact started_eq.
  - apply rtc_refl.
  - by vm_compute.
  - done.
  - exact received_step.
  - right. left. by left.
Defined.

Lemma backlogs_stay_bounded_witness :
  #(Worker.pendingStates received.1) <= maxPendingStates ∧ (length (Worker.pendingSlotSamples received.1) <= 4)%nat.
Proof.
  apply (backlogs_stay_bounded _ witness_ops utc_env sample_wcfg (sender_with 100 4, no_requests) started received).
  - exact started_eq.
  - etransitivity; [exact enqueued_step|exact received_step].
Defined.

(** One sample of an earlier slot, one of the current one. *)
Definition two_samples : list StateSample.t := [StateSample.mk "a" StateUp 1; StateSample.mk "a" StateUp 1700000100000].
Lemma buffered_states_are_the_newest_of_the_slot_witness :
  Worker.pendingStates (bufferStates (FixedZone 0) two_samples (1700000100 * Second) (NewWorker sample_wcfg)) =
    [StateSample.mk "a" StateUp 1700000100000] ∧
  #(Worker.pendingStates (bufferStates (FixedZone 0) two_samples (1700000100 * Second) (NewWorker sample_wcfg))) =
    Z.min maxPendingStates 1.
Proof.
  split; [by vm_compute|].
  apply (buffered_states_are_the_newest_of_the_slot (FixedZone 0) two_samples (1700000100 * Second) (NewWorker sample_wcfg));
    [done|vm_compute; done].
Defined.



(** The flush that the receiver finally accepts, and the restart after it. *)
Definition flushed : Worker.t * (Sender.t * RemoteWrite.env) := Eval vm_compute in (round utc_env 0 FlushTick received).2.
Definition restarted : Worker.t * (Sender.t * RemoteWrite.env) := Eval vm_compute in
  (start utc_env (NewWorker sample_wcfg, flushed.2)).2.

Lemma flushed_step : rtc (step utc_env) received flushed.
Proof.
  apply rtc_once. apply (step_round utc_env 0 FlushTick received Continue flushed); [|done].
  by vm_compute.
Qed.

Lemma acknowledged_events_are_not_sent_again_witness :
  live_event ∉ Worker.batch restarted.1 ∧
  ∀ events' r, CallSend events' r ∈ Worker.calls restarted.1 → live_event ∉ events'.
Proof.
  apply (acknowledged_events_are_not_sent_again _ witness_ops witness_laws utc_env utc_env sample_wcfg sample_wcfg
    (sender_with 100 4, no_requests) started flushed restarted
    [sample_event 5 "a" StateDown 1000; live_event] live_event).
  - by vm_compute.
  - exact started_eq.
  - etransitivity; [|exact flushed_step]. etransitivity; [exact enqueued_step|exact received_step].
  - assert (last (Worker.calls flushed.1) = Some (CallSend [sample_event 5 "a" StateDown 1000; live_event] None)) as Hl
      by (by vm_compute).
    apply last_Some in Hl as [l ->]. apply elem_of_app. right. by left.
  - right. by left.
  - by vm_compute.
Defined.

(** At 00:00 with the edges of the first quarter of the hour ahead; the timer
    fires twenty minutes late. *)
Definition armed_worker : Worker.t := arm_slots utc_env (100 * Second) (NewWorker sample_wcfg).
Lemma slot_timer_catches_up_witness :
  ∃ w', slot_fired utc_env (behind (2000 * Second) armed_worker) (2000 * Second) armed_worker = Some w' ∧
    2000 * Second < Worker.nextOpening w' ∧ 2000 * Second < Worker.nextClosing w' ∧ armed (15 * Minute) w'.
Proof.
  apply (slot_timer_catches_up utc_env (15 * Minute) (2000 * Second) armed_worker).
  - done.
  - intros t. apply FixedZone_stable.
  - by split_and!.
  - by vm_compute.
Defined.
End DeliveryClaims.
