(* ===== verification/GoText.v ===== *)
(** * GoText: more of Go's [strings], [bytes], [strconv] and [fmt]

    The functions the configuration, the probes, the host identity and the
    metrics page use. Lists of bytes carry the algorithms; the versions on
    strings convert. [EqualFold] follows Go whenever its second argument is
    ASCII, as it is at every call; [Quote] ([%q]) follows Go on ASCII text. *)

From S2P Require Import Prelude GoTime GoStrings Model Json.

(** ** Searching *)

Fixpoint IndexByte (l : bytes) (c : ascii) : option nat :=
  match l with
  | [] => None
  | x :: l' => if ascii_dec x c then Some 0%nat else S <$> IndexByte l' c
  end.

Fixpoint LastIndexByte (l : bytes) (c : ascii) : option nat :=
  match l with
  | [] => None
  | x :: l' =>
      match LastIndexByte l' c with
      | Some i => Some (S i)
      | None => if ascii_dec x c then Some 0%nat else None
      end
  end.

(** [strings.ContainsAny(s, chars)] and [strings.IndexAny(s, chars)] for ASCII
    [chars]. *)
Definition ContainsAny (s chars : string) : bool :=
  bool_decide (Exists (λ c, c ∈ to_bytes chars) (to_bytes s)).

Fixpoint index_any (l chars : bytes) : option nat :=
  match l with
  | [] => None
  | x :: l' => if decide (x ∈ chars) then Some 0%nat else S <$> index_any l' chars
  end.
Definition IndexAny (s chars : string) : option nat := index_any (to_bytes s) (to_bytes chars).

(** [bytes.HasPrefix] and [bytes.Contains]. *)
Definition bytes_HasPrefix (l p : bytes) : bool := if strip_prefix p l then true else false.
Fixpoint bytes_Contains (l sub : bytes) : bool :=
  bytes_HasPrefix l sub || match l with [] => false | _ :: l' => bytes_Contains l' sub end.

(** [strings.TrimSuffix(s, suffix)]. *)
Definition TrimSuffix (s suffix : string) : string :=
  match strip_prefix (reverse (to_bytes suffix)) (reverse (to_bytes s)) with
  | Some l => of_bytes (reverse l)
  | None => s
  end.

(** ** Splitting *)

(** [bytes.Cut] at a one-byte separator: before, after, found. *)
Fixpoint Cut (l : bytes) (sep : ascii) : bytes * bytes * bool :=
  match l with
  | [] => ([], [], false)
  | x :: l' =>
      if ascii_dec x sep then ([], l', true)
      else let '(before, after, found) := Cut l' sep in (x :: before, after, found)
  end.

(** [bytes.Split] at a one-byte separator. *)
Fixpoint Split (l : bytes) (sep : ascii) : list bytes :=
  match l with
  | [] => [[]]
  | x :: l' =>
      if ascii_dec x sep then [] :: Split l' sep
      else match Split l' sep with
           | [] => [[x]]
           | p :: ps => (x :: p) :: ps
           end
  end.

(** [bytes.Fields]: the maximal runs without white space. Each round consumes
    at least a byte; [field] holds the run being read, reversed. *)
Fixpoint fields (fuel : nat) (field l : bytes) : list bytes :=
  let done := match field with [] => [] | _ => [reverse field] end in
  match fuel, l with
  | S fuel', c :: l' =>
      match strip_rune space_runes l with
      | Some rest => done ++ fields fuel' [] rest
      | None => fields fuel' (c :: field) l'
      end
  | _, _ => done
  end.
Definition Fields (l : bytes) : list bytes := fields (length l) [] l.

(** [strings.Join]. *)
Fixpoint JoinWith (sep : string) (l : list string) : string :=
  match l with
  | [] => ""
  | [x] => x
  | x :: l' => x +:+ sep +:+ JoinWith sep l'
  end.

(** [strings.ReplaceAll(s, old, new)] for a one-byte [old]. *)
Definition ReplaceByte (old : ascii) (new : bytes) (l : bytes) : bytes :=
  mbind (λ c, if ascii_dec c old then new else [c]) l.

(** ** Case folding *)

(** The simple folding of a text: besides the letters of ASCII, the long s
    (U+017F) and the Kelvin sign (U+212A) fold to ASCII letters. *)
Fixpoint fold_case (l : bytes) : bytes :=
  match l with
  | [] => []
  | a :: ((b :: r) as l1) =>
      if bool_decide (a = byte 197) && bool_decide (b = byte 191) then "s"%char :: fold_case r
      else match r with
           | c :: r' =>
               if bool_decide (a = byte 226) && bool_decide (b = byte 132) && bool_decide (c = byte 170)
               then "k"%char :: fold_case r' else lower a :: fold_case l1
           | [] => lower a :: fold_case l1
           end
  | a :: l' => lower a :: fold_case l'
  end.
Definition EqualFold (l pattern : bytes) : bool := bool_decide (fold_case l = fold_case pattern).

(** ** Numbers and quoting *)

Definition Itoa (n : Z) : string := of_bytes (FormatInt n).
Definition Atoi (s : string) : option Z := ParseInt s.

(** [%x] of bytes and [hex.EncodeToString]. *)
Definition hex_bytes (l : bytes) : bytes :=
  mbind (λ c, [hex_digit (code c / 16); hex_digit (code c mod 16)]) l.

(** [%q] and [strconv.Quote]. *)
Definition quote_char (c : ascii) : bytes :=
  let n := code c in
  if bool_decide (c = quote) || bool_decide (c = backslash) then [backslash; c]
  else if n =? 7 then [backslash; "a"%char]
  else if n =? 8 then [backslash; "b"%char]
  else if n =? 12 then [backslash; "f"%char]
  else if n =? 10 then [backslash; "n"%char]
  else if n =? 13 then [backslash; "r"%char]
  else if n =? 9 then [backslash; "t"%char]
  else if n =? 11 then [backslash; "v"%char]
  else if (n <? 32) || (n =? 127) then [backslash; "x"%char; hex_digit (n / 16); hex_digit (n mod 16)]
  else [c].
Definition Quote (s : string) : string :=
  of_bytes ([quote] ++ mbind quote_char (to_bytes s) ++ [quote]).

(** ** Facts *)

Lemma to_bytes_app s t : to_bytes (s +:+ t) = to_bytes s ++ to_bytes t.
Proof. induction s as [|c s IH]; [done|]. simpl. f_equal. exact IH. Qed.

Lemma to_bytes_inj s t : to_bytes s = to_bytes t → s = t.
Proof. intros H. by rewrite <-(of_to_bytes s), H, of_to_bytes. Qed.

Lemma of_bytes_app l k : of_bytes (l ++ k) = of_bytes l +:+ of_bytes k.
Proof. apply to_bytes_inj. by rewrite to_bytes_app, !to_of_bytes. Qed.

Lemma IndexByte_None l c : IndexByte l c = None ↔ c ∉ l.
Proof.
  induction l as [|x l IH]; simpl; [set_solver|].
  destruct (ascii_dec x c); [set_solver|]. rewrite fmap_None, IH. set_solver.
Qed.

Lemma IndexByte_first l1 c l2 : c ∉ l1 → IndexByte (l1 ++ c :: l2) c = Some (length l1).
Proof.
  induction l1 as [|x l1 IH]; intros Hc; simpl; [by destruct (ascii_dec c c)|].
  destruct (ascii_dec x c); [set_solver|]. rewrite IH by set_solver. done.
Qed.

Lemma IndexByte_Some l c i :
  IndexByte l c = Some i → ∃ l1 l2, l = l1 ++ c :: l2 ∧ length l1 = i ∧ c ∉ l1.
Proof.
  revert i. induction l as [|x l IH]; intros i Hi; simpl in Hi; [done|].
  destruct (ascii_dec x c) as [->|Hne].
  - injection Hi as <-. exists [], l. set_solver.
  - apply fmap_Some in Hi as (j & Hj & ->). destruct (IH j Hj) as (l1 & l2 & -> & <- & Hc).
    exists (x :: l1), l2. set_solver.
Qed.

Lemma LastIndexByte_None l c : LastIndexByte l c = None ↔ c ∉ l.
Proof.
  induction l as [|x l IH]; simpl; [set_solver|].
  destruct (LastIndexByte l c) as [i|] eqn:Hl.
  - split; [done|]. intros Hx. assert (Some i = None) by (apply IH; set_solver). done.
  - destruct (ascii_dec x c); set_solver.
Qed.

Lemma LastIndexByte_last l1 c l2 : c ∉ l2 → LastIndexByte (l1 ++ c :: l2) c = Some (length l1).
Proof.
  intros Hc. induction l1 as [|x l1 IH]; simpl; [|by rewrite IH].
  rewrite (proj2 (LastIndexByte_None l2 c) Hc). by destruct (ascii_dec c c).
Qed.

Lemma LastIndexByte_Some l c i :
  LastIndexByte l c = Some i → ∃ l1 l2, l = l1 ++ c :: l2 ∧ length l1 = i ∧ c ∉ l2.
Proof.
  revert i. induction l as [|x l IH]; intros i Hi; simpl in Hi; [done|].
  destruct (LastIndexByte l c) as [j|] eqn:Hl.
  - injection Hi as <-. destruct (IH j eq_refl) as (l1 & l2 & -> & <- & Hc). by exists (x :: l1), l2.
  - destruct (ascii_dec x c) as [->|]; [|done]. injection Hi as <-.
    exists [], l. by apply LastIndexByte_None in Hl.
Qed.

Lemma bytes_HasPrefix_spec l p : bytes_HasPrefix l p = true ↔ ∃ r, l = p ++ r.
Proof.
  unfold bytes_HasPrefix. split.
  - destruct (strip_prefix p l) as [r|] eqn:H; [|done]. intros _. exists r.
    revert l H. induction p as [|a p IH]; intros [|b l] H; simplify_eq/=; try done.
    destruct (ascii_dec a b) as [->|]; [|done]. f_equal. by apply IH.
  - intros [r ->]. by rewrite strip_prefix_app.
Qed.

Lemma bytes_Contains_spec l sub : bytes_Contains l sub = true ↔ ∃ a b, l = a ++ sub ++ b.
Proof.
  induction l as [|x l IH]; cbn [bytes_Contains]; rewrite orb_true_iff, bytes_HasPrefix_spec.
  - split; [intros [[r Hr]|]; [by exists [], r|done]|].
    intros (a & b & H). destruct a; [|done]. left. by exists b.
  - rewrite IH. split.
    + intros [[r Hr]|(a & b & ->)]; [by exists [], r|by exists (x :: a), b].
    + intros ([|y a] & b & H); simplify_eq/=; [left; by exists b|right; by exists a, b].
Qed.

Lemma Cut_found l1 sep l2 : sep ∉ l1 → Cut (l1 ++ sep :: l2) sep = (l1, l2, true).
Proof.
  induction l1 as [|x l1 IH]; intros Hs; simpl; [by destruct (ascii_dec sep sep)|].
  destruct (ascii_dec x sep); [set_solver|]. rewrite IH by set_solver. done.
Qed.

Lemma Cut_spec l sep a b found :
  Cut l sep = (a, b, found) →
  if found then l = a ++ sep :: b ∧ sep ∉ a else a = l ∧ b = [] ∧ sep ∉ l.
Proof.
  revert a b found. induction l as [|x l IH]; intros a b found H; simpl in H.
  - simplify_eq. set_solver.
  - destruct (ascii_dec x sep) as [->|Hne]; [simplify_eq; set_solver|].
    destruct (Cut l sep) as [[a' b'] f'] eqn:Hc. specialize (IH _ _ _ eq_refl). simplify_eq.
    destruct found; naive_solver set_solver.
Qed.

Lemma Split_app_sep l1 sep l2 : sep ∉ l1 → Split (l1 ++ sep :: l2) sep = l1 :: Split l2 sep.
Proof.
  induction l1 as [|x l1 IH]; intros Hs; simpl; [by destruct (ascii_dec sep sep)|].
  destruct (ascii_dec x sep); [set_solver|]. rewrite IH by set_solver. done.
Qed.

(** Digits are solid and never a separator. *)
Lemma digit_solid c d : digit c = Some d → solid c = true.
Proof. destruct c as [[] [] [] [] [] [] [] []]; vm_compute; done. Qed.

Lemma FormatInt_digits n : 0 <= n → Forall (λ c, ∃ d, digit c = Some d) (FormatInt n).
Proof.
  intros Hn. unfold FormatInt. rewrite (proj2 (Z.ltb_ge n 0)) by done.
  apply digits_digits. split; [done|]. by apply digits_fuel.
Qed.

Example fold_examples :
  EqualFold (to_bytes "sIp/2.0") (to_bytes "SIP/2.0") = true ∧
  EqualFold ([byte 197; byte 191] ++ to_bytes "IP/2.0") (to_bytes "SIP/2.0") = true ∧
  EqualFold (to_bytes "SIP/2") (to_bytes "SIP/2.0") = false ∧
  Fields (to_bytes " SIP/2.0  200 OK ") = to_bytes <$> ["SIP/2.0"; "200"; "OK"] ∧
  Split (to_bytes "a,,b,") ","%char = to_bytes <$> ["a"; ""; "b"; ""] ∧
  TrimSuffix "host." "." = "host" ∧ TrimSuffix "host" "." = "host".
Proof. vm_compute. repeat split. Qed.
