(* ===== verification/GoNet.v ===== *)
(** * GoNet: the address functions of Go's [net] package

    [SplitHostPort], [JoinHostPort] and [ParseIP], with the specification of
    the first two: a host and port are split exactly when the text is the one
    [JoinHostPort] writes for them, or writes them without brackets. *)

From S2P Require Import Prelude GoTime GoStrings Model Json GoText.

Definition colon : ascii := ":"%char.
Definition lbracket : ascii := "["%char.
Definition rbracket : ascii := "]"%char.

(** [(&AddrError{Err: why, Addr: addr}).Error()]. *)
Definition AddrError (why addr : string) : string :=
  if decide (addr = "") then why else "address " +:+ addr +:+ ": " +:+ why.
Definition missingPort : string := "missing port in address".
Definition tooManyColons : string := "too many colons in address".

(** The two checks at the end: no bracket from these positions on. *)
Definition finish_split (hostport : bytes) (host : bytes) (j k i : nat) : result string (bytes * bytes) :=
  if bool_decide (lbracket ∈ drop j hostport) then Err "unexpected '[' in address"
  else if bool_decide (rbracket ∈ drop k hostport) then Err "unexpected ']' in address"
  else Ok (host, drop (S i) hostport).

Definition split_host_port (hostport : bytes) : result string (bytes * bytes) :=
  match LastIndexByte hostport colon with
  | None => Err missingPort
  | Some i =>
      if bool_decide (head hostport = Some lbracket) then
        match IndexByte hostport rbracket with
        | None => Err "missing ']' in address"
        | Some end_ =>
            if (S end_ =? length hostport)%nat then Err missingPort
            else if (S end_ =? i)%nat then
              finish_split hostport (drop 1 (take end_ hostport)) 1 (S end_) i
            else if bool_decide (hostport !! S end_ = Some colon) then Err tooManyColons
            else Err missingPort
        end
      else
        let host := take i hostport in
        if bool_decide (colon ∈ host) then Err tooManyColons
        else finish_split hostport host 0 0 i
  end.

Definition SplitHostPort (hostport : string) : result string (string * string) :=
  match split_host_port (to_bytes hostport) with
  | Ok (host, port) => Ok (of_bytes host, of_bytes port)
  | Err why => Err (AddrError why hostport)
  end.

Definition join_host_port (host port : bytes) : bytes :=
  if bool_decide (colon ∈ host) then [lbracket] ++ host ++ [rbracket; colon] ++ port
  else host ++ [colon] ++ port.
Definition JoinHostPort (host port : string) : string :=
  of_bytes (join_host_port (to_bytes host) (to_bytes port)).

(** ** [ParseIP] *)

(** A field of a dotted address: at most 255, no leading zero, not empty. *)
Definition ipv4_field (l : bytes) : option Z :=
  match l with
  | [] => None
  | c :: l' =>
      if bool_decide (c = "0"%char) && negb (bool_decide (l' = [])) then None
      else n ← parse_digits 0 l; if n <=? 255 then Some n else None
  end.
Definition parseIPv4Fields (l : bytes) : option (list Z) :=
  fs ← mapM ipv4_field (Split l "."%char); if (length fs =? 4)%nat then Some fs else None.

(** The hexadecimal digits at the front: their value, how many, the rest. *)
Fixpoint hex_run (acc : Z) (n : nat) (l : bytes) : Z * nat * bytes :=
  match l with
  | c :: l' =>
      match hex_value c with
      | Some d => hex_run (acc * 16 + d) (S n) l'
      | None => (acc, n, l)
      end
  | [] => (acc, n, [])
  end.

(** The loop over the groups. [ip] holds the bytes read, [ellipsis] the index
    of [::]; a round writes two bytes, so eight rounds are enough. *)
Fixpoint ipv6_groups (fuel : nat) (ip : list Z) (ellipsis : option nat) (s : bytes)
    : option (list Z * option nat * bytes) :=
  match fuel with
  | O => Some (ip, ellipsis, s)
  | S fuel' =>
      let '(acc, off, rest) := hex_run 0 0 s in
      if (off =? 0)%nat || (4 <? off)%nat then None
      else if bool_decide (head rest = Some "."%char) then
        if match ellipsis with None => negb (length ip =? 12)%nat | Some _ => (12 <? length ip)%nat end
        then None
        else fs ← parseIPv4Fields s; Some (ip ++ fs, ellipsis, [])
      else
        let ip' := ip ++ [acc / 256; acc mod 256] in
        match rest with
        | [] => Some (ip', ellipsis, [])
        | c :: rest' =>
            if negb (bool_decide (c = colon)) || bool_decide (rest' = []) then None
            else if bool_decide (head rest' = Some colon) then
              match ellipsis with
              | Some _ => None
              | None =>
                  match drop 1 rest' with
                  | [] => Some (ip', Some (length ip'), [])
                  | s' => ipv6_groups fuel' ip' (Some (length ip')) s'
                  end
              end
            else ipv6_groups fuel' ip' ellipsis rest'
        end
  end.

Definition parseIPv6 (s : bytes) : option (list Z) :=
  let '(ellipsis, s) :=
    match strip_prefix [colon; colon] s with Some r => (Some 0%nat, r) | None => (None, s) end in
  if bool_decide (ellipsis = Some 0%nat) && bool_decide (s = []) then Some (replicate 16 0)
  else
    '(ip, ellipsis, rest) ← ipv6_groups 8 [] ellipsis s;
    if negb (bool_decide (rest = [])) then None
    else if (length ip <? 16)%nat then
      e ← ellipsis; Some (take e ip ++ replicate (16 - length ip) 0 ++ drop e ip)
    else match ellipsis with Some _ => None | None => Some ip end.

(** [net.ParseIP]: the 16 bytes, an IPv4 address in its mapped form; an address
    with a zone is refused. *)
Definition v4InV6Prefix : list Z := replicate 10 0 ++ [255; 255].
Definition ParseIP (s : string) : option (list Z) :=
  let l := to_bytes s in
  if bool_decide ("%"%char ∈ l) then None
  else match list_find (λ c, c = "."%char ∨ c = colon) l with
       | None => None
       | Some (_, c) =>
           if decide (c = colon) then parseIPv6 l
           else fs ← parseIPv4Fields l; Some (v4InV6Prefix ++ fs)
       end.

(** [ip.Equal(x)]: an IPv4 address and its mapped form are equal. *)
Definition To16 (ip : list Z) : list Z := if (length ip =? 4)%nat then v4InV6Prefix ++ ip else ip.
Definition IP_Equal (a b : list Z) : bool := bool_decide (To16 a = To16 b).

Example parse_ip_examples :
  ParseIP "10.12.12.10" = Some (v4InV6Prefix ++ [10; 12; 12; 10]) ∧
  ParseIP "fe80::1:2" = Some ([254; 128] ++ replicate 10 0 ++ [0; 1; 0; 2]) ∧
  ParseIP "::" = Some (replicate 16 0) ∧ ParseIP "1::" = Some ([0; 1] ++ replicate 14 0) ∧
  ParseIP "::ffff:10.0.0.1" = Some (v4InV6Prefix ++ [10; 0; 0; 1]) ∧
  ParseIP "10.0.0.01" = None ∧ ParseIP "fe80::1%eth0" = None ∧ ParseIP "1:2:3:4:5:6:7:8::" = None ∧
  ParseIP "12345::" = None ∧ ParseIP ":1" = None ∧ ParseIP "host" = None.
Proof. vm_compute. repeat split. Qed.

(** ** Host and port *)

(** A text is host and port: bracketed, or without a colon in the host; no
    further brackets, and no colon in the port. *)
Definition host_port (s host port : bytes) : Prop :=
  lbracket ∉ host ∧ rbracket ∉ host ∧ lbracket ∉ port ∧ rbracket ∉ port ∧ colon ∉ port ∧
  (s = [lbracket] ++ host ++ [rbracket; colon] ++ port ∨ colon ∉ host ∧ s = host ++ [colon] ++ port).

Lemma finish_split_Ok s host j k i h p :
  finish_split s host j k i = Ok (h, p) ↔
  h = host ∧ p = drop (S i) s ∧ lbracket ∉ drop j s ∧ rbracket ∉ drop k s.
Proof. unfold finish_split. repeat case_bool_decide; naive_solver. Qed.

Lemma drop_after {A} (l : list A) x k : drop (S (length l)) (l ++ x :: k) = k.
Proof. by induction l. Qed.

Lemma split_host_port_sound s host port :
  split_host_port s = Ok (host, port) → host_port s host port.
Proof.
  unfold split_host_port. intros H.
  destruct (LastIndexByte s colon) as [i|] eqn:Hi; [|done].
  apply LastIndexByte_Some in Hi as (s1 & p & -> & <- & Hp).
  pose proof (drop_after s1 colon p) as Hdrop.
  case_bool_decide as Hb.
  - destruct (IndexByte _ rbracket) as [e|] eqn:He; [|done].
    destruct (S e =? _)%nat; [done|].
    destruct (Nat.eqb_spec (S e) (length s1)) as [Heq|]; [|by case_bool_decide].
    apply finish_split_Ok in H as (-> & -> & Hl & Hr). rewrite Hdrop.
    apply IndexByte_Some in He as (a & b & Hab & <- & Ha).
    destruct a as [|x a]; [simplify_eq/=; destruct s1; simplify_eq/=|]. rewrite Hab in Hb. simpl in Hb. simplify_eq.
    assert (b = colon :: p) as ->.
    { rewrite <-(drop_after (lbracket :: a) rbracket b), <-Hab, Heq. by rewrite drop_app_length. }
    rewrite Hab in *. rewrite take_app_length. simpl in Hl |- *.
    rewrite Heq in Hr. rewrite <-Hab, drop_app_length in Hr.
    unfold host_port. split_and!; try set_solver.
  - case_bool_decide as Hc; [done|]. apply finish_split_Ok in H as (-> & -> & Hl & Hr).
    rewrite drop_0 in Hl, Hr. rewrite Hdrop, take_app_length in *.
    unfold host_port. split_and!; try set_solver.
Qed.

Lemma separators_differ : lbracket ≠ rbracket ∧ lbracket ≠ colon ∧ rbracket ≠ colon ∧ rbracket ≠ lbracket.
Proof. done. Qed.

Lemma split_host_port_complete s host port :
  host_port s host port → split_host_port s = Ok (host, port).
Proof.
  destruct separators_differ as (? & ? & ? & ?).
  intros (Hh1 & Hh2 & Hp1 & Hp2 & Hp3 & [->|[Hc ->]]); unfold split_host_port.
  - change ([lbracket] ++ host ++ [rbracket; colon] ++ port)
      with (lbracket :: host ++ [rbracket; colon] ++ port).
    assert (LastIndexByte (lbracket :: host ++ [rbracket; colon] ++ port) colon
      = Some (length (lbracket :: host ++ [rbracket]))) as ->.
    { rewrite <-(LastIndexByte_last (lbracket :: host ++ [rbracket]) colon port Hp3).
      f_equal. simpl. by rewrite <-app_assoc. }
    rewrite bool_decide_true by done.
    assert (IndexByte (lbracket :: host ++ [rbracket; colon] ++ port) rbracket
      = Some (length (lbracket :: host))) as ->.
    { rewrite <-(IndexByte_first (lbracket :: host) rbracket (colon :: port)); [done|].
      rewrite not_elem_of_cons. done. }
    rewrite (proj2 (Nat.eqb_neq _ _)) by (simpl; rewrite !length_app; simpl; lia).
    rewrite (proj2 (Nat.eqb_eq _ _)) by (simpl; rewrite !length_app; simpl; lia).
    apply finish_split_Ok. cbn [length app take drop].
    rewrite drop_0, take_app_length, (drop_after host rbracket (colon :: port)).
    replace (S (length (host ++ [rbracket]))) with (length host + 2)%nat by (rewrite length_app; simpl; lia).
    rewrite drop_app_add. simpl. rewrite drop_0.
    split_and!; try done; rewrite ?drop_0, ?elem_of_app, ?elem_of_cons; tauto.
  - change (host ++ [colon] ++ port) with (host ++ colon :: port).
    rewrite (LastIndexByte_last host colon port) by done.
    rewrite (bool_decide_false (head _ = _)).
    2:{ destruct host; simpl; [done|]. intros [= ->]. set_solver. }
    rewrite take_app_length, bool_decide_false by done.
    apply finish_split_Ok. simpl. rewrite drop_0, (drop_after host colon port).
    split_and!; try done; rewrite elem_of_app, elem_of_cons; tauto.
Qed.

Lemma split_host_port_spec s host port :
  split_host_port s = Ok (host, port) ↔ host_port s host port.
Proof. split; [apply split_host_port_sound|apply split_host_port_complete]. Qed.

(** Whatever is split can be joined and split again. *)
Lemma host_port_join s host port : host_port s host port → host_port (join_host_port host port) host port.
Proof.
  intros (H1 & H2 & H3 & H4 & H5 & _). unfold join_host_port, host_port.
  case_bool_decide; split_and!; auto.
Qed.

Lemma SplitHostPort_Ok s host port :
  SplitHostPort s = Ok (host, port) ↔ host_port (to_bytes s) (to_bytes host) (to_bytes port).
Proof.
  unfold SplitHostPort. rewrite <-split_host_port_spec.
  destruct (split_host_port (to_bytes s)) as [[h p]|]; [|done]. split.
  - intros [= <- <-]. by rewrite !to_of_bytes.
  - intros [= -> ->]. by rewrite !of_to_bytes.
Qed.

Lemma SplitHostPort_JoinHostPort s host port :
  SplitHostPort s = Ok (host, port) → SplitHostPort (JoinHostPort host port) = Ok (host, port).
Proof.
  rewrite !SplitHostPort_Ok. intros H. unfold JoinHostPort. rewrite to_of_bytes.
  by eapply host_port_join.
Qed.
