(* ===== verification/GoFloat.v ===== *)
(** * GoFloat: [float64], [strconv.ParseFloat], [time.ParseDuration] and [%g]

    A [float64] is the binary64 number of the Standard Library's specification
    of IEEE 754; the operations of Go are that specification's, which round to
    nearest even. Go leaves open what converting a float outside the integer
    range yields, so that value is a parameter. *)

From Stdlib Require Export SpecFloat.
From S2P Require Import Prelude GoTime GoStrings Model Json GoText.

Notation float64 := spec_float (only parsing).

Definition fmul : float64 → float64 → float64 := SFmul 53 1024.
Definition fdiv : float64 → float64 → float64 := SFdiv 53 1024.

(** [float64(n)] for an integer. *)
Definition float_of_Z (n : Z) : float64 := binary_normalize 53 1024 n 0 false.

(** The integer part, rounded towards zero; [None] for an infinity or a NaN. *)
Definition truncate (f : float64) : option Z :=
  match f with
  | S754_zero _ => Some 0
  | S754_finite s m e =>
      let n := if 0 <=? e then Z.pos m * 2 ^ e else Z.pos m / 2 ^ (- e) in
      Some (if s then - n else n)
  | _ => None
  end.

Section Conversion.
(** What the processor's conversion gives for a value outside the range. *)
Context (out_of_range : float64 → Z).

(** [int64(f)]. *)
Definition int64_of_float (f : float64) : Z :=
  match truncate f with
  | Some n => if (- 2 ^ 63 <=? n) && (n <? 2 ^ 63) then n else out_of_range f
  | None => out_of_range f
  end.
End Conversion.

(** ** Literals *)

(** The number [(-1)^neg * m * 10^e], correctly rounded. *)
Definition of_decimal (neg : bool) (m e : Z) : float64 :=
  match m with
  | Z.pos p =>
      if 0 <=? e then binary_normalize 53 1024 (cond_Zopp neg (m * 10 ^ e)) 0 neg
      else fdiv (S754_finite neg p 0) (S754_finite false (Z.to_pos (10 ^ (- e))) 0)
  | _ => S754_zero neg
  end.
(** The number [(-1)^neg * m * 2^e], correctly rounded. *)
Definition of_binary (neg : bool) (m e : Z) : float64 :=
  match m with
  | Z.pos _ => binary_normalize 53 1024 (cond_Zopp neg m) e neg
  | _ => S754_zero neg
  end.

(** [underscoreOK] after the sign: underscores stand between digits; a base
    prefix counts as a digit. [prev] is the class of the character before. *)
Inductive seen := Start | Digit | Underscore | Other.
Fixpoint underscores_ok (hex : bool) (prev : seen) (l : bytes) : bool :=
  match l with
  | [] => match prev with Underscore => false | _ => true end
  | c :: l' =>
      if (if digit c then true else hex && (if hex_value c then true else false))
      then underscores_ok hex Digit l'
      else if bool_decide (c = "_"%char)
      then match prev with Digit => underscores_ok hex Underscore l' | _ => false end
      else match prev with Underscore => false | _ => underscores_ok hex Other l' end
  end.

(** The mantissa: its digits as a number, how many of them follow the point,
    whether there was a digit, whether there was a point, and the rest. *)
Fixpoint read_mantissa (base : Z) (m frac : Z) (digits dot : bool) (l : bytes) : Z * Z * bool * bytes :=
  match l with
  | [] => (m, frac, digits, [])
  | c :: l' =>
      if bool_decide (c = "_"%char) then read_mantissa base m frac digits dot l'
      else if bool_decide (c = "."%char) then
        if dot then (m, frac, digits, l) else read_mantissa base m frac digits true l'
      else match (if base =? 16 then hex_value c else digit c) with
           | Some d => read_mantissa base (m * base + d) (if dot then frac + 1 else frac) true dot l'
           | None => (m, frac, digits, l)
           end
  end.

(** The digits of the exponent, underscores skipped; Go stops counting at
    10000, far beyond the range. *)
Fixpoint read_exponent (e : Z) (l : bytes) : Z * bytes :=
  match l with
  | [] => (e, [])
  | c :: l' =>
      if bool_decide (c = "_"%char) then read_exponent e l'
      else match digit c with
           | Some d => read_exponent (if e <? 10000 then e * 10 + d else e) l'
           | None => (e, l)
           end
  end.

Definition exponent (l : bytes) : option (Z * bytes) :=
  let '(neg, l) :=
    match l with "+"%char :: l' => (false, l') | "-"%char :: l' => (true, l') | _ => (false, l) end in
  match l with
  | c :: _ => if digit c then let '(e, r) := read_exponent 0 l in Some (if (neg : bool) then - e else e, r) else None
  | [] => None
  end.

(** [readFloat]: the exact number a literal denotes, rounded. The literal must
    take up the whole text. *)
Definition read_float (neg : bool) (l : bytes) : option float64 :=
  let '(base, prefixed, body) :=
    match l with
    | "0"%char :: x :: ((_ :: _) as l') =>
        if bool_decide (lower x = "x"%char) then (16, true, l') else (10, false, l)
    | _ => (10, false, l)
    end in
  let '(m, frac, digits, rest) := read_mantissa base 0 0 false false body in
  if negb digits then None
  else
    '(e, rest) ← (match rest with
                  | c :: r =>
                      if bool_decide (lower c = if base =? 16 then "p"%char else "e"%char) then exponent r
                      else if base =? 16 then None else Some (0, rest)
                  | [] => if base =? 16 then None else Some (0, [])
                  end);
    if negb (bool_decide (rest = [])) then None
    else if bool_decide ("_"%char ∈ l) && negb (underscores_ok prefixed (if prefixed then Digit else Start) body)
    then None
    else Some (if base =? 16 then of_binary neg m (e - 4 * frac) else of_decimal neg m (e - frac)).

(** [strconv.ParseFloat(s, 64)]; a number too large is an error. *)
Definition ParseFloat (s : string) : option float64 :=
  let l := to_bytes s in
  let '(neg, signed, body) :=
    match l with
    | "+"%char :: l' => (false, true, l')
    | "-"%char :: l' => (true, true, l')
    | _ => (false, false, l)
    end in
  let folded := of_bytes (lower <$> body) in
  if bool_decide (folded = "inf") || bool_decide (folded = "infinity") then Some (S754_infinity neg)
  else if bool_decide (folded = "nan") && negb signed then Some S754_nan
  else
    f ← read_float neg body;
    match f with S754_infinity _ => None | _ => Some f end.

(** ** [time.ParseDuration] *)

(** [leadingInt]: fails when the number exceeds [2^63]. *)
Fixpoint leadingInt (x : Z) (l : bytes) : option (Z * bytes) :=
  match l with
  | [] => Some (x, [])
  | c :: l' =>
      match digit c with
      | None => Some (x, l)
      | Some d =>
          if 2 ^ 63 / 10 <? x then None
          else if 2 ^ 63 <? x * 10 + d then None else leadingInt (x * 10 + d) l'
      end
  end.

(** [leadingFraction]: digits that no longer fit are skipped. *)
Fixpoint leadingFraction (x : Z) (scale : float64) (overflow : bool) (l : bytes) : Z * float64 * bytes :=
  match l with
  | [] => (x, scale, [])
  | c :: l' =>
      match digit c with
      | None => (x, scale, l)
      | Some d =>
          if overflow || ((2 ^ 63 - 1) / 10 <? x) || (2 ^ 63 <? x * 10 + d)
          then leadingFraction x scale true l'
          else leadingFraction (x * 10 + d) (fmul scale (float_of_Z 10)) false l'
      end
  end.

Fixpoint read_unit (l : bytes) : bytes * bytes :=
  match l with
  | c :: l' =>
      if bool_decide (c = "."%char) || (if digit c then true else false) then ([], l)
      else let '(u, r) := read_unit l' in (c :: u, r)
  | [] => ([], [])
  end.

(** The micro sign and the letter mu, in UTF-8. *)
Definition unitMap : list (bytes * Z) :=
  [(to_bytes "ns", 1); (to_bytes "us", 1000); ([byte 194; byte 181; "s"%char], 1000);
   ([byte 206; byte 188; "s"%char], 1000); (to_bytes "ms", Millisecond); (to_bytes "s", Second);
   (to_bytes "m", Minute); (to_bytes "h", Hour)].
Definition unit_value (u : bytes) : option Z := snd <$> (list_find (λ p, p.1 = u) unitMap ≫= λ p, Some p.2).

(** One term of a duration: its nanoseconds and the rest of the text. *)
Definition duration_term (l : bytes) : option (Z * bytes) :=
  match l with
  | [] => None
  | c :: _ =>
      if negb (bool_decide (c = "."%char) || (if digit c then true else false)) then None
      else
        '(v, l1) ← leadingInt 0 l;
        let pre := negb (length l1 =? length l)%nat in
        let '(f, scale, l2, post) :=
          match l1 with
          | "."%char :: l1' =>
              let '(f, scale, l2) := leadingFraction 0 (float_of_Z 1) false l1' in
              (f, scale, l2, negb (length l2 =? length l1')%nat)
          | _ => (0, float_of_Z 1, l1, false)
          end in
        if negb pre && negb post then None
        else
          let '(u, l3) := read_unit l2 in
          unit ← unit_value u;
          if 2 ^ 63 / unit <? v then None
          else
            frac ← (if 0 <? f then truncate (fmul (float_of_Z f) (fdiv (float_of_Z unit) scale)) else Some 0);
            if 2 ^ 63 <? v * unit + frac then None else Some (v * unit + frac, l3)
  end.

(** Every term consumes at least one byte. *)
Fixpoint duration_terms (fuel : nat) (d : Z) (l : bytes) : option Z :=
  match l, fuel with
  | [], _ => Some d
  | _, O => None
  | _, S fuel' =>
      '(v, r) ← duration_term l;
      if 2 ^ 63 <? d + v then None else duration_terms fuel' (d + v) r
  end.

Definition ParseDuration (s : string) : option Duration :=
  let '(neg, l) :=
    match to_bytes s with
    | "-"%char :: l => (true, l)
    | "+"%char :: l => (false, l)
    | l => (false, l)
    end in
  if bool_decide (l = to_bytes "0") then Some 0
  else if bool_decide (l = []) then None
  else
    d ← duration_terms (length l) 0 l;
    if (neg : bool) then Some (- d) else if 2 ^ 63 - 1 <? d then None else Some d.

Example parse_durations :
  ParseDuration "700ms" = Some (700 * Millisecond) ∧ ParseDuration "1h30m" = Some (90 * Minute) ∧
  ParseDuration "-1.5h" = Some (- 90 * Minute) ∧ ParseDuration "1.000000001s" = Some 1000000001 ∧
  ParseDuration ".5s" = Some (500 * Millisecond) ∧ ParseDuration "1" = None ∧ ParseDuration "" = None ∧
  ParseDuration "9223372036854775807ns" = Some (2 ^ 63 - 1) ∧ ParseDuration "9223372036854775808ns" = None ∧
  ParseDuration "s" = None ∧ ParseDuration "0" = Some 0 ∧ ParseDuration "0.3333333333333333333h" = Some 1200000000000.
Proof. vm_compute. repeat split. Qed.

(** ** [%g] *)

(** The decimal exponent: [10^(dp-1) <= num/den < 10^dp]. *)
Definition decimal_point (num den : Z) : Z :=
  if den <=? num then #(FormatInt (num / den))
  else
    let j := #(FormatInt (den / num)) in
    if den <=? num * 10 ^ (j - 1) then 2 - j else 1 - j.

(** The shortest digits that read back as [f], the nearest when several do. *)
Fixpoint shortest (fuel : nat) (f : float64) (num den dp : Z) (n : Z) : Z * Z :=
  let scaled := if 0 <=? n - dp then num * 10 ^ (n - dp) else num in
  let den' := if 0 <=? n - dp then den else den * 10 ^ (dp - n) in
  let lo := scaled / den' in
  let exact := scaled mod den' =? 0 in
  let ok d := SFeqb (of_decimal false d (dp - n)) f in
  match fuel with
  | O => (lo, n)
  | S fuel' =>
      if exact then (lo, n)
      else if ok lo && ok (lo + 1) then
        (if 2 * (scaled mod den') <? den' then lo
         else if den' <? 2 * (scaled mod den') then lo + 1 else if Z.even lo then lo else lo + 1, n)
      else if ok lo then (lo, n) else if ok (lo + 1) then (lo + 1, n)
      else shortest fuel' f num den dp (n + 1)
  end.

(** Digits, most significant first, and the position of the point; rounding up
    may have added a digit. *)
Definition shortest_digits (f : float64) (m : positive) (e : Z) : bytes * Z :=
  let num := if 0 <=? e then Z.pos m * 2 ^ e else Z.pos m in
  let den := if 0 <=? e then 1 else 2 ^ (- e) in
  let dp := decimal_point num den in
  let '(d, n) := shortest 17 f num den dp 1 in
  let text := FormatInt d in
  (text, dp + (#text - n)).

Fixpoint strip_zeros (l : bytes) : bytes :=
  match l with "0"%char :: l' => strip_zeros l' | _ => l end.
Definition drop_zeros (l : bytes) : bytes := reverse (strip_zeros (reverse l)).

(** [%e] with all digits, and [%f] with as many places as there are digits. *)
Definition fmtE (d : bytes) (exp : Z) : bytes :=
  take 1 d ++ (if (1 <? length d)%nat then "."%char :: drop 1 d else []) ++
  ["e"%char; if exp <? 0 then "-"%char else "+"%char] ++
  (if Z.abs exp <? 10 then "0"%char :: FormatInt (Z.abs exp) else FormatInt (Z.abs exp)).
Definition fmtF (d : bytes) (dp : Z) : bytes :=
  let whole := take (Z.to_nat dp) d ++ replicate (Z.to_nat (dp - #d)) "0"%char in
  let frac := replicate (Z.to_nat (- dp)) "0"%char ++ drop (Z.to_nat dp) d in
  (if 0 <? dp then whole else ["0"%char]) ++ (if 0 <? #d - dp then "."%char :: frac else []).

(** [fmt.Sprintf("%g", f)]. *)
Definition FormatG (f : float64) : bytes :=
  match f with
  | S754_nan => to_bytes "NaN"
  | S754_infinity s => to_bytes (if s then "-Inf" else "+Inf")
  | S754_zero s => to_bytes (if s then "-0" else "0")
  | S754_finite s m e =>
      let '(text, dp) := shortest_digits (S754_finite false m e) m e in
      let d := drop_zeros text in
      (if s then ["-"%char] else []) ++
      (if (dp - 1 <? -4) || (6 <=? dp - 1) then fmtE d (dp - 1) else fmtF d dp)
  end.

Example format_g :
  of_bytes ∘ FormatG <$> [fdiv (float_of_Z 1787436204558) (float_of_Z 1000); float_of_Z 780;
    fdiv (float_of_Z 1) (float_of_Z 3); fdiv (float_of_Z 1000) (float_of_Z 1000); float_of_Z 1000000;
    fdiv (float_of_Z 123456) (float_of_Z 1000000000); fdiv (float_of_Z (-1500)) (float_of_Z 1000);
    fdiv (float_of_Z 1) (float_of_Z 100000); float_of_Z 100000] =
  ["1.787436204558e+09"; "780"; "0.3333333333333333"; "1"; "1e+06"; "0.000123456"; "-1.5"; "1e-05"; "100000"].
Proof. vm_compute. reflexivity. Qed.

Example parse_floats :
  ParseFloat "700" = Some (float_of_Z 700) ∧ ParseFloat "0.1" = Some (fdiv (float_of_Z 1) (float_of_Z 10)) ∧
  ParseFloat "1_0.5e1" = Some (float_of_Z 105) ∧ ParseFloat "1__0" = None ∧ ParseFloat "0x10" = None ∧
  ParseFloat "0x1p4" = Some (float_of_Z 16) ∧ ParseFloat ".inf" = None ∧ ParseFloat "-Inf" = Some (S754_infinity true) ∧
  ParseFloat "1e309" = None ∧ ParseFloat "." = None ∧ ParseFloat "1e" = None ∧ ParseFloat "" = None.
Proof. vm_compute. repeat split. Qed.
