(* ===== verification/Sha256.v ===== *)
(** * Sha256: [crypto/sha256.Sum256]

    The digest from which the configuration derives a receiver's identifier.
    The constants are computed from their definition: fractional parts of the
    square and cube roots of the first primes. *)

From S2P Require Import Prelude GoTime GoStrings Model Json GoText.

Definition u32 (z : Z) : Z := z mod 2 ^ 32.
Definition rotr (n x : Z) : Z := Z.lor (Z.shiftr x n) (u32 (Z.shiftl x (32 - n))).
Definition xor3 (a b c : Z) : Z := Z.lxor a (Z.lxor b c).

(** ** Constants *)

Definition is_prime (n : nat) : bool :=
  forallb (λ d, negb (Nat.modulo n d =? 0)%nat) (seq 2 (n - 2)).
Definition primes : list Z := Z.of_nat <$> filter (λ n, is_prime n = true) (seq 2 310).

(** The largest [r] with [r ^ k <= n], found bit by bit from bit [bits] down. *)
Fixpoint root_bits (bits : nat) (k n r : Z) : Z :=
  match bits with
  | O => r
  | S bits' =>
      let r' := r + 2 ^ Z.of_nat bits' in
      root_bits bits' k n (if r' ^ k <=? n then r' else r)
  end.

(** The first 32 bits of the fractional part of the [k]-th root of [p]. *)
Definition root_fraction (k p : Z) : Z := u32 (root_bits 40 k (p * 2 ^ (32 * k)) 0).

Definition init : list Z := Eval vm_compute in root_fraction 2 <$> take 8 primes.
Definition round_keys : list Z := Eval vm_compute in root_fraction 3 <$> take 64 primes.

(** ** Padding *)

Fixpoint be_bytes (n : nat) (z : Z) : bytes :=
  match n with
  | O => []
  | S n' => be_bytes n' (z / 256) ++ [chr (z mod 256)]
  end.
Definition be_value (l : bytes) : Z := foldl (λ acc c, acc * 256 + code c) 0 l.

Definition padded (msg : bytes) : bytes :=
  msg ++ byte 128 :: replicate (Z.to_nat ((55 - #msg) mod 64)) (byte 0) ++ be_bytes 8 (8 * #msg).

Fixpoint chunks (fuel n : nat) (l : bytes) : list bytes :=
  match fuel, l with
  | O, _ | _, [] => []
  | S fuel', _ => take n l :: chunks fuel' n (drop n l)
  end.

(** ** Compression *)

Definition w (l : list Z) (i : nat) : Z := nth i l 0.

(** The message schedule, newest word first: 48 words are added to the 16 of
    the block. *)
Fixpoint schedule (rounds : nat) (ws : list Z) : list Z :=
  match rounds with
  | O => ws
  | S rounds' =>
      let s0 := let x := w ws 14 in xor3 (rotr 7 x) (rotr 18 x) (Z.shiftr x 3) in
      let s1 := let x := w ws 1 in xor3 (rotr 17 x) (rotr 19 x) (Z.shiftr x 10) in
      schedule rounds' (u32 (w ws 15 + s0 + w ws 6 + s1) :: ws)
  end.

Definition compress_round (st : list Z) (kw : Z * Z) : list Z :=
  match st with
  | [a; b; c; d; e; f; g; h] =>
      let big1 := xor3 (rotr 6 e) (rotr 11 e) (rotr 25 e) in
      let choice := Z.lxor (Z.land e f) (Z.land (2 ^ 32 - 1 - e) g) in
      let t1 := h + big1 + choice + kw.1 + kw.2 in
      let big0 := xor3 (rotr 2 a) (rotr 13 a) (rotr 22 a) in
      let majority := xor3 (Z.land a b) (Z.land a c) (Z.land b c) in
      [u32 (t1 + big0 + majority); a; b; c; u32 (d + t1); e; f; g]
  | _ => st
  end.

Definition compress (st : list Z) (block : bytes) : list Z :=
  let ws := reverse (schedule 48 (reverse (be_value <$> chunks 16 4 block))) in
  zip_with (λ x y, u32 (x + y)) st (foldl compress_round st (zip round_keys ws)).

Definition Sum256 (msg : bytes) : bytes :=
  let data := padded msg in
  mbind (be_bytes 4) (foldl compress init (chunks (length data) 64 data)).

Example sha256_abc :
  of_bytes (hex_bytes (Sum256 (to_bytes "abc"))) =
  "ba7816bf8f01cfea414140de5dae2223b00361a396177a9cb410ff61f20015ad".
Proof. vm_compute. reflexivity. Qed.

Example sha256_two_blocks :
  of_bytes (hex_bytes (Sum256 (to_bytes "abcdbcdecdefdefgefghfghighijhijkijkljklmklmnlmnomnopnopq"))) =
  "248d6a61d20638b8e5c026930c3e6039a33ce45964ff2167f6ecedd419db06c1".
Proof. vm_compute. reflexivity. Qed.

(** ** The digest has 32 bytes *)

Lemma length_be_bytes n z : length (be_bytes n z) = n.
Proof. revert z. induction n as [|n IH]; intros z; simpl; [done|]. rewrite length_app, IH. simpl. lia. Qed.

Lemma length_compress_round st kw : length st = 8%nat → length (compress_round st kw) = 8%nat.
Proof. by destruct st as [|? [|? [|? [|? [|? [|? [|? [|? [|]]]]]]]]]. Qed.

Lemma length_compress st block : length st = 8%nat → length (compress st block) = 8%nat.
Proof.
  intros Hst. unfold compress. rewrite length_zip_with, Hst.
  enough (length (foldl compress_round st
    (zip round_keys (reverse (schedule 48 (reverse (be_value <$> chunks 16 4 block)))))) = 8%nat) by lia.
  generalize (zip round_keys (reverse (schedule 48 (reverse (be_value <$> chunks 16 4 block))))) as l.
  intros l. revert st Hst. induction l as [|kw l IH]; intros st Hst; simpl; [done|].
  apply IH. by apply length_compress_round.
Qed.

Lemma length_Sum256 msg : length (Sum256 msg) = 32%nat.
Proof.
  unfold Sum256. generalize (chunks (length (padded msg)) 64 (padded msg)) as l. intros l.
  assert (length (foldl compress init l) = 8%nat) as Hl.
  { assert (length init = 8%nat) as Hi by done. revert Hi. generalize init as st.
    induction l as [|b l IH]; intros st Hst; simpl; [done|]. apply IH. by apply length_compress. }
  change 32%nat with (8 * 4)%nat. rewrite <-Hl. generalize (foldl compress init l) as ws.
  induction ws as [|x ws IH]; [done|]. rewrite bind_cons, length_app, length_be_bytes, IH. simpl. lia.
Qed.
