(* ===== verification/Config.v ===== *)
(** * Config: internal/config/config.go

    The configuration file: decoding of services, defaults, validation and the
    receivers derived from the remote-write section. The YAML library is a
    parameter: its [Unmarshal] calls the [UnmarshalYAML] method of a service on
    the nodes it meets, and its [Decode] that of a probe interval. *)

From S2P Require Import Prelude GoTime GoStrings Model Json GoOS GoText GoNet GoFloat Sha256.

Module Service.
Record t := mk {
  Name : string;
  SIP : string;
  DNS : string;
  AGW : string;
  Addr : string;
  Interval : Duration;
}.
End Service.

Module ServerConfig.
Record t := mk { Listen : string; Debug : bool }.
End ServerConfig.

Module SystemdConfig.
Record t := mk {
  ReconnectInterval : Duration;
  ReconciliationInterval : Duration;
  StartupRecoveryInterval : Duration;
}.
End SystemdConfig.

Module WALConfig.
Record t := mk { Enabled : bool; Directory : string; Fsync : bool }.
End WALConfig.

Module RemoteWriteTarget.
Record t := mk { ID : string; URL : string; Checkpoint : string; LegacyCheckpoint : string }.

#[export] Instance eq_dec : EqDecision t.
Proof. solve_decision. Defined.
End RemoteWriteTarget.

Module RemoteWriteConfig.
Record t := mk {
  Enabled : bool;
  URL : string;
  URLs : list string;
  BatchSize : Z;
  FlushInterval : Duration;
  RetryInterval : Duration;
  Timeout : Duration;
  Checkpoint : string;
  StateInterval : Duration;
  RecoveryFillInterval : Duration;
  RecoveryWindow : Duration;
  Labels : gmap string string;
  Targets : list RemoteWriteTarget.t;
}.
End RemoteWriteConfig.

Module Config.
Record t := mk {
  Server : ServerConfig.t;
  Services : list Service.t;
  Systemd : SystemdConfig.t;
  WAL : WALConfig.t;
  RemoteWrite : RemoteWriteConfig.t;
}.
End Config.

#[export] Existing Instance RemoteWriteTarget.eq_dec.

(** ** The YAML library *)

Inductive node_kind := DocumentNode | SequenceNode | MappingNode | ScalarNode | AliasNode.
#[export] Instance node_kind_eq_dec : EqDecision node_kind.
Proof. solve_decision. Defined.

Inductive Node := mkNode (Kind : node_kind) (Tag Value : string) (Content : list Node).
Definition Kind (n : Node) : node_kind := let 'mkNode k _ _ _ := n in k.
Definition Tag (n : Node) : string := let 'mkNode _ t _ _ := n in t.
Definition Value (n : Node) : string := let 'mkNode _ _ v _ := n in v.

(** The anonymous struct a service mapping is decoded into. *)
Record raw_service := RawService {
  raw_Name : string; raw_SIP : string; raw_DNS : string; raw_AGW : string; raw_Interval : Duration;
}.

Record yaml_lib := Yaml {
  Unmarshal : (Node → result goerror Service.t) → bytes → result goerror Config.t;
  Decode : (Node → result goerror Duration) → Node → result goerror raw_service;
}.

(** A field tagged ["-"] is not decoded: no target comes out of the file. *)
Definition skips_targets (y : yaml_lib) : Prop :=
  ∀ hook data c, Unmarshal y hook data = Ok c →
    RemoteWriteConfig.Targets (Config.RemoteWrite c) = [].

(** ** Probe targets and listen addresses *)

(** [sip:host:port], [dns:host:port] or [agw:host:port]. *)
Definition parseProbeTarget (raw scheme : string) : result string (string * string) :=
  let raw := TrimSpace raw in
  let prefix := scheme +:+ ":" in
  let target := scheme +:+ " target " +:+ Quote raw in
  let n := length (to_bytes prefix) in
  if (length (to_bytes raw) <? n)%nat || negb (EqualFold (take n (to_bytes raw)) (to_bytes prefix))
  then Err (target +:+ " must start with " +:+ prefix)
  else
    let rest := of_bytes (drop n (to_bytes raw)) in
    if ContainsAny rest ";?" || Contains rest "@"
    then Err (target +:+ " accepts host and port only")
    else
      match SplitHostPort rest with
      | Err e => Err (target +:+ ": " +:+ e)
      | Ok (host, port) =>
          if decide (host = "") then Err (target +:+ " has an empty host")
          else
            let bad := Err (target +:+ " has an invalid port") in
            match Atoi port with
            | None => bad
            | Some n =>
                if (n <? 1) || (65535 <? n) then bad
                else let addr := JoinHostPort host port in Ok (scheme +:+ ":" +:+ addr, addr)
            end
      end.

Definition WithListenPort (listen : string) (port : Z) : result string string :=
  if (port <? 1) || (65535 <? port) then Err "web.listen-port must be between 1 and 65535"
  else if decide (TrimSpace listen = "") then Ok (JoinHostPort "" (Itoa port))
  else
    match SplitHostPort listen with
    | Err e => Err ("server.listen " +:+ Quote listen +:+ ": " +:+ e)
    | Ok (host, _) => Ok (JoinHostPort host (Itoa port))
    end.

(** The characters of a label name; a digit may not come first. A byte that is
    not ASCII begins a character outside the ranges. *)
Definition label_char (first : bool) (c : ascii) : bool :=
  let r := code c in
  ((97 <=? r) && (r <=? 122)) || ((65 <=? r) && (r <=? 90)) || (r =? 95) ||
  (negb first && (48 <=? r) && (r <=? 57)).
Definition validLabelName (s : string) : bool :=
  match to_bytes s with
  | [] => false
  | c :: l => label_char true c && forallb (label_char false) l
  end.

(** ** Loading *)

(** The probe a service names, and its scheme. *)
Definition probe_choice (svc : Service.t) : string * string :=
  if decide (Service.SIP svc ≠ "") then (Service.SIP svc, "sip")
  else if decide (Service.DNS svc ≠ "") then (Service.DNS svc, "dns")
  else if decide (Service.AGW svc ≠ "") then (Service.AGW svc, "agw")
  else ("", "").

(** The service with its target normalised. *)
Definition with_target (svc : Service.t) (scheme uri addr : string) : Service.t :=
  let '(sip, dns, agw) :=
    if decide (scheme = "sip") then (uri, Service.DNS svc, Service.AGW svc)
    else if decide (scheme = "dns") then (Service.SIP svc, uri, Service.AGW svc)
    else (Service.SIP svc, Service.DNS svc, uri) in
  Service.mk (Service.Name svc) sip dns agw addr (Service.Interval svc).

(** The body of the loop over [c.Services]; [i] is the index, [seen] the names
    before it. *)
Definition check_service (i : nat) (seen : gset string) (svc : Service.t) : result string Service.t :=
  let at_ := "services[" +:+ Itoa (Z.of_nat i) +:+ "]" in
  if bool_decide (Service.Name svc = "") || ContainsAny (Service.Name svc) (String (byte 32) (String (byte 9) ""))
  then Err (at_ +:+ " must name a systemd unit")
  else if decide (Service.Name svc ∈ seen)
  then Err ("services contains duplicate unit " +:+ Quote (Service.Name svc))
  else
    let targets := filter (λ x, x ≠ "") [Service.SIP svc; Service.DNS svc; Service.AGW svc] in
    if (1 <? length targets)%nat then Err (at_ +:+ " has more than one probe target")
    else
      let '(target, scheme) := probe_choice svc in
      if decide (target = "") then
        if negb (Service.Interval svc =? 0) then Err (at_ +:+ " interval requires sip, dns or agw")
        else Ok svc
      else if Service.Interval svc <=? 0
      then Err (at_ +:+ " " +:+ scheme +:+ " probe requires a positive interval")
      else
        match parseProbeTarget target scheme with
        | Err e => Err (at_ +:+ ": " +:+ e)
        | Ok (uri, addr) => Ok (with_target svc scheme uri addr)
        end.

Fixpoint check_services (i : nat) (seen : gset string) (services : list Service.t)
    : result string (list Service.t) :=
  match services with
  | [] => Ok []
  | svc :: services' =>
      svc' ← check_service i seen svc;
      out ← check_services (S i) ({[Service.Name svc]} ∪ seen) services';
      Ok (svc' :: out)
  end.

(** The identifier of a receiver: six bytes of the digest, in hexadecimal. *)
Definition target_id (url : string) : string :=
  of_bytes (hex_bytes (take 6 (Sum256 (to_bytes url)))).

(** The loop over the URLs, with the index and the URLs before. *)
Fixpoint make_targets (checkpoint : string) (legacy : bool) (i : nat) (seen : gset string) (urls : list string)
    : result string (list RemoteWriteTarget.t) :=
  match urls with
  | [] => Ok []
  | rawURL :: urls' =>
      let url := TrimSpace rawURL in
      if decide (url = "")
      then Err ("remote_write.urls[" +:+ Itoa (Z.of_nat i) +:+ "] must not be empty")
      else if decide (url ∈ seen)
      then Err ("remote_write contains duplicate URL " +:+ Quote url)
      else
        let id := target_id url in
        let target :=
          RemoteWriteTarget.mk id url
            (if legacy then checkpoint else checkpoint +:+ "." +:+ id)
            (if negb legacy && (i =? 0)%nat then checkpoint else "") in
        match make_targets checkpoint legacy (S i) ({[url]} ∪ seen) urls' with
        | Ok out => Ok (target :: out)
        | Err e => Err e
        end
  end.

Definition positive_or (d default : Z) : Z := if d <=? 0 then default else d.
Definition nonempty_or (s default : string) : string := if decide (s = "") then default else s.

Definition defaultCheckpoint : string := "/var/lib/systemd-transition-exporter/remote_write.checkpoint".

(** The block for an enabled remote-write section. *)
Definition check_remote_write (r : RemoteWriteConfig.t) : result string RemoteWriteConfig.t :=
  if negb (bool_decide (RemoteWriteConfig.URL r = "")) && negb (bool_decide (RemoteWriteConfig.URLs r = []))
  then Err "remote_write.url and remote_write.urls cannot be used together"
  else
    let legacy := bool_decide (RemoteWriteConfig.URLs r = []) && negb (bool_decide (RemoteWriteConfig.URL r = "")) in
    let urls := if legacy then [RemoteWriteConfig.URL r] else RemoteWriteConfig.URLs r in
    if bool_decide (urls = [])
    then Err "remote_write.url or remote_write.urls must be set when remote_write.enabled=true"
    else
      let checkpoint := nonempty_or (RemoteWriteConfig.Checkpoint r) defaultCheckpoint in
      match make_targets checkpoint legacy 0 ∅ urls with
      | Err e => Err e
      | Ok targets =>
          let fill := RemoteWriteConfig.RecoveryFillInterval r in
          let window := RemoteWriteConfig.RecoveryWindow r in
          if (fill <? 10 * Second) || (4 * Minute <? fill)
          then Err "remote_write.recovery_fill_interval must be between 10s and 4m"
          else if (window <? 5 * Minute) || (60 * Minute <? window)
          then Err "remote_write.recovery_window must be between 5m and 60m"
          else if negb (Z.rem Hour window =? 0)
          then Err "remote_write.recovery_window must divide one hour exactly"
          else
            match filter (λ p, negb (validLabelName p.1) || bool_decide (p.1 = "__name__"))
                    (map_to_list (RemoteWriteConfig.Labels r)) with
            | (name, _) :: _ => Err ("invalid remote_write label name " +:+ Quote name)
            | [] =>
                Ok (RemoteWriteConfig.mk (RemoteWriteConfig.Enabled r) (RemoteWriteConfig.URL r)
                  (RemoteWriteConfig.URLs r) (positive_or (RemoteWriteConfig.BatchSize r) 100)
                  (positive_or (RemoteWriteConfig.FlushInterval r) Second)
                  (positive_or (RemoteWriteConfig.RetryInterval r) Second)
                  (positive_or (RemoteWriteConfig.Timeout r) (10 * Second)) checkpoint
                  (positive_or (RemoteWriteConfig.StateInterval r) Minute) fill window
                  (RemoteWriteConfig.Labels r) (RemoteWriteConfig.Targets r ++ targets))
            end
      end.

(** The slot sizes get their defaults whether or not delivery is enabled. *)
Definition recovery_defaults (r : RemoteWriteConfig.t) : RemoteWriteConfig.t :=
  RemoteWriteConfig.mk (RemoteWriteConfig.Enabled r) (RemoteWriteConfig.URL r) (RemoteWriteConfig.URLs r)
    (RemoteWriteConfig.BatchSize r) (RemoteWriteConfig.FlushInterval r) (RemoteWriteConfig.RetryInterval r)
    (RemoteWriteConfig.Timeout r) (RemoteWriteConfig.Checkpoint r) (RemoteWriteConfig.StateInterval r)
    (positive_or (RemoteWriteConfig.RecoveryFillInterval r) Minute)
    (positive_or (RemoteWriteConfig.RecoveryWindow r) (15 * Minute))
    (RemoteWriteConfig.Labels r) (RemoteWriteConfig.Targets r).

Definition server_defaults (s : ServerConfig.t) : ServerConfig.t :=
  ServerConfig.mk (nonempty_or (ServerConfig.Listen s) "127.0.0.1:9877") (ServerConfig.Debug s).
Definition systemd_defaults (s : SystemdConfig.t) : SystemdConfig.t :=
  SystemdConfig.mk (positive_or (SystemdConfig.ReconnectInterval s) Second)
    (positive_or (SystemdConfig.ReconciliationInterval s) (30 * Second))
    (positive_or (SystemdConfig.StartupRecoveryInterval s) (24 * Hour)).

(** [Load] after the file has been decoded. *)
Definition finish_load (c : Config.t) : result string Config.t :=
  if bool_decide (Config.Services c = []) then Err "services must contain at least one systemd unit"
  else
    match check_services 0 ∅ (Config.Services c) with
    | Err e => Err e
    | Ok services =>
        let r := recovery_defaults (Config.RemoteWrite c) in
        let done r :=
          Config.mk (server_defaults (Config.Server c)) services (systemd_defaults (Config.Systemd c))
            (Config.WAL c) r in
        if RemoteWriteConfig.Enabled r then
          match check_remote_write r with
          | Err e => Err e
          | Ok r' => Ok (done r')
          end
        else Ok (done r)
    end.

(** [Config.Units]. *)
Definition Units (c : Config.t) : list string := Service.Name <$> Config.Services c.

Section Load.
Context (faults : oracle) (yaml : yaml_lib) (out_of_range : spec_float → Z).

(** [probeEvery.UnmarshalYAML]: a bare number is a number of milliseconds. *)
Definition UnmarshalYAML_interval (value : Node) : result goerror Duration :=
  if negb (bool_decide (Kind value = ScalarNode))
  then Err (ErrNew "interval must be a duration or a number of milliseconds")
  else
    let bad := Err (Wrap ("interval " +:+ Quote (Value value)) ErrDecode) in
    if bool_decide (Tag value = "!!int") || bool_decide (Tag value = "!!float") then
      match ParseFloat (Value value) with
      | Some n => Ok (int64_of_float out_of_range (fmul n (float_of_Z Millisecond)))
      | None => bad
      end
    else
      match ParseDuration (TrimSpace (Value value)) with
      | Some d => Ok d
      | None => bad
      end.

(** [Service.UnmarshalYAML]. *)
Definition UnmarshalYAML_service (value : Node) : result goerror Service.t :=
  if bool_decide (Kind value = ScalarNode) then Ok (Service.mk (TrimSpace (Value value)) "" "" "" "" 0)
  else if negb (bool_decide (Kind value = MappingNode))
  then Err (ErrNew "service must be a unit name or a mapping with name, interval and sip, dns or agw")
  else
    match Decode yaml UnmarshalYAML_interval value with
    | Err e => Err e
    | Ok raw =>
        Ok (Service.mk (TrimSpace (raw_Name raw)) (TrimSpace (raw_SIP raw)) (TrimSpace (raw_DNS raw))
              (TrimSpace (raw_AGW raw)) "" (raw_Interval raw))
    end.

Definition Load (path : string) : M world (result goerror Config.t) :=
  r <- ReadFile faults path;;
  ret (match r with
       | Err e => Err (Wrap ("read config " +:+ path) e)
       | Ok data =>
           match Unmarshal yaml UnmarshalYAML_service data with
           | Err e => Err (Wrap ("parse config " +:+ path) e)
           | Ok c => match finish_load c with Ok c' => Ok c' | Err msg => Err (ErrNew msg) end
           end
       end).
End Load.

Example probe_targets :
  parseProbeTarget " SIP:10.12.12.10:5060 " "sip" = Ok ("sip:10.12.12.10:5060", "10.12.12.10:5060") ∧
  parseProbeTarget "dns:[fe80::1]:53" "dns" = Ok ("dns:[fe80::1]:53", "[fe80::1]:53") ∧
  parseProbeTarget "sip:10.12.12.10:5060;transport=tcp" "sip" =
    Err (of_bytes (to_bytes "sip target " ++ [byte 34] ++ to_bytes "sip:10.12.12.10:5060;transport=tcp" ++ [byte 34] ++
      to_bytes " accepts host and port only")) ∧
  parseProbeTarget "dns:10.10.12.12" "dns" =
    Err (of_bytes (to_bytes "dns target " ++ [byte 34] ++ to_bytes "dns:10.10.12.12" ++ [byte 34] ++
      to_bytes ": address 10.10.12.12: missing port in address")).
Proof. vm_compute. repeat split. Qed.

Example listen_ports :
  WithListenPort "0.0.0.0:9877" 9910 = Ok "0.0.0.0:9910" ∧ WithListenPort "[::1]:9877" 9100 = Ok "[::1]:9100" ∧
  WithListenPort "" 80 = Ok ":80" ∧ WithListenPort "127.0.0.1:9877" 65536 = Err "web.listen-port must be between 1 and 65535".
Proof. vm_compute. repeat split. Qed.
