(* ===== verification/ConfigTheorems.v ===== *)
(** * ConfigTheorems: what a loaded configuration satisfies *)

From S2P Require Import Prelude GoTime GoStrings Model Json GoOS Slots GoText GoNet GoFloat Sha256 Config.

(** ** Text *)

Lemma Contains_char c s : Contains s (String c "") = true ↔ c ∈ to_bytes s.
Proof.
  unfold Contains. induction s as [|d s IH]; [by split; [|intros ?%elem_of_nil]|].
  cbn [String.index String.prefix]. change (to_bytes (String d s)) with (d :: to_bytes s).
  rewrite elem_of_cons. destruct (ascii_dec c d) as [->|Hne].
  - destruct s; simpl; naive_solver.
  - rewrite <-IH. destruct (String.index 0 (String c "") s); naive_solver.
Qed.

Lemma ContainsAny_false s chars :
  ContainsAny s chars = false ↔ ∀ c, c ∈ to_bytes s → c ∉ to_bytes chars.
Proof. unfold ContainsAny. rewrite bool_decide_eq_false, Exists_exists. naive_solver. Qed.

Lemma parse_digits_solid l : ∀ acc n, parse_digits acc l = Some n → Forall (λ c, solid c = true) l.
Proof.
  induction l as [|c l IH]; intros acc n H; simpl in H; [constructor|].
  destruct (digit c) as [d|] eqn:Hd; [|done]. constructor; [by eapply digit_solid|by eapply IH].
Qed.

(** The text of a number ends in a digit. *)
Lemma Atoi_last_solid s n : Atoi s = Some n → ∃ l c, to_bytes s = l ++ [c] ∧ solid c = true.
Proof.
  unfold Atoi, ParseInt. intros H.
  assert (∃ sign l, to_bytes s = sign ++ l ∧ l ≠ [] ∧ Forall (λ c, solid c = true) l) as (sign & l & Hs & Hne & Hl).
  { destruct (match to_bytes s with "-"%char :: l => (true, l) | "+"%char :: l => (false, l) | l => (false, l) end)
      as [neg l] eqn:Hm.
    assert (l ≠ [] ∧ Forall (λ c, solid c = true) l) as [? ?].
    { destruct l as [|c l]; [done|]. split; [done|].
      destruct (parse_digits 0 (c :: l)) eqn:Hd; [|done]. by eapply parse_digits_solid. }
    assert (∃ sign, to_bytes s = sign ++ l) as [sign ?]; [|by exists sign, l].
    destruct (to_bytes s) as [|c r]; [exists []; naive_solver|].
    destruct (decide (c = "-"%char)) as [->|]; [exists ["-"%char]; naive_solver|].
    destruct (decide (c = "+"%char)) as [->|]; [exists ["+"%char]; naive_solver|].
    exists []. destruct c as [[] [] [] [] [] [] [] []]; naive_solver. }
  destruct (last l) as [c|] eqn:Hlast; [|by apply last_None in Hlast].
  apply last_Some in Hlast as [l' ->]. exists (sign ++ l'), c.
  rewrite Hs, app_assoc. split; [done|]. apply Forall_app in Hl as [_ Hc]. by inv Hc.
Qed.

(** ** Probe targets *)

(** What [parseProbeTarget] establishes. *)
Definition probe_target (scheme uri addr : string) : Prop :=
  ∃ host port n, host ≠ "" ∧ Atoi port = Some n ∧ 1 <= n <= 65535 ∧
    addr = JoinHostPort host port ∧ SplitHostPort addr = Ok (host, port) ∧
    uri = scheme +:+ ":" +:+ addr ∧ (∀ c, c ∈ to_bytes host ++ to_bytes port → c ∉ to_bytes ";?@").

Lemma parseProbeTarget_Ok raw scheme uri addr :
  parseProbeTarget raw scheme = Ok (uri, addr) → probe_target scheme uri addr.
Proof.
  unfold parseProbeTarget. intros H.
  case_match; [done|]. destruct (ContainsAny _ _ || Contains _ _) eqn:Hch; [done|].
  apply orb_false_iff in Hch as [Hany Hat].
  destruct (SplitHostPort _) as [[host port]|] eqn:Hsplit; [|done].
  case_decide as Hhost; [done|]. destruct (Atoi port) as [n|] eqn:Hn; [|done].
  destruct ((n <? 1) || (65535 <? n)) eqn:Hrange; [done|]. destruct_bools. simplify_eq.
  exists host, port, n. split_and!; try done; [by eapply SplitHostPort_JoinHostPort|].
  apply SplitHostPort_Ok in Hsplit as (_ & _ & _ & _ & _ & Hs).
  intros c Hc. rewrite ContainsAny_false in Hany.
  assert (c ∈ to_bytes (of_bytes (drop (length (to_bytes (scheme +:+ ":"))) (to_bytes (TrimSpace raw))))) as Hin.
  { apply elem_of_app in Hc. destruct Hs as [->|[_ ->]]; rewrite ?elem_of_app, ?elem_of_cons; tauto. }
  specialize (Hany c Hin). intros Hbad.
  assert (c = "@"%char) as ->.
  { change (to_bytes ";?@") with (to_bytes ";?" ++ ["@"%char]) in Hbad.
    apply elem_of_app in Hbad as [?|?%list_elem_of_singleton]; [done|by subst]. }
  apply Contains_char in Hin. by rewrite Hin in Hat.
Qed.

(** The schemes the configuration knows. *)
Definition schemes : list string := ["sip"; "dns"; "agw"].

Lemma probe_target_parses scheme uri addr :
  scheme ∈ schemes → probe_target scheme uri addr → parseProbeTarget uri scheme = Ok (uri, addr).
Proof.
  intros Hscheme (host & port & n & Hhost & Hn & Hrange & Haddr & Hsplit & Huri & Hchars).
  assert (TrimSpace uri = uri) as Htrim.
  { unfold TrimSpace, bytes_TrimSpace.
    assert (trim_left (to_bytes uri) = to_bytes uri) as ->.
    { rewrite Huri, to_bytes_app. unfold schemes in Hscheme.
      repeat (apply elem_of_cons in Hscheme as [->|Hscheme]); [by apply trim_left_solid..|by apply elem_of_nil in Hscheme]. }
    destruct (Atoi_last_solid _ _ Hn) as (l & c & Hl & Hc).
    assert (∃ l', to_bytes uri = l' ++ [c]) as [l' Hl'].
    { rewrite Huri, !to_bytes_app, Haddr. unfold JoinHostPort. rewrite to_of_bytes. unfold join_host_port.
      rewrite Hl. case_bool_decide; rewrite !app_assoc; eauto. }
    by rewrite Hl', trim_right_solid, <-Hl', of_to_bytes. }
  assert (to_bytes uri = to_bytes (scheme +:+ ":") ++ to_bytes addr) as Hb.
  { by rewrite Huri, !to_bytes_app, app_assoc. }
  unfold parseProbeTarget. rewrite Htrim, Hb, length_app, take_app_length, drop_app_length, of_to_bytes.
  destruct (Nat.ltb_spec (length (to_bytes (scheme +:+ ":")) + length (to_bytes addr))
    (length (to_bytes (scheme +:+ ":")))); [lia|]. cbn [orb].
  unfold EqualFold. rewrite bool_decide_true by done. cbn [negb].
  assert (∀ c, c ∈ to_bytes addr → c ∉ to_bytes ";?@") as Hout.
  { intros c. rewrite Haddr. unfold JoinHostPort. rewrite to_of_bytes. unfold join_host_port.
    case_bool_decide; rewrite !elem_of_app, ?elem_of_cons, ?elem_of_nil; intros Hc;
      destruct (decide (c ∈ to_bytes host ++ to_bytes port)) as [Hin|Hin];
      try (by apply Hchars); rewrite elem_of_app in Hin;
      destruct_or?; subst; try tauto; apply (bool_decide_unpack _); vm_compute; done. }
  assert (ContainsAny addr ";?" = false) as ->.
  { apply ContainsAny_false. intros c Hc Hbad. apply (Hout c Hc).
    change (to_bytes ";?@") with (to_bytes ";?" ++ ["@"%char]). apply elem_of_app. by left. }
  assert (Contains addr "@" = false) as ->.
  { apply not_true_iff_false. rewrite Contains_char. intros Hc. apply (Hout _ Hc).
    apply (bool_decide_unpack _). vm_compute. done. }
  cbn [orb]. rewrite Hsplit. case_decide; [done|]. rewrite Hn.
  rewrite (proj2 (Z.ltb_ge n 1)), (proj2 (Z.ltb_ge 65535 n)) by lia. cbn [orb].
  by rewrite <-Haddr, <-Huri.
Qed.

(** ** Services *)

(** The probes a service names, with their schemes. *)
Definition probes (s : Service.t) : list (string * string) :=
  filter (λ p, p.2 ≠ "") [("sip", Service.SIP s); ("dns", Service.DNS s); ("agw", Service.AGW s)].

Definition valid_service (s : Service.t) : Prop :=
  Service.Name s ≠ "" ∧ " "%char ∉ to_bytes (Service.Name s) ∧ byte 9 ∉ to_bytes (Service.Name s) ∧
  (probes s = [] ∧ Service.Interval s = 0 ∨
   ∃ scheme uri, probes s = [(scheme, uri)] ∧ scheme ∈ schemes ∧ 0 < Service.Interval s ∧
     probe_target scheme uri (Service.Addr s)).

Lemma probe_target_ne scheme uri addr : scheme ∈ schemes → probe_target scheme uri addr → uri ≠ "".
Proof.
  intros Hs (? & ? & ? & _ & _ & _ & _ & _ & -> & _). unfold schemes in Hs.
  repeat (apply elem_of_cons in Hs as [->|Hs]); [done..|by apply elem_of_nil in Hs].
Qed.

(** The targets a service may name: none, or one that [probe_choice] finds. *)
Lemma probe_choice_spec svc :
  (length (filter (λ x, x ≠ "") [Service.SIP svc; Service.DNS svc; Service.AGW svc]) <= 1)%nat →
  probe_choice svc = ("", "") ∧ probes svc = [] ∨
  ∃ target scheme, probe_choice svc = (target, scheme) ∧ target ≠ "" ∧ scheme ∈ schemes ∧
    ∀ uri addr, uri ≠ "" → probes (with_target svc scheme uri addr) = [(scheme, uri)].
Proof.
  destruct svc as [name sip dns agw addr interval].
  unfold probe_choice, probes, with_target, schemes. simpl. rewrite !filter_cons, !filter_nil.
  repeat case_decide; simpl; intros Hlen; try lia; try tauto; right; do 2 eexists;
    (split_and!; [done|done|set_solver|]); intros uri addr' Huri; rewrite !filter_cons;
    repeat case_decide; simpl in *; by try tauto.
Qed.

Lemma check_service_spec i seen svc svc' :
  check_service i seen svc = Ok svc' →
  Service.Name svc' = Service.Name svc ∧ Service.Name svc ∉ seen ∧ valid_service svc'.
Proof.
  unfold check_service. intros H.
  destruct (bool_decide _ || ContainsAny _ _) eqn:Hname; [done|].
  apply orb_false_iff in Hname as [Hne%bool_decide_eq_false Hsp].
  rewrite ContainsAny_false in Hsp. case_decide as Hseen; [done|].
  destruct (1 <? _)%nat eqn:Hmany; [done|]. apply Nat.ltb_ge in Hmany.
  assert (" "%char ∉ to_bytes (Service.Name svc) ∧ byte 9 ∉ to_bytes (Service.Name svc)) as [Hsp1 Hsp2].
  { split; intros Hin; apply (Hsp _ Hin); apply (bool_decide_unpack _); vm_compute; done. }
  destruct (probe_choice_spec svc Hmany) as [[Hch Hp]|(target & scheme & Hch & Ht & Hs & Hp)]; rewrite Hch in H.
  - case_decide; [|done]. destruct (Z.eqb_spec (Service.Interval svc) 0); [|done]. simpl in H. simplify_eq.
    split_and!; [done|done|]. unfold valid_service. split_and!; [done..|]. by left.
  - case_decide; [done|]. destruct (Service.Interval svc <=? 0) eqn:Hint; [done|]. destruct_bools.
    destruct (parseProbeTarget target scheme) as [[uri addr]|] eqn:Hparse; [|done]. simplify_eq.
    apply parseProbeTarget_Ok in Hparse as Hpt. pose proof (probe_target_ne _ _ _ Hs Hpt) as Huri.
    specialize (Hp uri addr Huri).
    assert (Service.Name (with_target svc scheme uri addr) = Service.Name svc ∧
            Service.Interval (with_target svc scheme uri addr) = Service.Interval svc ∧
            Service.Addr (with_target svc scheme uri addr) = addr) as (Hn & Hi & Ha).
    { unfold with_target. by repeat case_decide. }
    unfold valid_service. rewrite Hn, Hi, Ha. split_and!; try done. right. by exists scheme, uri.
Qed.

Lemma check_services_spec services : ∀ i seen out,
  check_services i seen services = Ok out →
  Service.Name <$> out = Service.Name <$> services ∧ Forall valid_service out ∧
  NoDup (Service.Name <$> out) ∧ ∀ n, n ∈ Service.Name <$> out → n ∉ seen.
Proof.
  induction services as [|svc services IH]; intros i seen out H; simpl in H.
  { simplify_eq. split_and!; [done|by constructor|apply NoDup_nil_2|by intros n ?%elem_of_nil]. }
  destruct (check_service i seen svc) as [svc'|] eqn:Hsvc; [|done]. simpl in H.
  destruct (check_services _ _ services) as [out'|] eqn:Hrec; [|done]. simpl in H. simplify_eq.
  apply check_service_spec in Hsvc as (Hname & Hseen & Hvalid).
  destruct (IH _ _ _ Hrec) as (Hnames & Hvalids & Hdup & Hfresh).
  rewrite !fmap_cons, Hname. rewrite Hnames in *. split_and!; [done|by constructor| |].
  - apply NoDup_cons_2; [|done]. intros Hin. by apply (Hfresh _ Hin), elem_of_union_l, elem_of_singleton.
  - intros n [->|Hin]%elem_of_cons; [done|]. intros Hs. by apply (Hfresh _ Hin), elem_of_union_r.
Qed.

(** ** Receivers *)

Definition valid_target (checkpoint : string) (legacy : bool) (t : RemoteWriteTarget.t) : Prop :=
  RemoteWriteTarget.URL t ≠ "" ∧ RemoteWriteTarget.ID t = target_id (RemoteWriteTarget.URL t) ∧
  RemoteWriteTarget.Checkpoint t =
    (if legacy then checkpoint else checkpoint +:+ "." +:+ RemoteWriteTarget.ID t).

Lemma make_targets_spec checkpoint legacy urls : ∀ i seen out,
  make_targets checkpoint legacy i seen urls = Ok out →
  RemoteWriteTarget.URL <$> out = TrimSpace <$> urls ∧
  Forall (valid_target checkpoint legacy) out ∧ NoDup (RemoteWriteTarget.URL <$> out) ∧
  (∀ u, u ∈ RemoteWriteTarget.URL <$> out → u ∉ seen) ∧
  (∀ j t, out !! j = Some t →
     RemoteWriteTarget.LegacyCheckpoint t = if negb legacy && (i + j =? 0)%nat then checkpoint else "").
Proof.
  induction urls as [|raw urls IH]; intros i seen out H; simpl in H.
  { simplify_eq. split_and!; [done|by constructor|apply NoDup_nil_2|by intros n ?%elem_of_nil|done]. }
  case_decide as Hne; [done|]. case_decide as Hseen; [done|].
  destruct (make_targets _ _ _ _ urls) as [out'|] eqn:Hrec; [|done]. simplify_eq.
  destruct (IH _ _ _ Hrec) as (Hurls & Hvalid & Hdup & Hfresh & Hleg).
  rewrite !fmap_cons. simpl. rewrite Hurls in *. split_and!; [done| | | |].
  - constructor; [|done]. unfold valid_target. simpl. by destruct legacy.
  - apply NoDup_cons_2; [|done]. intros Hin. by apply (Hfresh _ Hin), elem_of_union_l, elem_of_singleton.
  - intros u [->|Hin]%elem_of_cons; [done|]. intros Hs. by apply (Hfresh _ Hin), elem_of_union_r.
  - intros [|j] t Ht; simplify_eq/=; [by rewrite Nat.add_0_r|]. by rewrite (Hleg _ _ Ht), <-Nat.add_succ_comm.
Qed.

Lemma positive_or_pos d default : 0 < default → 0 < positive_or d default.
Proof. unfold positive_or. destruct (Z.leb_spec d 0); lia. Qed.

Lemma nonempty_or_ne s default : default ≠ "" → nonempty_or s default ≠ "".
Proof. unfold nonempty_or. by case_decide. Qed.

Definition valid_remote_write (r : RemoteWriteConfig.t) : Prop :=
  0 < RemoteWriteConfig.BatchSize r ∧ 0 < RemoteWriteConfig.FlushInterval r ∧
  0 < RemoteWriteConfig.RetryInterval r ∧ 0 < RemoteWriteConfig.Timeout r ∧
  0 < RemoteWriteConfig.StateInterval r ∧ RemoteWriteConfig.Checkpoint r ≠ "" ∧
  10 * Second <= RemoteWriteConfig.RecoveryFillInterval r <= 4 * Minute ∧
  5 * Minute <= RemoteWriteConfig.RecoveryWindow r <= 60 * Minute ∧
  Hour mod RemoteWriteConfig.RecoveryWindow r = 0 ∧
  RemoteWriteConfig.Targets r ≠ [] ∧ NoDup (RemoteWriteTarget.URL <$> RemoteWriteConfig.Targets r) ∧
  Forall (valid_target (RemoteWriteConfig.Checkpoint r) (bool_decide (RemoteWriteConfig.URLs r = [])))
    (RemoteWriteConfig.Targets r) ∧
  (∀ j t, RemoteWriteConfig.Targets r !! j = Some t →
     RemoteWriteTarget.LegacyCheckpoint t =
       if negb (bool_decide (RemoteWriteConfig.URLs r = [])) && (j =? 0)%nat
       then RemoteWriteConfig.Checkpoint r else "") ∧
  (∀ name, is_Some (RemoteWriteConfig.Labels r !! name) → validLabelName name = true ∧ name ≠ "__name__").

(** No entry fails the test of the loop over the labels. *)
Lemma labels_checked (m : gmap string string) :
  filter (λ p : string * string, negb (validLabelName p.1) || bool_decide (p.1 = "__name__")) (map_to_list m) = [] →
  ∀ name, is_Some (m !! name) → validLabelName name = true ∧ name ≠ "__name__".
Proof.
  intros Hnil name [v Hv%elem_of_map_to_list].
  destruct (negb (validLabelName name) || bool_decide (name = "__name__")) eqn:Hbad.
  - assert ((name, v) ∈ filter (λ p : string * string, negb (validLabelName p.1) || bool_decide (p.1 = "__name__"))
      (map_to_list m)) as Hin by (apply list_elem_of_filter; split; [|done]; simpl; by rewrite Hbad).
    rewrite Hnil in Hin. by apply elem_of_nil in Hin.
  - destruct_bools. by split; [|apply (bool_decide_eq_false (name = "__name__"))].
Qed.

Lemma check_remote_write_spec r r' :
  RemoteWriteConfig.Targets r = [] → check_remote_write r = Ok r' →
  valid_remote_write r' ∧ RemoteWriteConfig.Enabled r' = RemoteWriteConfig.Enabled r.
Proof.
  unfold check_remote_write. intros Ht H.
  destruct (negb _ && negb _); [done|].
  set (legacy := bool_decide (RemoteWriteConfig.URLs r = []) && _) in H.
  set (urls := if legacy then _ else _) in H.
  destruct (bool_decide (urls = [])) eqn:Hurls; [done|]. apply bool_decide_eq_false in Hurls.
  assert (legacy = bool_decide (RemoteWriteConfig.URLs r = [])) as Hleg.
  { unfold legacy, urls in *. case_bool_decide as Hnil; simpl in *; [|done]. by case_bool_decide. }
  clearbody urls legacy. subst legacy.
  destruct (make_targets _ _ _ _ _) as [targets|] eqn:Hm; [|done].
  destruct ((RemoteWriteConfig.RecoveryFillInterval r <? _) || _) eqn:Hfill; [done|].
  destruct ((RemoteWriteConfig.RecoveryWindow r <? _) || _) eqn:Hwin; [done|].
  destruct (negb (Z.rem _ _ =? 0)) eqn:Hrem; [done|].
  destruct (filter _ _) as [|[name v] ?] eqn:Hlab; [|done].
  apply make_targets_spec in Hm as (Hu & Hv & Hd & _ & Hl). destruct_bools. simplify_eq.
  assert (0 < RemoteWriteConfig.RecoveryWindow r) by (time_consts; lia).
  split; [|done]. unfold valid_remote_write. simpl. rewrite Ht. simpl. split_and!;
    try (by apply positive_or_pos); try (by apply nonempty_or_ne); try done; try lia.
  - by rewrite <-Z.rem_mod_nonneg by (time_consts; lia).
  - intros ->. by destruct urls.
  - by apply labels_checked.
Qed.

(** ** The whole configuration *)

Definition valid_config (c : Config.t) : Prop :=
  Config.Services c ≠ [] ∧ Forall valid_service (Config.Services c) ∧ NoDup (Units c) ∧
  ServerConfig.Listen (Config.Server c) ≠ "" ∧
  0 < SystemdConfig.ReconnectInterval (Config.Systemd c) ∧
  0 < SystemdConfig.ReconciliationInterval (Config.Systemd c) ∧
  0 < SystemdConfig.StartupRecoveryInterval (Config.Systemd c) ∧
  0 < RemoteWriteConfig.RecoveryFillInterval (Config.RemoteWrite c) ∧
  0 < RemoteWriteConfig.RecoveryWindow (Config.RemoteWrite c) ∧
  if RemoteWriteConfig.Enabled (Config.RemoteWrite c) then valid_remote_write (Config.RemoteWrite c)
  else RemoteWriteConfig.Targets (Config.RemoteWrite c) = [].

Lemma finish_load_valid c c' :
  RemoteWriteConfig.Targets (Config.RemoteWrite c) = [] → finish_load c = Ok c' → valid_config c'.
Proof.
  unfold finish_load. intros Ht H. case_bool_decide as Hne; [done|].
  destruct (check_services 0 ∅ (Config.Services c)) as [services|] eqn:Hs; [|done].
  apply check_services_spec in Hs as (Hnames & Hvalid & Hdup & _).
  assert (services ≠ []) as Hsne. { intros ->. by destruct (Config.Services c). }
  destruct (RemoteWriteConfig.Enabled (recovery_defaults (Config.RemoteWrite c))) eqn:Hen.
  - destruct (check_remote_write _) as [r|] eqn:Hr; [|done]. simplify_eq.
    apply check_remote_write_spec in Hr as [Hr Hen']; [|done].
    unfold valid_config. simpl. rewrite Hen', Hen.
    destruct Hr as (? & ? & ? & ? & ? & ? & ? & ? & ?) eqn:Heq. clear Heq.
    split_and!; try (by apply positive_or_pos); try (by apply nonempty_or_ne); try done; time_consts; lia.
  - simplify_eq. unfold valid_config. simpl. simpl in Hen. rewrite Hen.
    split_and!; try (by apply positive_or_pos); try (by apply nonempty_or_ne); done.
Qed.

Lemma Load_inv faults yaml oor path w c w' :
  Load faults yaml oor path w = (Ok c, w') →
  ∃ data c0, Unmarshal yaml (UnmarshalYAML_service yaml oor) data = Ok c0 ∧ finish_load c0 = Ok c.
Proof.
  unfold Load. intros H. bind_inv H as r w1 Hr. unfold ret in H.
  destruct r as [data|]; [|done]. destruct (Unmarshal _ _ data) as [c0|] eqn:Hu; [|done].
  destruct (finish_load c0) as [c1|] eqn:Hf; [|done]. simplify_eq. by exists data, c0.
Qed.

Lemma Load_valid faults yaml oor path w c w' :
  skips_targets yaml → Load faults yaml oor path w = (Ok c, w') → valid_config c.
Proof.
  intros Hy (data & c0 & Hu & Hf)%Load_inv. eapply finish_load_valid; [|exact Hf]. by eapply Hy.
Qed.

(** The windows between five minutes and an hour that divide the hour. *)
Lemma windows_of_the_hour window :
  5 * Minute <= window <= 60 * Minute → Hour mod window = 0 →
  window ∈ (Z.mul Second <$> [300; 360; 400; 450; 600; 720; 900; 1200; 1800; 3600]).
Proof.
  intros Hr Hm. apply Z.mod_divide in Hm as [k Hk]; [|time_consts; lia].
  assert (1 <= k <= 12) as Hk12 by (time_consts; nia).
  assert (k = 1 ∨ k = 2 ∨ k = 3 ∨ k = 4 ∨ k = 5 ∨ k = 6 ∨ k = 7 ∨ k = 8 ∨ k = 9 ∨ k = 10 ∨ k = 11 ∨ k = 12)
    as Hc by lia.
  simpl. rewrite !elem_of_cons, elem_of_nil. time_consts. destruct_or! Hc; subst k; lia.
Qed.

(** ** Sample configuration *)

Definition sample_services : list Service.t :=
  [Service.mk "pcscf.service" "" "" "" "" 0;
   Service.mk "scscf.service" "SIP:10.12.12.10:5060" "" "" "" (700 * Millisecond)].

Definition sample_remote_write (urls : list string) : RemoteWriteConfig.t :=
  RemoteWriteConfig.mk true "" urls 0 0 0 0 "/tmp/rw.checkpoint" 0 0 (20 * Minute)
    (<["instance" := "cscf01"]> ∅) [].

Definition sample_config (urls : list string) : Config.t :=
  Config.mk (ServerConfig.mk "" false) sample_services (SystemdConfig.mk 0 0 0)
    (WALConfig.mk true "/tmp/wal" true) (sample_remote_write urls).

(** A YAML library that reads every file as the same configuration. *)
Definition sample_yaml (urls : list string) : yaml_lib :=
  Yaml (λ _ _, Ok (sample_config urls)) (λ _ _, Err ErrDecode).

Definition sample_world : world := World (<["config.yaml" := File [] 0]> ∅) 0.

Definition sample_loaded (urls : list string) : Config.t :=
  match finish_load (sample_config urls) with Ok c => c | Err _ => sample_config urls end.

Lemma sample_yaml_skips urls : skips_targets (sample_yaml urls).
Proof. by intros hook data c [= <-]. Qed.

Module ConfigClaims.
(** C13: A configuration that [Load] returns is well formed, whatever the
    file, if the YAML library leaves the field tagged "-" alone: there are
    services with distinct, non-blank names, each with at most one probe that
    has a positive interval and a normalised target, all intervals are
    positive, and with delivery enabled the window and the fill interval are
    in range, the labels are legal and the receivers have distinct URLs, each
    with the identifier and the checkpoint file that its URL determines. *)
Theorem loaded_config_is_valid faults yaml oor path w c w' :
  skips_targets yaml → Load faults yaml oor path w = (Ok c, w') → valid_config c.
Proof. apply Load_valid. Qed.

(** C34: With delivery enabled, [Load] accepts no recovery window but ten;
    eight of them lie on the slot grid of whole minutes, and the other two,
    6m40s and 7m30s, do not. *)
Theorem accepted_windows faults yaml oor path w c w' :
  skips_targets yaml → Load faults yaml oor path w = (Ok c, w') →
  RemoteWriteConfig.Enabled (Config.RemoteWrite c) = true →
  let window := RemoteWriteConfig.RecoveryWindow (Config.RemoteWrite c) in
  window ∈ (Z.mul Second <$> [300; 360; 400; 450; 600; 720; 900; 1200; 1800; 3600]) ∧
  (grid_size window = true ↔ window ≠ 400 * Second ∧ window ≠ 450 * Second).
Proof.
  intros Hy Hl Hen. apply Load_valid in Hl; [|done].
  destruct Hl as (_ & _ & _ & _ & _ & _ & _ & _ & _ & Hr). rewrite Hen in Hr.
  destruct Hr as (_ & _ & _ & _ & _ & _ & _ & Hwin & Hmod & _).
  pose proof (windows_of_the_hour _ Hwin Hmod) as Hin. intros window. split; [done|].
  fold window in Hin. revert Hin. generalize window as x. simpl.
  intros x Hin. repeat (apply elem_of_cons in Hin as [->|Hin]); [by vm_compute; naive_solver..|].
  by apply elem_of_nil in Hin.
Qed.

(** C35: The normalised target of a probe parses to itself and to the same
    address, and consists of a non-empty host and a port between 1 and 65535
    that splitting the address gives back. *)
Theorem probe_target_round_trip raw scheme uri addr :
  scheme ∈ schemes → parseProbeTarget raw scheme = Ok (uri, addr) →
  parseProbeTarget uri scheme = Ok (uri, addr) ∧
  ∃ host port n, uri = scheme +:+ ":" +:+ JoinHostPort host port ∧ addr = JoinHostPort host port ∧
    SplitHostPort addr = Ok (host, port) ∧ host ≠ "" ∧ Atoi port = Some n ∧ 1 <= n <= 65535.
Proof.
  intros Hs Hp%parseProbeTarget_Ok. split; [by apply probe_target_parses|].
  destruct Hp as (host & port & n & ? & ? & ? & -> & ? & -> & _). by exists host, port, n.
Qed.

(** Two loads with the same base checkpoint give a receiver the same
    identifier and the same checkpoint file for the same URL, wherever it
    stands in the list, and receivers share a file only when the digests of
    their URLs agree. *)
Theorem receivers_keep_their_checkpoint faults yaml1 yaml2 oor path w1 w2 c1 c2 w1' w2' :
  skips_targets yaml1 → skips_targets yaml2 →
  Load faults yaml1 oor path w1 = (Ok c1, w1') → Load faults yaml2 oor path w2 = (Ok c2, w2') →
  let r1 := Config.RemoteWrite c1 in let r2 := Config.RemoteWrite c2 in
  RemoteWriteConfig.Enabled r1 = true → RemoteWriteConfig.Enabled r2 = true →
  RemoteWriteConfig.URLs r1 ≠ [] → RemoteWriteConfig.URLs r2 ≠ [] →
  RemoteWriteConfig.Checkpoint r1 = RemoteWriteConfig.Checkpoint r2 →
  ∀ t1 t2, t1 ∈ RemoteWriteConfig.Targets r1 → t2 ∈ RemoteWriteConfig.Targets r2 →
  (RemoteWriteTarget.URL t1 = RemoteWriteTarget.URL t2 →
     RemoteWriteTarget.ID t1 = RemoteWriteTarget.ID t2 ∧
     RemoteWriteTarget.Checkpoint t1 = RemoteWriteTarget.Checkpoint t2) ∧
  (RemoteWriteTarget.Checkpoint t1 = RemoteWriteTarget.Checkpoint t2 →
     target_id (RemoteWriteTarget.URL t1) = target_id (RemoteWriteTarget.URL t2)).
Proof.
  intros Hy1 Hy2 Hl1 Hl2 r1 r2 He1 He2 Hu1 Hu2 Hcp t1 t2 Ht1 Ht2.
  apply Load_valid in Hl1; [|done]. apply Load_valid in Hl2; [|done].
  destruct Hl1 as (_ & _ & _ & _ & _ & _ & _ & _ & _ & Hr1).
  destruct Hl2 as (_ & _ & _ & _ & _ & _ & _ & _ & _ & Hr2).
  fold r1 in Hr1. fold r2 in Hr2. rewrite He1 in Hr1. rewrite He2 in Hr2.
  destruct Hr1 as (_ & _ & _ & _ & _ & _ & _ & _ & _ & _ & _ & Hv1 & _).
  destruct Hr2 as (_ & _ & _ & _ & _ & _ & _ & _ & _ & _ & _ & Hv2 & _).
  rewrite bool_decide_false in Hv1, Hv2 by done. rewrite Forall_forall in Hv1, Hv2.
  destruct (Hv1 _ Ht1) as (_ & Hid1 & Hc1). destruct (Hv2 _ Ht2) as (_ & Hid2 & Hc2).
  rewrite Hc1, Hc2, Hcp. split.
  - intros Hurl. rewrite Hid1, Hid2, Hurl. done.
  - intros Heq. rewrite <-Hid1, <-Hid2. by apply append_inj, append_inj in Heq.
Qed.

(** The port of the command line replaces the configured one and leaves the
    host alone. *)
Theorem listen_port_keeps_host listen port r :
  WithListenPort listen port = Ok r →
  1 <= port <= 65535 ∧
  ∃ host, SplitHostPort r = Ok (host, Itoa port) ∧
    (TrimSpace listen = "" ∧ host = "" ∨ ∃ old, SplitHostPort listen = Ok (host, old)).
Proof.
  unfold WithListenPort. intros H. destruct ((port <? 1) || (65535 <? port)) eqn:Hr; [done|]. destruct_bools.
  split; [lia|].
  assert (∀ c, c ∈ to_bytes (Itoa port) → ∃ d, digit c = Some d) as Hdig.
  { unfold Itoa. rewrite to_of_bytes. apply Forall_forall, FormatInt_digits. lia. }
  assert (∀ c, digit c = None → c ∉ to_bytes (Itoa port)) as Hno.
  { intros c Hc Hin. destruct (Hdig c Hin) as [d Hd]. by rewrite Hc in Hd. }
  case_decide as Ht; [|destruct (SplitHostPort listen) as [[host old]|] eqn:Hs; [|done]]; simplify_eq.
  - exists "". split; [|by left]. apply SplitHostPort_Ok. unfold JoinHostPort. rewrite to_of_bytes.
    unfold host_port. split_and!; try (by apply Hno); try (by intros ?%elem_of_nil). right. by split; [intros ?%elem_of_nil|].
  - exists host. split; [|right; by exists old].
    apply SplitHostPort_Ok in Hs as (Hh1 & Hh2 & _). apply SplitHostPort_Ok.
    unfold JoinHostPort. rewrite to_of_bytes. unfold host_port, join_host_port.
    split_and!; try done; try (by apply Hno). case_bool_decide; [by left|by right].
Qed.

(** With delivery disabled a window that does not divide the hour is accepted,
    and the last slot of an hour then runs past it. *)
Theorem disabled_delivery_skips_window_check :
  let odd := 7 * Minute in
  let r := RemoteWriteConfig.mk false "" [] 0 0 0 0 "" 0 0 odd ∅ [] in
  let c := Config.mk (ServerConfig.mk "" false) sample_services (SystemdConfig.mk 0 0 0) (WALConfig.mk true "" true) r in
  (∃ c', finish_load c = Ok c' ∧ RemoteWriteConfig.RecoveryWindow (Config.RemoteWrite c') = odd) ∧
  Hour mod odd ≠ 0 ∧
  let now := 59 * Minute + 30 * Second in
  SlotStart (FixedZone 0) now odd + odd > Hour.
Proof. split; [eexists; split; vm_compute; done|]. split; vm_compute; done. Qed.

Lemma loaded_config_is_valid_witness : valid_config (sample_loaded ["http://a/w"; "http://b/w"]).
Proof.
  apply (loaded_config_is_valid (λ _ _, Fine) (sample_yaml ["http://a/w"; "http://b/w"]) (λ _, 0)
    "config.yaml" sample_world _ (World (files sample_world) 2)); [apply sample_yaml_skips|].
  vm_compute. reflexivity.
Defined.

Lemma accepted_windows_witness :
  grid_size (20 * Minute) = true ↔ 20 * Minute ≠ 400 * Second ∧ 20 * Minute ≠ 450 * Second.
Proof.
  apply (accepted_windows (λ _ _, Fine) (sample_yaml ["http://a/w"]) (λ _, 0) "config.yaml" sample_world
    (sample_loaded ["http://a/w"]) (World (files sample_world) 2));
    [apply sample_yaml_skips|vm_compute; reflexivity|reflexivity].
Defined.

Lemma probe_target_round_trip_witness :
  parseProbeTarget "dns:[fe80::1]:53" "dns" = Ok ("dns:[fe80::1]:53", "[fe80::1]:53").
Proof.
  apply (probe_target_round_trip " DNS:[fe80::1]:53" "dns" "dns:[fe80::1]:53" "[fe80::1]:53").
  - apply (bool_decide_unpack _). vm_compute. done.
  - vm_compute. reflexivity.
Defined.

Lemma receivers_keep_their_checkpoint_witness :
  let cp := "/tmp/rw.checkpoint." +:+ target_id "http://b/w" in
  let t1 := RemoteWriteTarget.mk (target_id "http://b/w") "http://b/w" cp "" in
  let t2 := RemoteWriteTarget.mk (target_id "http://b/w") "http://b/w" cp "/tmp/rw.checkpoint" in
  RemoteWriteTarget.URL t1 = RemoteWriteTarget.URL t2 →
  RemoteWriteTarget.ID t1 = RemoteWriteTarget.ID t2 ∧
  RemoteWriteTarget.Checkpoint t1 = RemoteWriteTarget.Checkpoint t2.
Proof.
  intros cp t1 t2.
  refine (proj1 (receivers_keep_their_checkpoint (λ _ _, Fine) (sample_yaml ["http://a/w"; "http://b/w"])
    (sample_yaml ["http://b/w"; "http://a/w"]) (λ _, 0) "config.yaml" sample_world sample_world
    (sample_loaded ["http://a/w"; "http://b/w"]) (sample_loaded ["http://b/w"; "http://a/w"])
    (World (files sample_world) 2) (World (files sample_world) 2) (sample_yaml_skips _) (sample_yaml_skips _)
    _ _ _ _ _ _ _ t1 t2 _ _)).
  1-2: vm_compute; reflexivity.
  1-2: vm_compute; reflexivity.
  1-2: vm_compute; discriminate.
  1: vm_compute; reflexivity.
  1-2: apply (bool_decide_unpack _); vm_compute; exact I.
Defined.
End ConfigClaims.
