(* ===== verification/Probe.v ===== *)
(** * Probe: internal/sip, internal/dns and internal/agw

    The messages of the three readiness probes, the loop that sends them and
    the prober that runs at most one loop per service. The three packages repeat
    the same loop and the same prober, so both are written once against the
    class [Protocol] and instantiated three times.

    The network, the entropy source and the scheduler are an environment that
    decides the outcome and the duration of every call. Log lines and the
    rate limit of their repetition are not modelled. *)

From S2P Require Import Prelude GoTime GoStrings Model Json GoOS GoText GoNet.

(** ** The surroundings of a probe *)

(** What a read of the socket yields. *)
Inductive read_result := Datagram (data : bytes) | ReadErr | Expired.

Record penv := PEnv {
  resolve_ok : nat → bool;                     (* [net.ResolveUDPAddr] *)
  dial_ok : nat → bool;                        (* [net.DialUDP] *)
  local_addr : nat → option (string * Z);      (* [conn.LocalAddr], when it is UDP *)
  rand_Read : nat → nat → option bytes;        (* [crypto/rand.Read] of some length *)
  pid : Z;
  write_ok : nat → bool;
  (** The outcome of a read, which may depend on the request sent. *)
  read_from : nat → bytes → read_result;
  elapsed : nat → Z;                           (* how long the n-th call takes *)
  done_at : option time;                       (* when the context is cancelled *)
}.

Module PState.
Record t := mk {
  now : time;
  steps : nat;                                 (* calls made so far *)
  seq : Z;                                     (* the counter of package agw *)
  readied : list (string * time);              (* calls of [ready] *)
  sent : list time;                            (* when requests were handed to the socket *)
}.
End PState.

Notation P := (M PState.t).

Section Surroundings.
Context (env : penv).

Definition took (st : PState.t) : Z := Z.max 0 (elapsed env (PState.steps st)).

(** A call: its outcome and its duration are the environment's. *)
Definition call {A} (f : nat → A) : P A :=
  λ st, (f (PState.steps st),
         PState.mk (PState.now st + took st) (S (PState.steps st)) (PState.seq st) (PState.readied st) (PState.sent st)).

Definition Now : P time := λ st, (PState.now st, st).
Definition ctx_done (st : PState.t) : bool :=
  match done_at env with Some t => t <=? PState.now st | None => false end.
Definition ctx_Err : P bool := λ st, (ctx_done st, st).

(** A timer of [d] against the end of the context. *)
Definition wait (d : Duration) : P unit :=
  λ st, if d <=? 0 then (tt, st)
        else
          let until := PState.now st + d in
          let fired := match done_at env with
                       | Some t => Z.max (PState.now st) (Z.min until t)
                       | None => until
                       end in
          (tt, PState.mk (fired + took st) (S (PState.steps st)) (PState.seq st) (PState.readied st) (PState.sent st)).

(** [conn.Read] under a deadline. The end of the context closes the
    connection, which interrupts a read that waits. *)
Definition Read (deadline : time) (request : bytes) : P read_result :=
  λ st,
    let at_ t r := (r, PState.mk (t + took st) (S (PState.steps st)) (PState.seq st) (PState.readied st) (PState.sent st)) in
    let expire := at_ (Z.max (PState.now st) deadline) Expired in
    match read_from env (PState.steps st) request with
    | Datagram data => if PState.now st <? deadline then at_ (PState.now st) (Datagram data) else expire
    | ReadErr => at_ (PState.now st) ReadErr
    | Expired =>
        match done_at env with
        | Some t => if t <? deadline then at_ (Z.max (PState.now st) t) ReadErr else expire
        | None => expire
        end
    end.

(** [ready(service, time.Now())]. *)
Definition ready (service : string) : P unit :=
  λ st, (tt, PState.mk (PState.now st) (PState.steps st) (PState.seq st)
               (PState.readied st ++ [(service, PState.now st)]) (PState.sent st)).

(** [conn.Write]: the request leaves while the call runs. *)
Definition Write : P bool :=
  λ st, call (write_ok env) (PState.mk (PState.now st) (PState.steps st) (PState.seq st) (PState.readied st)
                              (PState.sent st ++ [PState.now st])).
End Surroundings.

(** ** SIP: options.go *)

Record Message := mkMessage { CallID : bytes; Bytes : bytes }.

Definition crlf : string := String (byte 13) (String newline "").

Section Sip.
Context (env : penv).

(** [token]: eight random bytes in hexadecimal. *)
Definition token : P (option string) :=
  r <- call env (λ n, rand_Read env n 8);;
  ret (of_bytes ∘ hex_bytes <$> r).

(** The request line and the headers. *)
Definition options_text (uri host : string) (localPort cseq : Z) (callID branch tag : string) : string :=
  "OPTIONS " +:+ uri +:+ " SIP/2.0" +:+ crlf +:+
  "Via: SIP/2.0/UDP " +:+ host +:+ ":" +:+ Itoa localPort +:+ ";branch=z9hG4bK" +:+ branch +:+ ";rport" +:+ crlf +:+
  "From: <sip:systemd-transition-exporter@" +:+ host +:+ ">;tag=" +:+ tag +:+ crlf +:+
  "To: <" +:+ uri +:+ ">" +:+ crlf +:+
  "Call-ID: " +:+ callID +:+ crlf +:+
  "CSeq: " +:+ Itoa cseq +:+ " OPTIONS" +:+ crlf +:+
  "Max-Forwards: 70" +:+ crlf +:+
  "Content-Length: 0" +:+ crlf +:+ crlf.

(** An IPv6 address is put in brackets. *)
Definition sip_host (localHost : string) : string :=
  if Contains localHost ":" && negb (HasPrefix localHost "[") then "[" +:+ localHost +:+ "]" else localHost.

Definition Options (uri localHost : string) (localPort cseq : Z) : P (option Message) :=
  callID <- token;;
  match callID with
  | None => ret None
  | Some callID =>
      branch <- token;;
      match branch with
      | None => ret None
      | Some branch =>
          tag <- token;;
          match tag with
          | None => ret None
          | Some tag =>
              ret (Some (mkMessage (to_bytes callID)
                (to_bytes (options_text uri (sip_host localHost) localPort cseq callID branch tag))))
          end
      end
  end.
End Sip.

(** The loop over the lines: the first Call-ID header decides. *)
Fixpoint call_id_matches (lines : list bytes) (callID : bytes) : bool :=
  match lines with
  | [] => false
  | raw :: lines' =>
      let '(name, value, found) := Cut (bytes_TrimSpace raw) ":"%char in
      if negb found then call_id_matches lines' callID
      else if EqualFold (bytes_TrimSpace name) (to_bytes "Call-ID") || bool_decide (name = to_bytes "i")
      then bool_decide (bytes_TrimSpace value = callID)
      else call_id_matches lines' callID
  end.

Definition IsOK (packet callID : bytes) : bool :=
  let '(line, _, _) := Cut packet newline in
  match Fields (bytes_TrimSpace line) with
  | version :: status :: _ =>
      if negb (EqualFold version (to_bytes "SIP/2.0")) then false
      else match Atoi (of_bytes status) with
           | Some code => if negb (code =? 200) then false else call_id_matches (Split packet newline) callID
           | None => false
           end
  | _ => false
  end.

(** ** SIP: local.go *)

(** An address of an interface: [*net.IPNet], [*net.IPAddr], or another type. *)
Inductive net_addr := IPNet (ip : list Z) | IPAddr (ip : list Z) | OtherAddr.
Definition addrIP (addr : net_addr) : option (list Z) :=
  match addr with IPNet ip | IPAddr ip => Some ip | OtherAddr => None end.

(** [net.Interfaces] with [iface.Addrs] of each. *)
Definition interfaces := result goerror (list (string * result goerror (list net_addr))).

Fixpoint interface_ips (ifaces : list (string * result goerror (list net_addr))) : result goerror (list (list Z)) :=
  match ifaces with
  | [] => Ok []
  | (name, addrs) :: ifaces' =>
      match addrs with
      | Err e => Err (Wrap ("addresses of " +:+ name) e)
      | Ok addrs => rest ← interface_ips ifaces'; Ok (omap addrIP addrs ++ rest)
      end
  end.
Definition LocalIPs (ifaces : interfaces) : result goerror (list (list Z)) :=
  match ifaces with
  | Err e => Err (Wrap "list network interfaces" e)
  | Ok l => interface_ips l
  end.

(** Why an address is refused. *)
Inductive local_error :=
  | BadAddress (addr why : string)
  | NotAnIP (host : string)
  | NotAssigned (ip : list Z).

Definition RequireLocal (addr : string) (locals : list (list Z)) : option local_error :=
  match SplitHostPort addr with
  | Err e => Some (BadAddress addr e)
  | Ok (host, _) =>
      match ParseIP host with
      | None => Some (NotAnIP host)
      | Some ip => if existsb (λ local, IP_Equal local ip) locals then None else Some (NotAssigned ip)
      end
  end.

(** ** DNS: query.go *)

Definition typeTXT : Z := 16.
Definition classCHAOS : Z := 3.

Definition be16 (n : Z) : bytes := [chr (n / 256); chr (n mod 256)].
Definition uint16 (hi lo : ascii) : Z := code hi * 256 + code lo.

(** The name version.bind in labels. *)
Definition version_bind : bytes :=
  chr 7 :: to_bytes "version" ++ chr 4 :: to_bytes "bind" ++ [chr 0].

Definition query_packet (id : Z) : bytes :=
  be16 id ++ be16 0 ++ be16 1 ++ be16 0 ++ be16 0 ++ be16 0 ++ version_bind ++ be16 typeTXT ++ be16 classCHAOS.

Definition Query (env : penv) : P (option (Z * bytes)) :=
  raw <- call env (λ n, rand_Read env n 2);;
  ret (match raw with
       | Some (hi :: lo :: _) => let id := uint16 hi lo in Some (id, query_packet id)
       | _ => None
       end).

Definition Answered (packet : bytes) (id : Z) : bool :=
  if (length packet <? 12)%nat then false
  else match packet with
       | hi :: lo :: flags :: _ =>
           if negb (uint16 hi lo =? id) then false else negb (Z.land (code flags) 128 =? 0)
       | _ => false
       end.

(** ** AGW: ping.go *)

Definition agw_command : string := "d7:command4:pinge".
Definition agw_result : string := "d6:result4:ponge".

Definition ping_token (pid n : Z) : string := "0_" +:+ Itoa pid +:+ "_" +:+ Itoa n.

(** [seq.Add(1)] and the packet. *)
Definition Ping (env : penv) : P (string * bytes) :=
  λ st,
    let n := u64 (PState.seq st + 1) in
    let tok := ping_token (pid env) n in
    ((tok, to_bytes (tok +:+ " " +:+ agw_command)),
     PState.mk (PState.now st) (PState.steps st) n (PState.readied st) (PState.sent st)).

Definition IsPong (packet : bytes) (tok : string) : bool :=
  match strip_prefix (to_bytes (tok +:+ " ")) packet with
  | None => false
  | Some rest => bytes_Contains rest (to_bytes agw_result)
  end.

(** ** The loop of a probe *)

Module Probe.
Record t := mk { Service : string; URI : string; Addr : string; Interval : Duration }.
End Probe.

(** What the loop needs of a protocol: a request with the key its answer must
    carry, the check of an answer, and the size of the read buffer. *)
Class Protocol := {
  key : Type;
  build : penv → string → Z → P (option (key * bytes));
  accepts : bytes → key → bool;
  buffer : nat;
}.

Definition sip_protocol : Protocol := {|
  key := bytes;
  build env uri cseq :=
    local <- call env (local_addr env);;
    match local with
    | None => ret None
    | Some (ip, port) =>
        m <- Options env uri ip port cseq;;
        ret ((λ m, (CallID m, Bytes m)) <$> m)
    end;
  accepts := IsOK;
  buffer := Z.to_nat 65535;
|}.

Definition dns_protocol : Protocol := {|
  key := Z;
  build env _ _ := Query env;
  accepts := Answered;
  buffer := Z.to_nat 4096;
|}.

Definition agw_protocol : Protocol := {|
  key := string;
  build env _ _ := r <- Ping env;; ret (Some r);
  accepts := IsPong;
  buffer := Z.to_nat 4096;
|}.

Section Loop.
Context `{!Protocol} (env : penv).

(** The reads until the deadline: whether the answer came. [None] when [fuel]
    reads were not enough. *)
Fixpoint await (fuel : nat) (service : string) (deadline : time) (request : bytes) (k : key) : P (option bool) :=
  match fuel with
  | O => ret None
  | S fuel' =>
      r <- Read env deadline request;;
      match r with
      | Datagram data =>
          if accepts (take buffer data) k then _ <- ready service;; ret (Some true)
          else
            t <- Now;;
            if negb (Before t deadline) then ret (Some false)
            else await fuel' service deadline request k
      | Expired => ret (Some false)
      | ReadErr =>
          stop <- ctx_Err env;;
          if (stop : bool) then ret (Some false)
          else t <- Now;; _ <- wait env (deadline - t);; ret (Some false)
      end
  end.

(** An attempt that failed before the request was sent. *)
Definition wait_out (probe : Probe.t) : P (option bool) :=
  _ <- wait env (Probe.Interval probe);; ret (Some false).

Definition probeOnce (fuel : nat) (probe : Probe.t) (cseq : Z) : P (option bool) :=
  ok <- call env (resolve_ok env);;
  if negb ok then wait_out probe
  else
    ok <- call env (dial_ok env);;
    if negb ok then wait_out probe
    else
      m <- build env (Probe.URI probe) cseq;;
      match m with
      | None => wait_out probe
      | Some (k, request) =>
          sent <- Now;;
          let deadline := sent + Probe.Interval probe in
          ok <- Write env;;
          if negb ok then t <- Now;; _ <- wait env (deadline - t);; ret (Some false)
          else await fuel (Probe.Service probe) deadline request k
      end.

(** [Some true]: the answer came; [Some false]: the context ended. *)
Fixpoint runProbe (fuel reads : nat) (probe : Probe.t) (cseq : Z) : P (option bool) :=
  match fuel with
  | O => ret None
  | S fuel' =>
      stop <- ctx_Err env;;
      if (stop : bool) then ret (Some false)
      else
        answered <- probeOnce reads probe cseq;;
        match answered with
        | None => ret None
        | Some true => ret (Some true)
        | Some false =>
            stop <- ctx_Err env;;
            if (stop : bool) then ret (Some false) else runProbe fuel' reads probe (cseq + 1)
        end
  end.
End Loop.

(** The three packages. *)
Definition sip_probeOnce := @probeOnce sip_protocol.
Definition sip_runProbe := @runProbe sip_protocol.
Definition dns_probeOnce := @probeOnce dns_protocol.
Definition dns_runProbe := @runProbe dns_protocol.
Definition agw_probeOnce := @probeOnce agw_protocol.
Definition agw_runProbe := @runProbe agw_protocol.

(** ** The prober

    Its mutex makes [Start], [Stop] and [finish] atomic. A loop runs in a
    goroutine of its own: [loops] holds the goroutines that have not ended, with
    whether their context is cancelled and whether they have called [ready].
    The receiver is never nil: the main program builds all three with [New]. *)

Module Loop.
Record t := mk { service : string; cancelled : bool; answered : bool }.
End Loop.

Module Prober.
Record t := mk {
  probes : gmap string Probe.t;
  running : gmap string Z;                     (* the id of the run of a service *)
  next : Z;
  loops : gmap Z Loop.t;
  closed : bool;                               (* the parent context is cancelled *)
}.
End Prober.

Definition NewProber (probes : list Probe.t) : Prober.t :=
  Prober.mk (foldl (λ m p, <[Probe.Service p := p]> m) ∅ probes) ∅ 0 ∅ false.

Definition Start (service : string) (p : Prober.t) : Prober.t :=
  match Prober.running p !! service with
  | Some _ => p
  | None =>
      match Prober.probes p !! service with
      | None => p
      | Some _ =>
          let id := u64 (Prober.next p + 1) in
          Prober.mk (Prober.probes p) (<[service := id]> (Prober.running p)) id
            (<[id := Loop.mk service (Prober.closed p) false]> (Prober.loops p)) (Prober.closed p)
      end
  end.

Definition cancel (l : Loop.t) : Loop.t := Loop.mk (Loop.service l) true (Loop.answered l).

(** The context is cancelled after the mutex is given up; nothing that starts or
    stops a probe runs in between, since only the monitor's goroutine does. *)
Definition Stop (service : string) (p : Prober.t) : Prober.t :=
  match Prober.running p !! service with
  | None => p
  | Some id =>
      Prober.mk (Prober.probes p) (delete service (Prober.running p)) (Prober.next p)
        (alter cancel id (Prober.loops p)) (Prober.closed p)
  end.

Definition finish (service : string) (id : Z) (p : Prober.t) : Prober.t :=
  if bool_decide (Prober.running p !! service = Some id)
  then Prober.mk (Prober.probes p) (delete service (Prober.running p)) (Prober.next p)
         (Prober.loops p) (Prober.closed p)
  else p.

(** A goroutine ends when its probe was answered or its context is cancelled;
    the deferred [finish] runs then. *)
Definition exit_loop (id : Z) (l : Loop.t) (p : Prober.t) : Prober.t :=
  let p' := finish (Loop.service l) id p in
  Prober.mk (Prober.probes p') (Prober.running p') (Prober.next p') (delete id (Prober.loops p')) (Prober.closed p').

(** The answer of a loop: the call of [ready]. *)
Definition answer_loop (id : Z) (l : Loop.t) (p : Prober.t) : Prober.t :=
  Prober.mk (Prober.probes p) (Prober.running p) (Prober.next p)
    (<[id := Loop.mk (Loop.service l) (Loop.cancelled l) true]> (Prober.loops p)) (Prober.closed p).

(** The packages dns and agw have the same prober, line by line. *)
Definition dns_New := NewProber.
Definition dns_Start := Start.
Definition dns_Stop := Stop.
Definition dns_finish := finish.
Definition dns_wait := wait.
Definition agw_New := NewProber.
Definition agw_Start := Start.
Definition agw_Stop := Stop.
Definition agw_finish := finish.
Definition agw_wait := wait.

Inductive prober_event := EvStart (s : string) | EvStop (s : string) | EvReady (s : string) | EvExit (id : Z) | EvShutdown.

Inductive pstep : Prober.t → prober_event → Prober.t → Prop :=
  | pstep_start p s : pstep p (EvStart s) (Start s p)
  | pstep_stop p s : pstep p (EvStop s) (Stop s p)
  | pstep_ready p id l :
      Prober.loops p !! id = Some l → Loop.answered l = false →
      pstep p (EvReady (Loop.service l)) (answer_loop id l p)
  | pstep_exit p id l :
      Prober.loops p !! id = Some l → Loop.answered l = true ∨ Loop.cancelled l = true →
      pstep p (EvExit id) (exit_loop id l p)
  | pstep_shutdown p :
      pstep p EvShutdown (Prober.mk (Prober.probes p) (Prober.running p) (Prober.next p)
                            (cancel <$> Prober.loops p) true).

Inductive psteps : Prober.t → list prober_event → Prober.t → Prop :=
  | psteps_nil p : psteps p [] p
  | psteps_cons p1 e p2 es p3 : pstep p1 e p2 → psteps p2 es p3 → psteps p1 (e :: es) p3.

(** ** Sample data *)

(** An environment in which everything works at once. *)
Definition sample_env (answer : bytes → bytes) : penv :=
  PEnv (λ _, true) (λ _, true) (λ _, Some ("10.12.12.10", 40000)) (λ _ len, Some (replicate len (byte 165))) 4711
    (λ _, true) (λ _ request, Datagram (answer request)) (λ _, 1000) None.
Definition sample_state0 : PState.t := PState.mk 1700000000000000000 0 0 [] [].
Definition sample_probe : Probe.t := Probe.mk "pcscf.service" "agw:10.10.12.12:7722" "10.10.12.12:7722" (500 * Millisecond).
