(* ===== verification/ProbeTheorems.v ===== *)
(** * ProbeTheorems: the readiness probes

    Requests are an interval apart, a loop reports at most one answer, a reachable target ends the wait, requests are
    not mistaken for answers, and a prober runs one loop per service. *)

From S2P Require Import Prelude GoTime GoStrings Model Json GoOS GoText GoNet Probe.

(** ** Calls that report nothing *)

(** Time and the number of calls do not go back, nothing is sent and [ready] is
    not called. *)
Definition calm (st st' : PState.t) : Prop :=
  PState.now st <= PState.now st' ∧ (PState.steps st <= PState.steps st')%nat ∧
  PState.readied st' = PState.readied st ∧ PState.sent st' = PState.sent st.

#[export] Instance calm_preorder : PreOrder calm.
Proof.
  split; unfold calm; [by intros st|]. intros a b c (? & ? & ? & ?) (? & ? & ? & ?). split_and!; [lia..|congruence|congruence].
Qed.

Section Calls.
Context (env : penv).

Lemma call_calm {A} (f : nat → A) st a st' : call env f st = (a, st') → calm st st' ∧ a = f (PState.steps st) ∧
  PState.steps st' = S (PState.steps st) ∧ PState.now st' = PState.now st + took env st.
Proof. unfold call, calm, took. intros [= <- <-]. simpl. split_and!; try done; lia. Qed.

Lemma wait_calm d st a st' :
  wait env d st = (a, st') → calm st st' ∧ (ctx_done env st' = true ∨ PState.now st + d <= PState.now st').
Proof.
  unfold wait. destruct (Z.leb_spec d 0); intros [= <- <-]; [split; [done|right; lia]|].
  unfold calm, ctx_done, took. simpl. destruct (done_at env) as [t|]; split_and!; try done; try lia.
Qed.

Lemma Read_calm deadline request st r st' :
  Read env deadline request st = (r, st') →
  calm st st' ∧ PState.steps st' = S (PState.steps st) ∧
  match r with
  | Expired => deadline <= PState.now st'
  | Datagram data =>
      PState.now st < deadline ∧ PState.now st' = PState.now st + took env st ∧
      read_from env (PState.steps st) request = Datagram data
  | ReadErr => True
  end.
Proof.
  unfold Read, calm, took. intros H. repeat case_match; simplify_eq/=; destruct_bools; split_and!; try done; lia.
Qed.

Lemma ready_spec service st a st' :
  ready service st = (a, st') →
  PState.now st' = PState.now st ∧ PState.steps st' = PState.steps st ∧
  PState.readied st' = PState.readied st ++ [(service, PState.now st)] ∧ PState.sent st' = PState.sent st.
Proof. by intros [= <- <-]. Qed.

Lemma Write_spec st a st' :
  Write env st = (a, st') →
  PState.now st <= PState.now st' ∧ PState.steps st' = S (PState.steps st) ∧
  PState.readied st' = PState.readied st ∧ PState.sent st' = PState.sent st ++ [PState.now st] ∧
  a = write_ok env (PState.steps st) ∧ PState.now st' = PState.now st + took env st.
Proof. unfold Write, call, took. intros [= <- <-]. simpl. split_and!; try done; lia. Qed.
End Calls.

(** What the loop relies on: building a request reports nothing. *)
Class QuietProtocol (Pr : Protocol) : Prop :=
  build_calm env uri cseq st r st' : build env uri cseq st = (r, st') → calm st st'.

Lemma token_calm env st r st' : token env st = (r, st') → calm st st'.
Proof.
  unfold token. intros H. bind_inv H as a s1 Ha. apply call_calm in Ha as [Ha _]. unfold ret in H. by simplify_eq.
Qed.

Lemma Options_calm env uri host port cseq st r st' :
  Options env uri host port cseq st = (r, st') → calm st st'.
Proof.
  unfold Options. intros H. bind_inv H as a s1 Ha. apply token_calm in Ha.
  destruct a; [|by unfold ret in H; simplify_eq]. bind_inv H as b s2 Hb. apply token_calm in Hb.
  destruct b; [|unfold ret in H; simplify_eq; by etrans]. bind_inv H as c s3 Hc. apply token_calm in Hc.
  assert (calm st s3) by (etrans; [exact Ha|by etrans]).
  destruct c; unfold ret in H; by simplify_eq.
Qed.

#[export] Instance sip_quiet : QuietProtocol sip_protocol.
Proof.
  intros env uri cseq st r st' H. simpl in H. bind_inv H as a s1 Ha. apply call_calm in Ha as [Ha _].
  destruct a as [[ip port]|]; [|unfold ret in H; by simplify_eq].
  bind_inv H as m s2 Hm. apply Options_calm in Hm. unfold ret in H. simplify_eq. by etrans.
Qed.

#[export] Instance dns_quiet : QuietProtocol dns_protocol.
Proof.
  intros env uri cseq st r st' H. simpl in H. unfold Query in H. bind_inv H as a s1 Ha.
  apply call_calm in Ha as [Ha _]. unfold ret in H. by simplify_eq.
Qed.

#[export] Instance agw_quiet : QuietProtocol agw_protocol.
Proof. intros env uri cseq st r st' H. simpl in H. unfold Ping, bind, ret in H. by simplify_eq. Qed.

(** ** One attempt *)

(** What happens while an attempt runs: at most one request is sent, after which
    the attempt lasts its interval unless it is answered, its context ends or,
    with [r = None], it has not ended. *)
Definition outcome (env : penv) (service : string) (interval : Duration) (st : PState.t) (r : option bool) (st' : PState.t) : Prop :=
  PState.now st <= PState.now st' ∧ (PState.steps st <= PState.steps st')%nat ∧
  (∃ ts, PState.sent st' = PState.sent st ++ ts ∧ (length ts <= 1)%nat ∧ Forall (λ t, PState.now st <= t) ts ∧
     (r = Some false → ctx_done env st' = true ∨ Forall (λ t, t + interval <= PState.now st') ts)) ∧
  match r with
  | Some true => ∃ t, PState.readied st' = PState.readied st ++ [(service, t)] ∧ PState.now st <= t <= PState.now st'
  | _ => PState.readied st' = PState.readied st
  end.

Section Attempt.
Context {Pr : Protocol} {HPr : QuietProtocol Pr} (env : penv).

(** How the reads after a request end. *)
Definition awaited (service : string) (deadline : time) (st : PState.t) (r : option bool) (st' : PState.t) : Prop :=
  PState.now st <= PState.now st' ∧ (PState.steps st <= PState.steps st')%nat ∧ PState.sent st' = PState.sent st ∧
  (r = Some false → ctx_done env st' = true ∨ deadline <= PState.now st') ∧
  match r with
  | Some true => ∃ t, PState.readied st' = PState.readied st ++ [(service, t)] ∧ PState.now st <= t <= PState.now st'
  | _ => PState.readied st' = PState.readied st
  end.

Lemma awaited_calm service deadline st st1 r st' :
  calm st st1 → awaited service deadline st1 r st' → awaited service deadline st r st'.
Proof.
  intros (? & ? & Hr & Hs) (? & ? & Hs' & ? & Hm). split_and!; [lia|lia|congruence|done|].
  destruct r as [[]|]; [|congruence..]. destruct Hm as (t & Ht & ?). exists t. rewrite Ht, Hr. split; [done|lia].
Qed.

Lemma calm_awaited service deadline st r st' :
  calm st st' → r ≠ Some true → (r = Some false → ctx_done env st' = true ∨ deadline <= PState.now st') →
  awaited service deadline st r st'.
Proof. intros (? & ? & ? & ?) Hr ?. split_and!; try done. by destruct r as [[]|]. Qed.

Lemma await_outcome fuel service deadline request k : ∀ st r st',
  await env fuel service deadline request k st = (r, st') → awaited service deadline st r st'.
Proof.
  induction fuel as [|fuel IH]; intros st r st' H; [injection H as <- <-; by apply calm_awaited|]. cbn [await] in H.
  bind_inv H as r1 s1 Hr. apply Read_calm in Hr as (Hc & _ & Hr). eapply awaited_calm; [exact Hc|].
  destruct r1 as [data| |].
  - destruct (accepts _ k).
    + bind_inv H as u s2 Hu. apply ready_spec in Hu as (Hn & Hs & Hu & Hse).
      unfold ret in H. simplify_eq. split_and!; [lia..|done|done|]. exists (PState.now s1). rewrite Hn. split; [done|lia].
    + bind_inv H as t s2 Ht. unfold Now in Ht. simplify_eq. unfold Before in H.
      destruct (Z.ltb_spec (PState.now s2) deadline); simpl in H; [by apply IH|].
      unfold ret in H. simplify_eq. apply calm_awaited; [done|done|by right].
  - bind_inv H as stop s2 Hs. unfold ctx_Err in Hs. simplify_eq.
    destruct (ctx_done env s2) eqn:Hd; [unfold ret in H; simplify_eq; apply calm_awaited; [done|done|by left]|].
    bind_inv H as t s3 Ht. unfold Now in Ht. simplify_eq. bind_inv H as u s4 Hw. apply wait_calm in Hw as [Hc' Hw].
    unfold ret in H. simplify_eq. apply calm_awaited; [done|done|]. intros _. destruct Hw; [by left|right; lia].
  - unfold ret in H. simplify_eq. apply calm_awaited; [done|done|by right].
Qed.

(** An attempt that sends nothing. *)
Lemma silent_outcome service interval st st' : calm st st' → outcome env service interval st (Some false) st'.
Proof.
  intros (? & ? & ? & Hs). split_and!; try done. exists []. rewrite app_nil_r. split_and!; [done|simpl; lia|constructor|].
  right. constructor.
Qed.
Lemma wait_out_calm probe st r st' : wait_out env probe st = (r, st') → r = Some false ∧ calm st st'.
Proof. unfold wait_out. intros H. bind_inv H as u s1 Hw. apply wait_calm in Hw as [Hc _]. by injection H as <- <-. Qed.

Lemma probeOnce_outcome fuel probe cseq st r st' :
  probeOnce env fuel probe cseq st = (r, st') →
  outcome env (Probe.Service probe) (Probe.Interval probe) st r st' ∧ (PState.steps st < PState.steps st')%nat.
Proof.
  assert (∀ s1, calm st s1 → (PState.steps st < PState.steps s1)%nat → wait_out env probe s1 = (r, st') →
    outcome env (Probe.Service probe) (Probe.Interval probe) st r st' ∧ (PState.steps st < PState.steps st')%nat) as Hout.
  { intros s1 Hc Hs (-> & Hc')%wait_out_calm. split; [apply silent_outcome; by etrans|]. destruct Hc' as (_ & ? & _). lia. }
  unfold probeOnce. intros H. bind_inv H as ok1 s1 H1. apply call_calm in H1 as (H1 & _ & Hs1 & _).
  destruct ok1; cbn [negb] in H; [|by eapply Hout; [exact H1|lia|exact H]].
  bind_inv H as ok2 s2 H2. apply call_calm in H2 as (H2 & _ & Hs2 & _).
  assert (calm st s2) as Hc2 by (by etrans).
  destruct ok2; cbn [negb] in H; [|by eapply Hout; [exact Hc2|lia|exact H]].
  bind_inv H as m s3 H3. apply build_calm in H3.
  assert (calm st s3) as Hc3 by (by etrans). assert (PState.steps s2 <= PState.steps s3)%nat by (by destruct H3 as (_ & ? & _)).
  destruct m as [[k request]|]; [|by eapply Hout; [exact Hc3|lia|exact H]].
  bind_inv H as sent s4 H4. unfold Now in H4. injection H4 as <- <-. bind_inv H as ok3 s5 H5.
  apply Write_spec in H5 as (Hn5 & Hs5 & Hr5 & Hse5 & _ & _). destruct Hc3 as (Hn3 & Hs3 & Hr3 & Hse3).
  assert (awaited (Probe.Service probe) (PState.now s3 + Probe.Interval probe) s5 r st') as (Hna & Hsa & Hsea & Hfa & Ha).
  { destruct ok3; cbn [negb] in H; [by eapply await_outcome|].
    bind_inv H as t s6 H6. injection H6 as <- <-. bind_inv H as u s7 H7.
    apply wait_calm in H7 as [H7 Hw]. injection H as <- <-. apply calm_awaited; [done|done|]. intros _.
    destruct Hw; [by left|right; lia]. }
  split; [|lia]. split_and!; [lia|lia| |].
  - exists [PState.now s3]. rewrite Hsea, Hse5, Hse3. split_and!; [done|simpl; lia|by apply Forall_singleton|].
    intros Hf. destruct (Hfa Hf); [by left|right; by apply Forall_singleton].
  - destruct r as [[]|]; [|congruence..]. destruct Ha as (t & Ht & ?). exists t. rewrite Ht, Hr5, Hr3. split; [done|lia].
Qed.

(** ** The loop *)

(** Times at least [d] apart. *)
Fixpoint spaced (d : Z) (ts : list time) : Prop :=
  match ts with
  | t1 :: (t2 :: _) as ts' => t1 + d <= t2 ∧ spaced d ts'
  | _ => True
  end.

Lemma spaced_app d ts1 ts2 n :
  (length ts1 <= 1)%nat → Forall (λ t, t + d <= n) ts1 → Forall (λ t, n <= t) ts2 → spaced d ts2 → spaced d (ts1 ++ ts2).
Proof.
  intros Hl H1 H2 Hs. destruct ts1 as [|t1 [|? ?]]; [done| |simpl in Hl; lia]. destruct ts2 as [|t2 ts2]; [done|].
  inv H1. inv H2. split; [lia|done].
Qed.

Lemma runProbe_outcome fuel reads probe : ∀ cseq st r st',
  runProbe env fuel reads probe cseq st = (r, st') →
  PState.now st <= PState.now st' ∧
  (∃ ts, PState.sent st' = PState.sent st ++ ts ∧ Forall (λ t, PState.now st <= t) ts ∧
     spaced (Probe.Interval probe) ts) ∧
  match r with
  | Some true => ∃ t, PState.readied st' = PState.readied st ++ [(Probe.Service probe, t)] ∧ PState.now st <= t <= PState.now st'
  | Some false => PState.readied st' = PState.readied st ∧ ctx_done env st' = true
  | None => PState.readied st' = PState.readied st
  end.
Proof.
  assert (∀ st : PState.t, ∃ ts, PState.sent st = PState.sent st ++ ts ∧ Forall (λ t, PState.now st <= t) ts ∧
    spaced (Probe.Interval probe) ts) as Hnil.
  { intros st. exists []. rewrite app_nil_r. by split_and!. }
  induction fuel as [|fuel IH]; intros cseq st r st' H; [injection H as <- <-; by split_and!|]. cbn [runProbe] in H.
  bind_inv H as stop s1 Hs. unfold ctx_Err in Hs. injection Hs as <- <-.
  destruct (ctx_done env st) eqn:Hd; [injection H as <- <-; by split_and!|].
  bind_inv H as ans s2 Ha. apply probeOnce_outcome in Ha as [(Hn & _ & (ts & Hts & Hl & Hge & Hfa) & Ha) _].
  assert (spaced (Probe.Interval probe) ts) as Hsp by (destruct ts as [|? [|? ?]]; simpl in *; [done..|lia]).
  destruct ans as [[]|]; [injection H as <- <-; (split; [done|split; [by exists ts|done]]) | |injection H as <- <-; (split; [done|split; [by exists ts|done]])].
  bind_inv H as stop s3 Hs. unfold ctx_Err in Hs. injection Hs as <- <-.
  destruct (ctx_done env s2) eqn:Hd3; [injection H as <- <-; (split; [done|split; [by exists ts|done]])|].
  destruct (Hfa eq_refl) as [?|Hlate]; [congruence|].
  apply IH in H as (Hn' & (ts' & Hts' & Hge' & Hsp') & H). split_and!; [lia| |].
  - exists (ts ++ ts'). rewrite Hts', Hts, app_assoc. split_and!; [done| |by eapply spaced_app].
    apply Forall_app. split; [done|]. eapply Forall_impl; [exact Hge'|]. simpl. lia.
  - destruct r as [[]|]; rewrite Ha in H; [|done..]. destruct H as (t & ? & ?). exists t. split; [done|lia].
Qed.

(** ** A target that answers *)

(** From the [N]-th call on nothing fails, every call is quick, and every read
    yields an answer to the request that was sent; the context is not
    cancelled. *)
Definition responsive (probe : Probe.t) (N : nat) : Prop :=
  done_at env = None ∧
  (∀ n, (N <= n)%nat → resolve_ok env n = true ∧ dial_ok env n = true ∧ write_ok env n = true ∧
     elapsed env n < Probe.Interval probe) ∧
  (∀ cseq st, (N <= PState.steps st)%nat → ∃ k request st', build env (Probe.URI probe) cseq st = (Some (k, request), st')) ∧
  (∀ cseq st k request st' n, build env (Probe.URI probe) cseq st = (Some (k, request), st') → (N <= n)%nat →
     ∃ data, read_from env n request = Datagram data ∧ accepts (take buffer data) k = true).

Lemma bind_run {S A B} (m : M S A) (f : A → M S B) s a s' :
  m s = (a, s') → bind m f s = f a s'.
Proof. unfold bind. by intros ->. Qed.

Section Answering.
Context (probe : Probe.t) (N : nat) (Hresp : responsive probe N) (Hint : 0 < Probe.Interval probe).

Lemma await_ends service deadline cseq st0 k request st1 :
  build env (Probe.URI probe) cseq st0 = (Some (k, request), st1) →
  ∀ fuel st, (0 < fuel)%nat → (N < fuel + PState.steps st)%nat →
  ∃ b st', await env fuel service deadline request k st = (Some b, st').
Proof.
  destruct Hresp as (_ & _ & _ & Hans). intros Hb. induction fuel as [|fuel IH]; intros st Hf HN; [lia|].
  cbn [await]. destruct (Read env deadline request st) as [r s1] eqn:Hr. rewrite (bind_run _ _ _ _ _ Hr).
  apply Read_calm in Hr as (_ & Hs & Hr). destruct r as [data| |].
  - destruct Hr as (_ & _ & Hd). destruct (accepts _ k) eqn:Hacc; [by eexists _, _|].
    unfold bind, Now. destruct (Before _ _); simpl; [|by eexists _, _].
    assert (PState.steps st < N)%nat.
    { destruct (Nat.lt_ge_cases (PState.steps st) N) as [|Hge]; [done|].
      destruct (Hans _ _ _ _ _ (PState.steps st) Hb Hge) as (d & Hd' & Ha). rewrite Hd in Hd'. simplify_eq.
      by rewrite Hacc in Ha. }
    apply IH; lia.
  - unfold bind, ctx_Err. destruct (ctx_done env s1); [by eexists _, _|]. unfold Now.
    destruct (wait env _ s1) as [u s2]. by eexists _, _.
  - by eexists _, _.
Qed.

Lemma await_answers service deadline cseq st0 k request st1 fuel st :
  build env (Probe.URI probe) cseq st0 = (Some (k, request), st1) → (0 < fuel)%nat →
  (N <= PState.steps st)%nat → PState.now st < deadline →
  ∃ st', await env fuel service deadline request k st = (Some true, st').
Proof.
  destruct Hresp as (_ & _ & _ & Hans). intros Hb Hf HN Hn. destruct fuel as [|fuel]; [lia|]. cbn [await].
  destruct (Hans _ _ _ _ _ (PState.steps st) Hb HN) as (d & Hd & Ha).
  unfold bind at 1, Read. rewrite Hd, (proj2 (Z.ltb_lt _ _) Hn), Ha. by eexists.
Qed.

Lemma probeOnce_ends fuel cseq st :
  (N < fuel)%nat → ∃ b st', probeOnce env fuel probe cseq st = (Some b, st') ∧
    ((N <= PState.steps st)%nat → b = true).
Proof.
  destruct Hresp as (Hdone & Hok & Hbuild & Hans). intros Hf. unfold probeOnce.
  assert (∀ s, ∃ st', wait_out env probe s = (Some false, st')) as Hwait.
  { intros s. unfold wait_out, bind. destruct (wait env _ s). by eexists. }
  destruct (call env (resolve_ok env) st) as [ok1 s1] eqn:H1. rewrite (bind_run _ _ _ _ _ H1).
  apply call_calm in H1 as (_ & -> & Hs1 & _).
  destruct (resolve_ok env _) eqn:Hr; cbn [negb].
  2:{ destruct (Hwait s1) as [st' Hw]. exists false, st'. split; [done|]. intros HN.
      destruct (Hok _ HN) as [Hr' _]. congruence. }
  destruct (call env (dial_ok env) s1) as [ok2 s2] eqn:H2. rewrite (bind_run _ _ _ _ _ H2).
  apply call_calm in H2 as (_ & -> & Hs2 & _).
  destruct (dial_ok env _) eqn:Hd; cbn [negb].
  2:{ destruct (Hwait s2) as [st' Hw]. exists false, st'. split; [done|]. intros HN.
      destruct (Hok (PState.steps s1)) as (_ & Hd' & _); [lia|congruence]. }
  destruct (build env (Probe.URI probe) cseq s2) as [m s3] eqn:H3. rewrite (bind_run _ _ _ _ _ H3).
  pose proof (build_calm _ _ _ _ _ _ H3) as (_ & Hs3 & _).
  destruct m as [[k request]|].
  2:{ destruct (Hwait s3) as [st' Hw]. exists false, st'. split; [done|]. intros HN.
      destruct (Hbuild cseq s2) as (? & ? & ? & Hb); [lia|congruence]. }
  unfold bind at 1, Now at 1.
  destruct (Write env s3) as [ok3 s4] eqn:H4. rewrite (bind_run _ _ _ _ _ H4).
  apply Write_spec in H4 as (_ & Hs4 & _ & _ & -> & Hn4).
  destruct (write_ok env _) eqn:Hw; cbn [negb].
  2:{ unfold bind, Now. destruct (wait env _ s4) as [u s5]. exists false, s5. split; [done|]. intros HN.
      destruct (Hok (PState.steps s3)) as (_ & _ & Hw' & _); [lia|congruence]. }
  destruct (Nat.le_gt_cases N (PState.steps st)) as [HN|HN].
  - destruct (await_answers (Probe.Service probe) (PState.now s3 + Probe.Interval probe) _ _ _ _ _ fuel s4 H3)
      as [st' Ha]; [lia..| |by exists true, st'].
    destruct (Hok (PState.steps s3)) as (_ & _ & _ & He); [lia|]. rewrite Hn4. unfold took. lia.
  - destruct (await_ends (Probe.Service probe) (PState.now s3 + Probe.Interval probe) _ _ _ _ _ H3 fuel s4)
      as (b & st' & Ha); [lia..|]. exists b, st'. split; [done|lia].
Qed.

Lemma runProbe_ends reads : (N < reads)%nat → ∀ fuel cseq st,
  (0 < fuel)%nat → (N < fuel + PState.steps st)%nat →
  ∃ st', runProbe env fuel reads probe cseq st = (Some true, st').
Proof.
  intros Hreads. induction fuel as [|fuel IH]; intros cseq st Hf HN; [lia|]. cbn [runProbe].
  assert (∀ s, ctx_done env s = false) as Hctx. { intros s. unfold ctx_done. by rewrite (proj1 Hresp). }
  unfold bind at 1, ctx_Err at 1. rewrite Hctx.
  destruct (probeOnce_ends reads cseq st Hreads) as (b & s1 & Ha & Hb). rewrite (bind_run _ _ _ _ _ Ha).
  apply probeOnce_outcome in Ha as [_ Hs]. destruct b; [by eexists|].
  unfold bind, ctx_Err. rewrite Hctx. apply IH; [|lia].
  destruct (Nat.le_gt_cases N (PState.steps st)); [|lia]. by specialize (Hb H).
Qed.
End Answering.
End Attempt.

(** ** The prober *)

Record prober_wf (p : Prober.t) (n : Z) : Prop := {
  next_range : 0 <= Prober.next p <= n;
  running_live : ∀ s id, Prober.running p !! s = Some id →
    ∃ l, Prober.loops p !! id = Some l ∧ Loop.service l = s ∧ Loop.cancelled l = Prober.closed p;
  loop_known : ∀ id l, Prober.loops p !! id = Some l →
    0 < id <= Prober.next p ∧ (Loop.cancelled l = false → Prober.running p !! Loop.service l = Some id);
}.

Lemma Start_wf s p n : n + 1 < 2 ^ 64 → prober_wf p n → prober_wf (Start s p) (n + 1).
Proof.
  intros Hn [Hnext Hrun Hloop]. unfold Start.
  destruct (Prober.running p !! s) as [id|] eqn:Hs; [split; try done; lia|].
  destruct (Prober.probes p !! s) as [pr|]; [|split; try done; lia].
  rewrite u64_small by (unfold in_u64; lia). split; simpl; [lia| |].
  - intros s' id Hid. destruct (decide (s' = s)) as [->|Hne].
    + rewrite lookup_insert_eq in Hid. simplify_eq. eexists. by rewrite lookup_insert_eq.
    + rewrite lookup_insert_ne in Hid by done. destruct (Hrun _ _ Hid) as (l & Hl & ? & ?).
      exists l. rewrite lookup_insert_ne; [done|]. destruct (Hloop _ _ Hl). lia.
  - intros id l Hl. destruct (decide (id = Prober.next p + 1)) as [->|Hne].
    + rewrite lookup_insert_eq in Hl. simplify_eq. split; [lia|]. intros _. by rewrite lookup_insert_eq.
    + rewrite lookup_insert_ne in Hl by done. destruct (Hloop _ _ Hl) as [? Hc]. split; [lia|]. intros Hcan.
      specialize (Hc Hcan). rewrite lookup_insert_ne; [done|]. intros ->. by rewrite Hs in Hc.
Qed.

Lemma Stop_wf s p n : prober_wf p n → prober_wf (Stop s p) n.
Proof.
  intros [Hnext Hrun Hloop]. unfold Stop. destruct (Prober.running p !! s) as [id|] eqn:Hs; [|done].
  destruct (Hrun _ _ Hs) as (l & Hl & Hls & Hlc). split; simpl; [done| |].
  - intros s' id' Hid. apply lookup_delete_Some in Hid as [Hne Hid]. destruct (Hrun _ _ Hid) as (l' & Hl' & ? & ?).
    exists l'. rewrite lookup_alter_ne; [done|]. intros ->. simplify_eq.
  - intros id' l' Hl'. destruct (decide (id' = id)) as [->|Hne].
    + rewrite lookup_alter_eq, Hl in Hl'. simplify_eq/=. split; [by apply (Hloop _ _ Hl)|done].
    + rewrite lookup_alter_ne in Hl' by done. destruct (Hloop _ _ Hl') as [? Hc]. split; [done|]. intros Hcan.
      specialize (Hc Hcan). rewrite lookup_delete_ne; [done|]. intros Heq. rewrite Heq in *. simplify_eq.
Qed.

Lemma answer_wf id l p n : Prober.loops p !! id = Some l → prober_wf p n → prober_wf (answer_loop id l p) n.
Proof.
  intros Hl [Hnext Hrun Hloop]. split; simpl; [done| |].
  - intros s id' Hid. destruct (Hrun _ _ Hid) as (l' & Hl' & ? & ?). destruct (decide (id' = id)) as [->|].
    + eexists. rewrite lookup_insert_eq. by simplify_eq/=.
    + exists l'. by rewrite lookup_insert_ne.
  - intros id' l' Hl'. destruct (decide (id' = id)) as [->|].
    + rewrite lookup_insert_eq in Hl'. simplify_eq/=. by apply Hloop.
    + rewrite lookup_insert_ne in Hl' by done. by apply Hloop.
Qed.

Lemma exit_wf id l p n : Prober.loops p !! id = Some l → prober_wf p n → prober_wf (exit_loop id l p) n.
Proof.
  intros Hl [Hnext Hrun Hloop]. unfold exit_loop, finish.
  assert (∀ s id', Prober.running p !! s = Some id' → id' = id → s = Loop.service l) as Hsame.
  { intros s id' Hid ->. destruct (Hrun _ _ Hid) as (l' & ? & <- & _). by simplify_eq. }
  case_bool_decide as Hcur; split; simpl; try done.
  - intros s id' Hid. apply lookup_delete_Some in Hid as [Hne Hid]. destruct (Hrun _ _ Hid) as (l' & ? & ? & ?).
    exists l'. rewrite lookup_delete_ne; [done|]. intros ->. by apply Hne; symmetry; eapply Hsame.
  - intros id' l' [Hne Hl']%lookup_delete_Some. destruct (Hloop _ _ Hl') as [? Hc]. split; [done|]. intros Hcan.
    specialize (Hc Hcan). rewrite lookup_delete_ne; [done|]. intros Heq. rewrite <-Heq in Hc. by rewrite Hcur in Hc; simplify_eq.
  - intros s id' Hid. destruct (Hrun _ _ Hid) as (l' & ? & ? & ?). exists l'. rewrite lookup_delete_ne; [done|].
    intros ->. apply Hcur. by rewrite <-(Hsame _ _ Hid eq_refl).
  - intros id' l' [Hne Hl']%lookup_delete_Some. by apply Hloop.
Qed.

Lemma pstep_wf p e p' n : n + 1 < 2 ^ 64 → pstep p e p' → prober_wf p n → prober_wf p' (n + 1).
Proof.
  intros Hn Hstep Hwf.
  assert (∀ q, prober_wf q n → prober_wf q (n + 1)) as Hup. { intros q [? ? ?]. split; try done; lia. }
  destruct Hstep.
  - by apply Start_wf.
  - by apply Hup, Stop_wf.
  - by apply Hup, answer_wf.
  - by apply Hup, exit_wf.
  - apply Hup. destruct Hwf as [Hnext Hrun Hloop]. split; simpl; [done| |].
    + intros s id Hid. destruct (Hrun _ _ Hid) as (l & Hl & ? & ?). exists (cancel l).
      by rewrite lookup_fmap, Hl.
    + intros id l Hl. rewrite lookup_fmap in Hl. apply fmap_Some in Hl as (l' & Hl' & ->).
      split; [|done]. by apply (Hloop _ _ Hl').
Qed.

Lemma psteps_wf p es p' : psteps p es p' → ∀ n, n + #es < 2 ^ 64 → prober_wf p n → prober_wf p' (n + #es).
Proof.
  induction 1 as [p|p1 e p2 es p3 H1 H2 IH]; intros n Hn Hwf; simpl in *; [by rewrite Z.add_0_r|].
  replace (n + Z.of_nat (S (length es))) with (n + 1 + #es) by lia.
  apply IH; [lia|]. eapply pstep_wf; [lia|done..].
Qed.

Lemma NewProber_wf probes : prober_wf (NewProber probes) 0.
Proof. by split; simpl; [lia|intros s id Hid; rewrite lookup_empty in Hid|intros id l Hl; rewrite lookup_empty in Hl]. Qed.

Module ProbeClaims.
(** C16: In any number of rounds of any of the three probe loops, whatever the
    network does and however long its calls take, the moments at which
    requests are handed to the socket are at least the configured interval
    apart. *)
Theorem requests_are_an_interval_apart (Pr : Protocol) (HPr : QuietProtocol Pr) env fuel reads probe cseq st r st' :
  runProbe env fuel reads probe cseq st = (r, st') →
  ∃ ts, PState.sent st' = PState.sent st ++ ts ∧
    ∀ i t1 t2, ts !! i = Some t1 → ts !! S i = Some t2 → t1 + Probe.Interval probe <= t2.
Proof.
  intros (_ & (ts & Hts & _ & Hsp) & _)%runProbe_outcome. exists ts. split; [done|].
  clear Hts. induction ts as [|t ts IH]; intros i t1 t2 H1 H2; [done|]. destruct ts as [|t' ts]; [by destruct i|].
  destruct Hsp as [? Hsp]. destruct i as [|i]; [by simplify_eq/=|]. by eapply IH.
Qed.

(** A probe loop that ends after an answer has reported exactly one, at a time
    within its run; a loop that ends without one has reported nothing and its
    context is cancelled. *)
Theorem probe_reports_at_most_one_answer (Pr : Protocol) (HPr : QuietProtocol Pr) env fuel reads probe cseq st b st' :
  runProbe env fuel reads probe cseq st = (Some b, st') →
  if b then
    ∃ t, PState.readied st' = PState.readied st ++ [(Probe.Service probe, t)] ∧
      PState.now st <= t <= PState.now st'
  else PState.readied st' = PState.readied st ∧ ctx_done env st' = true.
Proof. intros (_ & _ & H)%runProbe_outcome. by destruct b. Qed.

(** C17: If from the N-th call on every call succeeds within the interval and
    every read yields the answer to the request, and the context is not
    cancelled, the probe loop ends with an answer after at most N + 1 rounds.
    *)
Theorem reachable_target_ends_the_wait (Pr : Protocol) (HPr : QuietProtocol Pr) env probe N cseq st :
  responsive env probe N → 0 < Probe.Interval probe →
  ∃ t st', runProbe env (S N) (S N) probe cseq st = (Some true, st') ∧
    PState.readied st' = PState.readied st ++ [(Probe.Service probe, t)] ∧ PState.now st <= t.
Proof.
  intros Hr Hi. destruct (runProbe_ends env probe N Hr Hi (S N) ltac:(lia) (S N) cseq st) as [st' H]; [lia..|].
  pose proof (runProbe_outcome env _ _ _ _ _ _ _ H) as (_ & _ & t & ? & ?). exists t, st'. split_and!; try done. lia.
Qed.

(** C14: After any sequence of starts, stops, answers, exits and a shutdown, a
    service has at most one probe goroutine whose context is not cancelled;
    starting a configured service leaves one running, and stopping a service
    leaves none. *)
Theorem one_live_loop_per_service probes es p :
  psteps (NewProber probes) es p → #es < 2 ^ 64 →
  (∀ id1 id2 l1 l2, Prober.loops p !! id1 = Some l1 → Prober.loops p !! id2 = Some l2 →
     Loop.cancelled l1 = false → Loop.cancelled l2 = false → Loop.service l1 = Loop.service l2 → id1 = id2) ∧
  (∀ s, is_Some (Prober.probes p !! s) → Prober.closed p = false →
     ∃ id l, Prober.loops (Start s p) !! id = Some l ∧ Loop.service l = s ∧ Loop.cancelled l = false) ∧
  (∀ s id l, Prober.loops (Stop s p) !! id = Some l → Loop.service l = s → Loop.cancelled l = true).
Proof.
  intros Hsteps Hlen. pose proof (psteps_wf _ _ _ Hsteps 0 ltac:(lia) (NewProber_wf probes)) as [Hnext Hrun Hloop].
  split_and!.
  - intros id1 id2 l1 l2 H1 H2 Hc1 Hc2 Hs. destruct (Hloop _ _ H1) as [_ Hr1]. destruct (Hloop _ _ H2) as [_ Hr2].
    specialize (Hr1 Hc1). specialize (Hr2 Hc2). rewrite Hs in Hr1. congruence.
  - intros s [pr Hpr] Hclosed. unfold Start. destruct (Prober.running p !! s) as [id|] eqn:Hid.
    + destruct (Hrun _ _ Hid) as (l & ? & ? & Hc). exists id, l. by rewrite Hc.
    + rewrite Hpr. eexists _, _. simpl. by rewrite lookup_insert_eq.
  - intros s id l Hl Hs. unfold Stop in Hl. destruct (Prober.running p !! s) as [id0|] eqn:Hid.
    + simpl in Hl. destruct (decide (id = id0)) as [->|Hne].
      * rewrite lookup_alter_eq in Hl. apply fmap_Some in Hl as (l' & _ & ->). done.
      * rewrite lookup_alter_ne in Hl by done. destruct (Hloop _ _ Hl) as [_ Hr].
        destruct (Loop.cancelled l); [done|]. specialize (Hr eq_refl). rewrite Hs, Hid in Hr. by simplify_eq.
    + destruct (Hloop _ _ Hl) as [_ Hr]. destruct (Loop.cancelled l); [done|].
      specialize (Hr eq_refl). by rewrite Hs, Hid in Hr.
Qed.

(** Witnesses: an AGW that answers every ping. *)
Definition agw_echo (request : bytes) : bytes :=
  let '(tok, _, _) := Cut request " "%char in tok ++ to_bytes (" " +:+ agw_result).

(** The first ping is lost, the second answered. *)
Definition lossy_env : penv :=
  let e := sample_env agw_echo in
  PEnv (resolve_ok e) (dial_ok e) (local_addr e) (rand_Read e) (pid e) (write_ok e)
    (λ n request, if (n <? 4)%nat then Expired else read_from e n request) (elapsed e) (done_at e).
Lemma requests_are_an_interval_apart_witness :
  let st' := (agw_runProbe lossy_env 2 1 sample_probe 1 sample_state0).2 in
  ∃ ts, PState.sent st' = [] ++ ts ∧ length ts = 2%nat ∧
    ∀ i t1 t2, ts !! i = Some t1 → ts !! S i = Some t2 → t1 + 500 * Millisecond <= t2.
Proof.
  destruct (requests_are_an_interval_apart agw_protocol agw_quiet lossy_env 2 1 sample_probe 1 sample_state0
    (agw_runProbe lossy_env 2 1 sample_probe 1 sample_state0).1 (agw_runProbe lossy_env 2 1 sample_probe 1 sample_state0).2)
    as (ts & Hts & Hsp); [apply surjective_pairing|].
  exists ts. split_and!; [exact Hts| |exact Hsp]. apply (f_equal length) in Hts. rewrite length_app in Hts.
  vm_compute in Hts. exact (eq_sym Hts).
Defined.

(** A name server that sets the response bit of every query. *)
Definition dns_echo (request : bytes) : bytes := take 2 request ++ chr 128 :: drop 3 request.

Lemma reachable_target_ends_the_wait_witness :
  ∃ t st', dns_runProbe (sample_env dns_echo) 1 1 sample_probe 1 sample_state0 = (Some true, st') ∧
    PState.readied st' = [] ++ [("pcscf.service", t)] ∧ PState.now sample_state0 <= t.
Proof.
  apply (reachable_target_ends_the_wait dns_protocol dns_quiet (sample_env dns_echo) sample_probe 0 1 sample_state0).
  - split_and!.
    + reflexivity.
    + intros n _. repeat split.
    + intros cseq st _. eexists _, _, _. reflexivity.
    + intros cseq st k request st' n H _. injection H as <- <- _. eexists. split; [reflexivity|]. vm_compute. reflexivity.
  - vm_compute. reflexivity.
Defined.

Lemma probe_reports_at_most_one_answer_witness :
  ∃ t, [("pcscf.service", 1700000000000000000 + 4000)] = [] ++ [(Probe.Service sample_probe, t)] ∧
    1700000000000000000 <= t <= 1700000000000000000 + 4000.
Proof.
  exact (probe_reports_at_most_one_answer agw_protocol agw_quiet (sample_env agw_echo) 1 1 sample_probe 1 sample_state0 true
    (PState.mk (1700000000000000000 + 4000) 4 1 [("pcscf.service", 1700000000000000000 + 4000)] [1700000000000000000 + 2000])
    ltac:(vm_compute; reflexivity)).
Defined.

Lemma one_live_loop_per_service_witness :
  ∃ id l, Prober.loops (Start "pcscf.service" (Start "pcscf.service" (NewProber [sample_probe]))) !! id = Some l ∧
    Loop.service l = "pcscf.service" ∧ Loop.cancelled l = false.
Proof.
  apply (one_live_loop_per_service [sample_probe] [EvStart "pcscf.service"] (Start "pcscf.service" (NewProber [sample_probe]))).
  - eapply psteps_cons; [apply pstep_start|apply psteps_nil].
  - vm_compute. reflexivity.
  - vm_compute. by eexists.
  - reflexivity.
Defined.
End ProbeClaims.
