(* ===== verification/ProbeMessages.v ===== *)
(** * ProbeMessages: requests and answers of the probes

    For each protocol: a request is never taken for its own answer, the answer a
    server gives is accepted, and the answer to another request is not. *)

From S2P Require Import Prelude GoTime GoStrings Model Json GoOS GoText GoNet Probe.

(** ** Text *)

Definition cr : ascii := byte 13.

Lemma strip_rune_cr r : strip_rune (reverse <$> space_runes) (cr :: r) = Some r.
Proof. vm_compute. done. Qed.

Lemma strip_rune_space r : strip_rune space_runes (" "%char :: r) = Some r.
Proof. vm_compute. done. Qed.

Lemma trim_right_cr l c : solid c = true → trim_right (l ++ [c; cr]) = l ++ [c].
Proof.
  intros Hc. unfold trim_right.
  replace (reverse (l ++ [c; cr])) with (cr :: c :: reverse l) by (rewrite reverse_app; done).
  rewrite length_app. replace (length l + _)%nat with (S (S (length l))) by (simpl; lia).
  cbn [trim_runes]. rewrite strip_rune_cr, strip_rune_solid_right by done.
  by rewrite reverse_cons, reverse_involutive.
Qed.

(** A header line as it stands between newlines, trimmed. *)
Lemma trim_line x l c :
  solid x = true → solid c = true → bytes_TrimSpace (x :: l ++ [c; cr]) = x :: l ++ [c].
Proof.
  intros Hx Hc. unfold bytes_TrimSpace. rewrite trim_left_solid by done.
  change (x :: l ++ [c; cr]) with ((x :: l) ++ [c; cr]). by rewrite trim_right_cr.
Qed.

Lemma trim_leading_space l : Forall (λ c, solid c = true) l → bytes_TrimSpace (" "%char :: l) = l.
Proof.
  intros Hl. unfold bytes_TrimSpace.
  assert (trim_left (" "%char :: l) = l) as ->.
  { unfold trim_left. cbn [length trim_runes]. rewrite strip_rune_space.
    destruct Hl as [|c l Hc Hl]; [done|]. cbn [length trim_runes]. by rewrite strip_rune_solid_left. }
  pose proof (TrimSpace_solid l Hl) as H. unfold bytes_TrimSpace in H.
  assert (trim_left l = l) as Hleft by (destruct Hl; [done|]; by apply trim_left_solid). by rewrite Hleft in H.
Qed.

(** A run of solid bytes is one field. *)
Lemma fields_run w : ∀ n field l,
  Forall (λ c, solid c = true) w → fields (length w + n) field (w ++ l) = fields n (reverse w ++ field) l.
Proof.
  induction w as [|c w IH]; intros n field l Hw; [done|]. inv Hw as [|? ? Hc Hw'].
  cbn [length app Nat.add fields]. rewrite strip_rune_solid_left by done.
  rewrite IH by done. by rewrite reverse_cons, <-app_assoc.
Qed.

Lemma Fields_cons w l :
  w ≠ [] → Forall (λ c, solid c = true) w → Fields (w ++ " "%char :: l) = w :: Fields l.
Proof.
  intros Hne Hw. unfold Fields. rewrite length_app. cbn [length].
  rewrite fields_run by done. rewrite app_nil_r. cbn [fields].
  rewrite strip_rune_space. destruct (reverse w) as [|c r] eqn:Hr.
  { apply (f_equal reverse) in Hr. by rewrite reverse_involutive in Hr. }
  rewrite <-Hr, reverse_involutive. done.
Qed.

Lemma Fields_single w : w ≠ [] → Forall (λ c, solid c = true) w → Fields w = [w].
Proof.
  intros Hne Hw. unfold Fields. replace (length w) with (length w + 0)%nat by lia.
  rewrite <-(app_nil_r w) at 2. rewrite fields_run by done. rewrite app_nil_r. cbn [fields].
  destruct (reverse w) as [|c r] eqn:Hr.
  { apply (f_equal reverse) in Hr. by rewrite reverse_involutive in Hr. }
  by rewrite <-Hr, reverse_involutive.
Qed.

Lemma code_range c : 0 <= code c < 256.
Proof. unfold code. pose proof (Ascii.nat_ascii_bounded c). lia. Qed.

(** Trimming stops at a byte that is no part of white space. *)
Lemma space_runes_solid c : solid c = true → Forall (λ r, c ∉ r) (reverse <$> space_runes).
Proof.
  intros Hc. apply (bool_decide_unpack _).
  destruct c as [[] [] [] [] [] [] [] []]; vm_compute in Hc |- *; done.
Qed.

Lemma strip_prefix_before c r : c ∉ r → ∀ l k l', strip_prefix r (l ++ c :: k) = Some l' → ∃ m, l = r ++ m ∧ l' = m ++ c :: k.
Proof.
  induction r as [|a r IH]; intros Hc l k l' H; simpl in H; [simplify_eq; by exists l|].
  apply not_elem_of_cons in Hc as [Hne Hc]. destruct l as [|b l]; simpl in H; destruct (ascii_dec a _) as [->|]; try done.
  destruct (IH Hc _ _ _ H) as (m & -> & ->). by exists m.
Qed.

Lemma trim_runes_before c runes : Forall (λ r, c ∉ r) runes → ∀ fuel l k,
  ∃ m, trim_runes fuel runes (l ++ c :: k) = m ++ c :: k ∧ m `suffix_of` l.
Proof.
  intros Hr. induction fuel as [|fuel IH]; intros l k; cbn [trim_runes]; [by exists l|].
  destruct (strip_rune runes (l ++ c :: k)) as [l'|] eqn:Hs; [|by exists l].
  assert (∃ m, l' = m ++ c :: k ∧ m `suffix_of` l) as (m & -> & Hm).
  { clear IH. induction Hr as [|r runes Hc Hr IH]; [done|]. unfold strip_rune in Hs. fold strip_rune in Hs.
    destruct (strip_prefix r _) eqn:Hp; [|by apply IH]. simplify_eq.
    destruct (strip_prefix_before _ _ Hc _ _ _ Hp) as (m & -> & ->). exists m. split; [done|by eexists]. }
  destruct (IH m k) as (m' & Hm' & Hsuf). exists m'. split; [done|by etrans].
Qed.

Lemma trim_right_before l c rest :
  solid c = true → ∃ rest', trim_right (l ++ c :: rest) = l ++ c :: rest' ∧ rest' `prefix_of` rest.
Proof.
  intros Hc. unfold trim_right. rewrite reverse_app, reverse_cons, <-app_assoc. cbn [app].
  destruct (trim_runes_before c _ (space_runes_solid c Hc) (length (l ++ c :: rest)) (reverse rest) (reverse l)) as (m & -> & Hm).
  exists (reverse m). rewrite reverse_app, reverse_cons, reverse_involutive, <-app_assoc. split; [done|].
  destruct Hm as [k Hk]. exists (reverse k). by rewrite <-reverse_app, <-Hk, reverse_involutive.
Qed.

Lemma TrimSpace_before x l c rest :
  solid x = true → solid c = true →
  ∃ rest', bytes_TrimSpace (x :: l ++ c :: rest) = x :: l ++ c :: rest' ∧ rest' `prefix_of` rest.
Proof.
  intros Hx Hc. unfold bytes_TrimSpace. rewrite trim_left_solid by done. by apply (trim_right_before (x :: l)).
Qed.
Lemma TrimSpace_head x rest : solid x = true → ∃ rest', bytes_TrimSpace (x :: rest) = x :: rest'.
Proof.
  intros Hx. unfold bytes_TrimSpace. rewrite trim_left_solid by done.
  destruct (trim_right_before [] x rest Hx) as (rest' & H & _). by exists rest'.
Qed.

(** ** SIP *)

(** A reply as the standard describes it: a status line, header fields, an empty
    line and a body. *)
Definition header_line (h : string * string) : bytes := to_bytes (h.1 +:+ ": " +:+ h.2).
Definition sip_response (code : Z) (reason : string) (headers : list (string * string)) (body : bytes) : bytes :=
  to_bytes ("SIP/2.0 " +:+ Itoa code +:+ " " +:+ reason) ++ [cr; newline] ++
  mbind (λ h, header_line h ++ [cr; newline]) headers ++ [cr; newline] ++ body.

(** The name of a Call-ID field: in any case, or the compact form. *)
Definition names_call_id (name : string) : Prop := ToLower name = "call-id" ∨ name = "i".
#[export] Instance names_call_id_dec name : Decision (names_call_id name).
Proof. unfold names_call_id. apply _. Defined.
(** The value of the first such field. *)
Definition call_id_of (headers : list (string * string)) : option string :=
  (λ p, p.2.2) <$> list_find (λ h, names_call_id h.1) headers.

(** A field name is a word without a colon; a value stays on its line, and that
    of a Call-ID is a word. *)
Definition word (s : string) : Prop := s ≠ "" ∧ Forall (λ c, solid c = true) (to_bytes s).
Definition header_ok (h : string * string) : Prop :=
  word h.1 ∧ ":"%char ∉ to_bytes h.1 ∧ newline ∉ to_bytes h.2 ∧ (names_call_id h.1 → word h.2).

Lemma to_bytes_nil s : to_bytes s = [] → s = "".
Proof. intros H. by apply to_bytes_inj. Qed.

Lemma solid_ascii c : solid c = true → (Ascii.nat_of_ascii c < 128)%nat.
Proof. unfold solid. intros [_ H]%andb_true_iff. by apply Nat.ltb_lt. Qed.

Lemma fold_case_ascii l : Forall (λ c, solid c = true) l → fold_case l = lower <$> l.
Proof.
  induction 1 as [|a l Ha Hl IH]; [done|]. apply solid_ascii in Ha. rewrite fmap_cons, <-IH.
  assert (bool_decide (a = byte 197) = false) as H1 by (apply bool_decide_false; intros ->; by vm_compute in Ha; lia).
  assert (bool_decide (a = byte 226) = false) as H2 by (apply bool_decide_false; intros ->; by vm_compute in Ha; lia).
  destruct l as [|b [|c r]]; cbn [fold_case]; rewrite ?H1, ?H2; done.
Qed.

(** The test of the code and the description above agree on words. *)
Lemma call_id_test name :
  word name →
  EqualFold (bytes_TrimSpace (to_bytes name)) (to_bytes "Call-ID") || bool_decide (to_bytes name = to_bytes "i") =
  bool_decide (names_call_id name).
Proof.
  intros [_ Hw]. rewrite TrimSpace_solid by done. unfold EqualFold, names_call_id, ToLower.
  rewrite fold_case_ascii by done. change (fold_case (to_bytes "Call-ID")) with (to_bytes "call-id").
  rewrite (bool_decide_ext (to_bytes name = to_bytes "i") (name = "i")) by (split; [apply to_bytes_inj|by intros ->]).
  rewrite (bool_decide_ext (lower <$> to_bytes name = to_bytes "call-id")
    (of_bytes (lower <$> to_bytes name) = "call-id")).
  - rewrite <-bool_decide_or. by apply bool_decide_ext.
  - split; [intros ->; apply of_to_bytes|]. intros H. apply (f_equal to_bytes) in H. by rewrite to_of_bytes in H.
Qed.

Lemma word_snoc s : word s → ∃ l c, to_bytes s = l ++ [c] ∧ solid c = true.
Proof.
  intros [Hne Hs]. destruct (last (to_bytes s)) as [c|] eqn:Hl.
  - apply last_Some in Hl as [l Hl]. rewrite Hl in Hs. apply Forall_app in Hs as [_ Hc]. inv Hc. eauto.
  - apply last_None in Hl. by apply to_bytes_nil in Hl.
Qed.
Lemma word_cons s : word s → ∃ c l, to_bytes s = c :: l ∧ solid c = true.
Proof.
  intros [Hne Hs]. destruct (to_bytes s) as [|c l] eqn:E; [by apply to_bytes_nil in E|]. inv Hs. eauto.
Qed.

(** One header line: the first Call-ID decides, any other field is passed over. *)
Lemma header_step h lines id :
  header_ok h →
  call_id_matches ((header_line h ++ [cr]) :: lines) id =
    if decide (names_call_id h.1) then bool_decide (to_bytes h.2 = id) else call_id_matches lines id.
Proof.
  intros (Hw & Hcolon & _ & Hv). destruct h as [name value]. cbn [fst snd] in *.
  destruct (word_cons _ Hw) as (x & l & Hx & Hsx).
  assert (header_line (name, value) ++ [cr] = to_bytes name ++ ":"%char :: " "%char :: to_bytes value ++ [cr]) as ->.
  { unfold header_line. cbn [fst snd]. rewrite !to_bytes_app, <-!app_assoc. done. }
  cbn [call_id_matches].
  destruct (TrimSpace_before x l ":"%char (" "%char :: to_bytes value ++ [cr]) Hsx ltac:(done)) as (rest & Htrim & _).
  assert (bytes_TrimSpace (to_bytes name ++ ":"%char :: " "%char :: to_bytes value ++ [cr]) = to_bytes name ++ ":"%char :: rest)
    as Htrim' by (by rewrite Hx).
  rewrite Htrim', Cut_found by done. cbn [negb]. rewrite call_id_test by done.
  destruct (decide (names_call_id name)) as [Hn|Hn]; [rewrite bool_decide_true by done|by rewrite bool_decide_false].
  specialize (Hv Hn). destruct (word_snoc _ Hv) as (v & c & Hvc & Hc).
  assert (rest = " "%char :: to_bytes value) as ->.
  { pose proof (trim_line x (l ++ ":"%char :: " "%char :: v) c Hsx Hc) as H.
    rewrite Hx in Htrim'. rewrite Hvc in Htrim'. rewrite <-!app_assoc in H. cbn [app] in H, Htrim'.
    rewrite <-!app_assoc in Htrim'. cbn [app] in Htrim'. rewrite Htrim' in H. simplify_list_eq. by rewrite Hvc. }
  by rewrite trim_leading_space by apply Hv.
Qed.

Lemma headers_match headers lines id :
  Forall header_ok headers →
  call_id_matches (((λ h, header_line h ++ [cr]) <$> headers) ++ lines) id =
    match call_id_of headers with
    | Some v => bool_decide (to_bytes v = id)
    | None => call_id_matches lines id
    end.
Proof.
  induction 1 as [|h headers Hh _ IH]; [done|]. rewrite fmap_cons. cbn [app]. rewrite header_step by done.
  unfold call_id_of in *. cbn [list_find]. destruct (decide (names_call_id h.1)); [done|]. rewrite IH.
  by destruct (list_find _ headers) as [[i x]|].
Qed.

Lemma Split_lines {B} (f : B → bytes) ls rest :
  Forall (λ l, newline ∉ f l) ls →
  Split (mbind (λ l, f l ++ [cr; newline]) ls ++ rest) newline = ((λ l, f l ++ [cr]) <$> ls) ++ Split rest newline.
Proof.
  induction 1 as [|l ls Hl Hls IH]; [done|]. rewrite bind_cons, fmap_cons.
  replace (((f l ++ [cr; newline]) ++ mbind (λ l, f l ++ [cr; newline]) ls) ++ rest) with
    ((f l ++ [cr]) ++ newline :: (mbind (λ l, f l ++ [cr; newline]) ls ++ rest)) by (by rewrite <-!app_assoc).
  rewrite Split_app_sep, IH; [done|]. rewrite elem_of_app, list_elem_of_singleton. intros [?|?]; done.
Qed.

(** The lines of a request, in the order in which they are written. *)
Definition option_lines (host : string) (port cseq : Z) (uri callID branch tag : string) : list bytes :=
  [to_bytes ("Via: SIP/2.0/UDP " +:+ host +:+ ":" +:+ Itoa port +:+ ";branch=z9hG4bK" +:+ branch +:+ ";rport");
   to_bytes ("From: <sip:systemd-transition-exporter@" +:+ host +:+ ">;tag=" +:+ tag);
   to_bytes ("To: <" +:+ uri +:+ ">");
   to_bytes ("Call-ID: " +:+ callID);
   to_bytes ("CSeq: " +:+ Itoa cseq +:+ " OPTIONS");
   to_bytes "Max-Forwards: 70"; to_bytes "Content-Length: 0"; []].

Lemma options_text_lines uri host port cseq callID branch tag :
  to_bytes (options_text uri host port cseq callID branch tag) =
  to_bytes ("OPTIONS " +:+ uri +:+ " SIP/2.0") ++ [cr; newline] ++
  mbind (λ l, l ++ [cr; newline]) (option_lines host port cseq uri callID branch tag).
Proof.
  unfold options_text, option_lines. rewrite !bind_cons.
  repeat rewrite to_bytes_app. rewrite <-!app_assoc. reflexivity.
Qed.

(** Bytes that may stand in a line without ending it. *)
Abbreviation one_line s := (newline ∉ to_bytes s).
Lemma Itoa_line n : 0 <= n → one_line (Itoa n) ∧ ":"%char ∉ to_bytes (Itoa n) ∧
  Forall (λ c, solid c = true) (to_bytes (Itoa n)) ∧ to_bytes (Itoa n) ≠ [].
Proof.
  intros Hn. unfold Itoa. rewrite to_of_bytes. pose proof (FormatInt_digits n Hn) as Hd. split_and!.
  - intros Hin. rewrite Forall_forall in Hd. destruct (Hd _ Hin) as [d H]. done.
  - intros Hin. rewrite Forall_forall in Hd. destruct (Hd _ Hin) as [d H]. done.
  - eapply Forall_impl; [exact Hd|]. intros c [d Hd']. by eapply digit_solid.
  - unfold FormatInt. rewrite (proj2 (Z.ltb_ge n 0)) by done. apply digits_ne.
Qed.

(** Both sides are the same concatenation. *)
Ltac list_eq := simpl; repeat (rewrite <-app_assoc; simpl); reflexivity.

Ltac not_in_lines :=
  rewrite ?to_bytes_app, ?elem_of_app; let H := fresh in intros H; destruct_or? H; try done;
  exfalso; revert H; apply (bool_decide_unpack _); vm_compute; exact I.

Lemma header_line_ok h : header_ok h → newline ∉ header_line h.
Proof.
  intros ((_ & Hw) & _ & Hv & _). unfold header_line. rewrite !to_bytes_app, !elem_of_app.
  intros [H|[H|H]]; [|by vm_compute in H; set_solver|done]. rewrite Forall_forall in Hw. by apply Hw in H.
Qed.

(** The status line: its first two fields, and that it is no Call-ID. *)
Lemma status_fields code reason :
  0 <= code → ∃ fields, Fields (bytes_TrimSpace (to_bytes ("SIP/2.0 " +:+ Itoa code +:+ " " +:+ reason) ++ [cr])) =
    to_bytes "SIP/2.0" :: to_bytes (Itoa code) :: fields.
Proof.
  intros Hcode. destruct (Itoa_line code Hcode) as (_ & _ & Hs & Hne).
  assert (word (Itoa code)) as Hword by (split; [intros E; apply Hne; by rewrite E|done]).
  destruct (word_snoc _ Hword) as (d & c & Hd & Hc).
  assert (to_bytes ("SIP/2.0 " +:+ Itoa code +:+ " " +:+ reason) ++ [cr] =
    "S"%char :: (to_bytes "IP/2.0 " ++ d) ++ c :: " "%char :: to_bytes reason ++ [cr]) as ->.
  { rewrite !to_bytes_app, Hd, <-!app_assoc. done. }
  destruct (TrimSpace_before "S"%char (to_bytes "IP/2.0 " ++ d) c (" "%char :: to_bytes reason ++ [cr])) as (rest & -> & Hp); [done..|].
  assert ("S"%char :: (to_bytes "IP/2.0 " ++ d) ++ c :: rest = to_bytes "SIP/2.0" ++ " "%char :: (to_bytes (Itoa code) ++ rest)) as ->.
  { rewrite Hd, <-!app_assoc. done. }
  rewrite Fields_cons; [|done|by apply (bool_decide_unpack _); vm_compute].
  destruct rest as [|e rest]; [rewrite app_nil_r, Fields_single by done; by eexists|].
  assert (e = " "%char) as -> by (by destruct Hp as [k [= <- _]]).
  rewrite Fields_cons by done. by eexists.
Qed.

Lemma status_skipped code reason lines id :
  0 <= code →
  call_id_matches ((to_bytes ("SIP/2.0 " +:+ Itoa code +:+ " " +:+ reason) ++ [cr]) :: lines) id = call_id_matches lines id.
Proof.
  intros Hcode. cbn [call_id_matches].
  assert (∃ rest, to_bytes ("SIP/2.0 " +:+ Itoa code +:+ " " +:+ reason) ++ [cr] = "S"%char :: rest) as [rest ->].
  { rewrite !to_bytes_app. by eexists. }
  destruct (TrimSpace_head "S"%char rest ltac:(done)) as [rest' ->].
  destruct (Cut ("S"%char :: rest') ":"%char) as [[name value] found] eqn:Hcut. apply Cut_spec in Hcut.
  destruct found; [|done]. destruct Hcut as [Heq _]. cbn [negb].
  destruct name as [|x name]; simplify_eq/=.
  destruct (TrimSpace_head "S"%char name ltac:(done)) as [name' ->].
  replace (EqualFold ("S"%char :: name') _) with false.
  2:{ symmetry. unfold EqualFold. apply bool_decide_false. intros H.
    destruct name' as [|a [|b r]]; cbn in H; simplify_eq. }
  done.
Qed.

Lemma sip_response_checked code reason headers body id :
  0 <= code < 2 ^ 63 → one_line reason → Forall header_ok headers → is_Some (call_id_of headers) ∨ body = [] →
  IsOK (sip_response code reason headers body) id = true ↔ code = 200 ∧ to_bytes <$> call_id_of headers = Some id.
Proof.
  intros Hcode Hr Hh Hbody. destruct (Itoa_line code ltac:(lia)) as (Hn & _).
  unfold sip_response. set (L := to_bytes ("SIP/2.0 " +:+ Itoa code +:+ " " +:+ reason)).
  set (rest := mbind _ headers ++ [cr; newline] ++ body).
  assert (newline ∉ L ++ [cr]) as HL.
  { rewrite elem_of_app, list_elem_of_singleton. intros [H|?]; [|done]. revert H. unfold L. not_in_lines. }
  replace (L ++ [cr; newline] ++ rest) with ((L ++ [cr]) ++ newline :: rest) by (by rewrite <-!app_assoc).
  destruct (status_fields code reason ltac:(lia)) as [fields Hf].
  assert (Atoi (Itoa code) = Some code) as Hatoi by (apply ParseInt_FormatInt; unfold in_i64; lia).
  unfold IsOK. rewrite Cut_found by done. unfold L in *. rewrite Hf, of_to_bytes, Hatoi.
  replace (EqualFold _ _) with true by (vm_compute; done). cbn [negb].
  destruct (Z.eqb_spec code 200) as [Hc|Hc]; cbn [negb]; [|split; [done|tauto]].
  rewrite Split_app_sep, status_skipped by (done || lia). unfold rest.
  rewrite (Split_lines header_line) by (eapply Forall_impl; [exact Hh|]; apply header_line_ok).
  rewrite headers_match by done. destruct (call_id_of headers) as [v|].
  - rewrite bool_decide_eq_true. simpl. naive_solver.
  - destruct Hbody as [[? [=]]| ->]. split; [|by intros [_ [=]]]. by vm_compute.
Qed.

(** A request read back is no reply. *)
Lemma sip_request_rejected uri host port cseq callID branch tag id :
  one_line uri → IsOK (to_bytes (options_text uri host port cseq callID branch tag)) id = false.
Proof.
  intros Hu. rewrite options_text_lines. set (L := to_bytes ("OPTIONS " +:+ uri +:+ " SIP/2.0")).
  assert (L = to_bytes "OPTIONS" ++ " "%char :: to_bytes uri ++ to_bytes " SIP/2.0") as HLeq.
  { unfold L. rewrite !to_bytes_app. reflexivity. }
  assert (newline ∉ L ++ [cr]) as HL.
  { rewrite elem_of_app, list_elem_of_singleton. intros [Hin|?]; [|done]. revert Hin. unfold L. not_in_lines. }
  replace (L ++ [cr; newline] ++ _) with ((L ++ [cr]) ++ newline :: mbind (λ l, l ++ [cr; newline])
    (option_lines host port cseq uri callID branch tag)) by (by rewrite <-!app_assoc).
  unfold IsOK. rewrite Cut_found by done.
  assert (bytes_TrimSpace (L ++ [cr]) = L) as ->.
  { rewrite HLeq.
    replace ((to_bytes "OPTIONS" ++ " "%char :: to_bytes uri ++ to_bytes " SIP/2.0") ++ [cr]) with
      ("O"%char :: (to_bytes "PTIONS" ++ " "%char :: to_bytes uri ++ to_bytes " SIP/2.") ++ ["0"%char; cr])
      by (simpl; rewrite <-!app_assoc; done).
    rewrite trim_line by done. simpl. rewrite <-!app_assoc. done. }
  rewrite HLeq, Fields_cons; [|done|by apply (bool_decide_unpack _); vm_compute].
  destruct (Fields _); [done|]. by replace (EqualFold _ _) with false by (vm_compute; done).
Qed.

(** A request is the text of its tokens. *)
Lemma Options_message env uri host port cseq st m st' :
  Options env uri host port cseq st = (Some m, st') →
  ∃ callID branch tag, CallID m = to_bytes callID ∧
    Bytes m = to_bytes (options_text uri (sip_host host) port cseq callID branch tag).
Proof.
  intros H. unfold Options in H. bind_inv H as a s1 Ha. destruct a as [a|]; [|done].
  bind_inv H as b s2 Hb. destruct b as [b|]; [|done]. bind_inv H as c s3 Hc. destruct c as [c|]; [|done].
  unfold ret in H. simplify_eq. by exists a, b, c.
Qed.

(** ** DNS *)

Lemma code_chr n : 0 <= n < 256 → code (chr n) = n.
Proof.
  intros Hn. unfold code, chr, byte. rewrite Ascii.nat_ascii_embedding by lia. lia.
Qed.

Lemma uint16_be16 n hi lo : 0 <= n < 65536 → be16 n = [hi; lo] → uint16 hi lo = n.
Proof.
  unfold be16, uint16. intros Hn [= <- <-].
  rewrite !code_chr by (Z.to_euclidean_division_equations; lia). Z.to_euclidean_division_equations; lia.
Qed.

Lemma top_bit c : negb (Z.land (code c) 128 =? 0) = (128 <=? code c).
Proof. by destruct c as [[] [] [] [] [] [] [] []]. Qed.

Lemma Query_message env st id request st' :
  Query env st = (Some (id, request), st') → 0 <= id < 65536 ∧ request = query_packet id.
Proof.
  unfold Query. intros H. bind_inv H as raw s1 Hr. unfold ret in H.
  destruct raw as [[|hi [|lo r]]|]; simplify_eq. split; [|done]. unfold uint16.
  pose proof (code_range hi). pose proof (code_range lo). lia.
Qed.

(** ** AGW *)

Definition pong_packet (tok : string) : bytes := to_bytes (tok +:+ " " +:+ agw_result).

Lemma ping_token_space pid n : 0 <= pid → 0 <= n → " "%char ∉ to_bytes (ping_token pid n).
Proof.
  intros Hp Hn. unfold ping_token.
  assert (∀ m, 0 <= m → " "%char ∉ to_bytes (Itoa m)) as Hno.
  { intros m Hm Hin. unfold Itoa in Hin. rewrite to_of_bytes in Hin. pose proof (FormatInt_digits m Hm) as Hd.
    rewrite Forall_forall in Hd. destruct (Hd _ Hin) as [d H]. done. }
  pose proof (Hno _ Hp). pose proof (Hno _ Hn). not_in_lines.
Qed.

Lemma ping_token_inj pid n m : 0 <= n < 2 ^ 64 → 0 <= m < 2 ^ 64 → ping_token pid n = ping_token pid m → n = m.
Proof.
  intros Hn Hm H. unfold ping_token in H. apply append_inj, append_inj, append_inj in H.
  unfold Itoa in H. apply (f_equal to_bytes) in H. rewrite !to_of_bytes in H.
  apply (f_equal (ParseUint 64)) in H. rewrite !ParseUint_FormatInt in H by done. by simplify_eq.
Qed.

(** The token in front of the first space decides. *)
Lemma IsPong_spec tok tok' rest :
  " "%char ∉ to_bytes tok → " "%char ∉ to_bytes tok' →
  IsPong (to_bytes (tok' +:+ " ") ++ rest) tok = bool_decide (tok' = tok) && bytes_Contains rest (to_bytes agw_result).
Proof.
  intros H1 H2. unfold IsPong. case_bool_decide as Heq; [subst; by rewrite strip_prefix_app|]. cbn [andb].
  destruct (strip_prefix _ _) as [r|] eqn:Hs; [|done]. exfalso. apply Heq.
  assert (to_bytes (tok' +:+ " ") ++ rest = to_bytes (tok +:+ " ") ++ r) as Hpre.
  { assert (bytes_HasPrefix (to_bytes (tok' +:+ " ") ++ rest) (to_bytes (tok +:+ " ")) = true) as Hp
      by (unfold bytes_HasPrefix; by rewrite Hs).
    apply bytes_HasPrefix_spec in Hp as [r' Hr']. rewrite Hr', strip_prefix_app in Hs. by simplify_eq. }
  rewrite !to_bytes_app, <-!app_assoc in Hpre. cbn in Hpre.
  apply (f_equal (λ l, Cut l " "%char)) in Hpre. rewrite !Cut_found in Hpre by done. simplify_eq. by apply to_bytes_inj.
Qed.

Module ProbeMessageClaims.
(** C37: A SIP response to an OPTIONS request of the exporter, with any status
    line, header fields and body, is taken for the answer exactly when its
    status is 200 and its first Call-ID field, spelled in any case or in the
    compact form, has the value of the request; the request itself, reflected,
    is not. Field names are words without a colon and a Call-ID is a word; a
    response without any Call-ID is considered without a body. *)
Theorem sip_reply_is_matched env uri host port cseq st m st' code reason headers body :
  Options env uri host port cseq st = (Some m, st') → newline ∉ to_bytes uri →
  0 <= code < 2 ^ 63 → newline ∉ to_bytes reason → Forall header_ok headers →
  is_Some (call_id_of headers) ∨ body = [] →
  IsOK (Bytes m) (CallID m) = false ∧
  (IsOK (sip_response code reason headers body) (CallID m) = true ↔
     code = 200 ∧ to_bytes <$> call_id_of headers = Some (CallID m)).
Proof.
  intros Hm Hu Hcode Hr Hh Hb. split; [|by apply sip_response_checked].
  destruct (Options_message _ _ _ _ _ _ _ _ Hm) as (callID & branch & tag & _ & ->). by apply sip_request_rejected.
Qed.

(** A DNS packet answers the query of the exporter exactly when it has a
    header, the identifier of the query and the response bit; a pong answers a
    ping exactly when it carries its token; neither request answers itself. *)
Theorem dns_and_agw_answers_are_matched env st :
  (∀ id request st', Query env st = (Some (id, request), st') →
     Answered request id = false ∧
     ∀ id' flags rest, 0 <= id' < 65536 →
       Answered (be16 id' ++ flags :: rest) id =
         (9 <=? #rest) && (id' =? id) && (128 <=? code flags)) ∧
  (∀ tok request st', Ping env st = ((tok, request), st') → 0 <= pid env →
     IsPong request tok = false ∧
     ∀ n, 0 <= n < 2 ^ 64 →
       IsPong (pong_packet (ping_token (pid env) n)) tok = (n =? u64 (PState.seq st + 1))).
Proof.
  split.
  - intros id request st' (Hid & ->)%Query_message. split.
    + unfold Answered, query_packet. simpl. by destruct (uint16 (chr (id / 256)) (chr (id mod 256)) =? id).
    + intros id' flags rest Hid'. unfold Answered. destruct (be16 id') as [|hi [|lo [|]]] eqn:Hb; try done.
      cbn [app length]. rewrite (uint16_be16 id' hi lo) by done.
      rewrite top_bit. destruct (Z.leb_spec 9 #rest), (Nat.ltb_spec (S (S (S (length rest)))) 12); try lia; try done.
      by destruct (id' =? id).
  - intros tok request st' H Hpid. unfold Ping in H. simplify_eq.
    pose proof (u64_range (PState.seq st + 1)) as Hr. unfold in_u64 in Hr.
    pose proof (ping_token_space (pid env) (u64 (PState.seq st + 1)) Hpid ltac:(lia)) as Hs.
    assert (∀ a b, to_bytes (a +:+ " " +:+ b) = to_bytes (a +:+ " ") ++ to_bytes b) as Happ.
    { intros a b. by rewrite !to_bytes_app, <-app_assoc. }
    split.
    + rewrite Happ, IsPong_spec by done. apply andb_false_iff. right. vm_compute. done.
    + intros n Hn. unfold pong_packet. rewrite Happ, IsPong_spec by (done || apply ping_token_space; lia).
      replace (bytes_Contains _ _) with true by (vm_compute; done). rewrite andb_true_r.
      destruct (Z.eqb_spec n (u64 (PState.seq st + 1))) as [->|Hne]; [by apply bool_decide_true|].
      apply bool_decide_false. intros Heq. apply Hne. eapply ping_token_inj; [done|done|exact Heq].
Qed.

(** The reply of the repository's test, and one with a tag in its To field, the
    compact form of the Call-ID and a body. *)
Example test_reply :
  sip_response 200 "OK" [("Call-ID", "abc"); ("CSeq", "1 OPTIONS")] [] =
  to_bytes ("SIP/2.0 200 OK" +:+ crlf +:+ "Call-ID: abc" +:+ crlf +:+ "CSeq: 1 OPTIONS" +:+ crlf +:+ crlf).
Proof. by vm_compute. Qed.
Definition tagged_headers : list (string * string) :=
  [("Via", "SIP/2.0/UDP 10.12.12.10:40000;branch=z9hG4bKa5a5a5a5a5a5a5a5;rport=40000");
   ("To", "<sip:10.12.12.10:5060>;tag=77"); ("i", "a5a5a5a5a5a5a5a5"); ("CSeq", "1 OPTIONS"); ("Content-Length", "4")].

Lemma sip_reply_is_matched_witness :
  IsOK (sip_response 200 "OK" tagged_headers (to_bytes "v=0" ++ [newline])) (to_bytes "a5a5a5a5a5a5a5a5") = true.
Proof.
  apply (proj2 (sip_reply_is_matched (sample_env id) "sip:10.12.12.10:5060" "10.12.12.10" 40000 1 sample_state0
    (mkMessage (to_bytes "a5a5a5a5a5a5a5a5") (to_bytes (options_text "sip:10.12.12.10:5060" "10.12.12.10" 40000 1
    "a5a5a5a5a5a5a5a5" "a5a5a5a5a5a5a5a5" "a5a5a5a5a5a5a5a5"))) (PState.mk 1700000000000003000 3 0 [] [])
    200 "OK" tagged_headers (to_bytes "v=0" ++ [newline]) ltac:(by vm_compute)
    ltac:(apply (bool_decide_unpack _); vm_compute; exact I) ltac:(lia)
    ltac:(apply (bool_decide_unpack _); vm_compute; exact I)
    ltac:(repeat apply Forall_cons_2; [..|apply Forall_nil_2]; apply (bool_decide_unpack _); vm_compute; exact I)
    ltac:(left; by eexists))).
  split; [reflexivity|by vm_compute].
Defined.
End ProbeMessageClaims.
