(* ===== verification/Systemd.v ===== *)
(** * Systemd: internal/systemd

    The D-Bus client: unit properties as snapshots, the monitor that reacts to
    signals, and [RunResilient], which owns the connection. The bus is an
    environment that answers the n-th call; the callbacks of the main program
    act on a state of their own. [trace] records, for the specification only,
    what [RunResilient] did. *)

From S2P Require Import Prelude GoTime GoStrings Model Json GoOS GoText GoFloat.

(** ** Values *)

(** A D-Bus value as far as the code tells types apart. *)
Inductive variant :=
  | VString (s : string)
  | VUint64 (n : Z)
  | VInt64 (n : Z)
  | VUint32 (n : Z)
  | VOther (type : string).
Definition type_name (v : variant) : string :=
  match v with
  | VString _ => "string"
  | VUint64 _ => "uint64"
  | VInt64 _ => "int64"
  | VUint32 _ => "uint32"
  | VOther t => t
  end.

Definition asUint64 (v : variant) : Z :=
  match v with
  | VUint64 x => x
  | VInt64 x => if 0 <=? x then x else 0
  | VUint32 x => x
  | _ => 0
  end.

Definition props := gmap string variant.

Definition text_property (service : string) (ps : props) (name : string) : result string string :=
  match ps !! name with
  | None => Err ("property " +:+ name +:+ " of " +:+ service +:+ " is missing")
  | Some (VString s) => Ok s
  | Some v => Err (name +:+ " has type " +:+ type_name v)
  end.
Definition timestamp_property (service : string) (ps : props) (name : string) : result string Z :=
  match ps !! name with
  | None => Err ("property " +:+ name +:+ " of " +:+ service +:+ " is missing")
  | Some v => Ok (asUint64 v)
  end.

Definition snapshotFromProperties (service bootID : string) (observedAt : time) (ps : props)
    : result string UnitSnapshot.t :=
  activeState ← text_property service ps "ActiveState";
  subState ← text_property service ps "SubState";
  enter ← timestamp_property service ps "ActiveEnterTimestamp";
  exit ← timestamp_property service ps "ActiveExitTimestamp";
  enterMono ← timestamp_property service ps "ActiveEnterTimestampMonotonic";
  exitMono ← timestamp_property service ps "ActiveExitTimestampMonotonic";
  Ok {| UnitSnapshot.Service := service;
        UnitSnapshot.ActiveState := activeState;
        UnitSnapshot.SubState := subState;
        UnitSnapshot.ActiveEnterTimestampUS := enter;
        UnitSnapshot.ActiveExitTimestampUS := exit;
        UnitSnapshot.ActiveEnterTimestampMonotonicUS := enterMono;
        UnitSnapshot.ActiveExitTimestampMonotonicUS := exitMono;
        UnitSnapshot.BootID := bootID;
        UnitSnapshot.ObservedAt := observedAt |}.

Definition watched : list string :=
  ["ActiveState"; "SubState"; "ActiveEnterTimestamp"; "ActiveExitTimestamp";
   "ActiveEnterTimestampMonotonic"; "ActiveExitTimestampMonotonic"].
Definition interesting (ps : props) : bool :=
  existsb (λ p, bool_decide (p.1 ∈ watched)) (map_to_list ps).

(** ** The kernel's view of the boot *)

Section Boot.
Context (faults : oracle) (out_of_range : spec_float → Z).

Definition BootID : M world (result goerror string) :=
  r <- ReadFile faults "/proc/sys/kernel/random/boot_id";;
  ret (match r with
       | Err e => Err (Wrap "read boot_id" e)
       | Ok b => Ok (CanonicalBootID (of_bytes b))
       end).

(** [now] is what [time.Now] returns after the file has been read. *)
Definition BootTime (now : time) : M world (result goerror time) :=
  r <- ReadFile faults "/proc/uptime";;
  ret (match r with
       | Err e => Err (Wrap "read uptime" e)
       | Ok b =>
           match Fields b with
           | [] => Err (ErrNew "invalid /proc/uptime")
           | f :: _ =>
               match ParseFloat (of_bytes f) with
               | None => Err (Wrap "parse uptime" ErrDecode)
               | Some sec => Ok (now + i64 (- int64_of_float out_of_range (fmul sec (float_of_Z Second))))
               end
           end
       end).
End Boot.

(** ** The bus *)

Inductive body_item := BString (s : string) | BProps (ps : props) | BOther.
Record signal := Signal { sig_Name : string; sig_Path : string; sig_Body : list body_item }.

(** What the select of [Monitor.Run] finds ready. *)
Inductive ready_case :=
  | CtxDone
  | ConnDone (e : goerror)
  | ReconcileTick
  | SignalIn (sig : signal)
  | SignalsClosed.

(** A method call: it failed, its answer did not decode, or its answer. *)
Inductive call_result (A : Type) := CallFailed (e : goerror) | StoreFailed (e : goerror) | Replied (a : A).
Arguments CallFailed {A} _.
Arguments StoreFailed {A} _.
Arguments Replied {A} _.

Record Unit := mkUnit { unit_path : string; unit_service : string }.
Definition byPath := gmap string Unit.

(** [map_range n m] are the values of [m] in the order the n-th iteration
    over it takes, which Go leaves open. *)
Record bus := Bus {
  connect : nat → option goerror;
  load_unit : nat → string → call_result string;         (* the object path *)
  add_match : nat → option goerror;
  get_all : nat → string → call_result props;
  map_range : nat → byPath → list Unit;
  select_case : nat → ready_case;
  boot_id : nat → result goerror string;
  clock : nat → time;
  ctx_cancelled : nat → bool;
}.

Definition propertiesIF : string := "org.freedesktop.DBus.Properties".
Definition unitIface : string := "org.freedesktop.systemd1.Unit".

(** What happened, oldest first. *)
Inductive act :=
  | Paused (interval : Duration)
  | ConnectFailed
  | Recovery (from to : time) (err : option goerror)   (* a call of [onRecovery], when it has returned *)
  | Took (s : UnitSnapshot.t)
  | ConnState (connected : bool) (at_ : time)
  | Reported (e : goerror).

Module Client.
Record t := mk {
  calls : nat;                       (* answers taken from the environment *)
  opened : nat;                      (* connections made *)
  live : gset nat;                   (* connections not closed *)
  peak : nat;                        (* the most connections open at one time *)
  debugDBus : option nat;            (* the one registered for the debug endpoint *)
  trace : list act;
}.
Definition empty : t := mk 0 0 ∅ 0 None [].
End Client.

(** ** Debug endpoint: debug.go *)

Definition SetDebugDBus (conn : option nat) (c : Client.t) : Client.t :=
  Client.mk (Client.calls c) (Client.opened c) (Client.live c) (Client.peak c) conn (Client.trace c).
Definition close_conn (conn : nat) (c : Client.t) : Client.t :=
  Client.mk (Client.calls c) (Client.opened c) (Client.live c ∖ {[conn]}) (Client.peak c) (Client.debugDBus c) (Client.trace c).
Definition DebugDisconnect (c : Client.t) : bool * Client.t :=
  match Client.debugDBus c with
  | None => (false, c)
  | Some conn => (true, close_conn conn c)
  end.

(** The callbacks of [RunResilient], on a state [X]. *)
Record callbacks (X : Type) := Callbacks {
  onSnapshot : UnitSnapshot.t → M X (option goerror);
  onConnectionState : bool → time → M X unit;
  onRecovery : time → time → M X (option goerror);
}.
Arguments onSnapshot {X} _.
Arguments onConnectionState {X} _.
Arguments onRecovery {X} _.

Section Client.
Context {X : Type} (b : bus) (cb : callbacks X).

Notation R := (M (Client.t * X)).

Definition ask {A} (f : nat → A) : R A :=
  c <- get_fst;;
  _ <- modify_fst (λ c, Client.mk (S (Client.calls c)) (Client.opened c) (Client.live c) (Client.peak c) (Client.debugDBus c) (Client.trace c));;
  ret (f (Client.calls c)).
Definition record (a : act) : R unit :=
  modify_fst (λ c, Client.mk (Client.calls c) (Client.opened c) (Client.live c) (Client.peak c) (Client.debugDBus c) (Client.trace c ++ [a])).

Definition time_Now : R time := ask (clock b).
Definition ctx_Err : R bool := ask (ctx_cancelled b).
Definition onConnectionError (e : goerror) : R unit := record (Reported e).

(** [Connect]: the number of the new connection. *)
Definition Connect : R (result goerror nat) :=
  e <- ask (connect b);;
  match e with
  | Some e => _ <- record ConnectFailed;; ret (Err (Wrap "connect system bus" e))
  | None =>
      c <- get_fst;;
      let n := Client.opened c in
      _ <- modify_fst (λ c, Client.mk (Client.calls c) (S n) ({[n]} ∪ Client.live c)
             (Client.peak c `max` size ({[n]} ∪ Client.live c)) (Client.debugDBus c) (Client.trace c));;
      ret (Ok n)
  end.
Definition Close (conn : nat) : R unit := modify_fst (close_conn conn).

Definition LoadUnit (service : string) : R (result goerror Unit) :=
  r <- ask (λ n, load_unit b n service);;
  ret (match r with
       | CallFailed e => Err (Wrap ("LoadUnit(" +:+ service +:+ ")") e)
       | StoreFailed e => Err (Wrap "decode unit path" e)
       | Replied p => Ok (mkUnit p service)
       end).

(** [Unit.Snapshot]: the time is taken before the call. *)
Definition Snapshot (u : Unit) (bootID : string) : R (result goerror UnitSnapshot.t) :=
  observedAt <- time_Now;;
  r <- ask (λ n, get_all b n (unit_path u));;
  ret (match r with
       | CallFailed e => Err (Wrap ("GetAll(" +:+ unit_service u +:+ ")") e)
       | StoreFailed e => Err (Wrap ("decode properties of " +:+ unit_service u) e)
       | Replied ps =>
           match snapshotFromProperties (unit_service u) bootID observedAt ps with
           | Ok s => Ok s
           | Err msg => Err (ErrNew msg)
           end
       end).

(** [onSnapshot(s)], recorded. *)
Definition deliver (s : UnitSnapshot.t) : R (option goerror) :=
  _ <- record (Took s);; on_snd (onSnapshot cb s).

(** ** [CurrentStates] *)

Fixpoint current_states (services : list string) (states : gmap string AvailabilityState)
    : R (result goerror (gmap string AvailabilityState)) :=
  match services with
  | [] => ret (Ok states)
  | service :: services' =>
      r <- LoadUnit service;;
      match r with
      | Err e => ret (Err e)
      | Ok u =>
          r <- Snapshot u "";;
          match r with
          | Err e => ret (Err e)
          | Ok s => current_states services' (<[service := AvailabilityFromActiveState (UnitSnapshot.ActiveState s)]> states)
          end
      end
  end.

Definition CurrentStates (services : list string) : R (result goerror (gmap string AvailabilityState)) :=
  r <- Connect;;
  match r with
  | Err e => ret (Err e)
  | Ok conn =>
      out <- current_states services ∅;;
      _ <- Close conn;;
      ret out
  end.

(** ** [Monitor] *)

Definition AddUnit (u : Unit) (m : byPath) : byPath := <[unit_path u := u]> m.

(** The first unit of the service in an iteration over the map. *)
Definition byService (s : string) (m : byPath) : R (option Unit) :=
  us <- ask (λ n, map_range b n m);;
  ret (snd <$> list_find (λ u, unit_service u = s) us).

Definition Subscribe : R (option goerror) :=
  e <- ask (add_match b);; ret (Wrap "AddMatch" <$> e).

Definition handler (bootID : string) (u : Unit) : R (option goerror) :=
  r <- Snapshot u bootID;;
  match r with
  | Err e => ret (Some e)
  | Ok s => deliver s
  end.

Fixpoint handle_all (bootID : string) (us : list Unit) : R (option goerror) :=
  match us with
  | [] => ret None
  | u :: us' =>
      e <- handler bootID u;;
      match e with
      | Some e => ret (Some e)
      | None => handle_all bootID us'
      end
  end.

(** The unit a signal is about, when it is worth a snapshot. *)
Definition signal_unit (m : byPath) (sig : signal) : option Unit :=
  if negb (bool_decide (sig_Name sig = propertiesIF +:+ ".PropertiesChanged")) then None
  else
    match sig_Body sig with
    | BString iface :: BProps ps :: _ =>
        u ← m !! sig_Path sig;
        if bool_decide (iface = unitIface) && interesting ps then Some u else None
    | _ => None
    end.

(** [Monitor.Run]; [None] when [fuel] rounds were not enough. *)
Fixpoint Run (fuel : nat) (bootID : string) (m : byPath) : R (option goerror) :=
  match fuel with
  | O => ret None
  | S fuel' =>
      c <- ask (select_case b);;
      let go_on e :=
        match (e : option goerror) with
        | Some e => ret (Some e)
        | None => Run fuel' bootID m
        end in
      match c with
      | CtxDone => ret (Some (ErrNew "context canceled"))
      | ConnDone e => ret (Some (Wrap "D-Bus connection context closed" e))
      | ReconcileTick => us <- ask (λ n, map_range b n m);; e <- handle_all bootID us;; go_on e
      | SignalsClosed => ret (Some (ErrNew "D-Bus signal channel closed"))
      | SignalIn sig =>
          match signal_unit m sig with
          | None => Run fuel' bootID m
          | Some u => e <- handler bootID u;; go_on e
          end
      end
  end.

(** ** [RunResilient] *)

(** Loading the units: the monitor's map, or the first failure. *)
Fixpoint load_units (services : list string) (m : byPath) : R (option byPath) :=
  match services with
  | [] => ret (Some m)
  | service :: services' =>
      r <- LoadUnit service;;
      match r with
      | Err e => _ <- onConnectionError (Wrap ("load systemd unit " +:+ service) e);; ret None
      | Ok u => load_units services' (AddUnit u m)
      end
  end.

(** The monitor, when loading and subscribing succeeded. *)
Definition setup (services : list string) : R (option byPath) :=
  m <- load_units services ∅;;
  match m with
  | None => ret None
  | Some m =>
      e <- Subscribe;;
      match e with
      | Some e => _ <- onConnectionError (Wrap "subscribe to systemd signals" e);; ret None
      | None => ret (Some m)
      end
  end.

(** The first snapshots: all taken, one failed, or the callback refused. *)
Inductive first_result := AllTaken | OneFailed | Refused (e : goerror).
Fixpoint first_snapshots (services : list string) (bootID : string) (m : byPath) : R first_result :=
  match services with
  | [] => ret AllTaken
  | service :: services' =>
      u <- byService service m;;
      match u with
      | None => first_snapshots services' bootID m
      | Some u =>
          r <- Snapshot u bootID;;
          match r with
          | Err e => _ <- onConnectionError (Wrap ("initial snapshot " +:+ service) e);; ret OneFailed
          | Ok s =>
              e <- deliver s;;
              match e with
              | Some e => ret (Refused e)
              | None => first_snapshots services' bootID m
              end
          end
      end
  end.

(** The callback is told of the gap, once. *)
Definition recover_gap (disconnectedAt : time) : R unit :=
  if IsZero disconnectedAt then ret tt
  else
    until <- time_Now;;
    e <- on_snd (onRecovery cb disconnectedAt until);;
    _ <- record (Recovery disconnectedAt until e);;
    match e with
    | Some e => onConnectionError (Wrap "journal recovery" e)
    | None => ret tt
    end.

(** A connection that was never monitored is closed, then forgotten by the
    debug endpoint; one that was is forgotten first. *)
Definition drop_conn (conn : nat) : R unit :=
  _ <- Close conn;; modify_fst (SetDebugDBus None).
Definition release_conn (conn : nat) : R unit :=
  _ <- modify_fst (SetDebugDBus None);; Close conn.

(** What one turn of the loop leaves: the error [RunResilient] returns, or the
    locals [connectedOnce] and [disconnectedAt] of the next turn. *)
Inductive turn := Return (e : goerror) | Again (connectedOnce : bool) (disconnectedAt : time) | OutOfFuel.

Definition canceled : goerror := ErrNew "context canceled".

(** The reconnect timer against the end of the context. *)
Definition pause (interval : Duration) (connectedOnce : bool) : R bool :=
  if connectedOnce then _ <- record (Paused interval);; ctx_Err else ret false.

(** Connected and subscribed: recover, take the snapshots, monitor. *)
Definition monitor (fuel : nat) (services : list string) (conn : nat) (m : byPath) (bootID : string)
    (connectedOnce : bool) (disconnectedAt : time) : R turn :=
  _ <- recover_gap disconnectedAt;;
  first <- first_snapshots services bootID m;;
  match first with
  | Refused e => _ <- drop_conn conn;; ret (Return e)
  | OneFailed => _ <- drop_conn conn;; ret (Again connectedOnce zero_time)
  | AllTaken =>
      now <- time_Now;;
      _ <- record (ConnState true now);;
      _ <- on_snd (onConnectionState cb true now);;
      runErr <- Run fuel bootID m;;
      match runErr with
      | None => ret OutOfFuel
      | Some e =>
          _ <- release_conn conn;;
          stop <- ctx_Err;;
          if (stop : bool) then ret (Return canceled)
          else
            at_ <- time_Now;;
            _ <- record (ConnState false at_);;
            _ <- on_snd (onConnectionState cb false at_);;
            _ <- onConnectionError (Wrap "systemd D-Bus monitoring lost" e);;
            ret (Again true at_)
      end
  end.

Definition resilient_turn (fuel : nat) (services : list string) (interval : Duration)
    (connectedOnce : bool) (disconnectedAt : time) : R turn :=
  stop <- pause interval connectedOnce;;
  if (stop : bool) then ret (Return canceled)
  else
    r <- Connect;;
    match r with
    | Err e =>
        stop <- ctx_Err;;
        if (stop : bool) then ret (Return canceled)
        else _ <- onConnectionError (Wrap "connect system D-Bus" e);; ret (Again connectedOnce disconnectedAt)
    | Ok conn =>
        _ <- modify_fst (SetDebugDBus (Some conn));;
        m <- setup services;;
        match m with
        | None => _ <- drop_conn conn;; ret (Again connectedOnce disconnectedAt)
        | Some m =>
            r <- ask (boot_id b);;
            match r with
            | Err e => _ <- drop_conn conn;; ret (Return (Wrap "read boot id" e))
            | Ok bootID => monitor fuel services conn m bootID connectedOnce disconnectedAt
            end
        end
    end.

(** The loop; [None] when [turns] were not enough. *)
Fixpoint run_turns (turns fuel : nat) (services : list string) (interval : Duration)
    (connectedOnce : bool) (disconnectedAt : time)
    : R (option goerror) :=
  match turns with
  | O => ret None
  | S turns' =>
      t <- resilient_turn fuel services interval connectedOnce disconnectedAt;;
      match t with
      | Return e => ret (Some e)
      | OutOfFuel => ret None
      | Again once at_ => run_turns turns' fuel services interval once at_
      end
  end.

Definition RunResilient (turns fuel : nat) (services : list string) (reconnectInterval : Duration)
    : R (option goerror) :=
  let interval := if reconnectInterval <=? 0 then Second else reconnectInterval in
  run_turns turns fuel services interval false zero_time.
End Client.
