(* ===== verification/SystemdTheorems.v ===== *)
(** * SystemdTheorems: what [RunResilient] and the snapshots promise

    The connection loop is checked against a small automaton over the acts it
    records: after a gap in the monitoring the recovery callback is called once,
    with the moment the connection was lost, before any snapshot is handed over. *)

From S2P Require Import Prelude GoTime GoStrings Model Json GoOS GoText GoFloat Systemd.

(** ** Specification automaton *)

(** Not connected and nothing to recover; monitoring; not connected since [t],
    with the recovery callback still to be called. *)
Inductive phase := Idle | Live | Down (since : time).

(** The zero time stands for no gap. *)
Definition gap_phase (disconnectedAt : time) : phase :=
  if IsZero disconnectedAt then Idle else Down disconnectedAt.

Definition phase_step (p : phase) (a : act) : option phase :=
  match p, a with
  | Idle, (Paused _ | ConnectFailed | Reported _ | Took _) => Some Idle
  | Idle, ConnState true _ => Some Live
  | Live, Took _ => Some Live
  | Live, ConnState false t => Some (gap_phase t)
  | Down t, (Paused _ | ConnectFailed | Reported _) => Some (Down t)
  | Down t, Recovery from _ _ => if from =? t then Some Idle else None
  | _, _ => None
  end.

Definition run_phase (p : phase) (acts : list act) : option phase :=
  foldl (λ op a, p ← op; phase_step p a) (Some p) acts.

Lemma run_phase_snoc p acts a :
  run_phase p (acts ++ [a]) = (q ← run_phase p acts; phase_step q a).
Proof. unfold run_phase. by rewrite foldl_app. Qed.

Lemma foldl_phase_None acts : foldl (λ op a, p ← op; phase_step p a) None acts = None.
Proof. by induction acts. Qed.

Lemma run_phase_app p acts acts' :
  run_phase p (acts ++ acts') = (q ← run_phase p acts; run_phase q acts').
Proof.
  unfold run_phase. rewrite foldl_app. destruct (foldl _ _ acts) as [q|]; [done|]. apply foldl_phase_None.
Qed.

(** An open gap is left by the call of the recovery callback only. *)
Lemma down_until_recovered t acts s p :
  run_phase (Down t) (acts ++ [Took s]) = Some p → ∃ u e, Recovery t u e ∈ acts.
Proof.
  induction acts as [|a acts IH]; [done|]. simpl. unfold run_phase in *. simpl.
  destruct a as [d| |from u re|s0|c at_|e]; simpl; rewrite ?foldl_phase_None; try done;
    try (intros H; apply IH in H as (u0 & e0 & Hu); exists u0, e0; by right).
  destruct (Z.eqb_spec from t) as [->|_]; [|by rewrite foldl_phase_None]. intros _. exists u, re. by left.
Qed.

(** ** The connection and the phase of a client *)

(** The open connections: none, or the one the debug endpoint knows. *)
Definition holds (k : option nat) (c : Client.t) : Prop :=
  Client.debugDBus c = k ∧ Client.live c = match k with None => ∅ | Some n => {[n]} end ∧ (Client.peak c <= 1)%nat.
Definition at_phase (p : phase) (k : option nat) (c : Client.t) : Prop :=
  run_phase Idle (Client.trace c) = Some p ∧ holds k c.

Section Loop.
Context {X : Type} (b : bus) (cb : callbacks X).
Notation R := (M (Client.t * X)).

(** [m] goes from clients in [P] to clients in [Q a], [a] its value. *)
Definition goes {A} (P : Client.t → Prop) (m : R A) (Q : A → Client.t → Prop) : Prop :=
  ∀ s a s', P s.1 → m s = (a, s') → Q a s'.1.
(** [m] leaves the phase and the connection as they are. *)
Definition stays {A} (p : phase) (m : R A) : Prop :=
  ∀ k, goes (at_phase p k) m (λ _, at_phase p k).

Lemma goes_ret {A} P (a : A) (Q : A → Client.t → Prop) : (∀ c, P c → Q a c) → goes P (ret a) Q.
Proof. intros HQ s a' s' HP [= <- <-]. by apply HQ. Qed.

Lemma goes_bind {A B} P Q Q' (m : R A) (f : A → R B) :
  goes P m Q → (∀ a, goes (Q a) (f a) Q') → goes P (bind m f) Q'.
Proof. intros Hm Hf s y s' HP H. bind_inv H as a s1 H1. eapply Hf; [|exact H]. by eapply Hm. Qed.

Lemma stays_ret {A} p (a : A) : stays p (ret a).
Proof. intros k. by apply goes_ret. Qed.

Lemma stays_bind {A B} p (m : R A) (f : A → R B) :
  stays p m → (∀ a, stays p (f a)) → stays p (bind m f).
Proof. intros Hm Hf k. eapply goes_bind; [apply Hm|]. intros a. apply Hf. Qed.

Lemma stays_ask {A} p (f : nat → A) : stays p (ask f).
Proof. intros k [c x] a s' HP [= _ <-]. exact HP. Qed.

Lemma stays_on_snd {A} p (m : M X A) : stays p (on_snd m).
Proof. intros k [c x] a s' HP H. by apply on_snd_inv in H as (x' & _ & ->). Qed.

Lemma goes_record p p' k a :
  phase_step p a = Some p' → goes (at_phase p k) (record a) (λ _, at_phase p' k).
Proof.
  intros Hs [c x] u s' [Ht Hk] [= _ <-]. split; [|exact Hk].
  cbn [fst Client.trace] in *. by rewrite run_phase_snoc, Ht.
Qed.

Lemma stays_record p a : phase_step p a = Some p → stays p (record a).
Proof. intros Hs k. by apply goes_record. Qed.

Create HintDb stays.
Hint Resolve stays_ret stays_bind stays_ask stays_on_snd : stays.
Ltac solve_stays :=
  repeat first
    [ progress intros
    | solve [eauto 2 with stays]
    | apply stays_record; reflexivity
    | apply stays_bind
    | match goal with |- stays _ (match ?x with _ => _ end) => destruct x end ].

Lemma stays_LoadUnit p service : stays p (LoadUnit b service).
Proof. unfold LoadUnit. solve_stays. Qed.
Lemma stays_Snapshot p u bootID : stays p (Snapshot b u bootID).
Proof. unfold Snapshot, time_Now. solve_stays. Qed.
Hint Resolve stays_LoadUnit stays_Snapshot : stays.

(** Errors are reported and snapshots taken as the phase allows. *)
Definition reports (p : phase) : Prop := ∀ e, phase_step p (Reported e) = Some p.
Definition takes (p : phase) : Prop := ∀ s, phase_step p (Took s) = Some p.

Lemma stays_load_units p services m : reports p → stays p (load_units b services m).
Proof.
  intros Hp. induction services as [|service services IH] in m |- *; simpl; [solve_stays|].
  apply stays_bind; [solve_stays|]. intros [u|e]; [apply IH|].
  apply stays_bind; [apply stays_record, Hp|solve_stays].
Qed.

Lemma stays_setup p services : reports p → stays p (setup b services).
Proof.
  intros Hp. apply stays_bind; [by apply stays_load_units|]. intros [m|]; [|solve_stays].
  apply stays_bind; [unfold Subscribe; solve_stays|]. intros [e|]; [|solve_stays].
  apply stays_bind; [apply stays_record, Hp|solve_stays].
Qed.

Lemma stays_deliver p s : takes p → stays p (deliver cb s).
Proof. intros Hp. apply stays_bind; [apply stays_record, Hp|solve_stays]. Qed.

Lemma stays_handler p bootID u : takes p → stays p (handler b cb bootID u).
Proof.
  intros Hp. apply stays_bind; [solve_stays|]. intros [s|e]; [by apply stays_deliver|solve_stays].
Qed.

Lemma stays_handle_all p bootID us : takes p → stays p (handle_all b cb bootID us).
Proof.
  intros Hp. induction us as [|u us IH]; simpl; [solve_stays|].
  apply stays_bind; [by apply stays_handler|]. intros [e|]; [solve_stays|apply IH].
Qed.

Lemma stays_Run p fuel bootID m : takes p → stays p (Run b cb fuel bootID m).
Proof.
  intros Hp. induction fuel as [|fuel IH]; simpl; [solve_stays|].
  apply stays_bind; [solve_stays|]. intros [|e| |sig|]; [solve_stays..| | |solve_stays].
  - apply stays_bind; [solve_stays|]. intros us.
    apply stays_bind; [by apply stays_handle_all|]. intros [e|]; [solve_stays|apply IH].
  - destruct (signal_unit m sig); [|apply IH].
    apply stays_bind; [by apply stays_handler|]. intros [e|]; [solve_stays|apply IH].
Qed.

Lemma stays_first_snapshots p services bootID m :
  takes p → reports p → stays p (first_snapshots b cb services bootID m).
Proof.
  intros Ht Hr. induction services as [|service services IH]; simpl; [solve_stays|].
  apply stays_bind; [unfold byService; solve_stays|]. intros [u|]; [|apply IH].
  apply stays_bind; [solve_stays|]. intros [s|e]; swap 1 2.
  - apply stays_bind; [apply stays_record, Hr|solve_stays].
  - apply stays_bind; [by apply stays_deliver|]. intros [e|]; [solve_stays|apply IH].
Qed.

Lemma goes_recover_gap k at_ :
  goes (at_phase (gap_phase at_) k) (recover_gap b cb at_) (λ _, at_phase Idle k).
Proof.
  unfold recover_gap, gap_phase. destruct (IsZero at_); [by apply goes_ret|].
  eapply goes_bind; [apply stays_ask|]. intros now.
  eapply goes_bind; [apply stays_on_snd|]. intros e.
  eapply goes_bind; [apply (goes_record _ Idle); simpl; by rewrite Z.eqb_refl|]. intros ?.
  destruct e as [e|]; [|by apply goes_ret]. by apply stays_record.
Qed.

Lemma goes_drop_conn p conn :
  goes (at_phase p (Some conn)) (drop_conn conn) (λ _, at_phase p None).
Proof.
  intros [c x] u s' (Ht & _ & Hl & Hp) [= _ <-]. split; [exact Ht|]. split; [done|]. simpl in *. rewrite Hl.
  split; [set_solver|done].
Qed.
Lemma goes_release_conn p conn :
  goes (at_phase p (Some conn)) (release_conn conn) (λ _, at_phase p None).
Proof.
  intros [c x] u s' (Ht & _ & Hl & Hp) [= _ <-]. split; [exact Ht|]. split; [done|]. simpl in *. rewrite Hl.
  split; [set_solver|done].
Qed.

Lemma goes_Connect p :
  phase_step p ConnectFailed = Some p →
  goes (at_phase p None) (Connect b) (λ r c,
    match r with
    | Err _ => at_phase p None c
    | Ok conn => at_phase p (Some conn) (SetDebugDBus (Some conn) c)
    end).
Proof.
  intros Hp. eapply goes_bind; [apply stays_ask|]. intros [e|].
  - eapply goes_bind; [by apply goes_record|]. intros ?. by apply goes_ret.
  - intros [c x] r s' (Ht & Hd & Hl & Hp0) [= <- <-]. split; [exact Ht|]. split; [done|].
    simpl in *. rewrite Hl. rewrite (right_id_L ∅ (∪)), size_singleton. split; [done|lia].
Qed.

Lemma reports_gap at_ : reports (gap_phase at_).
Proof. intros e. unfold gap_phase. by destruct (IsZero at_). Qed.

(** What a turn leaves behind. *)
Definition after_turn (t : turn) (c : Client.t) : Prop :=
  match t with
  | Return _ => ∃ p, at_phase p None c
  | Again _ at_ => at_phase (gap_phase at_) None c
  | OutOfFuel => ∃ p k, at_phase p (Some k) c
  end.

Lemma goes_monitor fuel services conn m bootID once at_ :
  goes (at_phase (gap_phase at_) (Some conn)) (monitor b cb fuel services conn m bootID once at_) after_turn.
Proof.
  eapply goes_bind; [apply goes_recover_gap|]. intros ?.
  eapply goes_bind; [by apply stays_first_snapshots|]. intros [| |e].
  - eapply goes_bind; [apply stays_ask|]. intros now.
    eapply goes_bind; [by apply (goes_record _ Live)|]. intros ?.
    eapply goes_bind; [apply stays_on_snd|]. intros ?.
    eapply goes_bind; [by apply stays_Run|]. intros [e|]; [|apply goes_ret; simpl; by eauto].
    eapply goes_bind; [apply goes_release_conn|]. intros ?.
    eapply goes_bind; [apply stays_ask|]. intros [|]; [apply goes_ret; simpl; by eauto|].
    eapply goes_bind; [apply stays_ask|]. intros t.
    eapply goes_bind; [by apply (goes_record _ (gap_phase t))|]. intros ?.
    eapply goes_bind; [apply stays_on_snd|]. intros ?.
    eapply goes_bind; [apply stays_record, reports_gap|]. intros ?. by apply goes_ret.
  - eapply goes_bind; [apply goes_drop_conn|]. intros ?. by apply goes_ret.
  - eapply goes_bind; [apply goes_drop_conn|]. intros ?. apply goes_ret. simpl. by eauto.
Qed.

Lemma goes_turn fuel services interval once at_ :
  goes (at_phase (gap_phase at_) None) (resilient_turn b cb fuel services interval once at_) after_turn.
Proof.
  eapply goes_bind.
  { unfold pause. destruct once; [|apply stays_ret].
    eapply goes_bind; [apply stays_record|intros ?; apply stays_ask]. unfold gap_phase. by destruct (IsZero at_). }
  intros [|]; [apply goes_ret; simpl; by eauto|].
  eapply goes_bind; [apply goes_Connect; unfold gap_phase; by destruct (IsZero at_)|].
  intros [conn|e].
  - eapply (goes_bind _ (λ _, at_phase (gap_phase at_) (Some conn))); [by intros [c x] u s' HP [= _ <-]|]. intros ?.
    eapply goes_bind; [apply stays_setup, reports_gap|]. intros [m|].
    + eapply goes_bind; [apply stays_ask|]. intros [bootID|e]; [apply goes_monitor|].
      eapply goes_bind; [apply goes_drop_conn|]. intros ?. apply goes_ret. simpl. by eauto.
    + eapply goes_bind; [apply goes_drop_conn|]. intros ?. by apply goes_ret.
  - eapply goes_bind; [apply stays_ask|]. intros [|]; [apply goes_ret; simpl; by eauto|].
    eapply goes_bind; [apply stays_record, reports_gap|]. intros ?. by apply goes_ret.
Qed.

Lemma goes_turns turns fuel services interval once at_ :
  goes (at_phase (gap_phase at_) None) (run_turns b cb turns fuel services interval once at_)
    (λ r c, ∃ p k, at_phase p k c ∧ (r ≠ None → k = None)).
Proof.
  induction turns as [|turns IH] in once, at_ |- *; simpl.
  - apply goes_ret. intros c Hc. by exists (gap_phase at_), None.
  - eapply goes_bind; [apply goes_turn|]. intros [e|once' at'|]; [|apply IH|].
    + apply goes_ret. intros c [p Hp]. by exists p, None.
    + apply goes_ret. intros c (p & k & Hp). by exists p, (Some k).
Qed.

Lemma RunResilient_spec turns fuel services interval x :
  let '(r, s') := RunResilient b cb turns fuel services interval (Client.empty, x) in
  ∃ p k, at_phase p k s'.1 ∧ (r ≠ None → k = None).
Proof.
  destruct (RunResilient b cb turns fuel services interval (Client.empty, x)) as [r s'] eqn:H.
  eapply goes_turns in H; [exact H|]. split; [done|]. split_and!; [done..|]. simpl. lia.
Qed.
End Loop.

(** ** Snapshots and the states read at startup *)

Definition text_names : list string := ["ActiveState"; "SubState"].
Lemma text_property_Ok service ps name s :
  text_property service ps name = Ok s ↔ ps !! name = Some (VString s).
Proof. unfold text_property. destruct (ps !! name) as [[]|]; naive_solver. Qed.

Lemma timestamp_property_Ok service ps name n :
  timestamp_property service ps name = Ok n ↔ ∃ v, ps !! name = Some v ∧ asUint64 v = n.
Proof. unfold timestamp_property. destruct (ps !! name) as [v|]; naive_solver. Qed.


(** The D-Bus values that carry the number [n]. *)
Inductive encodes : Z → variant → Prop :=
  | encodes_uint64 n : in_u64 n → encodes n (VUint64 n)
  | encodes_int64 n : 0 <= n < 2 ^ 63 → encodes n (VInt64 n)
  | encodes_uint32 n : 0 <= n < 2 ^ 32 → encodes n (VUint32 n).

Lemma encodes_asUint64 n v : encodes n v → asUint64 v = n.
Proof. intros [m _|m Hm|m _]; simpl; [done| |done]. destruct (Z.leb_spec 0 m); lia. Qed.

(** The properties of a unit whose state is [s], among any others. *)
Definition publishes (ps : props) (s : UnitSnapshot.t) : Prop :=
  ps !! "ActiveState" = Some (VString (UnitSnapshot.ActiveState s)) ∧
  ps !! "SubState" = Some (VString (UnitSnapshot.SubState s)) ∧
  (∃ v, ps !! "ActiveEnterTimestamp" = Some v ∧ encodes (UnitSnapshot.ActiveEnterTimestampUS s) v) ∧
  (∃ v, ps !! "ActiveExitTimestamp" = Some v ∧ encodes (UnitSnapshot.ActiveExitTimestampUS s) v) ∧
  (∃ v, ps !! "ActiveEnterTimestampMonotonic" = Some v ∧ encodes (UnitSnapshot.ActiveEnterTimestampMonotonicUS s) v) ∧
  (∃ v, ps !! "ActiveExitTimestampMonotonic" = Some v ∧ encodes (UnitSnapshot.ActiveExitTimestampMonotonicUS s) v).

(** The property that stays a snapshot from being made. *)
Definition unusable (ps : props) (name : string) : Prop :=
  ps !! name = None ∨ (name ∈ text_names ∧ ∃ v, ps !! name = Some v ∧ ∀ s, v ≠ VString s).

Lemma text_property_Err service ps name e :
  name ∈ text_names → text_property service ps name = Err e → unusable ps name.
Proof.
  unfold text_property, unusable. intros Hn. destruct (ps !! name) as [v|]; [|by left].
  intros He. right. split; [done|]. exists v. split; [done|]. by destruct v.
Qed.

Lemma timestamp_property_Err service ps name e :
  timestamp_property service ps name = Err e → unusable ps name.
Proof. unfold timestamp_property, unusable. destruct (ps !! name); [done|by left]. Qed.

(** One binding of [snapshotFromProperties]: the property, or its error. *)
Ltac take_property :=
  match goal with
  | |- context [text_property ?sv ?ps ?n] =>
      let v := fresh "v" in let H := fresh "H" in
      destruct (text_property sv ps n) as [v|v] eqn:H; simpl;
      [ apply text_property_Ok in H
      | exists n; split; [set_solver | apply text_property_Err in H; [done|set_solver]] ]
  | |- context [timestamp_property ?sv ?ps ?n] =>
      let v := fresh "v" in let H := fresh "H" in
      destruct (timestamp_property sv ps n) as [v|v] eqn:H; simpl;
      [ apply timestamp_property_Ok in H
      | exists n; split; [set_solver | by apply timestamp_property_Err in H] ]
  end.

Lemma snapshot_fails service bootID observedAt ps :
  match snapshotFromProperties service bootID observedAt ps with
  | Ok _ => True
  | Err _ => ∃ name, name ∈ watched ∧ unusable ps name
  end.
Proof. unfold snapshotFromProperties. do 6 take_property. done. Qed.

Section Startup.
Context {X : Type} (b : bus).
Notation R := (M (Client.t * X)).

Lemma current_states_dom services states s out s' :
  current_states (X := X) b services states s = (Ok out, s') →
  dom out = dom states ∪ list_to_set services.
Proof.
  induction services as [|service services IH] in states, s |- *; simpl.
  { intros [= <- _]. set_solver. }
  intros H. bind_inv H as r s1 H1. destruct r as [u|e]; [|discriminate H].
  bind_inv H as r s2 H2. destruct r as [sn|e]; [|discriminate H]. apply IH in H. set_solver.
Qed.

Lemma same_live_Snapshot u bootID s r s' :
  Snapshot (X := X) b u bootID s = (r, s') → Client.live s'.1 = Client.live s.1.
Proof. destruct s. by intros [= _ <-]. Qed.
Lemma same_live_LoadUnit service s r s' :
  LoadUnit (X := X) b service s = (r, s') → Client.live s'.1 = Client.live s.1.
Proof. destruct s. by intros [= _ <-]. Qed.

Lemma current_states_live services states s r s' :
  current_states (X := X) b services states s = (r, s') → Client.live s'.1 = Client.live s.1.
Proof.
  induction services as [|service services IH] in states, s |- *; simpl; [by intros [= _ <-]|].
  intros H. bind_inv H as u s1 H1. apply same_live_LoadUnit in H1. rewrite <- H1.
  destruct u as [u|e]; [|by injection H as _ <-].
  bind_inv H as sn s2 H2. apply same_live_Snapshot in H2. rewrite <- H2.
  destruct sn; [by eapply IH|by injection H as _ <-].
Qed.
End Startup.

(** ** Sample runs *)

Definition sample_props : props :=
  list_to_map [("ActiveState", VString "active"); ("SubState", VString "running");
    ("ActiveEnterTimestamp", VUint64 5000); ("ActiveExitTimestamp", VUint64 0);
    ("ActiveEnterTimestampMonotonic", VUint64 4000); ("ActiveExitTimestampMonotonic", VInt64 (-1))].
Definition no_callbacks : callbacks () :=
  Callbacks () (λ _, ret None) (λ _ _, ret tt) (λ _ _, ret None).

(** The connection is lost after the first snapshot; the second connection is
    made, but its first snapshot fails; the third works. *)
Definition flaky_bus : bus := {|
  connect _ := None;
  load_unit _ s := Replied ("/unit/" +:+ s);
  add_match _ := None;
  get_all n _ := if (n =? 19)%nat then CallFailed (Errno 110) else Replied sample_props;
  map_range _ m := (map_to_list m).*2;
  select_case n := if (n =? 8)%nat then ConnDone (Errno 104) else CtxDone;
  boot_id _ := Ok "b1";
  clock n := Z.of_nat n * Second;
  ctx_cancelled n := (30 <=? n)%nat;
|}.
(** No connection is ever made. *)
Definition dead_bus : bus :=
  Bus (λ _, Some (Errno 111)) (λ _ _, CallFailed (Errno 111)) (λ _, None) (λ _ _, CallFailed (Errno 111))
    (λ _ _, []) (λ _, CtxDone) (λ _, Ok "b1") (λ n, Z.of_nat n) (λ _, false).

(** The acts that are not reports of errors. *)
Definition quiet_acts (acts : list act) : list act :=
  filter (λ a, is_true (match a with Reported _ => false | _ => true end)) acts.

Lemma quiet_acts_app l l' : quiet_acts (l ++ l') = quiet_acts l ++ quiet_acts l'.
Proof. apply filter_app. Qed.

Lemma refused_turns {X} (b : bus) (cb : callbacks X) turns fuel services interval at_ c x :
  (∀ n, is_Some (connect b n)) → (∀ n, ctx_cancelled b n = false) →
  ∃ c', run_turns b cb turns fuel services interval false at_ (c, x) = (None, (c', x)) ∧
    quiet_acts (Client.trace c') = quiet_acts (Client.trace c) ++ replicate turns ConnectFailed.
Proof.
  intros Hc Hx. induction turns as [|turns IH] in c |- *; [by exists c; rewrite app_nil_r|].
  destruct (Hc (Client.calls c)) as [e He].
  set (c1 := Client.mk (S (S (Client.calls c))) (Client.opened c) (Client.live c) (Client.peak c) (Client.debugDBus c)
    ((Client.trace c ++ [ConnectFailed]) ++ [Reported (Wrap "connect system D-Bus" (Wrap "connect system bus" e))])).
  assert (resilient_turn b cb fuel services interval false at_ (c, x) = (Again false at_, (c1, x))) as Ht.
  { unfold resilient_turn, pause, Connect, ask, bind, ret. simpl. rewrite He. simpl. by rewrite Hx. }
  destruct (IH c1) as (c' & Hr & Ha). exists c'. split.
  - simpl. unfold bind. by rewrite Ht.
  - rewrite Ha. simpl. rewrite !quiet_acts_app. simpl. by rewrite app_nil_r, <- app_assoc.
Qed.

Module SystemdClaims.

(** C12: For every bus, all callbacks and any number of turns, what
    [RunResilient] does is accepted by the connection automaton: the
    connection state alternates, and snapshots are handed over only while no
    gap is open. In particular, between the report of a lost connection and
    the next snapshot the callback [onRecovery] was called, and had returned,
    with the moment of the loss, unless that is the zero time, as its
    beginning. What it returned does not matter, and which part of the journal
    it reads is its own choice. *)
Theorem gap_reported_before_snapshots {X} (b : bus) (cb : callbacks X) turns fuel services interval x :
  let acts := Client.trace (RunResilient b cb turns fuel services interval (Client.empty, x)).2.1 in
  (∃ p, run_phase Idle acts = Some p) ∧
  (∀ before t between s after, IsZero t = false →
     acts = before ++ [ConnState false t] ++ between ++ [Took s] ++ after →
     ∃ u e, Recovery t u e ∈ between).
Proof.
  pose proof (RunResilient_spec b cb turns fuel services interval x) as H.
  destruct (RunResilient b cb turns fuel services interval (Client.empty, x)) as [r s'].
  destruct H as (p & k & [Hp _] & _). cbn [fst snd]. split; [by exists p|].
  intros before t between s after Ht E. rewrite E in Hp.
  rewrite run_phase_app in Hp. destruct (run_phase Idle before) as [q|]; [|done].
  cbn [mbind option_bind] in Hp. rewrite run_phase_app in Hp.
  assert (run_phase q [ConnState false t] = Some (Down t) ∨ run_phase q [ConnState false t] = None) as [El|El]
    by (unfold run_phase, phase_step, gap_phase; destruct q; simpl; rewrite ?Ht; auto).
  - rewrite El in Hp. cbn [mbind option_bind] in Hp. rewrite app_assoc, run_phase_app in Hp.
    destruct (run_phase (Down t) (between ++ [Took s])) as [q'|] eqn:Hq; [|done].
    by eapply down_until_recovered.
  - by rewrite El in Hp.
Qed.

(** C22: At no moment does [RunResilient] hold more than one open connection.
    When it returns, every connection it opened is closed and the debug
    endpoint knows none; as long as it has not returned, between two turns of
    its loop and while it waits for signals the open connections are the one
    the debug endpoint knows, or none. *)
Theorem connections_are_not_leaked {X} (b : bus) (cb : callbacks X) turns fuel services interval x :
  let '(r, s') := RunResilient b cb turns fuel services interval (Client.empty, x) in
  (Client.peak s'.1 <= 1)%nat ∧
  match r with
  | Some _ => Client.live s'.1 = ∅ ∧ Client.debugDBus s'.1 = None
  | None => Client.live s'.1 = list_to_set (option_list (Client.debugDBus s'.1))
  end.
Proof.
  pose proof (RunResilient_spec b cb turns fuel services interval x) as H.
  destruct (RunResilient b cb turns fuel services interval (Client.empty, x)) as [r s'].
  destruct H as (p & k & (_ & Hd & Hl & Hp) & Hr). split; [done|]. destruct r.
  - by rewrite Hr in Hd, Hl.
  - rewrite Hl, Hd. destruct k; simpl; set_solver.
Qed.

(** C36: A snapshot made from the D-Bus properties of a unit is the state they
    describe, whether a timestamp comes as an unsigned 64-bit, a non-negative
    signed 64-bit or an unsigned 32-bit number; no snapshot is made exactly
    when one of the six watched properties is missing or one of the two texts
    is not a string. *)
Theorem snapshot_reads_every_property (s : UnitSnapshot.t) service bootID observedAt (ps : props) :
  (publishes ps s →
     snapshotFromProperties (UnitSnapshot.Service s) (UnitSnapshot.BootID s) (UnitSnapshot.ObservedAt s) ps = Ok s) ∧
  ((∃ msg, snapshotFromProperties service bootID observedAt ps = Err msg) ↔
     (∃ name, name ∈ watched ∧ ps !! name = None) ∨
     (∃ name v, name ∈ ["ActiveState"; "SubState"] ∧ ps !! name = Some v ∧ ∀ text, v ≠ VString text)).
Proof.
  split.
  - intros (H1 & H2 & (v1 & H3 & E1) & (v2 & H4 & E2) & (v3 & H5 & E3) & (v4 & H6 & E4)).
    unfold snapshotFromProperties, text_property, timestamp_property. rewrite H1, H2, H3, H4, H5, H6. simpl.
    rewrite (encodes_asUint64 _ _ E1), (encodes_asUint64 _ _ E2), (encodes_asUint64 _ _ E3), (encodes_asUint64 _ _ E4).
    by destruct s.
  - assert ((∃ name, name ∈ watched ∧ unusable ps name) ↔
      (∃ name, name ∈ watched ∧ ps !! name = None) ∨
      (∃ name v, name ∈ text_names ∧ ps !! name = Some v ∧ ∀ text, v ≠ VString text)) as <-.
    { unfold unusable. split; [naive_solver|].
      intros [(name & ? & ?)|(name & v & Hin & ? & ?)]; exists name; [tauto|]. split; [|eauto].
      unfold text_names in Hin. set_solver. }
    split.
    + intros [msg E]. pose proof (snapshot_fails service bootID observedAt ps) as H. by rewrite E in H.
    + intros (name & Hin & Hbad). unfold snapshotFromProperties.
      destruct (text_property service ps "ActiveState") as [t1|] eqn:P1; simpl; [|by eexists].
      destruct (text_property service ps "SubState") as [t2|] eqn:P2; simpl; [|by eexists].
      destruct (timestamp_property service ps "ActiveEnterTimestamp") as [n1|] eqn:P3; simpl; [|by eexists].
      destruct (timestamp_property service ps "ActiveExitTimestamp") as [n2|] eqn:P4; simpl; [|by eexists].
      destruct (timestamp_property service ps "ActiveEnterTimestampMonotonic") as [n3|] eqn:P5; simpl; [|by eexists].
      destruct (timestamp_property service ps "ActiveExitTimestampMonotonic") as [n4|] eqn:P6; simpl; [|by eexists].
      apply text_property_Ok in P1, P2. apply timestamp_property_Ok in P3 as (? & P3 & _), P4 as (? & P4 & _),
        P5 as (? & P5 & _), P6 as (? & P6 & _). exfalso.
      destruct Hbad as [Hnone|(Ht & v & Hv & Hne)].
      * unfold watched in Hin. rewrite !elem_of_cons, elem_of_nil in Hin. destruct_or! Hin; subst; congruence || done.
      * unfold text_names in Ht. rewrite !elem_of_cons, elem_of_nil in Ht. destruct_or! Ht; subst; simplify_eq; by eapply Hne.
Qed.

(** [CurrentStates] closes the connection it made, and when it succeeds it has
    a state for each of the units and for no other. *)
Theorem startup_states_are_complete {X} (b : bus) services (s : Client.t * X) r s' :
  Client.opened s.1 ∉ Client.live s.1 →
  CurrentStates b services s = (r, s') →
  Client.live s'.1 = Client.live s.1 ∧
  (∀ states, r = Ok states → dom states = list_to_set services).
Proof.
  intros Hfresh H. destruct s as [c x]. unfold CurrentStates in H. bind_inv H as conn s1 H1.
  unfold Connect, ask, bind, ret in H1. simpl in H1. destruct (connect b (Client.calls c)) eqn:E.
  - injection H1 as <- <-. injection H as <- <-. done.
  - injection H1 as <- <-. bind_inv H as out s2 H2. pose proof (current_states_live _ _ _ _ _ _ H2) as Hl.
    destruct s2 as [c2 x2]. injection H as <- <-. simpl in *. split.
    + rewrite Hl. set_solver.
    + intros states ->. apply current_states_dom in H2. set_solver.
Qed.

Lemma startup_states_are_complete_witness :
  Client.live (CurrentStates flaky_bus ["a"; "b"] (Client.empty, tt)).2.1 = ∅ ∧
  (∀ states, (CurrentStates flaky_bus ["a"; "b"] (Client.empty, tt)).1 = Ok states →
     dom states = list_to_set ["a"; "b"]).
Proof.
  refine (startup_states_are_complete flaky_bus ["a"; "b"] (Client.empty, tt)
    (CurrentStates flaky_bus ["a"; "b"] (Client.empty, tt)).1 (CurrentStates flaky_bus ["a"; "b"] (Client.empty, tt)).2 _ _).
  - simpl. apply not_elem_of_empty.
  - by vm_compute.
Defined.

(** As long as no connection was ever made, every turn is one more attempt,
    with no pause in between. *)
Theorem first_connection_is_retried_without_pause {X} (b : bus) (cb : callbacks X) turns fuel services interval x :
  (∀ n, is_Some (connect b n)) → (∀ n, ctx_cancelled b n = false) →
  quiet_acts (Client.trace (RunResilient b cb turns fuel services interval (Client.empty, x)).2.1)
    = replicate turns ConnectFailed.
Proof.
  intros Hc Hx. unfold RunResilient.
  destruct (refused_turns b cb turns fuel services (if interval <=? 0 then Second else interval) zero_time
    Client.empty x Hc Hx) as (c' & -> & Ha). exact Ha.
Qed.

Lemma first_connection_is_retried_without_pause_witness :
  quiet_acts (Client.trace (RunResilient dead_bus no_callbacks 3 5 ["a"] Second (Client.empty, tt)).2.1)
    = [ConnectFailed; ConnectFailed; ConnectFailed].
Proof.
  apply (first_connection_is_retried_without_pause dead_bus no_callbacks 3 5 ["a"] Second tt).
  - intros n. by exists (Errno 111).
  - done.
Defined.

(** A connection is lost at 10 s; [onRecovery] is called for the time up to 16
    s, the first snapshot of the new connection fails, and the connection that
    works at 28 s is made without calling it for the time since 16 s. *)
Theorem failed_reconnection_is_not_recovered :
  let acts := Client.trace (RunResilient flaky_bus no_callbacks 3 5 ["a"] Second (Client.empty, tt)).2.1 in
  filter (λ a, is_true (match a with Recovery _ _ _ | ConnState _ _ => true | _ => false end)) acts
    = [ConnState true (7 * Second); ConnState false (10 * Second); Recovery (10 * Second) (16 * Second) None;
       ConnState true (28 * Second)].
Proof. vm_compute. reflexivity. Qed.
End SystemdClaims.
