(* ===== verification/Identity.v ===== *)
(** * Identity: internal/identity/identity.go

    The names of this host, and the warnings about an [instance] label that
    was copied from another one. [hostname] stands for [os.Hostname]. *)

From S2P Require Import Prelude GoStrings Json GoOS GoText.

Definition instanceLabel : string := "instance".
Definition quote_label (s : string) : string := of_bytes [quote] +:+ s +:+ of_bytes [quote].

(** The text before the first of the bytes, all of it when there is none. *)
Definition before_any (s chars : string) : string :=
  match IndexAny s chars with
  | Some i => of_bytes (take i (to_bytes s))
  | None => s
  end.
Definition blanks : string := of_bytes [" "%char; byte 9; byte 10; byte 13].

Definition normalizeHostname (s : string) : string :=
  before_any (TrimSuffix (ToLower (TrimSpace s)) ".") blanks.

Definition appendUnique (names : list string) (name : string) : list string :=
  if bool_decide (name ∈ names) then names else names ++ [name].

Definition appendHostname (names : list string) (raw : string) : list string :=
  let host := normalizeHostname raw in
  if bool_decide (host = "") || bool_decide (host = "localhost") then names
  else
    let names := appendUnique names host in
    match IndexByte (to_bytes host) "."%char with
    | Some ((S _) as i) => appendUnique names (of_bytes (take i (to_bytes host)))
    | _ => names
    end.

Section Identity.
Context (faults : oracle).

Definition LocalHostnames (hostname : result goerror string) : M world (list string) :=
  let names := match hostname with Ok host => appendHostname [] host | Err _ => [] end in
  r <- ReadFile faults "/etc/hostname";;
  ret (match r with Ok body => appendHostname names (of_bytes body) | Err _ => names end).
End Identity.

Definition PrimaryHostname (names : list string) : string :=
  match names with [] => "unknown" | name :: _ => name end.

Definition host_matches (want host : string) : bool :=
  let got := normalizeHostname host in
  negb (bool_decide (got = "")) &&
  (bool_decide (want = got) || HasPrefix want (got +:+ ".") || HasPrefix got (want +:+ ".")).
Definition MatchesHost (instance : string) (hostnames : list string) : bool :=
  let want := normalizeHostname instance in
  negb (bool_decide (want = "")) && existsb (host_matches want) hostnames.

Definition Warnings (labels : gmap string string) (hostnames : list string) : list string :=
  let instance := TrimSpace (default "" (labels !! instanceLabel)) in
  if bool_decide (instance = "") then
    ["remote_write identity: label instance is not set; two exporters with the remaining labels write the same systemd_service_state series"]
  else if MatchesHost instance hostnames then []
  else
    ["remote_write identity: configured instance=" +:+ quote_label instance +:+ " does not match this host (" +:+
     JoinWith ", " hostnames +:+ "); a second exporter with the same labels will overwrite systemd_service_state"].

Definition FormatLabels (labels : gmap string string) : string :=
  if bool_decide (labels = ∅) then "(none)"
  else
    let names := sort_stable (λ a b, String.ltb a b) ((map_to_list labels).*1) in
    JoinWith " " ((λ name, name +:+ "=" +:+ quote_label (default "" (labels !! name))) <$> names).

(** ** Facts *)

Lemma appendUnique_elem names name x : x ∈ appendUnique names name ↔ x ∈ names ∨ x = name.
Proof. unfold appendUnique. case_bool_decide; set_solver. Qed.

Lemma appendUnique_NoDup names name : NoDup names → NoDup (appendUnique names name).
Proof.
  unfold appendUnique. case_bool_decide; [done|]. intros. apply NoDup_app.
  split_and!; [done|set_solver|apply NoDup_singleton].
Qed.

Lemma appendHostname_NoDup names raw : NoDup names → NoDup (appendHostname names raw).
Proof. intros. unfold appendHostname. repeat case_match; auto using appendUnique_NoDup. Qed.

Lemma appendHostname_keeps names raw x : x ∈ names → x ∈ appendHostname names raw.
Proof. intros. unfold appendHostname. repeat case_match; rewrite ?appendUnique_elem; auto. Qed.

Lemma appendHostname_host names raw :
  normalizeHostname raw ≠ "" → normalizeHostname raw ≠ "localhost" →
  normalizeHostname raw ∈ appendHostname names raw.
Proof.
  intros. unfold appendHostname. rewrite !bool_decide_eq_false_2 by done. simpl.
  repeat case_match; rewrite ?appendUnique_elem; auto.
Qed.

(** Two names are of one host when one continues the other after a dot. *)
Definition same_host (a b : string) : Prop :=
  a = b ∨ (∃ domain, a = b +:+ "." +:+ domain) ∨ (∃ domain, b = a +:+ "." +:+ domain).

Lemma HasPrefix_spec s p : HasPrefix s p = true ↔ ∃ r, s = p +:+ r.
Proof.
  unfold HasPrefix. induction p as [|c p IH] in s |- *; [by split; [exists s|destruct s]|].
  destruct s as [|d s]; simpl; [by split; [|intros [r ?]]|].
  destruct (Ascii.ascii_dec c d) as [->|Hn]; [rewrite IH|].
  - split; intros [r Hr]; exists r; [by rewrite Hr|by injection Hr].
  - split; [done|]. intros [r Hr]. by injection Hr as ->.
Qed.

Lemma string_append_assoc (a b c : string) : (a +:+ b) +:+ c = a +:+ (b +:+ c).
Proof. induction a as [|x a IH]; [done|]. exact (f_equal (String x) IH). Qed.

Lemma host_matches_spec want host :
  host_matches want host = true ↔ normalizeHostname host ≠ "" ∧ same_host want (normalizeHostname host).
Proof.
  unfold host_matches, same_host. rewrite andb_true_iff, negb_true_iff, bool_decide_eq_false, !orb_true_iff.
  rewrite bool_decide_eq_true, !HasPrefix_spec. setoid_rewrite string_append_assoc. tauto.
Qed.

Lemma MatchesHost_spec instance hostnames :
  MatchesHost instance hostnames = true ↔
    normalizeHostname instance ≠ "" ∧
    ∃ host, host ∈ hostnames ∧ normalizeHostname host ≠ "" ∧ same_host (normalizeHostname instance) (normalizeHostname host).
Proof.
  unfold MatchesHost. rewrite andb_true_iff, negb_true_iff, bool_decide_eq_false, existsb_exists.
  setoid_rewrite host_matches_spec. setoid_rewrite <- list_elem_of_In. tauto.
Qed.

Module IdentityClaims.

(** The local host names are distinct, and no warning is given exactly when
    the instance label, normalised, is one of them up to a domain after a dot.
    *)
Theorem warned_unless_instance_is_local labels hostname faults w :
  let '(names, _) := LocalHostnames faults hostname w in
  let instance := TrimSpace (default "" (labels !! instanceLabel)) in
  NoDup names ∧
  (Warnings labels names = [] ↔
     normalizeHostname instance ≠ "" ∧
     ∃ host, host ∈ names ∧ normalizeHostname host ≠ "" ∧
       same_host (normalizeHostname instance) (normalizeHostname host)).
Proof.
  destruct (LocalHostnames faults hostname w) as [names w'] eqn:H. cbn zeta. split.
  - unfold LocalHostnames in H. bind_inv H as r w1 Hr. unfold ret in H. simplify_eq.
    destruct hostname, r; auto using appendHostname_NoDup, NoDup_nil_2.
  - rewrite <- MatchesHost_spec. unfold Warnings. case_bool_decide as Hi.
    + rewrite Hi. done.
    + destruct (MatchesHost _ names); [done|]. split; [|done].
      intros [=].
Qed.
End IdentityClaims.
