(* ===== verification/Metrics.v ===== *)
(** * Metrics: internal/metrics/metrics.go

    The registry behind [/metrics] and the text it answers with. Its mutex is
    held for the whole of every operation, so an operation is one step. *)

From S2P Require Import Prelude GoTime GoStrings Model Json GoText GoFloat RemoteWrite.

(** [t.Sub(u)] saturates, and [d.Seconds()]. *)
Definition time_Sub (t u : time) : Duration := Z.max (- 2 ^ 63) (Z.min (2 ^ 63 - 1) (t - u)).
Definition fadd : float64 → float64 → float64 := SFadd 53 1024.
Definition Seconds (d : Duration) : float64 :=
  fadd (float_of_Z (Z.quot d Second)) (fdiv (float_of_Z (Z.rem d Second)) (float_of_Z 1000000000)).

Module Registry.
Record t := mk {
  states : gmap string AvailabilityState;
  up : gmap string Z;
  down : gmap string Z;
  last : gmap string Z;
  dbusConnected : bool;
  dbusDisconnects : Z;
  dbusLastChangeMS : Z;
  dbusDisconnectedAt : time;
  identityHostname : string;
  identityInstance : string;
  identityListen : string;
  remoteWrite : gmap string Stats.t;
  remoteWriteDropped : gmap string Z;
  recoveryAttempts : Z;
  recoverySlotStartMS : Z;
  recoverySlotEndMS : Z;
  uncoveredSeconds : float64;
  walEnabled : bool;
  walWritable : bool;
  walPending : Z;
}.
Definition New : t :=
  mk ∅ ∅ ∅ ∅ false 0 0 zero_time "" "" "" ∅ ∅ 0 0 0 (S754_zero false) false false 0.

(** The fields about services, about D-Bus, and the others. *)
Definition with_services (st : gmap string AvailabilityState) (u d l : gmap string Z) (r : t) : t :=
  mk st u d l (dbusConnected r) (dbusDisconnects r) (dbusLastChangeMS r) (dbusDisconnectedAt r)
    (identityHostname r) (identityInstance r) (identityListen r) (remoteWrite r) (remoteWriteDropped r)
    (recoveryAttempts r) (recoverySlotStartMS r) (recoverySlotEndMS r) (uncoveredSeconds r)
    (walEnabled r) (walWritable r) (walPending r).
Definition with_dbus (connected : bool) (disconnects changeMS : Z) (disconnectedAt : time) (r : t) : t :=
  mk (states r) (up r) (down r) (last r) connected disconnects changeMS disconnectedAt
    (identityHostname r) (identityInstance r) (identityListen r) (remoteWrite r) (remoteWriteDropped r)
    (recoveryAttempts r) (recoverySlotStartMS r) (recoverySlotEndMS r) (uncoveredSeconds r)
    (walEnabled r) (walWritable r) (walPending r).
Definition with_remote (stats : gmap string Stats.t) (dropped : gmap string Z) (r : t) : t :=
  mk (states r) (up r) (down r) (last r) (dbusConnected r) (dbusDisconnects r) (dbusLastChangeMS r) (dbusDisconnectedAt r)
    (identityHostname r) (identityInstance r) (identityListen r) stats dropped
    (recoveryAttempts r) (recoverySlotStartMS r) (recoverySlotEndMS r) (uncoveredSeconds r)
    (walEnabled r) (walWritable r) (walPending r).
End Registry.

Definition SetIdentity (hostname instance listen : string) (r : Registry.t) : Registry.t :=
  Registry.mk (Registry.states r) (Registry.up r) (Registry.down r) (Registry.last r)
    (Registry.dbusConnected r) (Registry.dbusDisconnects r) (Registry.dbusLastChangeMS r) (Registry.dbusDisconnectedAt r)
    hostname instance listen (Registry.remoteWrite r) (Registry.remoteWriteDropped r)
    (Registry.recoveryAttempts r) (Registry.recoverySlotStartMS r) (Registry.recoverySlotEndMS r)
    (Registry.uncoveredSeconds r) (Registry.walEnabled r) (Registry.walWritable r) (Registry.walPending r).

Definition SetWALStatus (writable : bool) (pending : Z) (r : Registry.t) : Registry.t :=
  Registry.mk (Registry.states r) (Registry.up r) (Registry.down r) (Registry.last r)
    (Registry.dbusConnected r) (Registry.dbusDisconnects r) (Registry.dbusLastChangeMS r) (Registry.dbusDisconnectedAt r)
    (Registry.identityHostname r) (Registry.identityInstance r) (Registry.identityListen r)
    (Registry.remoteWrite r) (Registry.remoteWriteDropped r)
    (Registry.recoveryAttempts r) (Registry.recoverySlotStartMS r) (Registry.recoverySlotEndMS r)
    (Registry.uncoveredSeconds r) true writable pending.

Definition SetState (service : string) (state : AvailabilityState) (r : Registry.t) : Registry.t :=
  Registry.with_services (<[service := state]> (Registry.states r)) (Registry.up r) (Registry.down r) (Registry.last r) r.

(** [m[k]++] and [m[k] += n] on a map of [uint64]. *)
Definition count (k : string) (n : Z) (m : gmap string Z) : gmap string Z :=
  <[k := u64 (default 0 (m !! k) + n)]> m.

Definition reg_Event (e : Event.t) (r : Registry.t) : Registry.t :=
  let service := Event.Service e in
  Registry.with_services
    (<[service := Event.State e]> (Registry.states r))
    (if decide (Event.State e = StateUp) then count service 1 (Registry.up r) else Registry.up r)
    (if decide (Event.State e = StateDown) then count service 1 (Registry.down r) else Registry.down r)
    (<[service := Event.EventTimeUnixMS e]> (Registry.last r)) r.

Definition SetDBusConnected (connected : bool) (at_ : time) (r : Registry.t) : Registry.t :=
  if Bool.eqb (Registry.dbusConnected r) connected then r
  else if connected then Registry.with_dbus true (Registry.dbusDisconnects r) (UnixMilli at_) zero_time r
  else Registry.with_dbus false (u64 (Registry.dbusDisconnects r + 1)) (UnixMilli at_) at_ r.

Definition SetRemoteWriteStats (target : string) (stats : Stats.t) (r : Registry.t) : Registry.t :=
  Registry.with_remote (<[target := stats]> (Registry.remoteWrite r)) (Registry.remoteWriteDropped r) r.

Definition AddDroppedEvents (target : string) (n : Z) (r : Registry.t) : Registry.t :=
  if n <=? 0 then r
  else Registry.with_remote (Registry.remoteWrite r) (count target n (Registry.remoteWriteDropped r)) r.

Definition RecordRecovery (observedFrom slotStart slotEnd : time) (r : Registry.t) : Registry.t :=
  Registry.mk (Registry.states r) (Registry.up r) (Registry.down r) (Registry.last r)
    (Registry.dbusConnected r) (Registry.dbusDisconnects r) (Registry.dbusLastChangeMS r) (Registry.dbusDisconnectedAt r)
    (Registry.identityHostname r) (Registry.identityInstance r) (Registry.identityListen r)
    (Registry.remoteWrite r) (Registry.remoteWriteDropped r)
    (u64 (Registry.recoveryAttempts r + 1)) (UnixMilli slotStart) (UnixMilli slotEnd)
    (if Before observedFrom slotStart then Seconds (time_Sub slotStart observedFrom) else S754_zero false)
    (Registry.walEnabled r) (Registry.walWritable r) (Registry.walPending r).

(** ** The text *)

Definition promLabel (v : string) : string :=
  let l := ReplaceByte backslash [backslash; backslash] (to_bytes v) in
  let l := ReplaceByte quote [backslash; quote] l in
  let l := ReplaceByte newline [backslash; "n"%char] l in
  of_bytes ([quote] ++ l ++ [quote]).

(** A metric: its help, its type, and its samples as label text and value. *)
Record family := Family {
  fam_name : string; fam_help : string; fam_type : string; fam_samples : list (string * string) }.

Definition flag (b : bool) : string := if b then "1" else "0".
Definition float_text (f : float64) : string := of_bytes (FormatG f).
Definition seconds_text (ms : Z) : string := float_text (fdiv (float_of_Z ms) (float_of_Z 1000)).
Definition disconnected_seconds (now : time) (r : Registry.t) : float64 :=
  if negb (Registry.dbusConnected r) && negb (IsZero (Registry.dbusDisconnectedAt r))
  then Seconds (time_Sub now (Registry.dbusDisconnectedAt r)) else S754_zero false.
Definition stats (r : Registry.t) (target : string) : Stats.t :=
  default (Stats.mk 0 0 0 0) (Registry.remoteWrite r !! target).
Definition per_target (targets : list string) (value : string → Z) : list (string * string) :=
  (λ t, ("{target=" +:+ Quote t +:+ "}", Itoa (value t))) <$> targets.

Definition families (now : time) (r : Registry.t) : list family :=
  let targets := sort_stable (λ a b, String.ltb a b) ((map_to_list (Registry.remoteWrite r)).*1) in
  [Family "identity_info"
     "Host identity used to detect two exporters writing the same Remote Write series."
     "gauge"
     [("{hostname=" +:+ promLabel (Registry.identityHostname r) +:+ ",instance=" +:+
     promLabel (Registry.identityInstance r) +:+ ",listen=" +:+ promLabel (Registry.identityListen r) +:+ "}", "1")]] ++
  (if Registry.walEnabled r then
    [Family "wal_writable"
     "Whether the event WAL can currently accept a write (1 writable, 0 disk full or over quota)."
     "gauge"
     [("", (flag (Registry.walWritable r)))];
     Family "wal_pending_events"
     "Transition events held in memory because the WAL could not store them."
     "gauge"
     [("", (Itoa (Registry.walPending r)))]]
   else []) ++
  [Family "dbus_connected"
     "Whether the exporter is currently connected to the system D-Bus (1 connected, 0 disconnected)."
     "gauge"
     [("", (flag (Registry.dbusConnected r)))];
   Family "dbus_disconnects_total"
     "Total number of system D-Bus disconnections observed by the exporter."
     "counter"
     [("", (Itoa (Registry.dbusDisconnects r)))];
   Family "dbus_last_change_timestamp_seconds"
     "Unix timestamp of the last system D-Bus connection state change."
     "gauge"
     [("", (seconds_text (Registry.dbusLastChangeMS r)))];
   Family "dbus_disconnected_seconds"
     "Duration in seconds of the current system D-Bus disconnection, or 0 when connected."
     "gauge"
     [("", (float_text (disconnected_seconds now r)))];
   Family "remote_write_successful_requests_total"
     "Total number of successful Remote Write HTTP requests."
     "counter"
     (per_target targets (λ t, Stats.SuccessfulRequests (stats r t)));
   Family "remote_write_failed_requests_total"
     "Total number of failed Remote Write HTTP requests or rejected requests."
     "counter"
     (per_target targets (λ t, Stats.FailedRequests (stats r t)));
   Family "remote_write_retries_total"
     "Total number of Remote Write retry attempts."
     "counter"
     (per_target targets (λ t, Stats.Retries (stats r t)));
   Family "remote_write_samples_sent_total"
     "Total number of samples accepted by the Remote Write endpoint in successful requests."
     "counter"
     (per_target targets (λ t, Stats.SentSamples (stats r t)));
   Family "remote_write_dropped_events_total"
     "Total number of transition events dropped after a permanent Remote Write rejection."
     "counter"
     (per_target targets (λ t, default 0 (Registry.remoteWriteDropped r !! t)));
   Family "recovery_attempts_total"
     "Total number of aligned journal recovery slots attempted."
     "counter"
     [("", (Itoa (Registry.recoveryAttempts r)))];
   Family "recovery_slot_start_timestamp_seconds"
     "Start of the last local-time recovery slot as a Unix timestamp."
     "gauge"
     [("", (seconds_text (Registry.recoverySlotStartMS r)))];
   Family "recovery_slot_end_timestamp_seconds"
     "End of the last journal recovery query as a Unix timestamp."
     "gauge"
     [("", (seconds_text (Registry.recoverySlotEndMS r)))];
   Family "recovery_uncovered_seconds"
     "Portion of the last requested observation gap before the current recovery slot that was intentionally not recovered."
     "gauge"
     [("", (float_text (Registry.uncoveredSeconds r)))]].

Definition prefix : string := "systemd_transition_exporter_".
Definition family_lines (f : family) : list string :=
  ["# HELP " +:+ prefix +:+ fam_name f +:+ " " +:+ fam_help f;
   "# TYPE " +:+ prefix +:+ fam_name f +:+ " " +:+ fam_type f] ++
  ((λ '(labels, value), prefix +:+ fam_name f +:+ labels +:+ " " +:+ value) <$> fam_samples f).

(** [Registry.Handler]: the body of the answer; every print ends a line. *)
Definition lines (now : time) (r : Registry.t) : list string := mbind family_lines (families now r).
Definition Handler (now : time) (r : Registry.t) : bytes :=
  mbind (λ l, to_bytes l ++ [newline]) (lines now r).
