(* ===== verification/MetricsTheorems.v ===== *)
(** * MetricsTheorems: the registry counts, and a scrape reads back *)

From S2P Require Import Prelude GoTime GoStrings Model Json GoText GoFloat RemoteWrite Metrics.

(** ** Text without line ends *)

Definition clean (l : bytes) : Prop := newline ∉ l.

Lemma clean_app l k : clean (l ++ k) ↔ clean l ∧ clean k.
Proof. unfold clean. rewrite not_elem_of_app. tauto. Qed.
Lemma clean_cons c l : clean (c :: l) ↔ c ≠ newline ∧ clean l.
Proof. unfold clean. rewrite not_elem_of_cons. naive_solver. Qed.
Lemma clean_nil : clean [].
Proof. unfold clean. set_solver. Qed.
Lemma clean_subseteq l k : l ⊆ k → clean k → clean l.
Proof. unfold clean. set_solver. Qed.
Lemma clean_mbind (f : ascii → bytes) l : (∀ c, clean (f c)) → clean (mbind f l).
Proof. intros Hf H. apply list_elem_of_bind in H as (c & Hc & _). by apply (Hf c). Qed.

Lemma clean_FormatInt n : clean (FormatInt n).
Proof.
  assert (∀ m, 0 <= m → clean (FormatInt m)) as Hpos.
  { intros m Hm Hin. apply FormatInt_digits in Hm. rewrite Forall_forall in Hm.
    apply Hm in Hin as [d Hd]. by vm_compute in Hd. }
  destruct (Z.ltb_spec n 0) as [Hn|Hn]; [|by apply Hpos].
  specialize (Hpos (- n) ltac:(lia)). unfold FormatInt in *.
  rewrite (proj2 (Z.ltb_lt n 0)) by done. rewrite (proj2 (Z.ltb_ge (- n) 0)) in Hpos by lia.
  apply clean_cons. by rewrite ?Z.abs_neq by lia.
Qed.

Lemma strip_zeros_subseteq l : strip_zeros l ⊆ l.
Proof.
  induction l as [|c l IH]; [done|]. simpl. repeat case_match; try done; set_solver.
Qed.
Lemma clean_drop_zeros l : clean l → clean (drop_zeros l).
Proof.
  apply clean_subseteq. unfold drop_zeros. intros c Hc. rewrite elem_of_reverse in Hc.
  apply strip_zeros_subseteq in Hc. by rewrite elem_of_reverse in Hc.
Qed.
Lemma clean_cut n l : clean l → clean (take n l) ∧ clean (drop n l).
Proof. intros H. by rewrite <- clean_app, take_drop. Qed.
Lemma clean_replicate n c : c ≠ newline → clean (replicate n c).
Proof. intros Hc H. by apply elem_of_replicate_inv in H. Qed.

Create HintDb clean.
#[export] Hint Resolve clean_nil clean_FormatInt clean_drop_zeros clean_replicate : clean.
Lemma clean_take n l : clean l → clean (take n l).
Proof. apply clean_cut. Qed.
Lemma clean_drop n l : clean l → clean (drop n l).
Proof. apply clean_cut. Qed.
#[export] Hint Resolve clean_take clean_drop : clean.

(** Texts put together from clean ones. *)
Ltac solve_clean :=
  repeat first
    [ solve [auto with clean]
    | rewrite to_bytes_app
    | rewrite to_of_bytes
    | apply clean_app; split
    | apply clean_cons; split; [done|]
    | case_match
    | match goal with
      | |- clean (to_bytes (String _ _)) => idtac
      | |- clean (to_bytes EmptyString) => idtac
      | |- clean (_ :: _) => idtac
      end; apply (bool_decide_unpack _); vm_compute; exact I ].

Lemma clean_fmtE d exp : clean d → clean (fmtE d exp).
Proof. intros. unfold fmtE. solve_clean. Qed.
Lemma clean_fmtF d dp : clean d → clean (fmtF d dp).
Proof. intros. unfold fmtF. cbn zeta. solve_clean. Qed.
#[export] Hint Resolve clean_fmtE clean_fmtF : clean.

Lemma clean_FormatG f : clean (FormatG f).
Proof.
  unfold FormatG. destruct f as [s|s| |s m e]; [solve_clean..|].
  destruct (shortest_digits _ m e) as [text dp] eqn:E. cbn zeta.
  assert (clean text) by (unfold shortest_digits in E; destruct (shortest _ _ _ _ _ _); simplify_eq; solve_clean).
  solve_clean.
Qed.
#[export] Hint Resolve clean_FormatG : clean.

(** ** Escaping *)

Definition escape (c : ascii) : bytes :=
  if ascii_dec c backslash then [backslash; backslash]
  else if ascii_dec c quote then [backslash; quote]
  else if ascii_dec c newline then [backslash; "n"%char]
  else [c].

Lemma promLabel_escape v : to_bytes (promLabel v) = [quote] ++ mbind escape (to_bytes v) ++ [quote].
Proof.
  unfold promLabel. rewrite to_of_bytes. do 2 f_equal.
  induction (to_bytes v) as [|c l IH]; [done|].
  unfold ReplaceByte in *. rewrite !bind_cons, !bind_app, IH. f_equal. clear IH.
  destruct c as [[] [] [] [] [] [] [] []]; reflexivity.
Qed.




Lemma clean_promLabel v : clean (to_bytes (promLabel v)).
Proof.
  rewrite promLabel_escape. apply clean_app. split; [solve_clean|]. apply clean_app. split; [|solve_clean].
  apply clean_mbind. intros c. unfold escape. repeat case_match; repeat (apply clean_cons; split; try done); apply clean_nil.
Qed.
Lemma clean_Quote s : clean (to_bytes (Quote s)).
Proof.
  unfold Quote. rewrite to_of_bytes. apply clean_app. split; [solve_clean|]. apply clean_app. split; [|solve_clean].
  apply clean_mbind. intros c. destruct c as [[] [] [] [] [] [] [] []]; apply (bool_decide_unpack _); vm_compute; exact I.
Qed.
Lemma clean_float f : clean (to_bytes (float_text f)).
Proof. unfold float_text. solve_clean. Qed.
Lemma clean_seconds ms : clean (to_bytes (seconds_text ms)).
Proof. apply clean_float. Qed.
Lemma clean_Itoa n : clean (to_bytes (Itoa n)).
Proof. unfold Itoa. solve_clean. Qed.
Lemma clean_flag b : clean (to_bytes (flag b)).
Proof. destruct b; solve_clean. Qed.
#[export] Hint Resolve clean_promLabel clean_Quote clean_float clean_seconds clean_Itoa clean_flag : clean.

(** ** Lines *)








(** ** The text format of Prometheus *)





(** ** What a registry exposes *)









Lemma promLabel_length v : (2 <= length (to_bytes (promLabel v)))%nat.
Proof. rewrite promLabel_escape, !length_app. simpl. lia. Qed.









(** ** Counting *)

Definition events_of (s : string) (st : AvailabilityState) (es : list Event.t) : list Event.t :=
  filter (λ e, Event.Service e = s ∧ Event.State e = st) es.
Definition last_of (s : string) (es : list Event.t) : option Event.t :=
  last (filter (λ e, Event.Service e = s) es).

Definition registry_of (es : list Event.t) : Registry.t := foldl (λ r e, reg_Event e r) Registry.New es.

Lemma count_lookup k n m s :
  default 0 (count k n m !! s) = if decide (k = s) then u64 (default 0 (m !! s) + n) else default 0 (m !! s).
Proof. unfold count. destruct (decide (k = s)) as [->|]; [by rewrite lookup_insert_eq|by rewrite lookup_insert_ne]. Qed.

Lemma u64_count n : u64 (u64 n + 1) = u64 (n + 1).
Proof. unfold u64. by rewrite Zplus_mod_idemp_l. Qed.

(** The counters of one state, for all services. *)
Lemma counted (get : Registry.t → gmap string Z) st es s :
  get Registry.New = ∅ →
  (∀ e r, get (reg_Event e r) = if decide (Event.State e = st) then count (Event.Service e) 1 (get r) else get r) →
  default 0 (get (registry_of es) !! s) = u64 (#(events_of s st es)).
Proof.
  intros Hnew Hstep. unfold registry_of, events_of. induction es as [|e es IH] using rev_ind; [by simpl; rewrite Hnew|].
  rewrite foldl_app. simpl. rewrite Hstep, filter_app, length_app, filter_cons, filter_nil.
  destruct (decide (Event.State e = st)) as [Hst|Hst].
  - rewrite count_lookup. destruct (decide (Event.Service e = s)) as [Hs|Hs].
    + rewrite decide_True by done. rewrite IH, u64_count. simpl. f_equal. lia.
    + rewrite decide_False by naive_solver. by rewrite IH, Nat.add_0_r.
  - rewrite decide_False by naive_solver. by rewrite IH, Nat.add_0_r.
Qed.

Lemma last_seen es s :
  Registry.states (registry_of es) !! s = Event.State <$> last_of s es ∧
  Registry.last (registry_of es) !! s = Event.EventTimeUnixMS <$> last_of s es.
Proof.
  unfold registry_of, last_of. induction es as [|e es IH] using rev_ind; [done|].
  rewrite foldl_app, filter_app, filter_cons, filter_nil. simpl.
  destruct (decide (Event.Service e = s)) as [<-|Hs].
  - by rewrite !lookup_insert_eq, last_snoc.
  - by rewrite !lookup_insert_ne, app_nil_r.
Qed.

Module MetricsClaims.



(** After any events the counters of a service are the numbers of its UP and
    of its DOWN events, modulo 2^64, and its state and time are those of its
    last event. *)
Theorem registry_counts_transitions es s :
  let r := registry_of es in
  default 0 (Registry.up r !! s) = u64 (#(events_of s StateUp es)) ∧
  default 0 (Registry.down r !! s) = u64 (#(events_of s StateDown es)) ∧
  Registry.states r !! s = Event.State <$> last_of s es ∧
  Registry.last r !! s = Event.EventTimeUnixMS <$> last_of s es.
Proof.
  cbn zeta. split_and!; [by apply (counted Registry.up)|by apply (counted Registry.down)|apply last_seen..].
Qed.
End MetricsClaims.
