(* ===== verification/Main.v ===== *)
(** * Main: cmd/systemd-transition-exporter/main.go, the running exporter

    The closures that [main] hands to the monitor and to the probers, over the
    engine, the log, the workers, the probers and the registry. Each of these
    has a lock of its own and the closures hold none, so a closure is a program
    whose acts are the calls it makes: the other goroutines may move between any
    two of them, and [alone] is the execution in which none does. Log lines are
    not modelled. *)

From S2P Require Import Prelude GoTime GoStrings Model Json Engine Slots Journal Backfill GoOS Wal RemoteWrite Delivery GoText GoFloat Config Probe Systemd Metrics.

(** ** The exporter *)

Module Target.
Record t := mk { ID : string; sender : Sender.t; worker : Worker.t }.
Definition with_worker (w : Worker.t) (t : t) : Target.t := mk (ID t) (sender t) w.
End Target.

Module App.
Record t := mk {
  eng : Engine.t;
  reg : Registry.t;
  eventLog : option WAL.t;                     (* nil when the log is disabled *)
  disk : world;
  targets : list Target.t;
  sipProber : Prober.t;
  dnsProber : Prober.t;
  agwProber : Prober.t;
  journals : nat;                              (* the reads of the journal so far *)
}.
Definition with_eng e a := mk e (reg a) (eventLog a) (disk a) (targets a) (sipProber a) (dnsProber a) (agwProber a) (journals a).
Definition with_reg r a := mk (eng a) r (eventLog a) (disk a) (targets a) (sipProber a) (dnsProber a) (agwProber a) (journals a).
Definition with_log l d a := mk (eng a) (reg a) l d (targets a) (sipProber a) (dnsProber a) (agwProber a) (journals a).
Definition with_targets ts a := mk (eng a) (reg a) (eventLog a) (disk a) ts (sipProber a) (dnsProber a) (agwProber a) (journals a).
Definition with_sip f a := mk (eng a) (reg a) (eventLog a) (disk a) (targets a) (f (sipProber a)) (dnsProber a) (agwProber a) (journals a).
Definition with_dns f a := mk (eng a) (reg a) (eventLog a) (disk a) (targets a) (sipProber a) (f (dnsProber a)) (agwProber a) (journals a).
Definition with_agw f a := mk (eng a) (reg a) (eventLog a) (disk a) (targets a) (sipProber a) (dnsProber a) (f (agwProber a)) (journals a).
Definition next_journal a := mk (eng a) (reg a) (eventLog a) (disk a) (targets a) (sipProber a) (dnsProber a) (agwProber a) (S (journals a)).
End App.

(** What the process finds around it: the n-th read of the journal, and the
    time zone. *)
Record host := Host { journal : nat → journalctl_cmd; zone : Location }.

Definition modify {S} (f : S → S) : M S unit := λ s, (tt, f s).

(** ** Programs: the calls a goroutine makes, one after the other *)

Inductive prog (B : Type) : Type :=
  | Ret (b : B)
  | Act {C : Type} (m : M App.t C) (k : C → prog B).
Arguments Ret {B} b.
Arguments Act {B C} m k.

Fixpoint pbind {B C} (p : prog B) (f : B → prog C) : prog C :=
  match p with
  | Ret b => f b
  | Act m k => Act m (λ x, pbind (k x) f)
  end.
Notation "x <~ p ;; k" := (pbind p (λ x, k)) (at level 100, p at next level, right associativity) : go_scope.
Notation "' x <~ p ;; k" := (pbind p (λ y, match y with x => k end))
  (at level 100, x pattern, p at next level, right associativity) : go_scope.
Definition call {B} (m : M App.t B) : prog B := Act m Ret.

Fixpoint for_each {X} (l : list X) (f : X → prog unit) : prog unit :=
  match l with
  | [] => Ret tt
  | x :: l' => _ <~ f x;; for_each l' f
  end.

(** The execution without interference. *)
Fixpoint alone {B} (p : prog B) : M App.t B :=
  match p with
  | Ret b => ret b
  | Act m k => x <- m;; alone (k x)
  end.

Section Running.
Context (faults : oracle) {EC : EventCodec} {SC : StatesCodec} (h : host) (cfg : Config.Config.t).

Notation A := (M App.t).
Notation units := (Units cfg).
Notation rw := (Config.Config.RemoteWrite cfg).

(** ** The acts *)

Definition on_eng {B} (f : Engine.t → Engine.t * B) : A B :=
  λ a, let '(e, b) := f (App.eng a) in (b, App.with_eng e a).
Definition eng_State (service : string) : A (option ServiceState.t) := on_eng (λ e, (e, State service e)).
Definition on_reg (f : Registry.t → Registry.t) : A unit := modify (λ a, App.with_reg (f (App.reg a)) a).
(** A call of the log; nothing happens when there is none. *)
Definition on_log (m : M (WAL.t * world) (option goerror)) : A (option goerror) := λ a,
  match App.eventLog a with
  | None => (None, a)
  | Some w => let '(e, (w', d')) := m (w, App.disk a) in (e, App.with_log (Some w') d' a)
  end.
Definition ask_log {B} (f : WAL.t → B) : A (option B) := λ a, (f <$> App.eventLog a, a).
Definition on_worker (i : nat) (f : Worker.t → bool * Worker.t) : A unit :=
  modify (λ a, App.with_targets (alter (λ t, Target.with_worker (f (Target.worker t)).2 t) i (App.targets a)) a).
Definition count_targets : A nat := λ a, (length (App.targets a), a).
Definition ask_target {B} (f : Target.t → B) (i : nat) : A (option B) := λ a, (f <$> App.targets a !! i, a).
Definition read_journal {B} (f : journalctl_cmd → B) : A B :=
  λ a, (f (journal h (App.journals a)), App.next_journal a).

(** A loop over the receivers, which stay the same ones. *)
Definition each_target (f : nat → prog unit) : prog unit :=
  n <~ call count_targets;; for_each (seq 0 n) f.

(** ** The log *)

Definition publishWAL : prog unit :=
  writable <~ call (ask_log Writable);;
  pending <~ call (ask_log Pending);;
  match writable, pending with
  | Some writable, Some pending => call (on_reg (SetWALStatus writable pending))
  | _, _ => Ret tt
  end.
Definition appendEvent (event : Event.t) : prog (option goerror) :=
  err <~ call (on_log (Append faults event));; _ <~ publishWAL;; Ret err.
Definition saveState (state : ServiceState.t) : prog (option goerror) :=
  err <~ call (on_log (SaveState faults state));; _ <~ publishWAL;; Ret err.

Definition persistEvent (event : Event.t) (enqueue : bool) : prog (option goerror) :=
  err <~ appendEvent event;;
  match err with
  | Some e => Ret (Some e)
  | None =>
      _ <~ (if enqueue then each_target (λ i, call (on_worker i (EnqueueEvent event))) else Ret tt);;
      Ret None
  end.

(** ** Probe answers *)

(** [publishReady] after the engine has confirmed the answer. *)
Definition publish_confirmed (service : string) (event : Event.t) : prog unit :=
  err <~ persistEvent event true;;
  match err with
  | Some _ => Ret tt
  | None =>
      _ <~ call (on_reg (reg_Event event));;
      st <~ call (eng_State service);;
      _ <~ match st with Some st => saveState st | None => Ret None end;;
      call (on_reg (SetState service StateUp))
  end.
Definition publishReady (service : string) (at_ : time) (source : EventSource) : prog unit :=
  ev <~ call (on_eng (ConfirmReady service at_ source));;
  match ev with
  | None => Ret tt
  | Some event => publish_confirmed service event
  end.

(** ** Snapshots *)

Fixpoint publish_events (events : list Event.t) : prog (option goerror) :=
  match events with
  | [] => Ret None
  | event :: events' =>
      err <~ persistEvent event true;;
      match err with
      | Some e => Ret (Some e)
      | None => _ <~ call (on_reg (reg_Event event));; publish_events events'
      end
  end.

(** The state of a unit the engine does not know. *)
Definition fresh_state (s : UnitSnapshot.t) : ServiceState.t :=
  {| ServiceState.Service := UnitSnapshot.Service s;
     ServiceState.Availability := AvailabilityFromActiveState (UnitSnapshot.ActiveState s);
     ServiceState.ActiveState := UnitSnapshot.ActiveState s;
     ServiceState.SubState := UnitSnapshot.SubState s;
     ServiceState.BootID := UnitSnapshot.BootID s;
     ServiceState.LastActiveEnterTimestampUS := 0;
     ServiceState.LastActiveExitTimestampUS := 0;
     ServiceState.LastActiveEnterMonotonicUS := 0;
     ServiceState.LastActiveExitMonotonicUS := 0;
     ServiceState.LastEventTimeUnixMS := 0;
     ServiceState.LastEventMonoUS := 0;
     ServiceState.LastSequence := 0;
     ServiceState.AwaitingSIP := false |}.

(** The three probers, one after the other. *)
Definition on_probers (f : Prober.t → Prober.t) : prog unit :=
  _ <~ call (modify (App.with_sip f));;
  _ <~ call (modify (App.with_dns f));;
  call (modify (App.with_agw f)).

(** The rest of [onSnapshot] once the state is read. *)
Definition settle (svc : string) (state : ServiceState.t) : prog (option goerror) :=
  err <~ saveState state;;
  match err with
  | Some e => Ret (Some e)
  | None =>
      _ <~ call (on_reg (SetState svc (ServiceState.Availability state)));;
      _ <~ on_probers (if ServiceState.AwaitingSIP state then Start svc else Stop svc);;
      Ret None
  end.

Definition app_onSnapshot (s : UnitSnapshot.t) : prog (option goerror) :=
  let svc := UnitSnapshot.Service s in
  events <~ call (on_eng (Apply s));;
  err <~ publish_events events;;
  match err with
  | Some e => Ret (Some e)
  | None =>
      existing <~ call (eng_State svc);;
      settle svc (default (fresh_state s) existing)
  end.

(** ** Recovery *)

Fixpoint read_states (services : list string) (states : gmap string AvailabilityState)
    : prog (gmap string AvailabilityState) :=
  match services with
  | [] => Ret states
  | service :: services' =>
      st <~ call (eng_State service);;
      read_states services' (match st with
                             | Some st => <[service := ServiceState.Availability st]> states
                             | None => states
                             end)
  end.
Definition engineStates : prog (gmap string AvailabilityState) := read_states units ∅.

(** Writing an event, or the state after it, failed. *)
Inductive import_error := EventError (e : goerror) | StateError (e : goerror).
Definition import_cause (e : import_error) : goerror := match e with EventError e | StateError e => e end.

(** The events of one candidate: logged, counted and saved one by one. *)
Fixpoint import_events (events recovered : list Event.t) : prog (list Event.t * option import_error) :=
  match events with
  | [] => Ret (recovered, None)
  | event :: events' =>
      err <~ persistEvent event false;;
      match err with
      | Some e => Ret (recovered, Some (EventError e))
      | None =>
          _ <~ call (on_reg (reg_Event event));;
          st <~ call (eng_State (Event.Service event));;
          err <~ match st with Some st => saveState st | None => Ret None end;;
          match err with
          | Some e => Ret (recovered ++ [event], Some (StateError e))
          | None => import_events events' (recovered ++ [event])
          end
      end
  end.
Fixpoint import_all (candidates recovered : list Event.t) : prog (list Event.t * option import_error) :=
  match candidates with
  | [] => Ret (recovered, None)
  | candidate :: candidates' =>
      events <~ call (on_eng (ApplyRecovery candidate));;
      '(recovered', err) <~ import_events events recovered;;
      match err with
      | Some e => Ret (recovered', Some e)
      | None => import_all candidates' recovered'
      end
  end.

(** The job of the receivers, when there are any. *)
Definition hand_over_recovery (windowStart windowEnd : time) (events recovered : list Event.t)
    : prog (option goerror) :=
  n <~ call count_targets;;
  match n with
  | O => Ret None
  | _ =>
      states <~ engineStates;;
      r <~ call (read_journal (λ j, BuildStateFill j (zone h) units windowStart windowEnd events
             (RemoteWriteConfig.RecoveryFillInterval rw) states));;
      match r with
      | Err e => Ret (Some (ErrNew e))
      | Ok fill => _ <~ each_target (λ i, call (on_worker i (EnqueueRecovery fill recovered)));; Ret None
      end
  end.

Definition app_onRecovery (from to : time) : prog (option goerror) :=
  match RecoveryWindow (zone h) to (RemoteWriteConfig.RecoveryWindow rw) with
  | None => Ret None
  | Some (windowStart, windowEnd) =>
      _ <~ call (on_reg (RecordRecovery from windowStart windowEnd));;
      r <~ call (read_journal (λ j, Recover j (zone h) units windowStart windowEnd));;
      match r with
      | Err e => Ret (Some (ErrNew e))
      | Ok events =>
          '(recovered, err) <~ import_all events [];;
          match err with
          | Some e => Ret (Some (import_cause e))
          | None => hand_over_recovery windowStart windowEnd events recovered
          end
      end
  end.

Definition app_onConnectionState (connected : bool) (at_ : time) : A unit :=
  on_reg (SetDBusConnected connected at_).

(** The statistics goroutine. *)
Definition update_stats : prog unit :=
  each_target (λ i,
    st <~ call (ask_target (λ t, (Target.ID t, sender_Stats (Target.sender t))) i);;
    match st with
    | Some (id, stats) => call (on_reg (SetRemoteWriteStats id stats))
    | None => Ret tt
    end).

(** What [main] passes to [RunResilient]. *)
Definition app_callbacks : callbacks App.t :=
  Callbacks App.t (λ s, alone (app_onSnapshot s)) app_onConnectionState (λ from to, alone (app_onRecovery from to)).
End Running.

(** ** HTTP *)

Inductive method := GET | POST | OtherMethod.
(** The status of an answer, and the client after it; 404 where no handler is
    registered. *)
Definition serve (debug : bool) (path : string) (m : method) (c : Client.t) : Z * Client.t :=
  if decide (path = "/metrics") then (200, c)
  else if decide (path = "/health") then (200, c)
  else if decide (path = "/ready") then (200, c)
  else if debug && bool_decide (path = "/debug/dbus/disconnect") then
    match m with
    | POST => let '(closed, c') := DebugDisconnect c in (if (closed : bool) then 204 else 503, c')
    | _ => (405, c)
    end
  else (404, c).
