(* ===== verification/Startup.v ===== *)
(** * Startup: cmd/systemd-transition-exporter/main.go, up to the monitor

    [startup] is [main] from the loaded configuration to the point where the
    goroutines run: an exporter, or the reason for [log.Fatal]. *)

From S2P Require Import Prelude GoTime GoStrings Model Json Engine Slots Journal Backfill GoOS Wal RemoteWrite Delivery GoText GoFloat Config Probe Systemd Identity Metrics Main.

(** ** Fatal errors *)

Inductive fatal :=
  | FatalErr (what : string) (e : goerror)
  | FatalProbe (kind service target : string) (e : local_error).

(** Go on with the value, or stop. *)
Definition try {S A B} (m : M S (result fatal A)) (k : A → M S (result fatal B)) : M S (result fatal B) :=
  r <- m;; match r with Ok a => k a | Err e => ret (Err e) end.
Notation "x <-! m ;; k" := (try m (λ x, k)) (at level 70, m at next level, k at level 200, right associativity).
Definition check {S} (what : string) (m : M S (option goerror)) : M S (result fatal unit) :=
  e <- m;; ret (match e with Some e => Err (FatalErr what e) | None => Ok tt end).

(** What the process finds when it starts. [states_order] is the order in which
    Go visits the engine's states. *)
Record machine := Machine {
  around : host;
  local_interfaces : interfaces;
  os_hostname : result goerror string;
  listen_tcp : string → option goerror;
  float_out_of_range : spec_float → Z;
  states_order : Engine.t → list string;
  now_startup : time;
  now_boot : time;
  system_bus : bus;
}.

(** [-web.listen-port] overrides the port of [server.listen]; 0 leaves it. *)
Definition override_listen (port : Z) (cfg : Config.Config.t) : result string Config.Config.t :=
  if port =? 0 then Ok cfg
  else
    listen ← WithListenPort (ServerConfig.Listen (Config.Config.Server cfg)) port;
    Ok (Config.Config.mk (ServerConfig.mk listen (ServerConfig.Debug (Config.Config.Server cfg)))
          (Config.Config.Services cfg) (Config.Config.Systemd cfg) (Config.Config.WAL cfg)
          (Config.Config.RemoteWrite cfg)).

(** ** Probes *)

Module Probes.
Record t := mk { sip : list Probe.t; dns : list Probe.t; agw : list Probe.t }.
Definition services (p : t) : list string := Probe.Service <$> (sip p ++ dns p ++ agw p).
End Probes.

(** The target and the kind of the probe of a service. *)
Definition probe_target (svc : Service.t) : string * string :=
  if negb (bool_decide (Service.DNS svc = "")) then (Service.DNS svc, "dns")
  else if negb (bool_decide (Service.AGW svc = "")) then (Service.AGW svc, "agw")
  else (Service.SIP svc, "sip").
Definition probe_of (svc : Service.t) (uri : string) : Probe.t :=
  Probe.mk (Service.Name svc) uri (Service.Addr svc) (Service.Interval svc).
Definition add_probe (svc : Service.t) (target kind : string) (p : Probes.t) : Probes.t :=
  if decide (kind = "sip") then Probes.mk (Probes.sip p ++ [probe_of svc target]) (Probes.dns p) (Probes.agw p)
  else if decide (kind = "dns") then Probes.mk (Probes.sip p) (Probes.dns p ++ [probe_of svc target]) (Probes.agw p)
  else Probes.mk (Probes.sip p) (Probes.dns p) (Probes.agw p ++ [probe_of svc target]).

(** The interfaces are listed when the first probe needs them. *)
Fixpoint configure_probes (ifaces : interfaces) (services : list Service.t) (locals : list (list Z)) (p : Probes.t)
    : result fatal Probes.t :=
  match services with
  | [] => Ok p
  | svc :: services' =>
      let '(target, kind) := probe_target svc in
      if decide (target = "") then configure_probes ifaces services' locals p
      else
        match (match locals with [] => LocalIPs ifaces | _ => Ok locals end) with
        | Err e => Err (FatalErr (kind +:+ " probe") e)
        | Ok locals =>
            match RequireLocal (Service.Addr svc) locals with
            | Some e => Err (FatalProbe kind (Service.Name svc) target e)
            | None => configure_probes ifaces services' locals (add_probe svc target kind p)
            end
        end
  end.

Section Startup.
Context (faults : oracle) {EC : EventCodec} {SC : StatesCodec} (mc : machine) (cfg : Config.Config.t).

Notation A := (M App.t).
Notation units := (Units cfg).
Notation rw := (Config.Config.RemoteWrite cfg).
Notation walcfg := (Config.Config.WAL cfg).
Notation loc := (zone (around mc)).

Definition app_disk {B} (m : M world B) : A B :=
  λ a, let '(b, d) := m (App.disk a) in (b, App.with_log (App.eventLog a) d a).

(** ** The log *)

Definition restore_states (w : WAL.t) (a : App.t) : App.t :=
  foldl (λ a st, App.with_reg (SetState (ServiceState.Service st) (ServiceState.Availability st) (App.reg a))
                   (App.with_eng (RestoreState st (App.eng a)) a)) a (States w).

Definition open_log : A (result fatal unit) :=
  if negb (WALConfig.Enabled walcfg) then ret (Ok tt)
  else
    r <- app_disk (Open faults (WALConfig.Directory walcfg) (WALConfig.Fsync walcfg));;
    match r with
    | Err e => ret (Err (FatalErr "" e))
    | Ok w =>
        _ <- modify (λ a, App.with_log (Some w) (App.disk a) a);;
        _ <- alone publishWAL;;
        _ <- modify (restore_states w);;
        ret (Ok tt)
    end.

Definition walPath : string := Join (WALConfig.Directory walcfg) "events.jsonl".

(** An unreadable log is left behind. *)
Definition replay_log : A (list Event.t) :=
  if negb (WALConfig.Enabled walcfg) then ret []
  else
    '(events, _, _) <- app_disk (ReadAll faults walPath);;
    _ <- modify (λ a, foldl (λ a ev, App.with_reg (reg_Event ev (App.reg a)) (App.with_eng (Replay ev (App.eng a)) a)) a events);;
    ret events.

(** ** The boot *)

Definition boot_changed (current : string) (e : Engine.t) : bool :=
  existsb (λ service, match State service e with
                      | Some st => negb (bool_decide (ServiceState.BootID st = "")) &&
                                   negb (bool_decide (ServiceState.BootID st = current))
                      | None => false
                      end) units.

Fixpoint persist_reboot (events : list Event.t) : A (result fatal unit) :=
  match events with
  | [] => ret (Ok tt)
  | event :: events' =>
      _ <-! check "persist host reboot event" (alone (appendEvent faults event));;
      _ <- on_reg (reg_Event event);;
      persist_reboot events'
  end.
Fixpoint save_states (services : list string) : A (result fatal unit) :=
  match services with
  | [] => ret (Ok tt)
  | service :: services' =>
      st <- eng_State service;;
      match st with
      | None => save_states services'
      | Some st => _ <-! check "persist post-reboot state" (alone (saveState faults st));; save_states services'
      end
  end.

(** The downtime of a reboot. An old one has its boot adopted first, and is
    published like any other. *)
Definition apply_reboot (slotStart bootTime : time) (bootID : string) : A (result fatal unit) :=
  _ <- (if Before bootTime slotStart then modify (λ a, App.with_eng (AdoptBootID bootID (App.eng a)) a) else ret tt);;
  events <- on_eng (λ e, ApplyReboot (states_order mc e) bootID bootTime e);;
  _ <-! persist_reboot events;;
  a <- get;;
  match App.eventLog a with
  | None => ret (Ok tt)
  | Some _ => save_states units
  end.

Definition handle_boot (slotStart : time) : A (result fatal unit) :=
  r <- app_disk (BootID faults);;
  match r with
  | Err e => ret (Err (FatalErr "read current boot id" e))
  | Ok bootID =>
      a <- get;;
      if negb (boot_changed bootID (App.eng a)) then ret (Ok tt)
      else
        r <- app_disk (BootTime faults (float_out_of_range mc) (now_boot mc));;
        match r with
        | Err e => ret (Err (FatalErr "read current boot time" e))
        | Ok bootTime => apply_reboot slotStart bootTime bootID
        end
  end.

(** ** The recovery slot *)

(** The time of the newest logged event, or the configured look-back. *)
Definition observed_from (startupTo : time) (durable : list Event.t) : time :=
  match durable with
  | [] => startupTo - SystemdConfig.StartupRecoveryInterval (Config.Config.Systemd cfg)
  | ev :: evs =>
      time_UnixMilli (foldl (λ newest ev, if newest <? Event.EventTimeUnixMS ev then Event.EventTimeUnixMS ev else newest)
                        (Event.EventTimeUnixMS ev) evs)
  end.

Record recovered_slot := Slot { slot_fill : list StateSample.t; slot_events : list Event.t; slot_start : time }.

Definition import_fatal (e : import_error) : fatal :=
  match e with
  | EventError e => FatalErr "persist startup recovery event" e
  | StateError e => FatalErr "persist startup recovery state" e
  end.

Definition recover_slot (startupTo observedFrom : time) (current : gmap string AvailabilityState)
    : A (result fatal recovered_slot) :=
  match RecoveryWindow loc startupTo (RemoteWriteConfig.RecoveryWindow rw) with
  | None => ret (Ok (Slot [] [] zero_time))
  | Some (windowStart, windowEnd) =>
      _ <- on_reg (RecordRecovery observedFrom windowStart windowEnd);;
      r <- read_journal (around mc) (λ j, Recover j loc units windowStart windowEnd);;
      match r with
      | Err _ => ret (Ok (Slot [] [] windowStart))
      | Ok events =>
          '(recovered, err) <- alone (import_all faults events []);;
          match err with
          | Some e => ret (Err (import_fatal e))
          | None =>
              r <- read_journal (around mc) (λ j, BuildStateFill j loc units windowStart windowEnd events
                     (RemoteWriteConfig.RecoveryFillInterval rw) current);;
              ret (Ok (Slot (match r with Ok fill => fill | Err _ => [] end) recovered windowStart))
          end
      end
  end.

(** What the receivers start with: the log when there is one. *)
Definition startup_events (recovered : list Event.t) : A (list Event.t) :=
  if negb (WALConfig.Enabled walcfg) then ret recovered
  else '(events, _, _) <- app_disk (ReadAll faults walPath);; ret events.

(** ** Receivers *)

Definition sender_config (t : RemoteWriteTarget.t) : RemoteWrite.Config.t :=
  RemoteWrite.Config.mk true (RemoteWriteTarget.URL t) (RemoteWriteConfig.BatchSize rw)
    (RemoteWriteConfig.FlushInterval rw) (RemoteWriteConfig.RetryInterval rw) (RemoteWriteConfig.Timeout rw)
    (RemoteWriteTarget.Checkpoint t) (RemoteWriteConfig.StateInterval rw) (RemoteWriteConfig.Labels rw).
Definition worker_config (events : list Event.t) (slot : recovered_slot) : WConfig.t :=
  WConfig.mk (RemoteWriteConfig.BatchSize rw) (RemoteWriteConfig.RecoveryWindow rw) units
    events (slot_fill slot) (slot_start slot).

Fixpoint make_workers (events : list Event.t) (slot : recovered_slot) (ts : list RemoteWriteTarget.t)
    : A (result fatal unit) :=
  match ts with
  | [] => ret (Ok tt)
  | t :: ts' =>
      let id := RemoteWriteTarget.ID t in
      _ <-! check ("remote_write target=" +:+ id +:+ " checkpoint migration")
              (app_disk (MigrateCheckpoint faults (RemoteWriteTarget.LegacyCheckpoint t) (RemoteWriteTarget.Checkpoint t)));;
      r <- app_disk (RemoteWrite.New faults (sender_config t));;
      match r with
      | Err e => ret (Err (FatalErr ("remote_write target=" +:+ id) e))
      | Ok None => make_workers events slot ts'           (* not reached: [Enabled] is set *)
      | Ok (Some s) =>
          _ <- modify (λ a, App.with_targets (App.targets a ++ [Target.mk id s (NewWorker (worker_config events slot))]) a);;
          _ <- on_reg (SetRemoteWriteStats id (sender_Stats s));;
          make_workers events slot ts'
      end
  end.

(** ** [main] *)

(** The exporter before the log is opened. *)
Definition initial (hostnames : list string) (probes : Probes.t) (disk : world) : App.t :=
  App.mk (DelayUpUntilReady (Probes.services probes) Engine.New)
    (SetIdentity (PrimaryHostname hostnames) (default "" (RemoteWriteConfig.Labels rw !! instanceLabel))
       (ServerConfig.Listen (Config.Config.Server cfg)) Registry.New)
    None disk [] (NewProber (Probes.sip probes)) (NewProber (Probes.dns probes)) (NewProber (Probes.agw probes)) 0.

Definition start_app : A (result fatal unit) :=
  _ <-! open_log;;
  durable <- replay_log;;
  let startupTo := now_startup mc in
  _ <-! handle_boot (SlotStart loc startupTo (RemoteWriteConfig.RecoveryWindow rw));;
  let current := match (CurrentStates (system_bus mc) units (Client.empty, tt)).1 with Ok m => m | Err _ => ∅ end in
  slot <-! recover_slot startupTo (observed_from startupTo durable) current;;
  events <- startup_events (slot_events slot);;
  make_workers events slot (RemoteWriteConfig.Targets rw).

Definition startup (disk : world) : result fatal App.t :=
  match configure_probes (local_interfaces mc) (Config.Config.Services cfg) [] (Probes.mk [] [] []) with
  | Err e => Err e
  | Ok probes =>
      let '(hostnames, disk) := LocalHostnames faults (os_hostname mc) disk in
      match listen_tcp mc (ServerConfig.Listen (Config.Config.Server cfg)) with
      | Some e => Err (FatalErr "HTTP server" e)
      | None =>
          let '(r, a) := start_app (initial hostnames probes disk) in
          match r with Ok _ => Ok a | Err e => Err e end
      end
  end.
End Startup.
