(* ===== verification/MainFacts.v ===== *)
(** * MainFacts: what the closures of [main] keep

    Programs with and without interference between their acts; and the log and
    the queues of the receivers: whatever is handed to a receiver is in the log
    first, act by act. *)

From S2P Require Import Prelude GoTime GoStrings Model Json Engine Slots Journal Backfill GoOS Wal WalFacts RemoteWrite Delivery GoText GoFloat Config Probe Systemd Metrics Main.

(** ** Programs *)

Lemma alone_pbind {B C} (p : prog B) (f : B → prog C) a : alone (pbind p f) a = (b <- alone p;; alone (f b)) a.
Proof.
  unfold bind. induction p as [b|D m k IH] in a |- *; simpl; [done|]. unfold bind. destruct (m a) as [d a1]. apply IH.
Qed.

Lemma alone_pbind_inv {B C} (p : prog B) (f : B → prog C) a c a' :
  alone (pbind p f) a = (c, a') → ∃ b a1, alone p a = (b, a1) ∧ alone (f b) a1 = (c, a').
Proof. rewrite alone_pbind. intros H. bind_inv H as b a1 H1. by exists b, a1. Qed.

(** The next act of a goroutine. *)
Definition advance {B} (p : prog B) (a : App.t) : option (App.t * prog B) :=
  match p with
  | Ret _ => None
  | Act m k => let '(x, a') := m a in Some (a', k x)
  end.

(** [p] takes [a] to [a'] with the value [b] while the other goroutines move as
    [others] says after every act. *)
Fixpoint interleaved (others : App.t → App.t → Prop) {B} (p : prog B) (a : App.t) (b : B) (a' : App.t) : Prop :=
  match p with
  | Ret b' => b = b' ∧ a' = a
  | Act m k => ∃ x a1 a2, m a = (x, a1) ∧ others a1 a2 ∧ interleaved others (k x) a2 b a'
  end.

Section Interleaved.
Context (others : App.t → App.t → Prop).

Lemma interleaved_pbind {B C} (p : prog B) (f : B → prog C) a c a' :
  interleaved others (pbind p f) a c a' ↔
  ∃ b a1, interleaved others p a b a1 ∧ interleaved others (f b) a1 c a'.
Proof.
  induction p as [b|D m k IH] in a |- *; simpl.
  - split; [by intros H; exists b, a|]. by intros (b' & a1 & [-> ->] & H).
  - setoid_rewrite IH. naive_solver.
Qed.

Lemma interleaved_call {B} (m : M App.t B) a b a' :
  interleaved others (call m) a b a' → ∃ a1, m a = (b, a1) ∧ others a1 a'.
Proof. intros (x & a1 & a2 & Hm & Ho & -> & ->). by exists a1. Qed.

(** Nothing need happen in between. *)
Lemma alone_interleaved {B} (p : prog B) a b a' :
  (∀ x, others x x) → alone p a = (b, a') → interleaved others p a b a'.
Proof.
  intros Hr. induction p as [b0|D m k IH] in a |- *; simpl; intros H; [by injection H as <- <-|].
  bind_inv H as x a1 H1. exists x, a1, a1. split_and!; [done..|]. by apply IH.
Qed.

End Interleaved.

(** Every act moves the exporter along [R]. *)
Definition moves (R : App.t → App.t → Prop) {B} (m : M App.t B) : Prop := ∀ a b a', m a = (b, a') → R a a'.
Fixpoint pmoves (R : App.t → App.t → Prop) {B} (p : prog B) : Prop :=
  match p with
  | Ret _ => True
  | Act m k => moves R m ∧ ∀ x, pmoves R (k x)
  end.
(** In particular, it leaves [f] of it as it is. *)
Definition same {X} (f : App.t → X) (a a' : App.t) : Prop := f a' = f a.
Notation frames f := (moves (same f)).
Notation pframes f := (pmoves (same f)).

#[export] Instance same_preorder {X} (f : App.t → X) : PreOrder (same f).
Proof. split; [by intros a|]. unfold same. intros a b c. congruence. Qed.

Ltac framed := try apply _; by unfold same.

Section Moves.
Context (R : App.t → App.t → Prop) `{!PreOrder R}.

Lemma moves_ret {B} (b : B) : moves R (ret b).
Proof. by intros a b' a' [= _ <-]. Qed.
Lemma moves_bind {B C} (m : M App.t B) (k : B → M App.t C) : moves R m → (∀ b, moves R (k b)) → moves R (bind m k).
Proof. intros Hm Hk a c a' H. bind_inv H as b a1 H1. apply Hm in H1. apply Hk in H. by etrans. Qed.
Lemma pmoves_bind {B C} (p : prog B) (g : B → prog C) : pmoves R p → (∀ b, pmoves R (g b)) → pmoves R (pbind p g).
Proof. induction p as [b|D m k IH]; simpl; [auto|]. intros [Hm Hk] Hg. split; [done|]. auto. Qed.
Lemma pmoves_ret {B} (b : B) : pmoves R (Ret b).
Proof. done. Qed.
Lemma pmoves_call {B} (m : M App.t B) : moves R m → pmoves R (call m).
Proof. done. Qed.
Lemma pmoves_for_each {Y} (l : list Y) g : (∀ y, pmoves R (g y)) → pmoves R (for_each l g).
Proof. intros Hg. induction l as [|y l IH]; [done|]. apply pmoves_bind; auto. Qed.
(** A question changes nothing. *)
Lemma moves_ask {B} (f : App.t → B) : moves R (λ a, (f a, a)).
Proof. intros a b a' [= _ <-]. done. Qed.
Lemma moves_State service : moves R (eng_State service).
Proof. intros a b a' [= _ <-]. by destruct a. Qed.
Lemma pmoves_each_target g : (∀ i, pmoves R (g i)) → pmoves R (each_target g).
Proof. intros Hg. split; [apply moves_ask|]. intros n. by apply pmoves_for_each. Qed.

Lemma interleaved_moves others {B} (p : prog B) a b a' :
  pmoves R p → (∀ x y, others x y → R x y) → interleaved others p a b a' → R a a'.
Proof.
  intros Hp Ho. induction p as [b0|D m k IH] in a, Hp |- *; simpl; [by intros [_ ->]|].
  destruct Hp as [Hm Hk]. intros (x & a1 & a2 & H1 & H2 & H). apply IH in H; [|done].
  apply Hm in H1. apply Ho in H2. by do 2 (etrans; [eassumption|]).
Qed.

Lemma moves_alone {B} (p : prog B) : pmoves R p → moves R (alone p).
Proof.
  intros Hp a b a' H. eapply (interleaved_moves eq); [exact Hp|by intros ? ? ->|]. by apply alone_interleaved.
Qed.

(** Programs that leave the registry and the log to others. *)
Context (Hreg : ∀ f a, R a (App.with_reg f a)) (Hlog : ∀ l d a, R a (App.with_log l d a)).

Lemma moves_reg g : moves R (on_reg g).
Proof. intros a b a' [= _ <-]. apply Hreg. Qed.
Lemma moves_on_log m : moves R (on_log m).
Proof.
  intros a b a' H. unfold on_log in H. destruct (App.eventLog a); [|by injection H as _ <-].
  destruct (m _) as [e [w d]]. injection H as _ <-. apply Hlog.
Qed.
Lemma pmoves_publishWAL : pmoves R publishWAL.
Proof.
  split; [apply moves_ask|]. intros w. split; [apply moves_ask|]. intros p. simpl. repeat case_match; try done.
  apply pmoves_call, moves_reg.
Qed.
Lemma pmoves_append faults {EC : EventCodec} {SC : StatesCodec} ev : pmoves R (appendEvent faults ev).
Proof.
  apply pmoves_bind; [apply pmoves_call, moves_on_log|]. intros e. apply pmoves_bind; [apply pmoves_publishWAL|done].
Qed.
Lemma pmoves_save faults {EC : EventCodec} {SC : StatesCodec} st : pmoves R (saveState faults st).
Proof.
  apply pmoves_bind; [apply pmoves_call, moves_on_log|]. intros e. apply pmoves_bind; [apply pmoves_publishWAL|done].
Qed.
Lemma pmoves_persist faults {EC : EventCodec} {SC : StatesCodec} ev (enq : bool) :
  (enq = true → ∀ ts a, R a (App.with_targets ts a)) → pmoves R (persistEvent faults ev enq).
Proof.
  intros Ht. apply pmoves_bind; [apply pmoves_append|]. intros [e|]; [done|].
  destruct enq; [|done]. apply pmoves_bind; [|done]. apply pmoves_each_target. intros i. apply pmoves_call.
  intros a b a' [= _ <-]. by apply Ht.
Qed.
Lemma pmoves_publish_events faults {EC : EventCodec} {SC : StatesCodec} evs :
  (∀ ts a, R a (App.with_targets ts a)) → pmoves R (publish_events faults evs).
Proof.
  intros Ht. induction evs as [|ev evs IH]; [done|]. apply pmoves_bind; [by apply pmoves_persist|].
  intros [e|]; [done|]. apply pmoves_bind; [apply pmoves_call, moves_reg|done].
Qed.
End Moves.

Lemma frames_ret {X B} (f : App.t → X) (b : B) : frames f (ret b).
Proof. apply moves_ret, _. Qed.
Lemma frames_bind {X B C} (f : App.t → X) (m : M App.t B) (k : B → M App.t C) :
  frames f m → (∀ b, frames f (k b)) → frames f (bind m k).
Proof. apply moves_bind, _. Qed.
Lemma frames_alone {X B} (f : App.t → X) (p : prog B) : pframes f p → frames f (alone p).
Proof. apply moves_alone, _. Qed.

(** ** What the receivers were handed *)

Definition cmd_events (c : command) : list Event.t :=
  match c with CmdEvent ev => [ev] | CmdRecovery job => JobEvents job end.
Definition queue_events (w : Worker.t) : list Event.t := mbind cmd_events (Worker.queue w).
Definition handed_over (a : App.t) (ev : Event.t) : Prop :=
  ∃ t, t ∈ App.targets a ∧ ev ∈ queue_events (Target.worker t).

Lemma queue_events_enqueue c w ev :
  ev ∈ queue_events (enqueue c w).2 → ev ∈ queue_events w ∨ ev ∈ cmd_events c.
Proof.
  unfold enqueue, queue_events. destruct (_ <? _); simpl; [|auto].
  rewrite bind_app, bind_cons, elem_of_app. simpl. rewrite app_nil_r. done.
Qed.

Section MainFacts.
Context (faults : oracle) {EC : EventCodec} {SC : StatesCodec} (h : host) (cfg : Config.Config.t).
Context (base : bytes) (Htrunc : truncate_reliable faults).

(** The log, when there is one, holds [evs], and the receivers were handed
    nothing else. *)
Definition logged (evs : list Event.t) (a : App.t) : Prop :=
  ∀ w, App.eventLog a = Some w →
    holds base evs (w, App.disk a) ∧ ∀ ev, handed_over a ev → ev ∈ evs.

(** [m] keeps the log growing, and ends with [R] of its value and the log. *)
Definition logs {B} (m : M App.t B) (pre : list Event.t → Prop) (R : B → list Event.t → Prop) : Prop :=
  ∀ evs a b a', pre evs → logged evs a → m a = (b, a') →
    ∃ evs', evs ⊆ evs' ∧ logged evs' a' ∧ R b evs'.
Definition any {B} : B → list Event.t → Prop := λ _ _, True.
(** What stays true while the log grows. *)
Definition monotone (pre : list Event.t → Prop) : Prop := ∀ evs evs', evs ⊆ evs' → pre evs → pre evs'.

Lemma logs_ret {B} pre (b : B) (R : B → list Event.t → Prop) : (∀ evs, pre evs → R b evs) → logs (ret b) pre R.
Proof. intros HR evs a b' a' Hp Hl [= <- <-]. exists evs. auto. Qed.

Lemma logs_bind {B C} pre R (m : M App.t B) (k : B → M App.t C) R' :
  logs m pre R → monotone pre → (∀ b, logs (k b) (λ evs, pre evs ∧ R b evs) R') → logs (bind m k) pre R'.
Proof.
  intros Hm Hpre Hk evs a c a' Hp Hl H. bind_inv H as b a1 H1.
  destruct (Hm _ _ _ _ Hp Hl H1) as (evs1 & Hs1 & Hl1 & HR).
  destruct (Hk b evs1 a1 c a') as (evs2 & Hs2 & Hl2 & HR2); [split; [by eapply Hpre|done]|done|done|].
  exists evs2. split; [by etrans|done].
Qed.

Lemma logs_weaken {B} (pre pre' : list Event.t → Prop) (m : M App.t B) R :
  (∀ evs, pre evs → pre' evs) → logs m pre' R → logs m pre R.
Proof. intros Hp Hm evs a b a' H. apply Hm. auto. Qed.

(** An operation that leaves the log and the receivers alone. *)
Definition aside {B} (m : M App.t B) : Prop :=
  ∀ a b a', m a = (b, a') →
    App.eventLog a' = App.eventLog a ∧ App.disk a' = App.disk a ∧ App.targets a' = App.targets a.

Lemma logs_aside {B} pre (m : M App.t B) : aside m → logs m pre any.
Proof.
  intros Hm evs a b a' _ Hl H. destruct (Hm _ _ _ H) as (Hw & Hd & Ht). exists evs.
  split; [done|]. split; [|done]. intros w. unfold handed_over. rewrite Hw, Hd, Ht. apply Hl.
Qed.

Lemma aside_eng {B} (f : Engine.t → Engine.t * B) : aside (on_eng f).
Proof. intros a b a' H. unfold on_eng in H. destruct (f _). by injection H as _ <-. Qed.
Lemma aside_reg f : aside (on_reg f).
Proof. intros a b a' [= _ <-]. done. Qed.
Lemma aside_journal {B} (f : journalctl_cmd → B) : aside (read_journal h f).
Proof. intros a b a' [= _ <-]. done. Qed.

Lemma monotone_elem ev : monotone (λ evs, ev ∈ evs).
Proof. intros evs evs' Hs. apply Hs. Qed.
Lemma monotone_and p q : monotone p → monotone q → monotone (λ evs, p evs ∧ q evs).
Proof. intros Hp Hq evs evs' Hs [? ?]. split; [by eapply Hp|by eapply Hq]. Qed.
Lemma monotone_subseteq l : monotone (λ evs, l ⊆ evs).
Proof. intros evs evs' Hs Hl. by etrans. Qed.
Lemma monotone_const (P : Prop) : monotone (λ _, P).
Proof. by intros evs evs' _. Qed.
Lemma monotone_impl (P : Prop) p : monotone p → monotone (λ evs, P → p evs).
Proof. intros Hp evs evs' Hs H HP. eapply Hp; [done|]. by apply H. Qed.

Lemma monotone_any {B} (b : B) : monotone (λ evs, any b evs).
Proof. by intros evs evs' _. Qed.

Lemma logs_on_log pre (m : M (WAL.t * world) (option goerror)) (R : option goerror → list Event.t → Prop) :
  (∀ evs, pre evs → ∃ evs', evs ⊆ evs' ∧ R None evs') →
  (∀ evs s e s', pre evs → holds base evs s → m s = (e, s') → ∃ evs', evs ⊆ evs' ∧ holds base evs' s' ∧ R e evs') →
  logs (on_log m) pre R.
Proof.
  intros Hnone Hm evs a e a' Hp Hl H. unfold on_log in H. destruct (App.eventLog a) as [w|] eqn:Hw.
  - destruct (m (w, App.disk a)) as [e0 [w' d']] eqn:E. injection H as <- <-.
    destruct (Hl w Hw) as [Hh Hq]. destruct (Hm _ _ _ _ Hp Hh E) as (evs' & Hs & Hh' & HR).
    exists evs'. split; [done|]. split; [|done]. intros w0 [= <-]. split; [done|]. intros ev Hev. by apply Hs, Hq.
  - injection H as <- <-. destruct (Hnone _ Hp) as (evs' & Hs & HR). exists evs'.
    split; [done|]. split; [|done]. intros w. by rewrite Hw.
Qed.

Lemma subseteq_snoc (evs : list Event.t) ev : evs ⊆ evs ++ [ev].
Proof. set_solver. Qed.

Lemma logs_append pre ev : logs (on_log (Append faults ev)) pre (λ e evs, e = None → ev ∈ evs).
Proof.
  apply logs_on_log.
  - intros evs _. exists (evs ++ [ev]). split; [apply subseteq_snoc|]. intros _. set_solver.
  - intros evs [w wd] e [w' wd'] _ Hh H. eapply Append_spec in H; [|done..]. destruct e as [e|].
    + destruct H as [_ [H|H]]; eexists; (split; [|split; [exact H|done]]); [done|apply subseteq_snoc].
    + exists (evs ++ [ev]). split; [apply subseteq_snoc|]. split; [done|]. set_solver.
Qed.

Lemma logs_save pre st : logs (on_log (SaveState faults st)) pre any.
Proof.
  apply logs_on_log; [intros evs _; by exists evs|].
  intros evs [w wd] e [w' wd'] _ Hh H. eapply SaveState_spec in H as [H _]; [|done..]. by exists evs.
Qed.

Lemma logs_enqueue i c : logs (on_worker i (enqueue c)) (λ evs, cmd_events c ⊆ evs) any.
Proof.
  intros evs a u a' Hc Hl [= _ <-]. exists evs. split; [done|]. split; [|done].
  intros w Hw. destruct (Hl w Hw) as [Hh Hq]. split; [done|]. intros ev (t & Ht & Hev).
  apply list_elem_of_lookup in Ht as [j Hj]. simpl in Hj. rewrite list_lookup_alter in Hj. case_decide.
  - subst j. destruct (App.targets a !! i) as [t0|] eqn:Ht0; [|done]. injection Hj as <-. simpl in Hev.
    apply queue_events_enqueue in Hev as [Hev|Hev]; [|by apply Hc]. apply Hq. exists t0.
    split; [by eapply list_elem_of_lookup_2|done].
  - apply Hq. exists t. split; [by eapply list_elem_of_lookup_2|done].
Qed.

(** ** Safe programs

    Every act of the program keeps the log growing, given what the program
    knows of the log when it comes to the act; what it knows stays true
    whatever the other goroutines append. *)

Fixpoint safe {B} (know : list Event.t → Prop) (p : prog B) (Q : B → list Event.t → Prop) : Prop :=
  match p with
  | Ret b => ∀ evs, know evs → Q b evs
  | Act m k => ∃ R, (∀ x, monotone (R x)) ∧ logs m know R ∧ ∀ x, safe (λ evs, know evs ∧ R x evs) (k x) Q
  end.

Lemma safe_know {B} (know know' : list Event.t → Prop) (p : prog B) Q :
  (∀ evs, know evs → know' evs) → safe know' p Q → safe know p Q.
Proof.
  induction p as [b|D m k IH] in know, know' |- *; simpl; intros Hk; [eauto|].
  intros (R & HR & Hm & Hp). exists R. split_and!; [done|by eapply logs_weaken|].
  intros x. eapply IH; [|apply Hp]. simpl. naive_solver.
Qed.

Lemma safe_post {B} know (p : prog B) (Q Q' : B → list Event.t → Prop) :
  (∀ b evs, Q b evs → Q' b evs) → safe know p Q → safe know p Q'.
Proof.
  intros HQ. induction p as [b|D m k IH] in know |- *; simpl; [eauto|].
  intros (R & HR & Hm & Hp). exists R. auto.
Qed.

Lemma safe_bind {B C} know (p : prog B) (f : B → prog C) Q Q' :
  safe know p Q → (∀ b, safe (λ evs, know evs ∧ Q b evs) (f b) Q') → safe know (pbind p f) Q'.
Proof.
  induction p as [b|D m k IH] in know |- *; simpl.
  - intros Hb Hf. eapply safe_know; [|apply Hf]. simpl. auto.
  - intros (R & HR & Hm & Hp) Hf. exists R. split_and!; [done..|]. intros x. apply IH; [apply Hp|].
    intros b. eapply safe_know; [|apply Hf]. simpl. tauto.
Qed.

Lemma safe_ret {B} know (b : B) (Q : B → list Event.t → Prop) : (∀ evs, know evs → Q b evs) → safe know (Ret b) Q.
Proof. done. Qed.
Lemma safe_call {B} know (m : M App.t B) R : (∀ x, monotone (R x)) → logs m know R → safe know (call m) R.
Proof. intros HR Hm. exists R. split_and!; [done..|]. by intros x evs [_ ?]. Qed.

(** A program whose acts leave the log and the receivers alone. *)
Fixpoint asides {B} (p : prog B) : Prop :=
  match p with
  | Ret _ => True
  | Act m k => aside m ∧ ∀ x, asides (k x)
  end.
Lemma safe_asides {B} know (p : prog B) : asides p → safe know p any.
Proof.
  induction p as [b|D m k IH] in know |- *; simpl; [done|]. intros [Hm Hk]. exists any.
  split_and!; [done|by apply logs_aside|]. auto.
Qed.

(** One such program, then the rest. *)
Lemma safe_then {B C} know (p : prog B) (f : B → prog C) Q :
  asides p → (∀ b, safe know (f b) Q) → safe know (pbind p f) Q.
Proof.
  intros Hp Hf. eapply safe_bind; [by apply safe_asides|]. intros b. eapply safe_know; [|apply Hf]. by intros evs [? _].
Qed.

Lemma safe_for_each {X} know (l : list X) f : (∀ x, safe know (f x) any) → safe know (for_each l f) any.
Proof.
  intros Hf. induction l as [|x l IH]; [done|]. eapply safe_bind; [apply Hf|]. intros ?.
  eapply safe_know; [|exact IH]. tauto.
Qed.

Lemma safe_each_target know f : (∀ i, safe know (f i) any) → safe know (each_target f) any.
Proof.
  intros Hf. apply safe_then; [by split; [by intros ? ? ? [= _ <-]|]|]. intros n. by apply safe_for_each.
Qed.

(** ** The closures *)

Hint Resolve aside_eng aside_reg aside_journal : core.

Lemma asides_call {B} (m : M App.t B) : aside m → asides (call m).
Proof. done. Qed.
Lemma asides_bind {B C} (p : prog B) (f : B → prog C) : asides p → (∀ b, asides (f b)) → asides (pbind p f).
Proof. induction p as [b|D m k IH]; simpl; [auto|]. intros [Hm Hk] Hf. auto. Qed.
Hint Resolve asides_call asides_bind : core.

Lemma asides_publishWAL : asides publishWAL.
Proof. split; [by intros ? ? ? [= _ <-]|]. intros w. split; [by intros ? ? ? [= _ <-]|]. intros p. simpl. by repeat case_match. Qed.
Lemma asides_probers f : asides (on_probers f).
Proof. repeat (split; [by intros ? ? ? [= _ <-]|intros ?]). done. Qed.
Lemma asides_read_states services states : asides (read_states services states).
Proof. induction services as [|x l IH] in states |- *; [done|]. split; [apply aside_eng|]. intros st. apply IH. Qed.
Hint Resolve asides_publishWAL asides_probers asides_read_states : core.

Lemma safe_append know ev : safe know (appendEvent faults ev) (λ e evs, e = None → ev ∈ evs).
Proof.
  eapply safe_bind; [apply safe_call; [|apply logs_append]|].
  - intros e. apply monotone_impl, monotone_elem.
  - intros e. apply safe_then; [done|]. intros ?. apply safe_ret. tauto.
Qed.

Lemma safe_save know st : safe know (saveState faults st) any.
Proof.
  eapply safe_bind; [apply safe_call; [|apply logs_save]; done|]. intros e. apply safe_then; [done|]. intros ?. by apply safe_ret.
Qed.

Lemma safe_persist know ev (enq : bool) : safe know (persistEvent faults ev enq) (λ e evs, e = None → ev ∈ evs).
Proof.
  eapply safe_bind; [apply safe_append|]. intros [e|]; [by apply safe_ret|].
  eapply safe_bind with (Q := any); [|intros ?; apply safe_ret; tauto].
  destruct enq; [|done]. apply safe_each_target. intros i. apply safe_call; [done|].
  eapply logs_weaken; [|apply logs_enqueue]. simpl. intros evs [_ H] x Hx. apply list_elem_of_singleton in Hx as ->. by apply H.
Qed.

Lemma safe_save_opt know (st : option ServiceState.t) :
  safe know (match st with Some st => saveState faults st | None => Ret None end) any.
Proof. destruct st; [apply safe_save|done]. Qed.

Lemma safe_confirmed know service ev : safe know (publish_confirmed faults service ev) any.
Proof.
  eapply safe_bind; [apply safe_persist|]. intros [e|]; [done|].
  apply safe_then; [auto|]. intros ?. apply safe_then; [apply asides_call, aside_eng|]. intros st.
  eapply safe_bind; [apply safe_save_opt|]. intros ?. apply safe_asides. auto.
Qed.

Lemma safe_publishReady know service at_ source : safe know (publishReady faults service at_ source) any.
Proof. apply safe_then; [auto|]. intros [ev|]; [apply safe_confirmed|done]. Qed.

Lemma safe_publish_events know evs : safe know (publish_events faults evs) any.
Proof.
  induction evs as [|ev evs IH] in know |- *; cbn [publish_events]; [done|].
  eapply safe_bind; [apply safe_persist|]. intros [e|]; [done|]. apply safe_then; [auto|]. intros ?. apply IH.
Qed.

Lemma safe_settle know svc st : safe know (settle faults svc st) any.
Proof.
  eapply safe_bind; [apply safe_save|]. intros [e|]; [done|].
  apply safe_then; [auto|]. intros ?. apply safe_then; [auto|]. intros ?. done.
Qed.

Lemma safe_onSnapshot know s : safe know (app_onSnapshot faults s) any.
Proof.
  apply safe_then; [auto|]. intros events. eapply safe_bind; [apply safe_publish_events|]. intros [e|]; [done|].
  apply safe_then; [apply asides_call, aside_eng|]. intros st. apply safe_settle.
Qed.

Lemma safe_import_events know evs recovered :
  safe (λ l, know l ∧ recovered ⊆ l) (import_events faults evs recovered) (λ r l, r.1 ⊆ l).
Proof.
  induction evs as [|ev evs IH] in know, recovered |- *; cbn [import_events]; [simpl; tauto|].
  eapply safe_bind; [apply safe_persist|]. intros [e|]; [simpl; tauto|].
  apply safe_then; [auto|]. intros ?. apply safe_then; [apply asides_call, aside_eng|]. intros st.
  eapply safe_bind; [apply safe_save_opt|].
  assert (∀ l, (know l ∧ recovered ⊆ l) ∧ (None (A := goerror) = None → ev ∈ l) → recovered ++ [ev] ⊆ l) as Hsnoc.
  { intros l ([_ Hr] & He). specialize (He eq_refl). set_solver. }
  intros [e|]; [simpl; intros l [H _]; by apply Hsnoc|].
  eapply safe_know; [|apply (IH know)]. intros l [H _]. split; [tauto|by apply Hsnoc].
Qed.

Lemma safe_import_all know candidates recovered :
  safe (λ l, know l ∧ recovered ⊆ l) (import_all faults candidates recovered) (λ r l, r.1 ⊆ l).
Proof.
  induction candidates as [|c cs IH] in know, recovered |- *; cbn [import_all]; [simpl; tauto|].
  apply safe_then; [auto|]. intros events.
  eapply safe_bind; [apply safe_import_events|]. intros [r [e|]]; [simpl; tauto|].
  eapply safe_know; [|apply (IH know)]. simpl. tauto.
Qed.

Lemma safe_onRecovery know from to : safe know (app_onRecovery faults h cfg from to) any.
Proof.
  unfold app_onRecovery. destruct (RecoveryWindow _ _ _) as [[ws we]|]; [|done].
  apply safe_then; [auto|]. intros ?. apply safe_then; [auto|]. intros [events|e]; [|done].
  eapply safe_bind.
  { eapply safe_know; [|apply (safe_import_all know)]. intros l Hl. split; [exact Hl|]. set_solver. }
  intros [recovered [e|]]; [done|]. unfold hand_over_recovery, engineStates.
  apply safe_then; [by split; [by intros ? ? ? [= _ <-]|]|]. intros [|n]; [done|].
  apply safe_then; [auto|]. intros states. apply safe_then; [auto|]. intros [fill|e]; [|done].
  eapply safe_bind; [|done]. apply safe_each_target. intros i. apply safe_call; [done|].
  eapply logs_weaken; [|apply logs_enqueue]. simpl. tauto.
Qed.

Lemma safe_stats know : safe know update_stats any.
Proof.
  apply safe_each_target. intros i. apply safe_asides. split; [by intros ? ? ? [= _ <-]|].
  intros [[id stats]|]; simpl; auto.
Qed.

(** ** One act of a safe program *)

Lemma safe_advance {B} know (p : prog B) Q evs a a' p' :
  monotone know → know evs → logged evs a → safe know p Q → advance p a = Some (a', p') →
  ∃ evs' know', evs ⊆ evs' ∧ logged evs' a' ∧ monotone know' ∧ know' evs' ∧ safe know' p' Q.
Proof.
  intros Hmono Hk Hl Hp H. destruct p as [b|D m k]; [done|]. simpl in *. destruct (m a) as [x a1] eqn:E. injection H as <- <-.
  destruct Hp as (R & HR & Hm & Hk'). destruct (Hm _ _ _ _ Hk Hl E) as (evs' & Hs & Hl' & HRx).
  exists evs', (λ evs, know evs ∧ R x evs). split_and!; [done|done|by apply monotone_and|by eapply Hmono|done|apply Hk'].
Qed.
End MainFacts.
