(* ===== verification/MainTheorems.v ===== *)
(** * MainTheorems: the exporter as a whole

    [app_step] interleaves the goroutines of the running exporter act by act:
    the monitor calls its closures one after the other, every probe answer is
    published by a goroutine of its own, and the workers and probers move in
    between. *)

From S2P Require Import Prelude GoTime GoStrings Model Samples Json Engine EngineFacts EngineTheorems Slots Journal Backfill GoOS Wal Codec WalFacts WalTheorems RemoteWrite Delivery DeliveryFacts DeliveryTheorems GoText GoFloat Config Probe Systemd Metrics Main MainFacts.

(** ** The steps *)

(** The exporter, what is left of the closure the monitor is in, and what is
    left of the other goroutines. *)
Record system := System { app : App.t; calling : prog (option goerror); threads : list (prog unit) }.

Section Steps.
Context (faults : oracle) {EC : EventCodec} {SC : StatesCodec} (h : host) (cfg : Config.Config.t).

(** What the monitor calls, and what the other goroutines do. *)
Inductive closure : prog (option goerror) → Prop :=
  | closure_snapshot s : closure (app_onSnapshot faults s)
  | closure_recovery from to : closure (app_onRecovery faults h cfg from to)
  | closure_connection connected at_ : closure (_ <~ call (app_onConnectionState connected at_);; Ret None).
Inductive goroutine : prog unit → Prop :=
  | goroutine_answer service at_ source : goroutine (publishReady faults service at_ source)
  | goroutine_confirmed service ev : goroutine (publish_confirmed faults service ev)
  | goroutine_stats : goroutine update_stats.

Inductive app_step : system → system → Prop :=
  | step_call a r p ps : closure p → app_step (System a (Ret r) ps) (System a p ps)
  | step_monitor a p ps a' p' : advance p a = Some (a', p') → app_step (System a p ps) (System a' p' ps)
  | step_spawn a m ps p : goroutine p → app_step (System a m ps) (System a m (ps ++ [p]))
  | step_thread a m before p after a' p' :
      advance p a = Some (a', p') → app_step (System a m (before ++ p :: after)) (System a' m (before ++ p' :: after))
  | step_workers a m ps ts :
      (* each worker takes commands from the head of its queue *)
      Forall2 (λ t t', Worker.queue (Target.worker t') `suffix_of` Worker.queue (Target.worker t)) (App.targets a) ts →
      app_step (System a m ps) (System (App.with_targets ts a) m ps)
  | step_probers a m ps e1 e2 e3 sip dns agw :
      psteps (App.sipProber a) e1 sip → psteps (App.dnsProber a) e2 dns → psteps (App.agwProber a) e3 agw →
      app_step (System a m ps)
        (System (App.mk (App.eng a) (App.reg a) (App.eventLog a) (App.disk a) (App.targets a) sip dns agw (App.journals a)) m ps).

Inductive app_steps : system → system → Prop :=
  | steps_refl s : app_steps s s
  | steps_step s1 s2 s3 : app_step s1 s2 → app_steps s2 s3 → app_steps s1 s3.

(** The monitor is between two closures, the goroutines have not begun. *)
Definition at_rest (s : system) : Prop := (∃ r, calling s = Ret r) ∧ Forall goroutine (threads s).

Context (base : bytes) (Htrunc : truncate_reliable faults).

Lemma queue_events_suffix w w' ev :
  Worker.queue w' `suffix_of` Worker.queue w → ev ∈ queue_events w' → ev ∈ queue_events w.
Proof. unfold queue_events. intros [k ->]. rewrite bind_app, elem_of_app. auto. Qed.

(** A program that is safe with something true of the log [evs]. *)
Definition sound {B} (evs : list Event.t) (p : prog B) : Prop :=
  ∃ know, monotone know ∧ know evs ∧ safe base know p any.
Definition sound_system (evs : list Event.t) (s : system) : Prop :=
  logged base evs (app s) ∧ sound evs (calling s) ∧ Forall (sound evs) (threads s).

Lemma sound_grows {B} evs evs' (p : prog B) : evs ⊆ evs' → sound evs p → sound evs' p.
Proof. intros Hs (know & Hm & Hk & Hp). exists know. split_and!; [done|by eapply Hm|done]. Qed.
Lemma sound_safe {B} evs (p : prog B) : safe base (λ _, True) p any → sound evs p.
Proof. intros Hp. by exists (λ _, True). Qed.

Lemma sound_advance {B} evs (p : prog B) a a' p' :
  logged base evs a → sound evs p → advance p a = Some (a', p') →
  ∃ evs', evs ⊆ evs' ∧ logged base evs' a' ∧ sound evs' p'.
Proof.
  intros Hl (know & Hm & Hk & Hp) H.
  destruct (safe_advance base know p any evs a a' p' Hm Hk Hl Hp H) as (evs' & know' & ? & ? & ? & ? & ?).
  exists evs'. split_and!; [done|done|]. by exists know'.
Qed.

Lemma closure_sound evs p : closure p → sound evs p.
Proof.
  intros Hp. apply sound_safe. destruct Hp; [by apply safe_onSnapshot|by apply safe_onRecovery|].
  apply safe_then; [apply asides_call, aside_reg|]. done.
Qed.
Lemma goroutine_sound evs p : goroutine p → sound evs p.
Proof.
  intros Hp. apply sound_safe. destruct Hp; [by apply safe_publishReady|by apply safe_confirmed|by apply safe_stats].
Qed.

Lemma sound_step evs s s' : sound_system evs s → app_step s s' → ∃ evs', evs ⊆ evs' ∧ sound_system evs' s'.
Proof.
  intros (Hl & Hm & Ht) Hs.
  destruct Hs as [a r p ps Hp|a p ps a' p' H|a m ps p Hp|a m before p after a' p' H|a m ps ts HF|a m ps e1 e2 e3 sip dns agw];
    cbn [app calling threads] in *.
  - exists evs. split; [done|]. split_and!; [done|by apply closure_sound|done].
  - destruct (sound_advance _ _ _ _ _ Hl Hm H) as (evs' & Hsub & ? & ?). exists evs'. split; [done|]. split_and!; [done..|].
    eapply Forall_impl; [exact Ht|]. intros q. by apply sound_grows.
  - exists evs. split; [done|]. split_and!; [done..|]. apply Forall_app. split; [done|].
    apply Forall_singleton. by apply goroutine_sound.
  - apply Forall_app in Ht as [Hb [Hp Ha]%Forall_cons].
    destruct (sound_advance _ _ _ _ _ Hl Hp H) as (evs' & Hsub & ? & ?). exists evs'. split; [done|].
    split_and!; [done|by eapply sound_grows|]. apply Forall_app.
    split; [|apply Forall_cons; split; [done|]]; (eapply Forall_impl; [eassumption|]); intros q; by apply sound_grows.
  - exists evs. split; [done|]. split_and!; [|done..]. intros w Hw. destruct (Hl w Hw) as [Hh Hq]. split; [done|].
    intros ev (t' & Ht' & Hev). cbn in Ht'. apply list_elem_of_lookup in Ht' as [i Hi].
    eapply Forall2_lookup_r in HF as (t & Hti & Hsuf); [|exact Hi].
    apply Hq. exists t. split; [by apply list_elem_of_lookup_2 in Hti|by eapply queue_events_suffix].
  - exists evs. done.
Qed.

Lemma sound_steps s s' :
  app_steps s s' → ∀ evs, sound_system evs s → ∃ evs', evs ⊆ evs' ∧ sound_system evs' s'.
Proof.
  induction 1 as [s|s1 s2 s3 H1 _ IH]; intros evs Hs; [by exists evs|].
  destruct (sound_step _ _ _ Hs H1) as (evs1 & Hs1 & Hl1).
  destruct (IH evs1 Hl1) as (evs2 & Hs2 & Hl2). exists evs2. split; [by etrans|done].
Qed.

Lemma at_rest_sound evs s : at_rest s → logged base evs (app s) → sound_system evs s.
Proof.
  intros [[r Hr] Ht] Hl. split_and!; [done|by rewrite Hr; apply sound_safe|].
  eapply Forall_impl; [exact Ht|]. intros p. apply goroutine_sound.
Qed.
End Steps.

(** The monitor finishes its closure while nobody else moves. *)
Lemma monitor_runs faults {EC : EventCodec} {SC : StatesCodec} h cfg (p : prog (option goerror)) ps a r a' :
  alone p a = (r, a') → app_steps faults h cfg (System a p ps) (System a' (Ret r) ps).
Proof.
  induction p as [b|D m k IH] in a |- *; simpl; intros H; [injection H as <- <-; apply steps_refl|].
  bind_inv H as x a1 H1. eapply steps_step; [|apply IH; exact H]. apply step_monitor. simpl. by rewrite H1.
Qed.

(** ** One snapshot *)

Definition probers (a : App.t) : list Prober.t := [App.sipProber a; App.dnsProber a; App.agwProber a].

(** What the engine, the log, the registry and the probers hold about one
    service. *)
Definition saved (svc : string) (a : App.t) : option (option ServiceState.t) :=
  (λ w, WAL.states w !! svc) <$> App.eventLog a.
Definition told (svc : string) (a : App.t) : option AvailabilityState := Registry.states (App.reg a) !! svc.
Definition probe_runs (svc : string) (a : App.t) : list (option Probe.t * option Z) :=
  (λ p, (Prober.probes p !! svc, Prober.running p !! svc)) <$> probers a.
(** The other goroutines are busy with other services. *)
Definition elsewhere (svc : string) (a a' : App.t) : Prop :=
  State svc (App.eng a') = State svc (App.eng a) ∧ saved svc a' = saved svc a ∧ told svc a' = told svc a ∧
  probe_runs svc a' = probe_runs svc a.

(** The engine names a state after its service. *)
Definition named (e : Engine.t) : Prop := map_Forall (λ k st, ServiceState.Service st = k) (Engine.states e).

Lemma elsewhere_refl svc a : elsewhere svc a a.
Proof. done. Qed.

Section Snapshot.
Context (faults : oracle) {EC : EventCodec} {SC : StatesCodec}.

Lemma eng_State_spec svc a st a' : eng_State svc a = (st, a') → st = State svc (App.eng a) ∧ a' = a.
Proof. intros [= <- <-]. by destruct a. Qed.

Lemma SaveState_saved st a e a' w :
  on_log (SaveState faults st) a = (e, a') → App.eventLog a' = Some w →
  WAL.states w !! ServiceState.Service st = Some st.
Proof.
  intros H Hw. unfold on_log in H. destruct (App.eventLog a) as [w0|] eqn:Hw0; [|injection H as _ <-; congruence].
  destruct (SaveState faults st (w0, App.disk a)) as [e2 [w2 d2]] eqn:E. injection H as <- <-. injection Hw as ->.
  apply SaveState_states in E. simpl in E. rewrite E. apply lookup_insert_eq.
Qed.

Definition runs_if_waiting (svc : string) (waiting : bool) (p : option Probe.t * option Z) : Prop :=
  if waiting then is_Some p.1 → is_Some p.2 else p.2 = None.

Lemma Start_runs svc p :
  let p' := Start svc p in runs_if_waiting svc true (Prober.probes p' !! svc, Prober.running p' !! svc).
Proof.
  unfold Start. destruct (Prober.running p !! svc) as [id|] eqn:E; [by simpl; rewrite E|].
  destruct (Prober.probes p !! svc) eqn:Hpr; simpl; [|by rewrite Hpr; intros []].
  rewrite lookup_insert_eq. by eexists.
Qed.
Lemma Stop_runs svc p :
  let p' := Stop svc p in runs_if_waiting svc false (Prober.probes p' !! svc, Prober.running p' !! svc).
Proof. unfold Stop. simpl. destruct (Prober.running p !! svc) eqn:E; simpl; [apply lookup_delete_eq|done]. Qed.

Section Meanwhile.
Context (svc : string) (others : App.t → App.t → Prop) (Hothers : ∀ x y, others x y → elsewhere svc x y).

(** The probers are told one after the other. *)
Lemma on_probers_spec (waiting : bool) a u a' :
  interleaved others (on_probers (if waiting then Start svc else Stop svc)) a u a' →
  Forall (runs_if_waiting svc waiting) (probe_runs svc a') ∧
  State svc (App.eng a') = State svc (App.eng a) ∧ saved svc a' = saved svc a ∧ told svc a' = told svc a.
Proof.
  intros (x1 & b1 & c1 & [= _ <-] & (E1 & S1 & T1 & P1)%Hothers & x2 & b2 & c2 & [= _ <-] &
    (E2 & S2 & T2 & P2)%Hothers & x3 & b3 & c3 & [= _ <-] & (E3 & S3 & T3 & P3)%Hothers & _ & ->).
  split; [|split_and!; [exact (eq_trans E3 (eq_trans E2 E1))|exact (eq_trans S3 (eq_trans S2 S1))|
    exact (eq_trans T3 (eq_trans T2 T1))]].
  rewrite P3. unfold probe_runs, probers in *. simpl in *. injection P1 as R1 L1 _ _ _ _. injection P2 as R2 L2 R2' L2' _ _.
  rewrite R2, L2, R1, L1, R2', L2'. clear. destruct waiting; repeat apply Forall_cons_2; try apply Forall_nil_2;
    first [apply Start_runs|apply Stop_runs].
Qed.

Lemma saveState_spec st a e a' :
  interleaved others (saveState faults st) a e a' → ServiceState.Service st = svc →
  State svc (App.eng a') = State svc (App.eng a) ∧ (∀ w, App.eventLog a' = Some w → WAL.states w !! svc = Some st).
Proof.
  intros H Hsvc. apply interleaved_pbind in H as (e1 & a1 & H1 & H). apply interleaved_call in H1 as (b1 & H1 & Ho).
  apply Hothers in Ho as (E1 & S1 & _ & _).
  pose proof (moves_on_log (same App.eng) ltac:(done) _ _ _ _ H1) as Eb. unfold same in Eb.
  apply interleaved_pbind in H as (u & a2 & H2 & [_ ->]).
  assert (State svc (App.eng a2) = State svc (App.eng a1) ∧ saved svc a2 = saved svc a1) as [E2 S2].
  { assert (∀ X (f : App.t → X), (∀ r x, f (App.with_reg r x) = f x) → (∀ x y, others x y → f y = f x) → f a2 = f a1) as K.
    { intros X f Hf Hf'. eapply (interleaved_moves (same f)); [|exact Hf'|exact H2]. apply pmoves_publishWAL; [apply _|].
      intros r x. apply Hf. }
    split; [apply (K _ (λ x, State svc (App.eng x)))|apply (K _ (saved svc))]; try done; intros x y Hxy; apply (Hothers x y Hxy). }
  split; [congruence|]. intros w Hw.
  assert (saved svc b1 = Some (WAL.states w !! svc)) as Hb.
  { rewrite <-S1, <-S2. unfold saved. by rewrite Hw. }
  unfold saved in Hb. destruct (App.eventLog b1) as [w1|] eqn:Hw1; [|done]. injection Hb as <-. subst svc.
  by eapply SaveState_saved.
Qed.

Lemma settle_spec st a a' :
  interleaved others (settle faults svc st) a None a' → ServiceState.Service st = svc →
  State svc (App.eng a') = State svc (App.eng a) ∧
  (∀ w, App.eventLog a' = Some w → WAL.states w !! svc = Some st) ∧
  told svc a' = Some (ServiceState.Availability st) ∧
  Forall (runs_if_waiting svc (ServiceState.AwaitingSIP st)) (probe_runs svc a').
Proof.
  intros H Hsvc. apply interleaved_pbind in H as (e1 & a1 & H1 & H). apply saveState_spec in H1 as [E1 S1]; [|done].
  destruct e1 as [e1|]; [by destruct H|]. apply interleaved_pbind in H as (u & a2 & H2 & H).
  apply interleaved_call in H2 as (b2 & [= _ <-] & (E2 & S2 & T2 & _)%Hothers).
  apply interleaved_pbind in H as (u3 & a3 & H3 & [_ ->]). apply on_probers_spec in H3 as (P3 & E3 & S3 & T3).
  split_and!; [exact (eq_trans E3 (eq_trans E2 E1))| | |done].
  - intros w Hw. unfold saved in S3, S2. rewrite Hw in S3. rewrite S2 in S3.
    simpl in S3. destruct (App.eventLog a1) as [w1|] eqn:Hw1; [|done]. injection S3 as ->. by apply S1.
  - rewrite T3, T2. apply lookup_insert_eq.
Qed.
End Meanwhile.
End Snapshot.

(** ** Answers of other services

    A goroutine that publishes the answer of another service stays elsewhere,
    act by act, and leaves the names of the engine's states right. *)

Fixpoint stays_elsewhere (svc : string) {B} (p : prog B) : Prop :=
  match p with
  | Ret _ => True
  | Act m k => ∀ a x a', named (App.eng a) → m a = (x, a') →
      elsewhere svc a a' ∧ named (App.eng a') ∧ stays_elsewhere svc (k x)
  end.

Section Elsewhere.
Context (faults : oracle) {EC : EventCodec} {SC : StatesCodec} (svc : string).

Lemma away_bind {B C} (p : prog B) (f : B → prog C) :
  stays_elsewhere svc p → (∀ b, stays_elsewhere svc (f b)) → stays_elsewhere svc (pbind p f).
Proof.
  induction p as [b|D m k IH]; cbn [stays_elsewhere pbind]; [auto|]. intros Hp Hf a x a' Hn H.
  destruct (Hp a x a' Hn H) as (? & ? & ?). split_and!; [done..|]. by apply IH.
Qed.
Lemma away_for_each {X} (l : list X) f :
  (∀ x, stays_elsewhere svc (f x)) → stays_elsewhere svc (for_each l f).
Proof. intros Hf. induction l as [|x l IH]; [done|]. by apply away_bind. Qed.

Lemma away_ask {B C} (f : App.t → B) (k : B → prog C) :
  (∀ x, stays_elsewhere svc (k x)) → stays_elsewhere svc (Act (λ a, (f a, a)) k).
Proof. intros Hk a x a' Hn [= <- <-]. split_and!; [apply elsewhere_refl|done|auto]. Qed.
Lemma away_reg g :
  (∀ r, Registry.states (g r) !! svc = Registry.states r !! svc) → stays_elsewhere svc (call (on_reg g)).
Proof. intros Hg a x a' Hn [= <- <-]. split_and!; [|done..]. split_and!; try done. apply Hg. Qed.
Lemma away_publishWAL : stays_elsewhere svc publishWAL.
Proof. apply away_ask. intros w. apply away_ask. intros p. simpl. repeat case_match; try done. by apply away_reg. Qed.

(** A call of the log that leaves what it saved of the service. *)
Lemma away_log m :
  (∀ s e s', m s = (e, s') → WAL.states s'.1 !! svc = WAL.states s.1 !! svc) → stays_elsewhere svc (call (on_log m)).
Proof.
  intros Hm a x a' Hn H. unfold on_log in H. destruct (App.eventLog a) as [w|] eqn:Hw.
  - destruct (m (w, App.disk a)) as [e [w' d']] eqn:E. injection H as <- <-. apply Hm in E. simpl in E. split_and!; [|done..].
    split_and!; try done. unfold saved. rewrite Hw. simpl. by rewrite E.
  - injection H as <- <-. split_and!; [apply elsewhere_refl|done..].
Qed.
Lemma away_append ev : stays_elsewhere svc (appendEvent faults ev).
Proof.
  apply away_bind; [|intros e; apply away_bind; [apply away_publishWAL|done]].
  apply away_log. intros s e s' H. by rewrite (states_Append faults ev s e s' H).
Qed.
Lemma away_save st : ServiceState.Service st ≠ svc → stays_elsewhere svc (saveState faults st).
Proof.
  intros Hne. apply away_bind; [|intros e; apply away_bind; [apply away_publishWAL|done]].
  apply away_log. intros s e s' H. apply SaveState_states in H as ->. by rewrite lookup_insert_ne.
Qed.
Lemma away_persist ev enq : stays_elsewhere svc (persistEvent faults ev enq).
Proof.
  apply away_bind; [apply away_append|]. intros [e|]; [done|]. apply away_bind; [|done]. destruct enq; [|done].
  apply away_ask. intros n. apply away_for_each. intros i a x a' Hn [= <- <-]. by split_and!.
Qed.

(** The state read is that of the service asked for. *)
Lemma away_State {B} service (f : option ServiceState.t → prog B) :
  (∀ st, (∀ st', st = Some st' → ServiceState.Service st' = service) → stays_elsewhere svc (f st)) →
  stays_elsewhere svc (pbind (call (eng_State service)) f).
Proof.
  intros Hf a st a' Hn H. apply eng_State_spec in H as [-> ->]. split_and!; [apply elsewhere_refl|done|].
  apply Hf. intros st' Hst. by apply (Hn service).
Qed.

Lemma away_confirmed service ev :
  service ≠ svc → Event.Service ev = service → stays_elsewhere svc (publish_confirmed faults service ev).
Proof.
  intros Hne Hev. apply away_bind; [apply away_persist|]. intros [e|]; [done|].
  apply away_bind; [apply away_reg; intros r; simpl; rewrite lookup_insert_ne; congruence|]. intros ?.
  apply away_State. intros st Hst. apply away_bind.
  - destruct st as [st|]; [|done]. apply away_save. by rewrite (Hst st).
  - intros ?. apply away_reg. intros r. simpl. by rewrite lookup_insert_ne.
Qed.

Lemma away_publishReady service at_ source :
  service ≠ svc → stays_elsewhere svc (publishReady faults service at_ source).
Proof.
  intros Hne a ev a' Hn H. unfold on_eng in H. destruct (ConfirmReady service at_ source (App.eng a)) as [e ev'] eqn:Hc.
  injection H as <- <-. assert (State svc e = State svc (App.eng a) ∧ named e ∧ ∀ ev, ev' = Some ev → Event.Service ev = service) as (HS & HN & HE).
  { unfold ConfirmReady in Hc. destruct (Engine.states (App.eng a) !! service) as [st|] eqn:Hst; [|by injection Hc as <- <-].
    destruct (negb _); [by injection Hc as <- <-|]. injection Hc as <- <-. unfold State. simpl.
    rewrite lookup_insert_ne by done. split; [done|]. split; [|by intros ev [= <-]].
    apply map_Forall_insert_2; [|done]. simpl. by apply (Hn service). }
  split_and!; [by split_and!|done|]. destruct ev' as [ev'|]; [|done].
  apply away_confirmed; [done|by apply HE].
Qed.
End Elsewhere.

(** ** Recovery *)

(** The engine applied to the candidates one after the other. *)
Fixpoint recover_engine (candidates : list Event.t) (e : Engine.t) : Engine.t * list Event.t :=
  match candidates with
  | [] => (e, [])
  | c :: cs => let '(e1, evs1) := ApplyRecovery c e in let '(e2, evs2) := recover_engine cs e1 in (e2, evs1 ++ evs2)
  end.
(** What the engine says of the units. *)
Definition states_of (services : list string) (e : Engine.t) : gmap string AvailabilityState :=
  foldl (λ m service, match State service e with
                      | Some st => <[service := ServiceState.Availability st]> m
                      | None => m
                      end) ∅ services.

(** A worker took commands from its queue and received none. *)
Definition consumed (t t' : Target.t) : Prop :=
  Worker.accepted (Target.worker t') = Worker.accepted (Target.worker t) ∧
  Worker.queue (Target.worker t') `suffix_of` Worker.queue (Target.worker t).
(** The other goroutines neither confirm nor enqueue a transition; the workers
    go on. *)
Definition bystanders (a a' : App.t) : Prop :=
  App.eng a' = App.eng a ∧ App.journals a' = App.journals a ∧ Forall2 consumed (App.targets a) (App.targets a').
(** The queue took the command, unless it was full to begin with. *)
Definition took (c : command) (t t' : Target.t) : Prop :=
  ∃ taken : bool,
    Worker.accepted (Target.worker t') = Worker.accepted (Target.worker t) ++ (if taken then [c] else []) ∧
    (#(Worker.queue (Target.worker t)) < queue_capacity → taken = true).

#[export] Instance consumed_preorder : PreOrder consumed.
Proof.
  split; [done|]. intros t1 t2 t3 [A1 Q1] [A2 Q2]. split; [congruence|by etrans].
Qed.
#[export] Instance bystanders_preorder : PreOrder bystanders.
Proof.
  split; [by intros a|]. intros a b c (E1 & J1 & T1) (E2 & J2 & T2). split_and!; [congruence|congruence|by etrans].
Qed.

Lemma consumed_took c t1 t2 t3 : consumed t1 t2 → took c t2 t3 → took c t1 t3.
Proof.
  intros [A1 [k Q1]] (taken & A2 & R2). exists taken. split; [congruence|]. intros Hroom. apply R2.
  rewrite Q1, length_app in Hroom. lia.
Qed.
Lemma consumed_took_all c ts ts1 ts' : Forall2 consumed ts ts1 → Forall2 (took c) ts1 ts' → Forall2 (took c) ts ts'.
Proof. intros H. revert ts'. induction H; intros ts' H'; inv H'; constructor; eauto using consumed_took. Qed.
Lemma took_consumed c t1 t2 t3 : took c t1 t2 → consumed t2 t3 → took c t1 t3.
Proof. intros (taken & A1 & R1) [A2 _]. exists taken. split; [congruence|done]. Qed.
Lemma enqueue_took c t : took c t (Target.with_worker (enqueue c (Target.worker t)).2 t).
Proof.
  unfold took, enqueue. destruct (Z.ltb_spec (#(Worker.queue (Target.worker t))) queue_capacity) as [Hlt|Hge]; simpl.
  - by exists true.
  - exists false. rewrite app_nil_r. split; [done|lia].
Qed.

Section Recovery.
Context (faults : oracle) {EC : EventCodec} {SC : StatesCodec} (h : host) (cfg : Config.Config.t).
Context (others : App.t → App.t → Prop) (Hothers : ∀ x y, others x y → bystanders x y).

Lemma bystanders_reg r a : bystanders a (App.with_reg r a).
Proof. by split_and!. Qed.
Lemma bystanders_log l d a : bystanders a (App.with_log l d a).
Proof. by split_and!. Qed.
Hint Resolve bystanders_reg bystanders_log : core.

Lemma import_events_moves evs recovered : pmoves bystanders (import_events faults evs recovered).
Proof.
  induction evs as [|ev evs IH] in recovered |- *; [done|]. apply pmoves_bind; [by apply pmoves_persist; first [apply _|auto|done]|].
  intros [e|]; [done|]. apply pmoves_bind; [apply pmoves_call, moves_reg; auto|]. intros ?.
  apply pmoves_bind; [apply pmoves_call, moves_State, _|]. intros st.
  apply pmoves_bind; [destruct st; [apply pmoves_save; auto; apply _|done]|]. intros [e|]; [done|apply IH].
Qed.

Lemma import_events_value evs recovered r a a' :
  interleaved others (import_events faults evs recovered) a (r, None) a' → r = recovered ++ evs.
Proof.
  induction evs as [|ev evs IH] in recovered, a |- *; [intros [[= ->] _]; by rewrite app_nil_r|].
  intros H. apply interleaved_pbind in H as ([e|] & a1 & _ & H); [by destruct H|].
  apply interleaved_pbind in H as (u & a2 & _ & H). apply interleaved_pbind in H as (st & a3 & _ & H).
  apply interleaved_pbind in H as ([e|] & a4 & _ & H); [by destruct H|]. apply IH in H. by rewrite H, <-app_assoc.
Qed.

Lemma import_all_ok cs recovered r a a' :
  interleaved others (import_all faults cs recovered) a (r, None) a' →
  r = recovered ++ (recover_engine cs (App.eng a)).2 ∧ App.eng a' = (recover_engine cs (App.eng a)).1 ∧
  App.journals a' = App.journals a ∧ Forall2 consumed (App.targets a) (App.targets a').
Proof.
  induction cs as [|c cs IH] in recovered, a |- *; [intros [[= ->] ->]; by rewrite app_nil_r|].
  intros H. apply interleaved_pbind in H as (events & a1 & H1 & H).
  apply interleaved_call in H1 as (b1 & H1 & (E1 & J1 & T1)%Hothers). unfold on_eng in H1. cbn [recover_engine].
  destruct (ApplyRecovery c (App.eng a)) as [e1 evs1]. injection H1 as <- <-. cbn in E1, J1, T1.
  apply interleaved_pbind in H as ([r2 [e2|]] & a2 & H2 & H); [by destruct H|].
  pose proof (import_events_value _ _ _ _ _ H2) as ->.
  destruct (interleaved_moves bystanders others _ _ _ _ (import_events_moves _ _) Hothers H2) as (E2 & J2 & T2).
  apply IH in H as (-> & He & HJ & HT). rewrite E2, E1 in He |- *. destruct (recover_engine cs e1) as [e3 evs3].
  cbn in *. split_and!; [by rewrite <- app_assoc|done|congruence|]. etrans; [exact T1|]. by etrans.
Qed.

Lemma read_states_ok services states m a a' :
  interleaved others (read_states services states) a m a' →
  bystanders a a' ∧
  m = foldl (λ m service, match State service (App.eng a) with
                          | Some st => <[service := ServiceState.Availability st]> m
                          | None => m
                          end) states services.
Proof.
  induction services as [|x services IH] in states, a |- *; [by intros [-> ->]|].
  intros H. apply interleaved_pbind in H as (st & a1 & H1 & H). apply interleaved_call in H1 as (b1 & H1 & Ho%Hothers).
  apply eng_State_spec in H1 as [-> ->]. apply IH in H as [Hb ->]. split; [by etrans|].
  destruct Ho as (-> & _). done.
Qed.

(** A command for the receivers from the [i]-th on. *)
Lemma enqueue_from c n : ∀ i a u a',
  interleaved others (for_each (seq i n) (λ i, call (on_worker i (enqueue c)))) a u a' →
  App.eng a' = App.eng a ∧ length (App.targets a') = length (App.targets a) ∧
  ∀ j t t', App.targets a !! j = Some t → App.targets a' !! j = Some t' →
    if decide (i <= j < i + n)%nat then took c t t' else consumed t t'.
Proof.
  induction n as [|n IH]; intros i a u a' H.
  { destruct H as [_ ->]. split_and!; [done..|]. intros j t t' Ht Ht'. simplify_eq. by rewrite decide_False by lia. }
  apply interleaved_pbind in H as (u1 & a1 & H1 & H).
  apply interleaved_call in H1 as (b1 & [= _ <-] & (E1 & _ & T1)%Hothers). cbn in E1, T1.
  apply IH in H as (E2 & L2 & T2). pose proof (Forall2_length _ _ _ T1) as L1. rewrite length_alter in L1.
  split_and!; [congruence|congruence|]. intros j t t' Ht Ht'.
  assert (∃ t1, App.targets a1 !! j = Some t1) as [t1 Ht1].
  { apply lookup_lt_is_Some. rewrite <-L1. by eapply lookup_lt_Some. }
  specialize (T2 j t1 t' Ht1 Ht'). pose proof (Forall2_lookup_r _ _ _ _ _ T1 Ht1) as (t0 & Ht0 & Hc).
  rewrite list_lookup_alter in Ht0. case_decide as Hij.
  - subst j. rewrite Ht in Ht0. injection Ht0 as <-. rewrite decide_False in T2 by lia. rewrite decide_True by lia.
    eapply took_consumed; [|exact T2]. eapply took_consumed; [apply enqueue_took|exact Hc].
  - rewrite Ht in Ht0. injection Ht0 as <-. destruct (decide (S i <= j < S i + n)%nat) as [Hin|Hout].
    + rewrite decide_True by lia. by eapply consumed_took.
    + rewrite decide_False by lia. by etrans.
Qed.

Lemma each_target_took c a u a' :
  interleaved others (each_target (λ i, call (on_worker i (enqueue c)))) a u a' →
  App.eng a' = App.eng a ∧ Forall2 (took c) (App.targets a) (App.targets a').
Proof.
  intros (n & b1 & a1 & [= <- <-] & (E1 & _ & T1)%Hothers & H). apply enqueue_from in H as (E2 & L2 & T2).
  split; [congruence|]. pose proof (Forall2_length _ _ _ T1) as L1. apply Forall2_same_length_lookup_2; [congruence|].
  intros j t t' Ht Ht'. pose proof (Forall2_lookup_l _ _ _ _ _ T1 Ht) as (t1 & Ht1 & Hc).
  specialize (T2 j t1 t' Ht1 Ht'). rewrite decide_True in T2; [by eapply consumed_took|].
  apply lookup_lt_Some in Ht. lia.
Qed.
End Recovery.

(** ** Late answers *)

(** What the position has passed is not there for [Send]. *)
Lemma Send_passed faults net l1 ev l2 (s : Sender.t) (x : RemoteWrite.env) :
  Event.Sequence ev <= Sender.lastSent s →
  Send faults net (l1 ++ ev :: l2) (s, x) = Send faults net (l1 ++ l2) (s, x).
Proof.
  intros Hle. assert (∀ l, Send faults net l (s, x) = sendEventsLocked faults net l (s, x)) as HS by (by intros []).
  rewrite !HS. unfold sendEventsLocked, bind. cbn [get_fst]. unfold pending_events.
  rewrite !filter_app, filter_cons_False by lia. done.
Qed.

(** ** Sample exporters *)

(** One service waits for its probe, another is up; one receiver. *)
Definition sample_engine : Engine.t :=
  Engine.mk {["a.service" := sample_state "a.service" StateDown true;
              "pcscf.service" := sample_state "pcscf.service" StateUp false]} 10 {["a.service"]}.
Definition sample_prober : Prober.t :=
  NewProber [Probe.mk "a.service" "sip:10.0.0.1:5060" "10.0.0.1:5060" Second].
Definition sample_worker : Worker.t :=
  NewWorker (WConfig.mk 100 (15 * Minute) ["a.service"; "pcscf.service"] [] [] zero_time).
Definition sample_app : App.t :=
  App.mk sample_engine Registry.New (Some fresh_log.1) fresh_log.2
    [Target.mk "t1" (DeliveryClaims.sender_with 100 10) sample_worker]
    sample_prober (NewProber []) (NewProber []) 0.
Definition stopped : UnitSnapshot.t := sample_snapshot "inactive" 1000000 2000000.
Definition sample_host : host := Host (λ _ _, Ok (Process [] None "" Exited0)) (FixedZone 0).
Definition sample_config : Config.Config.t :=
  Config.Config.mk (ServerConfig.mk "127.0.0.1:9599" false)
    [Service.mk "a.service" "sip:10.0.0.1:5060" "" "" "10.0.0.1:5060" Second; Service.mk "pcscf.service" "" "" "" "" 0]
    (SystemdConfig.mk Second (30 * Second) Hour) (WALConfig.mk true "/d" true)
    (RemoteWriteConfig.mk true "http://r/w" [] 100 Second Second Second "/c/cp" Minute Minute (15 * Minute) ∅
       [RemoteWriteTarget.mk "t1" "http://r/w" "/c/cp-t1" ""]).

Lemma sample_app_logged : logged (encode_all []) [] sample_app.
Proof.
  intros w [= <-]. split; [apply fresh_log_holds|]. intros ev (t & Ht & Hev).
  apply list_elem_of_singleton in Ht as ->. by apply elem_of_nil in Hev.
Qed.
(** Every call succeeds. *)
Definition healthy : oracle := λ _ _, Fine.
Lemma calm_truncates : truncate_reliable healthy.
Proof. done. Qed.

(** Writing to the disk fails. *)
Definition broken_disk : oracle := λ c _, match c with SysWrite => Fail 5 0 | _ => Fine end.

Module MainClaims.

(** C11: Whatever the goroutines of the running exporter do, in any
    interleaving of the single calls that snapshots, recoveries, probe answers
    and the statistics make, with workers and probers moving in between, and
    whatever the disk does short of a failed truncation: when there is a log,
    every event in the queue of a receiver, alone or inside a recovery job, is
    in the log, on disk or among the events the log keeps in memory for a full
    disk. The run begins between two callbacks of the monitor, with the queues
    covered by the log. *)
Theorem enqueued_events_are_in_the_log (faults : oracle) (EC : EventCodec) (SC : StatesCodec) (h : host)
    (cfg : Config.Config.t) (base : bytes) (evs : list Event.t) s s' w :
  truncate_reliable faults → logged base evs (app s) → at_rest faults s → app_steps faults h cfg s s' →
  App.eventLog (app s') = Some w →
  ∃ log, evs ⊆ log ∧ holds base log (w, App.disk (app s')) ∧
    ∀ t ev, t ∈ App.targets (app s') → ev ∈ queue_events (Target.worker t) → ev ∈ log.
Proof.
  intros Ht Hl Hr Hs Hw.
  destruct (sound_steps faults h cfg base Ht s s' Hs evs (at_rest_sound faults base Ht evs s Hr Hl)) as (log & Hsub & Hlog & _).
  exists log. destruct (Hlog w Hw) as [Hh Hq]. split_and!; [done|done|]. intros t ev Hin Hev. apply Hq. by exists t.
Qed.

Lemma enqueued_events_are_in_the_log_witness :
  let a' := (alone (app_onSnapshot healthy stopped) sample_app).2 in
  ∃ w log, App.eventLog a' = Some w ∧ holds (encode_all []) log (w, App.disk a') ∧
    (Event.Sequence <$> (App.targets a' ≫= queue_events ∘ Target.worker)) = [11] ∧
    ∀ t ev, t ∈ App.targets a' → ev ∈ queue_events (Target.worker t) → ev ∈ log.
Proof.
  intros a'. eexists.
  destruct (enqueued_events_are_in_the_log healthy _ _ sample_host sample_config (encode_all []) []
    (System sample_app (Ret None) []) (System a' (Ret (alone (app_onSnapshot healthy stopped) sample_app).1) [])
    (default fresh_log.1 (App.eventLog a')) calm_truncates sample_app_logged)
    as (log & _ & Hh & Hq).
  - split; [by eexists|done].
  - eapply steps_step; [apply step_call, closure_snapshot|]. apply monitor_runs. apply surjective_pairing.
  - by vm_compute.
  - exists log. split; [by vm_compute|]. split; [exact Hh|]. split; [by vm_compute|exact Hq].
Defined.

(** C15: When [onSnapshot] succeeds while the other goroutines, between any
    two of its calls, do anything that leaves alone what engine, log, registry
    and probers hold about this service, then the engine holds the state of
    the service that [Apply] gave it, the registry and the saved state of the
    log agree with it, and every prober that knows the service runs it if the
    service waits for its probe and does not run it otherwise. Publishing the
    answer of another service is such a move ([away_publishReady]); an answer
    of this service is not ([snapshot_overwrites_answer]). *)
Theorem snapshot_settles_the_service (faults : oracle) (EC : EventCodec) (SC : StatesCodec)
    (others : App.t → App.t → Prop) s a a' :
  let svc := UnitSnapshot.Service s in
  (∀ x y, others x y → elsewhere svc x y) → interleaved others (app_onSnapshot faults s) a None a' →
  ∃ st, State svc (Apply s (App.eng a)).1 = Some st ∧ State svc (App.eng a') = Some st ∧
    Registry.states (App.reg a') !! svc = Some (ServiceState.Availability st) ∧
    (∀ w, App.eventLog a' = Some w → WAL.states w !! svc = Some st) ∧
    Forall (λ p, if ServiceState.AwaitingSIP st
                 then is_Some (Prober.probes p !! svc) → is_Some (Prober.running p !! svc)
                 else Prober.running p !! svc = None) (probers a').
Proof.
  intros svc Ho H. apply interleaved_pbind in H as (events & a1 & H1 & H).
  apply interleaved_call in H1 as (b1 & H1 & (E1 & _)%Ho). unfold on_eng in H1.
  destruct (Apply_state s (App.eng a)) as (avail & fields & pend & Hst & _).
  destruct (Apply s (App.eng a)) as [e1 evs1]. injection H1 as <- <-. simpl in E1, Hst.
  set (st := observed_state s avail fields pend) in *. exists st.
  apply interleaved_pbind in H as (e2 & a2 & H2 & H). destruct e2 as [e2|]; [by destruct H|].
  assert (State svc (App.eng a2) = Some st) as E2.
  { rewrite <-Hst. change (Engine.states e1 !! _) with (State svc e1). rewrite <-E1.
    eapply (interleaved_moves (same (λ x, State svc (App.eng x)))); [| |exact H2]; [apply pmoves_publish_events; framed|].
    intros x y Hxy. apply (Ho x y Hxy). }
  apply interleaved_pbind in H as (st' & a3 & H3 & H). apply interleaved_call in H3 as (b3 & H3 & (E3 & _)%Ho).
  apply eng_State_spec in H3 as [-> ->]. fold svc in H. rewrite E2 in H. apply (settle_spec faults svc others Ho) in H as (E4 & S4 & T4 & P4).
  - split_and!; [done|congruence|done|done|]. unfold probe_runs in P4. rewrite Forall_fmap in P4.
    eapply Forall_impl; [exact P4|]. intros p. by destruct fields as [[? ?] ?], pend.
  - by destruct fields as [[? ?] ?].
Qed.

(** The stop of one service, while the probe of the other is answered and
    published between the engine's [Apply] and the rest of [onSnapshot]. *)
Definition answered_meanwhile (x : App.t) : App.t :=
  (alone (publishReady healthy "a.service" (3 * Second) SourceSIP) x).2.
Definition after_apply (events : list Event.t) : prog (option goerror) :=
  err <~ publish_events healthy events;;
  match err with
  | Some e => Ret (Some e)
  | None => existing <~ call (eng_State "pcscf.service");;
            settle healthy "pcscf.service" (default (fresh_state stopped) existing)
  end.
Definition settled_app : App.t :=
  let '(events, x) := on_eng (Apply stopped) sample_app in (alone (after_apply events) (answered_meanwhile x)).2.

Lemma snapshot_settles_the_service_witness :
  let a' := settled_app in
  ∃ st, State "pcscf.service" (Apply stopped sample_engine).1 = Some st ∧ State "pcscf.service" (App.eng a') = Some st ∧
    Registry.states (App.reg a') !! "pcscf.service" = Some (ServiceState.Availability st) ∧
    (∀ w, App.eventLog a' = Some w → WAL.states w !! "pcscf.service" = Some st) ∧
    Forall (λ p, if ServiceState.AwaitingSIP st
                 then is_Some (Prober.probes p !! "pcscf.service") → is_Some (Prober.running p !! "pcscf.service")
                 else Prober.running p !! "pcscf.service" = None) (probers a').
Proof.
  apply (snapshot_settles_the_service healthy _ _ (elsewhere "pcscf.service") stopped sample_app settled_app); [done|].
  exists (on_eng (Apply stopped) sample_app).1, (on_eng (Apply stopped) sample_app).2,
    (answered_meanwhile (on_eng (Apply stopped) sample_app).2). split; [apply surjective_pairing|].
  split; [by vm_compute|].
  apply (alone_interleaved (elsewhere "pcscf.service") (after_apply (on_eng (Apply stopped) sample_app).1));
    [apply elsewhere_refl|]. by vm_compute.
Defined.

(** An answer that arrives after the snapshot has read the state and before it
    publishes it is overwritten: the engine holds the service for up, while the
    registry and the saved state of the log have it down and the probers are
    started again, until the next snapshot of the service. *)
Theorem snapshot_overwrites_answer (faults : oracle) (EC : EventCodec) (SC : StatesCodec) svc st at_ source a a1 a' :
  State svc (App.eng a) = Some st → ServiceState.AwaitingSIP st = true → ServiceState.Service st = svc →
  alone (publishReady faults svc at_ source) a = (tt, a1) → alone (settle faults svc st) a1 = (None, a') →
  (∃ st', State svc (App.eng a') = Some st' ∧ ServiceState.Availability st' = StateUp ∧
          ServiceState.AwaitingSIP st' = false) ∧
  Registry.states (App.reg a') !! svc = Some (ServiceState.Availability st) ∧
  (∀ w, App.eventLog a' = Some w → WAL.states w !! svc = Some st) ∧
  Forall (λ p, is_Some (Prober.probes p !! svc) → is_Some (Prober.running p !! svc)) (probers a').
Proof.
  intros Hst Hwait Hsvc H1 H2. apply (alone_interleaved eq) in H2; [|done].
  apply (settle_spec faults svc eq) in H2 as (E2 & S2 & T2 & P2); [|by intros x y ->|done].
  rewrite Hwait in P2. unfold probe_runs in P2. rewrite Forall_fmap in P2. split; [|done]. rewrite E2.
  apply alone_pbind_inv in H1 as (ev & a0 & H0 & H1). cbn in H0. unfold bind, on_eng, ConfirmReady in H0.
  unfold State in Hst. rewrite Hst, Hwait in H0. injection H0 as <- <-.
  assert (same App.eng (App.with_eng (ConfirmReady svc at_ source (App.eng a)).1 a) a1) as Hs.
  { unfold ConfirmReady. rewrite Hst, Hwait. eapply (moves_alone (same App.eng)); [|exact H1].
    apply pmoves_bind; [apply pmoves_persist; framed|]. intros [e|]; [done|].
    apply pmoves_bind; [apply pmoves_call, moves_reg; framed|]. intros ?.
    apply pmoves_bind; [apply pmoves_call, moves_State, _|]. intros [st'|];
      (apply pmoves_bind; [|intros ?; apply pmoves_call, moves_reg; framed]); [apply pmoves_save; framed|done]. }
  unfold same in Hs. rewrite Hs. unfold State, ConfirmReady. rewrite Hst, Hwait. simpl. rewrite lookup_insert_eq. by eexists.
Qed.

(** C21: A recovery that succeeds while no other goroutine changes the engine
    or enqueues anything (the workers may go on) leaves the engine as if the
    candidates read from the journal had been applied one after the other.
    Each receiver is offered one and the same job, which its queue takes
    unless it was full, and nothing else: the fill that [BuildStateFill] makes
    of the same window, of those candidates and of the states the engine then
    holds, and exactly the transitions the engine accepted. *)
Theorem recovery_is_one_job_per_receiver (faults : oracle) (EC : EventCodec) (SC : StatesCodec) (h : host)
    (cfg : Config.Config.t) (others : App.t → App.t → Prop) from to ws we a a' :
  let rw := Config.Config.RemoteWrite cfg in
  RecoveryWindow (zone h) to (RemoteWriteConfig.RecoveryWindow rw) = Some (ws, we) →
  (∀ x y, others x y → bystanders x y) →
  interleaved others (app_onRecovery faults h cfg from to) a None a' →
  ∃ candidates fill,
    Recover (journal h (App.journals a)) (zone h) (Units cfg) ws we = Ok candidates ∧
    let '(e, recovered) := recover_engine candidates (App.eng a) in
    App.eng a' = e ∧
    (App.targets a ≠ [] →
     BuildStateFill (journal h (S (App.journals a))) (zone h) (Units cfg) ws we candidates
       (RemoteWriteConfig.RecoveryFillInterval rw) (states_of (Units cfg) e) = Ok fill) ∧
    Forall2 (λ t t', ∃ taken : bool,
      Worker.accepted (Target.worker t') =
        Worker.accepted (Target.worker t) ++ (if taken then [CmdRecovery (mkJob fill recovered)] else []) ∧
      (#(Worker.queue (Target.worker t)) < queue_capacity → taken = true)) (App.targets a) (App.targets a').
Proof.
  intros rw Hw Ho H. unfold app_onRecovery in H. fold rw in H. rewrite Hw in H.
  apply interleaved_pbind in H as (u & a1 & H1 & H). apply interleaved_call in H1 as (b1 & [= _ <-] & (E1 & J1 & T1)%Ho).
  apply interleaved_pbind in H as (r & a2 & H2 & H). apply interleaved_call in H2 as (b2 & [= <- <-] & (E2 & J2 & T2)%Ho).
  cbn in E1, J1, T1, E2, J2, T2. rewrite J1 in H.
  destruct (Recover _ _ _ _ _) as [candidates|e] eqn:Hrec; [|by destruct H]. exists candidates.
  apply interleaved_pbind in H as ([recovered [e|]] & a3 & H3 & H); [by destruct H|].
  apply (import_all_ok faults others Ho) in H3 as (Hr & E3 & J3 & T3). rewrite E2, E1 in Hr, E3.
  destruct (recover_engine candidates (App.eng a)) as [e0 evs0]. cbn in Hr, E3. subst evs0.
  assert (Forall2 consumed (App.targets a) (App.targets a3)) as T by (etrans; [exact T1|]; by etrans).
  apply interleaved_pbind in H as (n & a4 & H4 & H). apply interleaved_call in H4 as (b4 & [= <- <-] & (E4 & J4 & T4)%Ho).
  destruct (App.targets a3) as [|t3 ts3] eqn:Hts.
  { destruct H as [_ ->]. apply Forall2_nil_inv_r in T. apply Forall2_nil_inv_l in T4.
    exists []. rewrite T, T4. split_and!; [done|congruence|done|by constructor]. }
  cbn [length] in H. apply interleaved_pbind in H as (m & a5 & H5 & H).
  apply (read_states_ok others Ho) in H5 as [(E5 & J5 & T5) ->].
  apply interleaved_pbind in H as (r & a6 & H6 & H). apply interleaved_call in H6 as (b6 & [= <- <-] & (E6 & J6 & T6)%Ho).
  rewrite J5, J4, J3, J2, E4, E3 in H. cbn in J6, E6, T6. fold rw (states_of (Units cfg) e0) in H. rewrite J1 in H.
  destruct (BuildStateFill _ _ _ _ _ _ _ _) as [fill|e] eqn:Hfill; [|by destruct H]. exists fill.
  apply interleaved_pbind in H as (u7 & a7 & H7 & [_ ->]). apply (each_target_took others Ho) in H7 as [E7 T7].
  split_and!; [done|congruence|done|].
  assert (Forall2 consumed (App.targets a) (App.targets a6)) as T' by (etrans; [exact T|]; etrans; [exact T4|]; by etrans).
  by eapply consumed_took_all.
Qed.

Lemma recovery_is_one_job_per_receiver_witness :
  let to := 1700000000 * Second in
  let a' := (alone (app_onRecovery healthy sample_host sample_config 0 to) sample_app).2 in
  ∃ candidates fill,
    Recover (journal sample_host 0) (FixedZone 0) (Units sample_config) (SlotStart (FixedZone 0) to (15 * Minute)) to
      = Ok candidates ∧
    let '(e, recovered) := recover_engine candidates sample_engine in
    App.eng a' = e ∧
    (App.targets sample_app ≠ [] →
     BuildStateFill (journal sample_host 1) (FixedZone 0) (Units sample_config)
       (SlotStart (FixedZone 0) to (15 * Minute)) to candidates Minute (states_of (Units sample_config) e) = Ok fill) ∧
    Forall2 (λ t t', ∃ taken : bool,
      Worker.accepted (Target.worker t') =
        Worker.accepted (Target.worker t) ++ (if taken then [CmdRecovery (mkJob fill recovered)] else []) ∧
      (#(Worker.queue (Target.worker t)) < queue_capacity → taken = true)) (App.targets sample_app) (App.targets a').
Proof.
  apply (recovery_is_one_job_per_receiver healthy _ _ sample_host sample_config bystanders 0 (1700000000 * Second)
    (SlotStart (FixedZone 0) (1700000000 * Second) (15 * Minute)) (1700000000 * Second) sample_app
    (alone (app_onRecovery healthy sample_host sample_config 0 (1700000000 * Second)) sample_app).2);
    [by vm_compute|done|]. apply alone_interleaved; [done|]. by vm_compute.
Defined.

(** C39: When the log refuses the UP event of a probe answer, no receiver gets
    it and neither the registry's states nor its counters change, but the
    engine already holds the service for up, and no later answer publishes it.
    *)
Theorem unlogged_answer_is_lost (faults : oracle) (EC : EventCodec) (SC : StatesCodec) service at_ source a e ev err a1 a' :
  ConfirmReady service at_ source (App.eng a) = (e, Some ev) →
  alone (appendEvent faults ev) (App.with_eng e a) = (Some err, a1) →
  alone (publishReady faults service at_ source) a = (tt, a') →
  App.targets a' = App.targets a ∧
  Registry.states (App.reg a') = Registry.states (App.reg a) ∧ Registry.up (App.reg a') = Registry.up (App.reg a) ∧
  (∃ st, State service (App.eng a') = Some st ∧ ServiceState.Availability st = StateUp) ∧
  (∀ at2 source2, alone (publishReady faults service at2 source2) a' = (tt, a')).
Proof.
  intros Hc Ha H. apply alone_pbind_inv in H as (ev' & a2 & H2 & H). cbn in H2. unfold bind, on_eng in H2. rewrite Hc in H2.
  injection H2 as <- <-. apply alone_pbind_inv in H as (e3 & a3 & H3 & H).
  apply alone_pbind_inv in H3 as (e4 & a4 & H4 & H3). rewrite Ha in H4.
  injection H4 as <- <-. injection H3 as <- <-. injection H as <-.
  set (kept (x : App.t) := (App.eng x, App.targets x, Registry.states (App.reg x), Registry.up (App.reg x))).
  assert (kept a1 = kept (App.with_eng e a)) as [= He Ht Hs Hu].
  { eapply (moves_alone (same kept)); [|exact Ha]. apply pmoves_bind; [apply pmoves_call, moves_on_log; framed|]. intros x.
    apply pmoves_bind; [|done]. split; [apply moves_ask; apply _|]. intros w. split; [apply moves_ask; apply _|]. intros p.
    simpl. repeat case_match; try done. split; [|done]. by intros ? ? ? [= _ <-]. }
  unfold ConfirmReady in Hc. destruct (Engine.states (App.eng a) !! service) as [st|]; [|done].
  destruct (negb (ServiceState.AwaitingSIP st)); [done|]. injection Hc as <- _.
  split_and!; [done..| |].
  - rewrite He. unfold State. simpl. rewrite lookup_insert_eq. by eexists.
  - intros at2 source2. unfold publishReady. cbn. unfold bind, on_eng, ConfirmReady. rewrite He. simpl. rewrite lookup_insert_eq. simpl.
    rewrite <- He. by destruct a1.
Qed.

Lemma unlogged_answer_is_lost_witness :
  let a' := (alone (publishReady broken_disk "a.service" (3 * Second) SourceSIP) sample_app).2 in
  App.targets a' = App.targets sample_app ∧
  Registry.states (App.reg a') = Registry.states (App.reg sample_app) ∧
  Registry.up (App.reg a') = Registry.up (App.reg sample_app) ∧
  (∃ st, State "a.service" (App.eng a') = Some st ∧ ServiceState.Availability st = StateUp) ∧
  (∀ at2 source2, alone (publishReady broken_disk "a.service" at2 source2) a' = (tt, a')).
Proof.
  set (r := ConfirmReady "a.service" (3 * Second) SourceSIP sample_engine).
  set (ev := default (sample_event 0 "" StateUp 0) r.2).
  set (x := alone (appendEvent broken_disk ev) (App.with_eng r.1 sample_app)).
  refine (unlogged_answer_is_lost broken_disk _ _ "a.service" (3 * Second) SourceSIP sample_app
    r.1 ev (default ErrDecode x.1) x.2 (alone (publishReady broken_disk "a.service" (3 * Second) SourceSIP) sample_app).2 _ _ _);
    by vm_compute.
Defined.

(** C40: An answer that the engine numbered is never sent once an event that
    any later operations of the engine emitted was sent: from then on, at that
    position and at every later one, every [Send] behaves as if the answer
    were not in its list, and a worker that flushes it reports success without
    a request, empties its batch and counts nothing as dropped. *)
Theorem answer_published_late_is_never_sent (faults : oracle) (net : network) (env : surroundings)
    service at_ source (e0 e1 e2 : Engine.t) (ev later : Event.t) (ops : list EngineFacts.op) (evs sent : list Event.t)
    (x0 x1 : Sender.t * RemoteWrite.env) :
  let ops_of_sender := remote_ops faults net in
  (* the engine numbers the answer, and later another event *)
  wf e0 → ConfirmReady service at_ source e0 = (e1, Some ev) →
  Forall op_typed ops → EngineFacts.run ops e1 = (e2, evs) → Engine.seq e0 + 1 + #evs < 2 ^ 64 → later ∈ evs →
  (* the later event is delivered before the answer is published *)
  0 < RemoteWrite.Config.BatchSize (Sender.cfg x0.1) → Send faults net sent x0 = (None, x1) → later ∈ sent →
  ∀ x, Sender.lastSent x1.1 <= Sender.lastSent x.1 →
  (∀ l1 l2, Send faults net (l1 ++ ev :: l2) x = Send faults net (l1 ++ l2) x) ∧
  ∀ w, Worker.batch w = [ev] →
    ∃ w', flush env (w, x) = (true, (w', x)) ∧ Worker.batch w' = [] ∧ Worker.dropped w' = Worker.dropped w ∧
      Worker.calls w' = Worker.calls w ++ [CallSend [ev] None].
Proof.
  intros ops_of_sender Hwf Hc Ht Hrun Hseq Hin Hsize Hsend Hsent x Hx.
  assert (Event.Sequence ev <= Sender.lastSent x.1) as Hle.
  { apply ConfirmReady_numbered in Hc as (Hwf1 & Hs1 & Hq1); [|done|cbn; lia]. cbn in Hs1, Hq1.
    apply (run_numbered ops) in Hrun as (_ & _ & Hq2); [|done|done|lia].
    apply remote_Send_position in Hsend as (_ & _ & Hall); [|done]. specialize (Hall eq_refl).
    rewrite Forall_forall in Hall. specialize (Hall _ Hsent).
    assert (Event.Sequence later ∈ seqZ (Engine.seq e1 + 1) #evs) as Hl by (rewrite <-Hq2; by apply list_elem_of_fmap_2).
    apply elem_of_seqZ in Hl. injection Hq1 as Hq1. lia. }
  destruct x as [s x]. cbn [fst] in Hle. split; [intros l1 l2; by apply Send_passed|]. intros w Hb.
  assert (Send faults net [ev] (s, x) = (None, (s, x))) as Hsend' by exact (Send_passed faults net [] ev [] s x Hle).
  destruct (meanwhile (X:=Sender.t * RemoteWrite.env) env (w, (s, x))) as [u [w1 y1]] eqn:Hm.
  pose proof (meanwhile_spec env _ _ _ Hm) as (Hy & w2 & [n ->] & Hw). cbn [fst snd] in Hy, Hw. subst y1 w1.
  eexists. split; [|split; [|split]].
  1: { unfold flush. unfold bind at 1. cbn [get_fst]. rewrite Hb. unfold bind at 1, call_Send, bind at 1, on_snd.
    change (sender_Send [ev]) with (Send faults net [ev]). rewrite Hsend'. unfold bind at 1. rewrite Hm. reflexivity. }
  all: done.
Qed.

(** The answer gets number 11, the stop of the other service number 12, and the
    receiver takes the latter first. *)
Definition late_engine : Engine.t := Eval vm_compute in (ConfirmReady "a.service" (3 * Second) SourceSIP sample_engine).1.
Definition late_answer : Event.t := Eval vm_compute in
  default (sample_event 0 "" StateUp 0) (ConfirmReady "a.service" (3 * Second) SourceSIP sample_engine).2.
Definition later_events : list Event.t := Eval vm_compute in (Apply stopped late_engine).2.
Definition accepting : network := DeliveryClaims.net_of (λ _, Status 204).
Definition after_later : Sender.t * RemoteWrite.env := Eval vm_compute in
  (Send healthy accepting later_events (DeliveryClaims.sender_with 100 10, DeliveryClaims.no_requests)).2.

Lemma sample_engine_wf : wf sample_engine.
Proof.
  split; [by vm_compute|]. intros k st Hk. unfold sample_engine in Hk. cbn [Engine.states] in Hk.
  apply lookup_insert_Some in Hk as [[<- <-]|[_ Hk]]; [by split|].
  apply lookup_singleton_Some in Hk as [<- <-]. by split.
Qed.

Lemma answer_published_late_is_never_sent_witness :
  (Event.Sequence late_answer, Event.Sequence <$> later_events, Sender.lastSent after_later.1) = (11, [12], 12) ∧
  ∀ x, Sender.lastSent after_later.1 <= Sender.lastSent x.1 →
  (∀ l1 l2, Send healthy accepting (l1 ++ late_answer :: l2) x = Send healthy accepting (l1 ++ l2) x) ∧
  ∀ w, Worker.batch w = [late_answer] →
    ∃ w', flush (SenderOps0 := remote_ops healthy accepting) utc_env (w, x) = (true, (w', x)) ∧
      Worker.batch w' = [] ∧ Worker.dropped w' = Worker.dropped w ∧
      Worker.calls w' = Worker.calls w ++ [CallSend [late_answer] None].
Proof.
  split; [by vm_compute|].
  apply (answer_published_late_is_never_sent healthy accepting utc_env "a.service" (3 * Second) SourceSIP
    sample_engine late_engine (Apply stopped late_engine).1 late_answer
    (default late_answer (head later_events)) [EngineFacts.OpApply stopped] later_events later_events
    (DeliveryClaims.sender_with 100 10, DeliveryClaims.no_requests) after_later).
  - apply sample_engine_wf.
  - by vm_compute.
  - apply Forall_singleton. by vm_compute.
  - by vm_compute.
  - by vm_compute.
  - by left.
  - by vm_compute.
  - by vm_compute.
  - by left.
Defined.
End MainClaims.
