(* ===== verification/StartupTheorems.v ===== *)
(** * StartupTheorems: what a started exporter looks like *)

From S2P Require Import Prelude GoTime GoStrings Model Json Engine Slots Journal Backfill GoOS Wal Codec WalTheorems RemoteWrite Delivery GoText GoNet GoFloat Config Probe Systemd SystemdTheorems Identity Metrics Main MainFacts MainTheorems Startup.

(** ** Probes *)

Definition all_probes (p : Probes.t) : list Probe.t := Probes.sip p ++ Probes.dns p ++ Probes.agw p.
(** The services that have a probe. *)
Definition probed (services : list Service.t) : list Service.t :=
  filter (λ svc, (probe_target svc).1 ≠ "") services.

Lemma elem_of_probed_name services svc :
  (∃ s, s ∈ services ∧ Service.Name s = svc ∧ (Service.SIP s ≠ "" ∨ Service.DNS s ≠ "" ∨ Service.AGW s ≠ "")) ↔
  ∃ s, s ∈ probed services ∧ Service.Name s = svc.
Proof.
  unfold probed. setoid_rewrite list_elem_of_filter.
  assert (∀ s, (probe_target s).1 ≠ "" ↔ Service.SIP s ≠ "" ∨ Service.DNS s ≠ "" ∨ Service.AGW s ≠ "") as Ht.
  { intros s. unfold probe_target. repeat case_bool_decide; simpl; tauto. }
  setoid_rewrite Ht. naive_solver.
Qed.

Lemma add_probe_all svc target kind p pr :
  pr ∈ all_probes (add_probe svc target kind p) ↔ pr ∈ all_probes p ∨ pr = probe_of svc target.
Proof. unfold add_probe, all_probes. repeat case_decide; simpl; set_solver. Qed.

(** An address whose host is an IP that some interface of the machine has. *)
Definition is_local (ifaces : interfaces) (addr : string) : Prop :=
  ∃ host port ip ifs name addrs a ip', SplitHostPort addr = Ok (host, port) ∧ ParseIP host = Some ip ∧
    ifaces = Ok ifs ∧ (name, Ok addrs) ∈ ifs ∧ a ∈ addrs ∧ (a = IPNet ip' ∨ a = IPAddr ip') ∧ IP_Equal ip' ip = true.

Lemma interface_ips_spec ifs locals ip :
  interface_ips ifs = Ok locals → ip ∈ locals →
  ∃ name addrs a, (name, Ok addrs) ∈ ifs ∧ a ∈ addrs ∧ (a = IPNet ip ∨ a = IPAddr ip).
Proof.
  induction ifs as [|[name [addrs|e]] ifs IH] in locals |- *; simpl; intros H Hin; [|destruct (interface_ips ifs) as [rest|]|done]; simplify_eq/=.
  - by apply elem_of_nil in Hin.
  - apply elem_of_app in Hin as [(a & Ha & Hip)%list_elem_of_omap|Hin].
    + exists name, addrs, a. split; [by left|]. split; [done|]. destruct a; simplify_eq/=; auto.
    + destruct (IH _ eq_refl Hin) as (name' & addrs' & a & ? & ?). exists name', addrs', a. split; [by right|done].
Qed.

Lemma RequireLocal_is_local ifaces addr locals :
  LocalIPs ifaces = Ok locals → RequireLocal addr locals = None → is_local ifaces addr.
Proof.
  unfold LocalIPs, RequireLocal. destruct ifaces as [ifs|e]; [|done]. intros Hl.
  destruct (SplitHostPort addr) as [[host port]|e] eqn:Hsplit; [|done].
  destruct (ParseIP host) as [ip|] eqn:Hip; [|done]. destruct (existsb _ _) eqn:He; [|done]. intros _.
  apply existsb_exists in He as (ip' & Hin & Heq). apply list_elem_of_In in Hin.
  destruct (interface_ips_spec _ _ _ Hl Hin) as (name & addrs & a & ? & ? & ?).
  exists host, port, ip, ifs, name, addrs, a, ip'. by split_and!.
Qed.

Lemma configure_probes_spec ifaces services locals p p' :
  (locals = [] ∨ LocalIPs ifaces = Ok locals) →
  configure_probes ifaces services locals p = Ok p' →
  Forall (λ svc, is_local ifaces (Service.Addr svc)) (probed services) ∧
  ∀ pr, pr ∈ all_probes p' ↔ pr ∈ all_probes p ∨ ∃ svc, svc ∈ probed services ∧ pr = probe_of svc (probe_target svc).1.
Proof.
  induction services as [|svc services IH] in locals, p |- *; intros Hloc; simpl.
  { intros [= <-]. split; [apply Forall_nil_2|]. intros pr. split; [by left|].
    intros [?|(svc & Hs & _)]; [done|]. by apply elem_of_nil in Hs. }
  destruct (probe_target svc) as [target kind] eqn:Ht. unfold probed. rewrite filter_cons.
  destruct (decide (target = "")) as [->|Hne].
  { intros H. rewrite decide_False by (intros Hn; apply Hn; by rewrite Ht). by eapply IH. }
  rewrite decide_True by (by rewrite Ht).
  destruct (match locals with [] => LocalIPs ifaces | _ => Ok locals end) as [locals'|e] eqn:Hl; [|done].
  assert (LocalIPs ifaces = Ok locals') as Hlocal by (destruct locals; naive_solver).
  destruct (RequireLocal (Service.Addr svc) locals') eqn:Hr; [done|]. intros H.
  destruct (IH locals' _ (or_intror Hlocal) H) as [Hall Hin]. split.
  { apply Forall_cons_2; [by eapply RequireLocal_is_local|done]. }
  intros pr. rewrite Hin, add_probe_all. setoid_rewrite elem_of_cons. split.
  - intros [[?| ->]|(svc' & ? & ->)]; [by left|right; exists svc; rewrite Ht; auto|right; eauto].
  - intros [?|(svc' & [->|?] & ->)]; [by left; left|left; right; by rewrite Ht|right; eauto].
Qed.

Lemma NewProber_probes ps svc pr : Prober.probes (NewProber ps) !! svc = Some pr → pr ∈ ps ∧ Probe.Service pr = svc.
Proof.
  simpl. induction ps as [|x ps IH] using rev_ind; [done|]. rewrite foldl_app. simpl.
  intros [[<- <-]|[_ H]]%lookup_insert_Some; [set_solver|]. apply IH in H. set_solver.
Qed.

(** ** What the rest of the start leaves alone *)

(** The services that wait for a probe and the probers, and the receivers. *)
Definition waiting (a : App.t) : gset string * list Prober.t := (Engine.delayUp (App.eng a), probers a).
Definition guarded (a : App.t) : gset string * list Prober.t * list Target.t := (waiting a, App.targets a).

Section Frames.
Context (faults : oracle) {EC : EventCodec} {SC : StatesCodec} (mc : machine) (cfg : Config.Config.t).

Lemma guarded_eng {B} (f : Engine.t → Engine.t * B) :
  (∀ e, Engine.delayUp (f e).1 = Engine.delayUp e) → frames guarded (on_eng f).
Proof.
  intros Hf a b a' H. unfold on_eng in H. specialize (Hf (App.eng a)). destruct (f (App.eng a)) as [e b0].
  injection H as _ <-. unfold same, guarded, waiting. simpl in *. by rewrite Hf.
Qed.
Lemma guarded_eng_State svc : frames guarded (eng_State svc).
Proof. by apply guarded_eng. Qed.
Lemma guarded_disk {B} (m : M world B) : frames guarded (app_disk m).
Proof. intros a b a' H. unfold app_disk in H. destruct (m _). by injection H as _ <-. Qed.
Lemma guarded_journal {B} (f : journalctl_cmd → B) : frames guarded (read_journal (around mc) f).
Proof. by intros a b a' [= _ <-]. Qed.
Lemma guarded_get : frames guarded get.
Proof. by intros a b a' [= _ <-]. Qed.
Lemma guarded_modify f : (∀ a, guarded (f a) = guarded a) → frames guarded (modify f).
Proof. intros Hf a b a' [= _ <-]. apply Hf. Qed.

Lemma frames_try {B C} (m : M App.t (result fatal B)) (k : B → M App.t (result fatal C)) :
  frames guarded m → (∀ b, frames guarded (k b)) → frames guarded (try m k).
Proof. intros Hm Hk. apply frames_bind; [done|]. intros [b|e]; [apply Hk|apply frames_ret]. Qed.
Lemma frames_check what m : frames guarded m → frames guarded (check what m).
Proof. intros Hm. apply frames_bind; [done|]. intros e. apply frames_ret. Qed.

Lemma RestoreState_delayUp st e : Engine.delayUp (RestoreState st e) = Engine.delayUp e.
Proof. unfold RestoreState. by case_decide. Qed.
Lemma Replay_delayUp ev e : Engine.delayUp (Replay ev e) = Engine.delayUp e.
Proof. unfold Replay. by case_match. Qed.
Lemma reboot_delayUp order bootID t e : Engine.delayUp (ApplyReboot order bootID t e).1 = Engine.delayUp e.
Proof.
  induction order as [|svc order IH] in e |- *; [done|]. simpl.
  destruct (reboot_turn svc bootID t e) as [e1 evs1] eqn:E1.
  assert (Engine.delayUp e1 = Engine.delayUp e) as E.
  { unfold reboot_turn in E1. repeat case_match; simplify_eq/=; done. }
  specialize (IH e1). destruct (ApplyReboot order bootID t e1). simpl in *. congruence.
Qed.
Lemma recovery_delayUp ev e : Engine.delayUp (ApplyRecovery ev e).1 = Engine.delayUp e.
Proof. unfold ApplyRecovery. by case_match. Qed.

Lemma guarded_foldl {B} (f : App.t → B → App.t) l a :
  (∀ a x, guarded (f a x) = guarded a) → guarded (foldl f a l) = guarded a.
Proof. intros Hf. induction l as [|x l IH] in a |- *; simpl; [done|]. by rewrite IH. Qed.

Hint Resolve frames_ret frames_bind frames_try frames_check guarded_eng_State guarded_disk guarded_journal guarded_get : core.
Hint Resolve reboot_delayUp recovery_delayUp : core.

Lemma guarded_reg g : frames guarded (on_reg g).
Proof. apply moves_reg; framed. Qed.
Lemma guarded_append ev : frames guarded (alone (appendEvent faults ev)).
Proof. apply frames_alone, pmoves_append; framed. Qed.
Lemma guarded_save st : pframes guarded (saveState faults st).
Proof. apply pmoves_save; framed. Qed.
Lemma guarded_save_alone st : frames guarded (alone (saveState faults st)).
Proof. apply frames_alone, guarded_save. Qed.
Lemma guarded_publishWAL : frames guarded (alone publishWAL).
Proof. apply frames_alone, pmoves_publishWAL; framed. Qed.
Hint Resolve guarded_reg guarded_append guarded_save guarded_save_alone guarded_publishWAL : core.

Lemma guarded_open_log : frames guarded (open_log faults cfg).
Proof.
  unfold open_log. case_match; [auto|]. apply frames_bind; [auto|]. intros [w|e]; [|auto].
  apply frames_bind; [by apply guarded_modify|]. intros ?. apply frames_bind; [auto|]. intros ?.
  apply frames_bind; [|auto]. apply guarded_modify. intros a. apply guarded_foldl. intros a0 st.
  unfold guarded, waiting. simpl. by rewrite RestoreState_delayUp.
Qed.

Lemma guarded_replay_log : frames guarded (replay_log faults cfg).
Proof.
  unfold replay_log. case_match; [auto|]. apply frames_bind; [auto|]. intros [[events report] e].
  apply frames_bind; [|auto]. apply guarded_modify. intros a. apply guarded_foldl. intros a0 ev.
  unfold guarded, waiting. simpl. by rewrite Replay_delayUp.
Qed.

Lemma guarded_persist_reboot evs : frames guarded (persist_reboot faults evs).
Proof. induction evs as [|ev evs IH]; cbn [persist_reboot]; [auto|]. apply frames_try; auto. Qed.
Lemma guarded_save_states services : frames guarded (save_states faults services).
Proof.
  induction services as [|svc services IH]; cbn [save_states]; [auto|]. apply frames_bind; [auto|]. intros [st|]; [|auto].
  apply frames_try; auto.
Qed.

Lemma guarded_handle_boot slotStart : frames guarded (handle_boot faults mc cfg slotStart).
Proof.
  unfold handle_boot. apply frames_bind; [auto|]. intros [bootID|e]; [|auto]. apply frames_bind; [auto|]. intros a.
  case_match; [auto|]. apply frames_bind; [auto|]. intros [bootTime|e]; [|auto]. unfold apply_reboot.
  apply frames_bind; [case_match; [by apply guarded_modify|auto]|]. intros ?.
  apply frames_bind; [apply guarded_eng; auto|]. intros events.
  apply frames_try; [apply guarded_persist_reboot|]. intros ?. apply frames_bind; [auto|]. intros a'.
  case_match; [apply guarded_save_states|auto].
Qed.

Lemma guarded_import_events evs recovered : pframes guarded (import_events faults evs recovered).
Proof.
  induction evs as [|ev evs IH] in recovered |- *; [done|]. apply pmoves_bind; [by apply pmoves_persist; framed|].
  intros [e|]; [done|]. apply pmoves_bind; [by apply pmoves_call|]. intros ?.
  apply pmoves_bind; [by apply pmoves_call|]. intros st. apply pmoves_bind; [by destruct st|]. intros [e|]; [done|apply IH].
Qed.
Lemma guarded_import_all cs recovered : pframes guarded (import_all faults cs recovered).
Proof.
  induction cs as [|c cs IH] in recovered |- *; [done|]. apply pmoves_bind; [apply pmoves_call, guarded_eng; auto|].
  intros evs. apply pmoves_bind; [apply guarded_import_events|]. intros [r [e|]]; [done|apply IH].
Qed.

Lemma guarded_recover_slot t from current : frames guarded (recover_slot faults mc cfg t from current).
Proof.
  unfold recover_slot. destruct (RecoveryWindow _ _ _) as [[ws we]|]; [|auto].
  apply frames_bind; [auto|]. intros ?. apply frames_bind; [auto|]. intros [events|e]; [|auto].
  apply frames_bind; [apply frames_alone, guarded_import_all|]. intros [r [e|]]; auto.
Qed.

Lemma guarded_startup_events recovered : frames guarded (startup_events faults cfg recovered).
Proof.
  unfold startup_events. case_match; [auto|]. apply frames_bind; [auto|]. intros [[? ?] ?]. auto.
Qed.

Lemma try_inv {S B C} (m : M S (result fatal B)) (k : B → M S (result fatal C)) s c s' :
  try m k s = (Ok c, s') → ∃ b s1, m s = (Ok b, s1) ∧ k b s1 = (Ok c, s').
Proof. intros H. unfold try in H. bind_inv H as r s1 H1. destruct r as [b|e]; [eauto|discriminate H]. Qed.

(** What [make_workers] adds. *)
Definition receivers (events : list Event.t) (slot : recovered_slot) (ts : list RemoteWriteTarget.t) (new : list Target.t) : Prop :=
  Target.ID <$> new = RemoteWriteTarget.ID <$> ts ∧
  Forall (λ t, Target.worker t = NewWorker (worker_config cfg events slot)) new.

Lemma make_workers_spec events slot ts a a' :
  make_workers faults cfg events slot ts a = (Ok tt, a') →
  waiting a' = waiting a ∧ ∃ new, App.targets a' = App.targets a ++ new ∧ receivers events slot ts new.
Proof.
  induction ts as [|t ts IH] in a |- *; simpl.
  { intros [= <-]. split; [done|]. exists []. rewrite app_nil_r. by repeat split. }
  intros H. apply try_inv in H as (u & a1 & H1 & H).
  assert (guarded a1 = guarded a) as E1 by (by eapply frames_check; [apply guarded_disk|exact H1]).
  bind_inv H as r a2 H2. assert (guarded a2 = guarded a1) as E2 by (by eapply guarded_disk).
  destruct r as [[s|]|e]; [| |discriminate H].
  - bind_inv H as u3 a3 H3. injection H3 as _ <-. bind_inv H as u4 a4 H4.
    assert (guarded a4 = guarded _) as E4 by (by eapply guarded_reg).
    apply IH in H as [Hg (new & Ht & Hid & Hw)].
    apply pair_eq in E1 as [W1 T1]. apply pair_eq in E2 as [W2 T2]. apply pair_eq in E4 as [W4 T4].
    split; [rewrite Hg, W4, <- W1, <- W2; done|].
    exists (Target.mk (RemoteWriteTarget.ID t) s (NewWorker (worker_config cfg events slot)) :: new).
    split; [rewrite Ht, T4; simpl; rewrite T2, T1, <- app_assoc; done|].
    split; [simpl; by f_equal|by constructor].
  - unfold app_disk, RemoteWrite.New, sender_config in H2. simpl in H2. case_decide; [done|].
    unfold bind, ret in H2. destruct (loadCheckpoint _ _ _) as [[?|?] ?]; by injection H2.
Qed.

Lemma start_app_spec a a' :
  start_app faults mc cfg a = (Ok tt, a') →
  waiting a' = waiting a ∧
  ∃ events slot new, App.targets a' = App.targets a ++ new ∧
    receivers events slot (RemoteWriteConfig.Targets (Config.Config.RemoteWrite cfg)) new.
Proof.
  intros H. apply try_inv in H as (u1 & a1 & H1%guarded_open_log & H).
  bind_inv H as durable a2 H2. apply guarded_replay_log in H2.
  apply try_inv in H as (u3 & a3 & H3%guarded_handle_boot & H). cbv zeta in H.
  apply try_inv in H as (slot & a4 & H4%guarded_recover_slot & H).
  bind_inv H as events a5 H5. apply guarded_startup_events in H5.
  assert (guarded a5 = guarded a) as E by congruence.
  apply make_workers_spec in H as [Hg (new & Ht & Hr)]. apply pair_eq in E as [EW ET].
  split; [congruence|]. exists events, slot, new. split; [by rewrite Ht, ET|done].
Qed.
End Frames.

Lemma startup_inv faults {EC : EventCodec} {SC : StatesCodec} mc cfg disk a :
  startup faults mc cfg disk = Ok a →
  ∃ probes hostnames disk',
    configure_probes (local_interfaces mc) (Config.Config.Services cfg) [] (Probes.mk [] [] []) = Ok probes ∧
    start_app faults mc cfg (initial cfg hostnames probes disk') = (Ok tt, a).
Proof.
  unfold startup. destruct (configure_probes _ _ _ _) as [probes|e] eqn:Hp; [|done].
  destruct (LocalHostnames _ _ _) as [names disk'] eqn:Hn. destruct (listen_tcp _ _); [done|].
  destruct (start_app _ _ _ _) as [[[]|e] a0] eqn:Hs; [|done]. intros [= <-]. eauto.
Qed.

(** ** A sample machine *)

Definition sample_machine : machine := {|
  around := sample_host;
  local_interfaces := Ok [("eth0", Ok [IPNet [10; 0; 0; 1]])];
  os_hostname := Ok "node1.example.org";
  listen_tcp _ := None;
  float_out_of_range _ := 0;
  states_order e := (map_to_list (Engine.states e)).*1;
  now_startup := 1700000000 * Second;
  now_boot := 1700000000 * Second;
  system_bus := flaky_bus;
|}.
Definition sample_disk : world :=
  World {["/proc/sys/kernel/random/boot_id" := File (to_bytes "b1") 0; "/proc/uptime" := File (to_bytes "100.5 50") 0]} 0.
Definition sample_start : result fatal App.t := startup healthy sample_machine sample_config sample_disk.

Module StartupClaims.

(** C23: In an exporter that started, every probe goes to an address whose
    host part is a literal address equal to one assigned to a local interface,
    and belongs to a service for which the engine was told to withhold UP
    until an answer; the engine was told so of exactly the services configured
    with a SIP, DNS or AGW target. *)
Theorem only_local_addresses_are_probed faults (EC : EventCodec) (SC : StatesCodec) mc cfg disk a :
  startup faults mc cfg disk = Ok a →
  (∀ p svc pr, p ∈ probers a → Prober.probes p !! svc = Some pr →
     is_local (local_interfaces mc) (Probe.Addr pr) ∧ Probe.Service pr = svc ∧ svc ∈ Engine.delayUp (App.eng a)) ∧
  (∀ svc, svc ∈ Engine.delayUp (App.eng a) ↔
     ∃ s, s ∈ Config.Config.Services cfg ∧ Service.Name s = svc ∧
       (Service.SIP s ≠ "" ∨ Service.DNS s ≠ "" ∨ Service.AGW s ≠ "")).
Proof.
  setoid_rewrite elem_of_probed_name. intros (probes & names & disk' & Hp & Hs)%startup_inv. apply start_app_spec in Hs as [[= Hd Hsip Hdns Hagw] _].
  destruct (configure_probes_spec _ _ _ _ _ (or_introl eq_refl) Hp) as [Hloc Hall].
  assert (∀ pr, pr ∈ all_probes probes ↔ ∃ s, s ∈ probed (Config.Config.Services cfg) ∧ pr = probe_of s (probe_target s).1) as Hin.
  { intros pr. rewrite Hall. split; [intros [[]%elem_of_nil|?]; done|auto]. }
  assert (∀ svc, svc ∈ Engine.delayUp (App.eng a) ↔ ∃ s, s ∈ probed (Config.Config.Services cfg) ∧ Service.Name s = svc) as Hdel.
  { intros svc. rewrite Hd. simpl. rewrite elem_of_list_to_set. unfold Probes.services. rewrite list_elem_of_fmap.
    change (Probes.sip probes ++ Probes.dns probes ++ Probes.agw probes) with (all_probes probes).
    setoid_rewrite Hin. split; [intros (pr & -> & s & Hs & ->); by exists s|].
    intros (s & Hs & <-). exists (probe_of s (probe_target s).1). eauto. }
  split; [|exact Hdel]. intros p svc pr Hpin Hpr. unfold probers in Hpin. rewrite Hsip, Hdns, Hagw in Hpin.
  assert (pr ∈ all_probes probes ∧ Probe.Service pr = svc) as [(s & Hs & ->)%Hin <-].
  { unfold all_probes. rewrite !elem_of_cons in Hpin.
    destruct Hpin as [->|[->|[->|[]%elem_of_nil]]]; simpl in Hpr; apply NewProber_probes in Hpr as [? ?]; set_solver. }
  split_and!; [|done|apply Hdel; by exists s]. simpl. by eapply Forall_forall in Hloc.
Qed.

Lemma only_local_addresses_are_probed_witness :
  match sample_start with
  | Ok a =>
      Engine.delayUp (App.eng a) = {["a.service"]} ∧
      (∀ p svc pr, p ∈ probers a → Prober.probes p !! svc = Some pr →
         is_local (local_interfaces sample_machine) (Probe.Addr pr) ∧ Probe.Service pr = svc ∧
         svc ∈ Engine.delayUp (App.eng a))
  | Err _ => False
  end.
Proof.
  destruct sample_start as [a|e] eqn:E; [|by vm_compute in E].
  destruct (only_local_addresses_are_probed healthy _ _ sample_machine sample_config sample_disk a E) as [H _].
  split; [|exact H]. vm_compute in E. injection E as <-. by vm_compute.
Defined.

(** An exporter that started has one worker per configured receiver, in order,
    and all of them start with the same events and the same recovered slot and
    an empty queue. *)
Theorem receivers_start_alike faults (EC : EventCodec) (SC : StatesCodec) mc cfg disk a :
  startup faults mc cfg disk = Ok a →
  Target.ID <$> App.targets a = RemoteWriteTarget.ID <$> RemoteWriteConfig.Targets (Config.Config.RemoteWrite cfg) ∧
  ∃ events slot, Forall (λ t, Target.worker t = NewWorker (worker_config cfg events slot)) (App.targets a).
Proof.
  intros (probes & names & disk' & _ & Hs)%startup_inv.
  apply start_app_spec in Hs as [_ (events & slot & new & -> & Hid & Hw)]. simpl. eauto.
Qed.

Lemma receivers_start_alike_witness :
  match sample_start with
  | Ok a => Target.ID <$> App.targets a = ["t1"] ∧
      ∃ events slot, Forall (λ t, Target.worker t = NewWorker (worker_config sample_config events slot)) (App.targets a)
  | Err _ => False
  end.
Proof.
  destruct sample_start as [a|e] eqn:E; [|by vm_compute in E].
  exact (receivers_start_alike healthy _ _ sample_machine sample_config sample_disk a E).
Defined.
End StartupClaims.
