(* ===== verification/MainStatus.v ===== *)
(** * MainStatus: the registry and the connection

    [RunResilient] with the closures of [main]: what [/metrics] says about the
    system bus is what the connection loop did. *)

From S2P Require Import Prelude GoTime GoStrings Model Json Engine Slots Journal Backfill GoOS Wal Codec WalTheorems RemoteWrite Delivery GoText GoFloat Config Probe Systemd SystemdTheorems Metrics Main MainFacts MainTheorems.

(** The two numbers the registry keeps about the bus, and what they should be
    after the acts of the loop. *)
Definition status (a : App.t) : bool * Z := (Registry.dbusConnected (App.reg a), Registry.dbusDisconnects (App.reg a)).
Definition status_step (s : bool * Z) (x : act) : bool * Z :=
  match x with
  | ConnState true _ => (true, s.2)
  | ConnState false _ => (false, if s.1 then u64 (s.2 + 1) else s.2)
  | _ => s
  end.
Definition status_of (s : bool * Z) (acts : list act) : bool * Z := foldl status_step s acts.

Definition losses (acts : list act) : list act :=
  filter (λ x, is_true (match x with ConnState false _ => true | _ => false end)) acts.

(** In an accepted run a loss always ends a connection, so each one counts. *)
Lemma accepted_status acts p :
  run_phase Idle acts = Some p →
  status_of (false, 0) acts = (match p with Live => true | _ => false end, u64 #(losses acts)).
Proof.
  revert p. induction acts as [|x acts IH] using rev_ind; intros p; [by intros [= <-]|].
  rewrite run_phase_snoc. destruct (run_phase Idle acts) as [q|] eqn:Hq; [|done]. specialize (IH q eq_refl).
  unfold status_of, losses in *. rewrite foldl_app, filter_app, length_app, IH. cbn [foldl].
  destruct q, x as [| | | |[] ?|]; simpl; intros H; simplify_eq; unfold gap_phase; rewrite ?Nat.add_0_r; try done.
  - f_equal; [by destruct (IsZero _)|]. unfold u64. rewrite Zplus_mod_idemp_l. f_equal. lia.
  - by case_match; simplify_eq.
Qed.

Section Quiet.
Context (faults : oracle) {EC : EventCodec} {SC : StatesCodec} (h : host) (cfg : Config.Config.t).

Lemma status_reg g :
  (∀ r, Registry.dbusConnected (g r) = Registry.dbusConnected r ∧ Registry.dbusDisconnects (g r) = Registry.dbusDisconnects r) →
  pframes status (call (on_reg g)).
Proof. intros Hg. split; [|done]. intros a b a' [= _ <-]. unfold same, status. simpl. destruct (Hg (App.reg a)) as [-> ->]. done. Qed.
Lemma status_eng {B} (f : Engine.t → Engine.t * B) : pframes status (call (on_eng f)).
Proof. split; [|done]. intros a b a' H. unfold on_eng in H. destruct (f _). by injection H as _ <-. Qed.
Lemma status_publishWAL : pframes status publishWAL.
Proof.
  split; [apply moves_ask, _|]. intros w. split; [apply moves_ask, _|]. intros p. simpl. repeat case_match; try done.
  by apply status_reg.
Qed.
Lemma status_on_log m : pframes status (call (on_log m)).
Proof. apply pmoves_call, moves_on_log; framed. Qed.
Lemma status_worker i f : pframes status (call (on_worker i f)).
Proof. split; [|done]. by intros a b a' [= _ <-]. Qed.
Lemma status_journal {B} (f : journalctl_cmd → B) : pframes status (call (read_journal h f)).
Proof. split; [|done]. by intros a b a' [= _ <-]. Qed.
Lemma status_probers f : pframes status (on_probers f).
Proof. repeat (split; [by intros a b a' [= _ <-]|intros ?]). done. Qed.
Lemma status_count : pframes status (call count_targets).
Proof. split; [apply moves_ask, _|done]. Qed.
Lemma status_event ev : pframes status (call (on_reg (reg_Event ev))).
Proof. by apply status_reg. Qed.
Lemma status_state s st : pframes status (call (on_reg (SetState s st))).
Proof. by apply status_reg. Qed.
Lemma status_recovery f s e : pframes status (call (on_reg (RecordRecovery f s e))).
Proof. by apply status_reg. Qed.

Hint Resolve pmoves_ret pmoves_bind status_eng status_publishWAL status_on_log status_worker status_journal
  status_probers status_count status_event status_state status_recovery : status.
Ltac solve_status :=
  repeat first
    [ progress intros
    | solve [eauto 2 with status]
    | apply pmoves_each_target; [apply _|]
    | apply pmoves_bind
    | match goal with |- pmoves _ (match ?x with _ => _ end) => destruct x end ].

Lemma status_persist ev enq : pframes status (persistEvent faults ev enq).
Proof. unfold persistEvent, appendEvent, EnqueueEvent. solve_status. Qed.
Lemma status_save st : pframes status (saveState faults st).
Proof. unfold saveState. solve_status. Qed.
Hint Resolve status_persist status_save : status.
Lemma status_publish_events evs : pframes status (publish_events faults evs).
Proof. induction evs as [|ev evs IH]; cbn [publish_events]; solve_status. Qed.
Hint Resolve status_publish_events : status.
Lemma status_onSnapshot s : frames status (alone (app_onSnapshot faults s)).
Proof. apply moves_alone; [apply _|]. unfold app_onSnapshot, settle, eng_State. solve_status. Qed.

Lemma status_import_events evs recovered : pframes status (import_events faults evs recovered).
Proof. induction evs as [|ev evs IH] in recovered |- *; cbn [import_events]; unfold eng_State; solve_status. Qed.
Hint Resolve status_import_events : status.
Lemma status_import_all cs recovered : pframes status (import_all faults cs recovered).
Proof. induction cs as [|c cs IH] in recovered |- *; cbn [import_all]; solve_status. Qed.
Lemma status_read_states services states : pframes status (read_states services states).
Proof. induction services as [|x l IH] in states |- *; cbn [read_states]; unfold eng_State; solve_status. Qed.
Hint Resolve status_import_all status_read_states : status.
Lemma status_onRecovery from to : frames status (alone (app_onRecovery faults h cfg from to)).
Proof. apply moves_alone; [apply _|]. unfold app_onRecovery, hand_over_recovery, engineStates. solve_status. Qed.
End Quiet.

(** ** The loop *)

Section Loop.
Context (faults : oracle) {EC : EventCodec} {SC : StatesCodec} (h : host) (cfg : Config.Config.t).
Context (b : bus) (s0 : bool * Z).
Notation R := (M (Client.t * App.t)).
Notation cb := (app_callbacks faults h cfg).

(** The registry says what the acts so far amount to. *)
Definition in_step (s : Client.t * App.t) : Prop := status s.2 = status_of s0 (Client.trace s.1).
Definition tracks {B} (m : R B) : Prop := ∀ s x s', in_step s → m s = (x, s') → in_step s'.

Lemma tracks_ret {B} (x : B) : tracks (ret x).
Proof. by intros s y s' Hs [= _ <-]. Qed.
Lemma tracks_bind {B C} (m : R B) (k : B → R C) : tracks m → (∀ x, tracks (k x)) → tracks (bind m k).
Proof. intros Hm Hk s y s' Hs H. bind_inv H as x s1 H1. eapply Hk; [|exact H]. by eapply Hm. Qed.
Lemma tracks_ask {B} (f : nat → B) : tracks (ask f).
Proof. by intros [c a] x s' Hs [= _ <-]. Qed.
Lemma tracks_modify f : (∀ c, Client.trace (f c) = Client.trace c) → tracks (modify_fst f).
Proof. intros Hf [c a] x s' Hs [= _ <-]. unfold in_step. simpl. by rewrite Hf. Qed.
Lemma tracks_on_snd {B} (m : M App.t B) : frames status m → tracks (on_snd m).
Proof.
  intros Hm [c a] x s' Hs H. apply on_snd_inv in H as (a' & H & ->). apply Hm in H. unfold in_step in *. simpl in *. congruence.
Qed.
Lemma tracks_record x : (∀ s, status_step s x = s) → tracks (record x).
Proof.
  intros Hx [c a] u s' Hs [= _ <-]. unfold in_step, status_of in *. simpl in *.
  rewrite foldl_app, <- Hs. simpl. by rewrite Hx.
Qed.

(** A change of the connection is recorded and told to the registry. *)
Lemma tracks_connection connected at_ {B} (k : R B) :
  tracks k →
  tracks (_ <- record (ConnState connected at_);; _ <- on_snd (onConnectionState cb connected at_);; k).
Proof.
  intros Hk [c a] x s' Hs H. eapply Hk; [|exact H]. unfold in_step, status_of in *. simpl in *.
  rewrite foldl_app, <- Hs. unfold status, SetDBusConnected. simpl.
  by destruct (Registry.dbusConnected (App.reg a)) eqn:E, connected; simpl; rewrite ?E.
Qed.

Lemma tracks_drop conn : tracks (drop_conn conn).
Proof. apply tracks_bind; [by apply tracks_modify|]. intros ?. by apply tracks_modify. Qed.
Lemma tracks_release conn : tracks (release_conn conn).
Proof. apply tracks_bind; [by apply tracks_modify|]. intros ?. by apply tracks_modify. Qed.
Lemma tracks_deliver s : tracks (deliver cb s).
Proof. apply tracks_bind; [by apply tracks_record|]. intros ?. apply tracks_on_snd, status_onSnapshot. Qed.
Lemma tracks_error e : tracks (onConnectionError e).
Proof. by apply tracks_record. Qed.

Hint Resolve tracks_ret tracks_bind tracks_ask tracks_drop tracks_release tracks_deliver tracks_error : tracks.
Ltac solve_tracks :=
  repeat first
    [ progress intros
    | solve [eauto 2 with tracks]
    | apply tracks_record; reflexivity
    | apply tracks_bind
    | match goal with |- tracks (match ?x with _ => _ end) => destruct x end ].

Lemma tracks_Snapshot u bootID : tracks (Snapshot b u bootID).
Proof. unfold Snapshot, time_Now. solve_tracks. Qed.
Hint Resolve tracks_Snapshot : tracks.
Lemma tracks_load_units services m : tracks (load_units b services m).
Proof. induction services as [|s services IH] in m |- *; simpl; unfold LoadUnit; solve_tracks. Qed.
Hint Resolve tracks_load_units : tracks.
Lemma tracks_handler bootID u : tracks (handler b cb bootID u).
Proof. unfold handler. solve_tracks. Qed.
Hint Resolve tracks_handler : tracks.
Lemma tracks_handle_all bootID us : tracks (handle_all b cb bootID us).
Proof. induction us as [|u us IH]; simpl; solve_tracks. Qed.
Hint Resolve tracks_handle_all : tracks.
Lemma tracks_Run fuel bootID m : tracks (Run b cb fuel bootID m).
Proof. induction fuel as [|fuel IH]; simpl; [solve_tracks|]. cbv zeta. solve_tracks. Qed.
Hint Resolve tracks_Run : tracks.
Lemma tracks_first_snapshots services bootID m : tracks (first_snapshots b cb services bootID m).
Proof. induction services as [|s services IH]; simpl; unfold byService; solve_tracks. Qed.
Hint Resolve tracks_first_snapshots : tracks.
Lemma tracks_recover_gap at_ : tracks (recover_gap b cb at_).
Proof.
  unfold recover_gap. destruct (IsZero at_); [solve_tracks|]. apply tracks_bind; [apply tracks_ask|]. intros now.
  apply tracks_bind; [apply tracks_on_snd, status_onRecovery|]. intros e. apply tracks_bind; [by apply tracks_record|].
  solve_tracks.
Qed.
Hint Resolve tracks_recover_gap : tracks.

Lemma tracks_monitor fuel services conn m bootID once at_ :
  tracks (monitor b cb fuel services conn m bootID once at_).
Proof.
  unfold monitor. apply tracks_bind; [solve_tracks|]. intros ?. apply tracks_bind; [solve_tracks|].
  intros [| |e]; [|solve_tracks..]. apply tracks_bind; [apply tracks_ask|]. intros now. apply tracks_connection.
  apply tracks_bind; [solve_tracks|]. intros [e|]; [|solve_tracks]. apply tracks_bind; [solve_tracks|]. intros ?.
  apply tracks_bind; [apply tracks_ask|]. intros [|]; [solve_tracks|]. apply tracks_bind; [apply tracks_ask|]. intros t.
  apply tracks_connection. solve_tracks.
Qed.
Hint Resolve tracks_monitor : tracks.

Lemma tracks_turn fuel services interval once at_ : tracks (resilient_turn b cb fuel services interval once at_).
Proof.
  unfold resilient_turn. apply tracks_bind; [unfold pause, ctx_Err; solve_tracks|]. intros [|]; [solve_tracks|].
  apply tracks_bind.
  { apply tracks_bind; [apply tracks_ask|]. intros [e|]; [solve_tracks|].
    intros [c a] x s' Hs [= _ <-]. exact Hs. }
  intros [conn|e]; [|unfold ctx_Err; solve_tracks]. apply tracks_bind; [by apply tracks_modify|]. intros ?.
  apply tracks_bind; [unfold setup, Subscribe; solve_tracks|]. solve_tracks.
Qed.

Lemma tracks_turns turns fuel services interval once at_ :
  tracks (run_turns b cb turns fuel services interval once at_).
Proof.
  induction turns as [|turns IH] in once, at_ |- *; simpl; [solve_tracks|].
  apply tracks_bind; [apply tracks_turn|]. intros [e|once' at'|]; [solve_tracks|apply IH|solve_tracks].
Qed.
End Loop.

Module StatusClaims.

(** C18: When [RunResilient] runs with the closures of [main] from a registry
    that has not seen the bus, the registry says connected exactly while the
    loop is monitoring, and its counter of disconnections is the number of
    losses the loop reported, whatever the bus, the journal and the disk do.
    *)
Theorem status_follows_the_connection (faults : oracle) (EC : EventCodec) (SC : StatesCodec) h cfg b turns fuel
    services interval a :
  status a = (false, 0) →
  let s' := (RunResilient b (app_callbacks faults h cfg) turns fuel services interval (Client.empty, a)).2 in
  let acts := Client.trace s'.1 in
  ∃ p, run_phase Idle acts = Some p ∧
    Registry.dbusConnected (App.reg s'.2) = (match p with Live => true | _ => false end) ∧
    Registry.dbusDisconnects (App.reg s'.2) = u64 #(losses acts).
Proof.
  intros Ha s' acts.
  pose proof (RunResilient_spec b (app_callbacks faults h cfg) turns fuel services interval a) as H. unfold acts, s'.
  destruct (RunResilient b _ turns fuel services interval (Client.empty, a)) as [r s1] eqn:E.
  destruct H as (p & k & [Hp _] & _). exists p. split; [exact Hp|].
  unfold RunResilient in E. pose proof (tracks_turns faults h cfg b (false, 0) _ _ _ _ _ _ (Client.empty, a) r s1 Ha E) as Hs.
  unfold in_step in Hs. rewrite (accepted_status _ _ Hp) in Hs. by injection Hs.
Qed.

Lemma status_follows_the_connection_witness :
  let s' := (RunResilient flaky_bus (app_callbacks healthy sample_host sample_config) 3 5 ["a.service"] Second
               (Client.empty, sample_app)).2 in
  (∃ p, run_phase Idle (Client.trace s'.1) = Some p ∧
     Registry.dbusConnected (App.reg s'.2) = (match p with Live => true | _ => false end) ∧
     Registry.dbusDisconnects (App.reg s'.2) = u64 #(losses (Client.trace s'.1))) ∧
  losses (Client.trace s'.1) = [ConnState false (10 * Second)].
Proof.
  split; [|by vm_compute].
  apply (status_follows_the_connection healthy _ _ sample_host sample_config flaky_bus 3 5 ["a.service"] Second sample_app).
  reflexivity.
Defined.
End StatusClaims.
